(* ===== verification/_CoqProject ===== *)
-Q . S2P
Prelude.v
BTree.v
Errors.v
Bounds.v
Predicate.v
ValueFacts.v
Obligation.v
Launch.v
Goals.v
Placement.v
AccessSafety.v
Enums.v
Encoding.v
IR.v
Text.v
TypeText.v
Options.v
Module.v
Tables.v
JitCache.v
Backend.v
Toolchain.v
JitStore.v
TypeTable.v
Writer.v
OpWriter.v
ModuleWriter.v
WriterFacts.v
OpLayout.v
Decoder.v
Roundtrip.v
WriterTotal.v
VerifyTarget.v
Capabilities.v
SlotTable.v
Specialization.v
Tensor.v
Access.v
KernelArgs.v
Plan.v
KernelCache.v
Eviction.v
Reactor.v
ScanPass.v
Future.v
Tune.v
TuneRecord.v
