(* ===== verification/Prelude.v ===== *)
(** * cutile-rs: a verification library

    cutile-rs compiles a restricted Rust dialect of tile kernels to NVIDIA's
    Tile IR bytecode and launches the result.  Its safety argument is that a
    kernel written in safe Rust never reads or writes outside a tensor: every
    partition access carries a proof obligation that is discharged at the
    earliest stage able to decide it, JIT compilation, kernel launch, or a
    check executed by the device.  This library models that argument end to
    end, the tensors a launch binds and the tracking of their accesses, the
    bytecode layer that carries compiled kernels, the back end behind its
    persistent cache, the launch plans that replay a resolved launch and the
    in-memory caches they live in, the reactor and the futures that report
    completion to asynchronous callers, and the autotuner that picks the
    configuration a kernel is compiled with.

    ** The program's parts and the files that model them

    Compile-time reasoning (cutile-compiler/src):
    - [Bounds.v]: bounds.rs, the interval domain [Bounds<i64>] and its
      dispatcher [bounds_from_bop].
    - [ValueFacts.v]: value_facts.rs and the value record of
      compiler/_value.rs: intervals, linear terms and floor-division residues
      pushed through a binary operation.
    - [Obligation.v]: passes/proof_analysis.rs ([preconditions] parsing),
      passes/obligation.rs (the solver) and the obligation methods of
      compiler/_function.rs.  The compiler's mutable state is [CompState], the
      part of a [CUDATileFunctionCompiler] fixed during a function [FnCompiler].
    - [Goals.v]: compiler/checks/goals.rs and checks/mod.rs, the goal pair
      of a partition axis, its proof sources, and the plain and bounded
      ladders that try them in order.
    - [Placement.v]: compiler/checks/placement.rs with what it calls in
      compile_binary_op.rs, _function.rs and cutile-ir's builder: emission of
      a device check into the access's block or a loop preheader, together
      with a machine semantics of the emitted instructions.

    Shared by compiler and host (cuda-async/src):
    - [Predicate.v]: predicate.rs, the canonical linear terms and predicates
      that cross from the compiler to the launcher.
    - [BTree.v]: the part of [std::collections::BTreeMap] those terms use.
    - [Errors.v]: error.rs, the errors of device operations.

    Host side (cutile/src):
    - [Launch.v]: tile_kernel.rs and plan.rs, grid inference and validation,
      evaluation of launch checks, and admission of a cached launch plan.
    - [Specialization.v]: cutile-compiler/src/specialization.rs, the
      alignment, stride and disjointness facts a tensor is compiled for.
    - [Tensor.v]: tensor.rs, tensors over device, foreign and meta memory,
      reshapes, views, slices, partitions and their launch grids.
    - [Access.v]: the storage access list of tensor.rs, cuda-async's
      submission.rs and the captured resources of cuda_graph.rs, as atomic
      steps of any number of threads and the device.
    - [AccessSafety.v]: the composition; compiler ladders against the
      [LaunchEnforcer] interface (stated in [Obligation.v]), which the
      launcher of [Launch.v] implements.

    Launching through plans and caches (cutile/src, cuda-async/src):
    - [KernelArgs.v]: cuda-core's dtype.rs, launch.rs and the argument traits of
      tensor.rs and plan.rs, with the statements kernel_launcher_generator.rs
      emits to marshal a launch.
    - [Plan.v]: plan.rs, capturing a resolved launch as a plan and replaying it
      with new arguments, checked or raw.
    - [KernelCache.v]: the launch sites of tile_kernel.rs and the plan caches of
      plan.rs, lookup and insertion.
    - [Eviction.v]: the same caches under any number of threads that resolve,
      store and evict, as atomic steps under the locks of the source.

    Back end and persistent cache (cutile-compiler/src):
    - [Options.v]: hints.rs, compiler/optimization_hints.rs and the stage-2
      options of cuda_tile_runtime_utils.rs.
    - [JitCache.v]: jit_cache.rs, cache keys and the codec of entries.
    - [Backend.v]: cuda_tile_runtime_utils.rs, running [tileiras] behind the
      cache; [JitStore] is the source's trait, [TrustedStore] the promise a
      store makes, against which the cached compile is verified.
    - [Toolchain.v]: cutile-ir/src/toolchain.rs and the discovery half of
      cuda_tile_runtime_utils.rs, the assembler and its bytecode version.
    - [JitStore.v]: [FileSystemJitStore] of jit_cache.rs, which keeps that
      promise; the protocol of its writers on one directory is the module
      [Protocol].

    Bytecode (cutile-ir/src):
    - [Enums.v]: bytecode/enums.rs, opcode.rs, error.rs.
    - [Encoding.v]: bytecode/encoding.rs and the [Reader] of decoder.rs.
    - [IR.v]: the data model of ir/ and the tables of requirements.rs.
    - [Text.v], [TypeText.v]: the [str] operations of the standard library the
      type parser uses, the type parser of ir/types.rs and the printing of
      types of ir/fmt.rs.
    - [Tables.v]: the string, constant and debug-attribute tables of
      bytecode/writer.rs and debug_info.rs, and their parsers.
    - [TypeTable.v]: the type table of writer.rs and its decoder.
    - [Module.v]: ir/module.rs and builder/mod.rs, the arenas and their
      builders, the dominance verifier and the bytecode-index verifier.
    - [Writer.v]: the writer context, debug-info collector and attribute
      encodings of writer.rs.  Routines live in the monad [WM] over the
      context and the output buffer; [respects] is the shared way to show
      what a routine may do to its state.
    - [OpWriter.v]: op_writer.rs, the body of every opcode at every version.
    - [ModuleWriter.v]: the rest of writer.rs, from pre-scan to sections.
    - [Decoder.v]: the sections of decoder.rs and its text dump.
    - [WriterFacts.v], [OpLayout.v], [Roundtrip.v], [WriterTotal.v]: the
      theorems on the above.
    - [VerifyTarget.v], [Capabilities.v]: verify_target.rs and
      capabilities.rs, the checks of a module against its target before it is
      written.

    Completion of asynchronous work (cuda-async/src):
    - [SlotTable.v]: slot_table.rs, the lock-free table of pending completions.
    - [Reactor.v]: reactor.rs, registering threads and the scanner thread as
      interleaved atomic steps with the device.
    - [ScanPass.v]: one undisturbed pass of the scanner against those steps.
    - [Future.v]: device_future.rs, a device future from its first poll to its
      drop, interleaved with the callback that completes it and the stream.

    Autotuning (cutile/src/tune.rs):
    - [Tune.v]: configurations, trials, the built-in searches, the objective
      adapters ([Objective] and [Searcher] are the source's traits) and the
      tuning runs with required configurations.
    - [TuneRecord.v]: tuning records and their verified loading, and the
      append-only trial log with its resumption.

    ** What the theorems show

    - Access safety ([AccessSafety.v], [Goals.v], [Placement.v]): if the
      compiler accepts an access, the host accepts the launch and no emitted
      check traps, then every coordinate satisfies [0 <= i] and [i * t < e].
      The emitted instruction list is executed by [exec]; a passed check
      implies the goal it stands for at every iteration it was hoisted over,
      and an in-place check traps on nothing else.
    - Obligations ([Obligation.v], [Launch.v]): an obligation reported as
      placed holds on every accepted launch; declared [preconditions] are
      believed exactly as stated; a replayed plan keeps every check.
    - Canonical algebra ([Predicate.v]): operations keep the normal form,
      denote what they are built from, and structural equality is semantic
      equality, which is what lets the solver compare predicates with [==].
    - Facts ([Bounds.v], [ValueFacts.v]): intervals contain the operation's
      value and survive only where the machine operation cannot wrap; terms
      are congruent to the machine value modulo the word size.
    - Bytecode ([Encoding.v], [Tables.v], [TypeTable.v], [Enums.v]): every
      primitive and every table section decodes to what was written, types
      are interned after the types they mention, and a type newer than the
      target version is refused.
    - Types as text ([TypeText.v]): the parser reads back every type the
      printer writes, the rank-0 tensor view apart.
    - Targets ([VerifyTarget.v], [Capabilities.v]): the validator returns on
      every module without cyclic nesting, its checks are exactly the stated
      ones for tile types, and a module it accepts passes the version gates
      of the writer.
    - Tensors ([Specialization.v], [Tensor.v]): the recorded hints divide what
      they claim; a tensor marked disjoint has distinct offsets; no chain of
      views and slices reaches outside the allocation; a validated launch grid
      covers a partitioned tensor with every element in one block's tile.
    - Accesses ([Access.v]): no interleaving lets conflicting work run on two
      streams or frees a storage in use; a storage reported unique has one
      handle unless a [retain] call is half-way; a graph reacquires one
      resource per storage, writing if any recorded one did.
    - Modules ([Module.v]): the dominance verifier accepts a module exactly
      when every operand is defined on the path to its use.
    - Writing modules ([WriterFacts.v], [OpLayout.v], [Roundtrip.v],
      [WriterTotal.v]): serializing a region leaves the value numbering as it
      found it; result headers agree with the counts the format fixes; the
      debug ids of a function line up with its operations; the dump of a
      written file lists exactly the strings, types, constants, globals,
      functions and debug attributes of the module; the writer returns on
      every module that nests without cycles and declares fitting operand
      segments.  A function with optimization hints is the exception in the
      decoder, which reads the hints as the body length.
    - Completion ([SlotTable.v], [Reactor.v], [ScanPass.v]): every
      interleaving delivers each registration at most once and only after its
      flag landed or its stream faulted; a parked scanner with work pending
      has a wake-up coming; a pass computed by [scan_inner] is a run of the
      atomic steps.
    - Futures ([Future.v]): a stored result is handed out or dropped only
      after the work that uses it is done, is leaked otherwise, and is in one
      place at any time; when the completion callback has run, the waker of
      the last pending poll has been called.
    - Plans ([KernelArgs.v], [Plan.v]): replaying a plan gives the driver the
      call a fresh launch with those arguments gives, or an error, and retains
      the same storages; a raw replay accepted by its checks satisfies every
      divisibility the kernel was compiled for.
    - Caches of launches ([KernelCache.v], [Eviction.v]): a plan cache serves a
      plan exactly when one was stored for this epoch, device, options and
      layout; when an eviction has finished, no launch site or plan cache
      serves a function it removed.
    - Persistent cache ([JitCache.v], [Backend.v], [JitStore.v]): requests with
      one key are one request, or SHA-256 collides; an entry is accepted only
      for the request it was written for; whatever a store answers, a compile
      that would succeed succeeds, and over trusted stores it returns only what
      the compiler wrote for that request; the file-system store is such a
      store, a reader of a shared directory sees complete values only, a value
      put is the value read next, and evictions are least recently used first.
    - Toolchain ([Toolchain.v]): the version compiled for is one the writer
      emits and the assembler accepts, the requested one or else the newest
      one, all newer ones having been refused by the assembler itself; an
      assembler found in a default location is of a supported toolkit.
    - Autotuning ([Tune.v], [TuneRecord.v]): the winner of a run with required
      configurations is no slower than any of them that measured; equal ids
      mean equal configurations; a record is loaded exactly when every field
      of its provenance agrees, with the warnings stated; a trial log whose
      last line was torn by a crash resumes with every complete trial.

    ** Modelling conventions

    A fallible function returns [outcome]: [Ok], [Err] (the arms of
    [Result]) or [Panic].  Machine integers are [Z] kept in range by the
    operations named after Rust's ([saturate_i64], [checked_i64], [as_u32],
    ...).  State is passed explicitly; emission uses the state-and-error monad
    [EM], serialization the monad [WM], decoding the reader monad [RM].
    Recursion is structural on the data wherever the source iterates over a
    collection.  The fuel of the remaining loops is fixed by the data: a varint
    takes at most ten bytes of seven bits, and the reader refuses a tenth
    continuation byte; interning a type recurses at most to its nesting rank;
    the outward walk of a hoisted check recurses on the loop depth; the walks
    over a module have one more round than it has operations, which
    [module_fuel_enough] shows is enough for every nest without cycles (the
    source overflows its stack on the others); the section loop of the decoder
    has one more round than the file has bytes; the type parser has one more
    than the text has characters ([parse_fuel_enough]); a word of the slot
    table has 64 bits.  Running out is [Panic], and [writer_returns] shows the writer
    never does.  Round trips and totality state that the result is produced.

    Code outside the repository appears as section parameters: the 16-bit
    float conversions of the [half] crate, the derived [Debug] text of
    attributes and the escaping of quoted strings, the answers of the driver
    to stream queries and to each call a poll makes, the JSON text [serde_json]
    writes for a line of a trial log, the hash functions of [rustc_hash] and
    [sha2] (of a digest only its length and byte range are assumed), the
    [tileiras] program and the module loader of the driver, the answers of the
    operating system to file operations, and, as the caller supplies them, the
    objective, the searcher and the verifier of cache keys of a tuning run.
    Binary64 is the Standard Library's [SpecFloat].

    ** What is not modelled

    The front end over [syn] syntax trees (its results enter as values with
    facts), procedural macros other than the launch statements they emit, CUDA
    bindings, stream scheduling policies and the combinators of device
    operations, the timing of trials on a device, the printing of operations,
    the choice of the default cache directory, the image the probe of the
    installed toolchain compiles, logging, and the convenience functions that
    read or write files.  Device execution is modelled only for the integer
    instructions a check consists of; the interleaving of the reactor is
    sequentially consistent, and so is that of the access list, whose runs are
    bounded by the range of the 64-bit id counter. *)

From stdpp Require Export base tactics list list_numbers gmap strings pretty.
From Stdlib Require Export ZArith Lia.

#[global] Open Scope Z_scope.

Declare Scope rust_scope.
Delimit Scope rust_scope with rust.
#[global] Open Scope rust_scope.

(** ** Outcomes of fallible code

    A Rust function that returns [Result] or may panic is modelled by a value
    of [outcome E A]: [Ok] and [Err] are the two arms of [Result], [Panic] is
    an unwinding panic (failed slice index, arithmetic overflow check,
    [panic!], allocation size overflow). *)

Inductive outcome (E A : Type) : Type :=
| Ok (a : A)
| Err (e : E)
| Panic.

Arguments Ok {E A} a.
Arguments Err {E A} e.
Arguments Panic {E A}.

#[export] Instance outcome_ret {E} : MRet (outcome E) := fun A a => Ok a.

#[export] Instance outcome_bind {E} : MBind (outcome E) := fun A B f m =>
  match m with
  | Ok a => f a
  | Err e => Err e
  | Panic => Panic
  end.

#[export] Instance outcome_fmap {E} : FMap (outcome E) := fun A B f m =>
  match m with
  | Ok a => Ok (f a)
  | Err e => Err e
  | Panic => Panic
  end.

#[export] Instance outcome_eq_dec {E A} `{EqDecision E, EqDecision A} :
  EqDecision (outcome E A).
Proof. solve_decision. Defined.

Lemma Ok_inj {E A} (a b : A) : Ok (E:=E) a = Ok b -> a = b.
Proof. by intros [= ->]. Qed.

Lemma bind_Ok {E A B} (m : outcome E A) (f : A -> outcome E B) b :
  (m ≫= f) = Ok b <-> exists a, m = Ok a /\ f a = Ok b.
Proof. destruct m; cbn; naive_solver. Qed.

Lemma bind_ret_l {E A B} (a : A) (f : A -> outcome E B) : (Ok a ≫= f) = f a.
Proof. reflexivity. Qed.

Lemma bind_assoc {E A B C} (m : outcome E A) (f : A -> outcome E B) (g : B -> outcome E C) :
  ((m ≫= f) ≫= g) = (m ≫= (fun a => f a ≫= g)).
Proof. by destruct m. Qed.

Lemma bind_no_panic {E A B} (m : outcome E A) (f : A -> outcome E B) :
  m <> Panic -> (forall a, m = Ok a -> f a <> Panic) -> (m ≫= f) <> Panic.
Proof. destruct m; cbn; naive_solver. Qed.

(** The [?] operator over [Option] inside a [Result] function and similar
    lifts. *)
Definition ok_or {E A} (o : option A) (e : E) : outcome E A :=
  match o with Some a => Ok a | None => Err e end.

(** Invert [m ≫= f = Ok b] hypotheses, exposing every intermediate value. *)
Ltac inv_ok :=
  repeat match goal with
  | H : (_ ≫= _) = Ok _ |- _ =>
      let a := fresh "a" in let H1 := fresh "H" in
      apply bind_Ok in H as (a & H1 & H)
  | H : Ok _ = Ok _ |- _ => injection H; clear H; intros; subst
  | H : Err _ = Ok _ |- _ => discriminate H
  | H : Panic = Ok _ |- _ => discriminate H
  | H : mret _ = Ok _ |- _ => unfold mret, outcome_ret in H
  end.

(** ** Machine integers

    A [w]-bit integer is a [Z]; wrap-around, saturation and checking are
    written out where the source performs them. *)

Definition I32_MIN : Z := -2147483648.
Definition I32_MAX : Z := 2147483647.
Definition U32_MAX : Z := 4294967295.
Definition I64_MIN : Z := -9223372036854775808.
Definition I64_MAX : Z := 9223372036854775807.
Definition U64_MAX : Z := 18446744073709551615.

(** On the supported hosts [usize] is 64 bits wide and an allocation is at
    most [isize::MAX] bytes. *)
Definition USIZE_MAX : Z := U64_MAX.
Definition ISIZE_MAX : Z := I64_MAX.

Definition in_u8 (z : Z) : Prop := 0 <= z <= 255.
Definition in_i32 (z : Z) : Prop := I32_MIN <= z <= I32_MAX.
Definition in_u32 (z : Z) : Prop := 0 <= z <= U32_MAX.
Definition in_i64 (z : Z) : Prop := I64_MIN <= z <= I64_MAX.
Definition in_u64 (z : Z) : Prop := 0 <= z <= U64_MAX.

#[export] Instance in_u8_dec z : Decision (in_u8 z).
Proof. unfold in_u8. apply _. Defined.
#[export] Instance in_i32_dec z : Decision (in_i32 z).
Proof. unfold in_i32. apply _. Defined.
#[export] Instance in_u32_dec z : Decision (in_u32 z).
Proof. unfold in_u32. apply _. Defined.
#[export] Instance in_i64_dec z : Decision (in_i64 z).
Proof. unfold in_i64. apply _. Defined.
#[export] Instance in_u64_dec z : Decision (in_u64 z).
Proof. unfold in_u64. apply _. Defined.

(** [as] casts: truncation to the low bits, read back as unsigned or as two's
    complement. *)
Definition as_u8 (z : Z) : Z := z mod 2 ^ 8.
Definition as_u16 (z : Z) : Z := z mod 2 ^ 16.
Definition as_u32 (z : Z) : Z := z mod 2 ^ 32.
Definition as_u64 (z : Z) : Z := z mod 2 ^ 64.
Definition as_signed (w : Z) (z : Z) : Z := (z + 2 ^ (w - 1)) mod 2 ^ w - 2 ^ (w - 1).
Definition as_i32 (z : Z) : Z := as_signed 32 z.
Definition as_i64 (z : Z) : Z := as_signed 64 z.

Definition checked_i64 (z : Z) : option Z :=
  if bool_decide (in_i64 z) then Some z else None.

Definition saturate_i64 (z : Z) : Z := Z.max I64_MIN (Z.min I64_MAX z).

(** [bool as i64]. *)
Definition bool_as (b : bool) : Z := if b then 1 else 0.

(** Number of significant bits of a non-negative integer: what
    [BITS - leading_zeros()] computes. *)
Definition bit_length (z : Z) : Z := if z =? 0 then 0 else Z.log2 z + 1.

Ltac unfold_int :=
  unfold in_u8, in_i32, in_u32, in_i64, in_u64, saturate_i64,
    USIZE_MAX, ISIZE_MAX, I32_MIN, I32_MAX, U32_MAX, I64_MIN, I64_MAX, U64_MAX in *.

(** [lia] after exposing the machine-integer ranges. *)
Ltac int_lia := unfold_int; cbn in *; lia.

Create HintDb rust discriminated.

Lemma saturate_in_i64 z : in_i64 (saturate_i64 z).
Proof. unfold_int; lia. Qed.

Lemma saturate_id z : in_i64 z -> saturate_i64 z = z.
Proof. unfold_int; lia. Qed.

Lemma saturate_mono x y : x <= y -> saturate_i64 x <= saturate_i64 y.
Proof. unfold_int; lia. Qed.

Lemma in_i64_min u v : in_i64 u -> in_i64 v -> in_i64 (Z.min u v).
Proof. destruct (Z.min_spec u v) as [[_ ->]|[_ ->]]; done. Qed.

Lemma in_i64_max u v : in_i64 u -> in_i64 v -> in_i64 (Z.max u v).
Proof. destruct (Z.max_spec u v) as [[_ ->]|[_ ->]]; done. Qed.

Lemma in_i64_convex u v w : in_i64 u -> in_i64 v -> u <= w <= v -> in_i64 w.
Proof. unfold in_i64. lia. Qed.

Lemma checked_i64_Some z z' : checked_i64 z = Some z' <-> z' = z /\ in_i64 z.
Proof. unfold checked_i64. case_bool_decide; naive_solver. Qed.

Lemma checked_i64_ok z : in_i64 z -> checked_i64 z = Some z.
Proof. intros. by apply checked_i64_Some. Qed.

Lemma as_signed_id w z : 0 < w -> - 2 ^ (w - 1) <= z < 2 ^ (w - 1) -> as_signed w z = z.
Proof.
  intros Hw Hz. unfold as_signed.
  assert (2 ^ w = 2 * 2 ^ (w - 1)) by (rewrite <- Z.pow_succ_r by lia; f_equal; lia).
  rewrite Z.mod_small; lia.
Qed.

Lemma as_i64_id z : in_i64 z -> as_i64 z = z.
Proof. intros H. apply as_signed_id; [lia|]. unfold_int; cbn; lia. Qed.

Lemma as_i32_id z : in_i32 z -> as_i32 z = z.
Proof. intros H. apply as_signed_id; [lia|]. unfold_int; cbn; lia. Qed.

Lemma as_u64_id z : in_u64 z -> as_u64 z = z.
Proof. intros. apply Z.mod_small. int_lia. Qed.

Lemma as_u32_id z : in_u32 z -> as_u32 z = z.
Proof. intros. apply Z.mod_small. int_lia. Qed.

Lemma as_u8_id z : in_u8 z -> as_u8 z = z.
Proof. intros. apply Z.mod_small. int_lia. Qed.

Lemma bit_length_nonneg z : 0 <= bit_length z.
Proof. unfold bit_length. destruct (z =? 0); [lia|]. pose proof (Z.log2_nonneg z). lia. Qed.

(** A non-negative integer fits in [n] bits exactly when its bit length is at
    most [n]. *)
Lemma bit_length_le z n : 0 <= z -> 0 <= n -> (bit_length z <= n <-> z < 2 ^ n).
Proof.
  intros Hz Hn. unfold bit_length. destruct (Z.eqb_spec z 0) as [->|Hne].
  - split; [intros _; apply Z.pow_pos_nonneg; lia | lia].
  - rewrite Z.log2_lt_pow2 by lia. lia.
Qed.

Lemma bit_length_lt_pow z : 0 <= z -> z < 2 ^ bit_length z.
Proof. intros. apply bit_length_le; auto using bit_length_nonneg. lia. Qed.

Lemma land_le_l x y : 0 <= x -> 0 <= y -> Z.land x y <= x.
Proof.
  intros. destruct x as [|p|p], y as [|q|q]; unfold Z.land; try lia.
  pose proof (N.land_le_l (N.pos p) (N.pos q)) as Hl. unfold N.land in Hl. lia.
Qed.

Lemma land_bounds x y : 0 <= x -> 0 <= y -> 0 <= Z.land x y <= Z.min x y.
Proof.
  intros. pose proof (Z.land_nonneg x y).
  assert (Z.land x y <= x) by (apply land_le_l; lia).
  assert (Z.land x y <= y) by (rewrite Z.land_comm; apply land_le_l; lia).
  intuition lia.
Qed.

(** A [u64] is a number without bits above the sixty-fourth; bit operations
    keep that. *)
Lemma in_u64_shiftr z : in_u64 z <-> Z.shiftr z 64 = 0.
Proof.
  rewrite Z.shiftr_div_pow2 by lia. unfold_int. split.
  - intros. apply Z.div_small. lia.
  - intros H. apply Z.div_small_iff in H; lia.
Qed.

Lemma in_u64_lor x y : in_u64 x -> in_u64 y -> in_u64 (Z.lor x y).
Proof. rewrite !in_u64_shiftr, Z.shiftr_lor. by intros -> ->. Qed.

Lemma in_u64_land x y : in_u64 x -> in_u64 (Z.land x y).
Proof. rewrite !in_u64_shiftr, Z.shiftr_land. by intros ->. Qed.

#[export] Hint Resolve saturate_in_i64 in_i64_min in_i64_max bit_length_nonneg : rust.

(** ** Options and joined text *)

Definition is_some {A} (o : option A) : bool := match o with Some _ => true | None => false end.

(** [parts.join(sep)]. *)
Fixpoint join (sep : string) (l : list string) : string :=
  match l with
  | [] => EmptyString
  | [s] => s
  | s :: l => s +:+ sep +:+ join sep l
  end.

(** ** Lists filtered by a test *)

Lemma filter_test_ext {A} (f g : A -> bool) (l : list A) : (forall x, x ∈ l -> f x = g x) ->
  filter (fun x => f x = true) l = filter (fun x => g x = true) l.
Proof.
  induction l as [|x l IH]; [done|]. intros H. rewrite !filter_cons, (H x) by set_solver.
  rewrite IH by set_solver. done.
Qed.

Lemma filter_test_none {A} (f : A -> bool) (l : list A) : (forall x, x ∈ l -> f x = false) ->
  filter (fun x => f x = true) l = [].
Proof.
  induction l as [|x l IH]; [done|]. intros H. rewrite filter_cons, decide_False, IH; [done|set_solver|].
  rewrite (H x) by set_solver. done.
Qed.

Lemma filter_test_fmap {A B} (g : A -> B) (f : B -> bool) (l : list A) :
  filter (fun y => f y = true) (g <$> l) = g <$> filter (fun x => f (g x) = true) l.
Proof.
  induction l as [|x l IH]; [done|]. cbn [fmap list_fmap]. rewrite !filter_cons, IH.
  by destruct (decide (f (g x) = true)).
Qed.

Lemma forallb_Forall {A} (f : A -> bool) (l : list A) : forallb f l = true <-> Forall (fun x => f x = true) l.
Proof.
  induction l as [|x l IH]; cbn; [split; [constructor|done]|].
  rewrite andb_true_iff, IH, Forall_cons. done.
Qed.
