(* ===== verification/BTree.v ===== *)
(** * [std::collections::BTreeMap] as a sorted association list

    The code relies on the iteration order of [BTreeMap] (least key first),
    so the map is modelled by its sequence of entries.  Operations are the
    ones the source calls: [get], [insert], [remove], iteration. *)

From S2P Require Import Prelude.

(** A decidable strict total order, the [Ord] bound of the key type. *)
Class StrictTotal {K : Type} (ltb : K -> K -> bool) : Prop := {
  ltb_irrefl : forall a, ltb a a = false;
  ltb_trans : forall a b c, ltb a b = true -> ltb b c = true -> ltb a c = true;
  ltb_total : forall a b, ltb a b = false -> ltb b a = false -> a = b;
}.

Section BTree.
Context {K V : Type} (ltb : K -> K -> bool).

Fixpoint btree_get (m : list (K * V)) (k : K) : option V :=
  match m with
  | [] => None
  | (k', v) :: m' => if ltb k k' then None else if ltb k' k then btree_get m' k else Some v
  end.

Fixpoint btree_insert (m : list (K * V)) (k : K) (v : V) : list (K * V) :=
  match m with
  | [] => [(k, v)]
  | (k', v') :: m' =>
      if ltb k k' then (k, v) :: m
      else if ltb k' k then (k', v') :: btree_insert m' k v
      else (k, v) :: m'
  end.

Fixpoint btree_remove (m : list (K * V)) (k : K) : list (K * V) :=
  match m with
  | [] => []
  | (k', v') :: m' =>
      if ltb k k' then m
      else if ltb k' k then (k', v') :: btree_remove m' k
      else m'
  end.

(** Keys strictly increase along the sequence. *)
Fixpoint btree_sorted (m : list (K * V)) : Prop :=
  match m with
  | [] => True
  | (k, _) :: m' => Forall (fun e => ltb k e.1 = true) m' /\ btree_sorted m'
  end.

Context `{!StrictTotal ltb}.

Lemma ltb_asym a b : ltb a b = true -> ltb b a = false.
Proof.
  intros H. destruct (ltb b a) eqn:E; [|done].
  pose proof (ltb_trans _ _ _ H E) as C. by rewrite ltb_irrefl in C.
Qed.

Lemma btree_get_below m k : Forall (fun e => ltb k e.1 = true) m -> btree_get m k = None.
Proof.
  intros H. destruct m as [|[k' v] m]; [done|]. cbn.
  apply Forall_cons in H as [H _]; cbn in H. by rewrite H.
Qed.

Lemma Forall_below_trans k k' (m : list (K * V)) :
  ltb k k' = true -> Forall (fun e => ltb k' e.1 = true) m -> Forall (fun e => ltb k e.1 = true) m.
Proof. intros H Hm. eapply Forall_impl; [exact Hm|]. intros e. by apply ltb_trans. Qed.

Lemma Forall_insert_below k0 m k v :
  ltb k0 k = true -> Forall (fun e => ltb k0 e.1 = true) m ->
  Forall (fun e => ltb k0 e.1 = true) (btree_insert m k v).
Proof.
  intros Hk. induction m as [|[k' v'] m IH]; intros Hm; cbn.
  - by constructor.
  - apply Forall_cons in Hm as [H1 H2]; cbn in *. repeat case_match; repeat constructor; auto.
Qed.

Lemma Forall_remove_below k0 m k :
  Forall (fun e => ltb k0 e.1 = true) m ->
  Forall (fun e => ltb k0 e.1 = true) (btree_remove m k).
Proof.
  induction m as [|[k' v'] m IH]; intros Hm; cbn; [done|].
  apply Forall_cons in Hm as [H1 H2]; cbn in *. repeat case_match; repeat constructor; auto.
Qed.

Lemma btree_insert_sorted m k v : btree_sorted m -> btree_sorted (btree_insert m k v).
Proof.
  induction m as [|[k' v'] m IH]; cbn; [auto|]. intros [Hb Hs].
  destruct (ltb k k') eqn:E1; [|destruct (ltb k' k) eqn:E2]; cbn.
  - split; [|done]. constructor; [done|]. by eapply Forall_below_trans.
  - split; [by apply Forall_insert_below | auto].
  - assert (k = k') as -> by (by apply ltb_total). done.
Qed.

Lemma btree_remove_sorted m k : btree_sorted m -> btree_sorted (btree_remove m k).
Proof.
  induction m as [|[k' v'] m IH]; cbn; [auto|]. intros [Hb Hs].
  repeat case_match; cbn; auto using Forall_remove_below.
Qed.

Lemma btree_get_insert m k v k' : btree_sorted m ->
  btree_get (btree_insert m k v) k' =
    if negb (ltb k k') && negb (ltb k' k) then Some v else btree_get m k'.
Proof.
  induction m as [|[k0 v0] m IH]; cbn.
  - intros _. by destruct (ltb k' k), (ltb k k').
  - intros [Hb Hs]. destruct (ltb k k0) eqn:E1; [|destruct (ltb k0 k) eqn:E2]; cbn.
    + destruct (ltb k' k) eqn:E3; cbn.
      * rewrite (ltb_trans _ _ _ E3 E1). by rewrite andb_false_r.
      * destruct (ltb k k') eqn:E4; cbn; [done|].
        assert (k = k') as <- by (by apply ltb_total). done.
    + rewrite IH by done. destruct (ltb k' k0) eqn:E3.
      * rewrite (ltb_trans _ _ _ E3 E2). by rewrite andb_false_r.
      * destruct (ltb k0 k') eqn:E4; [done|].
        assert (k' = k0) as -> by (by apply ltb_total).
        by rewrite E2, andb_false_r.
    + assert (k = k0) as -> by (by apply ltb_total).
      by destruct (ltb k' k0), (ltb k0 k').
Qed.

Lemma btree_get_insert_eq m k v : btree_sorted m -> btree_get (btree_insert m k v) k = Some v.
Proof. intros. by rewrite btree_get_insert, (ltb_irrefl k) by done. Qed.

Lemma btree_get_insert_ne m k v k' : btree_sorted m -> k <> k' ->
  btree_get (btree_insert m k v) k' = btree_get m k'.
Proof.
  intros Hs Hne. rewrite btree_get_insert by done.
  destruct (ltb k k') eqn:E1; [done|]. destruct (ltb k' k) eqn:E2; [done|].
  destruct Hne. by apply ltb_total.
Qed.

Lemma btree_get_remove_eq m k : btree_sorted m -> btree_get (btree_remove m k) k = None.
Proof.
  induction m as [|[k0 v0] m IH]; cbn; [done|]. intros [Hb Hs].
  destruct (ltb k k0) eqn:E1; cbn; [by rewrite E1|].
  destruct (ltb k0 k) eqn:E2; cbn; [by rewrite E1, E2, IH|].
  assert (k = k0) as -> by (by apply ltb_total). by apply btree_get_below.
Qed.

Lemma btree_get_remove_ne m k k' : btree_sorted m -> k <> k' ->
  btree_get (btree_remove m k) k' = btree_get m k'.
Proof.
  intros Hs Hne. induction m as [|[k0 v0] m IH]; cbn; [done|]. destruct Hs as [Hb Hs].
  destruct (ltb k k0) eqn:E1; [done|]. destruct (ltb k0 k) eqn:E2; cbn; [by rewrite IH|].
  assert (k = k0) as -> by (by apply ltb_total).
  destruct (ltb k' k0) eqn:E3; [|destruct (ltb k0 k') eqn:E4; [done|]].
  - apply btree_get_below. by eapply Forall_below_trans.
  - destruct Hne. by apply ltb_total.
Qed.

Lemma btree_get_elem m k v : btree_sorted m -> (k, v) ∈ m <-> btree_get m k = Some v.
Proof.
  induction m as [|[k0 v0] m IH]; cbn.
  - intros _. split; [by intros ?%not_elem_of_nil|done].
  - intros [Hb Hs]. rewrite elem_of_cons. split.
    + intros [[= -> ->] | Hin]; [by rewrite ltb_irrefl|].
      rewrite Forall_forall in Hb. specialize (Hb _ Hin); cbn in Hb.
      rewrite Hb, (ltb_asym _ _ Hb). by apply IH.
    + destruct (ltb k k0) eqn:E1; [done|]. destruct (ltb k0 k) eqn:E2.
      * intros. right. by apply IH.
      * intros [= ->]. left. by assert (k = k0) as -> by (by apply ltb_total).
Qed.

(** Two maps with the same lookups are the same map. *)
Lemma btree_ext m1 m2 : btree_sorted m1 -> btree_sorted m2 ->
  (forall k, btree_get m1 k = btree_get m2 k) -> m1 = m2.
Proof.
  revert m2. induction m1 as [|[k v] m1 IH]; intros [|[k' v'] m2] H1 H2 He; try done.
  - specialize (He k'). cbn in He. by rewrite ltb_irrefl in He.
  - specialize (He k). cbn in He. by rewrite ltb_irrefl in He.
  - destruct H1 as [B1 S1], H2 as [B2 S2].
    assert (k = k') as <-.
    { pose proof (He k) as E1. pose proof (He k') as E2. cbn in E1, E2.
      rewrite ltb_irrefl in E1, E2.
      apply ltb_total; [destruct (ltb k k') eqn:E | destruct (ltb k' k) eqn:E]; done. }
    pose proof (He k) as E1. cbn in E1. rewrite ltb_irrefl in E1.
    injection E1 as <-. f_equal. apply IH; try done.
    intros k1. specialize (He k1). cbn in He.
    destruct (ltb k1 k) eqn:F1; [by rewrite !btree_get_below by (by eapply Forall_below_trans)|].
    destruct (ltb k k1) eqn:F2; [done|].
    assert (k1 = k) as -> by (by apply ltb_total). by rewrite !btree_get_below.
Qed.

(** Inserting a key above every stored key appends it: rebuilding a map by
    iterating another keeps the order. *)
Lemma btree_insert_last m k v :
  Forall (fun e => ltb e.1 k = true) m -> btree_insert m k v = m ++ [(k, v)].
Proof.
  induction m as [|[k' v'] m IH]; intros H; [done|].
  apply Forall_cons in H as [H1 H2]; cbn in H1 |- *.
  by rewrite (ltb_asym _ _ H1), H1, IH.
Qed.

Lemma btree_sorted_app m1 m2 : btree_sorted (m1 ++ m2) <->
  btree_sorted m1 /\ btree_sorted m2 /\
  Forall (fun e1 => Forall (fun e2 => ltb e1.1 e2.1 = true) m2) m1.
Proof.
  induction m1 as [|[k v] m1 IH]; cbn; [by rewrite Forall_nil; tauto|].
  rewrite IH, Forall_app, Forall_cons; cbn. tauto.
Qed.
End BTree.
