(* ===== verification/Errors.v ===== *)
(** * Errors of device operations (cuda-async/src/error.rs)

    The error type the host side shares and its assertion helpers. A driver
    error is its code; the text of an [anyhow] error is its [Debug] text. *)

From S2P Require Import Prelude.

Inductive DeviceError :=
| Driver (code : Z)
| ContextError (device_id : Z) (message : string)
| KernelCacheError (message : string)
| Scheduling (message : string)
| LaunchFailed (message : string)
| Internal (message : string)
| Anyhow (message : string).

#[export] Instance DeviceError_eq_dec : EqDecision DeviceError.
Proof. solve_decision. Defined.

Definition kernel_launch_assert (pred : bool) (message : string) : outcome DeviceError unit :=
  if negb pred then Err (LaunchFailed message) else Ok tt.

Definition device_error (device_id : Z) (message : string) : DeviceError := ContextError device_id message.

Definition device_assert (device_id : Z) (pred : bool) (message : string) : outcome DeviceError unit :=
  if negb pred then Err (device_error device_id message) else Ok tt.
