(* ===== verification/Bounds.v ===== *)
(** * Interval arithmetic of the compiler (cutile-compiler/src/bounds.rs)

    The compiler attaches an inclusive interval to scalar values and pushes
    it through binary operations.  This file models [Bounds<i64>], its
    operator impls, [bop_bounds], [bitwise_bounds] and [bounds_from_bop], and
    proves that the interval computed for an operation contains the
    operation's value on every pair of operands drawn from the argument
    intervals.  Endpoints are [i64]: sums, products and quotients saturate
    exactly where the source calls a saturating method. *)

From S2P Require Import Prelude.

(** Diagnostics of the JIT compiler (cutile-compiler/src/error.rs). *)
Record SourceLocation := mkSourceLocation {
  sl_file : string;
  sl_line : Z;
  sl_column : Z;
}.

Definition SourceLocation_unknown : SourceLocation :=
  mkSourceLocation EmptyString 0 0.

Inductive JITError :=
| Generic (msg : string)
| Located (msg : string) (loc : SourceLocation)
| Anyhow (rendered : string).

Definition jit_error_result {A} (loc : SourceLocation) (msg : string) : outcome JITError A :=
  Err (Located msg loc).

(** ** Operations *)

Module TileBinaryOp.
Inductive TileBinaryOp :=
| Add | Sub | Mul | Div | CeilDiv | TrueDiv | Rem
| Eq | Ne | Lt | Le | Gt | Ge | Min | Max
| BitAnd | BitOr | BitXor | Shl | Shr.

#[export] Instance TileBinaryOp_eq_dec : EqDecision TileBinaryOp.
Proof. solve_decision. Defined.
End TileBinaryOp.
Export (hints) TileBinaryOp.
Abbreviation TileBinaryOp := TileBinaryOp.TileBinaryOp.

Definition get_binary_op_from_op_str (op_str : string) : outcome JITError TileBinaryOp :=
  let eqs s := bool_decide (op_str = s) in
  if eqs "add" then Ok TileBinaryOp.Add
  else if eqs "sub" then Ok TileBinaryOp.Sub
  else if eqs "mul" then Ok TileBinaryOp.Mul
  else if eqs "div" then Ok TileBinaryOp.Div
  else if eqs "ceil_div" then Ok TileBinaryOp.CeilDiv
  else if eqs "true_div" then Ok TileBinaryOp.TrueDiv
  else if eqs "rem" then Ok TileBinaryOp.Rem
  else if eqs "eq" then Ok TileBinaryOp.Eq
  else if eqs "ne" then Ok TileBinaryOp.Ne
  else if eqs "lt" then Ok TileBinaryOp.Lt
  else if eqs "le" then Ok TileBinaryOp.Le
  else if eqs "gt" then Ok TileBinaryOp.Gt
  else if eqs "ge" then Ok TileBinaryOp.Ge
  else if eqs "min" || eqs "min_tile" then Ok TileBinaryOp.Min
  else if eqs "max" || eqs "max_tile" then Ok TileBinaryOp.Max
  else if eqs "and" then Ok TileBinaryOp.BitAnd
  else if eqs "or" then Ok TileBinaryOp.BitOr
  else if eqs "xor" then Ok TileBinaryOp.BitXor
  else if eqs "shl" then Ok TileBinaryOp.Shl
  else if eqs "shr" then Ok TileBinaryOp.Shr
  else jit_error_result SourceLocation_unknown
         ("unrecognized arithmetic operation `" +:+ op_str +:+ "`").

(** ** [i64] methods the source calls *)

(** [i64::saturating_div]: panics on a zero divisor; the one overflow,
    [MIN / -1], saturates to [MAX]. *)
Definition saturating_div (lhs rhs : Z) : outcome JITError Z :=
  if rhs =? 0 then Panic else Ok (saturate_i64 (Z.quot lhs rhs)).

(** [i64::checked_rem]: [None] for a zero divisor and for [MIN % -1]. *)
Definition checked_rem (lhs rhs : Z) : option Z :=
  if rhs =? 0 then None
  else if (lhs =? I64_MIN) && (rhs =? -1) then None
  else Some (Z.rem lhs rhs).

(** Leading zero bits of the 64-bit pattern of an [i64]. *)
Definition leading_zeros (v : Z) : Z := 64 - bit_length (as_u64 v).
(** Leading one bits: the leading zeros of the complement. *)
Definition leading_ones (v : Z) : Z := leading_zeros (Z.lnot v).

Definition div_ceil_i64 (lhs rhs : Z) : outcome JITError Z :=
  quotient ← saturating_div lhs rhs;
  let remainder := default 0 (checked_rem lhs rhs) in
  if remainder =? 0 then Ok quotient
  else if eqb (0 <? lhs) (0 <? rhs) then Ok (saturate_i64 (quotient + 1))
  else Ok quotient.

(** ** Intervals *)

Record Bounds := mkBounds { start : Z; end_ : Z }.

#[export] Instance Bounds_eq_dec : EqDecision Bounds.
Proof. solve_decision. Defined.

Definition bounds_new (start end_ : Z) : Bounds := mkBounds start end_.
Definition exact (value : Z) : Bounds := mkBounds value value.
Definition is_exact (b : Bounds) : bool := end_ b =? start b.

(** [array.iter().min()] and [.max()] of a non-empty array. *)
Definition iter_min (c : Z) (cs : list Z) : Z := foldl Z.min c cs.
Definition iter_max (c : Z) (cs : list Z) : Z := foldl Z.max c cs.

(** [impl Add for Bounds<i64>]. *)
Definition bounds_add (a b : Bounds) : Bounds :=
  let c1 := saturate_i64 (start a + start b) in
  let c2 := saturate_i64 (start a + end_ b) in
  let c3 := saturate_i64 (end_ a + start b) in
  let c4 := saturate_i64 (end_ a + end_ b) in
  bounds_new (iter_min c1 [c2; c3; c4]) (iter_max c1 [c2; c3; c4]).

(** [impl Sub for Bounds<i64>]. *)
Definition bounds_sub (a b : Bounds) : Bounds :=
  let c1 := saturate_i64 (start a - start b) in
  let c2 := saturate_i64 (start a - end_ b) in
  let c3 := saturate_i64 (end_ a - start b) in
  let c4 := saturate_i64 (end_ a - end_ b) in
  bounds_new (iter_min c1 [c2; c3; c4]) (iter_max c1 [c2; c3; c4]).

(** [impl Mul for Bounds<i64>]. *)
Definition bounds_mul (a b : Bounds) : Bounds :=
  let c1 := saturate_i64 (start a * start b) in
  let c2 := saturate_i64 (start a * end_ b) in
  let c3 := saturate_i64 (end_ a * start b) in
  let c4 := saturate_i64 (end_ a * end_ b) in
  bounds_new (iter_min c1 [c2; c3; c4]) (iter_max c1 [c2; c3; c4]).

(** [impl Div for Bounds<i64>]: panics when an endpoint of the divisor is
    zero. *)
Definition bounds_div (a b : Bounds) : outcome JITError Bounds :=
  if (start b =? 0) || (end_ b =? 0) then Panic
  else
    c1 ← saturating_div (start a) (start b);
    c2 ← saturating_div (start a) (end_ b);
    c3 ← saturating_div (end_ a) (start b);
    c4 ← saturating_div (end_ a) (end_ b);
    Ok (bounds_new (iter_min c1 [c2; c3; c4]) (iter_max c1 [c2; c3; c4])).

(** [impl Rem for Bounds<i64>].  The [debug_assert!] that the divisor
    excludes zero is the function's precondition; a violation panics. *)
Definition bounds_rem (a b : Bounds) : outcome JITError Bounds :=
  if (start b <=? 0) && (0 <=? end_ b) then Panic
  else if is_exact a && is_exact b then
    Ok (exact (default 0 (checked_rem (start a) (start b))))
  else
    let m := as_i64 (Z.max (Z.abs (start b)) (Z.abs (end_ b)) - 1) in
    let start := if 0 <=? start a then 0 else Z.max (start a) (- m) in
    let end_ := if end_ a <=? 0 then 0 else Z.min (end_ a) m in
    Ok (bounds_new start end_).

Definition bop_bounds (a b : Bounds) (f : Z -> Z -> outcome JITError Z) : outcome JITError Bounds :=
  if is_exact a && is_exact b then exact <$> f (start a) (start b)
  else
    c1 ← f (start a) (start b);
    c2 ← f (start a) (end_ b);
    c3 ← f (end_ a) (start b);
    c4 ← f (end_ a) (end_ b);
    Ok (bounds_new (iter_min c1 [c2; c3; c4]) (iter_max c1 [c2; c3; c4])).

(** The closure [f] of [bitwise_bounds]; [None] is its [unreachable!()] arm. *)
Definition bitwise_op (op : TileBinaryOp) : option (Z -> Z -> Z) :=
  match op with
  | TileBinaryOp.BitAnd => Some Z.land
  | TileBinaryOp.BitOr => Some Z.lor
  | TileBinaryOp.BitXor => Some Z.lxor
  | _ => None
  end.

(** Smallest [2^n - 1] covering [v]. *)
Definition ones_over (v : Z) : Z :=
  let n := 64 - leading_zeros v in
  if n =? 0 then 0 else if 63 <=? n then I64_MAX else Z.shiftl 1 n - 1.

(** Width of the two's-complement representation of [v]. *)
Definition signed_bits (v : Z) : Z :=
  if 0 <=? v then 65 - leading_zeros v else 65 - leading_ones v.

Definition bitwise_bounds (op : TileBinaryOp) (a b : Bounds) : outcome JITError Bounds :=
  match bitwise_op op with
  | None => Panic
  | Some f =>
    if is_exact a && is_exact b then Ok (exact (f (start a) (start b)))
    else if (0 <=? start a) && (0 <=? start b) then
      match op with
      | TileBinaryOp.BitAnd => Ok (bounds_new 0 (Z.min (end_ a) (end_ b)))
      | TileBinaryOp.BitOr =>
          Ok (bounds_new (Z.max (start a) (start b)) (ones_over (Z.lor (end_ a) (end_ b))))
      | TileBinaryOp.BitXor => Ok (bounds_new 0 (ones_over (Z.lor (end_ a) (end_ b))))
      | _ => Panic
      end
    else
      let k := iter_max (signed_bits (start a))
                 [signed_bits (end_ a); signed_bits (start b); signed_bits (end_ b)] in
      if 64 <=? k then Ok (bounds_new I64_MIN I64_MAX)
      else Ok (bounds_new (- Z.shiftl 1 (k - 1)) (Z.shiftl 1 (k - 1) - 1))
  end.

Definition bounds_from_bop (op : TileBinaryOp) (a b : Bounds)
    : outcome JITError (option Bounds) :=
  match op with
  | TileBinaryOp.Shl | TileBinaryOp.Shr => Ok None
  | TileBinaryOp.CeilDiv | TileBinaryOp.Div | TileBinaryOp.TrueDiv | TileBinaryOp.Rem =>
      if (start b <=? 0) && (0 <=? end_ b) then Ok None
      else Some <$>
        match op with
        | TileBinaryOp.Div | TileBinaryOp.TrueDiv => bounds_div a b
        | TileBinaryOp.CeilDiv => bop_bounds a b div_ceil_i64
        | TileBinaryOp.Rem => bounds_rem a b
        | _ => Panic
        end
  | _ => Some <$>
      match op with
      | TileBinaryOp.Add => Ok (bounds_add a b)
      | TileBinaryOp.Sub => Ok (bounds_sub a b)
      | TileBinaryOp.Mul => Ok (bounds_mul a b)
      | TileBinaryOp.Eq =>
          Ok (if is_exact a && is_exact b then exact (bool_as (start a =? start b))
              else if (end_ a <? start b) || (end_ b <? start a) then exact 0
              else bounds_new 0 1)
      | TileBinaryOp.Ne =>
          Ok (if is_exact a && is_exact b then exact (bool_as (negb (start a =? start b)))
              else if (end_ a <? start b) || (end_ b <? start a) then exact 1
              else bounds_new 0 1)
      | TileBinaryOp.Lt => bop_bounds a b (fun a b => Ok (bool_as (a <? b)))
      | TileBinaryOp.Le => bop_bounds a b (fun a b => Ok (bool_as (a <=? b)))
      | TileBinaryOp.Gt => bop_bounds a b (fun a b => Ok (bool_as (b <? a)))
      | TileBinaryOp.Ge => bop_bounds a b (fun a b => Ok (bool_as (b <=? a)))
      | TileBinaryOp.Min => bop_bounds a b (fun a b => Ok (Z.min a b))
      | TileBinaryOp.Max => bop_bounds a b (fun a b => Ok (Z.max a b))
      | TileBinaryOp.BitAnd | TileBinaryOp.BitOr | TileBinaryOp.BitXor =>
          bitwise_bounds op a b
      | _ => Panic
      end
  end.

(** ** Specification *)

(** Membership in an interval, and the invariant the compiler keeps on every
    interval it stores: ordered endpoints in [i64] range. *)
Definition contains (b : Bounds) (x : Z) : Prop := start b <= x <= end_ b.

Definition bounds_wf (b : Bounds) : Prop :=
  start b <= end_ b /\ in_i64 (start b) /\ in_i64 (end_ b).

#[export] Instance contains_dec b x : Decision (contains b x).
Proof. unfold contains. apply _. Defined.
#[export] Instance bounds_wf_dec b : Decision (bounds_wf b).
Proof. unfold bounds_wf. apply _. Defined.

(** Ceiling of the rational [x / y]. *)
Definition ceil_div (x y : Z) : Z := - ((- x) / y).

(** The mathematical value an operation denotes on integers. [None]: the
    operation has no interval semantics here (shifts, division by zero). *)
Definition eval_bop (op : TileBinaryOp) (x y : Z) : option Z :=
  match op with
  | TileBinaryOp.Add => Some (x + y)
  | TileBinaryOp.Sub => Some (x - y)
  | TileBinaryOp.Mul => Some (x * y)
  | TileBinaryOp.Div | TileBinaryOp.TrueDiv =>
      if y =? 0 then None else Some (Z.quot x y)
  | TileBinaryOp.CeilDiv => if y =? 0 then None else Some (ceil_div x y)
  | TileBinaryOp.Rem => if y =? 0 then None else Some (Z.rem x y)
  | TileBinaryOp.Eq => Some (bool_as (x =? y))
  | TileBinaryOp.Ne => Some (bool_as (negb (x =? y)))
  | TileBinaryOp.Lt => Some (bool_as (x <? y))
  | TileBinaryOp.Le => Some (bool_as (x <=? y))
  | TileBinaryOp.Gt => Some (bool_as (y <? x))
  | TileBinaryOp.Ge => Some (bool_as (y <=? x))
  | TileBinaryOp.Min => Some (Z.min x y)
  | TileBinaryOp.Max => Some (Z.max x y)
  | TileBinaryOp.BitAnd => Some (Z.land x y)
  | TileBinaryOp.BitOr => Some (Z.lor x y)
  | TileBinaryOp.BitXor => Some (Z.lxor x y)
  | TileBinaryOp.Shl | TileBinaryOp.Shr => None
  end.

(** ** Corner sampling

    [cornerwise g a b]: on the rectangle [a * b] the function lies between
    its values at the ends of each axis.  This is what makes the min and max
    over the four corners a bound. *)

Definition between (u v w : Z) : Prop := Z.min u v <= w <= Z.max u v.

Definition cornerwise (g : Z -> Z -> Z) (a b : Bounds) : Prop :=
  forall x y, contains a x -> contains b y ->
    between (g (start a) y) (g (end_ a) y) (g x y) /\
    between (g x (start b)) (g x (end_ b)) (g x y).

Lemma contains_start b : bounds_wf b -> contains b (start b).
Proof. unfold bounds_wf, contains. lia. Qed.
Lemma contains_end b : bounds_wf b -> contains b (end_ b).
Proof. unfold bounds_wf, contains. lia. Qed.

#[export] Hint Resolve contains_start contains_end : rust.

Lemma corner_sampling g a b x y :
  bounds_wf a -> bounds_wf b -> cornerwise g a b -> contains a x -> contains b y ->
  iter_min (g (start a) (start b))
    [g (start a) (end_ b); g (end_ a) (start b); g (end_ a) (end_ b)] <= g x y <=
  iter_max (g (start a) (start b))
    [g (start a) (end_ b); g (end_ a) (start b); g (end_ a) (end_ b)].
Proof.
  intros Ha Hb Hc Hx Hy.
  destruct (Hc x y) as [H1 _]; auto.
  destruct (Hc (start a) y) as [_ H2]; auto with rust.
  destruct (Hc (end_ a) y) as [_ H3]; auto with rust.
  unfold between in *. cbn [iter_min iter_max foldl]. lia.
Qed.

Lemma between_saturate u v w :
  between u v w -> between (saturate_i64 u) (saturate_i64 v) (saturate_i64 w).
Proof.
  unfold between. intros.
  pose proof (saturate_mono u w). pose proof (saturate_mono w u).
  pose proof (saturate_mono v w). pose proof (saturate_mono w v). lia.
Qed.

Lemma cornerwise_saturate g a b :
  cornerwise g a b -> cornerwise (fun x y => saturate_i64 (g x y)) a b.
Proof.
  intros Hc x y Hx Hy. destruct (Hc x y Hx Hy) as [H1 H2].
  auto using between_saturate.
Qed.

Lemma cornerwise_ext g h a b :
  bounds_wf a -> bounds_wf b ->
  (forall x y, contains a x -> contains b y -> g x y = h x y) ->
  cornerwise g a b -> cornerwise h a b.
Proof.
  intros Ha Hb He Hc x y Hx Hy. rewrite <- !He by auto with rust. auto.
Qed.

Lemma cornerwise_add a b : cornerwise Z.add a b.
Proof. unfold cornerwise, between, contains. lia. Qed.

Lemma cornerwise_sub a b : cornerwise Z.sub a b.
Proof. unfold cornerwise, between, contains. lia. Qed.

Lemma mul_between u v x y : u <= x <= v -> between (u * y) (v * y) (x * y).
Proof. unfold between. destruct (Z.le_ge_cases 0 y); nia. Qed.

Lemma cornerwise_mul a b : cornerwise Z.mul a b.
Proof.
  intros x y Hx Hy. split; [by apply mul_between|].
  rewrite !(Z.mul_comm x). by apply mul_between.
Qed.

Lemma cornerwise_min a b : cornerwise Z.min a b.
Proof. unfold cornerwise, between, contains. lia. Qed.

Lemma cornerwise_max a b : cornerwise Z.max a b.
Proof. unfold cornerwise, between, contains. lia. Qed.

Lemma cornerwise_lt a b : cornerwise (fun x y => bool_as (x <? y)) a b.
Proof. unfold cornerwise, between, contains, bool_as. intros; split; repeat case_match; lia. Qed.

Lemma cornerwise_le a b : cornerwise (fun x y => bool_as (x <=? y)) a b.
Proof. unfold cornerwise, between, contains, bool_as. intros; split; repeat case_match; lia. Qed.

Lemma cornerwise_gt a b : cornerwise (fun x y => bool_as (y <? x)) a b.
Proof. unfold cornerwise, between, contains, bool_as. intros; split; repeat case_match; lia. Qed.

Lemma cornerwise_ge a b : cornerwise (fun x y => bool_as (y <=? x)) a b.
Proof. unfold cornerwise, between, contains, bool_as. intros; split; repeat case_match; lia. Qed.

(** Floor division by a divisor of constant sign. *)
Lemma div_antitone_pos n y y' : 0 <= n -> 0 < y <= y' -> n / y' <= n / y.
Proof. intros. apply Z.div_le_compat_l; lia. Qed.

Lemma div_monotone_neg n y y' : n <= 0 -> 0 < y <= y' -> n / y <= n / y'.
Proof.
  intros Hn Hy. apply Z.div_le_lower_bound; [lia|].
  pose proof (Z.mul_div_le n y ltac:(lia)).
  pose proof (Z.div_le_upper_bound n y 0 ltac:(lia)). nia.
Qed.

Lemma div_between_l u v n y : y <> 0 -> u <= n <= v -> between (u / y) (v / y) (n / y).
Proof.
  intros Hy Hn. unfold between. destruct (Z.lt_ge_cases 0 y).
  - pose proof (Z.div_le_mono u n y). pose proof (Z.div_le_mono n v y). lia.
  - rewrite <- (Z.div_opp_opp u), <- (Z.div_opp_opp v), <- (Z.div_opp_opp n) by lia.
    pose proof (Z.div_le_mono (-v) (-n) (-y)). pose proof (Z.div_le_mono (-n) (-u) (-y)). lia.
Qed.

Lemma div_between_r n u v y :
  0 < u \/ v < 0 -> u <= y <= v -> between (n / u) (n / v) (n / y).
Proof.
  intros Hs Hy. unfold between. destruct Hs.
  - destruct (Z.le_ge_cases 0 n).
    + pose proof (div_antitone_pos n u y). pose proof (div_antitone_pos n y v). lia.
    + pose proof (div_monotone_neg n u y). pose proof (div_monotone_neg n y v). lia.
  - rewrite <- (Z.div_opp_opp n u), <- (Z.div_opp_opp n v), <- (Z.div_opp_opp n y) by lia.
    destruct (Z.le_ge_cases 0 (-n)).
    + pose proof (div_antitone_pos (-n) (-y) (-u)). pose proof (div_antitone_pos (-n) (-v) (-y)). lia.
    + pose proof (div_monotone_neg (-n) (-y) (-u)). pose proof (div_monotone_neg (-n) (-v) (-y)). lia.
Qed.

(** A divisor interval that excludes zero has constant sign. *)
Definition nonzero_divisor (b : Bounds) : Prop := 0 < start b \/ end_ b < 0.

Lemma cornerwise_ceil a b : nonzero_divisor b -> cornerwise ceil_div a b.
Proof.
  intros Hb x y Hx Hy. unfold ceil_div, contains, nonzero_divisor in *.
  pose proof (div_between_l (- end_ a) (- start a) (-x) y).
  pose proof (div_between_r (-x) (start b) (end_ b) y).
  unfold between in *. lia.
Qed.

Lemma quot_between_l u v n y : y <> 0 -> u <= n <= v -> between (Z.quot u y) (Z.quot v y) (Z.quot n y).
Proof.
  intros Hy Hn. unfold between. destruct (Z.lt_ge_cases 0 y).
  - pose proof (Z.quot_le_mono u n y). pose proof (Z.quot_le_mono n v y). lia.
  - rewrite <- (Z.opp_involutive y), !(Z.quot_opp_r _ (-y)) by lia.
    pose proof (Z.quot_le_mono u n (-y)). pose proof (Z.quot_le_mono n v (-y)). lia.
Qed.

Lemma quot_antitone_nonneg n u v y :
  0 <= n -> 0 < u <= y /\ y <= v -> Z.quot n v <= Z.quot n y <= Z.quot n u.
Proof. intros. split; apply Z.quot_le_compat_l; lia. Qed.

Lemma quot_between_r_pos n u v y : 0 < u -> u <= y <= v -> between (Z.quot n u) (Z.quot n v) (Z.quot n y).
Proof.
  intros. unfold between. destruct (Z.le_ge_cases 0 n).
  - pose proof (quot_antitone_nonneg n u v y). lia.
  - rewrite <- (Z.opp_involutive n), !(Z.quot_opp_l (-n)) by lia.
    pose proof (quot_antitone_nonneg (-n) u v y). lia.
Qed.

Lemma cornerwise_quot a b : nonzero_divisor b -> cornerwise Z.quot a b.
Proof.
  intros Hb x y Hx Hy. unfold contains in *. split.
  { apply quot_between_l; [destruct Hb; lia | lia]. }
  destruct Hb; [apply quot_between_r_pos; lia|].
  pose proof (quot_between_r_pos x (- end_ b) (- start b) (- y)) as H0.
  rewrite !Z.quot_opp_r in H0 by lia. unfold between in *. lia.
Qed.

(** ** Remainder *)

Lemma rem_abs_bound x y : y <> 0 -> Z.abs (Z.rem x y) <= Z.abs x /\ Z.abs (Z.rem x y) < Z.abs y.
Proof.
  intros Hy. split; [|by apply Z.rem_bound_abs].
  rewrite <- Z.rem_abs by lia. apply Z.rem_le; lia.
Qed.

Lemma rem_bound x y : y <> 0 ->
  (0 <= x -> 0 <= Z.rem x y <= x) /\ (x <= 0 -> x <= Z.rem x y <= 0) /\
  - (Z.abs y - 1) <= Z.rem x y <= Z.abs y - 1.
Proof.
  intros Hy. pose proof (rem_abs_bound x y Hy).
  pose proof (Z.rem_nonneg x y Hy). pose proof (Z.rem_nonpos x y Hy). lia.
Qed.

(** ** Bitwise operations *)

(** [v] fits in [n + 1] bits of two's complement exactly when its bits from
    [n] up are all copies of the sign. *)
Lemma fits_shiftr v n : 0 <= n ->
  (- 2 ^ n <= v < 2 ^ n <-> Z.shiftr v n = 0 \/ Z.shiftr v n = -1).
Proof.
  intros Hn. rewrite Z.shiftr_div_pow2 by lia.
  assert (0 < 2 ^ n) by (apply Z.pow_pos_nonneg; lia).
  pose proof (Z.div_mod v (2 ^ n) ltac:(lia)).
  pose proof (Z.mod_pos_bound v (2 ^ n) ltac:(lia)). nia.
Qed.

Lemma bitwise_fits op f x y n : 0 <= n -> bitwise_op op = Some f ->
  - 2 ^ n <= x < 2 ^ n -> - 2 ^ n <= y < 2 ^ n -> - 2 ^ n <= f x y < 2 ^ n.
Proof.
  intros Hn Hf Hx%fits_shiftr Hy%fits_shiftr; try done. apply fits_shiftr; [done|].
  destruct op; simplify_eq/=; rewrite ?Z.shiftr_land, ?Z.shiftr_lor, ?Z.shiftr_lxor;
    destruct Hx as [-> | ->], Hy as [-> | ->]; auto.
Qed.

Lemma lor_lower x y : 0 <= x -> 0 <= y -> Z.max x y <= Z.lor x y.
Proof.
  intros Hx Hy.
  assert (H : forall u v, 0 <= u -> 0 <= v -> u <= Z.lor u v).
  { intros u v Hu Hv. replace u with (Z.land (Z.lor u v) u) at 1.
    - apply land_le_l; [|lia]. apply Z.lor_nonneg; lia.
    - apply Z.bits_inj'; intros i Hi. rewrite Z.land_spec, Z.lor_spec.
      by destruct (Z.testbit u i), (Z.testbit v i). }
  pose proof (H x y). pose proof (H y x). rewrite (Z.lor_comm y x) in *. lia.
Qed.

Lemma leading_zeros_nonneg v : 0 <= v -> in_i64 v -> leading_zeros v = 64 - bit_length v.
Proof. intros. unfold leading_zeros. rewrite as_u64_id; [done|]. unfold_int; lia. Qed.

Lemma ones_over_spec v : 0 <= v -> in_i64 v -> ones_over v = 2 ^ bit_length v - 1.
Proof.
  intros Hv Hi. unfold ones_over. rewrite leading_zeros_nonneg by done.
  replace (64 - (64 - bit_length v)) with (bit_length v) by lia.
  pose proof (bit_length_nonneg v).
  assert (bit_length v <= 63) by (apply bit_length_le; [lia|lia|]; unfold_int; cbn; lia).
  destruct (Z.eqb_spec (bit_length v) 0) as [->|]; [done|].
  destruct (Z.leb_spec 63 (bit_length v)).
  - by replace (bit_length v) with 63 by lia.
  - rewrite Z.shiftl_mul_pow2 by lia. lia.
Qed.

(** Every value below [v]'s highest bit stays below [ones_over v]. *)
Lemma lor_xor_upper op f x y u v :
  bitwise_op op = Some f -> 0 <= x <= u -> 0 <= y <= v -> in_i64 u -> in_i64 v ->
  0 <= f x y <= ones_over (Z.lor u v).
Proof.
  intros Hf Hx Hy Hu Hv.
  assert (0 <= Z.lor u v) by (apply Z.lor_nonneg; lia).
  pose proof (lor_lower u v ltac:(lia) ltac:(lia)).
  assert (Hl : in_i64 (Z.lor u v)).
  { pose proof (bitwise_fits TileBinaryOp.BitOr Z.lor u v 63 ltac:(lia) eq_refl).
    unfold_int; cbn in *; lia. }
  rewrite ones_over_spec by done.
  pose proof (bit_length_lt_pow (Z.lor u v) ltac:(lia)).
  pose proof (bitwise_fits op f x y _ (bit_length_nonneg (Z.lor u v)) Hf ltac:(lia) ltac:(lia)).
  assert (0 <= f x y); [|lia].
  destruct op; simplify_eq/=;
    [apply Z.land_nonneg | apply Z.lor_nonneg | apply Z.lxor_nonneg]; split || left; lia.
Qed.

Lemma signed_bits_spec v : in_i64 v ->
  1 <= signed_bits v <= 64 /\
  forall k, 1 <= k -> (signed_bits v <= k <-> - 2 ^ (k - 1) <= v < 2 ^ (k - 1)).
Proof.
  intros Hv. unfold signed_bits, leading_ones.
  assert (Hc : forall w, 0 <= w -> in_i64 w ->
    1 <= 65 - leading_zeros w <= 64 /\
    forall k, 1 <= k -> (65 - leading_zeros w <= k <-> w < 2 ^ (k - 1))).
  { intros w Hw Hi. rewrite leading_zeros_nonneg by done.
    pose proof (bit_length_nonneg w).
    assert (bit_length w <= 63) by (apply bit_length_le; [lia|lia|]; unfold_int; cbn; lia).
    split; [lia|]. intros k Hk. rewrite <- bit_length_le by lia. lia. }
  destruct (Z.leb_spec 0 v).
  - destruct (Hc v) as [H1 H2]; [lia|done|]. split; [done|]. intros k Hk. rewrite H2 by done. lia.
  - assert (Z.lnot v = - v - 1) as -> by (rewrite Z.lnot_eq_pred_opp; lia).
    destruct (Hc (- v - 1)) as [H1 H2]; [lia|unfold_int; lia|].
    split; [done|]. intros k Hk. rewrite H2 by done.
    split; [|lia]. intros. lia.
Qed.

(** ** Total correctness of each rule

    [sound_result res g a b]: the computation returns a well-formed interval
    that contains [g x y] for all operands in [a] and [b]. *)
Definition sound_result (res : outcome JITError Bounds) (g : Z -> Z -> Z) (a b : Bounds) : Prop :=
  exists r, res = Ok r /\ bounds_wf r /\
    forall x y, contains a x -> contains b y -> contains r (g x y).

Lemma sound_corners g a b :
  bounds_wf a -> bounds_wf b -> cornerwise g a b ->
  (forall x y, contains a x -> contains b y -> in_i64 (g x y)) ->
  sound_result (Ok (bounds_new
    (iter_min (g (start a) (start b))
       [g (start a) (end_ b); g (end_ a) (start b); g (end_ a) (end_ b)])
    (iter_max (g (start a) (start b))
       [g (start a) (end_ b); g (end_ a) (start b); g (end_ a) (end_ b)]))) g a b.
Proof.
  intros Ha Hb Hc Hi. eexists; split; [done|]. split.
  - unfold bounds_wf; cbn [start end_ bounds_new iter_min iter_max foldl].
    split; [lia|]. split; auto 10 with rust.
  - intros x y Hx Hy. unfold contains; cbn [start end_ bounds_new].
    by apply corner_sampling.
Qed.

Lemma is_exact_spec b : is_exact b = true <-> b = exact (start b).
Proof.
  unfold is_exact, exact. rewrite Z.eqb_eq. destruct b as [s e]; cbn. split; congruence.
Qed.

Lemma contains_exact v x : contains (exact v) x <-> x = v.
Proof. unfold contains, exact; cbn. lia. Qed.

Lemma sound_exact g a b :
  bounds_wf a -> bounds_wf b -> is_exact a = true -> is_exact b = true ->
  in_i64 (g (start a) (start b)) ->
  sound_result (Ok (exact (g (start a) (start b)))) g a b.
Proof.
  intros Ha Hb Ea Eb Hi. eexists; split; [done|]. split.
  - unfold bounds_wf, exact; cbn. split; [lia|done].
  - intros x y Hx Hy. apply is_exact_spec in Ea, Eb.
    rewrite Ea in Hx; rewrite Eb in Hy. apply contains_exact in Hx, Hy; subst.
    by apply contains_exact.
Qed.

Lemma sound_bop_bounds g f a b :
  bounds_wf a -> bounds_wf b -> cornerwise g a b ->
  (forall x y, contains a x -> contains b y -> in_i64 (g x y) /\ f x y = Ok (g x y)) ->
  sound_result (bop_bounds a b f) g a b.
Proof.
  intros Ha Hb Hc Hf. unfold bop_bounds.
  assert (Hg := fun x y Hx Hy => proj1 (Hf x y Hx Hy)).
  assert (He := fun x y Hx Hy => proj2 (Hf x y Hx Hy)).
  destruct (is_exact a && is_exact b) eqn:E.
  - apply andb_prop in E as [Ea Eb]. rewrite He by auto with rust.
    apply sound_exact; auto with rust.
  - rewrite !He by auto with rust. by apply sound_corners.
Qed.

Lemma saturating_div_ok x y : y <> 0 -> saturating_div x y = Ok (saturate_i64 (Z.quot x y)).
Proof. intros. unfold saturating_div. by rewrite (proj2 (Z.eqb_neq y 0)). Qed.

(** The rounding correction of [div_ceil_i64] computes the ceiling. *)
Lemma ceil_div_quot x y : y <> 0 ->
  ceil_div x y =
    if Z.rem x y =? 0 then Z.quot x y
    else if eqb (0 <? x) (0 <? y) then Z.quot x y + 1 else Z.quot x y.
Proof.
  intros Hy. unfold ceil_div.
  pose proof (Z.quot_rem x y Hy). pose proof (rem_bound x y Hy) as (R1 & R2 & R3).
  pose proof (Z.div_mod (-x) y Hy).
  pose proof (Z.mod_pos_bound (-x) y). pose proof (Z.mod_neg_bound (-x) y).
  set (q := Z.quot x y) in *. set (r := Z.rem x y) in *.
  set (d := (- x) / y) in *. set (m := (- x) mod y) in *.
  assert (Hs : y * (d + q) = - (r + m)) by lia.
  destruct (Z.eqb_spec r 0), (Z.ltb_spec 0 x), (Z.ltb_spec 0 y); cbn [eqb]; nia.
Qed.

Lemma div_ceil_i64_ok x y : in_i64 x -> in_i64 y -> y <> 0 ->
  div_ceil_i64 x y = Ok (saturate_i64 (ceil_div x y)).
Proof.
  intros Hx Hi Hy. unfold div_ceil_i64. rewrite saturating_div_ok by done. cbn [mbind outcome_bind].
  rewrite ceil_div_quot by done. unfold checked_rem.
  rewrite (proj2 (Z.eqb_neq y 0)) by done.
  destruct ((x =? I64_MIN) && (y =? -1)) eqn:E; cbn [default]; unfold id.
  { apply andb_prop in E as [->%Z.eqb_eq ->%Z.eqb_eq]. done. }
  destruct (Z.eqb_spec (Z.rem x y) 0); [done|].
  destruct (eqb _ _); [|done]. rewrite (saturate_id (Z.quot x y)); [done|].
  pose proof (Z.quot_rem x y Hy). pose proof (rem_bound x y Hy).
  unfold_int. destruct (Z.eq_dec y (-1)); [subst; lia|]. destruct (Z.eq_dec y 1); nia.
Qed.

Lemma sound_ext g h res a b :
  (forall x y, contains a x -> contains b y -> g x y = h x y) ->
  sound_result res g a b -> sound_result res h a b.
Proof.
  intros He (r & -> & Hw & Hs). exists r; split; [done|split; [done|]].
  intros x y Hx Hy. rewrite <- He by done. auto.
Qed.

Lemma divisor_nonzero b : bounds_wf b -> (start b <=? 0) && (0 <=? end_ b) = false ->
  nonzero_divisor b /\ forall y, contains b y -> y <> 0.
Proof.
  intros Hb E. apply andb_false_iff in E as [E|E]; apply Z.leb_gt in E;
    unfold nonzero_divisor, contains, bounds_wf in *; split; intros; lia.
Qed.

Lemma contains_i64 b x : bounds_wf b -> contains b x -> in_i64 x.
Proof. intros (_ & H1 & H2) Hx. exact (in_i64_convex _ _ _ H1 H2 Hx). Qed.

#[export] Hint Resolve contains_i64 : rust.

Lemma sound_div a b : bounds_wf a -> bounds_wf b ->
  (start b <=? 0) && (0 <=? end_ b) = false ->
  sound_result (bounds_div a b) (fun x y => saturate_i64 (Z.quot x y)) a b.
Proof.
  intros Ha Hb E. destruct (divisor_nonzero b Hb E) as [Hs Hn].
  pose proof (Hn _ (contains_start b Hb)). pose proof (Hn _ (contains_end b Hb)).
  unfold bounds_div. rewrite (proj2 (Z.eqb_neq (start b) 0)), (proj2 (Z.eqb_neq (end_ b) 0)) by done.
  cbn [orb]. rewrite !saturating_div_ok by done. cbn [mbind outcome_bind].
  apply (sound_corners (fun x y => saturate_i64 (Z.quot x y))); auto with rust.
  by apply cornerwise_saturate, cornerwise_quot.
Qed.

Lemma rem_in_i64 x y : in_i64 x -> y <> 0 -> in_i64 (Z.rem x y).
Proof.
  intros Hx Hy. pose proof (rem_bound x y Hy). unfold in_i64, I64_MIN, I64_MAX in *. lia.
Qed.

Lemma sound_rem a b : bounds_wf a -> bounds_wf b ->
  (start b <=? 0) && (0 <=? end_ b) = false ->
  sound_result (bounds_rem a b) Z.rem a b.
Proof.
  intros Ha Hb E. destruct (divisor_nonzero b Hb E) as [Hs Hn].
  unfold bounds_rem. rewrite E. destruct (is_exact a && is_exact b) eqn:Ex.
  - apply andb_prop in Ex as [Ea Eb].
    assert (default 0 (checked_rem (start a) (start b)) = Z.rem (start a) (start b)) as ->.
    { unfold checked_rem. rewrite (proj2 (Z.eqb_neq _ _)) by auto with rust.
      destruct ((start a =? I64_MIN) && (start b =? -1)) eqn:E2; [|done].
      apply andb_prop in E2 as [->%Z.eqb_eq ->%Z.eqb_eq]. done. }
    apply sound_exact; try done. apply rem_in_i64; eauto with rust.
  - destruct Ha as (Ha1 & Ha2 & Ha3), Hb as (Hb1 & Hb2 & Hb3).
    set (m := Z.max (Z.abs (start b)) (Z.abs (end_ b)) - 1).
    assert (Hm : 0 <= m <= I64_MAX)
      by (destruct Hs; unfold m, in_i64, I64_MIN, I64_MAX in *; lia).
    rewrite as_i64_id by (unfold in_i64, I64_MIN, I64_MAX in *; lia).
    eexists; split; [done|]; split.
    + unfold bounds_wf, in_i64, bounds_new, I64_MIN, I64_MAX in *; cbn [start end_].
      destruct (Z.leb_spec 0 (start a)), (Z.leb_spec (end_ a) 0); lia.
    + intros x y Hx Hy. pose proof (rem_bound x y (Hn y Hy)) as (R1 & R2 & R3).
      assert (Z.abs y - 1 <= m) by (unfold m, contains in *; destruct Hs; lia).
      unfold contains, bounds_new in *; cbn [start end_].
      destruct (Z.leb_spec 0 (start a)), (Z.leb_spec (end_ a) 0); lia.
Qed.

Lemma bitwise_in_i64 op f x y :
  bitwise_op op = Some f -> in_i64 x -> in_i64 y -> in_i64 (f x y).
Proof.
  intros Hf Hx Hy. pose proof (bitwise_fits op f x y 63 ltac:(lia) Hf).
  unfold_int; cbn in *; lia.
Qed.

Lemma sound_bitwise_nonneg op f a b :
  bitwise_op op = Some f -> bounds_wf a -> bounds_wf b -> 0 <= start a -> 0 <= start b ->
  sound_result (match op with
      | TileBinaryOp.BitAnd => Ok (bounds_new 0 (Z.min (end_ a) (end_ b)))
      | TileBinaryOp.BitOr =>
          Ok (bounds_new (Z.max (start a) (start b)) (ones_over (Z.lor (end_ a) (end_ b))))
      | TileBinaryOp.BitXor => Ok (bounds_new 0 (ones_over (Z.lor (end_ a) (end_ b))))
      | _ => Panic
      end) f a b.
Proof.
  intros Hf Ha Hb Sa Sb.
  assert (Hup : forall x y, contains a x -> contains b y ->
            0 <= f x y <= ones_over (Z.lor (end_ a) (end_ b))).
  { intros x y Hx Hy. destruct Ha as (? & ? & ?), Hb as (? & ? & ?).
    eapply lor_xor_upper; eauto; unfold contains in *; lia. }
  assert (Ho : in_i64 (ones_over (Z.lor (end_ a) (end_ b)))).
  { pose proof (Hup (end_ a) (end_ b) (contains_end _ Ha) (contains_end _ Hb)).
    unfold ones_over, leading_zeros in *. set (n := 64 - (64 - _)) in *.
    destruct (n =? 0) eqn:E0; [unfold_int; lia|]. destruct (Z.leb_spec 63 n); [unfold_int; lia|].
    assert (0 <= n) by (unfold n; pose proof (bit_length_nonneg (as_u64 (Z.lor (end_ a) (end_ b)))); lia).
    rewrite Z.shiftl_mul_pow2 in * by lia.
    pose proof (Z.pow_le_mono_r 2 n 62 ltac:(lia) ltac:(lia)). unfold_int; lia. }
  pose proof (Hup _ _ (contains_start _ Ha) (contains_start _ Hb)) as H0.
  destruct Ha as (Ha1 & Ha2 & Ha3), Hb as (Hb1 & Hb2 & Hb3).
  destruct op; simplify_eq/=; (eexists; split; [done|]; split);
    try (intros x y Hx Hy; specialize (Hup x y Hx Hy); unfold contains, bounds_new in *; cbn [start end_]).
  - unfold bounds_wf, in_i64, I64_MIN, I64_MAX, bounds_new in *; cbn [start end_]; lia.
  - pose proof (land_bounds x y). lia.
  - pose proof (lor_lower (start a) (start b)).
    unfold bounds_wf, bounds_new; cbn [start end_]. split; [lia|]. auto with rust.
  - pose proof (lor_lower x y). lia.
  - unfold bounds_wf, in_i64, I64_MIN, I64_MAX, bounds_new in *; cbn [start end_]; lia.
  - lia.
Qed.

Lemma signed_envelope a x k : bounds_wf a -> contains a x -> 1 <= k ->
  signed_bits (start a) <= k -> signed_bits (end_ a) <= k -> - 2 ^ (k - 1) <= x < 2 ^ (k - 1).
Proof.
  intros (_ & H1 & H2) Hx Hk Hs He.
  apply (signed_bits_spec _ H1) in Hs; [|done]. apply (signed_bits_spec _ H2) in He; [|done].
  unfold contains in *. lia.
Qed.

Lemma sound_bitwise op f a b :
  bitwise_op op = Some f -> bounds_wf a -> bounds_wf b ->
  sound_result (bitwise_bounds op a b) f a b.
Proof.
  intros Hf Ha Hb. unfold bitwise_bounds. rewrite Hf.
  destruct (is_exact a && is_exact b) eqn:Ex.
  { apply andb_prop in Ex as [Ea Eb]. apply sound_exact; try done.
    eapply bitwise_in_i64; eauto with rust. }
  destruct ((0 <=? start a) && (0 <=? start b)) eqn:En.
  { apply andb_prop in En as [Ea%Z.leb_le Eb%Z.leb_le]. by apply sound_bitwise_nonneg. }
  set (k := iter_max _ _). destruct (Z.leb_spec 64 k).
  { eexists; split; [done|]; split; [by repeat split|].
    intros x y Hx Hy. eapply (bitwise_in_i64 op); eauto with rust. }
  pose proof (signed_bits_spec (start a) ltac:(eauto with rust)) as [K1 _].
  assert (1 <= k /\ signed_bits (start a) <= k /\ signed_bits (end_ a) <= k /\
          signed_bits (start b) <= k /\ signed_bits (end_ b) <= k) as (Hk & Hsa & Hea & Hsb & Heb)
    by (unfold k; cbn [iter_max foldl]; lia).
  rewrite Z.shiftl_mul_pow2, Z.mul_1_l by lia.
  assert (0 < 2 ^ (k - 1) <= 2 ^ 62)
    by (split; [apply Z.pow_pos_nonneg | apply Z.pow_le_mono_r]; lia).
  eexists; split; [done|]; split.
  - unfold bounds_wf, in_i64, I64_MIN, I64_MAX, bounds_new; cbn [start end_]; lia.
  - intros x y Hx Hy. unfold contains, bounds_new; cbn [start end_].
    enough (- 2 ^ (k - 1) <= f x y < 2 ^ (k - 1)) by lia.
    eapply (bitwise_fits op); eauto using signed_envelope. lia.
Qed.

(** ** The dispatcher *)

(** When the compiler tracks an interval for the result. *)
Definition interval_defined (op : TileBinaryOp) (b : Bounds) : bool :=
  match op with
  | TileBinaryOp.Shl | TileBinaryOp.Shr => false
  | TileBinaryOp.CeilDiv | TileBinaryOp.Div | TileBinaryOp.TrueDiv | TileBinaryOp.Rem =>
      negb ((start b <=? 0) && (0 <=? end_ b))
  | _ => true
  end.

(** What the dispatcher owes its callers on one operation. *)
Definition dispatch_ok (op : TileBinaryOp) (a b : Bounds) : Prop :=
  exists r, bounds_from_bop op a b = Ok (Some r) /\ bounds_wf r /\
    forall x y v, contains a x -> contains b y -> eval_bop op x y = Some v ->
      contains r (saturate_i64 v).

Lemma dispatch_intro op a b res g :
  bounds_from_bop op a b = Some <$> res -> sound_result res g a b ->
  (forall x y v, contains a x -> contains b y -> eval_bop op x y = Some v -> g x y = saturate_i64 v) ->
  dispatch_ok op a b.
Proof.
  intros Hd (r & -> & Hw & Hs) He. exists r; split; [by rewrite Hd|split; [done|]].
  intros x y v Hx Hy Hv. rewrite <- (He x y v) by done. auto.
Qed.

Lemma bool_as_i64 c : in_i64 (bool_as c).
Proof. destruct c; unfold_int; cbn; lia. Qed.

#[export] Hint Resolve bool_as_i64 : rust.

Lemma dispatch_bop op g a b :
  bounds_wf a -> bounds_wf b -> cornerwise g a b ->
  bounds_from_bop op a b = Some <$> bop_bounds a b (fun x y => Ok (g x y)) ->
  (forall x y, eval_bop op x y = Some (g x y)) ->
  (forall x y, in_i64 x -> in_i64 y -> in_i64 (g x y)) -> dispatch_ok op a b.
Proof.
  intros Ha Hb Hc Hd He Hi. eapply dispatch_intro; [exact Hd| |].
  - apply (sound_bop_bounds g); try done. intros x y Hx Hy. split; [|done].
    apply Hi; eauto with rust.
  - cbn beta. intros x y v Hx Hy Hv. rewrite He in Hv. simplify_eq.
    symmetry. apply saturate_id, Hi; eauto with rust.
Qed.

Lemma dispatch_corners op g a b :
  bounds_wf a -> bounds_wf b -> cornerwise g a b ->
  bounds_from_bop op a b = Some <$> Ok (bounds_new
    (iter_min (saturate_i64 (g (start a) (start b)))
      [saturate_i64 (g (start a) (end_ b)); saturate_i64 (g (end_ a) (start b));
       saturate_i64 (g (end_ a) (end_ b))])
    (iter_max (saturate_i64 (g (start a) (start b)))
      [saturate_i64 (g (start a) (end_ b)); saturate_i64 (g (end_ a) (start b));
       saturate_i64 (g (end_ a) (end_ b))])) ->
  (forall x y, eval_bop op x y = Some (g x y)) -> dispatch_ok op a b.
Proof.
  intros Ha Hb Hc Hd He. eapply dispatch_intro; [exact Hd| |].
  - apply (sound_corners (fun x y => saturate_i64 (g x y))); auto with rust.
    by apply cornerwise_saturate.
  - cbn beta. intros x y v _ _ Hv. rewrite He in Hv. by simplify_eq.
Qed.

Lemma dispatch_bitwise op f a b :
  bitwise_op op = Some f -> bounds_wf a -> bounds_wf b -> dispatch_ok op a b.
Proof.
  intros Hf Ha Hb. apply (dispatch_intro op a b (bitwise_bounds op a b) f).
  - by destruct op.
  - by apply sound_bitwise.
  - intros x y v Hx Hy Hv. symmetry.
    assert (v = f x y) as -> by (destruct op; simplify_eq/=; done).
    apply saturate_id. eapply bitwise_in_i64; eauto; eauto with rust.
Qed.

Lemma dispatch_eq_ne op a b : (op = TileBinaryOp.Eq \/ op = TileBinaryOp.Ne) ->
  bounds_wf a -> bounds_wf b -> dispatch_ok op a b.
Proof.
  intros Hop Ha Hb. unfold dispatch_ok.
  destruct (is_exact a && is_exact b) eqn:Ex.
  - apply andb_prop in Ex as [Ea Eb]. apply is_exact_spec in Ea, Eb.
    destruct Hop; subst op; rewrite Ea, Eb; cbn; unfold is_exact; cbn; rewrite !Z.eqb_refl; cbn;
      (eexists; split; [done|]; split;
       [split; [cbn; lia | split; cbn; auto with rust] |
        intros x y v ->%contains_exact ->%contains_exact [= <-];
        rewrite saturate_id by auto with rust; by apply contains_exact]).
  - assert (Hb01 : bounds_wf (bounds_new 0 1) /\ bounds_wf (exact 0) /\ bounds_wf (exact 1))
      by (repeat split; unfold_int; cbn; lia).
    destruct Hop; subst op; cbn [bounds_from_bop]; rewrite Ex; cbn [fmap outcome_fmap];
      destruct ((end_ a <? start b) || (end_ b <? start a)) eqn:Ed; eexists;
      (split; [done|]); (split; [tauto|]); intros x y v Hx Hy [= <-];
      rewrite saturate_id by auto with rust;
      rewrite ?orb_true_iff, ?Z.ltb_lt in Ed; unfold contains, exact, bounds_new in *; cbn in *;
      destruct (Z.eqb_spec x y); cbn; lia.
Qed.

Lemma dispatch_div op a b :
  (op = TileBinaryOp.Div \/ op = TileBinaryOp.TrueDiv \/ op = TileBinaryOp.CeilDiv \/
   op = TileBinaryOp.Rem) ->
  bounds_wf a -> bounds_wf b -> (start b <=? 0) && (0 <=? end_ b) = false -> dispatch_ok op a b.
Proof.
  intros Hop Ha Hb E. destruct (divisor_nonzero b Hb E) as [Hs Hn].
  assert (Hv : forall x y v, contains b y -> eval_bop op x y = Some v ->
     v = match op with TileBinaryOp.CeilDiv => ceil_div x y | TileBinaryOp.Rem => Z.rem x y
         | _ => Z.quot x y end).
  { intros x y v Hy. pose proof (Hn y Hy).
    destruct Hop as [-> | [-> | [-> | ->]]]; cbn; rewrite (proj2 (Z.eqb_neq y 0)) by done; congruence. }
  destruct Hop as [-> | [-> | [-> | ->]]].
  1,2: eapply dispatch_intro; [cbn; by rewrite E | by apply sound_div |];
       cbn beta; intros x y v Hx Hy He; by rewrite (Hv _ _ _ Hy He).
  - eapply dispatch_intro; [cbn; by rewrite E | |].
    + apply (sound_bop_bounds (fun x y => saturate_i64 (ceil_div x y))); try done.
      { by apply cornerwise_saturate, cornerwise_ceil. }
      intros x y Hx Hy. split; [auto with rust|]. apply div_ceil_i64_ok; eauto with rust.
    + cbn beta; intros x y v Hx Hy He; by rewrite (Hv _ _ _ Hy He).
  - eapply dispatch_intro; [cbn; by rewrite E | by apply sound_rem |].
    intros x y v Hx Hy He. rewrite (Hv _ _ _ Hy He). symmetry.
    apply saturate_id, rem_in_i64; eauto with rust.
Qed.

Lemma bounds_from_bop_spec op a b : bounds_wf a -> bounds_wf b ->
  if interval_defined op b then dispatch_ok op a b else bounds_from_bop op a b = Ok None.
Proof.
  intros Ha Hb.
  assert (Hdiv : forall op, (op = TileBinaryOp.Div \/ op = TileBinaryOp.TrueDiv \/
            op = TileBinaryOp.CeilDiv \/ op = TileBinaryOp.Rem) ->
          if negb ((start b <=? 0) && (0 <=? end_ b)) then dispatch_ok op a b
          else bounds_from_bop op a b = Ok None).
  { intros op' Hop. destruct ((start b <=? 0) && (0 <=? end_ b)) eqn:E; cbn [negb].
    - destruct Hop as [-> | [-> | [-> | ->]]]; cbn [bounds_from_bop]; by rewrite E.
    - by apply dispatch_div. }
  destruct op; cbn [interval_defined]; try (apply Hdiv; tauto); try done;
    try (eapply dispatch_bitwise; done); try (apply dispatch_eq_ne; tauto).
  - by apply (dispatch_corners _ Z.add); auto using cornerwise_add.
  - by apply (dispatch_corners _ Z.sub); auto using cornerwise_sub.
  - by apply (dispatch_corners _ Z.mul); auto using cornerwise_mul.
  - by apply (dispatch_bop _ (fun x y => bool_as (x <? y))); auto using cornerwise_lt with rust.
  - by apply (dispatch_bop _ (fun x y => bool_as (x <=? y))); auto using cornerwise_le with rust.
  - by apply (dispatch_bop _ (fun x y => bool_as (y <? x))); auto using cornerwise_gt with rust.
  - by apply (dispatch_bop _ (fun x y => bool_as (y <=? x))); auto using cornerwise_ge with rust.
  - by apply (dispatch_bop _ Z.min); auto using cornerwise_min with rust.
  - by apply (dispatch_bop _ Z.max); auto using cornerwise_max with rust.
Qed.

Lemma bop_bounds_exact x y f : bop_bounds (exact x) (exact y) f = exact <$> f x y.
Proof. unfold bop_bounds, is_exact; cbn. by rewrite !Z.eqb_refl. Qed.

Lemma zero_divisor_exact y : y <> 0 -> (y <=? 0) && (0 <=? y) = false.
Proof. intros. destruct (Z.leb_spec y 0), (Z.leb_spec 0 y); cbn; lia. Qed.

Lemma fmap_exact_Ok (res : outcome JITError Z) r :
  Some <$> (exact <$> res) = Ok (Some r) -> r = exact (start r).
Proof. destruct res; cbn; naive_solver. Qed.

Lemma exact_operands_exact_result op x y r :
  interval_defined op (exact y) = true ->
  bounds_from_bop op (exact x) (exact y) = Ok (Some r) -> r = exact (start r).
Proof.
  intros Hi Hr.
  destruct op; cbn [bounds_from_bop interval_defined] in *;
    rewrite ?(proj1 (negb_true_iff _) Hi) in Hr; try discriminate;
    rewrite ?bop_bounds_exact in Hr; try (by apply fmap_exact_Ok in Hr);
    unfold bounds_add, bounds_sub, bounds_mul, bounds_div, bounds_rem, bitwise_bounds,
      saturating_div, is_exact in Hr; cbn in Hr; rewrite ?Z.eqb_refl in Hr;
    repeat case_match; simplify_eq/=; rewrite ?Z.min_id, ?Z.max_id; try done; lia.
Qed.

(** ** Properties *)

(** C39: interval arithmetic is sound.  Whenever the compiler derives an
    interval for a binary operation from the intervals of its operands, the
    operation's integer value on any operands drawn from those intervals lies
    in it; a value outside [i64] is represented by the endpoint it saturates
    to, so an interval endpoint strictly inside [i64] is a true bound. *)
Theorem bounds_from_bop_sound (op : TileBinaryOp) (a b r : Bounds) (x y v : Z)
    (Ha : bounds_wf a) (Hb : bounds_wf b) (Hx : contains a x) (Hy : contains b y)
    (Hr : bounds_from_bop op a b = Ok (Some r)) (Hv : eval_bop op x y = Some v) :
  contains r (saturate_i64 v).
Proof.
  pose proof (bounds_from_bop_spec op a b Ha Hb) as Hs.
  destruct (interval_defined op b); [|congruence].
  destruct Hs as (r' & Hr' & _ & Hs). assert (r' = r) as -> by congruence. eauto.
Qed.

Lemma bounds_from_bop_sound_witness :
  contains (mkBounds (-4) 3) (saturate_i64 (Z.lxor (-2) 2)).
Proof.
  apply (bounds_from_bop_sound TileBinaryOp.BitXor (mkBounds (-2) 2) (mkBounds 0 3)
           (mkBounds (-4) 3) (-2) 2 (Z.lxor (-2) 2));
    try (vm_compute; repeat split; congruence).
Defined.

(** the dispatcher never panics on well-formed intervals.  It reports "no
    interval" exactly for shifts and for a division-like operation whose
    divisor interval contains zero; otherwise it returns an interval with
    ordered [i64] endpoints. *)
Lemma bounds_from_bop_total (op : TileBinaryOp) (a b : Bounds)
    (Ha : bounds_wf a) (Hb : bounds_wf b) :
  exists o, bounds_from_bop op a b = Ok o /\
    (o = None <-> interval_defined op b = false) /\
    (forall r, o = Some r -> bounds_wf r).
Proof.
  pose proof (bounds_from_bop_spec op a b Ha Hb) as Hs.
  destruct (interval_defined op b).
  - destruct Hs as (r & -> & Hw & _). exists (Some r). naive_solver.
  - exists None. naive_solver.
Qed.

Lemma bounds_from_bop_total_witness :
  exists o, bounds_from_bop TileBinaryOp.Div (mkBounds (-7) 9) (mkBounds 2 3) = Ok o /\
    (o = None <-> interval_defined TileBinaryOp.Div (mkBounds 2 3) = false) /\
    (forall r, o = Some r -> bounds_wf r).
Proof.
  apply (bounds_from_bop_total TileBinaryOp.Div (mkBounds (-7) 9) (mkBounds 2 3));
    vm_compute; repeat split; congruence.
Defined.

(** Constant folding is exact.  On two single-value intervals the
    dispatcher returns the single-value interval of the operation's
    (saturated) result. *)
Lemma bounds_from_bop_exact (op : TileBinaryOp) (x y v : Z)
    (Hx : in_i64 x) (Hy : in_i64 y) (Hv : eval_bop op x y = Some v) :
  bounds_from_bop op (exact x) (exact y) = Ok (Some (exact (saturate_i64 v))).
Proof.
  assert (Hd : dispatch_ok op (exact x) (exact y) /\ interval_defined op (exact y) = true).
  { assert (Hw : bounds_wf (exact x) /\ bounds_wf (exact y)) by (repeat split; cbn; apply Hx || apply Hy || lia).
    assert (interval_defined op (exact y) = true) as E.
    { destruct op; cbn in *; try done; destruct (Z.eqb_spec y 0); try done; by rewrite zero_divisor_exact. }
    pose proof (bounds_from_bop_spec op (exact x) (exact y) (proj1 Hw) (proj2 Hw)) as Hs.
    by rewrite E in Hs. }
  destruct Hd as [(r & Hr & _ & Hs) Hi]. rewrite Hr. do 2 f_equal.
  pose proof (exact_operands_exact_result op x y r Hi Hr) as Hex.
  specialize (Hs x y v). rewrite Hex in Hs |- *. f_equal.
  symmetry. apply contains_exact. apply Hs; [by apply contains_exact..|done].
Qed.

Lemma bounds_from_bop_exact_witness :
  bounds_from_bop TileBinaryOp.CeilDiv (exact 7) (exact (-2)) = Ok (Some (exact (saturate_i64 (-3)))).
Proof.
  apply (bounds_from_bop_exact TileBinaryOp.CeilDiv 7 (-2) (-3));
    vm_compute; repeat split; congruence.
Defined.
