(* ===== verification/Predicate.v ===== *)
(** * Canonical term and predicate algebra (cuda-async/src/predicate.rs)

    Linear terms over launch- and device-time atoms, and the predicates the
    compiler folds at JIT time, evaluates on the host at launch, or leaves to
    the device.  The file models every constructor, proves that each keeps
    the normal form (sorted, zero-free, [i64] coefficients), that terms
    denote what they are built from, that structural equality is semantic
    equality, and that predicate evaluation decides the denoted relation. *)

From S2P Require Import Prelude BTree.

(** ** Stages and atoms *)

Inductive Stage := Jit | Launch | Device.

#[export] Instance Stage_eq_dec : EqDecision Stage.
Proof. solve_decision. Defined.

(** Derived [Ord]: declaration order. *)
Definition stage_rank (s : Stage) : Z :=
  match s with Jit => 0 | Launch => 1 | Device => 2 end.
Definition stage_max (s t : Stage) : Stage := if stage_rank s <? stage_rank t then t else s.

Inductive Atom :=
| Dim (param axis : Z)
| Iv (id : Z)
| TileBlockId (k : Z)
| NumTileBlocks (k : Z)
| ViewExtent (param axis : Z)
| TileCount (param axis tile : Z).

#[export] Instance Atom_eq_dec : EqDecision Atom.
Proof. solve_decision. Defined.

Definition atom_stage (a : Atom) : Stage :=
  match a with
  | Dim _ _ | NumTileBlocks _ | ViewExtent _ _ | TileCount _ _ _ => Launch
  | Iv _ | TileBlockId _ => Device
  end.

(** Derived [Ord] of [Atom]: variant order first, then the fields in order. *)
Definition atom_key (a : Atom) : Z * Z * Z * Z :=
  match a with
  | Dim p x => (0, p, x, 0)
  | Iv i => (1, i, 0, 0)
  | TileBlockId k => (2, k, 0, 0)
  | NumTileBlocks k => (3, k, 0, 0)
  | ViewExtent p x => (4, p, x, 0)
  | TileCount p x t => (5, p, x, t)
  end.

Definition atom_ltb (a b : Atom) : bool :=
  let '(a0, a1, a2, a3) := atom_key a in
  let '(b0, b1, b2, b3) := atom_key b in
  (a0 <? b0) || (a0 =? b0) && ((a1 <? b1) || (a1 =? b1) && ((a2 <? b2) || (a2 =? b2) && (a3 <? b3))).

#[export] Instance atom_ltb_total : StrictTotal atom_ltb.
Proof.
  split; unfold atom_ltb.
  - intros a. destruct (atom_key a) as [[[? ?] ?] ?]. lia.
  - intros a b c. destruct (atom_key a) as [[[? ?] ?] ?], (atom_key b) as [[[? ?] ?] ?],
      (atom_key c) as [[[? ?] ?] ?]. lia.
  - intros a b H1 H2. assert (atom_key a = atom_key b) as He.
    { destruct (atom_key a) as [[[? ?] ?] ?], (atom_key b) as [[[? ?] ?] ?].
      repeat f_equal; lia. }
    destruct a, b; cbn in He; congruence.
Qed.

(** ** Terms *)

Record Term := mkTerm { coeffs : list (Atom * Z); constant_part : Z }.

#[export] Instance Term_eq_dec : EqDecision Term.
Proof. solve_decision. Defined.

Abbreviation cget := (btree_get (V:=Z) atom_ltb).
Abbreviation cinsert := (btree_insert (V:=Z) atom_ltb).
Abbreviation cremove := (btree_remove (V:=Z) atom_ltb).
Abbreviation csorted := (btree_sorted (V:=Z) atom_ltb).

Definition constant (c : Z) : Term := mkTerm [] c.
Definition atom (a : Atom) : Term := mkTerm (cinsert [] a 1) 0.
Definition affine (a : Atom) (scale offset : Z) : Term :=
  if scale =? 0 then constant offset else mkTerm (cinsert [] a scale) offset.

Definition as_constant (t : Term) : option Z :=
  match coeffs t with [] => Some (constant_part t) | _ => None end.

Definition term_stage (t : Term) : Stage :=
  match (fun e => atom_stage e.1) <$> coeffs t with
  | [] => Jit
  | s :: ss => foldl stage_max s ss
  end.

(** The loop of [Term::add] over the right operand's entries. *)
Fixpoint add_coeffs (acc : list (Atom * Z)) (other : list (Atom * Z)) : option (list (Atom * Z)) :=
  match other with
  | [] => Some acc
  | (a, c) :: other' =>
      entry ← checked_i64 (default 0 (cget acc a) + c);
      let acc := cinsert acc a entry in
      let acc := if entry =? 0 then cremove acc a else acc in
      add_coeffs acc other'
  end.

Definition term_add (t u : Term) : option Term :=
  cs ← add_coeffs (coeffs t) (coeffs u);
  k ← checked_i64 (constant_part t + constant_part u);
  Some (mkTerm cs k).

(** The rebuild loop shared by [neg] and [mul_const]: each coefficient goes
    through a checked operation and into a fresh map. *)
Fixpoint rebuild (f : Z -> Z) (acc : list (Atom * Z)) (l : list (Atom * Z))
    : option (list (Atom * Z)) :=
  match l with
  | [] => Some acc
  | (a, c) :: l' => c' ← checked_i64 (f c); rebuild f (cinsert acc a c') l'
  end.

Definition term_neg (t : Term) : option Term :=
  cs ← rebuild Z.opp [] (coeffs t);
  k ← checked_i64 (- constant_part t);
  Some (mkTerm cs k).

Definition term_sub (t u : Term) : option Term := n ← term_neg u; term_add t n.

Definition mul_const (t : Term) (k : Z) : option Term :=
  if k =? 0 then Some (constant 0)
  else
    cs ← rebuild (fun c => c * k) [] (coeffs t);
    k' ← checked_i64 (constant_part t * k);
    Some (mkTerm cs k').

Definition sign_canonical (t : Term) : Term :=
  let leading_negative :=
    match coeffs t with
    | (_, c) :: _ => c <? 0
    | [] => constant_part t <? 0
    end in
  if leading_negative then default t (term_neg t) else t.

Definition as_single_affine (t : Term) : option (Atom * Z * Z) :=
  match coeffs t with
  | [(a, scale)] => Some (a, scale, constant_part t)
  | _ => None
  end.

Definition term_atoms (t : Term) : list Atom := fst <$> coeffs t.

(** The accumulation loop of [Term::eval]. *)
Fixpoint eval_loop (resolve : Atom -> option Z) (acc : Z) (l : list (Atom * Z)) : option Z :=
  match l with
  | [] => Some acc
  | (a, c) :: l' =>
      v ← resolve a;
      p ← checked_i64 (c * v);
      acc ← checked_i64 (acc + p);
      eval_loop resolve acc l'
  end.

Definition term_eval (t : Term) (resolve : Atom -> option Z) : option Z :=
  eval_loop resolve (constant_part t) (coeffs t).

(** ** Predicates *)

Inductive Predicate :=
| Zero (t : Term)
| Nonzero (t : Term)
| Positive (t : Term)
| DivisibleBy (t : Term) (divisor : Z).

#[export] Instance Predicate_eq_dec : EqDecision Predicate.
Proof. solve_decision. Defined.

Definition pred_eq (a b : Term) : option Predicate :=
  d ← term_sub a b; Some (Zero (sign_canonical d)).

Definition nonzero (t : Term) : Predicate := Nonzero (sign_canonical t).

Definition pred_lt (a b : Term) : option Predicate :=
  d ← term_sub b a; Some (Positive d).

Definition pred_le (a b : Term) : option Predicate :=
  b1 ← term_add b (constant 1); d ← term_sub b1 a; Some (Positive d).

(** The reduction loop of [divisible_by]; [rem_euclid] by a positive divisor
    is the non-negative residue. *)
Fixpoint reduce_mod (divisor : Z) (acc : list (Atom * Z)) (l : list (Atom * Z)) : list (Atom * Z) :=
  match l with
  | [] => acc
  | (a, c) :: l' =>
      let r := c mod divisor in
      reduce_mod divisor (if r =? 0 then acc else cinsert acc a r) l'
  end.

Definition divisible_by (t : Term) (divisor : Z) : option Predicate :=
  if divisor <? 1 then None
  else
    let reduced := mkTerm (reduce_mod divisor [] (coeffs t)) (constant_part t mod divisor) in
    Some (DivisibleBy (sign_canonical reduced) divisor).

Definition pred_term (p : Predicate) : Term :=
  match p with Zero t | Nonzero t | Positive t | DivisibleBy t _ => t end.

Definition pred_stage (p : Predicate) : Stage := term_stage (pred_term p).
Definition pred_atoms (p : Predicate) : list Atom := term_atoms (pred_term p).

Definition pred_eval (p : Predicate) (resolve : Atom -> option Z) : option bool :=
  match p with
  | Zero t => v ← term_eval t resolve; Some (v =? 0)
  | Nonzero t => v ← term_eval t resolve; Some (negb (v =? 0))
  | Positive t => v ← term_eval t resolve; Some (0 <? v)
  | DivisibleBy t d => v ← term_eval t resolve; Some (v mod d =? 0)
  end.

(** A predicate hoisted to the host launcher with its diagnostic. *)
Record LaunchCheck := mkLaunchCheck { lc_predicate : Predicate; lc_cause : string }.

(** ** Denotation and normal form *)

Fixpoint lin (rho : Atom -> Z) (l : list (Atom * Z)) : Z :=
  match l with
  | [] => 0
  | (a, c) :: l' => c * rho a + lin rho l'
  end.

(** The integer a term denotes under a valuation of its atoms. *)
Definition denote (rho : Atom -> Z) (t : Term) : Z := lin rho (coeffs t) + constant_part t.

(** What a predicate asserts. *)
Definition holds (rho : Atom -> Z) (p : Predicate) : Prop :=
  match p with
  | Zero t => denote rho t = 0
  | Nonzero t => denote rho t <> 0
  | Positive t => 0 < denote rho t
  | DivisibleBy t d => (d | denote rho t)
  end.

Definition coeff_ok (e : Atom * Z) : Prop := e.2 <> 0 /\ in_i64 e.2.

(** The normal-form invariant: sorted by atom, no zero coefficient, every
    number an [i64]. *)
Definition term_wf (t : Term) : Prop :=
  csorted (coeffs t) /\ Forall coeff_ok (coeffs t) /\ in_i64 (constant_part t).

Definition pred_wf (p : Predicate) : Prop :=
  term_wf (pred_term p) /\ match p with DivisibleBy _ d => 1 <= d | _ => True end.

Lemma csorted_insert l a c : csorted l -> csorted (cinsert l a c).
Proof. apply btree_insert_sorted; apply _. Qed.

Lemma csorted_remove l a : csorted l -> csorted (cremove l a).
Proof. apply btree_remove_sorted; apply _. Qed.

Lemma cget_insert_eq l a c : csorted l -> cget (cinsert l a c) a = Some c.
Proof. apply btree_get_insert_eq; apply _. Qed.

#[export] Hint Resolve csorted_insert csorted_remove : rust.

Definition coeff_of (l : list (Atom * Z)) (a : Atom) : Z := default 0 (cget l a).

Lemma lin_insert rho l a c : csorted l ->
  lin rho (cinsert l a c) = lin rho l + (c - coeff_of l a) * rho a.
Proof.
  unfold coeff_of. induction l as [|[b d] l IH]; cbn; [lia|]. intros [Hb Hs].
  destruct (atom_ltb a b) eqn:E1; cbn; [lia|].
  destruct (atom_ltb b a) eqn:E2; cbn; [rewrite IH by done; lia|].
  assert (a = b) as -> by (by apply ltb_total). unfold id. lia.
Qed.

Lemma lin_remove rho l a : csorted l ->
  lin rho (cremove l a) = lin rho l - coeff_of l a * rho a.
Proof.
  unfold coeff_of. induction l as [|[b d] l IH]; cbn; [lia|]. intros [Hb Hs].
  destruct (atom_ltb a b) eqn:E1; cbn; [lia|].
  destruct (atom_ltb b a) eqn:E2; cbn; [rewrite IH by done; lia|].
  assert (a = b) as -> by (by apply ltb_total). unfold id. lia.
Qed.

Lemma Forall_cinsert (P : Atom * Z -> Prop) l a c : P (a, c) -> Forall P l -> Forall P (cinsert l a c).
Proof.
  intros Hp. induction l as [|[b d] l IH]; intros Hl; cbn; [by constructor|].
  apply Forall_cons in Hl as [H1 H2]. repeat case_match; repeat constructor; auto.
Qed.

Lemma Forall_cremove (P : Atom * Z -> Prop) l a : Forall P l -> Forall P (cremove l a).
Proof.
  induction l as [|[b d] l IH]; intros Hl; cbn; [done|].
  apply Forall_cons in Hl as [H1 H2]. repeat case_match; repeat constructor; auto.
Qed.

(** Removing the entry just inserted leaves the other entries. *)
Lemma Forall_cremove_cinsert (P : Atom * Z -> Prop) l a c : csorted l ->
  Forall P l -> Forall P (cremove (cinsert l a c) a).
Proof.
  induction l as [|[b d] l IH]; cbn [btree_sorted btree_insert]; intros Hs Hl.
  - cbn. by rewrite (ltb_irrefl a).
  - destruct Hs as [Hb Hs]. apply Forall_cons in Hl as [H1 H2].
    destruct (atom_ltb a b) eqn:E1; cbn [btree_remove]; [rewrite (ltb_irrefl a); by constructor|].
    destruct (atom_ltb b a) eqn:E2; cbn [btree_remove].
    + rewrite E1, E2. constructor; auto.
    + by rewrite (ltb_irrefl a).
Qed.

Definition coeffs_wf (l : list (Atom * Z)) : Prop := csorted l /\ Forall coeff_ok l.

Lemma add_coeffs_spec acc other r : coeffs_wf acc -> Forall coeff_ok other ->
  add_coeffs acc other = Some r ->
  coeffs_wf r /\ forall rho, lin rho r = lin rho acc + lin rho other.
Proof.
  revert acc. induction other as [|[a c] other IH]; intros acc [Hs Hf] Ho; cbn.
  - intros [= <-]. split; [done|]. intros; lia.
  - apply Forall_cons in Ho as [Ho1 Ho2]. intros He.
    destruct (checked_i64 _) as [entry|] eqn:Hc; [|done]. cbn in He.
    apply checked_i64_Some in Hc as [-> Hi].
    destruct (Z.eqb_spec (default 0 (cget acc a) + c) 0) as [Hz|Hz].
    + apply IH in He as [Hw Hl]; [|split|done].
      * split; [done|]. intros rho. rewrite Hl, lin_remove, lin_insert by auto with rust.
        unfold coeff_of. rewrite cget_insert_eq by done.
        set (d := default 0 (cget acc a)) in *. cbn; unfold id. nia.
      * auto with rust.
      * by apply Forall_cremove_cinsert.
    + apply IH in He as [Hw Hl]; [|split|done].
      * split; [done|]. intros rho. rewrite Hl, lin_insert by done. unfold coeff_of. lia.
      * auto with rust.
      * by apply Forall_cinsert.
Qed.

(** [rebuild] maps the coefficients and keeps the keys and their order. *)
Lemma rebuild_spec f acc l r : csorted (acc ++ l) -> rebuild f acc l = Some r ->
  r = acc ++ (prod_map id f <$> l) /\ Forall (fun e => in_i64 (f e.2)) l.
Proof.
  revert acc. induction l as [|[a c] l IH]; intros acc Hs; cbn.
  - intros [= <-]. by rewrite app_nil_r.
  - intros He. destruct (checked_i64 (f c)) as [c'|] eqn:Hc; [|done]. cbn in He.
    apply checked_i64_Some in Hc as [-> Hi].
    pose proof Hs as Hs'. apply btree_sorted_app in Hs' as (Ha & Hl & Hal).
    assert (Forall (fun e : Atom * Z => atom_ltb e.1 a = true) acc) as Hlast.
    { eapply Forall_impl; [exact Hal|]. intros e He'. by apply Forall_cons in He' as [He' _]. }
    rewrite btree_insert_last in He by (exact Hlast || apply _).
    apply IH in He as [-> Hf].
    + split; [by rewrite <- app_assoc|]. by constructor.
    + rewrite <- app_assoc; cbn. clear -Hs. revert Hs.
      rewrite !btree_sorted_app; cbn. intros (H1 & H2 & H3). split_and!; try done; try tauto.
      eapply Forall_impl; [exact H3|]. intros e He. by rewrite !Forall_cons in *.
Qed.

Lemma sorted_map_values f l : csorted l -> csorted (prod_map id f <$> l).
Proof.
  induction l as [|[a c] l IH]; cbn; [done|]. intros [Hb Hs]. split; [|auto].
  rewrite Forall_fmap. by eapply Forall_impl; [exact Hb|].
Qed.

Lemma lin_map_values rho k l : lin rho (prod_map id (fun c => c * k) <$> l) = lin rho l * k.
Proof. induction l as [|[a c] l IH]; cbn; [lia|]. rewrite IH. unfold id. lia. Qed.

Lemma rebuild_scale k l r : k <> 0 -> coeffs_wf l -> rebuild (fun c => c * k) [] l = Some r ->
  coeffs_wf r /\ forall rho, lin rho r = lin rho l * k.
Proof.
  intros Hk [Hs Hf] [-> Hi]%rebuild_spec; [|done]. cbn [app]. split; [split|].
  - by apply sorted_map_values.
  - rewrite Forall_fmap. rewrite Forall_forall in Hf, Hi |- *.
    intros [a c] He. pose proof (Hi _ He) as Hic. destruct (Hf _ He) as [Hc _].
    split; cbn in *; [|done]. apply Z.neq_mul_0; done.
  - intros. apply lin_map_values.
Qed.

Lemma rebuild_ext f g acc l : (forall c, f c = g c) -> rebuild f acc l = rebuild g acc l.
Proof.
  intros H. revert acc. induction l as [|[a c] l IH]; intros acc; cbn; [done|].
  rewrite H. destruct (checked_i64 (g c)); cbn; auto.
Qed.

(** ** Term operations *)

Lemma mkTerm_wf cs k : coeffs_wf cs -> in_i64 k -> term_wf (mkTerm cs k).
Proof. by intros [H1 H2] H3. Qed.

Lemma singleton_wf a c : c <> 0 -> in_i64 c -> coeffs_wf (cinsert [] a c).
Proof. intros. split; cbn; [by split; [apply Forall_nil|]|]. by apply Forall_singleton. Qed.

Lemma constant_wf c : in_i64 c -> term_wf (constant c).
Proof. by apply mkTerm_wf. Qed.

Lemma denote_constant rho c : denote rho (constant c) = c.
Proof. done. Qed.

Lemma atom_wf a : term_wf (atom a).
Proof. by apply mkTerm_wf; [apply singleton_wf|]. Qed.

Lemma denote_atom rho a : denote rho (atom a) = rho a.
Proof. unfold denote, atom. cbn -[Z.mul]. lia. Qed.

Lemma affine_spec a s o : in_i64 s -> in_i64 o ->
  term_wf (affine a s o) /\ forall rho, denote rho (affine a s o) = s * rho a + o.
Proof.
  intros Hs Ho. unfold affine. destruct (Z.eqb_spec s 0) as [->|Hne].
  - split; [by apply constant_wf|]. intros. rewrite denote_constant. lia.
  - split; [by apply mkTerm_wf; [apply singleton_wf|]|].
    intros. unfold denote; cbn -[Z.mul]. lia.
Qed.

Lemma term_add_spec t u r : term_wf t -> term_wf u -> term_add t u = Some r ->
  term_wf r /\ forall rho, denote rho r = denote rho t + denote rho u.
Proof.
  intros (S1 & F1 & I1) (S2 & F2 & I2) H. unfold term_add in H.
  apply bind_Some in H as (cs & Hc & H). apply bind_Some in H as (k & Hk & [= <-]).
  apply add_coeffs_spec in Hc as [Hcw Hl]; [|by split|done].
  apply checked_i64_Some in Hk as [-> Hi].
  split; [by apply mkTerm_wf|]. intros rho. unfold denote; cbn. rewrite Hl. lia.
Qed.

Lemma mul_const_spec t k r : term_wf t -> mul_const t k = Some r ->
  term_wf r /\ forall rho, denote rho r = denote rho t * k.
Proof.
  intros (S1 & F1 & I1) H. unfold mul_const in H. destruct (Z.eqb_spec k 0) as [->|Hk].
  - injection H as <-. split; [by apply constant_wf|]. intros. rewrite denote_constant. lia.
  - apply bind_Some in H as (cs & Hc & H). apply bind_Some in H as (k' & Hk' & [= <-]).
    apply rebuild_scale in Hc as [Hcw Hl]; [|done|by split].
    apply checked_i64_Some in Hk' as [-> Hi].
    split; [by apply mkTerm_wf|]. intros rho. unfold denote; cbn. rewrite Hl. lia.
Qed.

Lemma term_neg_mul t : term_neg t = mul_const t (-1).
Proof.
  unfold term_neg, mul_const. cbn [Z.eqb].
  rewrite (rebuild_ext Z.opp (fun c => c * -1)) by lia.
  by replace (- constant_part t) with (constant_part t * -1) by lia.
Qed.

Lemma term_neg_spec t r : term_wf t -> term_neg t = Some r ->
  term_wf r /\ forall rho, denote rho r = - denote rho t.
Proof.
  rewrite term_neg_mul. intros Hw [Hr Hd]%mul_const_spec; [|done].
  split; [done|]. intros. rewrite Hd. lia.
Qed.

Lemma term_sub_spec t u r : term_wf t -> term_wf u -> term_sub t u = Some r ->
  term_wf r /\ forall rho, denote rho r = denote rho t - denote rho u.
Proof.
  intros Ht Hu H. unfold term_sub in H. apply bind_Some in H as (n & Hn & H).
  apply term_neg_spec in Hn as [Hnw Hnd]; [|done].
  apply term_add_spec in H as [Hr Hd]; [|done..].
  split; [done|]. intros. rewrite Hd, Hnd. lia.
Qed.

Lemma sign_canonical_cases t : sign_canonical t = t \/ term_neg t = Some (sign_canonical t).
Proof.
  unfold sign_canonical. destruct (match coeffs t with [] => _ | _ => _ end); [|auto].
  destruct (term_neg t); auto.
Qed.

Lemma sign_canonical_spec t : term_wf t -> term_wf (sign_canonical t) /\
  ((forall rho, denote rho (sign_canonical t) = denote rho t) \/
   (forall rho, denote rho (sign_canonical t) = - denote rho t)).
Proof.
  intros Hw. destruct (sign_canonical_cases t) as [-> | H]; [auto|].
  apply term_neg_spec in H as [H1 H2]; [|done]. auto.
Qed.

(** ** Canonicity *)

Definition indicator (a b : Atom) : Z := if decide (a = b) then 1 else 0.

Lemma lin_indicator_below a l :
  Forall (fun e => atom_ltb a e.1 = true) l -> lin (indicator a) l = 0.
Proof.
  induction l as [|[b c] l IH]; intros H; [done|]. apply Forall_cons in H as [H1 H2]; cbn in *.
  rewrite IH by done. unfold indicator. case_decide as Hd; [|lia].
  subst b. by rewrite (ltb_irrefl a) in H1.
Qed.

Lemma lin_indicator a l : csorted l -> lin (indicator a) l = coeff_of l a.
Proof.
  unfold coeff_of. induction l as [|[b c] l IH]; cbn -[Z.mul]; [done|]. intros [Hb Hs].
  unfold indicator at 1. case_decide as Hd.
  - subst b. rewrite (ltb_irrefl a), lin_indicator_below by done. cbn -[Z.mul]. unfold id. lia.
  - rewrite IH by done. destruct (atom_ltb a b) eqn:E1.
    + rewrite btree_get_below; [cbn -[Z.mul]; lia|].
      eapply Forall_impl; [exact Hb|]. intros e He. by eapply ltb_trans.
    + destruct (atom_ltb b a) eqn:E2; [lia|]. destruct Hd. by apply ltb_total.
Qed.

Lemma lin_zero l : lin (fun _ => 0) l = 0.
Proof. induction l as [|[a c] l IH]; cbn -[Z.mul]; lia. Qed.

Lemma cget_coeff l a : coeffs_wf l ->
  cget l a = if coeff_of l a =? 0 then None else Some (coeff_of l a).
Proof.
  intros [Hs Hf]. unfold coeff_of. destruct (cget l a) as [c|] eqn:E; [|done].
  apply (btree_get_elem _ _ _ _ Hs) in E. rewrite Forall_forall in Hf.
  destruct (Hf _ E) as [Hc _]. cbn in *. unfold id. by rewrite (proj2 (Z.eqb_neq c 0)).
Qed.

Lemma term_canonical t u : term_wf t -> term_wf u ->
  (forall rho, denote rho t = denote rho u) -> t = u.
Proof.
  intros (S1 & F1 & I1) (S2 & F2 & I2) He.
  assert (constant_part t = constant_part u) as Hk.
  { specialize (He (fun _ => 0)). unfold denote in He. by rewrite !lin_zero in He. }
  assert (coeffs t = coeffs u) as Hc.
  { apply (btree_ext atom_ltb); [done..|]. intros a. rewrite !cget_coeff by done.
    specialize (He (indicator a)). unfold denote in He.
    rewrite !lin_indicator in He by done. by replace (coeff_of (coeffs t) a) with (coeff_of (coeffs u) a) by lia. }
  destruct t, u; cbn in *; congruence.
Qed.

Lemma rebuild_total f acc l : Forall (fun e => in_i64 (f e.2)) l -> is_Some (rebuild f acc l).
Proof.
  intros H. revert acc. induction H as [|[a c] l Hc _ IH]; intros acc; cbn; [by eexists|].
  cbn in Hc. rewrite (checked_i64_ok _ Hc). cbn. apply IH.
Qed.

(** Negation succeeds whenever the opposite term is representable. *)
Lemma term_neg_total t u : term_wf t -> term_wf u ->
  (forall rho, denote rho u = - denote rho t) -> term_neg t = Some u.
Proof.
  intros Ht Hu He. pose proof Ht as (S1 & F1 & I1). pose proof Hu as (S2 & F2 & I2).
  assert (Hk : constant_part u = - constant_part t).
  { specialize (He (fun _ => 0)). unfold denote in He. rewrite !lin_zero in He. lia. }
  assert (Hcs : Forall (fun e => in_i64 (- e.2)) (coeffs t)).
  { apply Forall_forall. intros [a c] Hin. cbn.
    assert (coeff_of (coeffs u) a = - c) as Hc.
    { specialize (He (indicator a)). unfold denote in He.
      rewrite !lin_indicator in He by done.
      apply (btree_get_elem atom_ltb) in Hin; [|done]. unfold coeff_of in *.
      rewrite Hin in He. change (default 0 (Some c)) with c in He. lia. }
    rewrite <- Hc. unfold coeff_of. destruct (cget (coeffs u) a) as [c'|] eqn:E; [|done].
    apply (btree_get_elem atom_ltb) in E; [|done].
    rewrite Forall_forall in F2. by destruct (F2 _ E). }
  destruct (term_neg t) as [n|] eqn:En.
  - apply term_neg_spec in En as [Hnw Hnd]; [|done]. f_equal.
    apply term_canonical; try done. intros. by rewrite Hnd, He.
  - exfalso. unfold term_neg in En. destruct (rebuild_total Z.opp [] _ Hcs) as [cs Hr].
    rewrite Hr in En. cbn in En. rewrite checked_i64_ok in En; [done|]. by rewrite <- Hk.
Qed.

Definition leading (t : Term) : Z :=
  match coeffs t with (_, c) :: _ => c | [] => constant_part t end.

Lemma sign_canonical_leading t : sign_canonical t = if leading t <? 0 then default t (term_neg t) else t.
Proof. unfold sign_canonical, leading. by destruct (coeffs t) as [|[? ?] ?]. Qed.

Lemma leading_neg t u : term_wf t -> term_neg t = Some u -> leading u = - leading t.
Proof.
  intros (Hs & _) H. unfold term_neg in H.
  apply bind_Some in H as (cs & Hc & H). apply bind_Some in H as (k & Hk & [= <-]).
  apply rebuild_spec in Hc as [-> _]; [|done]. apply checked_i64_Some in Hk as [-> _].
  unfold leading; cbn. by destruct (coeffs t) as [|[? ?] ?].
Qed.

Lemma leading_zero t : term_wf t -> leading t = 0 -> t = constant 0.
Proof.
  intros (Hs & Hf & Hi) Hz. unfold leading in Hz. destruct t as [[|[a c] l] k]; cbn in *.
  - by subst.
  - apply Forall_cons in Hf as [[Hc _] _]. by cbn in Hc.
Qed.

(** The two signs of a term share one representative. *)
Lemma sign_canonical_opp t u : term_wf t -> term_wf u ->
  (forall rho, denote rho u = - denote rho t) -> sign_canonical t = sign_canonical u.
Proof.
  intros Ht Hu He.
  assert (Hn : term_neg t = Some u) by (by apply term_neg_total).
  assert (Hn' : term_neg u = Some t) by (apply term_neg_total; auto; intros; rewrite He; lia).
  pose proof (leading_neg t u Ht Hn). rewrite !sign_canonical_leading, Hn, Hn'. cbn. unfold id.
  destruct (Z.ltb_spec (leading t) 0), (Z.ltb_spec (leading u) 0); try done; try lia.
  rewrite (leading_zero t), (leading_zero u) by (done || lia). done.
Qed.

(** ** Evaluation *)

Definition agrees (resolve : Atom -> option Z) (rho : Atom -> Z) : Prop :=
  forall a v, resolve a = Some v -> rho a = v.

Lemma eval_loop_spec resolve rho acc l v : agrees resolve rho ->
  eval_loop resolve acc l = Some v -> v = acc + lin rho l.
Proof.
  intros Ha. revert acc. induction l as [|[a c] l IH]; intros acc H; cbn -[Z.mul] in *.
  - simplify_eq. lia.
  - apply bind_Some in H as (x & Hx & H). apply bind_Some in H as (p & Hp & H).
    apply bind_Some in H as (q & Hq & H). apply checked_i64_Some in Hp as [-> _], Hq as [-> _].
    apply IH in H. apply Ha in Hx. subst. lia.
Qed.

Lemma term_eval_spec resolve rho t v : agrees resolve rho ->
  term_eval t resolve = Some v -> v = denote rho t.
Proof. intros Ha H%(eval_loop_spec _ rho); [|done]. unfold denote. lia. Qed.

Lemma pred_eval_spec resolve rho p b : agrees resolve rho -> pred_wf p ->
  pred_eval p resolve = Some b -> b = true <-> holds rho p.
Proof.
  intros Ha [_ Hd] H. destruct p as [t|t|t|t d]; cbn in *;
    apply bind_Some in H as (v & Hv & [= <-]); apply (term_eval_spec _ rho) in Hv; try done; subst v.
  - lia.
  - rewrite negb_true_iff. lia.
  - lia.
  - rewrite Z.eqb_eq. apply Z.mod_divide. lia.
Qed.

(** ** Stages *)

Definition launch_known (a : Atom) : Prop := atom_stage a = Launch.

Lemma stage_max_rank s t : stage_rank (stage_max s t) = Z.max (stage_rank s) (stage_rank t).
Proof. by destruct s, t. Qed.

Lemma foldl_stage_rank ss s :
  stage_rank (foldl stage_max s ss) = foldr (fun t m => Z.max (stage_rank t) m) (stage_rank s) ss.
Proof.
  revert s. induction ss as [|t ss IH]; intros s; cbn; [done|]. rewrite IH. clear IH.
  rewrite stage_max_rank. induction ss as [|u ss IH]; cbn; lia.
Qed.

Lemma foldr_max_le (n m : Z) ss :
  foldr (fun t m => Z.max (stage_rank t) m) m ss <= n <->
  m <= n /\ Forall (fun t => stage_rank t <= n) ss.
Proof.
  induction ss as [|t ss IH]; cbn; [rewrite Forall_nil; tauto|].
  rewrite Forall_cons, Z.max_lub_iff, IH. tauto.
Qed.

(** A term is decidable at launch exactly when every atom it reads is. *)
Lemma term_stage_launch t :
  stage_rank (term_stage t) <= stage_rank Launch <-> Forall launch_known (term_atoms t).
Proof.
  unfold term_stage, term_atoms.
  assert (Ha : forall a, stage_rank (atom_stage a) <= 1 <-> launch_known a)
    by (intros []; unfold launch_known; cbn; split; (done || lia)).
  destruct (coeffs t) as [|[a c] l]; cbn [fmap list_fmap fst].
  - cbn. by rewrite Forall_nil.
  - rewrite foldl_stage_rank, foldr_max_le, Forall_cons, !Forall_fmap. cbn [stage_rank].
    rewrite Ha. f_equiv. apply Forall_iff. intros [b d]. cbn. apply Ha.
Qed.

(** ** Residues *)

Definition residue (d : Z) (e : Atom * Z) : option (Atom * Z) :=
  if e.2 mod d =? 0 then None else Some (e.1, e.2 mod d).

Lemma reduce_mod_spec d acc l : csorted (acc ++ l) -> reduce_mod d acc l = acc ++ omap (residue d) l.
Proof.
  revert acc. induction l as [|[a c] l IH]; intros acc Hs; cbn; [by rewrite app_nil_r|].
  unfold residue at 1; cbn [fst snd].
  pose proof Hs as Hs'. apply btree_sorted_app in Hs' as (Ha & Hl & Hal); cbn in Hl.
  destruct (c mod d =? 0).
  - rewrite IH; [done|]. apply btree_sorted_app. split_and!; [done|tauto|].
    eapply Forall_impl; [exact Hal|]. intros e He. by apply Forall_cons in He as [_ He].
  - rewrite btree_insert_last.
    + rewrite IH; [by rewrite <- app_assoc|]. rewrite <- app_assoc; cbn.
      apply btree_sorted_app. split_and!; [done|done|].
      eapply Forall_impl; [exact Hal|]. intros e He. by rewrite !Forall_cons in *.
    + apply _.
    + eapply Forall_impl; [exact Hal|]. intros e He. by apply Forall_cons in He as [He _].
Qed.

Lemma omap_residue_below d a l : Forall (fun e => atom_ltb a e.1 = true) l ->
  Forall (fun e => atom_ltb a e.1 = true) (omap (residue d) l).
Proof.
  induction l as [|[b c] l IH]; intros H; cbn; [done|]. apply Forall_cons in H as [H1 H2].
  unfold residue at 1; cbn. destruct (c mod d =? 0); [auto|]. by apply Forall_cons; auto.
Qed.

Lemma omap_residue_wf d l : 1 <= d -> in_i64 d -> csorted l -> coeffs_wf (omap (residue d) l).
Proof.
  intros Hd Hi. induction l as [|[a c] l IH]; intros Hs; cbn; [by split|].
  destruct Hs as [Hb Hs]. specialize (IH Hs) as [IH1 IH2].
  unfold residue at 1; cbn. destruct (Z.eqb_spec (c mod d) 0); [by split|].
  split; [split; [by apply omap_residue_below|done]|].
  constructor; [|done]. split; cbn; [done|].
  pose proof (Z.mod_pos_bound c d ltac:(lia)). unfold in_i64, I64_MIN, I64_MAX in *. lia.
Qed.

Lemma lin_residue d rho l : 1 <= d -> (d | lin rho l - lin rho (omap (residue d) l)).
Proof.
  intros Hd. induction l as [|[a c] l IH]; cbn -[Z.mul]; [apply Z.divide_0_r|].
  unfold residue at 1; cbn -[Z.mul].
  pose proof (Z.div_mod c d ltac:(lia)) as Hc. destruct IH as [q Hq].
  destruct (Z.eqb_spec (c mod d) 0) as [Hz|Hz]; cbn -[Z.mul];
    exists (c / d * rho a + q); nia.
Qed.

(** ** Predicate constructors *)

Lemma divide_iff_sub d a b : (d | a - b) -> (d | a) <-> (d | b).
Proof.
  intros H. split; intros Hd.
  - replace b with (a - (a - b)) by lia. by apply Z.divide_sub_r.
  - replace a with (b + (a - b)) by lia. by apply Z.divide_add_r.
Qed.

Lemma divisible_by_spec t d p : term_wf t -> in_i64 d -> divisible_by t d = Some p ->
  pred_wf p /\ forall rho, holds rho p <-> (d | denote rho t).
Proof.
  intros (Hs & Hf & Hi) Hd H. unfold divisible_by in H.
  destruct (Z.ltb_spec d 1); [done|]. injection H as <-.
  rewrite reduce_mod_spec by done. cbn [app].
  set (r := mkTerm (omap (residue d) (coeffs t)) (constant_part t mod d)).
  pose proof (Z.mod_pos_bound (constant_part t) d ltac:(lia)).
  assert (term_wf r) as Hr.
  { apply mkTerm_wf; [by apply omap_residue_wf|]. unfold in_i64, I64_MIN, I64_MAX in *; lia. }
  destruct (sign_canonical_spec r Hr) as [Hw Hsgn].
  split; [by split|]. intros rho. cbn [holds].
  assert ((d | denote rho (sign_canonical r)) <-> (d | denote rho r)) as ->.
  { destruct Hsgn as [Hsgn|Hsgn]; rewrite Hsgn; [done|]. apply Z.divide_opp_r. }
  symmetry. apply divide_iff_sub. unfold denote, r; cbn.
  destruct (lin_residue d rho (coeffs t) ltac:(lia)) as [q Hq].
  pose proof (Z.div_mod (constant_part t) d ltac:(lia)).
  exists (q + constant_part t / d). nia.
Qed.

Lemma pred_eq_spec a b p : term_wf a -> term_wf b -> pred_eq a b = Some p ->
  pred_wf p /\ forall rho, holds rho p <-> denote rho a = denote rho b.
Proof.
  intros Ha Hb H. unfold pred_eq in H. apply bind_Some in H as (d & Hd & [= <-]).
  apply term_sub_spec in Hd as [Hw Hden]; [|done..].
  destruct (sign_canonical_spec d Hw) as [Hcw Hs]. split; [by split|].
  intros rho. specialize (Hden rho). cbn. destruct Hs as [Hs|Hs]; rewrite Hs; lia.
Qed.

Lemma nonzero_spec t : term_wf t ->
  pred_wf (nonzero t) /\ forall rho, holds rho (nonzero t) <-> denote rho t <> 0.
Proof.
  intros Hw. destruct (sign_canonical_spec t Hw) as [Hcw Hs]. split; [by split|].
  intros rho. cbn. destruct Hs as [Hs|Hs]; rewrite Hs; lia.
Qed.

Lemma pred_lt_spec a b p : term_wf a -> term_wf b -> pred_lt a b = Some p ->
  pred_wf p /\ forall rho, holds rho p <-> denote rho a < denote rho b.
Proof.
  intros Ha Hb H. unfold pred_lt in H. apply bind_Some in H as (d & Hd & [= <-]).
  apply term_sub_spec in Hd as [Hw Hden]; [|done..]. split; [by split|].
  intros rho. specialize (Hden rho). cbn. lia.
Qed.

Lemma pred_le_spec a b p : term_wf a -> term_wf b -> pred_le a b = Some p ->
  pred_wf p /\ forall rho, holds rho p <-> denote rho a <= denote rho b.
Proof.
  intros Ha Hb H. unfold pred_le in H. apply bind_Some in H as (b1 & H1 & H).
  apply bind_Some in H as (d & Hd & [= <-]).
  apply term_add_spec in H1 as [Hw1 Hd1]; [|done|by apply constant_wf].
  apply term_sub_spec in Hd as [Hw Hden]; [|done..]. split; [by split|].
  intros rho. specialize (Hden rho). specialize (Hd1 rho). rewrite denote_constant in Hd1. cbn. lia.
Qed.

(** ** Properties *)

(** the term algebra is exact.  Every successful [add], [sub], [neg] or
    [mul_const] of normal-form terms returns a normal-form term that denotes
    the sum, difference, opposite or scaled value under every valuation. *)
Lemma term_algebra_exact (t u : Term) (k : Z) (Ht : term_wf t) (Hu : term_wf u) :
  (forall r, term_add t u = Some r ->
     term_wf r /\ forall rho, denote rho r = denote rho t + denote rho u) /\
  (forall r, term_sub t u = Some r ->
     term_wf r /\ forall rho, denote rho r = denote rho t - denote rho u) /\
  (forall r, term_neg t = Some r -> term_wf r /\ forall rho, denote rho r = - denote rho t) /\
  (forall r, mul_const t k = Some r -> term_wf r /\ forall rho, denote rho r = denote rho t * k).
Proof.
  split_and!; intros r Hr;
    [by apply term_add_spec | by apply term_sub_spec | by apply term_neg_spec | by apply mul_const_spec].
Qed.

Lemma term_algebra_exact_witness :
  term_add (affine (Dim 0 0) 2 3) (affine (Dim 0 0) (-2) 4) = Some (constant 7) /\
  forall rho, denote rho (constant 7) = denote rho (affine (Dim 0 0) 2 3) + denote rho (affine (Dim 0 0) (-2) 4).
Proof.
  split; [reflexivity|].
  apply (term_algebra_exact (affine (Dim 0 0) 2 3) (affine (Dim 0 0) (-2) 4) 1);
    [apply affine_spec; vm_compute; split; congruence ..| reflexivity].
Defined.

(** Structural equality of terms is semantic equality.  Two normal-form
    terms are the same value exactly when they denote the same integer under
    every valuation, which is what lets the compiler compare, hash and look
    up predicates structurally. *)
Lemma term_equality_is_semantic (t u : Term) (Ht : term_wf t) (Hu : term_wf u) :
  t = u <-> forall rho, denote rho t = denote rho u.
Proof. split; [by intros ->|]. by apply term_canonical. Qed.

Lemma term_equality_is_semantic_witness :
  mkTerm [(Dim 0 0, 3)] 5 = affine (Dim 0 0) 3 5 <->
  forall rho, denote rho (mkTerm [(Dim 0 0, 3)] 5) = denote rho (affine (Dim 0 0) 3 5).
Proof.
  apply (term_equality_is_semantic (mkTerm [(Dim 0 0, 3)] 5) (affine (Dim 0 0) 3 5));
    apply (affine_spec (Dim 0 0) 3 5); vm_compute; split; congruence.
Defined.

(** Predicate constructors state what they are named for.  The canonical
    predicates built for [a == b], [a < b], [a <= b], [t != 0] and
    [t % d == 0] hold under a valuation exactly when the relation does. *)
Lemma predicate_constructors_meaning (a b : Term) (d : Z)
    (Ha : term_wf a) (Hb : term_wf b) (Hd : in_i64 d) :
  (forall p, pred_eq a b = Some p -> forall rho, holds rho p <-> denote rho a = denote rho b) /\
  (forall p, pred_lt a b = Some p -> forall rho, holds rho p <-> denote rho a < denote rho b) /\
  (forall p, pred_le a b = Some p -> forall rho, holds rho p <-> denote rho a <= denote rho b) /\
  (forall rho, holds rho (nonzero a) <-> denote rho a <> 0) /\
  (forall p, divisible_by a d = Some p -> forall rho, holds rho p <-> (d | denote rho a)).
Proof.
  split_and!; [intros p Hp .. | | intros p Hp].
  - by apply pred_eq_spec.
  - by apply pred_lt_spec.
  - by apply pred_le_spec.
  - by apply nonzero_spec.
  - by apply divisible_by_spec.
Qed.

Lemma predicate_constructors_meaning_witness :
  holds (fun _ => 5) (Positive (mkTerm [(Dim 0 1, -1); (Dim 1 0, 1)] 1)) <->
    denote (fun _ => 5) (atom (Dim 0 1)) <= denote (fun _ => 5) (atom (Dim 1 0)).
Proof.
  apply (predicate_constructors_meaning (atom (Dim 0 1)) (atom (Dim 1 0)) 1);
    [apply atom_wf | apply atom_wf | vm_compute; split; congruence | reflexivity].
Defined.

(** An equality obligation does not depend on the order it is written in.
    When both orientations can be formed, [a == b] and [b == a] are the same
    predicate, so a declared fact discharges the goal stated either way. *)
Lemma pred_eq_symmetric (a b : Term) (p q : Predicate)
    (Ha : term_wf a) (Hb : term_wf b) (Hp : pred_eq a b = Some p) (Hq : pred_eq b a = Some q) :
  p = q.
Proof.
  unfold pred_eq in *. apply bind_Some in Hp as (d & Hd & [= <-]).
  apply bind_Some in Hq as (e & He & [= <-]).
  apply term_sub_spec in Hd as [Hdw Hdd], He as [Hew Hed]; try done.
  f_equal. apply sign_canonical_opp; try done. intros. rewrite Hdd, Hed. lia.
Qed.

Lemma pred_eq_symmetric_witness :
  Zero (mkTerm [(Dim 0 0, 1); (Dim 1 0, -1)] 0) = Zero (mkTerm [(Dim 0 0, 1); (Dim 1 0, -1)] 0).
Proof.
  apply (pred_eq_symmetric (atom (Dim 0 0)) (atom (Dim 1 0)));
    [apply atom_wf | apply atom_wf | reflexivity | reflexivity].
Defined.

(** evaluating a predicate decides it.  If evaluation against a resolver
    returns a verdict, the verdict is the truth of the predicate under every
    valuation that agrees with the resolver: an overflow or an unresolved
    atom yields no verdict, never a wrong one. *)
Lemma pred_eval_decides (p : Predicate) (resolve : Atom -> option Z) (rho : Atom -> Z) (b : bool)
    (Hp : pred_wf p) (Ha : agrees resolve rho) (Hb : pred_eval p resolve = Some b) :
  b = true <-> holds rho p.
Proof. by eapply pred_eval_spec. Qed.

Lemma pred_eval_decides_witness :
  false = true <-> holds (fun _ => 96) (DivisibleBy (atom (Dim 0 0)) 64).
Proof.
  apply (pred_eval_decides (DivisibleBy (atom (Dim 0 0)) 64)
           (fun a => if decide (a = Dim 0 0) then Some 96 else None) (fun _ => 96) false).
  - split; [apply atom_wf | cbn; lia].
  - intros a v. case_decide; [|discriminate]. intros [= <-]. reflexivity.
  - reflexivity.
Defined.
