(* ===== verification/ValueFacts.v ===== *)
(** * Per-value dataflow facts (cutile-compiler/src/value_facts.rs)

    Every compiled scalar carries an interval, a canonical linear term and,
    for a division by a constant, a floor-division residue.  This file models
    the value record those facts live on, the transfer function that pushes
    them through a binary operation, and the reduction from a term to an
    interval; it proves that an interval survives only where the machine
    operation cannot wrap, that terms stay congruent to the machine value
    modulo the word size, and that [term_range] is the exact range. *)

From S2P Require Import Prelude BTree Bounds Predicate.

(** ** Compiled values (compiler/_value.rs)

    [TileRustValue] restricted to the facts the analyses read.  The fields
    left out ([kind], [type_meta], literals and enum payloads) select which
    code path runs and carry no arithmetic; of [ty] the scalar Rust type name
    is kept. A [Value] is its [u32]
    arena index. *)

Record FloorDiv := mkFloorDiv { numerator : Term; divisor : Z }.

Record PartitionAxisOrigin := mkPartitionAxisOrigin {
  pao_tensor : string;
  pao_axis : Z;
  pao_tile_dim : Z;
}.

Inductive DimOrigin :=
| PartitionAxis (view axis tile_dim : Z)
| OfValue (v : Z).

#[export] Instance FloorDiv_eq_dec : EqDecision FloorDiv.
Proof. solve_decision. Defined.
#[export] Instance PartitionAxisOrigin_eq_dec : EqDecision PartitionAxisOrigin.
Proof. solve_decision. Defined.
#[export] Instance DimOrigin_eq_dec : EqDecision DimOrigin.
Proof. solve_decision. Defined.

Record TileRustValue := mkTileRustValue {
  value : option Z;
  rust_ty : string;
  bounds : option Bounds;
  partition_origins : option (list Z);
  tensor_origin : option string;
  partition_axis_origin : option PartitionAxisOrigin;
  dim_origin : option DimOrigin;
  index_origin : option DimOrigin;
  bounded_axes : option (list DimOrigin);
  floor_div : option FloorDiv;
  term : option Term;
}.

(** A primitive value fresh from the builder: [TileRustValue::new_primitive]. *)
Definition new_primitive (v : Z) (ty : string) (b : option Bounds) : TileRustValue :=
  mkTileRustValue (Some v) ty b None None None None None None None None.

Definition with_term (t : Term) (v : TileRustValue) : TileRustValue :=
  mkTileRustValue (value v) (rust_ty v) (bounds v) (partition_origins v) (tensor_origin v)
    (partition_axis_origin v) (dim_origin v) (index_origin v) (bounded_axes v)
    (floor_div v) (Some t).

(** ** Transfer *)

Record ScalarFacts := mkScalarFacts {
  sf_bounds : option Bounds;
  sf_term : option Term;
  sf_floor_div : option FloorDiv;
}.

Definition int_value_domain (elem_ty : string) : option Bounds :=
  if bool_decide (elem_ty = "bool"%string) || bool_decide (elem_ty = "i1"%string)
  then Some (bounds_new 0 1)
  else if bool_decide (elem_ty = "i32"%string) then Some (bounds_new I32_MIN I32_MAX)
  else if bool_decide (elem_ty = "u32"%string) then Some (bounds_new 0 U32_MAX)
  else None.

(** The value of an operand known exactly: [bounds.filter(is_exact).map(start)]. *)
Definition exact_start (v : TileRustValue) : option Z :=
  b ← bounds v; if is_exact b then Some (start b) else None.

Definition propagate_floor_div (op : TileBinaryOp) (lhs rhs : TileRustValue) : option FloorDiv :=
  match op with
  | TileBinaryOp.Div =>
      divisor ← exact_start rhs;
      if divisor <=? 0 then None
      else numerator ← term lhs; Some (mkFloorDiv numerator divisor)
  | _ => None
  end.

Definition propagate_bounds (op : TileBinaryOp) (lhs rhs : TileRustValue)
    : outcome JITError (option Bounds) :=
  match bounds lhs, bounds rhs with
  | Some a, Some b => bounds_from_bop op a b
  | _, _ => Ok None
  end.

(** The closure [term_of] of [propagate_term]. *)
Definition term_of (v : TileRustValue) : option Term :=
  match term v with
  | Some t => Some t
  | None => constant <$> exact_start v
  end.

Definition propagate_term (op : TileBinaryOp) (lhs rhs : TileRustValue) : option Term :=
  lt ← term_of lhs;
  rt ← term_of rhs;
  match op with
  | TileBinaryOp.Add => term_add lt rt
  | TileBinaryOp.Sub => term_sub lt rt
  | TileBinaryOp.Mul =>
      match as_constant rt with
      | Some c => mul_const lt c
      | None =>
          match as_constant lt with
          | Some c => mul_const rt c
          | None => None
          end
      end
  | _ => None
  end.

(** The filter of [transfer]: keep an interval only inside the domain. *)
Definition fits_domain (domain : option Bounds) (b : Bounds) : bool :=
  match domain with
  | Some domain => (start domain <=? start b) && (end_ b <=? end_ domain)
  | None => false
  end.

Definition transfer (op : TileBinaryOp) (lhs rhs : TileRustValue)
    (result_domain : option Bounds) : outcome JITError ScalarFacts :=
  bounds ← propagate_bounds op lhs rhs;
  let bounds := b ← bounds; if fits_domain result_domain b then Some b else None in
  Ok (mkScalarFacts bounds (propagate_term op lhs rhs) (propagate_floor_div op lhs rhs)).

(** The loop of [term_range]. *)
Fixpoint range_loop (atom_range : Atom -> option Bounds) (lo hi : Z) (l : list (Atom * Z))
    : option Bounds :=
  match l with
  | [] => Some (mkBounds lo hi)
  | (atom, coeff) :: l' =>
      r ← atom_range atom;
      a ← checked_i64 (coeff * start r);
      b ← checked_i64 (coeff * end_ r);
      let '(add_lo, add_hi) := if a <=? b then (a, b) else (b, a) in
      lo ← checked_i64 (lo + add_lo);
      hi ← checked_i64 (hi + add_hi);
      range_loop atom_range lo hi l'
  end.

Definition term_range (t : Term) (atom_range : Atom -> option Bounds) : option Bounds :=
  range_loop atom_range (constant_part t) (constant_part t) (coeffs t).

(** ** Specification *)

(** What the machine stores for a mathematical result at an element type:
    two's complement truncation. *)
Definition machine_value (elem_ty : string) (v : Z) : Z :=
  if bool_decide (elem_ty = "i32"%string) then as_i32 v
  else if bool_decide (elem_ty = "u32"%string) then as_u32 v
  else if bool_decide (elem_ty = "bool"%string) || bool_decide (elem_ty = "i1"%string) then v mod 2
  else v.

(** The facts on [v] are true of the machine value [x] under the valuation
    [rho], with terms read modulo [m] (modulo zero: exactly). *)
Definition facts_hold (m : Z) (rho : Atom -> Z) (v : TileRustValue) (x : Z) : Prop :=
  (forall b, bounds v = Some b -> bounds_wf b /\ contains b x) /\
  (forall t, term v = Some t -> term_wf t /\ (m | x - denote rho t)).

Lemma machine_value_in_domain ty d v :
  int_value_domain ty = Some d -> start d <= v <= end_ d -> machine_value ty v = v.
Proof.
  unfold int_value_domain, machine_value. intros Hd Hv.
  destruct (decide (ty = "i32"%string)) as [->|Hi]; [|rewrite (bool_decide_eq_false_2 _ Hi) in *].
  { injection Hd as <-. by apply as_i32_id. }
  destruct (decide (ty = "u32"%string)) as [->|Hu]; [|rewrite (bool_decide_eq_false_2 _ Hu) in *].
  { injection Hd as <-. by apply as_u32_id. }
  case_match; simplify_eq/=. apply Z.mod_small. lia.
Qed.

Lemma int_value_domain_wide ty d : int_value_domain ty = Some d ->
  I64_MIN < start d /\ start d <= end_ d /\ end_ d < I64_MAX.
Proof. unfold int_value_domain. intros. repeat case_match; simplify_eq; vm_compute; split_and!; congruence. Qed.

(** A saturated value strictly inside [i64] is the value itself. *)
Lemma saturate_inside lo hi z : I64_MIN < lo -> hi < I64_MAX ->
  lo <= saturate_i64 z <= hi -> saturate_i64 z = z.
Proof. unfold saturate_i64. lia. Qed.

Lemma transfer_bounds op lhs rhs dom f r : transfer op lhs rhs dom = Ok f -> sf_bounds f = Some r ->
  exists a b d, bounds lhs = Some a /\ bounds rhs = Some b /\ dom = Some d /\
    bounds_from_bop op a b = Ok (Some r) /\ start d <= start r /\ end_ r <= end_ d.
Proof.
  unfold transfer, propagate_bounds, fits_domain. intros H Hr.
  apply bind_Ok in H as (o & Ho & [= <-]). cbn in Hr.
  apply bind_Some in Hr as (r' & -> & Hf).
  destruct (bounds lhs), (bounds rhs), dom as [d|]; simplify_eq/=.
  destruct (_ && _) eqn:E; simplify_eq. apply andb_true_iff in E as [E1 E2].
  eexists _, _, _. split_and!; [done..|lia|lia].
Qed.

Lemma term_of_hold m rho v x t : facts_hold m rho v x -> term_of v = Some t ->
  term_wf t /\ (m | x - denote rho t).
Proof.
  intros [Hb Ht] H. unfold term_of, exact_start in H. destruct (term v) as [u|].
  { injection H as <-. by apply Ht. }
  destruct (bounds v) as [b|]; [|done]. cbn in H.
  unfold is_exact in H. destruct (Z.eqb_spec (end_ b) (start b)) as [E|]; [|done].
  injection H as <-. destruct (Hb b eq_refl) as [(_ & Hi & _) Hc]. unfold contains in Hc.
  split; [by apply constant_wf|]. rewrite denote_constant.
  replace (x - start b) with 0 by lia. apply Z.divide_0_r.
Qed.

Lemma as_constant_denote rho t c : as_constant t = Some c -> denote rho t = c.
Proof. unfold as_constant, denote. destruct (coeffs t); [|done]. intros [= <-]. done. Qed.

Lemma divide_sub_add m a b c d : (m | a - b) -> (m | c - d) -> (m | (a + c) - (b + d)).
Proof. intros. replace (a + c - (b + d)) with ((a - b) + (c - d)) by lia. by apply Z.divide_add_r. Qed.

Lemma divide_sub_sub m a b c d : (m | a - b) -> (m | c - d) -> (m | (a - c) - (b - d)).
Proof. intros. replace (a - c - (b - d)) with ((a - b) - (c - d)) by lia. by apply Z.divide_sub_r. Qed.

Lemma divide_sub_mul m a b c d : (m | a - b) -> (m | c - d) -> (m | a * c - b * d).
Proof.
  intros. replace (a * c - b * d) with ((a - b) * c + b * (c - d)) by lia.
  apply Z.divide_add_r; [by apply Z.divide_mul_l | by apply Z.divide_mul_r].
Qed.

Lemma propagate_term_spec m rho op lhs rhs x y v t :
  facts_hold m rho lhs x -> facts_hold m rho rhs y ->
  propagate_term op lhs rhs = Some t -> eval_bop op x y = Some v ->
  term_wf t /\ (m | v - denote rho t).
Proof.
  intros Hl Hr H Hv. unfold propagate_term in H.
  apply bind_Some in H as (lt & Hlt & H). apply bind_Some in H as (rt & Hrt & H).
  apply (term_of_hold m rho _ x) in Hlt as [Hlw Hld]; [|done].
  apply (term_of_hold m rho _ y) in Hrt as [Hrw Hrd]; [|done].
  destruct op; try discriminate; cbn in Hv; simplify_eq.
  - apply term_add_spec in H as [Hw Hd]; [|done..]. split; [done|]. rewrite Hd. by apply divide_sub_add.
  - apply term_sub_spec in H as [Hw Hd]; [|done..]. split; [done|]. rewrite Hd. by apply divide_sub_sub.
  - destruct (as_constant rt) as [c|] eqn:Ec; [|destruct (as_constant lt) as [c|] eqn:Ec'; [|done]];
      apply mul_const_spec in H as [Hw Hd]; try done; (split; [done|]); rewrite Hd.
    + rewrite <- (as_constant_denote rho _ _ Ec). by apply divide_sub_mul.
    + rewrite <- (as_constant_denote rho _ _ Ec'), (Z.mul_comm (denote rho rt)). by apply divide_sub_mul.
Qed.

Lemma propagate_floor_div_spec op lhs rhs fd :
  propagate_floor_div op lhs rhs = Some fd ->
  op = TileBinaryOp.Div /\ term lhs = Some (numerator fd) /\ 0 < divisor fd /\
  bounds rhs = Some (exact (divisor fd)).
Proof.
  unfold propagate_floor_div, exact_start. intros H. destruct op; try done.
  apply bind_Some in H as (d & Hd & H). apply bind_Some in Hd as (b & Hb & Hd).
  unfold is_exact in Hd. destruct (Z.eqb_spec (end_ b) (start b)) as [E|]; [|done].
  injection Hd as <-. destruct (Z.leb_spec (start b) 0); [done|].
  apply bind_Some in H as (t & Ht & [= <-]). cbn. split_and!; try done.
  rewrite Hb. f_equal. destruct b; unfold exact; cbn in *; congruence.
Qed.

(** ** The range of a term *)

Definition in_ranges (atom_range : Atom -> option Bounds) (rho : Atom -> Z) (l : list (Atom * Z)) : Prop :=
  Forall (fun e => forall r, atom_range e.1 = Some r -> contains r (rho e.1)) l.

(** The endpoint an atom takes when the term reaches its minimum. *)
Definition argmin (atom_range : Atom -> option Bounds) (t : Term) (a : Atom) : Z :=
  match atom_range a with
  | Some r => if 0 <=? coeff_of (coeffs t) a then start r else end_ r
  | None => 0
  end.

Definition argmax (atom_range : Atom -> option Bounds) (t : Term) (a : Atom) : Z :=
  match atom_range a with
  | Some r => if 0 <=? coeff_of (coeffs t) a then end_ r else start r
  | None => 0
  end.

Lemma range_step c s e a b add_lo add_hi : a = c * s -> b = c * e ->
  (if a <=? b then (a, b) else (b, a)) = (add_lo, add_hi) ->
  (forall v, s <= v <= e -> add_lo <= c * v <= add_hi) /\
  (s <= e -> add_lo = c * (if 0 <=? c then s else e) /\ add_hi = c * (if 0 <=? c then e else s)).
Proof.
  intros -> -> H. split.
  - intros v Hv. destruct (Z.le_gt_cases 0 c).
    + pose proof (Z.mul_le_mono_nonneg_l s v c). pose proof (Z.mul_le_mono_nonneg_l v e c).
      destruct (Z.leb_spec (c * s) (c * e)); simplify_eq; lia.
    + pose proof (Z.mul_le_mono_nonpos_l s v c). pose proof (Z.mul_le_mono_nonpos_l v e c).
      destruct (Z.leb_spec (c * s) (c * e)); simplify_eq; lia.
  - intros Hse. pose proof (Z.mul_le_mono_nonneg_l s e c). pose proof (Z.mul_le_mono_nonpos_l s e c).
    destruct (Z.leb_spec (c * s) (c * e)), (Z.leb_spec 0 c); simplify_eq; lia.
Qed.

Lemma range_loop_spec atom_range lo hi l r : range_loop atom_range lo hi l = Some r ->
  (forall rho, in_ranges atom_range rho l -> start r <= lo + lin rho l /\ hi + lin rho l <= end_ r) /\
  (forall rho rho',
     Forall (fun e => forall b, atom_range e.1 = Some b -> start b <= end_ b) l ->
     Forall (fun e => forall b, atom_range e.1 = Some b ->
       rho e.1 = (if 0 <=? e.2 then start b else end_ b) /\
       rho' e.1 = (if 0 <=? e.2 then end_ b else start b)) l ->
     start r = lo + lin rho l /\ end_ r = hi + lin rho' l).
Proof.
  revert lo hi. induction l as [|[a c] l IH]; intros lo hi H.
  - injection H as <-. cbn. split; intros; lia.
  - cbn [range_loop] in H. apply bind_Some in H as (b & Hb & H).
    apply bind_Some in H as (p & Hp & H). apply bind_Some in H as (q & Hq & H).
    destruct (if p <=? q then _ else _) as [alo ahi] eqn:Hpq.
    apply bind_Some in H as (lo' & Hlo & H). apply bind_Some in H as (hi' & Hhi & H).
    apply checked_i64_Some in Hp as [Hp _], Hq as [Hq _], Hlo as [-> _], Hhi as [-> _].
    destruct (range_step _ _ _ _ _ _ _ Hp Hq Hpq) as [Hin Hend].
    apply IH in H as [H1 H2]. cbn [lin]. split.
    + intros rho Hr. apply Forall_cons in Hr as [Hr1 Hr2]. specialize (H1 rho Hr2).
      specialize (Hin (rho a) (Hr1 b Hb)). lia.
    + intros rho rho' Hw He. apply Forall_cons in Hw as [Hw1 Hw2], He as [He1 He2].
      destruct (H2 rho rho' Hw2 He2) as [-> ->].
      destruct (He1 b Hb) as [E1 E2]. cbn in E1, E2. rewrite E1, E2. destruct (Hend (Hw1 b Hb)) as [-> ->]. cbn. lia.
Qed.

Lemma range_loop_wf atom_range lo hi l r : in_i64 lo -> in_i64 hi ->
  range_loop atom_range lo hi l = Some r -> in_i64 (start r) /\ in_i64 (end_ r).
Proof.
  revert lo hi. induction l as [|[a c] l IH]; intros lo hi Hl Hh H; cbn [range_loop] in H.
  - by injection H as <-.
  - apply bind_Some in H as (b & Hb & H).
    apply bind_Some in H as (p & Hp & H). apply bind_Some in H as (q & Hq & H).
    destruct (if p <=? q then _ else _) as [alo ahi] eqn:Hpq.
    apply bind_Some in H as (lo' & Hlo & H). apply bind_Some in H as (hi' & Hhi & H).
    apply checked_i64_Some in Hlo as [-> ?], Hhi as [-> ?]. eauto.
Qed.

Lemma Forall_coeff_of l (P : Atom -> Z -> Prop) : csorted l ->
  (forall a, P a (coeff_of l a)) -> Forall (fun e => P e.1 e.2) l.
Proof.
  intros Hs H. apply Forall_forall. intros [a c] Hin. cbn.
  apply (btree_get_elem atom_ltb) in Hin; [|done].
  specialize (H a). unfold coeff_of in H. by rewrite Hin in H.
Qed.

Lemma transfer_sound op lhs rhs ty f r x y v :
  (forall b, bounds lhs = Some b -> bounds_wf b /\ contains b x) ->
  (forall b, bounds rhs = Some b -> bounds_wf b /\ contains b y) ->
  transfer op lhs rhs (int_value_domain ty) = Ok f -> sf_bounds f = Some r -> eval_bop op x y = Some v ->
  bounds_wf r /\ contains r v /\ machine_value ty v = v.
Proof.
  intros Hl Hr Hf Hb Hv.
  destruct (transfer_bounds _ _ _ _ _ _ Hf Hb) as (a & b & d & Ea & Eb & Ed & Hbop & H1 & H2).
  destruct (Hl a Ea) as [Ha Hax], (Hr b Eb) as [Hbw Hby].
  pose proof (bounds_from_bop_spec op a b Ha Hbw) as Hs.
  destruct (interval_defined op b); [|congruence].
  destruct Hs as (r' & Hr' & Hrw & Hs). assert (r' = r) as -> by congruence.
  specialize (Hs x y v Hax Hby Hv). unfold contains in Hs.
  destruct (int_value_domain_wide ty d Ed) as (W1 & W2 & W3).
  assert (saturate_i64 v = v) as Hsat by (apply (saturate_inside (start r) (end_ r)); lia).
  rewrite Hsat in Hs. split_and!; [done|done|]. apply (machine_value_in_domain ty d); [done|lia].
Qed.

(** ** Properties *)

(** C40: an interval kept by the transfer function describes the machine
    value.  If operands hold values inside their intervals and [transfer]
    keeps an interval for the result at an element type with a known domain,
    then the machine's truncated result equals the mathematical one and lies
    in the interval: the operation did not wrap. *)
Theorem transfer_interval_no_wrap (op : TileBinaryOp) (lhs rhs : TileRustValue) (ty : string)
    (m : Z) (rho : Atom -> Z) (f : ScalarFacts) (r : Bounds) (x y v : Z)
    (Hl : facts_hold m rho lhs x) (Hr : facts_hold m rho rhs y)
    (Hf : transfer op lhs rhs (int_value_domain ty) = Ok f)
    (Hb : sf_bounds f = Some r) (Hv : eval_bop op x y = Some v) :
  bounds_wf r /\ contains r v /\ machine_value ty v = v.
Proof. exact (transfer_sound _ _ _ _ _ _ _ _ _ (proj1 Hl) (proj1 Hr) Hf Hb Hv). Qed.

Lemma transfer_interval_no_wrap_witness :
  bounds_wf (mkBounds 1073741824 2147483640) /\
  contains (mkBounds 1073741824 2147483640) 2147483640 /\
  machine_value "i32" 2147483640 = 2147483640.
Proof.
  apply (transfer_interval_no_wrap TileBinaryOp.Mul
           (new_primitive 0 "i32" (Some (mkBounds 134217728 268435455)))
           (new_primitive 1 "i32" (Some (exact 8))) "i32" 0 (fun _ => 0)
           (mkScalarFacts (Some (mkBounds 1073741824 2147483640)) None None)
           _ 268435455 8);
    try reflexivity;
    (split; cbn; [intros b [= <-]; vm_compute; repeat split; congruence | discriminate]).
Defined.

(** terms survive wrap-around.  The symbolic term propagated for [+],
    [-] and [*] is in normal form and congruent to the operation's value
    modulo [m] whenever the operands' terms are congruent to theirs: with
    [m = 2^w] this is the ring semantics of [w]-bit wrapping arithmetic, with
    [m = 0] exact equality. *)
Lemma propagate_term_congruent (m : Z) (rho : Atom -> Z) (op : TileBinaryOp)
    (lhs rhs : TileRustValue) (x y v : Z) (t : Term)
    (Hl : facts_hold m rho lhs x) (Hr : facts_hold m rho rhs y)
    (Ht : propagate_term op lhs rhs = Some t) (Hv : eval_bop op x y = Some v) :
  term_wf t /\ (m | v - denote rho t).
Proof. exact (propagate_term_spec m rho op lhs rhs x y v t Hl Hr Ht Hv). Qed.

Lemma propagate_term_congruent_witness :
  term_wf (affine (Iv 7) 4 (-4)) /\ (2 ^ 32 | (5 - 1) * 4 - denote (fun _ => 5) (affine (Iv 7) 4 (-4))).
Proof.
  apply (propagate_term_congruent (2 ^ 32) (fun _ => 5) TileBinaryOp.Mul
           (with_term (affine (Iv 7) 1 (-1)) (new_primitive 3 "i32" None))
           (new_primitive 4 "i32" (Some (exact 4))) 4 4).
  - split; [intros b [=]|]. intros t [= <-]. split; [apply affine_spec; vm_compute; split; congruence|].
    exists 0. reflexivity.
  - split; [|intros t [=]]. intros b [= <-]. vm_compute. repeat split; congruence.
  - reflexivity.
  - reflexivity.
Defined.

(** the floor-division residue means floor division.  When the residue
    is recorded, the divisor is a positive constant, and on a non-negative
    dividend the truncating device division is the floor of the recorded
    numerator; it equals the tile count [ceil(n / d)] exactly when the
    [divisible_by] predicate over the numerator holds. *)
Lemma floor_div_residue_meaning (rho : Atom -> Z) (op : TileBinaryOp) (lhs rhs : TileRustValue)
    (fd : FloorDiv) (p : Predicate) (x y v : Z)
    (Hl : facts_hold 0 rho lhs x) (Hr : facts_hold 0 rho rhs y) (Hx : 0 <= x)
    (Hfd : propagate_floor_div op lhs rhs = Some fd) (Hv : eval_bop op x y = Some v)
    (Hp : divisible_by (numerator fd) (divisor fd) = Some p) :
  0 < divisor fd /\ v = denote rho (numerator fd) / divisor fd /\
  (v = ceil_div (denote rho (numerator fd)) (divisor fd) <-> holds rho p).
Proof.
  apply propagate_floor_div_spec in Hfd as (-> & Ht & Hd & Hb).
  destruct (proj2 Hl _ Ht) as [Hw Hx0]. apply Z.divide_0_l in Hx0.
  destruct (proj1 Hr _ Hb) as [(_ & Hi & _) Hy]. unfold contains in Hy; cbn in Hy, Hi.
  assert (y = divisor fd) as -> by lia. cbn in Hv.
  destruct (Z.eqb_spec (divisor fd) 0); [lia|]. injection Hv as <-.
  rewrite (proj2 (divisible_by_spec _ _ _ Hw Hi Hp) rho).
  replace (denote rho (numerator fd)) with x by lia.
  rewrite Z.quot_div_nonneg by lia. split_and!; [done|done|].
  unfold ceil_div. rewrite <- Z.mod_divide by lia.
  destruct (Z.eq_dec (x mod divisor fd) 0) as [E|E].
  - rewrite Z.div_opp_l_z by done. split; [done|lia].
  - rewrite Z.div_opp_l_nz by done. split; lia.
Qed.

Lemma floor_div_residue_meaning_witness :
  0 < 64 /\ 1 = denote (fun _ => 100) (atom (Dim 0 1)) / 64 /\
  (1 = ceil_div (denote (fun _ => 100) (atom (Dim 0 1))) 64 <->
   holds (fun _ => 100) (DivisibleBy (atom (Dim 0 1)) 64)).
Proof.
  apply (floor_div_residue_meaning (fun _ => 100) TileBinaryOp.Div
           (with_term (atom (Dim 0 1)) (new_primitive 0 "i32" None))
           (new_primitive 1 "i32" (Some (exact 64))) (mkFloorDiv (atom (Dim 0 1)) 64)
           (DivisibleBy (atom (Dim 0 1)) 64) 100 64);
    try reflexivity; try lia; (split; cbn; [intros b Hb | intros t Ht]); simplify_eq;
    try (split; [apply atom_wf | exists 0; reflexivity]); vm_compute; repeat split; congruence.
Defined.

(** [term_range] is the exact range of a term.  Under every valuation
    that keeps each atom in its range the term stays between the endpoints,
    and when the atom ranges are non-empty both endpoints are attained. *)
Lemma term_range_exact (t : Term) (atom_range : Atom -> option Bounds) (r : Bounds)
    (Ht : term_wf t) (Hr : term_range t atom_range = Some r)
    (Hne : forall a b, atom_range a = Some b -> start b <= end_ b) :
  bounds_wf r /\
  (forall rho, in_ranges atom_range rho (coeffs t) -> contains r (denote rho t)) /\
  denote (argmin atom_range t) t = start r /\ denote (argmax atom_range t) t = end_ r.
Proof.
  destruct Ht as (Hs & Hf & Hi). unfold term_range in Hr.
  pose proof (range_loop_wf _ _ _ _ _ Hi Hi Hr) as [W1 W2].
  destruct (range_loop_spec _ _ _ _ _ Hr) as [Hin Hends].
  destruct (Hends (argmin atom_range t) (argmax atom_range t)) as [E1 E2].
  { apply Forall_forall. intros e _. apply Hne. }
  { apply (Forall_coeff_of _ (fun a c => forall b, atom_range a = Some b ->
      argmin atom_range t a = (if 0 <=? c then start b else end_ b) /\
      argmax atom_range t a = (if 0 <=? c then end_ b else start b))); [done|].
    intros a b Hb. unfold argmin, argmax. by rewrite Hb. }
  assert (Hc : forall rho, in_ranges atom_range rho (coeffs t) -> contains r (denote rho t)).
  { intros rho [H1 H2]%Hin. unfold contains, denote. lia. }
  split; [|split; [done|unfold denote; lia]].
  assert (in_ranges atom_range (argmin atom_range t) (coeffs t)) as Ha%Hc.
  { apply Forall_forall. intros e _ b Hb. unfold argmin. rewrite Hb.
    pose proof (Hne _ _ Hb). unfold contains. case_match; lia. }
  unfold contains in Ha. split_and!; [lia|done|done].
Qed.

Lemma term_range_exact_witness :
  contains (mkBounds 6 10) (denote (fun _ => 3) (affine (Dim 0 0) (-1) 10)).
Proof.
  apply (term_range_exact (affine (Dim 0 0) (-1) 10) (fun _ => Some (mkBounds 0 4)) (mkBounds 6 10)).
  - apply affine_spec; vm_compute; split; congruence.
  - reflexivity.
  - intros a b [= <-]. cbn. lia.
  - constructor; [intros r [= <-]; vm_compute; split; discriminate | constructor].
Defined.
