(* ===== verification/Obligation.v ===== *)
(** * Staged obligations (cutile-compiler/src/passes/obligation.rs,
      passes/proof_analysis.rs, compiler/_function.rs)

    A safety check the compiler cannot fold is stated as a predicate and
    resolved at the earliest stage that can decide it: at JIT time from
    declared [preconditions], at launch by the host, or on the device.  This
    file models the parsing of [preconditions], the assumption set built from
    them, the solver, and the obligation-lowering methods of the function
    compiler, and proves that an obligation reported as placed is true on
    every launch the host accepts. *)

From S2P Require Import Prelude BTree Bounds Predicate.

(** ** Declared preconditions (passes/proof_analysis.rs) *)

(** The part of [syn]'s expression syntax the analysis inspects. A literal
    integer is its (unsigned) digits; [EOther] is any other expression. *)
Module Syn.
Inductive Lit := LitInt (digits : Z) | LitOther.
Inductive BinOp := BEq | BRem | BOther.
Inductive UnOp := UNeg | UOther.
Inductive Expr :=
| ETuple (elems : list Expr)
| EParen (e : Expr)
| EBinary (op : BinOp) (left right : Expr)
| ECall (func : Expr) (args : list Expr)
| EPath (qself : bool) (segments : list string)
| ELit (lit : Lit)
| EUnary (op : UnOp) (e : Expr)
| EAssign (left right : Expr)
| EOther.
End Syn.
Import Syn.

Inductive MetadataExpr := MDim (tensor : string) (axis : Z).

Inductive MetadataFact :=
| DimEq (lhs rhs : MetadataExpr)
| DimDivisible (tensor : string) (axis divisor : Z).

Definition unknown_error {A} (msg : string) : outcome JITError A :=
  jit_error_result SourceLocation_unknown msg.

(** [LitInt::base10_parse]: succeeds exactly when the digits fit. *)
Definition base10_parse (lo hi digits : Z) : option Z :=
  if (lo <=? digits) && (digits <=? hi) then Some digits else None.

Definition call_name (func : Expr) : option string :=
  match func with EPath _ segments => last segments | _ => None end.

Definition is_zero_literal (e : Expr) : bool :=
  match e with
  | ELit (LitInt d) =>
      match base10_parse I64_MIN I64_MAX d with Some v => v =? 0 | None => false end
  | _ => false
  end.

Definition parse_divisor_literal (e : Expr) : outcome JITError Z :=
  match e with
  | ELit (LitInt d) =>
      match base10_parse I64_MIN I64_MAX d with
      | None => unknown_error ("invalid `%` precondition divisor: "
                  +:+ "number too large to fit in target type")
      | Some divisor =>
          if divisor <? 1
          then unknown_error ("a `%` precondition divisor must be >= 1, got " +:+ pretty divisor)
          else Ok divisor
      end
  | ELit LitOther =>
      unknown_error "a `%` precondition divisor must be a positive integer literal"
  | _ => unknown_error ("a `%` precondition divisor must be a positive integer literal (a const generic "
           +:+ "cannot be verified by the launcher, which runs before monomorphization)")
  end.

(** [types::parse_signed_literal_as_i32]: panics on anything but an optionally
    negated [i32] literal. *)
Definition parse_signed_literal_as_i32 (e : Expr) : outcome JITError Z :=
  let unwrap d := match base10_parse I32_MIN I32_MAX d with Some v => Ok v | None => Panic end in
  match e with
  | ELit (LitInt d) => unwrap d
  | EUnary UNeg (ELit (LitInt d)) => v ← unwrap d; Ok (- v)
  | _ => Panic
  end.

Definition parse_axis_arg (e : Expr) : outcome JITError Z :=
  axis ← parse_signed_literal_as_i32 e;
  if axis <? 0
  then unknown_error ("precondition axis must be non-negative, got " +:+ pretty axis)
  else Ok axis.

Definition parse_tensor_arg (e : Expr) : outcome JITError string :=
  match e with
  | EPath false [name] => Ok name
  | EPath _ _ => unknown_error "precondition tensor arguments must be simple parameter names"
  | _ => unknown_error "precondition tensor arguments must be parameter names"
  end.

Definition parse_dim_expr (args : list Expr) : outcome JITError MetadataExpr :=
  match args with
  | [t; a] => tensor ← parse_tensor_arg t; axis ← parse_axis_arg a; Ok (MDim tensor axis)
  | _ => unknown_error ("`dim` expects 2 arguments, got " +:+ pretty (Z.of_nat (length args)))
  end.

Definition parse_metadata_expr (e : Expr) : outcome JITError MetadataExpr :=
  match e with
  | ECall func args =>
      match call_name func with
      | None => unknown_error "precondition metadata expressions must use a function path"
      | Some name =>
          if bool_decide (name = "dim"%string) then parse_dim_expr args
          else unknown_error ("unsupported precondition metadata expression `" +:+ name
                 +:+ "`; expected `dim`")
      end
  | _ => unknown_error "precondition metadata expressions must be calls like `dim(tensor, axis)`"
  end.

Definition parse_metadata_equality (op : BinOp) (left right : Expr) : outcome JITError MetadataFact :=
  match op with
  | BEq =>
      match left with
      | EBinary BRem rl rr =>
          if negb (is_zero_literal right)
          then unknown_error "a `%` precondition must compare against literal `0`: `dim(t, k) % d == 0`"
          else
            d ← parse_metadata_expr rl;
            let 'MDim tensor axis := d in
            divisor ← parse_divisor_literal rr;
            Ok (DimDivisible tensor axis divisor)
      | _ =>
          lhs ← parse_metadata_expr left;
          rhs ← parse_metadata_expr right;
          Ok (DimEq lhs rhs)
      end
  | _ => unknown_error "precondition predicates must use `==`"
  end.

Definition parse_metadata_fact (e : Expr) : outcome JITError MetadataFact :=
  match e with
  | EBinary op l r => parse_metadata_equality op l r
  | _ => unknown_error "each `preconditions` entry must be a metadata equality"
  end.

Definition precondition_entries (e : Expr) : outcome JITError (list Expr) :=
  match e with
  | ETuple elems => Ok elems
  | EParen e' => Ok [e']
  | EBinary _ _ _ => Ok [e]
  | ECall func _ =>
      if bool_decide (call_name func = Some "same_partition_axis"%string)
      then unknown_error ("`same_partition_axis` preconditions have been replaced by "
             +:+ "`dim(lhs, axis) == dim(rhs, axis)`")
      else unknown_error "`preconditions` entries must be metadata equalities"
  | _ => unknown_error "`preconditions` must be an equality or tuple of equalities"
  end.

Fixpoint parse_facts (es : list Expr) : outcome JITError (list MetadataFact) :=
  match es with
  | [] => Ok []
  | e :: es => f ← parse_metadata_fact e; fs ← parse_facts es; Ok (f :: fs)
  end.

(** [ProofResults::analyze_entry_attrs], on the [preconditions] argument. *)
Definition analyze_entry_attrs (preconditions : option Expr) : outcome JITError (list MetadataFact) :=
  match preconditions with
  | None => Ok []
  | Some e => es ← precondition_entries e; parse_facts es
  end.

(** ** Assumptions and the solver (passes/obligation.rs) *)

Record ObligationT := mkObligation { ob_predicate : Predicate; ob_cause : string }.

Inductive Resolution :=
| ResolvedJit
| ResolvedLaunch (check : LaunchCheck)
| ResolvedDevice.

(** [HashSet<Predicate>] as a duplicate-free list. *)
Record Assumptions := mkAssumptions { believed : list Predicate }.

Definition set_insert (s : list Predicate) (p : Predicate) : list Predicate :=
  if bool_decide (p ∈ s) then s else s ++ [p].

(** The predicate one declared fact contributes, if it canonicalizes. *)
Definition fact_predicate (param_index : gmap string Z) (fact : MetadataFact) : option Predicate :=
  match fact with
  | DimEq (MDim lt la) (MDim rt ra) =>
      lp ← param_index !! lt;
      rp ← param_index !! rt;
      pred_eq (atom (Dim lp la)) (atom (Dim rp ra))
  | DimDivisible tensor axis divisor =>
      param ← param_index !! tensor;
      divisible_by (atom (Dim param axis)) divisor
  end.

Definition from_preconditions (facts : list MetadataFact) (param_index : gmap string Z) : Assumptions :=
  mkAssumptions
    (foldl (fun s fact =>
       match fact_predicate param_index fact with
       | Some p => set_insert s p
       | None => s
       end) [] facts).

Definition entails (a : Assumptions) (p : Predicate) : bool := bool_decide (p ∈ believed a).

Definition resolve (obligation : ObligationT) (assumptions : Assumptions) : Resolution :=
  if bool_decide (pred_eval (ob_predicate obligation) (fun _ => None) = Some true) then ResolvedJit
  else if entails assumptions (ob_predicate obligation) then ResolvedJit
  else if stage_rank (pred_stage (ob_predicate obligation)) <=? stage_rank Launch
  then ResolvedLaunch (mkLaunchCheck (ob_predicate obligation) (ob_cause obligation))
  else ResolvedDevice.

(** ** The function compiler's obligation state (compiler/_function.rs) *)

(** [CheckOptimizations] (check_optimizations.rs). *)
Record CheckOptimizations := mkCheckOptimizations {
  hoist_to_preheaders : bool;
  relocate_to_launch : bool;
  discharge_proofs : bool;
}.

Definition co_release : CheckOptimizations := mkCheckOptimizations true true true.
Definition co_device_debug : CheckOptimizations := mkCheckOptimizations false true true.
Definition co_disabled : CheckOptimizations := mkCheckOptimizations false false false.

(** [from_env], on the values of the two environment variables. *)
Definition co_from_env (force_device_checks disable_check_hoisting : option string) : CheckOptimizations :=
  let flag v := bool_decide (v = Some "1"%string) in
  if flag force_device_checks then co_disabled
  else mkCheckOptimizations (negb (flag disable_check_hoisting))
         (relocate_to_launch co_release) (discharge_proofs co_release).

Inductive ValidParamType :=
| ScalarParam (element_type : string)
| PointerParam (mutable : bool) (element_type : string)
| TensorParam (element_type : string) (shape : list Z).

(** The read-only fields of [CUDATileFunctionCompiler] the checks consult. *)
Record FnCompiler := mkFnCompiler {
  check_opts : CheckOptimizations;
  assumptions : Assumptions;
  param_index : gmap string Z;
  param_is_mutable : list bool;
  validator_params : list ValidParamType;
  deny_in_kernel_checks : bool;
}.

(** Its interior-mutable state: collected launch checks and statistics. *)
Record CompState := mkCompState {
  launch_checks : list LaunchCheck;
  discharged : Z;
}.

Definition count_discharged (st : CompState) : CompState :=
  mkCompState (launch_checks st) (as_u32 (discharged st + 1)).

Section methods.
Variable self : FnCompiler.

Definition lower_obligation (predicate : Predicate) (cause : string) (st : CompState)
    : bool * CompState :=
  match resolve (mkObligation predicate cause) (assumptions self) with
  | ResolvedJit => (true, st)
  | ResolvedLaunch check =>
      (true,
       if existsb (fun c => bool_decide (lc_predicate c = lc_predicate check)) (launch_checks st)
       then st
       else mkCompState (launch_checks st ++ [check]) (discharged st))
  | ResolvedDevice => (false, st)
  end.

Definition resolve_dim_eq (a_tensor : string) (a_axis : Z) (b_tensor : string) (b_axis : Z)
    (st : CompState) : bool * CompState :=
  match param_index self !! a_tensor, param_index self !! b_tensor with
  | Some a_param, Some b_param =>
      match pred_eq (atom (Dim a_param a_axis)) (atom (Dim b_param b_axis)) with
      | Some predicate =>
          lower_obligation predicate
            ("dim(" +:+ a_tensor +:+ ", " +:+ pretty a_axis +:+ ") == dim(" +:+ b_tensor
               +:+ ", " +:+ pretty b_axis +:+ ")") st
      | None => (false, st)
      end
  | _, _ => (false, st)
  end.

(** Step 1 of [resolve_dim_le]: is the equality settled at JIT time? *)
Definition eq_entailed (a b : Term) : bool :=
  match pred_eq a b with
  | Some eq =>
      match resolve (mkObligation eq "") (assumptions self) with
      | ResolvedJit => true
      | _ => false
      end
  | None => false
  end.

Definition resolve_dim_le (a_tensor : string) (a_axis : Z) (b_tensor : string) (b_axis tile : Z)
    (st : CompState) : bool * CompState :=
  match param_index self !! a_tensor, param_index self !! b_tensor with
  | Some a_param, Some b_param =>
      if eq_entailed (atom (Dim a_param a_axis)) (atom (Dim b_param b_axis)) then (true, st)
      else if negb (relocate_to_launch (check_opts self)) then (false, st)
      else if tile <? 1 then (false, st)
      else
        match pred_le (atom (TileCount a_param a_axis tile)) (atom (TileCount b_param b_axis tile)) with
        | Some le =>
            lower_obligation le
              ("ceil(dim(" +:+ a_tensor +:+ ", " +:+ pretty a_axis +:+ ")/" +:+ pretty tile
                 +:+ ") <= ceil(dim(" +:+ b_tensor +:+ ", " +:+ pretty b_axis +:+ ")/"
                 +:+ pretty tile +:+ ")") st
        | None => (false, st)
        end
  | _, _ => (false, st)
  end.

(** [Vec::get] with a [usize] index, [dim_map[axis] as usize] included. *)
Definition get {A} (l : list A) (i : Z) : option A :=
  if i <? 0 then None else l !! Z.to_nat i.

Definition declared_view_extent (tensor_origin : option string) (dim_map : list Z) (axis : Z)
    : option Z :=
  d ← get dim_map axis;
  if d <? 0 then None
  else
    tensor ← tensor_origin;
    idx ← param_index self !! tensor;
    p ← get (validator_params self) idx;
    match p with
    | TensorParam _ shape => e ← get shape d; if e <? 0 then None else Some e
    | _ => None
    end.

Definition extent_atom (param axis : Z) : Atom :=
  if default true (get (param_is_mutable self) param) then ViewExtent param axis else Dim param axis.

Definition root_framed_param (tensor : string) : option Z :=
  param ← param_index self !! tensor;
  match extent_atom param 0 with Dim _ _ => Some param | _ => None end.

Definition deny_residual_check (what remedy : string) (loc : SourceLocation) : outcome JITError unit :=
  if negb (deny_in_kernel_checks self) then Ok tt
  else jit_error_result loc
    ("`deny_in_kernel_checks`: " +:+ what +:+ " could not be discharged at compile time "
       +:+ "or hoisted to launch, so it would be emitted in the kernel and cost "
       +:+ "device registers. " +:+ remedy +:+ ". Or drop the flag.").
End methods.

(** [label_param_extents] on the per-axis terms of [x.shape()]: a dimension
    without a term gets the extent atom of its axis. *)
Fixpoint label_dims (self : FnCompiler) (param axis : Z) (terms : list (option Term))
    : list (option Term) :=
  match terms with
  | [] => []
  | t :: ts =>
      (match t with Some t => Some t | None => Some (atom (extent_atom self param axis)) end)
        :: label_dims self param (axis + 1) ts
  end.

Definition label_param_extents (self : FnCompiler) (tensor_origin : option string)
    (dims : list (option Term)) : list (option Term) :=
  match tensor_origin ≫= (fun name => param_index self !! name) with
  | Some param => label_dims self param 0 dims
  | None => dims
  end.

(** ** Specification *)

(** What a declared fact says about the launched tensors; a fact naming a
    non-parameter says nothing. *)
Definition fact_holds (rho : Atom -> Z) (idx : gmap string Z) (fact : MetadataFact) : Prop :=
  match fact with
  | DimEq (MDim lt la) (MDim rt ra) =>
      forall lp rp, idx !! lt = Some lp -> idx !! rt = Some rp -> rho (Dim lp la) = rho (Dim rp ra)
  | DimDivisible tensor axis divisor =>
      forall p, idx !! tensor = Some p -> (divisor | rho (Dim p axis))
  end.

(** A positive [i64] divisor, what [parse_divisor_literal] guarantees. *)
Definition fact_wf (fact : MetadataFact) : Prop :=
  match fact with
  | DimEq _ _ => True
  | DimDivisible _ _ divisor => 1 <= divisor /\ in_i64 divisor
  end.

(** A launch check the host can decide: normal form, launch-known atoms. *)
Definition check_wf (c : LaunchCheck) : Prop :=
  pred_wf (lc_predicate c) /\ Forall launch_known (pred_atoms (lc_predicate c)).

(** The invariant of the collected checks: each is decidable by the host and
    no predicate is collected twice. *)
Definition state_wf (st : CompState) : Prop :=
  Forall check_wf (launch_checks st) /\ NoDup (lc_predicate <$> launch_checks st).

Definition checks_hold (rho : Atom -> Z) (cs : list LaunchCheck) : Prop :=
  Forall (fun c => holds rho (lc_predicate c)) cs.

(** A valuation reads tile counts as ceilings of root extents. *)
Definition tile_counts_ok (rho : Atom -> Z) : Prop :=
  forall p a t, 1 <= t -> rho (TileCount p a t) = ceil_div (rho (Dim p a)) t.

(** The promise the compiler needs from whoever runs the launch checks: when
    a launch is accepted, every collected check holds of the values the
    kernel will observe. *)
Class LaunchEnforcer (L : Type) (accepts : L -> list LaunchCheck -> Prop)
    (observes : L -> (Atom -> Z) -> Prop) : Prop := {
  launch_enforces l checks rho :
    accepts l checks -> observes l rho -> Forall check_wf checks -> checks_hold rho checks;
}.

Lemma pred_eval_closed p rho : pred_wf p -> pred_eval p (fun _ => None) = Some true -> holds rho p.
Proof. intros Hw He. by apply (pred_eval_spec (fun _ => None) rho p true); [intros ??| | |]. Qed.

Lemma pred_eq_atoms a b : is_Some (pred_eq (atom a) (atom b)).
Proof.
  assert (Hn : term_neg (atom b) = Some (mkTerm [(b, -1)] 0)) by reflexivity.
  unfold pred_eq, term_sub. rewrite Hn. cbn. unfold term_add; cbn.
  destruct (atom_ltb b a), (atom_ltb a b); by eexists.
Qed.

Lemma fact_predicate_spec rho idx fact : fact_wf fact ->
  match fact_predicate idx fact with
  | Some p => pred_wf p /\ (holds rho p <-> fact_holds rho idx fact)
  | None => fact_holds rho idx fact
  end.
Proof.
  destruct fact as [[lt la] [rt ra]|t a d]; cbn [fact_wf fact_predicate fact_holds]; intros Hw.
  - destruct (idx !! lt) as [lp|] eqn:El; cbn [mbind option_bind]; [|naive_solver].
    destruct (idx !! rt) as [rp|] eqn:Er; cbn [mbind option_bind]; [|naive_solver].
    destruct (pred_eq_atoms (Dim lp la) (Dim rp ra)) as [p Hp]. rewrite Hp.
    apply pred_eq_spec in Hp as [Hpw Hp]; [|apply atom_wf..].
    split; [done|]. rewrite Hp, !denote_atom. naive_solver.
  - destruct (idx !! t) as [p|] eqn:Et; cbn [mbind option_bind]; [|naive_solver].
    destruct (divisible_by _ d) as [q|] eqn:Hq.
    + apply divisible_by_spec in Hq as [Hqw Hq]; [|apply atom_wf|tauto].
      split; [done|]. rewrite Hq, denote_atom. naive_solver.
    + unfold divisible_by in Hq. destruct (Z.ltb_spec d 1); [lia|done].
Qed.

Lemma Forall_set_insert (P : Predicate -> Prop) s p :
  Forall P (set_insert s p) <-> Forall P s /\ P p.
Proof.
  unfold set_insert. case_bool_decide as E.
  - split; [|tauto]. intros H. split; [done|]. rewrite Forall_forall in H. auto.
  - rewrite Forall_app, Forall_singleton. done.
Qed.

Lemma from_preconditions_spec rho idx facts : Forall fact_wf facts ->
  Forall pred_wf (believed (from_preconditions facts idx)) /\
  (Forall (holds rho) (believed (from_preconditions facts idx)) <->
   Forall (fact_holds rho idx) facts).
Proof.
  unfold from_preconditions; cbn [believed].
  enough (forall s, Forall fact_wf facts -> Forall pred_wf s ->
    let r := foldl (fun s fact => match fact_predicate idx fact with
                                  | Some p => set_insert s p | None => s end) s facts in
    Forall pred_wf r /\
    (Forall (holds rho) r <-> Forall (holds rho) s /\ Forall (fact_holds rho idx) facts)) as H.
  { intros Hf. destruct (H [] Hf) as [H1 H2]; [constructor|]. split; [done|].
    rewrite H2, Forall_nil. tauto. }
  induction facts as [|f facts IH]; intros s Hf Hs r; subst r; cbn.
  - split; [done|]. rewrite Forall_nil. tauto.
  - apply Forall_cons in Hf as [Hf1 Hf2].
    pose proof (fact_predicate_spec rho idx f Hf1) as Hp.
    destruct (fact_predicate idx f) as [p|].
    + destruct Hp as [Hpw Hp]. destruct (IH (set_insert s p) Hf2) as [H1 H2].
      { by apply Forall_set_insert. }
      split; [done|]. rewrite H2, Forall_set_insert, Forall_cons, Hp. tauto.
    + destruct (IH s Hf2 Hs) as [H1 H2]. split; [done|]. rewrite H2, Forall_cons. tauto.
Qed.

(** What each resolution means. *)
Lemma resolve_spec rho ob a : pred_wf (ob_predicate ob) -> Forall (holds rho) (believed a) ->
  match resolve ob a with
  | ResolvedJit => holds rho (ob_predicate ob)
  | ResolvedLaunch c => c = mkLaunchCheck (ob_predicate ob) (ob_cause ob) /\ check_wf c
  | ResolvedDevice => ~ Forall launch_known (pred_atoms (ob_predicate ob))
  end.
Proof.
  intros Hw Hb. unfold resolve, entails. case_bool_decide as E1; [by apply pred_eval_closed|].
  case_bool_decide as E2; [rewrite Forall_forall in Hb; auto|].
  pose proof (term_stage_launch (pred_term (ob_predicate ob))) as Hs.
  destruct (Z.leb_spec (stage_rank (pred_stage (ob_predicate ob))) (stage_rank Launch)) as [Hl|Hl].
  - split; [done|]. split; [done|]. apply Hs, Hl.
  - intros Hk%Hs. unfold pred_stage in Hl. lia.
Qed.

Lemma resolve_launch_wf ob a c : pred_wf (ob_predicate ob) -> resolve ob a = ResolvedLaunch c ->
  c = mkLaunchCheck (ob_predicate ob) (ob_cause ob) /\ check_wf c.
Proof.
  intros Hw. unfold resolve, entails. case_bool_decide; [done|]. case_bool_decide; [done|].
  pose proof (term_stage_launch (pred_term (ob_predicate ob))) as Hs.
  destruct (Z.leb_spec (stage_rank (pred_stage (ob_predicate ob))) (stage_rank Launch)) as [Hl|Hl]; [|done].
  intros [= <-]. split; [done|]. split; [done|]. apply Hs, Hl.
Qed.

(** What it means for an obligation-lowering method [m] to be sound for the
    statement [P]: it keeps the collected checks well formed, only appends to
    them, and when it answers [true] the statement follows from the believed
    facts and the checks collected by then. *)
Definition lowers (self : FnCompiler) (P : (Atom -> Z) -> Prop) (m : CompState -> bool * CompState) : Prop :=
  forall st, state_wf st ->
    let '(b, st') := m st in
    state_wf st' /\ launch_checks st `prefix_of` launch_checks st' /\
    (b = true -> forall rho, tile_counts_ok rho ->
       Forall (holds rho) (believed (assumptions self)) -> checks_hold rho (launch_checks st') -> P rho).

Lemma lowers_false self P : lowers self P (fun st => (false, st)).
Proof. intros st Hst. by split_and!. Qed.

Lemma lowers_true self (P : _ -> Prop) :
  (forall rho, Forall (holds rho) (believed (assumptions self)) -> P rho) ->
  lowers self P (fun st => (true, st)).
Proof. intros HP st Hst. split_and!; [done|done|]. intros _ rho _ Hb _. by apply HP. Qed.

Lemma lowers_weaken self (P Q : (Atom -> Z) -> Prop) m :
  (forall rho, tile_counts_ok rho -> P rho -> Q rho) -> lowers self P m -> lowers self Q m.
Proof.
  intros HPQ Hm st Hst. specialize (Hm st Hst). destruct (m st) as [b st'].
  destruct Hm as (H1 & H2 & H3). split_and!; [done|done|]. intros. by apply HPQ; [|apply H3].
Qed.

Lemma existsb_predicate p cs :
  existsb (fun c => bool_decide (lc_predicate c = p)) cs = true <-> p ∈ lc_predicate <$> cs.
Proof.
  rewrite existsb_exists, list_elem_of_fmap. split.
  - intros (c & Hin & Hc%bool_decide_eq_true). exists c. by rewrite list_elem_of_In.
  - intros (c & -> & Hin). exists c. rewrite <- list_elem_of_In. by rewrite bool_decide_eq_true.
Qed.

Lemma lower_obligation_lowers self p cause : pred_wf p ->
  lowers self (fun rho => holds rho p) (lower_obligation self p cause).
Proof.
  intros Hw st [Hf Hn]. unfold lower_obligation.
  destruct (resolve _ _) as [|c|] eqn:E; [|apply resolve_launch_wf in E as [-> Hc]; [|done]|].
  - split_and!; [by split|done|]. intros _ rho _ Hb _.
    pose proof (resolve_spec rho (mkObligation p cause) _ Hw Hb) as H.
    by rewrite E in H.
  - destruct (existsb _ _) eqn:Ex.
    + apply existsb_predicate in Ex. split_and!; [by split|done|].
      intros _ rho _ _ Hall. apply list_elem_of_fmap in Ex as (c & Hcp & Hin). cbn in Hcp.
      unfold checks_hold in Hall. rewrite Forall_forall in Hall. rewrite Hcp. by apply Hall.
    + assert (p ∉ lc_predicate <$> launch_checks st) as Hni.
      { intros Hin. apply existsb_predicate in Hin. cbn in Ex. congruence. }
      split; [split|split]; cbn [launch_checks].
      * by apply Forall_app_2; [|apply Forall_singleton].
      * rewrite fmap_app. apply NoDup_app. split_and!; [done| |apply NoDup_singleton].
        intros x Hx Hx'. cbn in Hx'. apply list_elem_of_singleton in Hx' as ->. done.
      * by apply prefix_app_r.
      * intros _ rho _ _ Hall. apply Forall_app in Hall as [_ Hall].
        by inversion Hall.
  - split_and!; [by split|done|done].
Qed.

Lemma resolve_dim_eq_lowers self at_ aa bt ba :
  lowers self (fun rho => forall ap bp, param_index self !! at_ = Some ap ->
      param_index self !! bt = Some bp -> rho (Dim ap aa) = rho (Dim bp ba))
    (resolve_dim_eq self at_ aa bt ba).
Proof.
  unfold resolve_dim_eq.
  destruct (param_index self !! at_) as [ap|]; [|apply lowers_false].
  destruct (param_index self !! bt) as [bp|]; [|apply lowers_false].
  destruct (pred_eq _ _) as [p|] eqn:Hp; [|apply lowers_false].
  apply pred_eq_spec in Hp as [Hpw Hp]; [|apply atom_wf..].
  eapply lowers_weaken; [|by apply lower_obligation_lowers].
  intros rho _ Hh ? ? [= <-] [= <-]. apply Hp in Hh. by rewrite !denote_atom in Hh.
Qed.

Lemma eq_entailed_spec self a b : eq_entailed self (atom a) (atom b) = true ->
  forall rho, Forall (holds rho) (believed (assumptions self)) -> rho a = rho b.
Proof.
  unfold eq_entailed. intros H rho Hb. destruct (pred_eq _ _) as [p|] eqn:Hp; [|done].
  apply pred_eq_spec in Hp as [Hpw Hp]; [|apply atom_wf..].
  pose proof (resolve_spec rho (mkObligation p "") _ Hpw Hb) as Hr. cbn in Hr.
  destruct (resolve _ _); try done. apply Hp in Hr. by rewrite !denote_atom in Hr.
Qed.

Lemma resolve_dim_le_lowers self at_ aa bt ba tile :
  lowers self (fun rho => forall ap bp, param_index self !! at_ = Some ap ->
      param_index self !! bt = Some bp ->
      ceil_div (rho (Dim ap aa)) tile <= ceil_div (rho (Dim bp ba)) tile)
    (resolve_dim_le self at_ aa bt ba tile).
Proof.
  unfold resolve_dim_le.
  destruct (param_index self !! at_) as [ap|]; [|apply lowers_false].
  destruct (param_index self !! bt) as [bp|]; [|apply lowers_false].
  destruct (eq_entailed _ _ _) eqn:He.
  { apply lowers_true. intros rho Hb ? ? [= <-] [= <-].
    by rewrite (eq_entailed_spec _ _ _ He rho Hb). }
  destruct (negb _); [apply lowers_false|].
  destruct (Z.ltb_spec tile 1); [apply lowers_false|].
  destruct (pred_le _ _) as [p|] eqn:Hp; [|apply lowers_false].
  apply pred_le_spec in Hp as [Hpw Hp]; [|apply atom_wf..].
  eapply lowers_weaken; [|by apply lower_obligation_lowers].
  intros rho Ht Hh ? ? [= <-] [= <-]. apply Hp in Hh. rewrite !denote_atom in Hh.
  by rewrite !Ht in Hh.
Qed.

Lemma parse_axis_arg_nonneg e a : parse_axis_arg e = Ok a -> 0 <= a.
Proof.
  unfold parse_axis_arg. intros H. apply bind_Ok in H as (z & _ & H).
  destruct (Z.ltb_spec z 0); [discriminate|]. by injection H as <-.
Qed.

Lemma parse_metadata_expr_axis e t a : parse_metadata_expr e = Ok (MDim t a) -> 0 <= a.
Proof.
  destruct e as [| | |f args| | | | |]; try discriminate. cbn.
  destruct (call_name f); [|discriminate]. case_bool_decide; [|discriminate].
  destruct args as [|x [|y [|]]]; try discriminate. cbn.
  intros HH. apply bind_Ok in HH as (t' & _ & HH). apply bind_Ok in HH as (a' & Ha & HH).
  injection HH as <- <-. by apply parse_axis_arg_nonneg in Ha.
Qed.

Lemma parse_divisor_literal_pos e d : parse_divisor_literal e = Ok d -> 1 <= d /\ in_i64 d.
Proof.
  destruct e as [| | | | |[z|]| | |]; try discriminate. cbn. unfold base10_parse.
  destruct (_ && _) eqn:E; [|discriminate]. destruct (Z.ltb_spec z 1); [discriminate|].
  intros [= <-]. apply andb_true_iff in E as [E1 E2]. unfold in_i64. lia.
Qed.

(** Axes of a fact are non-negative. *)
Definition fact_axes_ok (fact : MetadataFact) : Prop :=
  match fact with
  | DimEq (MDim _ la) (MDim _ ra) => 0 <= la /\ 0 <= ra
  | DimDivisible _ a _ => 0 <= a
  end.

Lemma parse_metadata_fact_wf e f : parse_metadata_fact e = Ok f -> fact_wf f /\ fact_axes_ok f.
Proof.
  assert (Heq : forall l r, (lhs ← parse_metadata_expr l; rhs ← parse_metadata_expr r; Ok (DimEq lhs rhs)) = Ok f ->
    fact_wf f /\ fact_axes_ok f).
  { intros l r H. apply bind_Ok in H as ([lt la] & H1 & H). apply bind_Ok in H as ([rt ra] & H2 & H).
    injection H as <-. apply parse_metadata_expr_axis in H1, H2. done. }
  destruct e as [| |op l r| | | | | |]; try discriminate. cbn.
  destruct op; try discriminate. cbn. destruct l as [| |op' l1 l2| | | | | |]; try apply Heq.
  destruct op'; try apply Heq. destruct (is_zero_literal r); [|discriminate]. cbn. intros H.
  apply bind_Ok in H as ([t a] & H1 & H). apply bind_Ok in H as (d & H2 & H). injection H as <-.
  apply parse_metadata_expr_axis in H1. apply parse_divisor_literal_pos in H2. done.
Qed.

Lemma parse_facts_wf es fs : parse_facts es = Ok fs -> Forall (fun f => fact_wf f /\ fact_axes_ok f) fs.
Proof.
  revert fs. induction es as [|e es IH]; cbn; intros fs H; [by injection H as <-|].
  apply bind_Ok in H as (f & Hf & H). apply bind_Ok in H as (fs' & Hfs & H). injection H as <-.
  apply parse_metadata_fact_wf in Hf. auto.
Qed.

(** ** Properties *)

(** Declared preconditions are believed exactly as written.  The facts
    parsed from the attribute are well formed, and the predicates they seed
    the assumption set with all hold exactly when every declared fact holds
    of the launched tensors. *)
Lemma preconditions_believed_exactly (e : option Expr) (facts : list MetadataFact)
    (idx : gmap string Z) (rho : Atom -> Z) (Hp : analyze_entry_attrs e = Ok facts) :
  Forall pred_wf (believed (from_preconditions facts idx)) /\
  (Forall (holds rho) (believed (from_preconditions facts idx)) <-> Forall (fact_holds rho idx) facts).
Proof.
  apply from_preconditions_spec. destruct e as [e|]; cbn in Hp; [|by injection Hp as <-].
  apply bind_Ok in Hp as (es & _ & Hp). apply parse_facts_wf in Hp.
  eapply Forall_impl; [exact Hp|]. by intros f [H _].
Qed.

Definition example_precondition : Expr :=
  ETuple [EBinary BEq (ECall (EPath false ["dim"%string]) [EPath false ["x"%string]; ELit (LitInt 1)])
                      (ECall (EPath false ["dim"%string]) [EPath false ["y"%string]; ELit (LitInt 0)]);
          EBinary BEq (EBinary BRem (ECall (EPath false ["dim"%string]) [EPath false ["x"%string]; ELit (LitInt 0)])
                                    (ELit (LitInt 64)))
                      (ELit (LitInt 0))].

Lemma preconditions_believed_exactly_witness :
  let facts := [DimEq (MDim "x" 1) (MDim "y" 0); DimDivisible "x" 0 64] in
  let idx : gmap string Z := {["x"%string := 0; "y"%string := 1]} in
  Forall pred_wf (believed (from_preconditions facts idx)) /\
  (Forall (holds (fun _ => 128)) (believed (from_preconditions facts idx)) <->
   Forall (fact_holds (fun _ => 128) idx) facts).
Proof. apply (preconditions_believed_exactly (Some example_precondition)). reflexivity. Defined.

(** C3: lowering an obligation is sound.  The collected launch checks only
    grow, stay decidable by the host and free of duplicates; an obligation
    reported as placed is true whenever the declared facts hold and the
    collected checks pass; an obligation left to the device reads a value the
    host cannot know. *)
Theorem lower_obligation_sound (self : FnCompiler) (p : Predicate) (cause : string)
    (st st' : CompState) (b : bool) (Hp : pred_wf p) (Hst : state_wf st)
    (Hl : lower_obligation self p cause st = (b, st')) :
  state_wf st' /\ launch_checks st `prefix_of` launch_checks st' /\
  (b = true -> forall rho, Forall (holds rho) (believed (assumptions self)) ->
     checks_hold rho (launch_checks st') -> holds rho p) /\
  (b = false -> st' = st /\ ~ Forall launch_known (pred_atoms p)).
Proof.
  pose proof (lower_obligation_lowers self p cause Hp st Hst) as H. rewrite Hl in H.
  destruct H as (H1 & H2 & H3). split_and!; [done|done| |].
  - intros -> rho Hb Hc.
    (* the predicate's truth does not depend on how tile counts are read *)
    unfold lower_obligation in Hl. pose proof (resolve_spec rho (mkObligation p cause) _ Hp Hb) as Hr.
    destruct (resolve _ _) as [|c|]; [done| |discriminate].
    destruct Hr as [-> _]. injection Hl as Hl. unfold checks_hold in Hc. rewrite Forall_forall in Hc.
    destruct (existsb _ _) eqn:Ex in Hl; subst st'.
    + apply existsb_predicate, list_elem_of_fmap in Ex as (c & Hcp & Hin). cbn in Hcp. rewrite Hcp. auto.
    + apply (Hc (mkLaunchCheck p cause)). cbn. apply elem_of_app. right. by apply list_elem_of_singleton.
  - intros ->. unfold lower_obligation in Hl.
    destruct (resolve _ _) as [|c|] eqn:E; try discriminate. injection Hl as <-. split; [done|].
    unfold resolve in E. repeat case_match; try discriminate.
    intros Hk%term_stage_launch. unfold pred_stage in *. cbn in *. lia.
Qed.

Definition example_compiler : FnCompiler :=
  mkFnCompiler co_release (mkAssumptions []) {["x"%string := 0; "y"%string := 1]} [true; false] [] false.

Lemma lower_obligation_sound_witness :
  let p := Nonzero (atom (Dim 1 0)) in
  let st' := mkCompState [mkLaunchCheck p "why"] 0 in
  state_wf st' /\ forall rho, checks_hold rho (launch_checks st') -> holds rho p.
Proof.
  assert (Hp : pred_wf (Nonzero (atom (Dim 1 0)))) by (split; [apply atom_wf | exact I]).
  destruct (lower_obligation_sound example_compiler (Nonzero (atom (Dim 1 0))) "why"
              (mkCompState [] 0) (mkCompState [mkLaunchCheck (Nonzero (atom (Dim 1 0))) "why"] 0) true)
    as (H1 & _ & H2 & _); [exact Hp | split; constructor | reflexivity |].
  split; [exact H1|]. intros rho. apply H2; [reflexivity | constructor].
Defined.

(** the tile-count obligation carries an access bound across tensors.
    When [resolve_dim_le] reports the goal settled, on every launch where the
    declared facts and the collected checks hold the source axis has at most
    as many tiles as the target axis. *)
Lemma resolve_dim_le_sound (self : FnCompiler) (src dst : string) (sa da tile sp dp : Z)
    (st st' : CompState) (rho : Atom -> Z) (Hst : state_wf st)
    (Hr : resolve_dim_le self src sa dst da tile st = (true, st'))
    (Hs : param_index self !! src = Some sp) (Hd : param_index self !! dst = Some dp)
    (Ht : tile_counts_ok rho) (Hb : Forall (holds rho) (believed (assumptions self)))
    (Hc : checks_hold rho (launch_checks st')) :
  ceil_div (rho (Dim sp sa)) tile <= ceil_div (rho (Dim dp da)) tile.
Proof.
  pose proof (resolve_dim_le_lowers self src sa dst da tile st Hst) as H. rewrite Hr in H.
  destruct H as (_ & _ & H). by apply H.
Qed.

(** A valuation with a 100-element root axis everywhere. *)
Definition flat_world (extent : Z) (a : Atom) : Z :=
  match a with
  | TileCount _ _ t => ceil_div extent t
  | _ => extent
  end.

Lemma flat_world_ok extent : tile_counts_ok (flat_world extent).
Proof. intros p a t _. reflexivity. Qed.

Lemma resolve_dim_le_sound_witness :
  ceil_div (flat_world 100 (Dim 0 1)) 64 <= ceil_div (flat_world 100 (Dim 1 0)) 64.
Proof.
  eapply (resolve_dim_le_sound example_compiler "x" "y" 1 0 64 0 1 (mkCompState [] 0));
    [split; constructor | vm_compute; reflexivity | reflexivity | reflexivity
    | apply flat_world_ok | constructor | repeat constructor].
Defined.
