(* ===== verification/Launch.v ===== *)
(** * Host-side launch validation (cutile/src/tile_kernel.rs, plan.rs)

    Before a kernel is launched the host infers or validates the grid against
    the bound partitions and evaluates every check the compiler hoisted out
    of the kernel.  This file models those functions and discharges the
    [LaunchEnforcer] interface the compiler's theorems are stated against: an
    accepted launch satisfies every collected check in the frames the kernel
    observes. *)

From S2P Require Import Prelude BTree Bounds Predicate Obligation.

Inductive LaunchError := KernelLaunch (msg : string).

Definition Grid : Type := Z * Z * Z.

Inductive GridBound :=
| Exact (g : Grid)
| AtMost (g : Grid).

(** [{:?}] of a grid tuple. *)
Definition show_grid (g : Grid) : string :=
  let '(x, y, z) := g in "(" +:+ pretty x +:+ ", " +:+ pretty y +:+ ", " +:+ pretty z +:+ ")".

(** The first loop of [validate_grid_bounds]: exact bindings. *)
Fixpoint check_exact_bounds (grid : Grid) (bounds : list GridBound) : outcome LaunchError unit :=
  match bounds with
  | [] => Ok tt
  | Exact expected :: rest =>
      if bool_decide (expected = grid) then check_exact_bounds grid rest
      else Err (KernelLaunch ("launch grid " +:+ show_grid grid
             +:+ " does not match the inferred partition grid " +:+ show_grid expected))
  | AtMost _ :: rest => check_exact_bounds grid rest
  end.

(** [(0..3).find(|&k| launch[k] > max_axes[k])]. *)
Definition exceeding_axis (launch max : Grid) : option Z :=
  let '(l0, l1, l2) := launch in
  let '(m0, m1, m2) := max in
  if m0 <? l0 then Some 0 else if m1 <? l1 then Some 1 else if m2 <? l2 then Some 2 else None.

(** The second loop: partial-coverage bindings. *)
Fixpoint check_at_most_bounds (grid : Grid) (bounds : list GridBound) : outcome LaunchError unit :=
  match bounds with
  | [] => Ok tt
  | Exact _ :: rest => check_at_most_bounds grid rest
  | AtMost max :: rest =>
      match exceeding_axis grid max with
      | Some axis => Err (KernelLaunch ("launch grid " +:+ show_grid grid
             +:+ " exceeds the partial-coverage partition grid " +:+ show_grid max
             +:+ " on axis " +:+ pretty axis))
      | None => check_at_most_bounds grid rest
      end
  end.

Definition validate_grid_bounds (grid : Grid) (bounds : list GridBound) : outcome LaunchError unit :=
  _ ← check_exact_bounds grid bounds;
  check_at_most_bounds grid bounds.

(** [shapes.get(param).and_then(|shape| shape.get(axis))]. *)
Definition shape_at (shapes : list (list Z)) (param axis : Z) : option Z :=
  shape ← get shapes param; get shape axis.

(** The closure [resolve_atom] of [evaluate_launch_check]; [/] truncates. *)
Definition resolve_atom (param_shapes view_shapes : list (list Z)) (launch_grid : Grid) (a : Atom)
    : option Z :=
  match a with
  | Dim param axis => shape_at param_shapes param axis
  | ViewExtent param axis => shape_at view_shapes param axis
  | TileCount param axis tile =>
      if tile <? 1 then None
      else (fun extent => Z.quot (extent + tile - 1) tile) <$> shape_at param_shapes param axis
  | NumTileBlocks k =>
      let '(g0, g1, g2) := launch_grid in
      if k =? 0 then Some g0 else if k =? 1 then Some g1 else if k =? 2 then Some g2 else None
  | Iv _ | TileBlockId _ => None
  end.

Definition evaluate_launch_check (check : LaunchCheck) (param_shapes view_shapes : list (list Z))
    (launch_grid : Grid) : outcome LaunchError unit :=
  match pred_eval (lc_predicate check) (resolve_atom param_shapes view_shapes launch_grid) with
  | Some true => Ok tt
  | Some false => Err (KernelLaunch ("launch check failed: " +:+ lc_cause check))
  | None => Err (KernelLaunch
      ("launch check has unresolved operands (extent unavailable at launch): " +:+ lc_cause check))
  end.

Fixpoint validate_launch_checks (checks : list LaunchCheck) (param_shapes view_shapes : list (list Z))
    (launch_grid : Grid) : outcome LaunchError unit :=
  match checks with
  | [] => Ok tt
  | check :: rest =>
      _ ← evaluate_launch_check check param_shapes view_shapes launch_grid;
      validate_launch_checks rest param_shapes view_shapes launch_grid
  end.

Definition validate_launch (checks : list LaunchCheck) (grid : Grid)
    (partition_bounds : list GridBound) (param_shapes view_shapes : list (list Z))
    : outcome LaunchError unit :=
  _ ← validate_grid_bounds grid partition_bounds;
  validate_launch_checks checks param_shapes view_shapes grid.

Definition exact_grids (bounds : list GridBound) : list Grid :=
  omap (fun b => match b with Exact g => Some g | AtMost _ => None end) bounds.

Definition infer_launch_grid (grid : Grid) (bounds : list GridBound) : outcome LaunchError Grid :=
  if negb (bool_decide (grid = (0, 0, 0))) then
    _ ← validate_grid_bounds grid bounds; Ok grid
  else
    match exact_grids bounds with
    | [] =>
        match bounds with
        | [] => Err (KernelLaunch "Launch grid required.")
        | _ => Err (KernelLaunch ("Launch grid required: a partial-coverage (partition_prefix) binding "
                 +:+ "only bounds the grid; specify the grid explicitly or bind with "
                 +:+ "partition()."))
        end
    | g :: _ => _ ← validate_grid_bounds g bounds; Ok g
    end.

(** [plan::fixed_by_plan] and the guard of [PlanInner::from_launch] that
    refuses a plan whose launch checks read more than the plan pins. *)
Definition fixed_by_plan (a : Atom) : bool :=
  match a with
  | Dim _ _ | ViewExtent _ _ | TileCount _ _ _ | NumTileBlocks _ => true
  | Iv _ | TileBlockId _ => false
  end.

Definition plan_admits (checks : list LaunchCheck) : bool :=
  forallb (fun c => forallb fixed_by_plan (pred_atoms (lc_predicate c))) checks.

(** ** Specification *)

(** One launch: the root and view extents of every parameter and the grid. *)
Record HostLaunch := mkHostLaunch {
  hl_param_shapes : list (list Z);
  hl_view_shapes : list (list Z);
  hl_grid : Grid;
}.

Definition host_accepts (l : HostLaunch) (checks : list LaunchCheck) : Prop :=
  validate_launch_checks checks (hl_param_shapes l) (hl_view_shapes l) (hl_grid l) = Ok tt.

(** The kernel observes the extents and the grid of the launch. *)
Definition host_observes (l : HostLaunch) (rho : Atom -> Z) : Prop :=
  agrees (resolve_atom (hl_param_shapes l) (hl_view_shapes l) (hl_grid l)) rho.

Definition grid_le (g h : Grid) : Prop :=
  g.1.1 <= h.1.1 /\ g.1.2 <= h.1.2 /\ g.2 <= h.2.

Definition satisfies_bound (grid : Grid) (b : GridBound) : Prop :=
  match b with Exact g => grid = g | AtMost g => grid_le grid g end.

Lemma check_exact_bounds_spec grid bounds :
  check_exact_bounds grid bounds = Ok tt <-> Forall (fun g => g = grid) (exact_grids bounds).
Proof.
  induction bounds as [|[g|g] bounds IH]; cbn; [by rewrite Forall_nil| |done].
  rewrite Forall_cons. case_bool_decide; [rewrite IH; tauto|]. split; [done|tauto].
Qed.

Lemma exceeding_axis_None l m : exceeding_axis l m = None <-> grid_le l m.
Proof.
  destruct l as [[l0 l1] l2], m as [[m0 m1] m2]. unfold exceeding_axis, grid_le; cbn.
  repeat case_match; split; intros; try done; lia.
Qed.

Lemma validate_grid_bounds_spec grid bounds :
  validate_grid_bounds grid bounds = Ok tt <-> Forall (satisfies_bound grid) bounds.
Proof.
  unfold validate_grid_bounds. transitivity
    (Forall (fun g => g = grid) (exact_grids bounds) /\ check_at_most_bounds grid bounds = Ok tt).
  - rewrite <- check_exact_bounds_spec. destruct (check_exact_bounds grid bounds) as [[]| |]; cbn; naive_solver.
  - induction bounds as [|[g|g] bounds IH]; cbn; [by rewrite !Forall_nil| |];
      rewrite ?Forall_cons; cbn [satisfies_bound].
    + rewrite <- IH. naive_solver.
    + destruct (exceeding_axis grid g) as [k|] eqn:E.
      * split; [intros [_ [=]]|]. intros [H%exceeding_axis_None _]. congruence.
      * apply exceeding_axis_None in E. rewrite IH. tauto.
Qed.

Lemma validate_grid_bounds_no_panic grid bounds : validate_grid_bounds grid bounds <> Panic.
Proof.
  unfold validate_grid_bounds.
  apply bind_no_panic; [|intros _ _]; (induction bounds as [|[g|g] bounds IH]; cbn; [done|..]);
    repeat case_match; done.
Qed.

Lemma evaluate_launch_check_spec l rho c :
  host_observes l rho -> check_wf c ->
  evaluate_launch_check c (hl_param_shapes l) (hl_view_shapes l) (hl_grid l) = Ok tt ->
  holds rho (lc_predicate c).
Proof.
  intros Ho [Hw _] H. unfold evaluate_launch_check in H.
  destruct (pred_eval _ _) as [[]|] eqn:E; [|discriminate..].
  by apply (pred_eval_spec _ rho _ _ Ho Hw E).
Qed.

Lemma validate_launch_checks_spec l rho checks :
  host_accepts l checks -> host_observes l rho -> Forall check_wf checks -> checks_hold rho checks.
Proof.
  unfold host_accepts, checks_hold. intros Ha Ho. induction checks as [|c checks IH]; intros Hw; [constructor|].
  cbn in Ha. apply bind_Ok in Ha as ([] & Hc & Ha). apply Forall_cons in Hw as [Hw1 Hw2].
  constructor; [by eapply evaluate_launch_check_spec|auto].
Qed.

(** The host keeps the promise the compiler relies on. *)
#[export] Instance host_launch_enforcer : LaunchEnforcer HostLaunch host_accepts host_observes.
Proof. split. intros l checks rho. apply validate_launch_checks_spec. Qed.

Lemma resolve_atom_launch ps vs g a : is_Some (resolve_atom ps vs g a) -> launch_known a.
Proof. intros [v H]. destruct a; cbn in *; done. Qed.

(** Tile counts agree with root extents on every launch with non-negative
    extents. *)
Lemma resolve_tile_count ps vs g p x t e : 1 <= t -> shape_at ps p x = Some e -> 0 <= e ->
  resolve_atom ps vs g (TileCount p x t) = Some (ceil_div e t).
Proof.
  intros Ht Hs He. cbn. destruct (Z.ltb_spec t 1); [lia|]. rewrite Hs. cbn. f_equal.
  rewrite Z.quot_div_nonneg by lia. unfold ceil_div.
  pose proof (Z.div_mod (e + t - 1) t ltac:(lia)) as E1. pose proof (Z.mod_pos_bound (e + t - 1) t ltac:(lia)).
  pose proof (Z.div_mod (- e) t ltac:(lia)) as E2. pose proof (Z.mod_pos_bound (- e) t ltac:(lia)).
  nia.
Qed.

(** ** Properties *)

(** C10: launch validation fails closed.  If the host accepts a launch, the
    grid equals every exact partition grid and is bounded by every
    partial-coverage grid, and every collected check reads only values the
    host knows and holds of the extents and the grid being launched. *)
Theorem validate_launch_sound (checks : list LaunchCheck) (grid : Grid) (bounds : list GridBound)
    (ps vs : list (list Z)) (rho : Atom -> Z) (Hw : Forall check_wf checks)
    (Ho : agrees (resolve_atom ps vs grid) rho)
    (Hv : validate_launch checks grid bounds ps vs = Ok tt) :
  Forall (satisfies_bound grid) bounds /\ checks_hold rho checks /\
  Forall (fun c => exists b, pred_eval (lc_predicate c) (resolve_atom ps vs grid) = Some b) checks.
Proof.
  unfold validate_launch in Hv. apply bind_Ok in Hv as ([] & Hg & Hv).
  split_and!; [by apply validate_grid_bounds_spec| |].
  - by apply (validate_launch_checks_spec (mkHostLaunch ps vs grid)).
  - clear Hw. induction checks as [|c checks IH]; [constructor|]. cbn in Hv.
    apply bind_Ok in Hv as ([] & Hc & Hv). constructor; [|auto].
    unfold evaluate_launch_check in Hc. destruct (pred_eval _ _) as [b|]; [by exists b|done].
Qed.

(** The valuation a launch induces; unknown atoms read as zero. *)
Definition observed (l : HostLaunch) (a : Atom) : Z :=
  default 0 (resolve_atom (hl_param_shapes l) (hl_view_shapes l) (hl_grid l) a).

Lemma observed_agrees l : host_observes l (observed l).
Proof. intros a v H. unfold observed. by rewrite H. Qed.

Definition example_launch : HostLaunch := mkHostLaunch [[128; 96]; [128]] [[128; 96]; [64]] (4, 2, 1).

Lemma validate_launch_sound_witness :
  Forall (satisfies_bound (4, 2, 1)) [Exact (4, 2, 1); AtMost (8, 2, 1)] /\
  checks_hold (observed example_launch) [mkLaunchCheck (Nonzero (atom (ViewExtent 1 0))) "nonempty"].
Proof.
  edestruct (validate_launch_sound [mkLaunchCheck (Nonzero (atom (ViewExtent 1 0))) "nonempty"] (4, 2, 1)
               [Exact (4, 2, 1); AtMost (8, 2, 1)] [[128; 96]; [128]] [[128; 96]; [64]]
               (observed example_launch)) as (H1 & H2 & _).
  - repeat constructor; vm_compute; congruence.
  - apply (observed_agrees example_launch).
  - reflexivity.
  - split; [exact H1 | exact H2].
Defined.

(** the inferred launch grid is legal and deterministic.  A grid is
    returned exactly when it satisfies every partition bound and either was
    specified by the caller or, when unspecified, is the grid of an
    exact-coverage binding; inference never panics. *)
Lemma infer_launch_grid_spec (grid g : Grid) (bounds : list GridBound) :
  infer_launch_grid grid bounds <> Panic /\
  (infer_launch_grid grid bounds = Ok g <->
   Forall (satisfies_bound g) bounds /\
   (grid <> (0, 0, 0) /\ g = grid \/ grid = (0, 0, 0) /\ Exact g ∈ bounds)).
Proof.
  unfold infer_launch_grid. case_bool_decide as E; cbn [negb].
  - destruct (exact_grids bounds) as [|e es] eqn:Ee.
    + split; [by destruct bounds|]. split; [by destruct bounds|].
      intros [_ [[? _]|[_ Hin]]]; [done|].
      assert (g ∈ exact_grids bounds) as Hg by (apply list_elem_of_omap; eauto).
      rewrite Ee in Hg. by apply not_elem_of_nil in Hg.
    + split.
      { apply bind_no_panic; [apply validate_grid_bounds_no_panic|done]. }
      rewrite bind_Ok. split.
      * intros ([] & Hv & [= <-]). split; [by apply validate_grid_bounds_spec|].
        right. split; [done|]. assert (e ∈ exact_grids bounds) as He by (rewrite Ee; left).
        apply list_elem_of_omap in He as ([|] & Hin & [= <-]). done.
      * intros [Hf [[? _]|[_ Hin]]]; [done|].
        assert (g = e) as ->.
        { assert (e ∈ exact_grids bounds) as He by (rewrite Ee; left).
          apply list_elem_of_omap in He as ([|] & Hin' & [= ->]).
          rewrite Forall_forall in Hf. exact (Hf _ Hin'). }
        exists tt. split; [by apply validate_grid_bounds_spec|done].
  - split.
    { apply bind_no_panic; [apply validate_grid_bounds_no_panic|done]. }
    rewrite bind_Ok. split.
    + intros ([] & Hv & [= <-]). split; [by apply validate_grid_bounds_spec|auto].
    + intros [Hf [[_ ->]|[? _]]]; [|done]. exists tt. split; [by apply validate_grid_bounds_spec|done].
Qed.

(** A replayed launch plan keeps the launch checks valid.  A plan is
    admitted only if its checks read layouts and the grid; their verdicts are
    then the same on any later launch with the same layouts and grid, whatever
    the device values. *)
Lemma plan_replay_keeps_checks (checks : list LaunchCheck) (rho rho' : Atom -> Z)
    (Hp : plan_admits checks = true)
    (Hsame : forall a, fixed_by_plan a = true -> rho a = rho' a)
    (Hc : checks_hold rho checks) :
  checks_hold rho' checks.
Proof.
  unfold plan_admits in Hp. rewrite forallb_forall in Hp.
  unfold checks_hold in *. rewrite Forall_forall in *. intros c Hin.
  specialize (Hc c Hin). specialize (Hp c (proj1 (list_elem_of_In _ _) Hin)).
  rewrite forallb_forall in Hp.
  assert (denote rho (pred_term (lc_predicate c)) = denote rho' (pred_term (lc_predicate c))) as E.
  { unfold denote. f_equal. unfold pred_atoms, term_atoms in Hp.
    induction (coeffs (pred_term (lc_predicate c))) as [|[a k] l IH]; [done|]. cbn.
    rewrite IH by (intros; apply Hp; by right). f_equal. f_equal. apply Hsame, Hp. by left. }
  destruct (lc_predicate c); cbn in *; congruence.
Qed.

Lemma plan_replay_keeps_checks_witness :
  checks_hold (fun _ => 7) [mkLaunchCheck (Positive (atom (NumTileBlocks 0))) ""].
Proof.
  apply (plan_replay_keeps_checks _ (fun a => match a with Iv _ | TileBlockId _ => 0 | _ => 7 end));
    [reflexivity | intros []; cbn; congruence | constructor; [vm_compute; reflexivity|constructor]].
Defined.
