(* ===== verification/Goals.v ===== *)
(** * Access-safety goals (cutile-compiler/src/compiler/checks/goals.rs, checks/mod.rs)

    For a coordinate [i] into axis [a] of a partition with tile extent [t] and
    tensor extent [e], a partition access is safe exactly when [0 <= i] and
    [i * t < e].  This file models the goal pair, the proof sources that
    decide it, and the two ladders that compose them (plain and bounded
    partitions), and proves that every axis a ladder accepts without a device
    check is safe on every launch the host accepts. *)

From S2P Require Import Prelude BTree Bounds Predicate ValueFacts Obligation.

(** ** Goals and proof sources (checks/goals.rs) *)

Record AxisGoals := mkAxisGoals {
  ag_axis : Z;
  extent_axis : Z;
  tile : Z;
  static_extent : option Z;
  index : TileRustValue;
}.

Record StaticViolation := mkStaticViolation { sv_min : Z; sv_max : Z; sv_num_tiles : Z }.

Inductive Brand := Matched | Foreign.

Definition brand_of (goals : AxisGoals) (bound_origin : DimOrigin) : option Brand :=
  match index_origin (index goals) with
  | Some origin => if bool_decide (origin = bound_origin) then Some Matched else Some Foreign
  | None => None
  end.

(** The inner outcome panics on a zero tile, where the source divides by it. *)
Definition fold_static (goals : AxisGoals) : option (outcome StaticViolation unit) :=
  bounds ← bounds (index goals);
  extent ← static_extent goals;
  Some (
    if tile goals =? 0 then Panic
    else
      let num_tiles := Z.quot (extent + tile goals - 1) (tile goals) in
      if (0 <=? start bounds) && (end_ bounds <? num_tiles) then Ok tt
      else Err (mkStaticViolation (start bounds) (end_ bounds) num_tiles)).

(** Slice indexing: a panic outside the bounds. *)
Definition at_index {A} (l : list A) (i : Z) : outcome JITError A :=
  match get l i with Some x => Ok x | None => Panic end.

Section sources.
Variable self : FnCompiler.

Definition form_axis_goals (partition : TileRustValue) (static_tile static_shape dim_map : list Z)
    (axis : Z) (index : TileRustValue) : outcome JITError AxisGoals :=
  extent_axis ← at_index dim_map axis;
  extent ← at_index static_shape extent_axis;
  let static_extent :=
    if extent =? -1 then declared_view_extent self (tensor_origin partition) dim_map axis
    else Some extent in
  t ← at_index static_tile axis;
  Ok (mkAxisGoals axis extent_axis t static_extent index).

(** The cross-tensor half of [discharge_by_axis_provenance]. *)
Definition cross_tensor_provenance (goals : AxisGoals) (partition : TileRustValue) (st : CompState)
    : bool * CompState :=
  match partition_axis_origin (index goals), tensor_origin partition with
  | Some origin, Some target =>
      if (pao_tile_dim origin =? tile goals) && bool_decide (is_Some (root_framed_param self target))
      then resolve_dim_le self (pao_tensor origin) (pao_axis origin) target (extent_axis goals)
             (tile goals) st
      else (false, st)
  | _, _ => (false, st)
  end.

(** Its same-view half. *)
Definition same_view_provenance (goals : AxisGoals) (partition : TileRustValue) : bool :=
  match index_origin (index goals), value partition with
  | Some (PartitionAxis view axis tile_dim), Some partition_view =>
      (view =? partition_view) && (axis =? ag_axis goals) && (tile_dim =? tile goals)
  | _, _ => false
  end.

Definition discharge_by_axis_provenance (goals : AxisGoals) (partition : TileRustValue)
    (st : CompState) : bool * CompState :=
  let '(b, st) := cross_tensor_provenance goals partition st in
  if b then (true, st) else (same_view_provenance goals partition, st).

(** The bare register [tile_block_id(k)]: one atom, coefficient 1, no
    constant. *)
Definition bare_block_id (t : Term) : option Z :=
  if negb (constant_part t =? 0) then None
  else match coeffs t with
       | [(TileBlockId k, coeff)] => if coeff =? 1 then Some k else None
       | _ => None
       end.

Definition discharge_by_block_id_axiom (goals : AxisGoals) (partition : TileRustValue)
    (st : CompState) : bool * CompState :=
  match (t ← term (index goals);
         k ← bare_block_id t;
         tensor ← tensor_origin partition;
         param ← param_index self !! tensor;
         lhs ← mul_const (atom (NumTileBlocks k)) (tile goals);
         rhs ← term_add (atom (extent_atom self param (extent_axis goals))) (constant (tile goals - 1));
         le ← pred_le lhs rhs;
         Some (k, tensor, le)) with
  | Some (k, tensor, le) =>
      lower_obligation self le
        ("num_tile_blocks(" +:+ pretty k +:+ ") <= ceil(extent(" +:+ tensor +:+ ", "
           +:+ pretty (extent_axis goals) +:+ ")/" +:+ pretty (tile goals) +:+ ")") st
  | None => (false, st)
  end.

Definition hoist_zero_coordinate_nonempty_extent (goals : AxisGoals) (partition : TileRustValue)
    (st : CompState) : bool * CompState :=
  match static_extent goals, bounds (index goals) with
  | None, Some b =>
      if (start b =? 0) && (end_ b =? 0) then
        match (tensor ← tensor_origin partition;
               param ← param_index self !! tensor;
               Some (tensor, param)) with
        | Some (tensor, param) =>
            lower_obligation self
              (nonzero (atom (extent_atom self param (extent_axis goals))))
              ("partition access on axis " +:+ pretty (extent_axis goals) +:+ " of `" +:+ tensor
                 +:+ "` requires a non-empty extent") st
        | None => (false, st)
        end
      else (false, st)
  | _, _ => (false, st)
  end.

Definition resolve_dynamic_extent (goals : AxisGoals) (static_shape : list Z)
    (shape_dims : list TileRustValue) (loc : SourceLocation) : outcome JITError TileRustValue :=
  let count := Z.of_nat (length (filter (fun d => d = -1)
                 (take (Z.to_nat (extent_axis goals + 1)) static_shape))) in
  if count =? 0 then
    jit_error_result loc "internal: dynamic partition dimension was not found in tensor shape metadata"
  else
    match get shape_dims (count - 1) with
    | Some v => Ok v
    | None => jit_error_result loc
        ("internal: tensor shape metadata is missing dynamic dimension " +:+ pretty (count - 1))
    end.

(** ** The ladders (checks/mod.rs) *)

(** The proof rungs of the plain ladder, run when [discharge_proofs] is on. *)
Definition plain_proof_rungs (goals : AxisGoals) (partition : TileRustValue) (loc : SourceLocation)
    (st : CompState) : outcome JITError (bool * CompState) :=
  let '(b, st) := discharge_by_axis_provenance goals partition st in
  if b then Ok (true, st)
  else
    match fold_static goals with
    | Some (Ok tt) => Ok (true, st)
    | Some (Err v) => jit_error_result loc
        ("Bounds check failed: 0 <= " +:+ pretty (sv_min v) +:+ " && " +:+ pretty (sv_max v)
           +:+ " < " +:+ pretty (sv_num_tiles v))
    | Some Panic => Panic
    | None => Ok (discharge_by_block_id_axiom goals partition st)
    end.

(** [place] is [place_residual_check], which emits the device check into its
    own state [S]. *)
Context {S : Type} (place : AxisGoals -> option TileRustValue -> S -> outcome JITError S).

(** One iteration of the loop of [compile_check_partition_access]. *)
Definition check_plain_axis (partition : TileRustValue) (static_shape : list Z)
    (dynamic_shape : list TileRustValue) (loc : SourceLocation) (goals : AxisGoals)
    (st : CompState) (ps : S) : outcome JITError (CompState * S) :=
  r ← (if discharge_proofs (check_opts self) then plain_proof_rungs goals partition loc st
       else Ok (false, st));
  let '(b, st) := (r : bool * CompState) in
  if b then Ok (count_discharged st, ps)
  else
    let '(b, st) :=
      if relocate_to_launch (check_opts self)
      then hoist_zero_coordinate_nonempty_extent goals partition st else (false, st) in
    if b then Ok (count_discharged st, ps)
    else
      dynamic_extent ←
        (match static_extent goals with
         | None => Some <$> resolve_dynamic_extent goals static_shape dynamic_shape loc
         | Some _ => Ok None
         end);
      ps ← place goals dynamic_extent ps;
      Ok (st, ps).

Fixpoint check_plain_axes (partition : TileRustValue) (static_tile static_shape dim_map : list Z)
    (dynamic_shape : list TileRustValue) (loc : SourceLocation) (axis : Z)
    (indexes : list TileRustValue) (st : CompState) (ps : S) : outcome JITError (CompState * S) :=
  match indexes with
  | [] => Ok (st, ps)
  | index :: rest =>
      goals ← form_axis_goals partition static_tile static_shape dim_map axis index;
      r ← check_plain_axis partition static_shape dynamic_shape loc goals st ps;
      check_plain_axes partition static_tile static_shape dim_map dynamic_shape loc (axis + 1)
        rest (r : CompState * S).1 r.2
  end.

Definition compile_check_partition_access (partition : TileRustValue)
    (static_tile static_shape dim_map : list Z) (dynamic_shape indexes : list TileRustValue)
    (loc : SourceLocation) (st : CompState) (ps : S) : outcome JITError (CompState * S) :=
  let len := length static_tile in
  if negb (len =? length indexes)%nat || negb (len =? length static_shape)%nat then
    jit_error_result loc
      ("Unexpected tile (" +:+ pretty (Z.of_nat len) +:+ "), shape (" +:+ pretty (Z.of_nat (length static_shape))
         +:+ "), or index (" +:+ pretty (Z.of_nat (length indexes)) +:+ ") length mismatch.")
  else check_plain_axes partition static_tile static_shape dim_map dynamic_shape loc 0 indexes st ps.

(** One iteration of the loop of [compile_check_bounded_partition_access]. *)
Definition check_bounded_axis (partition : TileRustValue) (loc : SourceLocation) (goals : AxisGoals)
    (bound_origin : DimOrigin) (st : CompState) : outcome JITError CompState :=
  match brand_of goals bound_origin with
  | Some Matched => Ok (count_discharged st)
  | Some Foreign => jit_error_result loc
      ("bounded partition coordinate axis " +:+ pretty (ag_axis goals)
         +:+ " was produced by a different dimension")
  | None =>
      match fold_static goals with
      | Some (Ok tt) => Ok (count_discharged st)
      | Some (Err v) => jit_error_result loc
          ("bounded partition coordinate axis " +:+ pretty (ag_axis goals) +:+ ": constant range ["
             +:+ pretty (sv_min v) +:+ ", " +:+ pretty (sv_max v) +:+ "] is not within the "
             +:+ pretty (sv_num_tiles v) +:+ "-tile grid")
      | Some Panic => Panic
      | None =>
          let '(b, st) := hoist_zero_coordinate_nonempty_extent goals partition st in
          if b then Ok (count_discharged st)
          else jit_error_result loc
            ("bounded partition coordinate axis " +:+ pretty (ag_axis goals)
               +:+ " must come from iterating the matching dimension or be a constant within the axis's static tile grid")
      end
  end.

Fixpoint check_bounded_axes (partition : TileRustValue) (static_tile static_shape dim_map : list Z)
    (loc : SourceLocation) (axis : Z) (coords : list (TileRustValue * DimOrigin)) (st : CompState)
    : outcome JITError CompState :=
  match coords with
  | [] => Ok st
  | (coord, bound_origin) :: rest =>
      goals ← form_axis_goals partition static_tile static_shape dim_map axis coord;
      st ← check_bounded_axis partition loc goals bound_origin st;
      check_bounded_axes partition static_tile static_shape dim_map loc (axis + 1) rest st
  end.

Definition compile_check_bounded_partition_access (partition : TileRustValue)
    (static_tile static_shape dim_map : list Z) (coord_values : list TileRustValue)
    (loc : SourceLocation) (st : CompState) : outcome JITError CompState :=
  match bounded_axes partition with
  | None => jit_error_result loc
      "bounded partition load requires bounds established by `Partition::with_bounds`"
  | Some bound_axes =>
      if negb (length coord_values =? length bound_axes)%nat then
        jit_error_result loc
          ("coordinate rank " +:+ pretty (Z.of_nat (length coord_values))
             +:+ " does not match bounded partition rank " +:+ pretty (Z.of_nat (length bound_axes)))
      else check_bounded_axes partition static_tile static_shape dim_map loc 0
             (zip coord_values bound_axes) st
  end.
End sources.

(** ** What safety means *)

(** The goal pair for coordinate value [x] against extent [e]. *)
Definition access_safe (t e x : Z) : Prop := 0 <= x /\ x * t < e.

(** What the compiler is told about a partition is true of the launch: [ext a]
    is the kernel-visible extent of tensor axis [a].  View types and declared
    shapes state true extents (the launcher rejects a mismatch), and a
    parameter's extent atom denotes the extent the kernel sees. *)
Record partition_world (self : FnCompiler) (rho : Atom -> Z) (ext : Z -> Z)
    (partition : TileRustValue) (static_shape dim_map : list Z) : Prop := {
  pw_nonneg a : 0 <= ext a;
  pw_view a e : get static_shape a = Some e -> e <> -1 -> ext a = e;
  pw_declared axis a e : get dim_map axis = Some a ->
    declared_view_extent self (tensor_origin partition) dim_map axis = Some e -> ext a = e;
  pw_extent_atom tensor param a : tensor_origin partition = Some tensor ->
    param_index self !! tensor = Some param -> rho (extent_atom self param a) = ext a;
}.

(** What a coordinate's facts say of its run-time value [x] (an [i32]): its
    interval and term, and what each provenance brand was minted for. *)
Record index_world (self : FnCompiler) (rho : Atom -> Z) (ext : Z -> Z)
    (partition : TileRustValue) (dim_map : list Z) (v : TileRustValue) (x : Z) : Prop := {
  iw_i32 : in_i32 x;
  iw_facts : facts_hold (2 ^ 32) rho v x;
  iw_axis_origin o param : partition_axis_origin v = Some o ->
    param_index self !! pao_tensor o = Some param ->
    0 <= x < ceil_div (rho (Dim param (pao_axis o))) (pao_tile_dim o);
  iw_view_origin view axis t a : index_origin v = Some (PartitionAxis view axis t) ->
    value partition = Some view -> get dim_map axis = Some a -> 0 <= x < ceil_div (ext a) t;
}.

(** The CUDA execution model: block ids are below the grid, which is at most
    [2^31 - 1] per axis. *)
Definition grid_axiom (rho : Atom -> Z) : Prop :=
  forall k, 0 <= rho (TileBlockId k) < rho (NumTileBlocks k) /\ rho (NumTileBlocks k) <= I32_MAX.

Lemma ceil_div_bound x e t : 1 <= t -> x < ceil_div e t <-> x * t < e.
Proof.
  intros Ht. unfold ceil_div.
  pose proof (Z.div_mod (- e) t ltac:(lia)). pose proof (Z.mod_pos_bound (- e) t ltac:(lia)). nia.
Qed.

Lemma quot_ceil e t : 1 <= t -> 0 <= e -> Z.quot (e + t - 1) t = ceil_div e t.
Proof.
  intros Ht He. rewrite Z.quot_div_nonneg by lia. unfold ceil_div.
  pose proof (Z.div_mod (e + t - 1) t ltac:(lia)). pose proof (Z.mod_pos_bound (e + t - 1) t ltac:(lia)).
  pose proof (Z.div_mod (- e) t ltac:(lia)). pose proof (Z.mod_pos_bound (- e) t ltac:(lia)).
  nia.
Qed.

(** ** Each proof source is sound *)

Section soundness.
Context (self : FnCompiler) (partition : TileRustValue) (static_tile static_shape dim_map : list Z).

(** The goals of an axis were formed from this partition. *)
Definition goals_of (axis : Z) (v : TileRustValue) (g : AxisGoals) : Prop :=
  form_axis_goals self partition static_tile static_shape dim_map axis v = Ok g.

(** Under a valuation, the access guarded by [g] is safe for every extent and
    coordinate value the compiler's facts are true of. *)
Definition axis_safe (v : TileRustValue) (g : AxisGoals) (rho : Atom -> Z) : Prop :=
  grid_axiom rho -> forall ext x,
    partition_world self rho ext partition static_shape dim_map ->
    index_world self rho ext partition dim_map v x ->
    access_safe (tile g) (ext (extent_axis g)) x.

Lemma at_index_Ok {A} (l : list A) i x : at_index l i = Ok x -> get l i = Some x.
Proof. unfold at_index. destruct (get l i); naive_solver. Qed.

Lemma goals_of_spec axis v g : goals_of axis v g ->
  ag_axis g = axis /\ index g = v /\ get dim_map axis = Some (extent_axis g) /\
  get static_tile axis = Some (tile g) /\
  forall rho ext e, partition_world self rho ext partition static_shape dim_map ->
    static_extent g = Some e -> ext (extent_axis g) = e.
Proof.
  unfold goals_of, form_axis_goals. intros H.
  apply bind_Ok in H as (a & Ha & H). apply bind_Ok in H as (s & Hs & H).
  apply bind_Ok in H as (t & Ht & H). injection H as <-.
  apply at_index_Ok in Ha, Hs, Ht. split_and!; try done. cbn.
  intros rho ext e Hw He. destruct (Z.eqb_spec s (-1)).
  - by eapply pw_declared.
  - injection He as <-. by eapply pw_view.
Qed.

Lemma fold_static_Ok_iff g b e : bounds (index g) = Some b -> start b <= end_ b ->
  static_extent g = Some e -> 0 <= e -> 1 <= tile g ->
  fold_static g = Some (Ok tt) <-> forall x, contains b x -> access_safe (tile g) e x.
Proof.
  intros Hb Hne He Hpos Ht. unfold fold_static. rewrite Hb, He. cbn.
  destruct (Z.eqb_spec (tile g) 0); [lia|]. rewrite quot_ceil by lia.
  unfold contains, access_safe. split.
  - destruct (_ && _) eqn:E; [|done]. intros _ x Hx. apply andb_true_iff in E as [E1 E2].
    apply Z.leb_le in E1. apply Z.ltb_lt in E2.
    split; [lia|]. apply ceil_div_bound; lia.
  - intros H. destruct (H (start b)) as [H1 _]; [lia|]. destruct (H (end_ b)) as [_ H2]; [lia|].
    apply ceil_div_bound in H2; [|done].
    by rewrite (proj2 (Z.leb_le _ _) H1), (proj2 (Z.ltb_lt _ _) H2).
Qed.

Lemma fold_static_sound axis v g rho : goals_of axis v g -> 1 <= tile g ->
  fold_static g = Some (Ok tt) -> axis_safe v g rho.
Proof.
  intros Hg Ht Hf _ ext x Hpw Hiw. destruct (goals_of_spec _ _ _ Hg) as (_ & Hi & _ & _ & Hext).
  pose proof Hf as Hf'. unfold fold_static in Hf'.
  apply bind_Some in Hf' as (b & Hb & Hf'). apply bind_Some in Hf' as (e & He & _).
  rewrite (Hext rho ext e Hpw He). rewrite Hi in Hb.
  destruct (proj1 (iw_facts _ _ _ _ _ _ _ Hiw) b Hb) as [[Hle _] Hc].
  eapply fold_static_Ok_iff; eauto; [by rewrite Hi|].
  rewrite <- (Hext rho ext e Hpw He). apply Hpw.
Qed.

Lemma root_framed_extent tensor param : root_framed_param self tensor = Some param ->
  param_index self !! tensor = Some param /\ forall a, extent_atom self param a = Dim param a.
Proof.
  unfold root_framed_param, extent_atom. intros H. apply bind_Some in H as (p & Hp & H).
  destruct (default true (get _ p)) eqn:E; [done|]. injection H as <-. split; [done|].
  intros a. by rewrite E.
Qed.

Lemma cross_tensor_lowers axis v g : goals_of axis v g -> 1 <= tile g ->
  lowers self (axis_safe v g) (cross_tensor_provenance self g partition).
Proof.
  intros Hg Ht. destruct (goals_of_spec _ _ _ Hg) as (_ & Hi & _ & _ & _).
  unfold cross_tensor_provenance. rewrite Hi.
  destruct (partition_axis_origin v) as [o|] eqn:Ho; [|apply lowers_false].
  destruct (tensor_origin partition) as [target|] eqn:Htgt; [|apply lowers_false].
  destruct (Z.eqb_spec (pao_tile_dim o) (tile g)) as [Etile|]; cbn [andb]; [|apply lowers_false].
  case_bool_decide as Hroot; [|apply lowers_false].
  destruct Hroot as [dp Hroot]. apply root_framed_extent in Hroot as [Hdp Hat].
  destruct (param_index self !! pao_tensor o) as [sp|] eqn:Hsp.
  2: { unfold resolve_dim_le. rewrite Hsp. apply lowers_false. }
  eapply lowers_weaken; [|apply resolve_dim_le_lowers].
  intros rho _ Hle _ ext x Hpw Hiw. specialize (Hle sp dp Hsp Hdp).
  pose proof (iw_axis_origin _ _ _ _ _ _ _ Hiw o sp Ho Hsp) as Hx. rewrite Etile in Hx.
  rewrite <- Hat, (pw_extent_atom _ _ _ _ _ _ Hpw target dp _ Htgt Hdp) in Hle.
  split; [lia|]. apply ceil_div_bound; lia.
Qed.

Lemma same_view_sound axis v g rho : goals_of axis v g -> 1 <= tile g ->
  same_view_provenance g partition = true -> axis_safe v g rho.
Proof.
  intros Hg Ht Hs _ ext x Hpw Hiw. destruct (goals_of_spec _ _ _ Hg) as (Ha & Hi & Hd & _ & _).
  unfold same_view_provenance in Hs. rewrite Hi in Hs.
  destruct (index_origin v) as [[view a t|]|] eqn:Ho; try done.
  destruct (value partition) as [pv|] eqn:Hv; [|done].
  apply andb_true_iff in Hs as [Hs Et]. apply andb_true_iff in Hs as [Ev Ea].
  apply Z.eqb_eq in Et, Ev, Ea. subst.
  pose proof (iw_view_origin _ _ _ _ _ _ _ Hiw pv (ag_axis g) (tile g) (extent_axis g) Ho Hv Hd) as Hx.
  split; [lia|]. apply ceil_div_bound; lia.
Qed.

Lemma axis_provenance_lowers axis v g : goals_of axis v g -> 1 <= tile g ->
  lowers self (axis_safe v g) (discharge_by_axis_provenance self g partition).
Proof.
  intros Hg Ht st Hst. pose proof (cross_tensor_lowers _ _ _ Hg Ht st Hst) as H.
  unfold discharge_by_axis_provenance. destruct (cross_tensor_provenance self g partition st) as [[] st'].
  - done.
  - destruct H as (H1 & H2 & _). split_and!; [done|done|]. intros Hs rho _ _ _.
    by eapply same_view_sound.
Qed.

Lemma bare_block_id_denote rho t k : bare_block_id t = Some k -> denote rho t = rho (TileBlockId k).
Proof.
  unfold bare_block_id, denote. destruct (Z.eqb_spec (constant_part t) 0) as [->|]; [|done]. cbn.
  destruct (coeffs t) as [|[[] c] [|]]; try done. destruct (Z.eqb_spec c 1) as [->|]; [|done].
  intros [= <-]. cbn -[Z.mul]. lia.
Qed.

Lemma congruent_i32 x y : in_i32 x -> 0 <= y <= I32_MAX -> (2 ^ 32 | x - y) -> x = y.
Proof. unfold in_i32, I32_MIN, I32_MAX. intros ? ? [q Hq]. change (2 ^ 32) with 4294967296 in Hq. lia. Qed.

Lemma block_id_lowers axis v g : goals_of axis v g -> 1 <= tile g -> in_i32 (tile g) ->
  lowers self (axis_safe v g) (discharge_by_block_id_axiom self g partition).
Proof.
  intros Hg Ht Hti. destruct (goals_of_spec _ _ _ Hg) as (_ & Hi & _ & _ & _).
  unfold discharge_by_block_id_axiom. rewrite Hi.
  destruct (_ ≫= _) as [[[k tensor] le]|] eqn:E; [|apply lowers_false].
  apply bind_Some in E as (t & Et & E). apply bind_Some in E as (k' & Ek & E).
  apply bind_Some in E as (tensor' & Etn & E). apply bind_Some in E as (param & Ep & E).
  apply bind_Some in E as (lhs & El & E). apply bind_Some in E as (rhs & Er & E).
  apply bind_Some in E as (le' & Ele & [= -> -> ->]).
  apply mul_const_spec in El as [Hlw Hl]; [|apply atom_wf].
  assert (in_i64 (tile g - 1)) as Htc by (unfold in_i32, in_i64, I32_MIN, I32_MAX, I64_MIN, I64_MAX in *; lia).
  apply term_add_spec in Er as [Hrw Hr]; [|apply atom_wf|by apply constant_wf].
  apply pred_le_spec in Ele as [Hpw Hp]; [|done..].
  eapply lowers_weaken; [|by apply lower_obligation_lowers].
  intros rho _ Hle Hgrid ext x Hworld Hiw. apply Hp in Hle. rewrite Hl, Hr in Hle.
  rewrite !denote_atom, denote_constant in Hle.
  rewrite (pw_extent_atom _ _ _ _ _ _ Hworld tensor param _ Etn Ep) in Hle.
  destruct (Hgrid k) as [[Hb1 Hb2] Hb3].
  assert (x = rho (TileBlockId k)) as ->.
  { apply congruent_i32; [apply Hiw|lia|]. rewrite <- (bare_block_id_denote rho t k Ek).
    by apply (proj2 (iw_facts _ _ _ _ _ _ _ Hiw)). }
  split; nia.
Qed.

Lemma zero_coordinate_lowers axis v g : goals_of axis v g ->
  lowers self (axis_safe v g) (hoist_zero_coordinate_nonempty_extent self g partition).
Proof.
  intros Hg. destruct (goals_of_spec _ _ _ Hg) as (_ & Hi & _ & _ & _).
  unfold hoist_zero_coordinate_nonempty_extent. rewrite Hi.
  destruct (static_extent g); [apply lowers_false|].
  destruct (bounds v) as [b|] eqn:Hb; [|apply lowers_false].
  destruct (_ && _) eqn:Ez; [|apply lowers_false].
  destruct (_ ≫= _) as [[tensor param]|] eqn:E; [|apply lowers_false].
  apply bind_Some in E as (tensor' & Etn & E). apply bind_Some in E as (param' & Ep & [= -> ->]).
  destruct (nonzero_spec (atom (extent_atom self param (extent_axis g))) (atom_wf _)) as [Hpw Hp].
  eapply lowers_weaken; [|by apply lower_obligation_lowers].
  intros rho _ Hne _ ext x Hworld Hiw. apply (proj1 (Hp rho)) in Hne. rewrite denote_atom in Hne.
  rewrite (pw_extent_atom _ _ _ _ _ _ Hworld tensor param _ Etn Ep) in Hne.
  apply andb_true_iff in Ez as [E1 E2]. apply Z.eqb_eq in E1, E2.
  destruct (proj1 (iw_facts _ _ _ _ _ _ _ Hiw) b Hb) as [_ Hc]. unfold contains in Hc.
  pose proof (pw_nonneg _ _ _ _ _ _ Hworld (extent_axis g)). assert (x = 0) as -> by lia.
  unfold access_safe. lia.
Qed.

(** ** The ladders are sound *)

(** What a completed step [st -> st'] guarantees for one axis: the collected
    checks stay well formed and only grow, and the axis is safe under the
    checks collected by then. *)
Definition step_ok (st st' : CompState) : Prop :=
  state_wf st' /\ launch_checks st `prefix_of` launch_checks st'.

Definition discharged_axis (v : TileRustValue) (g : AxisGoals) (st' : CompState) : Prop :=
  forall rho, tile_counts_ok rho -> Forall (holds rho) (believed (assumptions self)) ->
    checks_hold rho (launch_checks st') -> axis_safe v g rho.

Lemma step_ok_trans st1 st2 st3 : step_ok st1 st2 -> step_ok st2 st3 -> step_ok st1 st3.
Proof. intros [_ H1] [H2 H3]. split; [done|]. by etrans. Qed.

Lemma step_ok_count st st' : step_ok st st' -> step_ok st (count_discharged st').
Proof. done. Qed.

Lemma checks_hold_prefix rho cs cs' : cs `prefix_of` cs' -> checks_hold rho cs' -> checks_hold rho cs.
Proof. intros [k ->] H. by apply Forall_app in H as [H _]. Qed.

Lemma discharged_later v g st st' :
  launch_checks st `prefix_of` launch_checks st' -> discharged_axis v g st -> discharged_axis v g st'.
Proof. intros Hp Hd rho Ht Hb Hc. apply Hd; auto. by eapply checks_hold_prefix. Qed.

Lemma lowers_step P m st b st' : state_wf st -> lowers self P m -> m st = (b, st') ->
  step_ok st st' /\
  (b = true -> forall rho, tile_counts_ok rho -> Forall (holds rho) (believed (assumptions self)) ->
     checks_hold rho (launch_checks st') -> P rho).
Proof. intros Hst Hm E. specialize (Hm st Hst). rewrite E in Hm. destruct Hm as (H1 & H2 & H3). by split. Qed.

Lemma plain_proof_rungs_ok axis v g loc st b st' : goals_of axis v g -> 1 <= tile g -> in_i32 (tile g) ->
  state_wf st -> plain_proof_rungs self g partition loc st = Ok (b, st') ->
  step_ok st st' /\ (b = true -> discharged_axis v g st').
Proof.
  intros Hg Ht Hti Hst. unfold plain_proof_rungs.
  destruct (discharge_by_axis_provenance self g partition st) as [b1 st1] eqn:E1.
  destruct (lowers_step _ _ _ _ _ Hst (axis_provenance_lowers _ _ _ Hg Ht) E1) as [S1 D1].
  destruct b1; [intros [= <- <-]; auto|].
  destruct (fold_static g) as [[[]|viol|]|] eqn:Ef; try discriminate.
  - intros [= <- <-]. split; [done|]. intros _ rho _ _ _. by eapply fold_static_sound.
  - intros [= E2].
    destruct (lowers_step _ _ _ _ _ (proj1 S1) (block_id_lowers _ _ _ Hg Ht Hti) E2) as [S2 D2].
    split; [by eapply step_ok_trans|done].
Qed.

Section plain.
Context {S : Type} (place : AxisGoals -> option TileRustValue -> S -> outcome JITError S).
Context (dyn : list TileRustValue) (loc : SourceLocation).

(** The extent operand handed to the placer. *)
Definition extent_source (g : AxisGoals) (d : option TileRustValue) : Prop :=
  match static_extent g with
  | None => exists v, d = Some v /\ resolve_dynamic_extent g static_shape dyn loc = Ok v
  | Some _ => d = None
  end.

(** What the placer promises under its invariant [inv], for the goals it
    admits: a placed goal is guarded by a device check, and placing another
    goal keeps the guards already emitted. *)
Context (inv : S -> Prop) (adm_index : TileRustValue -> Prop).
Context (guarded : S -> AxisGoals -> option TileRustValue -> Prop).
Hypothesis place_guards : forall axis v g d ps ps',
  goals_of axis v g -> 1 <= tile g <= I32_MAX -> adm_index v -> extent_source g d -> inv ps ->
  place g d ps = Ok ps' ->
  inv ps' /\ guarded ps' g d /\ forall g' d', guarded ps g' d' -> guarded ps' g' d'.

(** An axis is safe once its checks hold, or guarded by a device check over
    its extent. *)
Definition axis_verdict (v : TileRustValue) (g : AxisGoals) (st' : CompState) (ps' : S) : Prop :=
  discharged_axis v g st' \/ exists d, extent_source g d /\ guarded ps' g d.

Lemma check_plain_axis_ok axis v g st ps st' ps' :
  goals_of axis v g -> 1 <= tile g <= I32_MAX -> adm_index v -> state_wf st -> inv ps ->
  check_plain_axis self place partition static_shape dyn loc g st ps = Ok (st', ps') ->
  step_ok st st' /\ inv ps' /\ (forall g' d', guarded ps g' d' -> guarded ps' g' d') /\
  axis_verdict v g st' ps'.
Proof.
  intros Hg Ht Hv Hst Hinv H. unfold check_plain_axis in H.
  apply bind_Ok in H as ([b1 st1] & H1 & H).
  assert (step_ok st st1 /\ (b1 = true -> discharged_axis v g st1)) as [S1 D1].
  { destruct (discharge_proofs _).
    - eapply plain_proof_rungs_ok; [done|lia|unfold in_i32, I32_MIN; lia|done|done].
    - injection H1 as <- <-. split; [by split|done]. }
  clear H1. destruct b1.
  { injection H as <- <-. split_and!; [exact S1|done|done|left; by apply D1]. }
  destruct (if relocate_to_launch _ then _ else _) as [b2 st2] eqn:E2.
  assert (step_ok st1 st2 /\ (b2 = true -> discharged_axis v g st2)) as [S2 D2].
  { destruct (relocate_to_launch _).
    - by eapply lowers_step; [apply S1|by eapply zero_coordinate_lowers|].
    - injection E2 as <- <-. split; [by split; [apply S1|]|done]. }
  assert (step_ok st st2) as S3 by (by eapply step_ok_trans).
  destruct b2.
  { injection H as <- <-. split_and!; [exact S3|done|done|left; by apply D2]. }
  apply bind_Ok in H as (d & Hd & H). apply bind_Ok in H as (ps2 & Hpl & H). injection H as <- <-.
  assert (extent_source g d) as He.
  { unfold extent_source. destruct (static_extent g); [by injection Hd|].
    destruct (resolve_dynamic_extent g static_shape dyn loc) as [w| |]; try discriminate.
    injection Hd as <-. eauto. }
  destruct (place_guards axis v g d ps ps2 Hg Ht Hv He Hinv Hpl) as (I2 & G2 & M2).
  split_and!; [done|done|done|]. right. eauto.
Qed.

(** The verdict on the axes [axis, axis + 1, ...] of the remaining indexes. *)
Fixpoint axes_verdict (axis : Z) (vs : list TileRustValue) (st' : CompState) (ps' : S) : Prop :=
  match vs with
  | [] => True
  | v :: vs =>
      (exists g, goals_of axis v g /\ axis_verdict v g st' ps') /\ axes_verdict (axis + 1) vs st' ps'
  end.

Lemma check_plain_axes_ok vs axis st ps st' ps' :
  Forall (fun t => 1 <= t <= I32_MAX) static_tile -> Forall adm_index vs -> state_wf st -> inv ps ->
  check_plain_axes self place partition static_tile static_shape dim_map dyn loc axis vs st ps
    = Ok (st', ps') ->
  step_ok st st' /\ inv ps' /\ (forall g' d', guarded ps g' d' -> guarded ps' g' d') /\
  axes_verdict axis vs st' ps'.
Proof.
  intros Htiles. revert axis st ps. induction vs as [|v vs IH]; intros axis st ps Hvs Hst Hinv H; cbn in *.
  - injection H as <- <-. by split_and!.
  - apply Forall_cons in Hvs as [Hv Hvs].
    apply bind_Ok in H as (g & Hg & H). apply bind_Ok in H as ([st1 ps1] & H1 & H). cbn in H.
    destruct (goals_of_spec _ _ _ Hg) as (_ & _ & _ & Ht & _).
    assert (1 <= tile g <= I32_MAX) as Hti.
    { unfold get in Ht. destruct (axis <? 0); [done|].
      apply list_elem_of_lookup_2 in Ht. rewrite Forall_forall in Htiles. by apply Htiles. }
    apply (check_plain_axis_ok axis v) in H1 as (S1 & I1 & G1 & D1); [|done..].
    apply IH in H as (S2 & I2 & G2 & D2); [|done|apply S1|done].
    split_and!; [by eapply step_ok_trans|done|auto| |done].
    exists g. split; [done|]. destruct D1 as [D1|(d & Hd & D1)]; [left|right; eauto].
    eapply discharged_later; [apply S2|done].
Qed.

Lemma axes_verdict_lookup axis vs st' ps' i v : axes_verdict axis vs st' ps' -> vs !! i = Some v ->
  exists g, goals_of (axis + Z.of_nat i) v g /\ axis_verdict v g st' ps'.
Proof.
  revert axis i. induction vs as [|w vs IH]; intros axis i H Hi; [by rewrite lookup_nil in Hi|].
  destruct H as [H1 H2]. destruct i as [|i]; cbn in Hi.
  - injection Hi as <-. by rewrite Z.add_0_r.
  - apply (IH (axis + 1)) in Hi; [|done]. by replace (axis + Z.of_nat (Datatypes.S i)) with (axis + 1 + Z.of_nat i) by lia.
Qed.

End plain.

(** The bounded family: the [Dim] bound to an axis by [with_bounds] counts
    that axis's tiles, so a coordinate it brands is within the axis. *)
Definition brand_world (ext : Z -> Z) (bound_axes : list DimOrigin) (axis : Z) (v : TileRustValue)
    (x : Z) : Prop :=
  forall o a t, get bound_axes axis = Some o -> index_origin v = Some o ->
    get dim_map axis = Some a -> get static_tile axis = Some t -> 0 <= x < ceil_div (ext a) t.

Definition bounded_safe (bound_axes : list DimOrigin) (axis : Z) (v : TileRustValue) (g : AxisGoals)
    (st' : CompState) : Prop :=
  forall rho, tile_counts_ok rho -> Forall (holds rho) (believed (assumptions self)) ->
    checks_hold rho (launch_checks st') -> grid_axiom rho -> forall ext x,
    partition_world self rho ext partition static_shape dim_map ->
    index_world self rho ext partition dim_map v x -> brand_world ext bound_axes axis v x ->
    access_safe (tile g) (ext (extent_axis g)) x.

Lemma check_bounded_axis_ok bound_axes axis v g loc o st st' : goals_of axis v g -> 1 <= tile g ->
  get bound_axes axis = Some o -> state_wf st ->
  check_bounded_axis self partition loc g o st = Ok st' ->
  step_ok st st' /\ bounded_safe bound_axes axis v g st'.
Proof.
  intros Hg Ht Ho Hst H. destruct (goals_of_spec _ _ _ Hg) as (_ & Hi & Hd & Hti & _).
  unfold check_bounded_axis, brand_of in H. rewrite Hi in H.
  destruct (index_origin v) as [o'|] eqn:Eo.
  { case_bool_decide; [|discriminate]. subst o'. injection H as <-. split; [by split|].
    intros rho _ _ _ _ ext x _ _ Hb. specialize (Hb o _ _ Ho Eo Hd Hti).
    split; [lia|]. apply ceil_div_bound; lia. }
  destruct (fold_static g) as [[[]|viol|]|] eqn:Ef; try discriminate.
  - injection H as <-. split; [by split|]. intros rho _ _ _ Hgr ext x Hpw Hiw _.
    by eapply fold_static_sound.
  - destruct (hoist_zero_coordinate_nonempty_extent self g partition st) as [[] st1] eqn:E; [|discriminate].
    injection H as <-.
    destruct (lowers_step _ _ _ _ _ Hst (zero_coordinate_lowers _ _ _ Hg) E) as [S1 D1].
    split; [done|]. intros rho H1 H2 H3 Hgr ext x Hpw Hiw _. by apply (D1 eq_refl rho H1 H2 H3).
Qed.

Lemma check_bounded_axes_ok loc bound_axes coords axis st st' :
  Forall (fun t => 1 <= t <= I32_MAX) static_tile -> state_wf st -> 0 <= axis ->
  (forall i c o, coords !! i = Some (c, o) -> get bound_axes (axis + Z.of_nat i) = Some o) ->
  check_bounded_axes self partition static_tile static_shape dim_map loc axis coords st = Ok st' ->
  step_ok st st' /\ forall i v o, coords !! i = Some (v, o) ->
    exists g, goals_of (axis + Z.of_nat i) v g /\ bounded_safe bound_axes (axis + Z.of_nat i) v g st'.
Proof.
  intros Htiles. revert axis st. induction coords as [|[v o] coords IH]; intros axis st Hst Hax Hb H; cbn in H.
  - injection H as <-. split; [by split|]. intros i v o Hi. by rewrite lookup_nil in Hi.
  - apply bind_Ok in H as (g & Hg & H). apply bind_Ok in H as (st1 & H1 & H).
    destruct (goals_of_spec _ _ _ Hg) as (_ & _ & _ & Ht & _).
    assert (1 <= tile g) as Hti.
    { unfold get in Ht. destruct (axis <? 0); [done|].
      apply list_elem_of_lookup_2 in Ht. rewrite Forall_forall in Htiles. by apply Htiles. }
    pose proof (Hb 0%nat v o eq_refl) as Ho. rewrite Z.add_0_r in Ho.
    apply (check_bounded_axis_ok bound_axes axis v) in H1 as [S1 D1]; [|done..].
    apply IH in H as [S2 D2]; [|apply S1|lia|].
    2: { intros i c o' Hi. specialize (Hb (Datatypes.S i) c o' Hi).
         by replace (axis + 1 + Z.of_nat i) with (axis + Z.of_nat (Datatypes.S i)) by lia. }
    split; [by eapply step_ok_trans|]. intros [|i] w o' Hi; cbn in Hi.
    + injection Hi as <- <-. rewrite Z.add_0_r. exists g. split; [done|].
      intros rho T B C. apply D1; auto. eapply checks_hold_prefix; [apply S2|done].
    + apply D2 in Hi. by replace (axis + Z.of_nat (Datatypes.S i)) with (axis + 1 + Z.of_nat i) by lia.
Qed.
End soundness.
