(* ===== verification/Placement.v ===== *)
(** * Residual placement (compiler/checks/placement.rs)

    A goal no proof source decided becomes a device check: an assert over a
    chain of integer instructions, emitted at the access or in the preheader
    of the outermost loop its operands dominate.  The model emits the actual
    instruction list (with the binary-operation builder's constant folding of
    compile_binary_op.rs and _function.rs), gives it a machine semantics, and
    the theorems relate passing the assert to the access it guards. *)

From S2P Require Import Prelude BTree Bounds Predicate ValueFacts Obligation Launch Goals.

(** ** Loop frames and hoist classification *)

(** [LoopFrame] (compiler/_value.rs); values and blocks are arena indices. *)
Record LoopFrame := mkLoopFrame {
  preheader_block : Z;
  body_block : Z;
  value_watermark : Z;
  induction_values : list Z;
  lf_lower : Z;
  lf_upper : Z;
  unit_step : bool;
  known_non_empty : bool;
  induction_range : option Bounds;
  has_early_exit : bool;
}.

Inductive HoistIndex :=
| HConst (min max : Z)
| HInvariant
| HInductionAffine (scale offset lower upper : Z).

Inductive Extreme := Strongest | Weakest.

Definition fits_i32 (b : Bounds) : bool := (I32_MIN <=? start b) && (end_ b <=? I32_MAX).

(** [bounds.filter(fits_i32)]. *)
Definition filter_i32 (b : option Bounds) : option Bounds := b ← b; if fits_i32 b then Some b else None.

(** The index as [scale * iv + offset] in the innermost induction variable. *)
Definition index_affine (innermost : LoopFrame) (index : TileRustValue) (value : Z) : option (Z * Z * Z) :=
  if bool_decide (value ∈ induction_values innermost) then Some (value, 1, 0)
  else
    t ← term index;
    r ← as_single_affine t;
    match (r : Atom * Z * Z) with
    | (Iv id, scale, offset) =>
        if bool_decide (id ∈ induction_values innermost) then Some (id, scale, offset) else None
    | _ => None
    end.

Definition affine_range (iv : Z) (scale offset : Z) (iv_range : Bounds) : option Bounds :=
  term_range (affine (Iv iv) scale offset)
    (fun a => match a with Iv id => if id =? iv then Some iv_range else None | _ => None end).

(** The [kind] of [classify_hoist] with the operands it depends on; [Err] is
    the reason the check stays in place. *)
Definition classify_index (innermost : LoopFrame) (index : TileRustValue)
    : outcome string (HoistIndex * list Z) :=
  match filter_i32 (bounds index) with
  | Some b => Ok (HConst (start b) (end_ b), [])
  | None =>
      match value index with
      | None => Err "index has no direct value"%string
      | Some value =>
          match index_affine innermost index value with
          | Some (iv_id, scale, offset) =>
              if negb (unit_step innermost)
              then Err "index depends on a non-unit-step induction variable"%string
              else if scale =? 0 then Err "degenerate affine index"%string
              else
                match filter_i32 (induction_range innermost ≫= affine_range iv_id scale offset) with
                | Some range => Ok (HConst (start range) (end_ range), [])
                | None =>
                    if negb ((scale =? 1) && (offset =? 0))
                    then Err "non-identity affine instance could overflow i32"%string
                    else Ok (HInductionAffine scale offset (lf_lower innermost) (lf_upper innermost),
                             [lf_upper innermost; lf_lower innermost])
                end
          | None =>
              if value <? value_watermark innermost then Ok (HInvariant, [value])
              else Err "index is computed inside the loop body"%string
          end
      end
  end.

(** The outward walk from frame [target]. *)
Fixpoint walk_outward (deps : list Z) (frames : list LoopFrame) (target : nat) : nat :=
  match target with
  | O => O
  | S t =>
      match frames !! S t, frames !! t with
      | Some inner, Some outer =>
          if (preheader_block inner =? body_block outer) && known_non_empty inner
             && negb (has_early_exit outer) && forallb (fun v => v <? value_watermark outer) deps
          then walk_outward deps frames t else S t
      | _, _ => S t
      end
  end.

Definition classify_operands (innermost : LoopFrame) (goals : AxisGoals)
    (dynamic_extent : option TileRustValue) (block_id : Z) : outcome string (HoistIndex * list Z) :=
  if negb (block_id =? body_block innermost) then Err "check sits inside a conditional block"%string
  else if has_early_exit innermost then Err "the loop body has an early exit (`continue`)"%string
  else
    deps ← (match dynamic_extent with
            | None => Ok []
            | Some shape_value =>
                match value shape_value with
                | Some v => Ok [v]
                | None => Err "dynamic shape operand has no direct value"%string
                end
            end);
    r ← classify_index innermost (index goals);
    Ok ((r : HoistIndex * list Z).1, (deps : list Z) ++ r.2).

Definition classify_hoist (self : FnCompiler) (goals : AxisGoals) (dynamic_extent : option TileRustValue)
    (block_id : Z) (frames : list LoopFrame) : option (LoopFrame * HoistIndex) * option string :=
  if negb (hoist_to_preheaders (check_opts self))
  then (None, Some "preheader hoisting disabled by the check policy"%string)
  else
    match last frames with
    | None => (None, None)
    | Some innermost =>
        match classify_operands innermost goals dynamic_extent block_id with
        | Ok (kind, deps) =>
            match frames !! walk_outward deps frames (length frames - 1) with
            | Some frame => (Some (frame, kind), None)
            | None => (None, None)
            end
        | Err why => (None, Some why)
        | Panic => (None, None)
        end
    end.

(** ** Emission *)

(** The instructions the residual checks are made of.  [res] is the value the
    instruction defines; [ty] is the operands' scalar type. *)
Inductive Inst :=
| IConst (res : Z) (ty : string) (c : Z)
| IBop (res : Z) (op : TileBinaryOp) (ty : string) (lhs rhs : Z)
| IAssert (cond : Z) (message : string).

(** What emission changes: the module's value arena and block bodies, and
    the placement statistics. *)
Record EmitState := mkEmitState {
  next_value : Z;
  blocks : gmap Z (list Inst);
  hoisted : Z;
  in_place : Z;
}.

Definition append_op (block : Z) (i : Inst) (es : EmitState) : EmitState :=
  mkEmitState (next_value es) (<[block := default [] (blocks es !! block) ++ [i]]> (blocks es))
    (hoisted es) (in_place es).

Definition alloc_value (es : EmitState) : Z * EmitState :=
  (next_value es, mkEmitState (next_value es + 1) (blocks es) (hoisted es) (in_place es)).

Definition EM (A : Type) : Type := EmitState -> outcome JITError (A * EmitState).
#[export] Instance EM_ret : MRet EM := fun A a es => Ok (a, es).
#[export] Instance EM_bind : MBind EM := fun A B f m es => r ← m es; f (r : A * EmitState).1 r.2.

(** A compiled value with the given facts and no provenance. *)
Definition compiled (v : Z) (ty : string) (facts : ScalarFacts) : TileRustValue :=
  mkTileRustValue (Some v) ty (sf_bounds facts) None None None None None None (sf_floor_div facts) (sf_term facts).

Definition compile_constant_from_exact_bounds (block : Z) (b : Bounds) (ty : string) (loc : SourceLocation)
    : EM TileRustValue := fun es =>
  if negb (is_exact b)
  then jit_error_result loc ("expected a compile-time constant, but got a value with bounds ["
         +:+ pretty (start b) +:+ ", " +:+ pretty (end_ b) +:+ "]")
  else
    let '(res, es) := alloc_value es in
    Ok (new_primitive res ty (Some b), append_op block (IConst res ty (start b)) es).

(** [compile_constant] at [i32]. *)
Definition compile_constant (block : Z) (x : Z) (loc : SourceLocation) : EM TileRustValue :=
  compile_constant_from_exact_bounds block (exact x) "i32" loc.

Definition is_comparison (op : TileBinaryOp) : bool :=
  match op with
  | TileBinaryOp.Eq | TileBinaryOp.Ne | TileBinaryOp.Lt | TileBinaryOp.Le | TileBinaryOp.Gt
  | TileBinaryOp.Ge => true
  | _ => false
  end.

(** [{:?}] of an operation. *)
Definition debug_op (op : TileBinaryOp) : string :=
  match op with
  | TileBinaryOp.Add => "Add" | TileBinaryOp.Sub => "Sub" | TileBinaryOp.Mul => "Mul"
  | TileBinaryOp.Div => "Div" | TileBinaryOp.CeilDiv => "CeilDiv" | TileBinaryOp.TrueDiv => "TrueDiv"
  | TileBinaryOp.Rem => "Rem" | TileBinaryOp.Eq => "Eq" | TileBinaryOp.Ne => "Ne"
  | TileBinaryOp.Lt => "Lt" | TileBinaryOp.Le => "Le" | TileBinaryOp.Gt => "Gt" | TileBinaryOp.Ge => "Ge"
  | TileBinaryOp.Min => "Min" | TileBinaryOp.Max => "Max" | TileBinaryOp.BitAnd => "BitAnd"
  | TileBinaryOp.BitOr => "BitOr" | TileBinaryOp.BitXor => "BitXor" | TileBinaryOp.Shl => "Shl"
  | TileBinaryOp.Shr => "Shr"
  end.

(** The result type when the caller names none. *)
Definition result_ty (op : TileBinaryOp) (ty : string) : string := if is_comparison op then "bool" else ty.

(** [compile_binary_op_from_values] on integer and boolean scalars, the only
    types the residual checks use: the operation is built (which allocates its
    result), then either replaced by a constant when the value facts fix it or
    appended to the block. *)
Definition compile_binary_op_from_values (block : Z) (lhs rhs : TileRustValue) (op : TileBinaryOp)
    (loc : SourceLocation) : EM TileRustValue := fun es =>
  if negb (bool_decide (rust_ty lhs = rust_ty rhs)) then
    jit_error_result loc ("binary `" +:+ debug_op op +:+ "` requires operands of the same type, but got `"
      +:+ rust_ty lhs +:+ "` and `" +:+ rust_ty rhs +:+ "`")
  else
    match value lhs, value rhs with
    | None, _ => jit_error_result loc "left-hand side of binary operation did not produce a value"
    | _, None => jit_error_result loc "right-hand side of binary operation did not produce a value"
    | Some l, Some r =>
        if bool_decide (op = TileBinaryOp.TrueDiv)
        then jit_error_result loc ("Unimplemented binary op " +:+ debug_op op)
        else
          let '(res, es) := alloc_value es in
          let return_ty := result_ty op (rust_ty lhs) in
          facts ←
            (match bounds lhs, bounds rhs with
             | Some _, Some _ => transfer op lhs rhs (int_value_domain return_ty)
             | _, _ => Ok (mkScalarFacts None (propagate_term op lhs rhs) (propagate_floor_div op lhs rhs))
             end);
          match sf_bounds facts with
          | Some b =>
              if is_exact b then compile_constant_from_exact_bounds block b return_ty loc es
              else Ok (compiled res return_ty facts, append_op block (IBop res op (rust_ty lhs) l r) es)
          | None => Ok (compiled res return_ty facts, append_op block (IBop res op (rust_ty lhs) l r) es)
          end
    end.

Definition affine_extreme_instance (check_block lower upper scale offset : Z) (extreme : Extreme)
    (index_ty : string) (loc : SourceLocation) : EM TileRustValue :=
  let at_last_iteration := eqb (0 <? scale) (match extreme with Strongest => true | Weakest => false end) in
  inst ←
    (if at_last_iteration then
       one ← compile_constant check_block 1 loc;
       compile_binary_op_from_values check_block (new_primitive upper index_ty None) one TileBinaryOp.Sub loc
     else mret (new_primitive lower index_ty None));
  inst ←
    (if negb (scale =? 1) then
       s ← compile_constant check_block (as_i32 scale) loc;
       compile_binary_op_from_values check_block inst s TileBinaryOp.Mul loc
     else mret inst);
  if negb (offset =? 0) then
    o ← compile_constant check_block (as_i32 offset) loc;
    compile_binary_op_from_values check_block inst o TileBinaryOp.Add loc
  else mret inst.

(** The lower goal decided statically, when it is. *)
Definition lower_static (self : FnCompiler) (goals : AxisGoals) (kind : option HoistIndex) : option Z :=
  if negb (discharge_proofs (check_opts self)) then None
  else
    match filter_i32 (bounds (index goals)) with
    | Some b => Some (start b)
    | None => match kind with Some (HConst min _) => Some min | _ => None end
    end.

(** The operand of the upper comparison. *)
Definition index_instance (check_block : Z) (goals : AxisGoals) (kind : option HoistIndex)
    (loc : SourceLocation) : EM TileRustValue :=
  match kind with
  | Some (HInductionAffine scale offset lower upper) =>
      affine_extreme_instance check_block lower upper scale offset Strongest (rust_ty (index goals)) loc
  | Some (HConst _ max) => compile_constant check_block max loc
  | Some HInvariant | None => mret (index goals)
  end.

(** [ceil_div(shape, tile)] as [shape / tile + min(shape % tile, 1)]. *)
Definition ceil_div_chain (check_block : Z) (shape tile : TileRustValue) (loc : SourceLocation)
    : EM TileRustValue :=
  quotient ← compile_binary_op_from_values check_block shape tile TileBinaryOp.Div loc;
  remainder ← compile_binary_op_from_values check_block shape tile TileBinaryOp.Rem loc;
  one ← compile_constant check_block 1 loc;
  carry ← compile_binary_op_from_values check_block remainder one TileBinaryOp.Min loc;
  compile_binary_op_from_values check_block quotient carry TileBinaryOp.Add loc.

(** The runtime lower guard, conjoined with the upper comparison. *)
Definition lower_guard (check_block : Z) (goals : AxisGoals) (kind : option HoistIndex)
    (upper_ok : TileRustValue) (loc : SourceLocation) : EM TileRustValue :=
  guard_operand ←
    (match kind with
     | Some (HInductionAffine scale offset lower upper) =>
         affine_extreme_instance check_block lower upper scale offset Weakest (rust_ty (index goals)) loc
     | _ => mret (index goals)
     end);
  zero ← compile_constant check_block 0 loc;
  lower_ok ← compile_binary_op_from_values check_block guard_operand zero TileBinaryOp.Ge loc;
  compile_binary_op_from_values check_block lower_ok upper_ok TileBinaryOp.BitAnd loc.

(** The vacuous-trip guard [upper <= lower || ok]. *)
Definition vacuous_guard (check_block lower upper : Z) (ok : TileRustValue) (loc : SourceLocation)
    : EM TileRustValue :=
  vacuous ← compile_binary_op_from_values check_block (new_primitive upper "i32" None)
              (new_primitive lower "i32" None) TileBinaryOp.Le loc;
  compile_binary_op_from_values check_block vacuous ok TileBinaryOp.BitOr loc.

(** The assert on the checked value. *)
Definition emit_assert (check_block : Z) (goals : AxisGoals) (needs_lower_guard : bool)
    (checked : TileRustValue) (loc : SourceLocation) : EM unit := fun es =>
  match value checked with
  | None => jit_error_result loc "failed to compile a binary expression operand"
  | Some v =>
      let shape_desc := match static_extent goals with Some e => pretty e | None => "?"%string end in
      let suffix := if needs_lower_guard then " or index < 0"%string else ""%string in
      Ok (tt, append_op check_block
        (IAssert v ("partition access out of bounds: dim " +:+ pretty (ag_axis goals)
           +:+ ", block index >= ceil(" +:+ shape_desc +:+ "/" +:+ pretty (tile goals) +:+ ")" +:+ suffix)) es)
  end.

(** The extent operand: the runtime one, or the static one as a constant. *)
Definition extent_operand (check_block : Z) (goals : AxisGoals) (dynamic_extent : option TileRustValue)
    (loc : SourceLocation) : EM TileRustValue :=
  match dynamic_extent with
  | Some shape_value => mret shape_value
  | None =>
      match static_extent goals with
      | Some extent => compile_constant check_block extent loc
      | None => fun _ => Panic
      end
  end.

(** The comparison chain. *)
Definition emit_condition (check_block : Z) (goals : AxisGoals) (dynamic_extent : option TileRustValue)
    (kind : option HoistIndex) (guard_bounds : option (Z * Z)) (needs_lower_guard : bool)
    (loc : SourceLocation) : EM TileRustValue :=
  tile_dim ← compile_constant check_block (tile goals) loc;
  instance ← index_instance check_block goals kind loc;
  shape ← extent_operand check_block goals dynamic_extent loc;
  num_tiles ← ceil_div_chain check_block shape tile_dim loc;
  ok ← compile_binary_op_from_values check_block instance num_tiles TileBinaryOp.Lt loc;
  ok ← (if needs_lower_guard then lower_guard check_block goals kind ok loc else mret ok);
  match guard_bounds with
  | Some (lower, upper) => vacuous_guard check_block lower upper ok loc
  | None => mret ok
  end.

Definition emit_check (check_block : Z) (goals : AxisGoals) (dynamic_extent : option TileRustValue)
    (kind : option HoistIndex) (guard_bounds : option (Z * Z)) (needs_lower_guard : bool)
    (loc : SourceLocation) : EM unit :=
  checked ← emit_condition check_block goals dynamic_extent kind guard_bounds needs_lower_guard loc;
  emit_assert check_block goals needs_lower_guard checked loc.

Definition count_placement (hoisted_ : bool) (es : EmitState) : EmitState :=
  if hoisted_ then mkEmitState (next_value es) (blocks es) (as_u32 (hoisted es + 1)) (in_place es)
  else mkEmitState (next_value es) (blocks es) (hoisted es) (as_u32 (in_place es + 1)).

(** [(check_block, guard_bounds, hoist_kind)]: the vacuous-trip guard is elided
    when the target loop is known to run. *)
Definition placement_site (hoist : option (LoopFrame * HoistIndex)) (block_id : Z)
    : Z * option (Z * Z) * option HoistIndex :=
  match hoist with
  | Some (frame, kind) =>
      (preheader_block frame,
       if negb (known_non_empty frame) then Some (lf_lower frame, lf_upper frame) else None, Some kind)
  | None => (block_id, None, None)
  end.

Definition place_residual_check (self : FnCompiler) (block_id : Z) (frames : list LoopFrame)
    (loc : SourceLocation) (goals : AxisGoals) (dynamic_extent : option TileRustValue)
    (es : EmitState) : outcome JITError EmitState :=
  let '(hoist, no_hoist_why) := classify_hoist self goals dynamic_extent block_id frames in
  let '(check_block, guard_bounds, kind) := placement_site hoist block_id in
  let lower := lower_static self goals kind in
  let axis := ag_axis goals in
  if match lower with Some min => min <? 0 | None => false end
  then jit_error_result loc ("partition access out of bounds: dim " +:+ pretty axis
         +:+ ", block index can be " +:+ pretty (default 0 lower) +:+ " (0 <= index is required)")
  else
    _ ← deny_residual_check self
          ("the bounds check for partition axis " +:+ pretty axis
             +:+ match no_hoist_why with Some why => " (" +:+ why +:+ ")" | None => ""%string end)
          ("For a loop counter, iterate `0..num_tiles(&partition, " +:+ pretty axis +:+ ")`, whose "
             +:+ "result carries the axis it counts (a hand-computed `n / TILE` is the "
             +:+ "same number but proves nothing); for an index from a different tensor, "
             +:+ "relate the extents with `preconditions = (dim(a, i) == dim(b, j),)`; "
             +:+ "a tile-block id cannot be proven against a partition's tile count "
             +:+ "today, since the launch grid counts CTA slabs rather than tiles")
          loc;
    let es := count_placement (bool_decide (is_Some hoist)) es in
    r ← emit_check check_block goals dynamic_extent kind guard_bounds
          (bool_decide (lower = None)) loc es;
    Ok (r : unit * EmitState).2.

(** ** What the emitted instructions do *)

Inductive Run := Done (env : Z -> Z) | Trapped | Stuck.

Definition define (env : Z -> Z) (r x : Z) : Z -> Z := fun v => if v =? r then x else env v.

(** One instruction on an environment of machine values; [Stuck] is an
    operation without a defined result. *)
Definition exec_inst (i : Inst) (env : Z -> Z) : Run :=
  match i with
  | IConst res ty c => Done (define env res (machine_value ty c))
  | IBop res op ty l r =>
      match eval_bop op (env l) (env r) with
      | Some v => Done (define env res (machine_value (result_ty op ty) v))
      | None => Stuck
      end
  | IAssert c _ => if env c =? 0 then Trapped else Done env
  end.

Fixpoint exec (is_ : list Inst) (env : Z -> Z) : Run :=
  match is_ with
  | [] => Done env
  | i :: is_ => match exec_inst i env with Done env => exec is_ env | r => r end
  end.

Definition body (es : EmitState) (b : Z) : list Inst := default [] (blocks es !! b).

(** Emission at [blk] appends [delta] there and touches nothing else. *)
Definition extends (blk : Z) (delta : list Inst) (es es' : EmitState) : Prop :=
  next_value es <= next_value es' /\
  forall b, body es' b = body es b ++ (if b =? blk then delta else []).

(** [v] holds [x] in [env], is allocated below [n], and its interval is true. *)
Definition sem (n : Z) (env : Z -> Z) (v : TileRustValue) (x : Z) : Prop :=
  (exists id, value v = Some id /\ id < n /\ env id = x) /\
  (forall b, bounds v = Some b -> bounds_wf b /\ contains b x).

Definition agree (n : Z) (env env' : Z -> Z) : Prop := forall v, v < n -> env' v = env v.

Definition stable (P : Z -> (Z -> Z) -> Prop) : Prop :=
  forall n n' env env', P n env -> n <= n' -> agree n env env' -> P n' env'.

(** [emits blk m P phi Q]: when [m] succeeds its result satisfies [phi], it
    appends to [blk] instructions that run to completion from any environment
    where [P] holds, keep every value already allocated, and establish [Q]. *)
Definition emits {A} (blk : Z) (m : EM A) (P : Z -> (Z -> Z) -> Prop) (phi : A -> Prop)
    (Q : A -> Z -> (Z -> Z) -> Prop) : Prop :=
  forall es a es', m es = Ok (a, es') -> phi a /\
  exists delta, extends blk delta es es' /\
    forall env, P (next_value es) env ->
    exists env', exec delta env = Done env' /\ agree (next_value es) env env' /\ Q a (next_value es') env'.

Definition emits_val (blk : Z) (m : EM TileRustValue) P (ty : string) (x : Z) : Prop :=
  emits blk m P (fun a => rust_ty a = ty) (fun a n env => sem n env a x).

Lemma exec_app is1 is2 env :
  exec (is1 ++ is2) env = match exec is1 env with Done env => exec is2 env | r => r end.
Proof. revert env. induction is1 as [|i is1 IH]; intros env; cbn; [done|]. by destruct (exec_inst i env). Qed.

Lemma sem_stable v x : stable (fun n env => sem n env v x).
Proof.
  intros n n' env env' [(id & Hv & Hid & Hx) Hb] Hn Ha. split; [|done].
  exists id. split_and!; [done|lia|]. by rewrite Ha.
Qed.

Lemma stable_and P Q : stable P -> stable Q -> stable (fun n env => P n env /\ Q n env).
Proof. intros HP HQ n n' env env' [H1 H2] Hn Ha. split; [by eapply HP|by eapply HQ]. Qed.

#[local] Hint Resolve sem_stable stable_and : core.

Lemma extends_refl blk es : extends blk [] es es.
Proof. split; [lia|]. intros b. by destruct (b =? blk); rewrite app_nil_r. Qed.

Lemma extends_trans blk d1 d2 es1 es2 es3 :
  extends blk d1 es1 es2 -> extends blk d2 es2 es3 -> extends blk (d1 ++ d2) es1 es3.
Proof.
  intros [N1 B1] [N2 B2]. split; [lia|]. intros b. rewrite B2, B1, <- app_assoc.
  by destruct (b =? blk); rewrite ?app_nil_r.
Qed.

Lemma agree_trans n n' env1 env2 env3 : n <= n' -> agree n env1 env2 -> agree n' env2 env3 -> agree n env1 env3.
Proof. intros Hn H1 H2 v Hv. rewrite H2 by lia. by apply H1. Qed.

Lemma emits_ret {A} blk (a : A) (P : Z -> (Z -> Z) -> Prop) (phi : A -> Prop) (Q : A -> Z -> (Z -> Z) -> Prop) :
  phi a -> (forall n env, P n env -> Q a n env) -> emits blk (mret a) P phi Q.
Proof.
  intros Hp HQ es b es' [= <- <-]. split; [done|]. exists []. split; [apply extends_refl|].
  intros env HP. exists env. split_and!; [done|by intros v|by apply HQ].
Qed.

Lemma emits_bind {A B} blk (m : EM A) (f : A -> EM B) P phi Q psi R :
  emits blk m P phi Q -> stable P ->
  (forall a, phi a -> emits blk (f a) (fun n env => P n env /\ Q a n env) psi R) ->
  emits blk (m ≫= f) P psi R.
Proof.
  intros Hm HP Hf es b es' H. unfold mbind, EM_bind in H. apply bind_Ok in H as ([a es1] & H1 & H2). cbn in H2.
  destruct (Hm _ _ _ H1) as (Ha & d1 & E1 & X1). destruct (Hf a Ha _ _ _ H2) as (Hb & d2 & E2 & X2).
  split; [done|]. exists (d1 ++ d2). split; [by eapply extends_trans|].
  intros env HPe. destruct (X1 env HPe) as (env1 & R1 & A1 & Q1).
  destruct (X2 env1) as (env2 & R2 & A2 & Q2).
  { split; [|done]. eapply HP; [exact HPe|apply E1|done]. }
  exists env2. rewrite exec_app, R1. split_and!; [done| |done]. eapply agree_trans; [apply E1|done|done].
Qed.

Lemma emits_weaken {A} blk (m : EM A) (P P' : Z -> (Z -> Z) -> Prop) phi Q :
  (forall n env, P' n env -> P n env) -> emits blk m P phi Q -> emits blk m P' phi Q.
Proof.
  intros HP Hm es a es' H. destruct (Hm _ _ _ H) as (Ha & d & E & X).
  split; [done|]. exists d. split; [done|]. intros env Hp. apply X, HP, Hp.
Qed.

Lemma define_same env r x : define env r x r = x.
Proof. unfold define. by rewrite Z.eqb_refl. Qed.

Lemma define_agree n env r x : n <= r -> agree n env (define env r x).
Proof. intros Hn v Hv. unfold define. destruct (Z.eqb_spec v r); [lia|done]. Qed.

Lemma body_append es blk i b :
  body (append_op blk i es) b = body es b ++ (if b =? blk then [i] else []).
Proof.
  unfold body, append_op. cbn [blocks]. destruct (Z.eqb_spec b blk) as [->|Hne].
  - by rewrite lookup_insert_eq.
  - rewrite lookup_insert_ne by done. by rewrite app_nil_r.
Qed.

(** Appending the instruction that defines a freshly allocated value. *)
Lemma extends_fresh es k blk i : 0 <= k ->
  extends blk [i] es (append_op blk i (mkEmitState (next_value es + k) (blocks es) (hoisted es) (in_place es))).
Proof. intros. split; [cbn; lia|]. intros b. by rewrite body_append. Qed.

Lemma emits_exact blk b ty loc (P : Z -> (Z -> Z) -> Prop) x :
  (forall n env, P n env -> bounds_wf b /\ contains b x /\ machine_value ty x = x) ->
  emits_val blk (compile_constant_from_exact_bounds blk b ty loc) P ty x.
Proof.
  intros HP es a es' H. unfold compile_constant_from_exact_bounds in H.
  destruct (is_exact b) eqn:Eb; [|discriminate]. cbn [negb] in H. injection H as <- <-.
  apply is_exact_spec in Eb. split; [done|]. exists [IConst (next_value es) ty (start b)].
  split; [by apply (extends_fresh es 1)|]. intros env HPe. destruct (HP _ _ HPe) as (Hw & Hc & Hm).
  assert (x = start b) as -> by (rewrite Eb in Hc; by apply contains_exact in Hc).
  cbn. rewrite Hm. eexists. split; [done|]. split; [apply define_agree; lia|]. split.
  - exists (next_value es). cbn. split_and!; [done|lia|apply define_same].
  - by intros b' [= <-].
Qed.

Lemma emits_constant blk c loc P : in_i32 c -> emits_val blk (compile_constant blk c loc) P "i32" c.
Proof.
  intros Hc. apply emits_exact. intros _ _ _. split_and!; [|by apply contains_exact|by apply as_i32_id].
  unfold bounds_wf; cbn. unfold in_i32, in_i64, I32_MIN, I32_MAX, I64_MIN, I64_MAX in *. lia.
Qed.

(** A machine operation on values the emitted code holds. *)
Lemma emits_bop blk l r op loc P ty x y v :
  rust_ty l = ty -> eval_bop op x y = Some v ->
  (forall n env, P n env -> sem n env l x /\ sem n env r y) ->
  emits_val blk (compile_binary_op_from_values blk l r op loc) P (result_ty op ty)
    (machine_value (result_ty op ty) v).
Proof.
  intros Hty Hv Hs es a es' H. unfold compile_binary_op_from_values in H.
  destruct (negb _); [discriminate|].
  destruct (value l) as [li|] eqn:Hl; [|discriminate]. destruct (value r) as [ri|] eqn:Hr; [|discriminate].
  destruct (bool_decide _); [discriminate|]. unfold alloc_value in H. rewrite Hty in H.
  apply bind_Ok in H as (facts & Hf & H). set (rt := result_ty op ty) in *.
  assert (Hfb : forall n env b, P n env -> sf_bounds facts = Some b ->
    bounds_wf b /\ contains b v /\ machine_value rt v = v).
  { intros n env b HPe Hb. destruct (Hs _ _ HPe) as [[_ Hlb] [_ Hrb]].
    destruct (bounds l) as [bl|] eqn:El; [destruct (bounds r) as [br|] eqn:Er|].
    - eapply (transfer_sound op l r rt facts b x y v); [by rewrite El|by rewrite Er|done..].
    - by injection Hf as <-.
    - by injection Hf as <-. }
  assert (Happ : (compiled (next_value es) rt facts,
      append_op blk (IBop (next_value es) op ty li ri)
        (mkEmitState (next_value es + 1) (blocks es) (hoisted es) (in_place es))) = (a, es') ->
    rust_ty a = rt /\ exists delta, extends blk delta es es' /\ forall env, P (next_value es) env ->
      exists env', exec delta env = Done env' /\ agree (next_value es) env env' /\
        sem (next_value es') env' a (machine_value rt v)).
  { intros [= <- <-]. split; [done|]. eexists. split; [by apply (extends_fresh es 1)|].
    intros env HPe. destruct (Hs _ _ HPe) as [[(li' & Hl' & _ & Hlx) _] [(ri' & Hr' & _ & Hrx) _]].
    simplify_eq. cbn. rewrite Hv. eexists. split; [done|]. split; [apply define_agree; lia|]. split.
    - exists (next_value es). cbn. split_and!; [done|lia|]. apply define_same.
    - cbn. intros b Hb. destruct (Hfb _ _ b HPe Hb) as (W & C & M). by rewrite M. }
  destruct (sf_bounds facts) as [b|] eqn:Eb; [destruct (is_exact b) eqn:Ex|].
  - set (es1 := mkEmitState _ _ _ _) in H.
    destruct (emits_exact blk b rt loc (fun _ env => P (next_value es) env) v
                (fun n env HPe => Hfb _ _ b HPe eq_refl) es1 a es' H) as (Ht & d & [N B] & X).
    split; [done|]. exists d. split; [split; [cbn in *; lia|done]|].
    intros env HPe. destruct (Hfb _ _ b HPe eq_refl) as (_ & _ & M). rewrite M.
    destruct (X env HPe) as (env' & R & A & S). exists env'. split_and!; [done| |done].
    intros w Hw. apply A. cbn. lia.
  - apply Happ. by injection H as <- <-.
  - apply Happ. by injection H as <- <-.
Qed.

(** Sequencing after a step that yields a value. *)
Lemma emits_val_bind {B} blk m (f : TileRustValue -> EM B) P ty x psi R :
  emits_val blk m P ty x -> stable P ->
  (forall a, rust_ty a = ty -> emits blk (f a) (fun n env => P n env /\ sem n env a x) psi R) ->
  emits blk (m ≫= f) P psi R.
Proof. intros Hm HP Hf. by eapply emits_bind. Qed.

(** An [i32] operation that does not overflow. *)
Lemma emits_i32 blk l r op loc P x y v :
  rust_ty l = "i32"%string -> is_comparison op = false -> eval_bop op x y = Some v -> in_i32 v ->
  (forall n env, P n env -> sem n env l x /\ sem n env r y) ->
  emits_val blk (compile_binary_op_from_values blk l r op loc) P "i32" v.
Proof.
  intros Hty Hop Hv Hi Hs. pose proof (emits_bop blk l r op loc P "i32" x y v Hty Hv Hs) as H.
  unfold result_ty in H. rewrite Hop in H. by rewrite (as_i32_id v Hi : machine_value "i32" v = v) in H.
Qed.

(** A comparison, or a conjunction or disjunction of booleans. *)
Lemma emits_bool blk l r op loc P ty x y c :
  rust_ty l = ty -> result_ty op ty = "bool"%string -> eval_bop op x y = Some (bool_as c) ->
  (forall n env, P n env -> sem n env l x /\ sem n env r y) ->
  emits_val blk (compile_binary_op_from_values blk l r op loc) P "bool" (bool_as c).
Proof.
  intros Hty Hop Hv Hs. pose proof (emits_bop blk l r op loc P ty x y _ Hty Hv Hs) as H.
  rewrite Hop in H. by replace (machine_value "bool" (bool_as c)) with (bool_as c) in H by (by destruct c).
Qed.

(** Discharge [emits] side conditions from the conjunction of known values. *)
Ltac known := let n := fresh in let e := fresh in let H := fresh in intros n e H; tauto.

Lemma emits_mismatch blk l r op loc P phi Q : rust_ty l <> rust_ty r ->
  emits blk (compile_binary_op_from_values blk l r op loc) P phi Q.
Proof.
  intros Hne es a es' H. unfold compile_binary_op_from_values in H.
  rewrite bool_decide_eq_false_2 in H by done. discriminate.
Qed.

(** ** The emitted condition is the specified one *)

Lemma ceil_chain_math e t : 0 <= e -> 1 <= t -> Z.quot e t + Z.min (Z.rem e t) 1 = ceil_div e t.
Proof.
  intros He Ht. rewrite Z.quot_div_nonneg, Z.rem_mod_nonneg by lia. unfold ceil_div.
  pose proof (Z.div_mod e t ltac:(lia)). pose proof (Z.mod_pos_bound e t ltac:(lia)).
  pose proof (Z.div_mod (- e) t ltac:(lia)). pose proof (Z.mod_pos_bound (- e) t ltac:(lia)).
  destruct (Z.eq_dec (e mod t) 0) as [E|E]; [rewrite E, Z.min_l by lia | rewrite Z.min_r by lia]; nia.
Qed.

Lemma quot_bounds e t : 0 <= e <= I32_MAX -> 1 <= t ->
  0 <= Z.quot e t <= I32_MAX /\ 0 <= Z.rem e t <= I32_MAX /\ 0 <= ceil_div e t <= I32_MAX.
Proof.
  intros He Ht. rewrite <- ceil_chain_math by lia.
  pose proof (Z.quot_rem e t ltac:(lia)). pose proof (Z.rem_bound_pos e t ltac:(lia) ltac:(lia)).
  pose proof (Z.quot_pos e t ltac:(lia) ltac:(lia)).
  assert (Z.quot e t <= t * Z.quot e t) by nia. lia.
Qed.

Lemma emits_ceil_div blk shape td loc P e t : 0 <= e <= I32_MAX -> 1 <= t <= I32_MAX ->
  rust_ty td = "i32"%string -> stable P ->
  (forall n env, P n env -> sem n env shape e /\ sem n env td t) ->
  emits_val blk (ceil_div_chain blk shape td loc) P "i32" (ceil_div e t).
Proof.
  intros He Ht Htd HP Hs. pose proof (quot_bounds e t He ltac:(lia)) as (Q & R & C).
  unfold ceil_div_chain. destruct (decide (rust_ty shape = "i32"%string)) as [Hty|Hty].
  2: { eapply emits_bind; [apply (emits_mismatch _ _ _ _ _ _ (fun _ => False) (fun _ _ _ => False)); congruence|done|done]. }
  unfold in_i32 in *.
  eapply emits_val_bind; [apply (emits_i32 _ _ _ _ _ _ e t (Z.quot e t)); try done|done|].
  { cbn. by destruct (Z.eqb_spec t 0); [lia|]. } { unfold in_i32, I32_MIN; lia. }
  intros q Hq. eapply emits_val_bind; [apply (emits_i32 _ _ _ _ _ _ e t (Z.rem e t)); try done|auto|].
  { cbn. by destruct (Z.eqb_spec t 0); [lia|]. } { unfold in_i32, I32_MIN; lia. } { intros n env [H _]. auto. }
  intros rem Hrem. eapply emits_val_bind; [apply (emits_constant _ 1); by vm_compute|auto|].
  intros one Hone.
  eapply emits_val_bind; [apply (emits_i32 _ _ _ _ _ _ (Z.rem e t) 1 (Z.min (Z.rem e t) 1)); try done|auto|].
  { unfold in_i32, I32_MIN; lia. } { intros n env H; tauto. }
  intros carry Hcarry. apply (emits_i32 _ _ _ _ _ _ (Z.quot e t) (Z.min (Z.rem e t) 1)); try done.
  - cbn. f_equal. apply ceil_chain_math; lia.
  - unfold in_i32, I32_MIN; lia.
  - intros n env H; tauto.
Qed.

(** A value id holding [x]. *)
Definition holds_at (n : Z) (env : Z -> Z) (id x : Z) : Prop := id < n /\ env id = x.

Lemma sem_primitive n env id ty x : holds_at n env id x -> sem n env (new_primitive id ty None) x.
Proof. intros [H1 H2]. split; [|by intros b [=]]. by exists id. Qed.

Lemma holds_at_stable id x : stable (fun n env => holds_at n env id x).
Proof. intros n n' env env' [H1 H2] Hn Ha. split; [lia|]. by rewrite Ha. Qed.

(** The run-time values of the operands a check reads: the index [x], the
    extent [e], the classified loop's bounds [lo, up) and the emission loop's
    bounds [gl, gu). *)
Record operand_values := mkOperandValues { ov_x : Z; ov_e : Z; ov_lo : Z; ov_up : Z; ov_gl : Z; ov_gu : Z }.

Definition operands (goals : AxisGoals) (dyn : option TileRustValue) (kind : option HoistIndex)
    (guards : option (Z * Z)) (o : operand_values) (n : Z) (env : Z -> Z) : Prop :=
  match kind with
  | None | Some HInvariant => sem n env (index goals) (ov_x o)
  | Some (HInductionAffine _ _ l u) => holds_at n env l (ov_lo o) /\ holds_at n env u (ov_up o)
  | Some (HConst _ _) => True
  end /\
  match dyn with Some d => sem n env d (ov_e o) | None => static_extent goals = Some (ov_e o) end /\
  match guards with
  | Some (l, u) => holds_at n env l (ov_gl o) /\ holds_at n env u (ov_gu o)
  | None => True
  end.

Lemma operands_stable goals dyn kind guards o : stable (operands goals dyn kind guards o).
Proof.
  assert (forall Q : Prop, stable (fun _ _ => Q)) as Hc by (by intros Q n n' env env').
  apply stable_and; [|apply stable_and].
  - destruct kind as [[]|]; auto using holds_at_stable.
  - destruct dyn; auto.
  - destruct guards as [[]|]; auto using holds_at_stable.
Qed.

(** The instances the two goals test, and the verdict of the whole chain. *)
Definition strong (kind : option HoistIndex) (o : operand_values) : Z :=
  match kind with
  | Some (HInductionAffine _ _ _ _) => as_i32 (ov_up o - 1)
  | Some (HConst _ max) => max
  | _ => ov_x o
  end.
Definition weak (kind : option HoistIndex) (o : operand_values) : Z :=
  match kind with Some (HInductionAffine _ _ _ _) => ov_lo o | _ => ov_x o end.

Definition check_passes (kind : option HoistIndex) (guards : option (Z * Z)) (needs : bool) (t : Z)
    (o : operand_values) : bool :=
  match guards with Some _ => ov_gu o <=? ov_gl o | None => false end ||
  ((if needs then 0 <=? weak kind o else true) && (strong kind o <? ceil_div (ov_e o) t)).

(** The classifications placement acts on: constants are [i32], an affine
    index is the induction variable itself. *)
Definition kind_ok (kind : option HoistIndex) : Prop :=
  match kind with
  | Some (HConst min max) => in_i32 min /\ in_i32 max
  | Some (HInductionAffine scale offset _ _) => scale = 1 /\ offset = 0
  | _ => True
  end.

Lemma land_bool a b : Z.land (bool_as a) (bool_as b) = bool_as (a && b).
Proof. by destruct a, b. Qed.
Lemma lor_bool a b : Z.lor (bool_as a) (bool_as b) = bool_as (a || b).
Proof. by destruct a, b. Qed.

Section chain.
Context (blk : Z) (goals : AxisGoals) (dyn : option TileRustValue) (kind : option HoistIndex)
  (guards : option (Z * Z)) (o : operand_values) (loc : SourceLocation).
Context (Hkind : kind_ok kind) (He : 0 <= ov_e o <= I32_MAX) (Ht : 1 <= tile goals <= I32_MAX).

Lemma emits_instance P : stable P ->
  (forall n env, P n env -> operands goals dyn kind guards o n env) ->
  emits_val blk (index_instance blk goals kind loc) P
    (match kind with Some (HConst _ _) => "i32"%string | _ => rust_ty (index goals) end) (strong kind o).
Proof.
  intros HP Ho. destruct kind as [[min max| |scale offset l u]|]; cbn [index_instance strong].
  - apply emits_constant, Hkind.
  - apply emits_ret; [done|]. intros n env H. apply (Ho n env H).
  - destruct Hkind as [-> ->]. unfold affine_extreme_instance. cbn [eqb Z.ltb Z.compare Z.eqb negb].
    eapply emits_val_bind with (ty := rust_ty (index goals)) (x := as_i32 (ov_up o - 1)); [|done|].
    + eapply emits_val_bind; [apply (emits_constant _ 1); by vm_compute|done|]. intros one Hone.
      destruct (decide (rust_ty (index goals) = "i32"%string)) as [E|E]; [|apply emits_mismatch; cbn; congruence].
      rewrite E. eapply (emits_bop _ _ _ TileBinaryOp.Sub _ _ "i32" (ov_up o) 1 (ov_up o - 1)); [done|done|].
      intros n env [H1 H2]. split; [|done]. apply sem_primitive, (Ho n env H1).
    + intros a Ha. eapply emits_val_bind; [by apply (emits_ret _ a); [|intros n env [_ H]]|auto|].
      intros b Hb. apply emits_ret; [done|]. by intros n env [_ H].
  - apply emits_ret; [done|]. intros n env H. apply (Ho n env H).
Qed.
Lemma emits_lower_guard P up c : stable P -> rust_ty up = "bool"%string ->
  match kind with Some (HConst _ _) => False | _ => True end ->
  (forall n env, P n env -> operands goals dyn kind guards o n env /\ sem n env up (bool_as c)) ->
  emits_val blk (lower_guard blk goals kind up loc) P "bool" (bool_as ((0 <=? weak kind o) && c)).
Proof.
  intros HP Hup Hk Ho. unfold lower_guard.
  eapply emits_val_bind with (ty := rust_ty (index goals)) (x := weak kind o); [|done|].
  { destruct kind as [[min max| |scale offset l u]|]; [done| | |].
    - apply emits_ret; [done|]. intros n env H. apply (Ho n env H).
    - destruct Hkind as [-> ->]. change (emits_val blk (mret (new_primitive l (rust_ty (index goals)) None)) P
        (rust_ty (index goals)) (ov_lo o)).
      apply emits_ret; [done|]. intros n env H. apply sem_primitive, (Ho n env H).
    - apply emits_ret; [done|]. intros n env H. apply (Ho n env H). }
  intros g Hg. eapply emits_val_bind; [apply (emits_constant _ 0); by vm_compute|auto|]. intros zero Hzero.
  destruct (decide (rust_ty g = "i32"%string)) as [E|E].
  2: { eapply emits_bind; [apply (emits_mismatch _ _ _ _ _ _ (fun _ => False) (fun _ _ _ => False)); congruence|auto|done]. }
  eapply emits_val_bind; [eapply (emits_bool _ _ _ TileBinaryOp.Ge _ _ "i32" (weak kind o) 0); [done..|]|auto|].
  { intros n env H; tauto. }
  intros lo_ok Hlo. eapply (emits_bool _ _ _ TileBinaryOp.BitAnd _ _ "bool"); [done|done| |].
  - cbn. by rewrite land_bool.
  - intros n env [[[H _] _] H2]. split; [done|]. apply (Ho n env H).
Qed.

Lemma emits_vacuous P l u ok c : stable P -> guards = Some (l, u) -> rust_ty ok = "bool"%string ->
  (forall n env, P n env -> operands goals dyn kind guards o n env /\ sem n env ok (bool_as c)) ->
  emits_val blk (vacuous_guard blk l u ok loc) P "bool" (bool_as ((ov_gu o <=? ov_gl o) || c)).
Proof.
  intros HP Hg Hok Ho. unfold vacuous_guard.
  eapply emits_val_bind; [eapply (emits_bool _ _ _ TileBinaryOp.Le _ _ "i32" (ov_gu o) (ov_gl o)); [done..|]|done|].
  { intros n env H. destruct (Ho n env H) as [(_ & _ & Hgs) _]. rewrite Hg in Hgs.
    split; apply sem_primitive; tauto. }
  intros vac Hv. eapply (emits_bool _ _ _ TileBinaryOp.BitOr _ _ "bool"); [done|done| |].
  - cbn. by rewrite lor_bool.
  - intros n env [H H2]. split; [done|]. apply (Ho n env H).
Qed.

Lemma emits_extent P : stable P -> (forall n env, P n env -> operands goals dyn kind guards o n env) ->
  emits blk (extent_operand blk goals dyn loc) P (fun _ => True) (fun a n env => sem n env a (ov_e o)).
Proof.
  intros HP Ho. unfold extent_operand. destruct dyn as [d|].
  - apply emits_ret; [done|]. intros n env H. apply (Ho n env H).
  - destruct (static_extent goals) as [e|] eqn:Ee; [|by intros ???].
    intros es a es' H. destruct (decide (in_i32 e)) as [Hi|Hi].
    + destruct (emits_constant blk e loc P Hi es a es' H) as (_ & d & E & X).
      split; [done|]. exists d. split; [done|]. intros env HPe. destruct (Ho _ _ HPe) as (_ & Hs & _).
      rewrite Ee in Hs. injection Hs as ->. by apply X.
    + destruct (emits_exact blk (exact e) "i32" loc (fun _ _ => False) e ltac:(done) es a es' H) as (_ & d & E & X).
      split; [done|]. exists d. split; [done|]. intros env HPe. destruct (Ho _ _ HPe) as (_ & Hs & _).
      rewrite Ee in Hs. injection Hs as ->. exfalso. apply Hi. unfold in_i32, I32_MIN. lia.
Qed.

(** The chain computes exactly [check_passes]. *)
Lemma emits_condition needs :
  (needs = true -> match kind with Some (HConst _ _) => False | _ => True end) ->
  emits_val blk (emit_condition blk goals dyn kind guards needs loc) (operands goals dyn kind guards o)
    "bool" (bool_as (check_passes kind guards needs (tile goals) o)).
Proof.
  intros Hneeds. pose proof (operands_stable goals dyn kind guards o) as HP.
  unfold emit_condition, check_passes.
  eapply emits_val_bind; [apply (emits_constant _ (tile goals)); unfold in_i32, I32_MIN; lia|done|].
  intros td Htd. eapply emits_val_bind; [apply emits_instance; [auto|intros n env H; tauto]|auto|].
  intros inst Hinst. eapply emits_bind; [apply emits_extent; [auto|intros n env H; tauto]|auto|].
  intros shape _. eapply emits_val_bind; [apply (emits_ceil_div _ _ _ _ _ (ov_e o) (tile goals)); auto; intros n env H; tauto|auto|].
  intros nt Hnt.
  destruct (decide (rust_ty inst = "i32"%string)) as [E|E].
  2: { eapply emits_bind; [apply (emits_mismatch _ _ _ _ _ _ (fun _ => False) (fun _ _ _ => False)); congruence|auto|done]. }
  eapply emits_val_bind; [eapply (emits_bool _ _ _ TileBinaryOp.Lt _ _ "i32" (strong kind o) (ceil_div (ov_e o) (tile goals))); [done..|]|auto 10|].
  { intros n env H; tauto. }
  intros ok Hok.
  eapply emits_val_bind with (ty := "bool"%string)
    (x := bool_as ((if needs then 0 <=? weak kind o else true) && (strong kind o <? ceil_div (ov_e o) (tile goals)))); [|auto 10|].
  { destruct needs.
    - apply emits_lower_guard; [auto 10|done|by apply Hneeds|]. intros n env H; tauto.
    - apply emits_ret; [done|]. intros n env H. cbn [andb]. tauto. }
  intros ok' Hok'. destruct guards as [[l u]|] eqn:Eg.
  - apply emits_vacuous; [auto 12|done|done|]. intros n env H. rewrite Eg. tauto.
  - apply emits_ret; [done|]. intros n env H. cbn [orb]. tauto.
Qed.
End chain.

(** The assert passes exactly when the condition holds. *)
Lemma emit_check_spec blk goals dyn kind guards needs loc es es' :
  kind_ok kind -> 1 <= tile goals <= I32_MAX ->
  (needs = true -> match kind with Some (HConst _ _) => False | _ => True end) ->
  emit_check blk goals dyn kind guards needs loc es = Ok (tt, es') ->
  exists delta, extends blk delta es es' /\
    forall o env, 0 <= ov_e o <= I32_MAX -> operands goals dyn kind guards o (next_value es) env ->
      if check_passes kind guards needs (tile goals) o
      then exists env', exec delta env = Done env' /\ agree (next_value es) env env'
      else exec delta env = Trapped.
Proof.
  intros Hk Ht Hn H. unfold emit_check, mbind, EM_bind in H.
  apply bind_Ok in H as ([checked es1] & Hc & H). cbn in H. unfold emit_assert in H.
  destruct (value checked) as [v|] eqn:Ev; [|discriminate]. apply Ok_inj in H. injection H as <-.
  set (msg := _ +:+ _) in *.
  destruct (emits_condition blk goals dyn kind guards (mkOperandValues 0 0 0 0 0 0) loc Hk
              ltac:(cbn; unfold I32_MAX; lia) Ht needs Hn es checked es1 Hc) as (_ & delta & [N B] & _).
  exists (delta ++ [IAssert v msg]). split.
  { split; [exact N|]. intros b. rewrite body_append, B. rewrite <- app_assoc. by destruct (b =? blk). }
  intros o env He Ho.
  destruct (emits_condition blk goals dyn kind guards o loc Hk He Ht needs Hn es checked es1 Hc)
    as (_ & delta' & [N' B'] & X).
  assert (delta' = delta) as ->.
  { specialize (B blk). specialize (B' blk). rewrite Z.eqb_refl in B, B'. rewrite B in B'. by apply app_inv_head in B'. }
  destruct (X env Ho) as (env' & R & A & [(id & Hid & _ & Hx) _]). assert (id = v) as -> by congruence.
  rewrite exec_app, R. cbn. rewrite Hx. destruct (check_passes _ _ _ _ _); [|done]. by exists env'.
Qed.

(** ** Classification *)

Lemma walk_outward_spec deps frames target :
  walk_outward deps frames target = target \/
  exists f, frames !! walk_outward deps frames target = Some f /\
    Forall (fun v => v < value_watermark f) deps.
Proof.
  induction target as [|t IH]; cbn [walk_outward]; [by left|].
  destruct (frames !! S t) as [inner|]; [|by left]. destruct (frames !! t) as [outer|] eqn:Eo; [|by left].
  destruct (_ && forallb _ deps) eqn:Ec; [|by left]. right.
  destruct IH as [E|(f & Hf & Hd)]; [|by exists f]. rewrite E. exists outer. split; [done|].
  apply andb_true_iff in Ec as [_ Ec]. rewrite forallb_forall in Ec. apply Forall_forall.
  intros v Hv. apply Z.ltb_lt, Ec. by apply list_elem_of_In.
Qed.

Lemma last_lookup_length {A} (l : list A) x : last l = Some x -> l !! (length l - 1)%nat = Some x.
Proof. intros H. rewrite last_lookup in H. by replace (length l - 1)%nat with (pred (length l)) by lia. Qed.

(** A hoisted check: the classification, and a target frame every operand it
    reads dominates beyond the innermost preheader. *)
Lemma classify_hoist_spec self g d b frames f k why :
  classify_hoist self g d b frames = (Some (f, k), why) ->
  hoist_to_preheaders (check_opts self) = true /\
  exists inner deps, last frames = Some inner /\ classify_operands inner g d b = Ok (k, deps) /\
    f ∈ frames /\ (f = inner \/ Forall (fun v => v < value_watermark f) deps).
Proof.
  unfold classify_hoist. intros H. destruct (hoist_to_preheaders _); [|discriminate]. cbn [negb] in H. split; [done|].
  destruct (last frames) as [inner|] eqn:El; [|discriminate].
  destruct (classify_operands inner g d b) as [[k' deps]| |] eqn:Ec; try discriminate.
  destruct (frames !! walk_outward deps frames (length frames - 1)) as [f'|] eqn:Ef; [|discriminate].
  injection H as -> -> _. exists inner, deps. split_and!; [done|done|by apply list_elem_of_lookup_2 in Ef|].
  destruct (walk_outward_spec deps frames (length frames - 1)) as [E|(f'' & Hf & Hd)].
  - left. rewrite E, (last_lookup_length _ _ El) in Ef. congruence.
  - right. assert (f'' = f) as -> by congruence. done.
Qed.

Lemma classify_operands_deps inner g d b k deps : classify_operands inner g d b = Ok (k, deps) ->
  exists deps', classify_index inner (index g) = Ok (k, deps') /\
    (forall v, v ∈ deps' -> v ∈ deps) /\
    (forall sv id, d = Some sv -> value sv = Some id -> id ∈ deps).
Proof.
  unfold classify_operands. intros H. destruct (negb _); [discriminate|]. destruct (has_early_exit inner); [discriminate|].
  apply bind_Ok in H as (ds & Hd & H). apply bind_Ok in H as ([k' deps'] & Hc & H). injection H as <- <-. cbn.
  exists deps'. split_and!; [done|intros v Hv; apply elem_of_app; by right|].
  intros sv id -> Hid. rewrite Hid in Hd. injection Hd as <-. apply elem_of_app. left. left.
Qed.

(** ** The run-time situation of an access *)

(** [env0] is the state in which the placed check runs, [envA] the state at an
    access it guards ([target] is the loop whose preheader holds the check):
    values defined before the loop are unchanged, the access executes in some
    iteration, and the innermost induction variable ranges over its loop. *)
Record access_situation (frames : list LoopFrame) (target : option LoopFrame) (rho : Atom -> Z)
    (env0 envA : Z -> Z) : Prop := {
  as_visible v : match target with None => True | Some f => v < value_watermark f end -> envA v = env0 v;
  as_runs f : target = Some f -> env0 (lf_lower f) < env0 (lf_upper f);
  as_iv inner iv : last frames = Some inner -> iv ∈ induction_values inner ->
    envA iv = rho (Iv iv) /\ in_i32 (envA iv) /\ in_i32 (envA (lf_upper inner)) /\
    envA (lf_lower inner) <= envA iv < envA (lf_upper inner) /\
    forall r, induction_range inner = Some r -> contains r (envA iv);
}.

(** A compiled value whose register holds [x], with true facts. *)
Definition held (rho : Atom -> Z) (env : Z -> Z) (v : TileRustValue) (x : Z) : Prop :=
  (exists id, value v = Some id /\ env id = x) /\ facts_hold (2 ^ 32) rho v x.

Lemma congruent_i32_eq x y : in_i32 x -> in_i32 y -> (2 ^ 32 | x - y) -> x = y.
Proof. unfold in_i32, I32_MIN, I32_MAX. intros ? ? [q Hq]. change (2 ^ 32) with 4294967296 in Hq. lia. Qed.

Lemma as_single_affine_denote rho t a s o : as_single_affine t = Some (a, s, o) -> denote rho t = s * rho a + o.
Proof.
  unfold as_single_affine, denote. destruct (coeffs t) as [|[a' c] [|]]; try done. intros [= -> -> ->]. cbn. lia.
Qed.

Lemma filter_i32_Some b r : filter_i32 b = Some r -> b = Some r /\ I32_MIN <= start r /\ end_ r <= I32_MAX.
Proof.
  unfold filter_i32, fits_i32. intros H. apply bind_Some in H as (b' & -> & H).
  destruct (_ && _) eqn:E; [|done]. injection H as ->. apply andb_true_iff in E. split; [done|lia].
Qed.

(** The affine view of an index is true modulo [2^32]. *)
Lemma index_affine_spec frames target inner rho env0 envA idx id x iv s o :
  access_situation frames target rho env0 envA -> last frames = Some inner ->
  value idx = Some id -> held rho envA idx x -> index_affine inner idx id = Some (iv, s, o) ->
  iv ∈ induction_values inner /\ (2 ^ 32 | x - (s * envA iv + o)).
Proof.
  intros Hs Hl Hid [(id' & Hid' & Hx) [_ Hterm]] H. unfold index_affine in H. case_bool_decide as Ein.
  - injection H as <- <- <-. split; [done|]. assert (id' = id) as -> by congruence. rewrite Hx. exists 0. lia.
  - apply bind_Some in H as (t & Et & H). apply bind_Some in H as ([[a s'] o'] & Ea & H).
    destruct a as [| i | | | |]; try done. case_bool_decide as Ei; [|done]. injection H as <- <- <-. split; [done|].
    destruct (Hterm t Et) as [_ Hd]. rewrite (as_single_affine_denote rho _ _ _ _ Ea) in Hd.
    by rewrite (proj1 (as_iv _ _ _ _ _ Hs inner i Hl Ei)).
Qed.

Lemma affine_range_spec iv s o r range j :
  affine_range iv s o r = Some range -> contains r j -> contains range (s * j + o).
Proof.
  intros H Hj. unfold affine_range, term_range in H. destruct (range_loop_spec _ _ _ _ _ H) as [Hin _].
  specialize (Hin (fun _ => j)). unfold affine in *.
  destruct (s =? 0) eqn:Es; cbn in *.
  - destruct Hin as [H1 H2]; [constructor|]. unfold contains. apply Z.eqb_eq in Es. lia.
  - destruct Hin as [H1 H2].
    { constructor; [|constructor]. cbn. intros b. rewrite Z.eqb_refl. by intros [= <-]. }
    unfold contains. cbn in *. lia.
Qed.

(** What each classification promises about the index value at the access. *)
Definition kind_sound (inner : LoopFrame) (idx : TileRustValue) (x : Z) (envA : Z -> Z)
    (k : HoistIndex) (deps : list Z) : Prop :=
  match k with
  | HConst min max => min <= x <= max
  | HInvariant => exists id, value idx = Some id /\ id ∈ deps /\ id < value_watermark inner
  | HInductionAffine _ _ l u =>
      l = lf_lower inner /\ u = lf_upper inner /\ l ∈ deps /\ u ∈ deps /\
      envA l <= x < envA u /\ in_i32 (envA u)
  end.

Lemma range_loop_ordered atom_range lo hi l r : lo <= hi -> range_loop atom_range lo hi l = Some r ->
  start r <= end_ r.
Proof.
  revert lo hi. induction l as [|[a c] l IH]; intros lo hi Hle H; cbn [range_loop] in H.
  { by injection H as <-. }
  apply bind_Some in H as (b & Hb & H). apply bind_Some in H as (p & Hp & H). apply bind_Some in H as (q & Hq & H).
  destruct (if p <=? q then _ else _) as [alo ahi] eqn:Hpq.
  apply bind_Some in H as (lo' & Hlo & H). apply bind_Some in H as (hi' & Hhi & H).
  apply checked_i64_Some in Hlo as [-> ?], Hhi as [-> ?]. apply IH in H; [done|].
  destruct (Z.leb_spec p q); injection Hpq as <- <-; lia.
Qed.

Lemma classify_index_kind inner idx k deps : (forall b, bounds idx = Some b -> bounds_wf b) ->
  classify_index inner idx = Ok (k, deps) -> kind_ok (Some k).
Proof.
  intros Hbw H. unfold classify_index in H.
  destruct (filter_i32 (bounds idx)) as [b|] eqn:Eb.
  { injection H as <- _. apply filter_i32_Some in Eb as (Eb & H1 & H2). destruct (Hbw b Eb) as [Hle _].
    split; unfold in_i32; lia. }
  destruct (value idx) as [v|]; [|discriminate].
  destruct (index_affine inner idx v) as [[[iv s] o]|].
  - destruct (negb (unit_step inner)); [discriminate|]. destruct (s =? 0); [discriminate|].
    destruct (filter_i32 (induction_range inner ≫= affine_range iv s o)) as [range|] eqn:Er.
    + injection H as <- _. apply filter_i32_Some in Er as (Er & H1 & H2).
      apply bind_Some in Er as (r & _ & Er). unfold affine_range, term_range in Er.
      apply range_loop_ordered in Er; [|lia]. split; unfold in_i32; lia.
    + destruct (_ && _) eqn:E; [|discriminate]. injection H as <- _. apply andb_true_iff in E as [E1 E2]. cbn. lia.
  - destruct (_ <? _); [|discriminate]. by injection H as <- _.
Qed.

Lemma classify_index_sound frames target inner rho env0 envA idx x k deps :
  access_situation frames target rho env0 envA -> last frames = Some inner ->
  in_i32 x -> held rho envA idx x -> classify_index inner idx = Ok (k, deps) ->
  kind_sound inner idx x envA k deps.
Proof.
  intros Hs Hl Hx Hh H. unfold classify_index in H. pose proof Hh as [(id & Hid & Hidx) [Hb _]].
  destruct (filter_i32 (bounds idx)) as [b|] eqn:Eb.
  { injection H as <- <-. apply filter_i32_Some in Eb as (Eb & _). by destruct (Hb b Eb) as [_ Hc]. }
  rewrite Hid in H. destruct (index_affine inner idx id) as [[[iv s] o]|] eqn:Ea.
  2: { destruct (Z.ltb_spec id (value_watermark inner)); [|discriminate]. injection H as <- <-.
       exists id. split_and!; [done|left|done]. }
  destruct (index_affine_spec _ _ _ _ _ _ _ _ _ _ _ _ Hs Hl Hid Hh Ea) as [Hin Hdiv].
  destruct (as_iv _ _ _ _ _ Hs inner iv Hl Hin) as (_ & Hiv & Hup & Hrange & Hr).
  destruct (negb (unit_step inner)); [discriminate|]. destruct (s =? 0); [discriminate|].
  destruct (filter_i32 (induction_range inner ≫= affine_range iv s o)) as [range|] eqn:Er.
  - injection H as <- <-. apply filter_i32_Some in Er as (Er & H1 & H2). apply bind_Some in Er as (r & Hr' & Er).
    pose proof (affine_range_spec _ _ _ _ _ _ Er (Hr r Hr')) as Hc. unfold contains in Hc.
    cbn. rewrite (congruent_i32_eq x (s * envA iv + o)); [lia|done|unfold in_i32; lia|done].
  - destruct (_ && _) eqn:E; [|discriminate]. injection H as <- <-. apply andb_true_iff in E as [E1 E2].
    apply Z.eqb_eq in E1, E2. subst. replace (1 * envA iv + 0) with (envA iv) in Hdiv by lia.
    apply congruent_i32_eq in Hdiv as ->; [|done..]. cbn. rewrite !elem_of_cons. tauto.
Qed.

(** ** Placement is sound *)

(** The policies the compiler resolves hoist only with proofs on. *)
Definition policy_ok (co : CheckOptimizations) : Prop :=
  hoist_to_preheaders co = true -> discharge_proofs co = true.

(** The values a check may read were allocated before it is placed, and each
    loop's bounds (and a runtime extent) are defined before the loop. *)
Record operands_defined (frames : list LoopFrame) (goals : AxisGoals) (dyn : option TileRustValue)
    (n : Z) : Prop := {
  od_index id : value (index goals) = Some id -> id < n;
  od_index_bounds b : bounds (index goals) = Some b -> bounds_wf b;
  od_extent d id : dyn = Some d -> value d = Some id -> id < n;
  od_frames f : f ∈ frames -> lf_lower f < n /\ lf_upper f < n /\
    lf_lower f < value_watermark f /\ lf_upper f < value_watermark f;
  od_extent_outside inner d id : last frames = Some inner -> dyn = Some d -> value d = Some id ->
    id < value_watermark inner;
}.

(** Where the check was placed. *)
Definition placed_at (block_id : Z) (frames : list LoopFrame) (target : option LoopFrame) (blk : Z) : Prop :=
  match target with
  | None => blk = block_id
  | Some f => f ∈ frames /\ blk = preheader_block f
  end.

(** The instructions [delta] guard the access: started in the state before
    them they never get stuck, and if they complete the access is safe. *)
Definition guards_access (frames : list LoopFrame) (goals : AxisGoals) (dyn : option TileRustValue)
    (target : option LoopFrame) (delta : list Inst) : Prop :=
  forall rho env0 envA x e,
    access_situation frames target rho env0 envA -> in_i32 x -> 0 <= e <= I32_MAX ->
    held rho envA (index goals) x ->
    match dyn with Some d => held rho envA d e | None => static_extent goals = Some e end ->
    exec delta env0 <> Stuck /\
    forall env', exec delta env0 = Done env' -> access_safe (tile goals) e x.

Lemma extends_count blk delta h es es' : extends blk delta (count_placement h es) es' -> extends blk delta es es'.
Proof. by destruct h. Qed.

Lemma count_next h es : next_value (count_placement h es) = next_value es.
Proof. by destruct h. Qed.

(** The operands the chain reads hold, in the check's state, the values they
    have at the access. *)
Lemma operands_in_place frames rho env0 envA g d n x e : operands_defined frames g d n ->
  access_situation frames None rho env0 envA -> held rho envA (index g) x ->
  match d with Some d => held rho envA d e | None => static_extent g = Some e end ->
  operands g d None None (mkOperandValues x e 0 0 0 0) n env0.
Proof.
  intros Hd Hs [(id & Hid & Hx) [Hb _]] He. split_and!; [| |done].
  - split; [|done]. exists id. split_and!; [done|by eapply od_index|].
    by rewrite <- (as_visible _ _ _ _ _ Hs id I).
  - destruct d as [d|]; [|done]. destruct He as [(ie & Hie & Hex) [Heb _]]. split; [|done].
    exists ie. split_and!; [done|by eapply od_extent|]. by rewrite <- (as_visible _ _ _ _ _ Hs ie I).
Qed.

Lemma operands_hoisted frames rho env0 envA g d n x e inner f k deps b : operands_defined frames g d n ->
  access_situation frames (Some f) rho env0 envA -> last frames = Some inner -> in_i32 x ->
  classify_operands inner g d b = Ok (k, deps) -> f ∈ frames ->
  (f = inner \/ Forall (fun v => v < value_watermark f) deps) ->
  held rho envA (index g) x ->
  match d with Some d => held rho envA d e | None => static_extent g = Some e end ->
  operands g d (Some k) (if negb (known_non_empty f) then Some (lf_lower f, lf_upper f) else None)
    (mkOperandValues x e (envA (lf_lower inner)) (envA (lf_upper inner)) (env0 (lf_lower f)) (env0 (lf_upper f)))
    n env0 /\ kind_sound inner (index g) x envA k deps.
Proof.
  intros Hd Hs Hl Hx Hc Hf Hdom Hh He.
  destruct (classify_operands_deps _ _ _ _ _ _ Hc) as (deps' & Hci & Hsub & Hext).
  pose proof (classify_index_sound _ _ _ _ _ _ _ _ _ _ Hs Hl Hx Hh Hci) as Hk.
  assert (Hin : inner ∈ frames) by (apply last_lookup_length, list_elem_of_lookup_2 in Hl; done).
  assert (Hvis : forall v, v ∈ deps -> v < value_watermark inner -> envA v = env0 v).
  { intros v Hv Hlt. apply (as_visible _ _ _ _ _ Hs). destruct Hdom as [->|Hall]; [done|].
    rewrite Forall_forall in Hall. by apply Hall. }
  destruct (od_frames _ _ _ _ Hd inner Hin) as (L1 & L2 & L3 & L4).
  split; [|unfold kind_sound in *; destruct k; [done| |]; naive_solver].
  split_and!.
  - destruct k as [min max| |s o l u]; [done| |].
    + destruct Hk as (id & Hid & Hdep & Hw). destruct Hh as [(id' & Hid' & Hxx) [Hb _]].
      split; [|done]. exists id. split_and!; [done|by eapply od_index|]. cbn.
      rewrite <- (Hvis id) by auto. congruence.
    + destruct Hk as (-> & -> & Hdl & Hdu & _). split; (split; [done|]); symmetry; apply Hvis; auto.
  - destruct d as [d|]; [|done]. destruct He as [(ie & Hie & Hex) [Heb _]]. split; [|done].
    exists ie. split_and!; [done|by eapply od_extent|]. cbn.
    rewrite <- (Hvis ie); [done|by eapply Hext|by eapply od_extent_outside].
  - destruct (negb _); [|done]. destruct (od_frames _ _ _ _ Hd f Hf) as (F1 & F2 & _). done.
Qed.

(** A passed check makes the access safe. *)
Lemma passes_safe self g kind guards t e x o envA inner deps :
  1 <= t -> ov_e o = e -> ov_x o = x ->
  match guards with Some _ => ov_gl o < ov_gu o | None => True end ->
  match kind with
  | None => True
  | Some k => kind_sound inner (index g) x envA k deps /\ ov_lo o = envA (lf_lower inner) /\
      ov_up o = envA (lf_upper inner)
  end ->
  (forall b, bounds (index g) = Some b -> contains b x) -> in_i32 x ->
  match lower_static self g kind with Some min => 0 <= min | None => True end ->
  check_passes kind guards (bool_decide (lower_static self g kind = None)) t o = true ->
  access_safe t e x.
Proof.
  intros Ht He Hx Hg Hk Hb Hxi Hl Hc. unfold check_passes in Hc. rewrite He in Hc.
  assert (match guards with Some _ => ov_gu o <=? ov_gl o | None => false end = false) as Ev.
  { destruct guards; [apply Z.leb_gt; lia|done]. }
  rewrite Ev in Hc. cbn [orb] in Hc. apply andb_true_iff in Hc as [Hlow Hup]. apply Z.ltb_lt in Hup.
  split.
  - destruct (lower_static self g kind) as [min|] eqn:El.
    + unfold lower_static in El. destruct (discharge_proofs _); [|done]. cbn [negb] in El.
      destruct (filter_i32 (bounds (index g))) as [b|] eqn:Eb.
      * injection El as <-. apply filter_i32_Some in Eb as (Eb & _). specialize (Hb b Eb). unfold contains in Hb. lia.
      * destruct kind as [[mn mx| |]|]; try done. injection El as <-. destruct Hk as [Hk _]. cbn in Hk. lia.
    + rewrite bool_decide_eq_true_2 in Hlow by done. apply Z.leb_le in Hlow. unfold weak in Hlow.
      destruct kind as [[mn mx| |s oo l u]|]; [lia|lia| |lia].
      destruct Hk as ((-> & -> & _ & _ & Hr & _) & Hlo & _). lia.
  - apply ceil_div_bound; [done|]. unfold strong in Hup. destruct kind as [[mn mx| |s oo l u]|]; [| | |lia].
    + destruct Hk as [Hk _]. cbn in Hk. lia.
    + lia.
    + destruct Hk as ((-> & -> & _ & _ & Hr & Hu) & _ & Hupv). rewrite Hupv in Hup.
      rewrite as_i32_id in Hup by (unfold in_i32 in *; lia). lia.
Qed.

(** What a successful placement emitted. *)
Lemma place_inv self blk0 frames loc g d es es' :
  place_residual_check self blk0 frames loc g d es = Ok es' ->
  let hoist := (classify_hoist self g d blk0 frames).1 in
  let kind := snd <$> hoist in
  match lower_static self g kind with Some min => 0 <= min | None => True end /\
  emit_check (match hoist with Some (f, _) => preheader_block f | None => blk0 end) g d kind
    (match hoist with
     | Some (f, _) => if negb (known_non_empty f) then Some (lf_lower f, lf_upper f) else None
     | None => None
     end) (bool_decide (lower_static self g kind = None)) loc
    (count_placement (bool_decide (is_Some hoist)) es) = Ok (tt, es').
Proof.
  unfold place_residual_check. destruct (classify_hoist self g d blk0 frames) as [hoist why]. cbn [fst].
  destruct hoist as [[f k]|]; cbn [fmap option_fmap option_map snd placement_site].
  - destruct (lower_static self g (Some k)) as [mn|]; [destruct (Z.ltb_spec mn 0); [discriminate|]|].
    all: intros Hp; apply bind_Ok in Hp as ([] & _ & Hp); apply bind_Ok in Hp as ([[] es1] & He & Hp).
    all: by injection Hp as <-.
  - destruct (lower_static self g None) as [mn|]; [destruct (Z.ltb_spec mn 0); [discriminate|]|].
    all: intros Hp; apply bind_Ok in Hp as ([] & _ & Hp); apply bind_Ok in Hp as ([[] es1] & He & Hp).
    all: by injection Hp as <-.
Qed.

Lemma guard_not_const self g k : discharge_proofs (check_opts self) = true ->
  bool_decide (lower_static self g (Some k) = None) = true ->
  match Some k with Some (HConst _ _) => False | _ => True end.
Proof.
  intros Hp Hn. apply bool_decide_eq_true in Hn. unfold lower_static in Hn. rewrite Hp in Hn. cbn [negb] in Hn.
  destruct k; [|done..]. by destruct (filter_i32 _).
Qed.

Lemma place_guards_access self blk0 frames loc g d es es' :
  policy_ok (check_opts self) -> 1 <= tile g <= I32_MAX ->
  operands_defined frames g d (next_value es) ->
  place_residual_check self blk0 frames loc g d es = Ok es' ->
  exists blk delta target, extends blk delta es es' /\ placed_at blk0 frames target blk /\
    guards_access frames g d target delta.
Proof.
  intros Hpol Ht Hd H. apply place_inv in H as [Hlow He].
  destruct (classify_hoist self g d blk0 frames) as [[[f k]|] why] eqn:Ec; cbn [fst snd fmap option_fmap option_map] in *.
  - apply classify_hoist_spec in Ec as (Hh & inner & deps & Hl & Hco & Hf & Hdom).
    destruct (classify_operands_deps _ _ _ _ _ _ Hco) as (deps' & Hci & _).
    apply emit_check_spec in He as (delta & Hx & HX);
      [|by eapply classify_index_kind; [apply Hd|]|done|intros Hn; by eapply guard_not_const; [apply Hpol|]].
    apply extends_count in Hx. rewrite count_next in HX.
    exists (preheader_block f), delta, (Some f). split_and!; [done|done|].
    intros rho env0 envA x e Hs Hxi Hei Hhi Hhe.
    destruct (operands_hoisted _ _ _ _ _ _ _ _ _ _ _ _ _ _ Hd Hs Hl Hxi Hco Hf Hdom Hhi Hhe) as [Ho Hk].
    specialize ((fun H => HX _ env0 H Ho) Hei) as HR. destruct (check_passes _ _ _ _ _) eqn:Epass; [|by rewrite HR].
    destruct HR as (env' & -> & _). split; [done|]. intros _ _.
    refine (passes_safe self g (Some k) _ _ _ _ _ envA inner deps _ eq_refl eq_refl _ _ _ _ Hlow Epass);
      [lia| |by split_and!| |done].
    + destruct (negb _); [|done]. by apply (as_runs _ _ _ _ _ Hs).
    + intros b Hb. by apply (proj1 (proj2 Hhi)).
  - apply emit_check_spec in He as (delta & Hx & HX); [|done..].
    apply extends_count in Hx. rewrite count_next in HX.
    exists blk0, delta, None. split_and!; [done|done|].
    intros rho env0 envA x e Hs Hxi Hei Hhi Hhe.
    specialize ((fun H => HX _ env0 H (operands_in_place _ _ _ _ _ _ _ _ _ Hd Hs Hhi Hhe)) Hei) as HR.
    destruct (check_passes _ _ _ _ _) eqn:Epass; [|by rewrite HR].
    destruct HR as (env' & -> & _). split; [done|]. intros _ _.
    refine (passes_safe self g None None _ _ _ _ envA (mkLoopFrame 0 0 0 [] 0 0 true true None false) []
              _ eq_refl eq_refl I I _ _ Hlow Epass); [lia| |done].
    intros b Hb. by apply (proj1 (proj2 Hhi)).
Qed.

(** ** The plain ladder with this placer *)

Definition index_defined (n : Z) (v : TileRustValue) : Prop :=
  (forall id, value v = Some id -> id < n) /\ (forall b, bounds v = Some b -> bounds_wf b).

Definition extent_defined (frames : list LoopFrame) (n : Z) (d : TileRustValue) : Prop :=
  forall id, value d = Some id ->
    id < n /\ forall inner, last frames = Some inner -> id < value_watermark inner.

Definition frame_defined (n : Z) (f : LoopFrame) : Prop :=
  lf_lower f < n /\ lf_upper f < n /\ lf_lower f < value_watermark f /\ lf_upper f < value_watermark f.

(** A device check for the goal is among the emitted instructions. *)
Definition guarded (block_id : Z) (frames : list LoopFrame) (es : EmitState) (g : AxisGoals)
    (d : option TileRustValue) : Prop :=
  exists target blk pre delta post,
    body es blk = pre ++ delta ++ post /\ placed_at block_id frames target blk /\
    guards_access frames g d target delta.

Lemma guarded_mono block_id frames blk delta es es' g d : extends blk delta es es' ->
  guarded block_id frames es g d -> guarded block_id frames es' g d.
Proof.
  intros [_ B] (t & b & pre & dl & post & Hb & Hp & Hg).
  exists t, b, pre, dl, (post ++ if b =? blk then delta else []). split_and!; [|done|done].
  by rewrite B, Hb, <- !app_assoc.
Qed.

Lemma get_elem {A} (l : list A) i x : get l i = Some x -> x ∈ l.
Proof. unfold get. case_match; [done|]. apply list_elem_of_lookup_2. Qed.

Lemma resolve_dynamic_extent_elem g static_shape dyn loc v :
  resolve_dynamic_extent g static_shape dyn loc = Ok v -> v ∈ dyn.
Proof.
  unfold resolve_dynamic_extent. destruct (_ =? 0); [discriminate|].
  destruct (get dyn _) as [w|] eqn:E; [|discriminate]. intros [= <-]. by apply get_elem in E.
Qed.

(** The placer keeps the promise the plain ladder asks of it. *)
Lemma placer_guards self partition static_tile static_shape dim_map dyn loc block_id frames n :
  policy_ok (check_opts self) -> Forall (extent_defined frames n) dyn -> Forall (frame_defined n) frames ->
  forall axis v g d es es',
    goals_of self partition static_tile static_shape dim_map axis v g -> 1 <= tile g <= I32_MAX ->
    index_defined n v -> extent_source static_shape dyn loc g d -> n <= next_value es ->
    place_residual_check self block_id frames loc g d es = Ok es' ->
    n <= next_value es' /\ guarded block_id frames es' g d /\
    forall g' d', guarded block_id frames es g' d' -> guarded block_id frames es' g' d'.
Proof.
  intros Hpol Hdyn Hfr axis v g d es es' Hg Ht [Hv1 Hv2] Hsrc Hn H.
  destruct (goals_of_spec _ _ _ _ _ _ _ _ Hg) as (_ & Hi & _).
  rewrite Forall_forall in Hdyn. rewrite Forall_forall in Hfr.
  assert (Hext : forall w, d = Some w -> extent_defined frames n w).
  { intros w ->. unfold extent_source in Hsrc. destruct (static_extent g); [done|].
    destruct Hsrc as (w' & [= <-] & Hr). by apply Hdyn, (resolve_dynamic_extent_elem _ _ _ _ _ Hr). }
  assert (operands_defined frames g d (next_value es)) as Hd.
  { split.
    - intros id Hid. rewrite Hi in Hid. specialize (Hv1 id Hid). lia.
    - rewrite Hi. apply Hv2.
    - intros w id Hw Hid. destruct (Hext w Hw id Hid). lia.
    - intros f Hf. destruct (Hfr f Hf) as (A1 & A2 & A3 & A4). split_and!; lia.
    - intros inner w id Hl Hw Hid. by apply (Hext w Hw id Hid). }
  destruct (place_guards_access _ _ _ _ _ _ _ _ Hpol Ht Hd H) as (blk & delta & target & Hx & Hp & Hga).
  split_and!; [destruct Hx; lia| |by intros; eapply guarded_mono].
  destruct Hx as [_ B]. exists target, blk, (body es blk), delta, []. split_and!; [|done|done].
  by rewrite B, Z.eqb_refl, app_nil_r.
Qed.

Lemma from_env_policy f h : policy_ok (co_from_env f h).
Proof. unfold policy_ok, co_from_env. by destruct (bool_decide (f = _)). Qed.

(** ** Properties *)


(** The emitted chain is exactly the specified condition.  Run on any
    operand values, the check traps precisely when the emission loop runs and
    the tested instances violate a goal; [shape / tile + min(shape % tile, 1)]
    is the exact tile count for every non-negative [i32] extent, with no
    wrap-around anywhere in the chain, constant folding included. *)
Lemma residual_check_exact (self : FnCompiler) (block_id : Z) (frames : list LoopFrame)
    (loc : SourceLocation) (g : AxisGoals) (d : option TileRustValue) (es es' : EmitState)
    (Hpol : policy_ok (check_opts self)) (Ht : 1 <= tile g <= I32_MAX)
    (Hb : forall b, bounds (index g) = Some b -> bounds_wf b)
    (H : place_residual_check self block_id frames loc g d es = Ok es') :
  let '(blk, guards, kind) := placement_site (classify_hoist self g d block_id frames).1 block_id in
  exists delta, extends blk delta es es' /\
    forall o env, 0 <= ov_e o <= I32_MAX -> operands g d kind guards o (next_value es) env ->
      exec delta env <> Stuck /\
      (exec delta env = Trapped <->
       check_passes kind guards (bool_decide (lower_static self g kind = None)) (tile g) o = false).
Proof.
  apply place_inv in H as [_ He].
  destruct (classify_hoist self g d block_id frames) as [[[f k]|] why] eqn:Ec;
    cbn [fst snd fmap option_fmap option_map placement_site] in *.
  - apply classify_hoist_spec in Ec as (Hh & inner & deps & Hl & Hco & _).
    destruct (classify_operands_deps _ _ _ _ _ _ Hco) as (deps' & Hci & _).
    apply emit_check_spec in He as (delta & Hx & HX);
      [|by eapply classify_index_kind|done|intros Hn; by eapply guard_not_const; [apply Hpol|]].
    apply extends_count in Hx. rewrite count_next in HX. exists delta. split; [done|].
    intros o env Hoe Ho. specialize (HX o env Hoe Ho).
    destruct (check_passes _ _ _ _ _); [destruct HX as (env' & -> & _)|rewrite HX]; done.
  - apply emit_check_spec in He as (delta & Hx & HX); [|done..].
    apply extends_count in Hx. rewrite count_next in HX. exists delta. split; [done|].
    intros o env Hoe Ho. specialize (HX o env Hoe Ho).
    destruct (check_passes _ _ _ _ _); [destruct HX as (env' & -> & _)|rewrite HX]; done.
Qed.

(** A kernel with one loop [for j in lo..up] (values 3 and 4) over the tiles
    of a tensor whose extent is value 5, indexed by the loop variable. *)
Definition example_frame : LoopFrame := mkLoopFrame 1 2 10 [10] 3 4 true false None false.
Definition example_goals : AxisGoals := mkAxisGoals 0 0 64 None (new_primitive 10 "i32" None).
Definition example_extent : TileRustValue := new_primitive 5 "i32" None.
Definition example_emit : EmitState := mkEmitState 20 ∅ 0 0.
Definition example_env (lo up e j : Z) (v : Z) : Z :=
  if v =? 3 then lo else if v =? 4 then up else if v =? 5 then e else if v =? 10 then j else 0.

Definition placed (m : outcome JITError EmitState) : EmitState := match m with Ok es => es | _ => example_emit end.

Lemma example_situation lo up e j target : in_i32 j -> in_i32 up -> lo <= j < up ->
  match target with None => True | Some f => f = example_frame end ->
  access_situation [example_frame] target (fun _ => j) (example_env lo up e j) (example_env lo up e j).
Proof.
  intros Hj Hu Hr Ht. split; [done| |].
  - intros f ->. subst f. cbn. lia.
  - intros inner iv [= <-] Hiv. apply list_elem_of_singleton in Hiv as ->. cbn. split_and!; [done|done|done|lia|lia|intros r [=]].
Qed.


(** The hoisted check of the example, on the loop [0..3] over 100 elements:
    it tests the last iteration's tile [2] against [ceil(100 / 64) = 2] and
    traps before the loop. *)
Lemma residual_check_exact_witness :
  exists delta, exec delta (example_env 0 3 100 0) = Trapped.
Proof.
  pose proof (residual_check_exact example_compiler 2 [example_frame] SourceLocation_unknown example_goals
    (Some example_extent) example_emit
    (placed (place_residual_check example_compiler 2 [example_frame] SourceLocation_unknown example_goals
               (Some example_extent) example_emit))) as H.
  destruct H as (delta & _ & HX).
  - intros _. reflexivity.
  - cbn. unfold I32_MAX. lia.
  - discriminate.
  - vm_compute. reflexivity.
  - exists delta. refine (proj2 (proj2 (HX (mkOperandValues 0 100 0 3 0 3) (example_env 0 3 100 0) _ _)) _).
    + cbn. unfold I32_MAX. lia.
    + split; [split; split; reflexivity|]. split; [|split; split; reflexivity].
      split; [exists 5; split; [|split]; reflexivity|discriminate].
    + vm_compute. reflexivity.
Defined.

(** ** Two behaviours of hoisting worth knowing *)

(** A hoisted check over a statically ranged index tests the range's end, and
    an interval is an over-approximation: for [k + (3 - k)] over [0..4] the
    interval is [[0, 6]] while every iteration's index is [3].  Against four
    tiles every access is safe, yet the check traps before the loop. *)
Theorem hoisted_range_traps_early :
  let k := new_primitive 10 "i32" (Some (mkBounds 0 3)) in
  let three_minus_k := new_primitive 11 "i32" (Some (mkBounds 0 3)) in
  let frame := mkLoopFrame 1 2 10 [10] 3 4 true true (Some (mkBounds 0 3)) false in
  let goals := mkAxisGoals 0 0 1 None (new_primitive 12 "i32" (Some (mkBounds 0 6))) in
  let es' := placed (place_residual_check example_compiler 2 [frame] SourceLocation_unknown goals
                       (Some example_extent) example_emit) in
  (sf_bounds <$> transfer TileBinaryOp.Add k three_minus_k (int_value_domain "i32")) = Ok (Some (mkBounds 0 6)) /\
  (forall j, 0 <= j < 4 -> access_safe 1 4 (j + (3 - j))) /\
  exec (body es' 1) (example_env 0 4 4 0) = Trapped.
Proof. split; [reflexivity|]. split; [unfold access_safe; lia|]. vm_compute. reflexivity. Qed.

(** The classification tests a runtime extent against the watermark of the
    enclosing loops only: an extent defined inside the innermost body (value
    15, watermark 10) is still read by a check placed in its preheader. *)
Theorem hoisted_extent_not_dominating :
  let extent := new_primitive 15 "i32" None in
  let es' := placed (place_residual_check example_compiler 2 [example_frame] SourceLocation_unknown
                       example_goals (Some extent) example_emit) in
  value_watermark example_frame <= 15 /\
  exists i, body es' (preheader_block example_frame) !! i = Some (IBop 23 TileBinaryOp.Div "i32" 15 20).
Proof. split; [cbn; lia|]. exists 3%nat. vm_compute. reflexivity. Qed.
