(* ===== verification/AccessSafety.v ===== *)
(** * Partition accesses are in bounds, end to end

    Composes the compiler's ladders (Goals.v) with whoever enforces the
    collected launch checks.  The theorems are stated against the
    [LaunchEnforcer] interface; the host launcher of Launch.v is the instance
    the witnesses use. *)

From S2P Require Import Prelude BTree Bounds Predicate ValueFacts Obligation Launch Goals Placement.

(** The worlds a concrete launch is checked in: every root and view extent is
    [e], the grid is [(n, n, n)] and every block has id [b]. *)
Definition uniform_world (e n b : Z) (a : Atom) : Z :=
  match a with
  | Dim _ _ | ViewExtent _ _ => e
  | TileCount _ _ t => ceil_div e t
  | NumTileBlocks _ => n
  | TileBlockId _ | Iv _ => b
  end.

Definition uniform_launch (e n : Z) : HostLaunch := mkHostLaunch [[e]; [e]] [[e]; [e]] (n, n, n).

Lemma uniform_shape_at e p x v : shape_at [[e]; [e]] p x = Some v -> v = e.
Proof.
  unfold shape_at. intros H. apply bind_Some in H as (s & Hs & H). apply get_elem in Hs, H.
  rewrite !elem_of_cons, elem_of_nil in Hs.
  destruct Hs as [-> | [-> | []]]; by rewrite list_elem_of_singleton in H.
Qed.

Lemma uniform_observes e n b : 0 <= e -> host_observes (uniform_launch e n) (uniform_world e n b).
Proof.
  intros He a v. destruct a as [p x|i|k|k|p x|p x t]; cbn -[shape_at]; try done.
  - intros H. by apply uniform_shape_at in H.
  - repeat case_match; congruence.
  - intros H. by apply uniform_shape_at in H.
  - destruct (Z.ltb_spec t 1); [done|]. destruct (shape_at _ p x) as [w|] eqn:E; [|done].
    apply uniform_shape_at in E as ->. cbn. intros [= <-]. symmetry. apply quot_ceil; lia.
Qed.

Lemma uniform_tile_counts e n b : tile_counts_ok (uniform_world e n b).
Proof. intros p a t _. reflexivity. Qed.

Section access.
Context {L : Type} {accepts : L -> list LaunchCheck -> Prop} {observes : L -> (Atom -> Z) -> Prop}.

(** ** Properties *)

(** C1: the plain partition check is sound, end to end.  When the compiler
    finishes checking a partition access, every axis is safe ([0 <= i] and
    [i * tile < extent]) either on every launch the host accepts with the
    collected checks, for every coordinate value the compiler's facts are true
    of, or because the emitted instructions contain a device check for it, at
    the access or in a preheader, that completes only if the access is safe. *)
Theorem partition_access_sound (E : LaunchEnforcer L accepts observes) (self : FnCompiler)
    (partition : TileRustValue) (static_tile static_shape dim_map : list Z)
    (dyn vs : list TileRustValue) (loc : SourceLocation) (block_id : Z) (frames : list LoopFrame)
    (st : CompState) (es : EmitState) (st' : CompState) (es' : EmitState)
    (Hpol : policy_ok (check_opts self))
    (Htiles : Forall (fun t => 1 <= t <= I32_MAX) static_tile) (Hst : state_wf st)
    (Hvs : Forall (index_defined (next_value es)) vs)
    (Hdyn : Forall (extent_defined frames (next_value es)) dyn)
    (Hframes : Forall (frame_defined (next_value es)) frames)
    (Hc : compile_check_partition_access self (place_residual_check self block_id frames loc)
            partition static_tile static_shape dim_map dyn vs loc st es = Ok (st', es')) :
  state_wf st' /\ launch_checks st `prefix_of` launch_checks st' /\
  forall i v, vs !! i = Some v ->
  exists g, goals_of self partition static_tile static_shape dim_map (Z.of_nat i) v g /\
    ((exists d, extent_source static_shape dyn loc g d /\ guarded block_id frames es' g d) \/
     forall l rho cs ext x,
       launch_checks st' `prefix_of` cs -> Forall check_wf cs -> accepts l cs -> observes l rho ->
       tile_counts_ok rho -> grid_axiom rho -> Forall (holds rho) (believed (assumptions self)) ->
       partition_world self rho ext partition static_shape dim_map ->
       index_world self rho ext partition dim_map v x ->
       access_safe (tile g) (ext (extent_axis g)) x).
Proof.
  unfold compile_check_partition_access in Hc. destruct (_ || _); [discriminate|].
  pose proof (placer_guards self partition static_tile static_shape dim_map dyn loc block_id frames
                (next_value es) Hpol Hdyn Hframes) as Hplace.
  apply (check_plain_axes_ok self partition static_tile static_shape dim_map _ dyn loc
           (fun es' => next_value es <= next_value es') (index_defined (next_value es))
           (guarded block_id frames) Hplace) in Hc as ([Hw Hp] & _ & _ & Hv); [|done|done|done|lia].
  split_and!; [done|done|]. intros i v Hi.
  eapply axes_verdict_lookup in Hv as (g & Hg & Hd); [|exact Hi]. rewrite Z.add_0_l in Hg.
  exists g. split; [done|]. destruct Hd as [Hd|Hd]; [right|by left].
  intros l rho cs ext x Hpre Hcw Ha Ho Ht Hgr Hb Hpw Hiw.
  pose proof (launch_enforces l cs rho Ha Ho Hcw) as Hch.
  apply (Hd rho Ht Hb); [by eapply checks_hold_prefix|done..].
Qed.

End access.

(** A partition of the immutable parameter [y] with 64-element tiles, indexed
    by the block id. *)
Definition y_partition : TileRustValue :=
  mkTileRustValue (Some 9) "Partition" None None (Some "y"%string) None None None
    (Some [OfValue 5]) None None.

Definition block_id_index : TileRustValue := with_term (atom (TileBlockId 0)) (new_primitive 3 "i32" None).

Definition zero_index : TileRustValue := new_primitive 3 "i32" (Some (exact 0)).

Lemma y_partition_world e n b : 0 <= e ->
  partition_world example_compiler (uniform_world e n b) (fun _ => e) y_partition [-1] [0].
Proof.
  intros He. split; cbn; try done.
  - intros a e' H. apply get_elem in H. by rewrite list_elem_of_singleton in H.
  - intros axis a e' _. unfold declared_view_extent; cbn. intros H.
    apply bind_Some in H as (d & _ & H). destruct (d <? 0); [done|]. cbn in H.
    apply bind_Some in H as (p & _ & H). unfold get in H. cbn in H. by destruct (p <? 0).
  - intros t p a [= <-]. vm_compute (_ !! _). intros [= <-]. done.
Qed.

Lemma partition_access_sound_witness :
  access_safe (tile (mkAxisGoals 0 0 64 None block_id_index)) 128 1.
Proof.
  edestruct (partition_access_sound host_launch_enforcer example_compiler y_partition [64] [-1] [0]
            [] [block_id_index] SourceLocation_unknown 0 [] (mkCompState [] 0) (mkEmitState 10 ∅ 0 0))
    as (Hw & _ & H).
  - intros _. reflexivity.
  - repeat constructor; discriminate.
  - split; constructor.
  - constructor; [|constructor]. split; [intros id [= <-]; reflexivity | intros b [=]].
  - constructor.
  - constructor.
  - vm_compute. reflexivity.
  - destruct (H 0%nat block_id_index eq_refl) as (g & Hg & [(d & Hsrc & _)|Hsafe]);
      vm_compute in Hg; injection Hg as <-.
    + destruct Hsrc as (w & _ & Hr). vm_compute in Hr. discriminate Hr.
    +
      eapply (Hsafe (uniform_launch 128 2) (uniform_world 128 2 1) _ (fun _ => 128)).
      * reflexivity.
      * exact (proj1 Hw).
      * vm_compute. reflexivity.
      * apply uniform_observes. lia.
      * apply uniform_tile_counts.
      * intros k. cbn. unfold I32_MAX. lia.
      * constructor.
      * apply y_partition_world. lia.
      * split; cbn; [unfold in_i32, I32_MIN, I32_MAX; lia| |discriminate|discriminate].
        split; [discriminate|]. intros t [= <-]. split; [apply atom_wf | exists 0; reflexivity].
Defined.


(** the static fold is exact.  Against a statically known extent, a
    statically ranged index is accepted exactly when every value of its range
    is a safe coordinate; otherwise the reported violation is real. *)
Lemma fold_static_exact (g : AxisGoals) (b : Bounds) (e : Z)
    (Hb : bounds (index g) = Some b) (Hne : start b <= end_ b) (He : static_extent g = Some e)
    (Hpos : 0 <= e) (Ht : 1 <= tile g) :
  (fold_static g = Some (Ok tt) <-> forall x, contains b x -> access_safe (tile g) e x) /\
  (forall v, fold_static g = Some (Err v) ->
     sv_num_tiles v = ceil_div e (tile g) /\
     (~ access_safe (tile g) e (sv_min v) \/ ~ access_safe (tile g) e (sv_max v))) /\
  fold_static g <> Some Panic.
Proof.
  split_and!; [by apply fold_static_Ok_iff| |].
  - intros v. unfold fold_static. rewrite Hb, He. cbn. destruct (tile g =? 0); [done|].
    rewrite quot_ceil by lia. destruct (_ && _) eqn:E; [done|]. intros [= <-]. cbn. split; [done|].
    unfold access_safe. rewrite <- ceil_div_bound by done.
    apply andb_false_iff in E as [E|E]; [left|right; rewrite <- ceil_div_bound by done]; lia.
  - unfold fold_static. rewrite Hb, He. cbn. destruct (Z.eqb_spec (tile g) 0); [lia|]. by case_match.
Qed.

Lemma fold_static_exact_witness :
  fold_static (mkAxisGoals 0 0 64 (Some 100) (new_primitive 0 "i32" (Some (mkBounds 0 1)))) = Some (Ok tt) /\
  access_safe 64 100 1.
Proof.
  split; [reflexivity|].
  apply (fold_static_exact (mkAxisGoals 0 0 64 (Some 100) (new_primitive 0 "i32" (Some (mkBounds 0 1))))
           (mkBounds 0 1) 100); try reflexivity; cbn; try lia. unfold contains; cbn; lia.
Defined.
