(* ===== verification/Enums.v ===== *)
(** * Bytecode enums and opcodes (cutile-ir/src/bytecode/enums.rs, opcode.rs, error.rs)

    The frozen numeric assignments of the wire format: section ids, type,
    debug and attribute tags, function flags, version triples and opcodes.
    The theorems show that every assignment is injective and fits its field,
    so a tag read back determines what was written, and that versions are
    totally ordered. *)

From S2P Require Import Prelude.

(** ** Errors (error.rs) *)

Inductive Error :=
| BytecodeWrite (msg : string)
| Verification (msg : string)
| Builder (msg : string).

#[export] Instance Error_eq_dec : EqDecision Error.
Proof. solve_decision. Defined.

(** ** Constants *)

Definition ALIGNMENT_BYTE : Z := 0xCB.
Definition MAGIC : list Z := [0x7F; 84; 105; 108; 101; 73; 82; 0x00].
Definition NUM_SECTIONS : Z := 0x08.

(** ** Section ids *)

Module Section_.
Inductive t := EndOfBytecode | String | Func | Debug | Constant | Type_ | Global | Producer.
#[export] Instance eq_dec : EqDecision t.
Proof. solve_decision. Defined.
Definition as_u8 (s : t) : Z :=
  match s with
  | EndOfBytecode => 0x00
  | String => 0x01
  | Func => 0x02
  | Debug => 0x03
  | Constant => 0x04
  | Type_ => 0x05
  | Global => 0x06
  | Producer => 0x07
  end.
Definition all : list t := [EndOfBytecode; String; Func; Debug; Constant; Type_; Global; Producer].
End Section_.
Export (hints) Section_.
Abbreviation Section_t := Section_.t.

(** ** Type tags *)
Module TypeTag.
Inductive t :=
| I1
| I8
| I16
| I32
| I64
| F16
| BF16
| F32
| TF32
| F64
| F8E4M3FN
| F8E5M2
| Pointer
| Tile
| TensorView
| PartitionView
| Func
| Token
| F8E8M0FNU
| F4E2M1FN
| GatherScatterView
| StridedView
| I4
| F8E5M3FNU.
#[export] Instance eq_dec : EqDecision t.
Proof. solve_decision. Defined.
Definition as_u8 (x : t) : Z :=
  match x with
  | I1 => 0
  | I8 => 1
  | I16 => 2
  | I32 => 3
  | I64 => 4
  | F16 => 5
  | BF16 => 6
  | F32 => 7
  | TF32 => 8
  | F64 => 9
  | F8E4M3FN => 10
  | F8E5M2 => 11
  | Pointer => 12
  | Tile => 13
  | TensorView => 14
  | PartitionView => 15
  | Func => 16
  | Token => 17
  | F8E8M0FNU => 18
  | F4E2M1FN => 19
  | GatherScatterView => 20
  | StridedView => 21
  | I4 => 22
  | F8E5M3FNU => 0x82
  end.
Definition all : list t :=
  [I1; I8; I16; I32; I64; F16; BF16; F32; TF32; F64; F8E4M3FN; F8E5M2; Pointer; Tile; TensorView; PartitionView; Func; Token; F8E8M0FNU; F4E2M1FN; GatherScatterView; StridedView; I4; F8E5M3FNU].
End TypeTag.
Export (hints) TypeTag.

(** ** Debug tags *)
Module DebugTag.
Inductive t :=
| Unknown
| DICompileUnit
| DIFile
| DILexicalBlock
| DILoc
| DISubprogram
| CallSite.
#[export] Instance eq_dec : EqDecision t.
Proof. solve_decision. Defined.
Definition as_u8 (x : t) : Z :=
  match x with
  | Unknown => 0
  | DICompileUnit => 1
  | DIFile => 2
  | DILexicalBlock => 3
  | DILoc => 4
  | DISubprogram => 5
  | CallSite => 6
  end.
Definition all : list t :=
  [Unknown; DICompileUnit; DIFile; DILexicalBlock; DILoc; DISubprogram; CallSite].
End DebugTag.
Export (hints) DebugTag.

(** ** Function flags *)
Module FunctionFlag.
Inductive t :=
| VisibilityPrivate
| KindKernel
| HasOptimizationHints.
#[export] Instance eq_dec : EqDecision t.
Proof. solve_decision. Defined.
Definition as_u8 (x : t) : Z :=
  match x with
  | VisibilityPrivate => 0x01
  | KindKernel => 0x02
  | HasOptimizationHints => 0x04
  end.
Definition all : list t :=
  [VisibilityPrivate; KindKernel; HasOptimizationHints].
End FunctionFlag.
Export (hints) FunctionFlag.

(** ** Attribute tags *)
Module AttributeTag.
Inductive t :=
| Integer
| Float
| Bool
| Type_
| String
| Array
| DenseElements
| DivBy
| SameElements
| Dictionary
| OptimizationHints
| Bounded.
#[export] Instance eq_dec : EqDecision t.
Proof. solve_decision. Defined.
Definition as_u8 (x : t) : Z :=
  match x with
  | Integer => 1
  | Float => 2
  | Bool => 3
  | Type_ => 4
  | String => 5
  | Array => 6
  | DenseElements => 7
  | DivBy => 8
  | SameElements => 9
  | Dictionary => 10
  | OptimizationHints => 11
  | Bounded => 12
  end.
Definition all : list t :=
  [Integer; Float; Bool; Type_; String; Array; DenseElements; DivBy; SameElements; Dictionary; OptimizationHints; Bounded].
End AttributeTag.
Export (hints) AttributeTag.

(** ** Versions *)

Record BytecodeVersion := mkVersion { major : Z; minor : Z; tag : Z }.

#[export] Instance BytecodeVersion_eq_dec : EqDecision BytecodeVersion.
Proof. solve_decision. Defined.

Definition V13_2 : BytecodeVersion := mkVersion 13 2 0.
Definition V13_3 : BytecodeVersion := mkVersion 13 3 0.
Definition V13_4 : BytecodeVersion := mkVersion 13 4 0.
Definition CURRENT : BytecodeVersion := V13_4.
Definition MIN_SUPPORTED : BytecodeVersion := V13_2.
Definition SUPPORTED : list BytecodeVersion := [V13_2; V13_3; V13_4].

(** [Display]. *)
Definition show_version (v : BytecodeVersion) : string :=
  if negb (tag v =? 0)
  then pretty (major v) +:+ "." +:+ pretty (minor v) +:+ "." +:+ pretty (tag v)
  else pretty (major v) +:+ "." +:+ pretty (minor v).

(** [Ord::cmp]: lexicographic. *)
Definition version_cmp (a b : BytecodeVersion) : comparison :=
  match major a ?= major b with
  | Eq => match minor a ?= minor b with
          | Eq => tag a ?= tag b
          | c => c
          end
  | c => c
  end.

Definition version_lt (a b : BytecodeVersion) : bool :=
  match version_cmp a b with Lt => true | _ => false end.
Definition version_ge (a b : BytecodeVersion) : bool := negb (version_lt a b).

(** The fields have the widths they are serialized with: [u8], [u8], [u16]. *)
Definition version_wf (v : BytecodeVersion) : Prop :=
  0 <= major v < 2 ^ 8 /\ 0 <= minor v < 2 ^ 8 /\ 0 <= tag v < 2 ^ 16.

(** ** Opcodes (opcode.rs) *)

Module Opcode.

Inductive t :=
| AbsF | AbsI | AddF | AddI | AndI | Assert | Assume | AtomicCAS | AtomicRMW | Bitcast
| Break | Broadcast | Cat | Ceil | CmpF | CmpI | Constant | Continue | Cos | CosH
| DivF | DivI | Entry | Exp | Exp2 | ExtI | Extract | Floor | Fma | For
| FToF | FToI | GetGlobal | GetIndexSpaceShape | GetNumTileBlocks | GetTensorShape | GetTileBlockId | Global | If | IntToPtr
| Iota | IToF | JoinTokens | LoadPtrTko | LoadViewTko | Log | Log2 | Loop | MakePartitionView | MakeTensorView
| MakeToken | MaxF | MaxI | MinF | MinI | MmaF | MmaI | Module | MulF | MulhiI
| MulI | NegF | NegI | Offset | OrI | Permute | Pow | Print | PtrToInt | PtrToPtr
| Reduce | RemF | RemI | Reshape | Return | Rsqrt | Scan | Select | ShLI | ShRI
| Sin | SinH | Sqrt | StorePtrTko | StoreViewTko | SubF | SubI | Tan | TanH | TruncI
| XOrI | Yield | Atan2 | Pack | Unpack | Alloca | MmaFScaled | MakeGatherScatterView | MakeStridedView | AtomicRedViewTko
| Insert | GdcLaunchDependentsTko | GdcWaitTko | FPowI | MemoryFenceAliasTko.

#[export] Instance eq_dec : EqDecision t.
Proof. solve_decision. Defined.

Definition as_u16 (o : t) : Z :=
  match o with
  | AbsF => 0x00
  | AbsI => 0x01
  | AddF => 0x02
  | AddI => 0x03
  | AndI => 0x04
  | Assert => 0x05
  | Assume => 0x06
  | AtomicCAS => 0x07
  | AtomicRMW => 0x08
  | Bitcast => 0x09
  | Break => 0x0A
  | Broadcast => 0x0B
  | Cat => 0x0C
  | Ceil => 0x0D
  | CmpF => 0x0E
  | CmpI => 0x0F
  | Constant => 0x10
  | Continue => 0x11
  | Cos => 0x12
  | CosH => 0x13
  | DivF => 0x14
  | DivI => 0x15
  | Entry => 0x16
  | Exp => 0x17
  | Exp2 => 0x18
  | ExtI => 0x25
  | Extract => 0x26
  | Floor => 0x27
  | Fma => 0x28
  | For => 0x29
  | FToF => 0x2A
  | FToI => 0x2B
  | GetGlobal => 0x2C
  | GetIndexSpaceShape => 0x2D
  | GetNumTileBlocks => 0x2E
  | GetTensorShape => 0x2F
  | GetTileBlockId => 0x30
  | Global => 0x31
  | If => 0x32
  | IntToPtr => 0x33
  | Iota => 0x3A
  | IToF => 0x3B
  | JoinTokens => 0x3C
  | LoadPtrTko => 0x3D
  | LoadViewTko => 0x3E
  | Log => 0x3F
  | Log2 => 0x40
  | Loop => 0x41
  | MakePartitionView => 0x42
  | MakeTensorView => 0x43
  | MakeToken => 0x44
  | MaxF => 0x45
  | MaxI => 0x46
  | MinF => 0x47
  | MinI => 0x48
  | MmaF => 0x49
  | MmaI => 0x4A
  | Module => 0x4B
  | MulF => 0x4C
  | MulhiI => 0x4D
  | MulI => 0x4E
  | NegF => 0x4F
  | NegI => 0x50
  | Offset => 0x51
  | OrI => 0x52
  | Permute => 0x53
  | Pow => 0x54
  | Print => 0x55
  | PtrToInt => 0x56
  | PtrToPtr => 0x57
  | Reduce => 0x58
  | RemF => 0x59
  | RemI => 0x5A
  | Reshape => 0x5B
  | Return => 0x5C
  | Rsqrt => 0x5D
  | Scan => 0x5E
  | Select => 0x5F
  | ShLI => 0x60
  | ShRI => 0x61
  | Sin => 0x62
  | SinH => 0x63
  | Sqrt => 0x64
  | StorePtrTko => 0x65
  | StoreViewTko => 0x66
  | SubF => 0x67
  | SubI => 0x68
  | Tan => 0x69
  | TanH => 0x6A
  | TruncI => 0x6B
  | XOrI => 0x6C
  | Yield => 0x6D
  | Atan2 => 0x6E
  | Pack => 0x6F
  | Unpack => 0x70
  | Alloca => 0x71
  | MmaFScaled => 0x72
  | MakeGatherScatterView => 0x73
  | MakeStridedView => 0x74
  | AtomicRedViewTko => 0x75
  | Insert => 0x76
  | GdcLaunchDependentsTko => 0x77
  | GdcWaitTko => 0x78
  | FPowI => 0x79
  | MemoryFenceAliasTko => 0x7A
  end.

Definition name (o : t) : string :=
  match o with
  | AbsF => "absf"
  | AbsI => "absi"
  | AddF => "addf"
  | AddI => "addi"
  | AndI => "andi"
  | Assert => "assert"
  | Assume => "assume"
  | AtomicCAS => "atomic_cas_tko"
  | AtomicRMW => "atomic_rmw_tko"
  | Bitcast => "bitcast"
  | Break => "break"
  | Broadcast => "broadcast"
  | Cat => "cat"
  | Ceil => "ceil"
  | CmpF => "cmpf"
  | CmpI => "cmpi"
  | Constant => "constant"
  | Continue => "continue"
  | Cos => "cos"
  | CosH => "cosh"
  | DivF => "divf"
  | DivI => "divi"
  | Entry => "entry"
  | Exp => "exp"
  | Exp2 => "exp2"
  | ExtI => "exti"
  | Extract => "extract"
  | Floor => "floor"
  | Fma => "fma"
  | For => "for"
  | FToF => "ftof"
  | FToI => "ftoi"
  | GetGlobal => "get_global"
  | GetIndexSpaceShape => "get_index_space_shape"
  | GetNumTileBlocks => "get_num_tile_blocks"
  | GetTensorShape => "get_tensor_shape"
  | GetTileBlockId => "get_tile_block_id"
  | Global => "global"
  | If => "if"
  | IntToPtr => "int_to_ptr"
  | Iota => "iota"
  | IToF => "itof"
  | JoinTokens => "join_tokens"
  | LoadPtrTko => "load_ptr_tko"
  | LoadViewTko => "load_view_tko"
  | Log => "log"
  | Log2 => "log2"
  | Loop => "loop"
  | MakePartitionView => "make_partition_view"
  | MakeTensorView => "make_tensor_view"
  | MakeToken => "make_token"
  | MaxF => "maxf"
  | MaxI => "maxi"
  | MinF => "minf"
  | MinI => "mini"
  | MmaF => "mmaf"
  | MmaI => "mmai"
  | Module => "module"
  | MulF => "mulf"
  | MulhiI => "mulhii"
  | MulI => "muli"
  | NegF => "negf"
  | NegI => "negi"
  | Offset => "offset"
  | OrI => "ori"
  | Permute => "permute"
  | Pow => "pow"
  | Print => "print_tko"
  | PtrToInt => "ptr_to_int"
  | PtrToPtr => "ptr_to_ptr"
  | Reduce => "reduce"
  | RemF => "remf"
  | RemI => "remi"
  | Reshape => "reshape"
  | Return => "return"
  | Rsqrt => "rsqrt"
  | Scan => "scan"
  | Select => "select"
  | ShLI => "shli"
  | ShRI => "shri"
  | Sin => "sin"
  | SinH => "sinh"
  | Sqrt => "sqrt"
  | StorePtrTko => "store_ptr_tko"
  | StoreViewTko => "store_view_tko"
  | SubF => "subf"
  | SubI => "subi"
  | Tan => "tan"
  | TanH => "tanh"
  | TruncI => "trunci"
  | XOrI => "xori"
  | Yield => "yield"
  | Atan2 => "atan2"
  | Pack => "pack"
  | Unpack => "unpack"
  | Alloca => "alloca"
  | MmaFScaled => "mmaf_scaled"
  | MakeGatherScatterView => "make_gather_scatter_view"
  | MakeStridedView => "make_strided_view"
  | AtomicRedViewTko => "atomic_red_view_tko"
  | Insert => "insert"
  | GdcLaunchDependentsTko => "gdc_launch_dependents_tko"
  | GdcWaitTko => "gdc_wait_tko"
  | FPowI => "fpowi"
  | MemoryFenceAliasTko => "memory_fence_alias_tko"
  end.

(** The derived [Debug] rendering: the variant's name. *)
Definition debug (o : t) : string :=
  match o with
  | AbsF => "AbsF"
  | AbsI => "AbsI"
  | AddF => "AddF"
  | AddI => "AddI"
  | AndI => "AndI"
  | Assert => "Assert"
  | Assume => "Assume"
  | AtomicCAS => "AtomicCAS"
  | AtomicRMW => "AtomicRMW"
  | Bitcast => "Bitcast"
  | Break => "Break"
  | Broadcast => "Broadcast"
  | Cat => "Cat"
  | Ceil => "Ceil"
  | CmpF => "CmpF"
  | CmpI => "CmpI"
  | Constant => "Constant"
  | Continue => "Continue"
  | Cos => "Cos"
  | CosH => "CosH"
  | DivF => "DivF"
  | DivI => "DivI"
  | Entry => "Entry"
  | Exp => "Exp"
  | Exp2 => "Exp2"
  | ExtI => "ExtI"
  | Extract => "Extract"
  | Floor => "Floor"
  | Fma => "Fma"
  | For => "For"
  | FToF => "FToF"
  | FToI => "FToI"
  | GetGlobal => "GetGlobal"
  | GetIndexSpaceShape => "GetIndexSpaceShape"
  | GetNumTileBlocks => "GetNumTileBlocks"
  | GetTensorShape => "GetTensorShape"
  | GetTileBlockId => "GetTileBlockId"
  | Global => "Global"
  | If => "If"
  | IntToPtr => "IntToPtr"
  | Iota => "Iota"
  | IToF => "IToF"
  | JoinTokens => "JoinTokens"
  | LoadPtrTko => "LoadPtrTko"
  | LoadViewTko => "LoadViewTko"
  | Log => "Log"
  | Log2 => "Log2"
  | Loop => "Loop"
  | MakePartitionView => "MakePartitionView"
  | MakeTensorView => "MakeTensorView"
  | MakeToken => "MakeToken"
  | MaxF => "MaxF"
  | MaxI => "MaxI"
  | MinF => "MinF"
  | MinI => "MinI"
  | MmaF => "MmaF"
  | MmaI => "MmaI"
  | Module => "Module"
  | MulF => "MulF"
  | MulhiI => "MulhiI"
  | MulI => "MulI"
  | NegF => "NegF"
  | NegI => "NegI"
  | Offset => "Offset"
  | OrI => "OrI"
  | Permute => "Permute"
  | Pow => "Pow"
  | Print => "Print"
  | PtrToInt => "PtrToInt"
  | PtrToPtr => "PtrToPtr"
  | Reduce => "Reduce"
  | RemF => "RemF"
  | RemI => "RemI"
  | Reshape => "Reshape"
  | Return => "Return"
  | Rsqrt => "Rsqrt"
  | Scan => "Scan"
  | Select => "Select"
  | ShLI => "ShLI"
  | ShRI => "ShRI"
  | Sin => "Sin"
  | SinH => "SinH"
  | Sqrt => "Sqrt"
  | StorePtrTko => "StorePtrTko"
  | StoreViewTko => "StoreViewTko"
  | SubF => "SubF"
  | SubI => "SubI"
  | Tan => "Tan"
  | TanH => "TanH"
  | TruncI => "TruncI"
  | XOrI => "XOrI"
  | Yield => "Yield"
  | Atan2 => "Atan2"
  | Pack => "Pack"
  | Unpack => "Unpack"
  | Alloca => "Alloca"
  | MmaFScaled => "MmaFScaled"
  | MakeGatherScatterView => "MakeGatherScatterView"
  | MakeStridedView => "MakeStridedView"
  | AtomicRedViewTko => "AtomicRedViewTko"
  | Insert => "Insert"
  | GdcLaunchDependentsTko => "GdcLaunchDependentsTko"
  | GdcWaitTko => "GdcWaitTko"
  | FPowI => "FPowI"
  | MemoryFenceAliasTko => "MemoryFenceAliasTko"
  end.

Definition fixed_result_count (o : t) : option Z :=
  match o with
  | Break | Continue | Extract | For | GetIndexSpaceShape | GetTensorShape | If | JoinTokens
  | LoadViewTko | Loop | MakeTensorView | Print | Reduce | Return | Scan | StoreViewTko
  | Yield | Insert
      => None
  | Assert | Entry | Global | Module
      => Some 0
  | AtomicCAS | AtomicRMW | LoadPtrTko
      => Some 2
  | GetNumTileBlocks | GetTileBlockId
      => Some 3
  | _ => Some 1
  end.

Definition all : list t :=
  [AbsF; AbsI; AddF; AddI; AndI; Assert; Assume; AtomicCAS; AtomicRMW; Bitcast;
   Break; Broadcast; Cat; Ceil; CmpF; CmpI; Constant; Continue; Cos; CosH;
   DivF; DivI; Entry; Exp; Exp2; ExtI; Extract; Floor; Fma; For;
   FToF; FToI; GetGlobal; GetIndexSpaceShape; GetNumTileBlocks; GetTensorShape; GetTileBlockId; Global; If; IntToPtr;
   Iota; IToF; JoinTokens; LoadPtrTko; LoadViewTko; Log; Log2; Loop; MakePartitionView; MakeTensorView;
   MakeToken; MaxF; MaxI; MinF; MinI; MmaF; MmaI; Module; MulF; MulhiI;
   MulI; NegF; NegI; Offset; OrI; Permute; Pow; Print; PtrToInt; PtrToPtr;
   Reduce; RemF; RemI; Reshape; Return; Rsqrt; Scan; Select; ShLI; ShRI;
   Sin; SinH; Sqrt; StorePtrTko; StoreViewTko; SubF; SubI; Tan; TanH; TruncI;
   XOrI; Yield; Atan2; Pack; Unpack; Alloca; MmaFScaled; MakeGatherScatterView; MakeStridedView; AtomicRedViewTko;
   Insert; GdcLaunchDependentsTko; GdcWaitTko; FPowI; MemoryFenceAliasTko].
End Opcode.
Export (hints) Opcode.
Abbreviation Opcode := Opcode.t.

(** ** Injectivity *)

Lemma injective_on {A} (f : A -> Z) (l : list A) x y :
  NoDup (f <$> l) -> x ∈ l -> y ∈ l -> f x = f y -> x = y.
Proof.
  induction l as [|a l IH]; cbn; intros Hn Hx Hy He; [by apply not_elem_of_nil in Hx|].
  apply NoDup_cons in Hn as [Hni Hn]. rewrite elem_of_cons in Hx, Hy.
  assert (forall z, z ∈ l -> f z ∈ f <$> l) as Hin by (intros; by apply list_elem_of_fmap_2).
  destruct Hx as [->|Hx], Hy as [->|Hy]; [done| | |auto].
  - destruct Hni. rewrite He. auto.
  - destruct Hni. rewrite <- He. auto.
Qed.

Lemma injective_of_table {A} (f : A -> Z) (l : list A) :
  (forall x, x ∈ l) -> bool_decide (NoDup (f <$> l)) = true -> Inj (=) (=) f.
Proof. intros Hall Hn%bool_decide_eq_true x y He. by eapply injective_on. Qed.

Ltac in_table := intros x; apply list_elem_of_In; destruct x; cbn; tauto.

#[export] Instance section_inj : Inj (=) (=) Section_.as_u8.
Proof. apply (injective_of_table _ Section_.all); [in_table | vm_compute; reflexivity]. Qed.
#[export] Instance type_tag_inj : Inj (=) (=) TypeTag.as_u8.
Proof. apply (injective_of_table _ TypeTag.all); [in_table | vm_compute; reflexivity]. Qed.
#[export] Instance debug_tag_inj : Inj (=) (=) DebugTag.as_u8.
Proof. apply (injective_of_table _ DebugTag.all); [in_table | vm_compute; reflexivity]. Qed.
#[export] Instance attribute_tag_inj : Inj (=) (=) AttributeTag.as_u8.
Proof. apply (injective_of_table _ AttributeTag.all); [in_table | vm_compute; reflexivity]. Qed.
#[export] Instance opcode_inj : Inj (=) (=) Opcode.as_u16.
Proof. apply (injective_of_table _ Opcode.all); [in_table | vm_compute; reflexivity]. Qed.

Lemma opcode_name_inj : Inj (=) (=) Opcode.name.
Proof.
  assert (Hall : forall x, x ∈ Opcode.all) by in_table.
  assert (Hn : NoDup (Opcode.name <$> Opcode.all)) by (apply (bool_decide_eq_true_1 _); vm_compute; reflexivity).
  intros x y He. destruct (proj1 (list_elem_of_lookup _ _) (Hall x)) as [i Hi].
  destruct (proj1 (list_elem_of_lookup _ _) (Hall y)) as [j Hj].
  assert (i = j) as ->; [|congruence].
  eapply (NoDup_lookup _ _ _ (Opcode.name x) Hn); rewrite list_lookup_fmap.
  - by rewrite Hi.
  - by rewrite Hj, He.
Qed.

Lemma section_u8_range s : 0 <= Section_.as_u8 s < 8.
Proof. destruct s; cbn; lia. Qed.
Lemma type_tag_u8_range t : 0 <= TypeTag.as_u8 t < 256.
Proof. destruct t; cbn; lia. Qed.
Lemma opcode_u16_range o : 0 <= Opcode.as_u16 o < 128.
Proof. destruct o; cbn; lia. Qed.

(** ** Version order *)

Lemma version_cmp_refl v : version_cmp v v = Eq.
Proof. unfold version_cmp. by rewrite !Z.compare_refl. Qed.

Lemma version_lt_spec a b : version_lt a b = true <->
  major a < major b \/ major a = major b /\ (minor a < minor b \/ minor a = minor b /\ tag a < tag b).
Proof.
  unfold version_lt, version_cmp.
  destruct (Z.compare_spec (major a) (major b)), (Z.compare_spec (minor a) (minor b)),
    (Z.compare_spec (tag a) (tag b)); split; intros; try done; lia.
Qed.

Lemma version_ge_spec a b : version_ge a b = true <-> ~ version_lt a b = true.
Proof. unfold version_ge. by destruct (version_lt a b). Qed.

Lemma version_lt_trans a b c : version_lt a b = true -> version_lt b c = true -> version_lt a c = true.
Proof. rewrite !version_lt_spec. lia. Qed.

(** ** Properties *)

(** the wire assignments are unambiguous.  Section ids, type tags, debug
    tags, attribute tags, opcodes and operation names are pairwise distinct,
    section ids fit the seven bits the section byte leaves them, and opcodes
    fit one varint byte. *)
Lemma wire_assignments_injective :
  Inj (=) (=) Section_.as_u8 /\ Inj (=) (=) TypeTag.as_u8 /\ Inj (=) (=) DebugTag.as_u8 /\
  Inj (=) (=) AttributeTag.as_u8 /\ Inj (=) (=) Opcode.as_u16 /\ Inj (=) (=) Opcode.name /\
  (forall s, 0 <= Section_.as_u8 s < NUM_SECTIONS) /\ (forall o, 0 <= Opcode.as_u16 o < 2 ^ 7).
Proof.
  split_and!; [apply _..|apply opcode_name_inj|apply section_u8_range|apply opcode_u16_range].
Qed.

(** Versions are totally ordered and the supported list is the ascending
    chain from the oldest to the newest version. *)
Lemma version_order_total (a b : BytecodeVersion) :
  (version_cmp a b = Eq <-> a = b) /\ (version_lt a b = true <-> version_cmp b a = Gt) /\
  (version_lt a b = true \/ a = b \/ version_lt b a = true) /\
  (a ∈ SUPPORTED -> version_ge a MIN_SUPPORTED = true /\ version_ge CURRENT a = true).
Proof.
  split_and!.
  - unfold version_cmp. destruct a as [a1 a2 a3], b as [b1 b2 b3]; cbn.
    destruct (Z.compare_spec a1 b1), (Z.compare_spec a2 b2), (Z.compare_spec a3 b3);
      split; intros; try done; try congruence; simplify_eq; lia.
  - unfold version_lt, version_cmp.
    rewrite (Z.compare_antisym (major a) (major b)), (Z.compare_antisym (minor a) (minor b)),
      (Z.compare_antisym (tag a) (tag b)).
    destruct (major a ?= major b), (minor a ?= minor b), (tag a ?= tag b); cbn; split; done.
  - rewrite !version_lt_spec. destruct (decide (a = b)) as [->|Hne]; [auto|].
    assert (major a <> major b \/ minor a <> minor b \/ tag a <> tag b).
    { destruct a as [a1 a2 a3], b as [b1 b2 b3]; cbn in *.
      destruct (decide (a1 = b1)), (decide (a2 = b2)), (decide (a3 = b3)); subst; tauto. }
    lia.
  - unfold SUPPORTED. rewrite !elem_of_cons, elem_of_nil. intros [->|[->|[->|[]]]]; done.
Qed.
