(* ===== verification/Encoding.v ===== *)
(** * Byte-level encoding (cutile-ir/src/bytecode/encoding.rs, decoder.rs [Reader])

    The writer's primitives (varints, zigzag varints, little-endian words,
    alignment padding, offset patching, 8-bit floats) and the reader's
    mirror-image primitives.  The theorems are round trips: reading what was
    written returns the value and leaves the reader exactly after it. *)

From S2P Require Import Prelude Enums.

(** ** Bytes *)

Definition byte_ok (b : Z) : Prop := 0 <= b < 256.

(** [to_le_bytes] of an [n]-byte integer, signed or unsigned. *)
Fixpoint le_bytes (n : nat) (v : Z) : list Z :=
  match n with
  | O => []
  | S n => v mod 256 :: le_bytes n (v / 256)
  end.

(** [from_le_bytes] of an unsigned integer. *)
Definition from_le_bytes (bs : list Z) : Z := foldr (fun b acc => b + 256 * acc) 0 bs.

Definition zlen {A} (l : list A) : Z := Z.of_nat (length l).

(** The LEB128 loop of [write_varint]; ten rounds suffice for a [u64]. *)
Fixpoint varint_loop (fuel : nat) (value : Z) : list Z :=
  match fuel with
  | O => []
  | S fuel =>
      let byte := Z.land value 0x7F in
      let value := Z.shiftr value 7 in
      let byte := if negb (value =? 0) then Z.lor byte 0x80 else byte in
      byte :: (if value =? 0 then [] else varint_loop fuel value)
  end.

Definition varint (value : Z) : list Z := varint_loop 10 value.

(** [push_varint] of debug_info.rs: the same encoding, written separately. *)
Fixpoint push_varint_loop (fuel : nat) (v : Z) : list Z :=
  match fuel with
  | O => []
  | S fuel =>
      let byte := Z.land v 0x7f in
      let v := Z.shiftr v 7 in
      if v =? 0 then [byte] else Z.lor byte 0x80 :: push_varint_loop fuel v
  end.

Definition push_varint (buf : list Z) (v : Z) : list Z := buf ++ push_varint_loop 10 v.

(** [(v << 1) ^ ((v as i64 >> 63) as u64)] on the [u64] pattern of an [i64]. *)
Definition zigzag (value : Z) : Z :=
  let v := as_u64 value in
  Z.lxor (as_u64 (Z.shiftl v 1)) (as_u64 (Z.shiftr (as_i64 v) 63)).

(** Padding bytes from position [pos] to a multiple of [alignment]. *)
Definition padding (alignment pos : Z) : Z := (alignment - pos mod alignment) mod alignment.

Definition pad_bytes (alignment pos : Z) : list Z := replicate (Z.to_nat (padding alignment pos)) ALIGNMENT_BYTE.

(** ** The writer *)

Record EncodingWriter := mkWriter { buf : list Z; required_alignment : Z }.

Definition writer_new : EncodingWriter := mkWriter [] 1.

Definition write_bytes (data : list Z) (w : EncodingWriter) : EncodingWriter :=
  mkWriter (buf w ++ data) (required_alignment w).
Definition write_byte (b : Z) (w : EncodingWriter) : EncodingWriter := write_bytes [b] w.
Definition write_varint (value : Z) (w : EncodingWriter) : EncodingWriter := write_bytes (varint value) w.
Definition write_signed_varint (value : Z) (w : EncodingWriter) : EncodingWriter :=
  write_varint (zigzag value) w.
Definition write_le_u8 (value : Z) : EncodingWriter -> EncodingWriter := write_bytes [value].
Definition write_le_u16 (value : Z) : EncodingWriter -> EncodingWriter := write_bytes (le_bytes 2 value).
Definition write_le_u32 (value : Z) : EncodingWriter -> EncodingWriter := write_bytes (le_bytes 4 value).
Definition write_le_u64 (value : Z) : EncodingWriter -> EncodingWriter := write_bytes (le_bytes 8 value).
Definition write_le_i32 (value : Z) : EncodingWriter -> EncodingWriter := write_bytes (le_bytes 4 value).
Definition write_le_i64 (value : Z) : EncodingWriter -> EncodingWriter := write_bytes (le_bytes 8 value).

Definition write_le_var_size_i64 (values : list Z) (w : EncodingWriter) : EncodingWriter :=
  foldl (fun w v => write_le_i64 v w) (write_varint (zlen values) w) values.
Definition write_le_var_size_i32 (values : list Z) (w : EncodingWriter) : EncodingWriter :=
  foldl (fun w v => write_le_i32 v w) (write_varint (zlen values) w) values.

Definition tell (w : EncodingWriter) : Z := zlen (buf w).

Definition align_to (alignment : Z) (w : EncodingWriter) : EncodingWriter :=
  if alignment <? 2 then w
  else mkWriter (buf w ++ pad_bytes alignment (tell w)) (Z.max (required_alignment w) alignment).

(** [buf[offset..offset + n].copy_from_slice(..)]: panics outside the buffer. *)
Definition patch (n : nat) (b : list Z) (offset value : Z) : outcome Error (list Z) :=
  if (offset <? 0) || (zlen b <? offset + Z.of_nat n) then Panic
  else Ok (take (Z.to_nat offset) b ++ le_bytes n value ++ drop (Z.to_nat offset + n) b).
Definition patch_u32 : list Z -> Z -> Z -> outcome Error (list Z) := patch 4.
Definition patch_u64 : list Z -> Z -> Z -> outcome Error (list Z) := patch 8.

(** ** 8-bit floats *)

Definition round_shift_right_ties_even (value shift : Z) : Z :=
  if shift =? 0 then value
  else if 64 <=? shift then 0
  else
    let truncated := Z.shiftr value shift in
    let remainder := Z.land value (Z.shiftl 1 shift - 1) in
    let half := Z.shiftl 1 (shift - 1) in
    let should_round_up :=
      (half <? remainder) || ((remainder =? half) && (Z.land truncated 1 =? 1)) in
    truncated + bool_as should_round_up.

(** [convert_to_f8], on the bit pattern of the [f64] argument. *)
Definition convert_to_f8 (bits exp_bits man_bits bias : Z) (nan_only_all_ones : bool) : Z :=
  let sign := Z.land (Z.shiftr bits 63) 1 in
  let f64_exp := Z.land (Z.shiftr bits 52) 0x7FF in
  let f64_man := Z.land bits (Z.shiftl 1 52 - 1) in
  let max_exp := Z.shiftl 1 exp_bits - 1 in
  let man_mask := Z.shiftl 1 man_bits - 1 in
  let signed s x := Z.lor (as_u8 (Z.shiftl s 7)) x in
  let max_finite :=
    if nan_only_all_ones then signed sign (Z.lor (as_u8 (Z.shiftl max_exp man_bits)) (man_mask - 1))
    else signed sign (Z.lor (as_u8 (Z.shiftl (max_exp - 1) man_bits)) man_mask) in
  let inf := signed sign (as_u8 (Z.shiftl max_exp man_bits)) in
  if f64_exp =? 0x7FF then
    if negb (f64_man =? 0) then
      if nan_only_all_ones then signed sign (Z.lor (as_u8 (Z.shiftl max_exp man_bits)) man_mask)
      else signed sign (Z.lor (as_u8 (Z.shiftl max_exp man_bits)) 1)
    else if negb nan_only_all_ones then inf
    else max_finite
  else if (f64_exp =? 0) && (f64_man =? 0) then as_u8 (Z.shiftl sign 7)
  else
    let '(significand, unbiased) :=
      if f64_exp =? 0 then (f64_man, -1022) else (Z.lor (Z.shiftl 1 52) f64_man, f64_exp - 1023) in
    let target_exp := unbiased + bias in
    if (max_exp <? target_exp) || (negb nan_only_all_ones && (max_exp <=? target_exp)) then
      if negb nan_only_all_ones then inf else max_finite
    else if target_exp <=? 0 then
      let shift := 1 - target_exp in
      let subnormal_man := round_shift_right_ties_even significand (52 - man_bits + shift) in
      if subnormal_man =? 0 then as_u8 (Z.shiftl sign 7)
      else if Z.shiftl 1 man_bits <=? subnormal_man then signed sign (as_u8 (Z.shiftl 1 man_bits))
      else signed sign (Z.land (as_u8 subnormal_man) man_mask)
    else
      let rounded_significand := round_shift_right_ties_even significand (52 - man_bits) in
      let mantissa := Z.land (as_u8 rounded_significand) man_mask in
      let carry := rounded_significand =? Z.shiftl 1 (man_bits + 1) in
      let target_exp := if carry then target_exp + 1 else target_exp in
      let mantissa := if carry then 0 else mantissa in
      if (max_exp <? target_exp)
         || (nan_only_all_ones && (target_exp =? max_exp) && (mantissa =? man_mask))
      then max_finite
      else if negb nan_only_all_ones && (max_exp <=? target_exp) then inf
      else signed sign (Z.lor (as_u8 (Z.shiftl target_exp man_bits)) mantissa).

Definition f64_to_f8e4m3fn (bits : Z) : Z := convert_to_f8 bits 4 3 7 true.
Definition f64_to_f8e5m2 (bits : Z) : Z := convert_to_f8 bits 5 2 15 false.

(** ** The reader (decoder.rs) *)

Record Reader := mkReader { data : list Z; pos : Z }.

Definition reader_new (data : list Z) : Reader := mkReader data 0.
Definition remaining (r : Reader) : Z := zlen (data r) - pos r.

Definition err (msg : string) : Error := BytecodeWrite ("decode: " +:+ msg).

(** The reader's methods take [&mut self] and return a [Result]: a state
    monad whose position survives an error. *)
Definition RM (A : Type) : Type := Reader -> outcome Error A * Reader.

#[export] Instance RM_ret : MRet RM := fun A a r => (Ok a, r).
#[export] Instance RM_bind : MBind RM := fun A B f m r =>
  match m r with
  | (Ok a, r) => f a r
  | (Err e, r) => (Err e, r)
  | (Panic, r) => (Panic, r)
  end.
Definition fail {A} (e : Error) : RM A := fun r => (Err e, r).
Definition panic {A} : RM A := fun r => (Panic, r).
(** [m.unwrap_or(d)]. *)
Definition unwrap_or {A} (d : A) (m : RM A) : RM A := fun r =>
  match m r with
  | (Err _, r) => (Ok d, r)
  | x => x
  end.
(** Run a reader from the start of a buffer, keeping only the result. *)
Definition run {A} (m : RM A) (data : list Z) : outcome Error A := (m (reader_new data)).1.

Definition read_byte : RM Z := fun r =>
  if zlen (data r) <=? pos r then (Err (err "unexpected end of data"), r)
  else match data r !! Z.to_nat (pos r) with
       | Some b => (Ok b, mkReader (data r) (pos r + 1))
       | None => (Panic, r)
       end.

(** [self.pos + n] is a [usize] sum: past [usize::MAX] it panics (either the
    overflow check or the slice with wrapped, inverted bounds). *)
Definition read_bytes (n : Z) : RM (list Z) := fun r =>
  if USIZE_MAX <? pos r + n then (Panic, r)
  else if zlen (data r) <? pos r + n then (Err (err "unexpected end of data"), r)
  else (Ok (take (Z.to_nat n) (drop (Z.to_nat (pos r)) (data r))), mkReader (data r) (pos r + n)).

(** [r.read_bytes(r.remaining())]. *)
Definition read_rest : RM (list Z) := fun r => read_bytes (remaining r) r.

(** The loop of [read_varint]: [shift] grows by seven per byte, and a tenth
    continuation byte is an error. *)
Fixpoint read_varint_loop (fuel : nat) (result shift : Z) : RM Z :=
  match fuel with
  | O => fail (err "varint overflow")
  | S fuel =>
      b ← read_byte;
      let result := Z.lor result (as_u64 (Z.shiftl (Z.land b 0x7F) shift)) in
      if Z.land b 0x80 =? 0 then mret result
      else
        let shift := shift + 7 in
        if 63 <? shift then fail (err "varint overflow")
        else read_varint_loop fuel result shift
  end.

Definition read_varint : RM Z := read_varint_loop 10 0 0.

Definition unzigzag (v : Z) : Z := Z.lxor (as_i64 (Z.shiftr v 1)) (- Z.land v 1).

Definition read_signed_varint : RM Z := v ← read_varint; mret (unzigzag v).

Definition read_le (n : nat) : RM Z := bytes ← read_bytes (Z.of_nat n); mret (from_le_bytes bytes).
Definition read_le_u8 : RM Z := read_byte.
Definition read_le_u16 : RM Z := read_le 2.
Definition read_le_u32 : RM Z := read_le 4.
Definition read_le_u64 : RM Z := read_le 8.
Definition read_le_i64 : RM Z := v ← read_le 8; mret (as_i64 v).
Definition read_le_i32 : RM Z := v ← read_le 4; mret (as_i32 v).

(** [{:02X}] of a byte. *)
Definition hex_digit (d : Z) : string :=
  match String.get (Z.to_nat d) "0123456789ABCDEF" with
  | Some c => String c EmptyString
  | None => EmptyString
  end.
Definition show_hex (b : Z) : string := "0x" +:+ hex_digit (b / 16) +:+ hex_digit (b mod 16).

Fixpoint skip_pad_loop (n : nat) : RM unit :=
  match n with
  | O => mret tt
  | S n =>
      b ← read_byte;
      if negb (b =? ALIGNMENT_BYTE)
      then fail (err ("expected padding byte " +:+ show_hex ALIGNMENT_BYTE +:+ ", got " +:+ show_hex b))
      else skip_pad_loop n
  end.

Definition skip_padding (alignment : Z) : RM unit := fun r =>
  if alignment <? 2 then (Ok tt, r)
  else skip_pad_loop (Z.to_nat (padding alignment (pos r))) r.

Definition read_header : RM BytecodeVersion :=
  magic ← read_bytes 8;
  if negb (bool_decide (magic = MAGIC)) then fail (err "invalid magic number")
  else
    major ← read_le_u8;
    minor ← read_le_u8;
    tag ← read_le_u16;
    mret (mkVersion major minor tag).

Record SectionHeader := mkSectionHeader { sh_id : Z; data_len : Z }.

Definition read_section_header : RM SectionHeader :=
  id_and_align ← read_byte;
  let id := Z.land id_and_align 0x7F in
  let has_alignment := negb (Z.land id_and_align 0x80 =? 0) in
  if id =? Section_.as_u8 Section_.EndOfBytecode then mret (mkSectionHeader id 0)
  else
    length ← read_varint;
    _ ← (if has_alignment then alignment ← read_varint; skip_padding alignment else mret tt);
    mret (mkSectionHeader id length).

(** The writer's header and section header (writer.rs), onto the output. *)
Definition write_header (out : list Z) (version : BytecodeVersion) : list Z :=
  out ++ MAGIC ++ [major version] ++ [minor version] ++ le_bytes 2 (tag version).

Definition write_section_header (out : list Z) (section_id : Section_t) (length alignment : Z) : list Z :=
  let id_byte := Z.land (Section_.as_u8 section_id) 0x7F in
  let id_byte := if 1 <? alignment then Z.lor id_byte 0x80 else id_byte in
  let out := out ++ [id_byte] ++ varint length in
  if 1 <? alignment then
    let out := out ++ varint alignment in
    out ++ pad_bytes alignment (zlen out)
  else out.

(** ** Reading back

    [reads m bs v]: wherever the bytes [bs] occur in a buffer, [m] consumes
    exactly them and returns [v].  [reads_at pre] fixes what precedes them,
    for the readers whose behaviour depends on the position. *)

Definition fits (l : list Z) : Prop := zlen l <= ISIZE_MAX.

Definition at_ (pre post : list Z) : Reader := mkReader (pre ++ post) (zlen pre).

Definition reads_at {A} (pre : list Z) (m : RM A) (bs : list Z) (v : A) : Prop :=
  forall post, fits (pre ++ bs ++ post) -> m (at_ pre (bs ++ post)) = (Ok v, at_ (pre ++ bs) post).

Definition reads {A} (m : RM A) (bs : list Z) (v : A) : Prop := forall pre, reads_at pre m bs v.

Lemma zlen_app {A} (l k : list A) : zlen (l ++ k) = zlen l + zlen k.
Proof. unfold zlen. rewrite length_app. lia. Qed.
Lemma zlen_cons {A} (x : A) l : zlen (x :: l) = 1 + zlen l.
Proof. unfold zlen. cbn. lia. Qed.
Lemma zlen_nonneg {A} (l : list A) : 0 <= zlen l.
Proof. unfold zlen. lia. Qed.
Lemma to_nat_zlen {A} (l : list A) : Z.to_nat (zlen l) = length l.
Proof. unfold zlen. lia. Qed.

Lemma RM_bind_Ok {A B} (m : RM A) (f : A -> RM B) r a r' :
  m r = (Ok a, r') -> (m ≫= f) r = f a r'.
Proof. intros H. unfold mbind, RM_bind. by rewrite H. Qed.

Lemma reads_at_ret {A} pre (v : A) : reads_at pre (mret v) [] v.
Proof. intros post _. unfold mret, RM_ret. by rewrite app_nil_r. Qed.

Lemma reads_at_bind {A B} pre (m : RM A) (f : A -> RM B) b1 b2 a b :
  reads_at pre m b1 a -> reads_at (pre ++ b1) (f a) b2 b -> reads_at pre (m ≫= f) (b1 ++ b2) b.
Proof.
  intros Hm Hf post Hfit. rewrite <- app_assoc in *.
  rewrite (RM_bind_Ok _ _ _ _ _ (Hm (b2 ++ post) Hfit)).
  rewrite Hf; [by rewrite app_assoc|]. by rewrite <- app_assoc.
Qed.

Lemma reads_bind {A B} (m : RM A) (f : A -> RM B) b1 b2 a b :
  reads m b1 a -> reads (f a) b2 b -> reads (m ≫= f) (b1 ++ b2) b.
Proof. intros Hm Hf pre. eapply reads_at_bind; [apply Hm|apply Hf]. Qed.

Lemma reads_unwrap_or {A} (d : A) m bs v : reads m bs v -> reads (unwrap_or d m) bs v.
Proof. intros H pre post Hf. unfold unwrap_or. by rewrite (H pre post Hf). Qed.

(** A reader that consumes a whole buffer. *)
Lemma reads_run {A} (m : RM A) bs v : reads_at [] m bs v -> fits bs -> run m bs = Ok v.
Proof.
  intros H Hf. unfold run, reader_new. specialize (H []). rewrite app_nil_r in H.
  change (mkReader bs 0) with (at_ [] bs). by rewrite H.
Qed.

Lemma reads_ret {A} (v : A) : reads (mret v) [] v.
Proof. intros pre. apply reads_at_ret. Qed.

Lemma reads_map {A B} (m : RM A) (f : A -> B) bs a :
  reads m bs a -> reads (x ← m; mret (f x)) bs (f a).
Proof. intros H. rewrite <- (app_nil_r bs). eapply reads_bind; [exact H|apply reads_ret]. Qed.

Lemma reads_byte b : reads read_byte [b] b.
Proof.
  intros pre post Hfit. unfold read_byte, at_; cbn [data pos].
  rewrite zlen_app. cbn [app]. rewrite zlen_cons. pose proof (zlen_nonneg post).
  destruct (Z.leb_spec (zlen pre + (1 + zlen post)) (zlen pre)); [lia|].
  rewrite to_nat_zlen, list_lookup_middle by done.
  rewrite zlen_app, <- app_assoc. done.
Qed.

Lemma reads_bytes bs : reads (read_bytes (zlen bs)) bs bs.
Proof.
  intros pre post Hfit. unfold read_bytes, at_; cbn [data pos]. unfold fits in Hfit.
  rewrite !zlen_app in *. pose proof (zlen_nonneg post).
  destruct (Z.ltb_spec USIZE_MAX (zlen pre + zlen bs)); [unfold_int; lia|].
  destruct (Z.ltb_spec (zlen pre + (zlen bs + zlen post)) (zlen pre + zlen bs)); [lia|].
  rewrite !to_nat_zlen, drop_app_length, take_app_length. by rewrite app_assoc.
Qed.

Lemma read_rest_spec pre bs : fits (pre ++ bs) ->
  read_rest (at_ pre bs) = (Ok bs, at_ (pre ++ bs) []).
Proof.
  intros Hf. unfold read_rest. replace (remaining (at_ pre bs)) with (zlen bs).
  - pose proof (reads_bytes bs pre [] ) as H. rewrite app_nil_r in H. by apply H.
  - unfold remaining, at_; cbn. rewrite zlen_app. lia.
Qed.

(** ** Little-endian words *)

Lemma le_bytes_length n v : length (le_bytes n v) = n.
Proof. revert v. induction n; intros; cbn; auto. Qed.

Lemma zlen_le_bytes n v : zlen (le_bytes n v) = Z.of_nat n.
Proof. unfold zlen. by rewrite le_bytes_length. Qed.

Lemma le_bytes_ok n v : Forall byte_ok (le_bytes n v).
Proof.
  revert v. induction n as [|n IH]; intros v; cbn; [constructor|]. constructor; [|apply IH].
  apply Z.mod_pos_bound. lia.
Qed.

Lemma from_le_bytes_le n v : from_le_bytes (le_bytes n v) = v mod 256 ^ Z.of_nat n.
Proof.
  revert v. induction n as [|n IH]; intros v.
  - cbn. by rewrite Z.mod_1_r.
  - cbn [le_bytes]. unfold from_le_bytes; cbn [foldr]. fold (from_le_bytes (le_bytes n (v / 256))).
    rewrite IH, Nat2Z.inj_succ, Z.pow_succ_r by lia.
    rewrite Z.rem_mul_r by (try apply Z.pow_nonzero; lia). done.
Qed.

Lemma reads_le n v : reads (read_le n) (le_bytes n v) (v mod 256 ^ Z.of_nat n).
Proof.
  unfold read_le. rewrite <- from_le_bytes_le. apply reads_map.
  rewrite <- (zlen_le_bytes n v). apply reads_bytes.
Qed.

Lemma reads_le_u16 v : 0 <= v < 2 ^ 16 -> reads read_le_u16 (le_bytes 2 v) v.
Proof. intros H. pose proof (reads_le 2 v) as Hr. by rewrite Z.mod_small in Hr. Qed.
Lemma reads_le_u32 v : in_u32 v -> reads read_le_u32 (le_bytes 4 v) v.
Proof. intros H. pose proof (reads_le 4 v) as Hr. rewrite Z.mod_small in Hr; [done|int_lia]. Qed.
Lemma reads_le_u64 v : in_u64 v -> reads read_le_u64 (le_bytes 8 v) v.
Proof. intros H. pose proof (reads_le 8 v) as Hr. rewrite Z.mod_small in Hr; [done|int_lia]. Qed.

Lemma as_signed_mod w v : 0 < w -> as_signed w (v mod 2 ^ w) = as_signed w v.
Proof.
  intros. unfold as_signed. f_equal. rewrite Z.add_mod_idemp_l; [done|]. apply Z.pow_nonzero; lia.
Qed.

Lemma reads_le_i64 v : in_i64 v -> reads read_le_i64 (le_bytes 8 v) v.
Proof.
  intros H. unfold read_le_i64. rewrite <- (as_i64_id v H) at 2.
  replace (as_i64 v) with (as_i64 (v mod 256 ^ 8)) by (apply (as_signed_mod 64); lia).
  apply reads_map, (reads_le 8).
Qed.
Lemma reads_le_i32 v : in_i32 v -> reads read_le_i32 (le_bytes 4 v) v.
Proof.
  intros H. unfold read_le_i32. rewrite <- (as_i32_id v H) at 2.
  replace (as_i32 v) with (as_i32 (v mod 256 ^ 4)) by (apply (as_signed_mod 32); lia).
  apply reads_map, (reads_le 4).
Qed.

(** ** Varints *)

Lemma lor_shiftl a b s : 0 <= s -> 0 <= a < 2 ^ s -> Z.lor a (Z.shiftl b s) = a + b * 2 ^ s.
Proof.
  intros Hs Ha. assert (Z.land a (Z.shiftl b s) = 0) as Hz.
  { apply Z.bits_inj'. intros n Hn. rewrite Z.land_spec, Z.shiftl_spec, Z.bits_0 by lia.
    destruct (Z.lt_ge_cases n s).
    - by rewrite (Z.testbit_neg_r b) by lia; rewrite andb_false_r.
    - destruct (Z.eq_dec a 0) as [->|]; [by rewrite Z.bits_0|].
      rewrite (Z.bits_above_log2 a n); [done|lia|].
      apply Z.log2_lt_pow2; [lia|]. eapply Z.lt_le_trans; [apply Ha|]. apply Z.pow_le_mono_r; lia. }
  pose proof (Z.add_lor_land a (Z.shiftl b s)) as H. rewrite Hz, Z.add_0_r in H.
  rewrite H, Z.shiftl_mul_pow2 by lia. done.
Qed.

Lemma land_127 v : Z.land v 0x7F = v mod 128.
Proof. change 127 with (Z.ones 7). by rewrite Z.land_ones. Qed.

Lemma low7_of_continuation v : Z.land (Z.lor (Z.land v 0x7F) 0x80) 0x7F = Z.land v 0x7F.
Proof. rewrite Z.land_lor_distr_l, <- Z.land_assoc, Z.land_diag. change (Z.land 128 127) with 0. apply Z.lor_0_r. Qed.

Lemma high_of_low7 v : Z.land (Z.land v 0x7F) 0x80 = 0.
Proof. rewrite <- Z.land_assoc. change (Z.land 127 128) with 0. apply Z.land_0_r. Qed.

Lemma high_of_continuation v : Z.land (Z.lor (Z.land v 0x7F) 0x80) 0x80 = 0x80.
Proof. by rewrite Z.land_lor_distr_l, high_of_low7. Qed.

Lemma reads_varint_loop n result shift v :
  (n > 0)%nat -> shift = 70 - 7 * Z.of_nat n -> 0 <= shift -> 0 <= result < 2 ^ shift ->
  0 <= v -> v * 2 ^ shift < 2 ^ 64 ->
  reads (read_varint_loop n result shift) (varint_loop n v) (result + v * 2 ^ shift).
Proof.
  revert result shift v. induction n as [|n IH]; intros result shift v Hn Hshift Hs Hres Hv Hub; [lia|].
  assert (Hpow : 0 < 2 ^ shift) by (apply Z.pow_pos_nonneg; lia).
  assert (Hpart : as_u64 (Z.shiftl (Z.land v 127) shift) = Z.shiftl (v mod 128) shift).
  { rewrite land_127. apply Z.mod_small. rewrite Z.shiftl_mul_pow2 by lia.
    pose proof (Z.mod_pos_bound v 128 ltac:(lia)). pose proof (Z.mod_le v 128 Hv ltac:(lia)). nia. }
  cbn [read_varint_loop varint_loop]. rewrite !Z.shiftr_div_pow2 by lia. change (2 ^ 7) with 128.
  pose proof (Z.div_mod v 128 ltac:(lia)) as Hdm. pose proof (Z.div_pos v 128 Hv ltac:(lia)) as Hdp.
  destruct (Z.eqb_spec (v / 128) 0) as [Hz|Hz]; cbn [negb].
  - change [Z.land v 127] with ([Z.land v 127] ++ []). eapply reads_bind; [apply reads_byte|].
    rewrite high_of_low7, <- Z.land_assoc, Z.land_diag, Hpart, lor_shiftl by lia. cbn [Z.eqb].
    replace (v mod 128) with v by lia. apply reads_ret.
  - assert (2 ^ (shift + 7) < 2 ^ 64) as Hlt.
    { pose proof (Z.mod_pos_bound v 128 ltac:(lia)). rewrite Z.pow_add_r by lia. change (2 ^ 7) with 128.
      eapply Z.le_lt_trans; [|exact Hub]. rewrite (Z.mul_comm v). apply Z.mul_le_mono_nonneg_l; lia. }
    apply Z.pow_lt_mono_r_iff in Hlt; [|lia|lia].
    change (?b :: ?l) with ([b] ++ l). eapply reads_bind; [apply reads_byte|].
    rewrite high_of_continuation, low7_of_continuation, Hpart, lor_shiftl by lia. cbn [Z.eqb].
    destruct (Z.ltb_spec 63 (shift + 7)); [lia|].
    replace (result + v * 2 ^ shift) with ((result + v mod 128 * 2 ^ shift) + (v / 128) * 2 ^ (shift + 7)).
    + apply IH; try lia.
      * rewrite Z.pow_add_r by lia. change (2 ^ 7) with 128.
        pose proof (Z.mod_pos_bound v 128 ltac:(lia)).
        assert (0 <= v mod 128 * 2 ^ shift <= 127 * 2 ^ shift) by
          (split; [apply Z.mul_nonneg_nonneg | apply Z.mul_le_mono_nonneg_r]; lia). lia.
      * rewrite Z.pow_add_r by lia. change (2 ^ 7) with 128.
        pose proof (Z.mod_pos_bound v 128 ltac:(lia)).
        eapply Z.le_lt_trans; [|exact Hub].
        replace (v / 128 * (2 ^ shift * 128)) with (128 * (v / 128) * 2 ^ shift) by ring.
        apply Z.mul_le_mono_nonneg_r; lia.
    + rewrite Z.pow_add_r by lia. change (2 ^ 7) with 128. rewrite Hdm at 3. ring.
Qed.

Lemma reads_varint v : in_u64 v -> reads read_varint (varint v) v.
Proof.
  intros Hv. unfold read_varint, varint.
  replace v with (0 + v * 2 ^ 0) at 2 by (rewrite Z.pow_0_r; lia).
  apply reads_varint_loop; try lia; rewrite ?Z.pow_0_r; int_lia.
Qed.

Lemma push_varint_varint bs v : push_varint bs v = bs ++ varint v.
Proof.
  unfold push_varint, varint. f_equal. generalize 10%nat. intros n. revert v.
  induction n as [|n IH]; intros v; [done|].
  cbn [push_varint_loop varint_loop]. rewrite IH. by destruct (_ =? 0).
Qed.

Lemma varint_loop_nonempty n v : (n > 0)%nat -> varint_loop n v <> [].
Proof. destruct n; [lia|]. done. Qed.

Lemma varint_ok v : 0 <= v -> Forall byte_ok (varint v).
Proof.
  unfold varint. generalize 10%nat. intros n. revert v.
  induction n as [|n IH]; intros v Hv; cbn [varint_loop]; [constructor|].
  pose proof (Z.mod_pos_bound v 128 ltac:(lia)).
  constructor.
  - rewrite land_127. destruct (negb _); unfold byte_ok; [|lia].
    pose proof (lor_shiftl (v mod 128) 1 7 ltac:(lia) ltac:(lia)) as Hl.
    change (Z.shiftl 1 7) with 128 in Hl. rewrite Hl. lia.
  - destruct (_ =? 0); [constructor|]. apply IH. apply Z.shiftr_nonneg. lia.
Qed.

(** ** Zigzag *)

Lemma as_u64_neg v : in_i64 v -> v < 0 -> as_u64 v = v + 2 ^ 64.
Proof. intros H Hn. unfold as_u64. rewrite <- (Z.mod_add v 1) by lia. apply Z.mod_small. int_lia. Qed.

Lemma zigzag_spec v : in_i64 v -> zigzag v = if 0 <=? v then 2 * v else -2 * v - 1.
Proof.
  intros H. unfold zigzag.
  replace (as_i64 (as_u64 v)) with v by
    (unfold as_u64; rewrite (as_signed_mod 64) by lia; symmetry; by apply as_i64_id).
  rewrite !Z.shiftl_mul_pow2, Z.shiftr_div_pow2 by lia. change (2 ^ 1) with 2.
  destruct (Z.leb_spec 0 v) as [Hp|Hn].
  - rewrite (as_u64_id v) by int_lia. rewrite (Z.div_small v) by int_lia.
    unfold as_u64. rewrite !Z.mod_small by int_lia. rewrite Z.lxor_0_r. lia.
  - replace (v / 2 ^ 63) with (-1) by (apply (Z.div_unique v _ (-1) (v + 2 ^ 63)); int_lia).
    rewrite (as_u64_neg v) by done.
    replace (as_u64 ((v + 2 ^ 64) * 2)) with (2 * v + 2 ^ 64)
      by (unfold as_u64; apply (Z.mod_unique _ _ 1); int_lia).
    change (as_u64 (-1)) with (Z.ones 64). rewrite Z.lxor_comm.
    assert (forall x, 0 <= x < 2 ^ 64 -> Z.lxor (Z.ones 64) x = Z.ones 64 - x) as Hx.
    { intros x Hx. apply Z.bits_inj'. intros n Hn'.
      rewrite Z.lxor_spec. change (Z.ones 64 - x) with (Z.ones 64 - x).
      rewrite Z.sub_nocarry_ldiff.
      - rewrite Z.ldiff_spec, Z.testbit_ones_nonneg by lia.
        destruct (Z.ltb_spec n 64); [done|]. cbn.
        destruct (Z.eq_dec x 0) as [->|]; [apply Z.bits_0|].
        apply Z.bits_above_log2; [lia|]. assert (Z.log2 x < 64) by (apply Z.log2_lt_pow2; lia). lia.
      - apply Z.bits_inj'. intros k Hk. rewrite Z.ldiff_spec, Z.bits_0, Z.testbit_ones_nonneg by lia.
        destruct (Z.ltb_spec k 64); [by rewrite andb_false_r|]. rewrite andb_true_r.
        destruct (Z.eq_dec x 0) as [->|]; [apply Z.bits_0|].
        apply Z.bits_above_log2; [lia|]. assert (Z.log2 x < 64) by (apply Z.log2_lt_pow2; lia). lia. }
    rewrite Hx by int_lia. change (Z.ones 64) with (2 ^ 64 - 1). lia.
Qed.

Lemma zigzag_u64 v : in_i64 v -> in_u64 (zigzag v).
Proof. intros H. rewrite zigzag_spec by done. case_match; int_lia. Qed.

Lemma unzigzag_zigzag v : in_i64 v -> unzigzag (zigzag v) = v.
Proof.
  intros H. rewrite zigzag_spec by done. unfold unzigzag.
  assert (Hodd : forall x, Z.land x 1 = x mod 2) by (intros x; apply (Z.land_ones x 1); lia).
  rewrite Hodd, Z.shiftr_div_pow2 by lia. change (2 ^ 1) with 2.
  destruct (Z.leb_spec 0 v).
  - replace (2 * v / 2) with v by (rewrite Z.mul_comm, Z.div_mul; lia).
    replace ((2 * v) mod 2) with 0 by (rewrite Z.mul_comm, Z.mod_mul; lia).
    rewrite as_i64_id by done. apply Z.lxor_0_r.
  - replace ((-2 * v - 1) / 2) with (- v - 1) by (apply (Z.div_unique _ _ _ 1); lia).
    replace ((-2 * v - 1) mod 2) with 1 by (apply (Z.mod_unique _ _ (- v - 1)); lia).
    rewrite as_i64_id by int_lia. change (- (1)) with (-1). rewrite Z.lxor_m1_r. unfold Z.lnot. lia.
Qed.

Lemma reads_signed_varint v : in_i64 v -> reads read_signed_varint (varint (zigzag v)) v.
Proof.
  intros H. unfold read_signed_varint. rewrite <- (unzigzag_zigzag v H) at 2.
  apply reads_map, reads_varint, zigzag_u64, H.
Qed.

(** ** Alignment, headers and arrays *)

Lemma padding_bounds a p : 1 <= a -> 0 <= padding a p < a.
Proof. intros. unfold padding. apply Z.mod_pos_bound. lia. Qed.

Lemma padding_aligns a p : 1 <= a -> (p + padding a p) mod a = 0.
Proof.
  intros Ha. unfold padding. rewrite Z.add_mod_idemp_r by lia.
  rewrite (Z.mod_eq p a) by lia. replace (p + (a - (p - a * (p / a)))) with ((1 + p / a) * a) by ring.
  apply Z.mod_mul. lia.
Qed.

Lemma zlen_pad_bytes a p : 1 <= a -> zlen (pad_bytes a p) = padding a p.
Proof.
  intros Ha. unfold zlen, pad_bytes. rewrite length_replicate.
  pose proof (padding_bounds a p Ha). lia.
Qed.

Lemma reads_skip_pad_loop n : reads (skip_pad_loop n) (replicate n ALIGNMENT_BYTE) tt.
Proof.
  induction n as [|n IH]; [apply reads_ret|]. cbn [skip_pad_loop replicate].
  change (?b :: ?l) with ([b] ++ l). eapply reads_bind; [apply reads_byte|]. apply IH.
Qed.

Lemma reads_skip_padding pre a : 2 <= a -> reads_at pre (skip_padding a) (pad_bytes a (zlen pre)) tt.
Proof.
  intros Ha post Hf. unfold skip_padding. destruct (Z.ltb_spec a 2); [lia|].
  cbn [pos at_]. by apply reads_skip_pad_loop.
Qed.

Lemma reads_read_header v : version_wf v -> reads read_header (write_header [] v) v.
Proof.
  intros (H1 & H2 & H3). unfold read_header, write_header. rewrite app_nil_l.
  change 8 with (zlen MAGIC). eapply reads_bind; [apply reads_bytes|].
  rewrite bool_decide_eq_true_2 by done. cbn [negb].
  eapply reads_bind; [apply reads_byte|]. eapply reads_bind; [apply reads_byte|].
  rewrite <- (app_nil_r (le_bytes 2 _)). eapply reads_bind; [by apply reads_le_u16|].
  destruct v. apply reads_ret.
Qed.

Lemma section_byte sid (b : bool) : sid <> Section_.EndOfBytecode ->
  let x := if b then Z.lor (Z.land (Section_.as_u8 sid) 0x7F) 0x80 else Z.land (Section_.as_u8 sid) 0x7F in
  Z.land x 0x7F = Section_.as_u8 sid /\ (negb (Z.land x 0x80 =? 0)) = b /\
  (Section_.as_u8 sid =? Section_.as_u8 Section_.EndOfBytecode) = false.
Proof. intros H. destruct sid, b; try done; vm_compute; auto. Qed.

Lemma reads_section_header out sid len al hdr : sid <> Section_.EndOfBytecode ->
  in_u64 len -> in_u64 al -> write_section_header out sid len al = out ++ hdr ->
  reads_at out read_section_header hdr (mkSectionHeader (Section_.as_u8 sid) len).
Proof.
  intros Hsid Hlen Hal Hw. unfold write_section_header in Hw. unfold read_section_header.
  destruct (section_byte sid (1 <? al) Hsid) as (E1 & E2 & E3). 
  set (x := if 1 <? al then Z.lor _ 128 else _) in *.
  assert (hdr = [x] ++ varint len ++
    (if 1 <? al then varint al ++ pad_bytes al (zlen (((out ++ [x]) ++ varint len) ++ varint al)) else [])) as ->.
  { apply (app_inv_head out). rewrite <- Hw. destruct (1 <? al); rewrite <- ?app_assoc; [done|].
    by rewrite app_nil_r. }
  eapply reads_at_bind; [apply reads_byte|]. rewrite E1, E2, E3.
  eapply reads_at_bind; [by apply reads_varint|].
  rewrite <- (app_nil_r (if 1 <? al then _ else _)).
  destruct (Z.ltb_spec 1 al) as [Ha|Ha].
  - eapply reads_at_bind; [|apply reads_at_ret].
    eapply reads_at_bind; [by apply reads_varint|]. apply reads_skip_padding. lia.
  - eapply reads_at_bind; [apply reads_at_ret|apply reads_at_ret].
Qed.

(** [for _ in 0..n { v.push(read()?) }]. *)
Fixpoint read_many {A} (n : nat) (m : RM A) : RM (list A) :=
  match n with
  | O => mret []
  | S n => x ← m; xs ← read_many n m; mret (x :: xs)
  end.

Lemma reads_many {A} (m : RM A) (enc : A -> list Z) (xs : list A) :
  Forall (fun x => reads m (enc x) x) xs ->
  reads (read_many (length xs) m) (concat (enc <$> xs)) xs.
Proof.
  induction 1 as [|x xs Hx _ IH]; cbn; [apply reads_ret|].
  eapply reads_bind; [exact Hx|]. apply (reads_map _ (cons x)), IH.
Qed.

Lemma write_loop_buf (n : nat) (vs : list Z) (w : EncodingWriter) :
  buf (foldl (fun w v => write_bytes (le_bytes n v) w) w vs) = buf w ++ concat (le_bytes n <$> vs) /\
  required_alignment (foldl (fun w v => write_bytes (le_bytes n v) w) w vs) = required_alignment w.
Proof.
  revert w. induction vs as [|v vs IH]; intros w; cbn; [by rewrite app_nil_r|].
  destruct (IH (write_bytes (le_bytes n v) w)) as [-> ->]. cbn. by rewrite <- app_assoc.
Qed.

Lemma write_le_var_size_i64_buf vs w :
  buf (write_le_var_size_i64 vs w) = buf w ++ varint (zlen vs) ++ concat (le_bytes 8 <$> vs).
Proof.
  unfold write_le_var_size_i64, write_le_i64. destruct (write_loop_buf 8 vs (write_varint (zlen vs) w)) as [-> _].
  cbn. by rewrite <- app_assoc.
Qed.

Lemma write_le_var_size_i32_buf vs w :
  buf (write_le_var_size_i32 vs w) = buf w ++ varint (zlen vs) ++ concat (le_bytes 4 <$> vs).
Proof.
  unfold write_le_var_size_i32, write_le_i32. destruct (write_loop_buf 4 vs (write_varint (zlen vs) w)) as [-> _].
  cbn. by rewrite <- app_assoc.
Qed.

(** ** Rounding *)

Lemma round_shift_spec v s : 0 <= v -> 0 < s < 64 ->
  let r := round_shift_right_ties_even v s in
  2 * Z.abs (r * 2 ^ s - v) <= 2 ^ s /\ (2 * Z.abs (r * 2 ^ s - v) = 2 ^ s -> Z.even r = true).
Proof.
  intros Hv Hs. unfold round_shift_right_ties_even.
  destruct (Z.eqb_spec s 0); [lia|]. destruct (Z.leb_spec 64 s); [lia|].
  rewrite !Z.shiftr_div_pow2, !Z.shiftl_mul_pow2, !Z.mul_1_l by lia.
  replace (2 ^ s - 1) with (Z.ones s) by (rewrite Z.ones_equiv; lia). rewrite Z.land_ones by lia.
  assert (Hpow : 2 ^ s = 2 * 2 ^ (s - 1)) by (rewrite <- Z.pow_succ_r by lia; f_equal; lia).
  assert (0 < 2 ^ (s - 1)) by (apply Z.pow_pos_nonneg; lia).
  pose proof (Z.div_mod v (2 ^ s) ltac:(lia)) as Hdm.
  pose proof (Z.mod_pos_bound v (2 ^ s) ltac:(lia)) as Hmb.
  assert (Hodd : Z.land (v / 2 ^ s) 1 = (v / 2 ^ s) mod 2) by (apply (Z.land_ones _ 1); lia).
  rewrite Hodd, Zmod_odd. set (q := v / 2 ^ s) in *. set (m := v mod 2 ^ s) in *.
  set (h := 2 ^ (s - 1)) in *. rewrite Hpow in *.
  destruct (Z.ltb_spec h m); cbn [orb bool_as].
  - split; [nia|]. intros. exfalso. nia.
  - destruct (Z.eqb_spec m h) as [E|E]; cbn [andb].
    + destruct (Z.odd q) eqn:Ho; cbn [Z.eqb Pos.eqb bool_as].
      * split; [nia|]. intros _. by rewrite Z.even_add, <- Z.negb_odd, Ho.
      * split; [nia|]. intros _. by rewrite Z.add_0_r, <- Z.negb_odd, Ho.
    + cbn [bool_as]. split; [nia|]. intros. exfalso. nia.
Qed.

(** The [f64] bit pattern of a finite 8-bit float [code] with [man_bits] of
    mantissa and exponent [bias]: normal codes rebias the exponent, subnormal
    codes are normalized. *)
Definition f8_to_f64 (man_bits bias code : Z) : Z :=
  let sign := Z.shiftr code 7 in
  let e := Z.shiftr (Z.land code 127) man_bits in
  let m := Z.land code (Z.shiftl 1 man_bits - 1) in
  let pack e m := Z.lor (Z.shiftl sign 63) (Z.lor (Z.shiftl e 52) m) in
  if e =? 0 then
    if m =? 0 then pack 0 0
    else
      let k := Z.log2 m in
      pack (1 - bias - (man_bits - k) + 1023) (Z.shiftl (m - Z.shiftl 1 k) (52 - k))
  else pack (e - bias + 1023) (Z.shiftl m (52 - man_bits)).

Definition codes (n : nat) : list Z := Z.of_nat <$> seq 0 n.

(** ** Properties *)

(** varints round-trip.  Reading back an unsigned or zigzag-signed
    varint, wherever it was written, consumes exactly its bytes and returns
    the value; every [u64] and [i64] is covered. *)
Lemma varint_roundtrip (pre post : list Z) (u i : Z)
    (Hu : in_u64 u) (Hi : in_i64 i)
    (Hfu : fits (pre ++ varint u ++ post)) (Hfi : fits (pre ++ varint (zigzag i) ++ post)) :
  read_varint (at_ pre (varint u ++ post)) = (Ok u, at_ (pre ++ varint u) post) /\
  read_signed_varint (at_ pre (varint (zigzag i) ++ post)) =
    (Ok i, at_ (pre ++ varint (zigzag i)) post) /\
  buf (write_signed_varint i (mkWriter pre 1)) = pre ++ varint (zigzag i).
Proof. split_and!; [by apply reads_varint | by apply reads_signed_varint | done]. Qed.

Lemma varint_roundtrip_witness :
  read_varint (at_ [1] (varint U64_MAX ++ [2])) = (Ok U64_MAX, at_ ([1] ++ varint U64_MAX) [2]) /\
  read_signed_varint (at_ [1] (varint (zigzag I64_MIN) ++ [2])) =
    (Ok I64_MIN, at_ ([1] ++ varint (zigzag I64_MIN)) [2]).
Proof.
  destruct (varint_roundtrip [1] [2] U64_MAX I64_MIN) as (H1 & H2 & _);
    [vm_compute; split; discriminate .. | | |].
  1-2: vm_compute; discriminate.
  split; [exact H1 | exact H2].
Defined.

(** Fixed-width little-endian words round-trip at their width, signed
    and unsigned, consuming exactly the bytes written. *)
Lemma le_words_roundtrip (h u l i32 i64 : Z)
    (Hh : 0 <= h < 2 ^ 16) (Hu : in_u32 u) (Hl : in_u64 l) (H32 : in_i32 i32) (H64 : in_i64 i64) :
  reads read_le_u16 (le_bytes 2 h) h /\ reads read_le_u32 (le_bytes 4 u) u /\
  reads read_le_u64 (le_bytes 8 l) l /\ reads read_le_i32 (le_bytes 4 i32) i32 /\
  reads read_le_i64 (le_bytes 8 i64) i64.
Proof.
  split_and!; [by apply reads_le_u16|by apply reads_le_u32|by apply reads_le_u64|
    by apply reads_le_i32|by apply reads_le_i64].
Qed.

Lemma le_words_roundtrip_witness :
  reads read_le_i32 (le_bytes 4 (-2)) (-2) /\ le_bytes 4 (-2) = [254; 255; 255; 255].
Proof.
  split; [|reflexivity].
  apply (le_words_roundtrip 0 0 0 (-2) 0); vm_compute; split; congruence.
Defined.

(** Headers round-trip.  The file header yields the version it was
    written with, and a section header written at any output position yields
    the section id and length, having skipped exactly the alignment padding,
    which ends on a multiple of the alignment. *)
Lemma headers_roundtrip (v : BytecodeVersion) (out hdr : list Z) (sid : Section_t) (len al : Z)
    (Hv : version_wf v) (Hsid : sid <> Section_.EndOfBytecode) (Hlen : in_u64 len) (Hal : in_u64 al)
    (Hw : write_section_header out sid len al = out ++ hdr) :
  reads read_header (write_header [] v) v /\
  reads_at out read_section_header hdr (mkSectionHeader (Section_.as_u8 sid) len) /\
  (1 < al -> zlen (out ++ hdr) mod al = 0).
Proof.
  split_and!; [by apply reads_read_header|by eapply reads_section_header|].
  intros Ha. rewrite <- Hw. unfold write_section_header. rewrite (proj2 (Z.ltb_lt 1 al) Ha).
  rewrite zlen_app, zlen_pad_bytes by lia. apply padding_aligns. lia.
Qed.

Lemma headers_roundtrip_witness :
  reads read_header [127; 84; 105; 108; 101; 73; 82; 0; 13; 4; 0; 0] V13_4 /\
  reads_at [1; 2; 3] read_section_header [129; 5; 4; 0xCB; 0xCB] (mkSectionHeader 1 5).
Proof.
  destruct (headers_roundtrip V13_4 [1; 2; 3] [129; 5; 4; 0xCB; 0xCB] Section_.String 5 4)
    as (H1 & H2 & _); [vm_compute; repeat split; congruence | discriminate
      | vm_compute; split; discriminate | vm_compute; split; discriminate | reflexivity |].
  split; [exact H1 | exact H2].
Defined.

(** the shift used by the 8-bit float conversions rounds to nearest,
    ties to even. *)
Lemma round_shift_nearest_even (v s : Z) (Hv : 0 <= v) (Hs : 0 < s < 64) :
  2 * Z.abs (round_shift_right_ties_even v s * 2 ^ s - v) <= 2 ^ s /\
  (2 * Z.abs (round_shift_right_ties_even v s * 2 ^ s - v) = 2 ^ s ->
   Z.even (round_shift_right_ties_even v s) = true).
Proof. by apply round_shift_spec. Qed.

Lemma round_shift_nearest_even_witness :
  2 * Z.abs (round_shift_right_ties_even 6 2 * 2 ^ 2 - 6) <= 2 ^ 2 /\
  Z.even (round_shift_right_ties_even 6 2) = true.
Proof.
  destruct (round_shift_nearest_even 6 2) as [H1 H2]; [lia | lia |].
  split; [exact H1 | apply H2; reflexivity].
Defined.

(** exactly representable values survive the 8-bit conversions.  Every
    finite F8E4M3FN and F8E5M2 code, widened to [f64], converts back to
    itself. *)
Lemma f8_codes_roundtrip :
  (forall c, c ∈ codes 256 -> Z.land c 127 <> 127 -> f64_to_f8e4m3fn (f8_to_f64 3 7 c) = c) /\
  (forall c, c ∈ codes 256 -> Z.land c 127 < 124 -> f64_to_f8e5m2 (f8_to_f64 2 15 c) = c).
Proof.
  assert (H1 : Forall (fun c => Z.land c 127 <> 127 -> f64_to_f8e4m3fn (f8_to_f64 3 7 c) = c) (codes 256)).
  { apply (bool_decide_eq_true_1 _). vm_compute. reflexivity. }
  assert (H2 : Forall (fun c => Z.land c 127 < 124 -> f64_to_f8e5m2 (f8_to_f64 2 15 c) = c) (codes 256)).
  { apply (bool_decide_eq_true_1 _). vm_compute. reflexivity. }
  rewrite Forall_forall in H1, H2. split; [exact H1 | exact H2].
Qed.
