(* ===== verification/IR.v ===== *)
(** * The Tile IR data model (cutile-ir/src/ir/, requirements.rs)

    Types, attributes, locations, operations and modules as the crate stores
    them, and the table of bytecode versions each feature needs. A [Value],
    [OpId], [BlockId] or [RegionId] is its index; an [f64] is its bit
    pattern. *)

From S2P Require Import Prelude Enums.

Definition DYNAMIC : Z := I64_MIN.

(** ** Types (ir/types.rs) *)

Module ScalarType.
Inductive t := I1 | I4 | I8 | I16 | I32 | I64 | F16 | BF16 | F32 | TF32 | F64 | F8E4M3FN | F8E5M2 | F8E8M0FNU | F4E2M1FN | F8E5M3FNU.
#[export] Instance eq_dec : EqDecision t.
Proof. solve_decision. Defined.
End ScalarType.
Export (hints) ScalarType.
Abbreviation ScalarType := ScalarType.t.

Definition byte_width (s : ScalarType) : Z :=
  match s with
  | ScalarType.I1 | ScalarType.I4 | ScalarType.I8 | ScalarType.F8E4M3FN | ScalarType.F8E5M2
  | ScalarType.F8E8M0FNU | ScalarType.F4E2M1FN | ScalarType.F8E5M3FNU => 1
  | ScalarType.I16 | ScalarType.F16 | ScalarType.BF16 => 2
  | ScalarType.I32 | ScalarType.F32 | ScalarType.TF32 => 4
  | ScalarType.I64 | ScalarType.F64 => 8
  end.

Definition type_tag (s : ScalarType) : TypeTag.t :=
  match s with
  | ScalarType.I1 => TypeTag.I1
  | ScalarType.I4 => TypeTag.I4
  | ScalarType.I8 => TypeTag.I8
  | ScalarType.I16 => TypeTag.I16
  | ScalarType.I32 => TypeTag.I32
  | ScalarType.I64 => TypeTag.I64
  | ScalarType.F16 => TypeTag.F16
  | ScalarType.BF16 => TypeTag.BF16
  | ScalarType.F32 => TypeTag.F32
  | ScalarType.TF32 => TypeTag.TF32
  | ScalarType.F64 => TypeTag.F64
  | ScalarType.F8E4M3FN => TypeTag.F8E4M3FN
  | ScalarType.F8E5M2 => TypeTag.F8E5M2
  | ScalarType.F8E8M0FNU => TypeTag.F8E8M0FNU
  | ScalarType.F4E2M1FN => TypeTag.F4E2M1FN
  | ScalarType.F8E5M3FNU => TypeTag.F8E5M3FNU
  end.

Definition is_integer (s : ScalarType) : bool :=
  match s with
  | ScalarType.I1 | ScalarType.I4 | ScalarType.I8 | ScalarType.I16 | ScalarType.I32 | ScalarType.I64 => true
  | _ => false
  end.
Definition is_float (s : ScalarType) : bool := negb (is_integer s).

(** The [{:?}] of a scalar type: its variant name. *)
Definition show_scalar (s : ScalarType) : string :=
  match s with
  | ScalarType.I1 => "I1"
  | ScalarType.I4 => "I4"
  | ScalarType.I8 => "I8"
  | ScalarType.I16 => "I16"
  | ScalarType.I32 => "I32"
  | ScalarType.I64 => "I64"
  | ScalarType.F16 => "F16"
  | ScalarType.BF16 => "BF16"
  | ScalarType.F32 => "F32"
  | ScalarType.TF32 => "TF32"
  | ScalarType.F64 => "F64"
  | ScalarType.F8E4M3FN => "F8E4M3FN"
  | ScalarType.F8E5M2 => "F8E5M2"
  | ScalarType.F8E8M0FNU => "F8E8M0FNU"
  | ScalarType.F4E2M1FN => "F4E2M1FN"
  | ScalarType.F8E5M3FNU => "F8E5M3FNU"
  end.

Inductive PaddingValue := PVZero | PVNegZero | PVNan | PVPosInf | PVNegInf.
Definition padding_u8 (p : PaddingValue) : Z :=
  match p with PVZero => 0 | PVNegZero => 1 | PVNan => 2 | PVPosInf => 3 | PVNegInf => 4 end.

(** [PointerAttribute::None] is an explicit attribute, not its absence. *)
Inductive PointerAttribute := PANone.
Definition pointer_attribute_u8 (a : PointerAttribute) : Z := match a with PANone => 0 end.

Record PointerType := mkPointerType { pointee : ScalarType }.
Inductive TileElementType := TEScalar (s : ScalarType) | TEPointer (p : PointerType).
Record TileType := mkTileType { tt_shape : list Z; tt_element_type : TileElementType }.
Record TensorViewType := mkTensorViewType {
  tv_element_type : ScalarType; tv_shape : list Z; tv_strides : list Z }.
Record PartitionViewType := mkPartitionViewType {
  pv_tile_shape : list Z; pv_tensor_view : TensorViewType; pv_dim_map : list Z;
  pv_padding_value : option PaddingValue }.
Record GatherScatterViewType := mkGatherScatterViewType {
  gsv_tile_shape : list Z; gsv_tensor_view : TensorViewType; gsv_sparse_dim : Z;
  gsv_padding_value : option PaddingValue }.
Record StridedViewType := mkStridedViewType {
  sv_tile_shape : list Z; sv_traversal_strides : list Z; sv_tensor_view : TensorViewType;
  sv_dim_map : list Z; sv_padding_value : option PaddingValue }.

Inductive IRType :=
| TScalar (s : ScalarType)
| TPointer (p : PointerType)
| TTile (t : TileType)
| TTensorView (t : TensorViewType)
| TPartitionView (t : PartitionViewType)
| TGatherScatterView (t : GatherScatterViewType)
| TStridedView (t : StridedViewType)
| TFunc (inputs results : list IRType)
| TToken
| TWithPointerAttribute (base : IRType) (attr : PointerAttribute).

#[export] Instance PaddingValue_eq_dec : EqDecision PaddingValue.
Proof. solve_decision. Defined.
#[export] Instance PointerAttribute_eq_dec : EqDecision PointerAttribute.
Proof. solve_decision. Defined.
#[export] Instance PointerType_eq_dec : EqDecision PointerType.
Proof. solve_decision. Defined.
#[export] Instance TileElementType_eq_dec : EqDecision TileElementType.
Proof. solve_decision. Defined.
#[export] Instance TileType_eq_dec : EqDecision TileType.
Proof. solve_decision. Defined.
#[export] Instance TensorViewType_eq_dec : EqDecision TensorViewType.
Proof. solve_decision. Defined.
#[export] Instance PartitionViewType_eq_dec : EqDecision PartitionViewType.
Proof. solve_decision. Defined.
#[export] Instance GatherScatterViewType_eq_dec : EqDecision GatherScatterViewType.
Proof. solve_decision. Defined.
#[export] Instance StridedViewType_eq_dec : EqDecision StridedViewType.
Proof. solve_decision. Defined.

(** Induction over types that reaches through the signature lists. *)
Lemma IRType_rect_list (P : IRType -> Prop)
    (Hs : forall s, P (TScalar s)) (Hp : forall p, P (TPointer p)) (Ht : forall t, P (TTile t))
    (Htv : forall t, P (TTensorView t)) (Hpv : forall t, P (TPartitionView t))
    (Hg : forall t, P (TGatherScatterView t)) (Hsv : forall t, P (TStridedView t))
    (Hf : forall i r, Forall P i -> Forall P r -> P (TFunc i r)) (Htok : P TToken)
    (Hw : forall b a, P b -> P (TWithPointerAttribute b a)) : forall t, P t.
Proof.
  fix IH 1. intros [s|p|t|t|t|t|t|i r| |b a].
  1-7: clear IH; auto.
  - apply Hf.
    + induction i as [|x i IHi]; constructor; [apply IH|exact IHi].
    + induction r as [|x r IHr]; constructor; [apply IH|exact IHr].
  - exact Htok.
  - apply Hw, IH.
Qed.

#[export] Instance IRType_eq_dec : EqDecision IRType.
Proof.
  refine (fix go (x y : IRType) : Decision (x = y) :=
    match x, y with
    | TScalar a, TScalar b => cast_if (decide (a = b))
    | TPointer a, TPointer b => cast_if (decide (a = b))
    | TTile a, TTile b => cast_if (decide (a = b))
    | TTensorView a, TTensorView b => cast_if (decide (a = b))
    | TPartitionView a, TPartitionView b => cast_if (decide (a = b))
    | TGatherScatterView a, TGatherScatterView b => cast_if (decide (a = b))
    | TStridedView a, TStridedView b => cast_if (decide (a = b))
    | TFunc i r, TFunc i' r' => 
        cast_if_and (@list_eq_dec _ go i i') (@list_eq_dec _ go r r')
    | TToken, TToken => left _
    | TWithPointerAttribute b a, TWithPointerAttribute b' a' => 
        cast_if_and (go b b') (decide (a = a'))
    | _, _ => right _
    end); clear go; abstract congruence.
Defined.

Fixpoint without_pointer_attribute (t : IRType) : IRType :=
  match t with
  | TWithPointerAttribute base _ => without_pointer_attribute base
  | _ => t
  end.
Definition with_pointer_attribute (t : IRType) (a : PointerAttribute) : IRType :=
  TWithPointerAttribute (without_pointer_attribute t) a.
Definition pointer_attribute (t : IRType) : option PointerAttribute :=
  match t with TWithPointerAttribute _ a => Some a | _ => None end.

(** ** Attributes (ir/attr.rs) *)

Record DivBy := mkDivBy { db_divisor : Z; db_every : option Z; db_along : option Z }.
Record BoundedAttr := mkBoundedAttr { ba_lb : option Z; ba_ub : option Z }.
Record DenseElements := mkDenseElements {
  de_element_type : IRType; de_shape : list Z; de_data : list Z }.

Inductive Attribute :=
| AInteger (v : Z) (ty : IRType)
| AFloat (bits : Z) (ty : IRType)
| ABool (b : bool)
| AType (ty : IRType)
| AString (s : string)
| AArray (elems : list Attribute)
| ADenseElements (de : DenseElements)
| ADenseI32Array (vs : list Z)
| ADivBy (d : DivBy)
| ASameElements (values : list Z)
| ADictionary (entries : list (string * Attribute))
| AOptimizationHints (entries : list (string * list (string * Attribute)))
| ABounded (b : BoundedAttr).

(** ** Locations (ir/location.rs) *)

Record DIFile := mkDIFile { df_name : string; df_directory : string }.
Record DICompileUnit := mkDICompileUnit { cu_file : DIFile }.
Record DISubprogram := mkDISubprogram {
  sp_file : DIFile; sp_line : Z; sp_name : string; sp_linkage_name : string;
  sp_compile_unit : DICompileUnit; sp_scope_line : Z }.
Inductive DebugScope :=
| Subprogram (sp : DISubprogram)
| LexicalBlock (scope : DebugScope) (file : DIFile) (line column : Z).
Inductive Location :=
| LocUnknown
| FileLineCol (filename : string) (line column : Z)
| DebugInfo (filename : string) (line column : Z) (scope : DebugScope)
| CallSite (callee caller : Location).

(** ** Operations and modules (ir/op.rs, block.rs, region.rs, value.rs, module.rs) *)

Record Operation := mkOperation {
  opcode : Opcode;
  operands : list Z;
  result_types : list IRType;
  attributes : list (string * Attribute);
  regions : list Z;
  location : Location;
}.
Record Block := mkBlock { block_args : list (Z * IRType); block_ops : list Z }.
Inductive ValueProducer := OpResult (op result_index : Z) | BlockArg (block arg_index : Z).
Record ValueData := mkValueData { vd_ty : IRType; vd_producer : ValueProducer }.
Inductive SymbolVisibility := Public | Private.
Definition visibility_u8 (v : SymbolVisibility) : Z := match v with Public => 0 | Private => 1 end.
Record Global := mkGlobal {
  sym_name : string; g_value : DenseElements; g_alignment : Z; g_constant : bool;
  symbol_visibility : SymbolVisibility }.
Record IRModule := mkIRModule {
  m_name : string;
  m_producer : option string;
  m_values : list ValueData;
  m_operations : list Operation;
  m_blocks : list Block;
  m_regions : list (list Z);
  m_functions : list Z;
  m_globals : list Global;
}.

(** ** Requirements (requirements.rs) *)

Inductive Architecture := Any | AtLeast (sm : Z) | Only (sm : Z).
Record Requirement := mkRequirement { since : BytecodeVersion; architecture : Architecture }.

Module Feature.
Inductive t :=
| Baseline
| Allocation
| Packing
| ScaledMma
| GatherScatterView
| StridedView
| AtomicRedView
| Insert
| IntegerPower
| GdcTokens
| AliasFence
| Int4
| Fp8
| E8Scale
| Fp4
| F8E5M3FNU
| NewScaleMma
| PointerAttribute
| NearestAway
| ExtendedFloatRounding
| SaturatingFToI
| Inbounds
| FastAccumulation
| ExpRounding
| Producer
| GlobalConstant
| GlobalVisibility
| WorkerWarps
| ClusterCta
| WorkerWarpsRestricted
| Bf16AtomicAdd
| LoopReturn
| HopperTarget
| RubinTarget
| ProgrammaticDependentLaunch.
#[export] Instance eq_dec : EqDecision t.
Proof. solve_decision. Defined.

Definition name (f : t) : string :=
  match f with
  | Baseline => "baseline Tile IR"
  | Allocation => "alloca"
  | Packing => "pack/unpack"
  | ScaledMma => "block-scaled MMA"
  | GatherScatterView => "gather_scatter_view"
  | StridedView => "strided_view"
  | AtomicRedView => "atomic_red_view_tko"
  | Insert => "insert"
  | IntegerPower => "fpowi"
  | GdcTokens => "GDC tokens"
  | AliasFence => "memory_fence_alias_tko"
  | Int4 => "i4"
  | Fp8 => "f8E4M3FN/f8E5M2"
  | E8Scale => "f8E8M0FNU"
  | Fp4 => "f4E2M1FN"
  | F8E5M3FNU => "f8E5M3FNU"
  | NewScaleMma => "cuda_tile.mmaf_scaled with f8E5M3FNU scales"
  | PointerAttribute => "ptr_attr"
  | NearestAway => "rounding_mode=nearest_away"
  | ExtendedFloatRounding => "ftof additional rounding modes (type-dependent)"
  | SaturatingFToI => "ftoi.saturating"
  | Inbounds => "inbounds=true"
  | FastAccumulation => "mmaf.fast_acc"
  | ExpRounding => "exp.rounding_mode (non-approximate)"
  | Producer => "module.producer"
  | GlobalConstant => "global.constant"
  | GlobalVisibility => "global.symbol_visibility"
  | WorkerWarps => "num_worker_warps_per_cta"
  | ClusterCta => "num_cta_in_cga greater than 1"
  | WorkerWarpsRestricted => "num_worker_warps_per_cta restricted to 4 or 8"
  | Bf16AtomicAdd => "bf16 atomic add"
  | LoopReturn => "return inside loop"
  | HopperTarget => "target sm_90"
  | RubinTarget => "target sm_107"
  | ProgrammaticDependentLaunch => "programmatic dependent launch"
  end.

Definition requirement (f : t) : Requirement :=
  match f with
  | Baseline => mkRequirement V13_2 (AtLeast 80)
  | Allocation => mkRequirement V13_3 Any
  | Packing => mkRequirement V13_3 Any
  | ScaledMma => mkRequirement V13_3 (AtLeast 100)
  | GatherScatterView => mkRequirement V13_3 Any
  | StridedView => mkRequirement V13_3 Any
  | AtomicRedView => mkRequirement V13_3 Any
  | Insert => mkRequirement V13_4 Any
  | IntegerPower => mkRequirement V13_4 Any
  | GdcTokens => mkRequirement V13_4 Any
  | AliasFence => mkRequirement V13_4 Any
  | Int4 => mkRequirement V13_3 Any
  | Fp8 => mkRequirement V13_2 (AtLeast 90)
  | E8Scale => mkRequirement V13_2 (AtLeast 100)
  | Fp4 => mkRequirement V13_3 (AtLeast 100)
  | F8E5M3FNU => mkRequirement V13_4 (AtLeast 107)
  | NewScaleMma => mkRequirement V13_4 (Only 107)
  | PointerAttribute => mkRequirement V13_4 Any
  | NearestAway => mkRequirement V13_4 Any
  | ExtendedFloatRounding => mkRequirement V13_4 Any
  | SaturatingFToI => mkRequirement V13_4 Any
  | Inbounds => mkRequirement V13_4 Any
  | FastAccumulation => mkRequirement V13_3 Any
  | ExpRounding => mkRequirement V13_3 Any
  | Producer => mkRequirement V13_3 Any
  | GlobalConstant => mkRequirement V13_3 Any
  | GlobalVisibility => mkRequirement V13_3 Any
  | WorkerWarps => mkRequirement V13_3 Any
  | ClusterCta => mkRequirement V13_2 (AtLeast 90)
  | WorkerWarpsRestricted => mkRequirement V13_4 Any
  | Bf16AtomicAdd => mkRequirement V13_3 (AtLeast 90)
  | LoopReturn => mkRequirement V13_4 Any
  | HopperTarget => mkRequirement V13_3 (Only 90)
  | RubinTarget => mkRequirement V13_4 (Only 107)
  | ProgrammaticDependentLaunch => mkRequirement V13_4 (AtLeast 90)
  end.

Definition since (f : t) : BytecodeVersion := IR.since (requirement f).

Definition ALL : list t :=
  [Baseline; Allocation; Packing; ScaledMma; GatherScatterView; StridedView; AtomicRedView; Insert; IntegerPower; GdcTokens; AliasFence; Int4; Fp8; E8Scale; Fp4; F8E5M3FNU; NewScaleMma; PointerAttribute; NearestAway; ExtendedFloatRounding; SaturatingFToI; Inbounds; FastAccumulation; ExpRounding; Producer; GlobalConstant; GlobalVisibility; WorkerWarps; ClusterCta; WorkerWarpsRestricted; Bf16AtomicAdd; LoopReturn; HopperTarget; RubinTarget; ProgrammaticDependentLaunch].
End Feature.
Export (hints) Feature.
Abbreviation Feature := Feature.t.

Definition TARGETS : list (Z * Feature) :=
  [(80, Feature.Baseline); (86, Feature.Baseline); (87, Feature.Baseline); (88, Feature.Baseline); (89, Feature.Baseline); (90, Feature.HopperTarget); (100, Feature.Baseline); (103, Feature.Baseline); (107, Feature.RubinTarget); (110, Feature.Baseline); (120, Feature.Baseline); (121, Feature.Baseline)].

Definition target_requirement (sm : Z) : option Requirement :=
  (fun e => Feature.requirement e.2) <$> find (fun e => e.1 =? sm) TARGETS.

Definition scalar_requirement (s : ScalarType) : Requirement :=
  Feature.requirement
    match s with
    | ScalarType.I4 => Feature.Int4
    | ScalarType.F8E4M3FN | ScalarType.F8E5M2 => Feature.Fp8
    | ScalarType.F8E8M0FNU => Feature.E8Scale
    | ScalarType.F4E2M1FN => Feature.Fp4
    | ScalarType.F8E5M3FNU => Feature.F8E5M3FNU
    | _ => Feature.Baseline
    end.

Definition minimum_version (s : ScalarType) : BytecodeVersion := since (scalar_requirement s).

Definition attribute_feature (op : Opcode) (name : string) (attr : Attribute) : option Feature :=
  match attr with
  | AInteger n _ =>
      if bool_decide (name = "rounding_mode"%string) then
        if n =? 7 then Some Feature.NearestAway
        else if bool_decide (op = Opcode.Exp) && negb (n =? 5) then Some Feature.ExpRounding
        else None
      else if bool_decide (name = "producer"%string) then Some Feature.Producer else None
  | ABool true =>
      if bool_decide (name = "saturating"%string) then Some Feature.SaturatingFToI
      else if bool_decide (name = "fast_acc"%string) then Some Feature.FastAccumulation
      else if bool_decide (name = "producer"%string) then Some Feature.Producer else None
  | AArray a =>
      if bool_decide (name = "inbounds"%string)
         && existsb (fun v => match v with ABool true => true | _ => false end) a
      then Some Feature.Inbounds
      else if bool_decide (name = "producer"%string) then Some Feature.Producer else None
  | _ => if bool_decide (name = "producer"%string) then Some Feature.Producer else None
  end.

Definition opcode_requirement (op : Opcode) : Requirement :=
  Feature.requirement
    match op with
    | Opcode.Pack => Feature.Packing
    | Opcode.Unpack => Feature.Packing
    | Opcode.Alloca => Feature.Allocation
    | Opcode.MmaFScaled => Feature.ScaledMma
    | Opcode.MakeGatherScatterView => Feature.GatherScatterView
    | Opcode.MakeStridedView => Feature.StridedView
    | Opcode.AtomicRedViewTko => Feature.AtomicRedView
    | Opcode.Insert => Feature.Insert
    | Opcode.GdcLaunchDependentsTko => Feature.GdcTokens
    | Opcode.GdcWaitTko => Feature.GdcTokens
    | Opcode.FPowI => Feature.IntegerPower
    | Opcode.MemoryFenceAliasTko => Feature.AliasFence
    | _ => Feature.Baseline
    end.


(** ** Lemmas *)

Lemma without_pointer_attribute_idem t :
  without_pointer_attribute (without_pointer_attribute t) = without_pointer_attribute t.
Proof. induction t; cbn; auto. Qed.

Lemma type_tag_scalar_inj s s' : type_tag s = type_tag s' -> s = s'.
Proof. by destruct s, s'. Qed.

(** Every requirement names a version the writer can emit. *)
Lemma requirement_supported f : Feature.since f ∈ SUPPORTED.
Proof. apply (bool_decide_eq_true_1 _). by destruct f. Qed.
