(* ===== verification/Text.v ===== *)
(** * Text: the string operations of the Rust standard library

    Strings are ASCII text. Searching, slicing, splitting, trimming, replacing
    and integer parsing as [str] has them, and the lemmas that evaluate them on
    a text assembled from literals and formatted numbers: a search skips a
    chunk in which the pattern cannot start, a split cuts a join, and a parsed
    decimal is the number that was printed. *)

From S2P Require Import Prelude BTree.
From Stdlib Require Import Ascii.

(** ** Operations *)

(** [s.starts_with(pat)]. *)
Fixpoint starts_with (pat s : string) : bool :=
  match pat, s with
  | EmptyString, _ => true
  | String a pat, String b s => if ascii_dec a b then starts_with pat s else false
  | String _ _, EmptyString => false
  end.

(** [s.find(pat)]: the position of the first occurrence. *)
Fixpoint str_find (pat s : string) : option nat :=
  if starts_with pat s then Some 0%nat
  else match s with EmptyString => None | String _ s => S <$> str_find pat s end.

Definition str_contains (pat s : string) : bool := is_some (str_find pat s).

(** [&s[..n]] and [&s[n..]], for [n] at most the length. *)
Fixpoint str_take (n : nat) (s : string) : string :=
  match n, s with
  | S n, String c s => String c (str_take n s)
  | _, _ => EmptyString
  end.

Fixpoint str_drop (n : nat) (s : string) : string :=
  match n, s with
  | S n, String _ s => str_drop n s
  | _, _ => s
  end.

(** [s.split(p)] for a predicate on characters: never empty. *)
Fixpoint str_split (p : ascii -> bool) (s : string) : list string :=
  match s with
  | EmptyString => [EmptyString]
  | String c s =>
      if p c then EmptyString :: str_split p s
      else match str_split p s with
           | part :: parts => String c part :: parts
           | [] => [String c EmptyString]
           end
  end.

Fixpoint trim_start_matches (p : ascii -> bool) (s : string) : string :=
  match s with
  | String c rest => if p c then trim_start_matches p rest else s
  | EmptyString => EmptyString
  end.

Fixpoint trim_end_matches (p : ascii -> bool) (s : string) : string :=
  match s with
  | EmptyString => EmptyString
  | String c s =>
      match trim_end_matches p s with
      | EmptyString => if p c then EmptyString else String c EmptyString
      | s => String c s
      end
  end.

(** The ASCII part of [White_Space]. *)
Definition is_whitespace (c : ascii) : bool :=
  let n := nat_of_ascii c in ((9 <=? n) && (n <=? 13) || (n =? 32))%nat.

Definition trim (s : string) : string := trim_end_matches is_whitespace (trim_start_matches is_whitespace s).

(** [s.strip_suffix(pat)]. *)
Definition strip_suffix (pat s : string) : option string :=
  let n := (String.length s - String.length pat)%nat in
  if (String.length pat <=? String.length s)%nat && bool_decide (str_drop n s = pat) then Some (str_take n s) else None.

(** [s.trim_end_matches(pat)] for a string: strips as long as it can. *)
Fixpoint trim_end_str (fuel : nat) (pat s : string) : string :=
  match fuel with
  | O => s
  | S fuel => match strip_suffix pat s with Some s => trim_end_str fuel pat s | None => s end
  end.

(** [s.replace(pat, empty)]: [skip] characters of an occurrence are still to
    be dropped. *)
Fixpoint str_remove (pat : string) (skip : nat) (s : string) : string :=
  match s with
  | EmptyString => EmptyString
  | String c rest =>
      match skip with
      | S skip => str_remove pat skip rest
      | O => if starts_with pat s then str_remove pat (String.length pat - 1) rest
             else String c (str_remove pat 0 rest)
      end
  end.

(** [s.parse()] for a signed type with range [lo..=hi]. Reading the digits
    before testing the range is the same as testing after each digit: the
    partial values only move away from zero. *)
Definition digit_value (c : ascii) : option Z :=
  let n := Z.of_nat (nat_of_ascii c) in
  if (48 <=? n) && (n <=? 57) then Some (n - 48) else None.

Fixpoint digits_value (acc : Z) (s : string) : option Z :=
  match s with
  | EmptyString => Some acc
  | String c s => d ← digit_value c; digits_value (acc * 10 + d) s
  end.

Definition parse_magnitude (s : string) : option Z :=
  match s with EmptyString => None | _ => digits_value 0 s end.

Definition parse_int (lo hi : Z) (s : string) : option Z :=
  n ← match s with
      | String "-"%char rest => Z.opp <$> parse_magnitude rest
      | String "+"%char rest => parse_magnitude rest
      | _ => parse_magnitude s
      end;
  if (lo <=? n) && (n <=? hi) then Some n else None.

Definition parse_i64 : string -> option Z := parse_int I64_MIN I64_MAX.
Definition parse_i32 : string -> option Z := parse_int I32_MIN I32_MAX.

(** [s.parse()] for an unsigned type with maximum [hi]: no minus sign. *)
Definition parse_uint (hi : Z) (s : string) : option Z :=
  n ← match s with String "+"%char rest => parse_magnitude rest | _ => parse_magnitude s end;
  if n <=? hi then Some n else None.

(** ** Lines and words *)

Definition newline : ascii := ascii_of_nat 10.
Definition carriage_return : ascii := ascii_of_nat 13.

Definition strip_cr (s : string) : string := default s (strip_suffix (String carriage_return EmptyString) s).

(** [str::lines]: the end of a line is not part of it, and no line follows the
    last newline. *)
Definition lines (s : string) : list string :=
  let parts := str_split (fun c => bool_decide (c = newline)) s in
  ((strip_cr <$> take (length parts - 1) parts) ++
  match last parts with Some l => if bool_decide (l = EmptyString) then [] else [l] | None => [] end)%list.

(** [s.split_whitespace()]. *)
Definition split_whitespace (s : string) : list string :=
  filter (fun w => w <> EmptyString) (str_split is_whitespace s).

(** ** Concatenation *)

Lemma sapp_cons c a b : String c a +:+ b = String c (a +:+ b).
Proof. reflexivity. Qed.

Lemma sapp_nil b : EmptyString +:+ b = b.
Proof. reflexivity. Qed.

Lemma sapp_empty_r a : a +:+ EmptyString = a.
Proof. induction a as [|c a IH]; [done|]. by rewrite sapp_cons, IH. Qed.

Lemma sapp_assoc a b c : (a +:+ b) +:+ c = a +:+ (b +:+ c).
Proof. induction a as [|x a IH]; [done|]. by rewrite !sapp_cons, IH. Qed.

Lemma length_sapp a b : String.length (a +:+ b) = (String.length a + String.length b)%nat.
Proof. induction a as [|c a IH]; [done|]. rewrite sapp_cons. cbn [String.length Nat.add]. by rewrite IH. Qed.

Lemma str_take_app a b n : str_take (String.length a + n) (a +:+ b) = a +:+ str_take n b.
Proof. induction a as [|c a IH]; [done|]. rewrite !sapp_cons. cbn [String.length Nat.add str_take]. by rewrite IH. Qed.

Lemma str_drop_app a b n : str_drop (String.length a + n) (a +:+ b) = str_drop n b.
Proof. by induction a. Qed.

Lemma str_take_0 s : str_take 0 s = EmptyString.
Proof. by destruct s. Qed.

Lemma str_take_exact a b : str_take (String.length a) (a +:+ b) = a.
Proof.
  rewrite <- (Nat.add_0_r (String.length a)), str_take_app. replace (str_take 0 b) with EmptyString by (by destruct b).
  apply sapp_empty_r.
Qed.

Lemma str_drop_exact a b : str_drop (String.length a) (a +:+ b) = b.
Proof. rewrite <- (Nat.add_0_r (String.length a)), str_drop_app. by destruct b. Qed.

(** ** Searching *)

(** The pattern occurs at no position of [a] in [a +:+ r]. *)
Fixpoint skips (pat a r : string) : bool :=
  match a with
  | EmptyString => true
  | String c a => negb (starts_with pat (String c (a +:+ r))) && skips pat a r
  end.

Lemma str_find_skip pat a r : skips pat a r = true ->
  str_find pat (a +:+ r) = (fun n => (String.length a + n)%nat) <$> str_find pat r.
Proof.
  induction a as [|c a IH]; intros H; [rewrite sapp_nil; by destruct (str_find pat r)|].
  cbn [skips] in H. apply andb_prop in H as [Hp H]. rewrite sapp_cons. cbn [str_find].
  apply negb_true_iff in Hp. rewrite Hp, IH by done. by destruct (str_find pat r).
Qed.

Lemma starts_with_self pat r : starts_with pat (pat +:+ r) = true.
Proof. induction pat as [|c pat IH]; [by destruct r|]. rewrite sapp_cons. cbn [starts_with]. by destruct (ascii_dec c c). Qed.

Lemma str_find_here pat r : str_find pat (pat +:+ r) = Some 0%nat.
Proof.
  pose proof (starts_with_self pat r) as H. by destruct (pat +:+ r); cbn [str_find]; rewrite H.
Qed.

(** A chunk without the first character of the pattern is skipped; so is one
    without the second, unless that follows the chunk. *)
Fixpoint str_all (p : ascii -> bool) (s : string) : bool :=
  match s with EmptyString => true | String c s => p c && str_all p s end.

Lemma str_all_app p a b : str_all p (a +:+ b) = str_all p a && str_all p b.
Proof. induction a as [|c a IH]; [done|]. rewrite sapp_cons. cbn. by rewrite IH, andb_assoc. Qed.

Lemma str_all_impl (p q : ascii -> bool) s : (forall c, p c = true -> q c = true) -> str_all p s = true -> str_all q s = true.
Proof.
  intros Hpq. induction s as [|c s IH]; [done|]. cbn. intros [Hc Hs]%andb_prop. by rewrite (Hpq c Hc), IH.
Qed.

Lemma starts_with_absent pat1 c pat2 s :
  str_all (fun x => negb (bool_decide (x = c))) (str_take (S (String.length pat1)) s) = true ->
  starts_with (pat1 +:+ String c pat2) s = false.
Proof.
  revert s. induction pat1 as [|x pat1 IH]; intros [|y s] H.
  - done.
  - rewrite sapp_nil. cbn [starts_with]. destruct (ascii_dec c y) as [->|]; [|done].
    cbn in H. by rewrite bool_decide_true in H.
  - by rewrite sapp_cons.
  - rewrite sapp_cons. cbn [starts_with]. destruct (ascii_dec x y); [|done]. apply IH.
    cbn [String.length str_take str_all] in *. by apply andb_prop in H as [_ H].
Qed.

(** The character [c] of the pattern is neither in the chunk nor among the
    characters after it that an occurrence would reach. *)
Lemma skips_char p pat1 c pat2 a r : str_all p a = true -> p c = false ->
  str_all (fun x => negb (bool_decide (x = c))) (str_take (String.length pat1) r) = true ->
  skips (pat1 +:+ String c pat2) a r = true.
Proof.
  intros Ha Hc Hr. induction a as [|x a IH]; [done|]. cbn [str_all] in Ha. apply andb_prop in Ha as [Hx Ha].
  cbn [skips]. rewrite IH by done. rewrite starts_with_absent; [done|].
  change (String x (a +:+ r)) with (String x a +:+ r). cbn [String.length].
  assert (Htake : forall n b, str_all p b = true -> (n <= String.length pat1)%nat ->
    str_all (fun x => negb (bool_decide (x = c))) (str_take n (b +:+ r)) = true).
  { clear -Hc Hr. intros n b. revert n. induction b as [|y b IHb]; intros n Hb Hn.
    - rewrite sapp_nil. revert Hr Hn. generalize (String.length pat1). revert n. induction r as [|z r IHr]; intros [|n] [|m] Hr Hn;
        try done; [lia|]. cbn [str_take str_all] in *. apply andb_prop in Hr as [Hz Hr]. rewrite Hz. apply (IHr n m); [done|lia].
    - destruct n as [|n]; [done|]. rewrite sapp_cons. cbn [str_take str_all] in *. apply andb_prop in Hb as [Hy Hb].
      rewrite IHb by (done || lia). case_bool_decide; [by subst; rewrite Hc in Hy|done]. }
  rewrite sapp_cons. cbn [str_take str_all]. rewrite Htake by done.
  case_bool_decide; [by subst; rewrite Hc in Hx|done].
Qed.

(** ** Splitting *)

Lemma str_split_one p s : str_all (fun c => negb (p c)) s = true -> str_split p s = [s].
Proof.
  induction s as [|c s IH]; [done|]. cbn [str_all str_split]. intros [Hc Hs]%andb_prop.
  apply negb_true_iff in Hc. by rewrite Hc, IH.
Qed.

Lemma str_split_app p a c r : str_all (fun c => negb (p c)) a = true -> p c = true ->
  str_split p (a +:+ String c r) = a :: str_split p r.
Proof.
  intros Ha Hc. induction a as [|x a IH]; [rewrite sapp_nil; cbn [str_split]; by rewrite Hc|]. rewrite sapp_cons. cbn [str_all str_split] in *.
  apply andb_prop in Ha as [Hx Ha]. apply negb_true_iff in Hx. by rewrite Hx, IH.
Qed.

Lemma str_split_join p c parts : p c = true -> Forall (fun s => str_all (fun c => negb (p c)) s = true) parts ->
  parts <> [] -> str_split p (join (String c EmptyString) parts) = parts.
Proof.
  intros Hc. induction 1 as [|s parts Hs Hf IH]; [done|]. intros _. destruct parts as [|s' parts].
  - by apply str_split_one.
  - cbn [join]. rewrite (sapp_cons c), sapp_nil, str_split_app by done. f_equal. by apply IH.
Qed.

Lemma join_snoc sep parts last : parts <> [] -> join sep (parts ++ [last]) = join sep parts +:+ sep +:+ last.
Proof.
  induction parts as [|s parts IH]; [done|]. intros _. destruct parts as [|s' parts]; [done|].
  change ((s :: s' :: parts) ++ [last]) with (s :: ((s' :: parts) ++ [last])).
  assert (Hj : forall l, l <> [] -> join sep (s :: l) = s +:+ sep +:+ join sep l) by (by intros [|]).
  rewrite !Hj by done. rewrite IH by done. by rewrite !sapp_assoc.
Qed.

Lemma str_all_join p sep parts : str_all p sep = true -> Forall (fun s => str_all p s = true) parts ->
  str_all p (join sep parts) = true.
Proof.
  intros Hsep. induction 1 as [|s parts Hs Hf IH]; [done|]. destruct parts as [|s' parts]; [done|].
  change (join sep (s :: s' :: parts)) with (s +:+ sep +:+ join sep (s' :: parts)).
  by rewrite !str_all_app, Hs, Hsep, IH.
Qed.

(** ** Trimming *)

Lemma trim_end_app p a b : trim_end_matches p b <> EmptyString ->
  trim_end_matches p (a +:+ b) = a +:+ trim_end_matches p b.
Proof.
  intros Hb. induction a as [|c a IH]; [done|]. rewrite sapp_cons. cbn [trim_end_matches]. rewrite IH, sapp_cons.
  destruct (a +:+ trim_end_matches p b) eqn:E; [|done]. exfalso. apply Hb. by destruct a.
Qed.

Lemma trim_end_none p s : str_all (fun c => negb (p c)) s = true -> trim_end_matches p s = s.
Proof.
  induction s as [|c s IH]; [done|]. cbn [str_all trim_end_matches]. intros [Hc Hs]%andb_prop.
  rewrite IH by done. apply negb_true_iff in Hc. rewrite Hc. by destruct s.
Qed.

Lemma trim_start_none p s : str_all (fun c => negb (p c)) s = true -> trim_start_matches p s = s.
Proof. destruct s as [|c s]; [done|]. cbn. intros [Hc _]%andb_prop. apply negb_true_iff in Hc. by rewrite Hc. Qed.

Lemma trim_none s : str_all (fun c => negb (is_whitespace c)) s = true -> trim s = s.
Proof. intros H. unfold trim. by rewrite trim_start_none, trim_end_none. Qed.

Lemma trim_end_snoc p a c : p c = true -> trim_end_matches p (a +:+ String c EmptyString) = trim_end_matches p a.
Proof.
  intros Hc. induction a as [|x a IH]; [rewrite sapp_nil; cbn; by rewrite Hc|].
  rewrite sapp_cons. cbn [trim_end_matches]. by rewrite IH.
Qed.

Lemma str_all_drop p n s : str_all p s = true -> str_all p (str_drop n s) = true.
Proof. revert n. induction s as [|c s IH]; intros [|n] H; try done. cbn in H |- *. apply andb_prop in H as [_ H]. by apply IH. Qed.

(** A text without some character of the suffix keeps its end. *)
Lemma strip_suffix_absent p pat s : str_all p s = true -> str_all p pat = false -> strip_suffix pat s = None.
Proof.
  intros Hs Hp. unfold strip_suffix. case_bool_decide as E; [|by rewrite andb_false_r].
  rewrite <- E, str_all_drop in Hp by done. done.
Qed.

Lemma trim_end_length p s : (String.length (trim_end_matches p s) <= String.length s)%nat.
Proof.
  induction s as [|c s IH]; [done|]. cbn [trim_end_matches String.length].
  destruct (trim_end_matches p s) as [|x t]; [destruct (p c); cbn; lia|]. cbn [String.length] in *. lia.
Qed.

Lemma trim_start_length p s : (String.length (trim_start_matches p s) <= String.length s)%nat.
Proof. induction s as [|c s IH]; [done|]. cbn [trim_start_matches]. destruct (p c); cbn [String.length]; lia. Qed.

(** ** Replacing *)

Lemma str_remove_skip pat a r : skips pat a r = true -> str_remove pat 0 (a +:+ r) = a +:+ str_remove pat 0 r.
Proof.
  induction a as [|c a IH]; [done|]. cbn [skips]. intros [Hp H]%andb_prop. apply negb_true_iff in Hp.
  rewrite sapp_cons. cbn [str_remove]. by rewrite Hp, IH.
Qed.

Lemma str_remove_drop pat n s : str_remove pat n s = str_remove pat 0 (str_drop n s).
Proof. revert s. induction n as [|n IH]; intros [|c s]; try done. cbn. apply IH. Qed.

Lemma str_remove_here pat r : pat <> EmptyString -> str_remove pat 0 (pat +:+ r) = str_remove pat 0 r.
Proof.
  intros Hp. pose proof (starts_with_self pat r) as H. destruct pat as [|c pat]; [done|].
  rewrite sapp_cons in *. cbn [str_remove]. rewrite H, str_remove_drop. cbn [String.length].
  replace (S (String.length pat) - 1)%nat with (String.length pat) by lia. by rewrite str_drop_exact.
Qed.

Lemma str_remove_shorter pat s n : (String.length (str_remove pat n s) <= String.length s)%nat.
Proof.
  revert n. induction s as [|c s IH]; intros n; [done|]. cbn [str_remove]. destruct n as [|n].
  - destruct (starts_with pat _); cbn [String.length].
    + specialize (IH (String.length pat - 1)%nat). lia.
    + specialize (IH 0%nat). lia.
  - specialize (IH n). cbn [String.length]. lia.
Qed.

Lemma str_remove_contained pat s : str_contains pat s = true -> pat <> EmptyString ->
  (String.length (str_remove pat 0 s) < String.length s)%nat.
Proof.
  intros Hc Hp. unfold str_contains in Hc. induction s as [|c s IH].
  { destruct pat; [done|]. cbn in Hc. done. }
  cbn [str_find str_remove] in *. destruct (starts_with pat _).
  - pose proof (str_remove_shorter pat s (String.length pat - 1)). cbn [String.length]. lia.
  - cbn [String.length]. destruct (str_find pat s); [|done]. specialize (IH eq_refl). lia.
Qed.

(** ** Decimal numbers *)

Definition is_digit (c : ascii) : bool := is_some (digit_value c).

(** The characters of a joined list of printed numbers. *)
Definition is_numeric (c : ascii) : bool :=
  is_digit c || existsb (Ascii.eqb c) ["-"; "?"; "x"; ","]%char.

Lemma pretty_N_char_digit x : (x < 10)%N -> digit_value (pretty_N_char x) = Some (Z.of_N x).
Proof.
  intros H. assert (x = 0 \/ x = 1 \/ x = 2 \/ x = 3 \/ x = 4 \/ x = 5 \/ x = 6 \/ x = 7 \/ x = 8 \/ x = 9)%N as Hx by lia.
  repeat (destruct Hx as [->|Hx]; [reflexivity|]). by subst x.
Qed.

(** Printing in front of a suffix: the suffix is read after the number. *)
Lemma pretty_N_go_value x s acc : acc = 0 ->
  digits_value acc (pretty_N_go x s) = digits_value (Z.of_N x) s.
Proof.
  intros ->. revert s. induction (N.lt_wf_0 x) as [x _ IH]; intros s.
  destruct (decide (x = 0)%N) as [->|Hx]; [by rewrite pretty_N_go_0|].
  rewrite pretty_N_go_step by lia. rewrite IH by (apply N.div_lt; lia).
  cbn [digits_value]. rewrite pretty_N_char_digit by (apply N.mod_lt; lia). cbn [mbind option_bind]. f_equal.
  pose proof (N.div_mod x 10 ltac:(done)). lia.
Qed.

Lemma pretty_N_go_all p x s : (forall c, is_digit c = true -> p c = true) -> str_all p s = true ->
  str_all p (pretty_N_go x s) = true.
Proof.
  intros Hp. revert s. induction (N.lt_wf_0 x) as [x _ IH]; intros s Hs.
  destruct (decide (x = 0)%N) as [->|Hx]; [by rewrite pretty_N_go_0|].
  rewrite pretty_N_go_step by lia. apply IH; [apply N.div_lt; lia|]. cbn [str_all]. rewrite Hs, andb_true_r.
  apply Hp. unfold is_digit. by rewrite pretty_N_char_digit by (apply N.mod_lt; lia).
Qed.

Lemma pretty_N_nonempty x s : (x <> 0)%N \/ s <> EmptyString -> pretty_N_go x s <> EmptyString.
Proof.
  revert s. induction (N.lt_wf_0 x) as [x _ IH]; intros s H.
  destruct (decide (x = 0)%N) as [->|Hx]; [rewrite pretty_N_go_0; by destruct H|].
  rewrite pretty_N_go_step by lia. apply IH; [apply N.div_lt; lia|]. by right.
Qed.

Lemma pretty_positive_digits (x : positive) :
  parse_magnitude (pretty x) = Some (Zpos x) /\ str_all is_digit (pretty x) = true.
Proof.
  unfold pretty, pretty_positive, pretty, pretty_N. rewrite decide_False by done. split.
  - pose proof (pretty_N_nonempty (Npos x) EmptyString ltac:(by left)) as Hne.
    pose proof (pretty_N_go_value (Npos x) EmptyString 0 eq_refl) as Hv.
    destruct (pretty_N_go (Npos x) EmptyString); [done|]. exact Hv.
  - by apply pretty_N_go_all.
Qed.

(** A printed number is parsed back wherever it is in range. *)
Lemma parse_int_pretty lo hi (z : Z) : lo <= z <= hi -> parse_int lo hi (pretty z) = Some z.
Proof.
  intros Hz. unfold parse_int.
  enough (match pretty z with
          | String "-"%char rest => Z.opp <$> parse_magnitude rest
          | String "+"%char rest => parse_magnitude rest
          | _ => parse_magnitude (pretty z)
          end = Some z) as ->.
  { cbn [mbind option_bind]. by replace ((lo <=? z) && (z <=? hi)) with true by lia. }
  destruct z as [|x|x]; [done| |].
  - destruct (pretty_positive_digits x) as [Hm Hd]. change (pretty (Zpos x)) with (pretty x).
    destruct (pretty x) as [|c s]; [done|]. cbn [str_all] in Hd. apply andb_prop in Hd as [Hc _].
    destruct c as [[] [] [] [] [] [] [] []]; try exact Hm; discriminate Hc.
  - change (pretty (Zneg x)) with ("-" +:+ pretty x). rewrite sapp_cons, sapp_nil.
    destruct (pretty_positive_digits x) as [-> _]. done.
Qed.

Lemma pretty_Z_all p (z : Z) : (forall c, is_digit c = true -> p c = true) -> p "-"%char = true ->
  str_all p (pretty z) = true.
Proof.
  intros Hd Hm. destruct z as [|x|x].
  - cbn. by rewrite Hd.
  - change (pretty (Zpos x)) with (pretty x). eapply str_all_impl; [exact Hd|]. apply pretty_positive_digits.
  - change (pretty (Zneg x)) with ("-" +:+ pretty x). rewrite sapp_cons, sapp_nil. cbn [str_all].
    rewrite Hm. eapply str_all_impl; [exact Hd|]. apply pretty_positive_digits.
Qed.

Lemma is_digit_code c : is_digit c = true -> (48 <= nat_of_ascii c <= 57)%nat.
Proof.
  unfold is_digit, digit_value. destruct ((48 <=? Z.of_nat (nat_of_ascii c)) && (Z.of_nat (nat_of_ascii c) <=? 57)) eqn:E; [|done].
  intros _. lia.
Qed.

(** Characters that are no digit are told apart from digits by evaluation. *)
Lemma digit_not c (p : ascii -> bool) :
  forallb (fun n => p (ascii_of_nat n)) (seq 48 10) = true -> is_digit c = true -> p c = true.
Proof.
  intros Hp Hc. apply is_digit_code in Hc. rewrite <- (ascii_nat_embedding c).
  rewrite forallb_forall in Hp. apply (Hp (nat_of_ascii c)). apply in_seq. lia.
Qed.

(** A test on the characters of printed numbers, by evaluation. *)
Lemma pretty_Z_chars p (z : Z) : forallb (fun n => p (ascii_of_nat n)) (45 :: seq 48 10)%nat = true ->
  str_all p (pretty z) = true.
Proof.
  cbn [forallb]. intros [Hm Hd]%andb_prop. apply pretty_Z_all; [|exact Hm]. intros c. by apply digit_not.
Qed.

(** ** Patterns inside or absent from a text *)

Lemma starts_with_app pat s r : (String.length pat <= String.length s)%nat ->
  starts_with pat (s +:+ r) = starts_with pat s.
Proof.
  revert s. induction pat as [|c pat IH]; intros [|x s] H; try done; [by cbn in H; lia|].
  rewrite sapp_cons. cbn [starts_with]. destruct (ascii_dec c x); [|done]. apply IH. cbn in H. lia.
Qed.

Lemma starts_with_length pat s : starts_with pat s = true -> (String.length pat <= String.length s)%nat.
Proof.
  revert s. induction pat as [|c pat IH]; intros [|x s]; cbn [starts_with String.length]; try done; [lia|].
  destruct (ascii_dec c x); [|done]. intros H%IH. lia.
Qed.

Lemma str_find_length pat s n : str_find pat s = Some n -> (String.length pat <= String.length s)%nat.
Proof.
  revert n. induction s as [|c s IH]; intros n; cbn [str_find]; destruct (starts_with pat _) eqn:E;
    try (intros _; by apply starts_with_length in E); [done|].
  destruct (str_find pat s); [|done]. intros _. specialize (IH _ eq_refl). cbn. lia.
Qed.

(** An occurrence inside a chunk is found whatever follows. *)
Lemma str_find_in pat a r n : str_find pat a = Some n -> str_find pat (a +:+ r) = Some n.
Proof.
  revert n. induction a as [|c a IH]; intros n H.
  - cbn in H. destruct pat; [|done]. injection H as <-. rewrite sapp_nil. by destruct r.
  - pose proof (str_find_length _ _ _ H) as Hl. cbn [str_find] in H. rewrite sapp_cons. cbn [str_find].
    rewrite <- sapp_cons, starts_with_app by done. destruct (starts_with pat (String c a)); [done|].
    destruct (str_find pat a) as [k|]; [|done]. by rewrite (IH k eq_refl).
Qed.

Lemma starts_with_all p pat s : starts_with pat s = true -> str_all p s = true -> str_all p pat = true.
Proof.
  revert s. induction pat as [|c pat IH]; intros [|x s]; cbn [starts_with str_all]; try done.
  destruct (ascii_dec c x) as [->|]; [|done]. intros H [Hx Hs]%andb_prop. rewrite Hx. by eapply IH.
Qed.

(** A text without some character of the pattern does not contain it. *)
Lemma str_find_absent p pat s : str_all p s = true -> str_all p pat = false -> str_find pat s = None.
Proof.
  intros Hs Hp. induction s as [|c s IH]; cbn [str_find].
  - destruct (starts_with pat EmptyString) eqn:E; [|done]. by rewrite (starts_with_all p _ _ E) in Hp.
  - destruct (starts_with pat (String c s)) eqn:E; [by rewrite (starts_with_all p _ _ E) in Hp|].
    cbn [str_all] in Hs. apply andb_prop in Hs as [_ Hs]. by rewrite IH.
Qed.

(** A text contains its middle. *)
Lemma str_find_mid pat a b : exists n, str_find pat (a +:+ pat +:+ b) = Some n.
Proof.
  induction a as [|c a [n IH]]; [exists 0%nat; rewrite sapp_nil; apply str_find_here|].
  rewrite sapp_cons. cbn [str_find]. destruct (starts_with pat _); [by eexists|]. rewrite IH. by eexists.
Qed.

Lemma str_find_bound pat s n : str_find pat s = Some n -> (n + String.length pat <= String.length s)%nat.
Proof.
  revert n. induction s as [|c s IH]; intros n; cbn [str_find]; destruct (starts_with pat _) eqn:E;
    try (intros [= <-]; by apply starts_with_length in E).
  destruct (str_find pat s) as [k|]; [|done]. intros [= <-]. specialize (IH _ eq_refl). cbn [String.length]. lia.
Qed.

Lemma str_drop_le n a b : (n <= String.length a)%nat -> str_drop n (a +:+ b) = str_drop n a +:+ b.
Proof.
  revert a. induction n as [|n IH]; intros a H; [done|]. destruct a as [|c a]; [by cbn in H; lia|].
  rewrite sapp_cons. cbn [str_drop]. apply IH. cbn in H. lia.
Qed.

Lemma str_take_le n a b : (n <= String.length a)%nat -> str_take n (a +:+ b) = str_take n a.
Proof.
  revert a. induction n as [|n IH]; intros a H; [by rewrite !str_take_0|]. destruct a as [|c a]; [by cbn in H; lia|].
  rewrite sapp_cons. cbn [str_take]. f_equal. apply IH. cbn in H. lia.
Qed.

Lemma str_take_drop n s : str_take n s +:+ str_drop n s = s.
Proof. revert s. induction n as [|n IH]; intros [|c s]; try done. cbn [str_take str_drop]. by rewrite sapp_cons, IH. Qed.

Lemma str_all_take p n s : str_all p s = true -> str_all p (str_take n s) = true.
Proof. intros H. rewrite <- (str_take_drop n s), str_all_app in H. by apply andb_prop in H as [? _]. Qed.

(** A text that starts and ends with printing characters is trimmed already. *)
Lemma trim_tight c a d : is_whitespace c = false -> is_whitespace d = false ->
  trim (String c (a +:+ String d EmptyString)) = String c (a +:+ String d EmptyString).
Proof.
  intros Hc Hd. unfold trim. cbn [trim_start_matches]. rewrite Hc. rewrite <- sapp_cons.
  assert (Hb : trim_end_matches is_whitespace (String d EmptyString) = String d EmptyString) by (cbn; by rewrite Hd).
  rewrite trim_end_app; by rewrite Hb.
Qed.

(** Shows that a search skips a chunk: a literal by evaluation, a chunk of the
    characters [p], as [tac] shows, by a character of the pattern outside
    [p]. *)
Ltac skip_by p tac :=
  match goal with
  | |- skips (String ?c ?q) ?a ?r = true =>
      exact (skips_char p EmptyString c q a r ltac:(tac) ltac:(vm_compute; reflexivity) ltac:(vm_compute; reflexivity))
  | |- skips (String ?c0 (String ?c ?q)) ?a ?r = true =>
      exact (skips_char p (String c0 EmptyString) c q a r ltac:(tac) ltac:(vm_compute; reflexivity) ltac:(vm_compute; reflexivity))
  | |- skips (String ?c0 (String ?c1 (String ?c ?q))) ?a ?r = true =>
      exact (skips_char p (String c0 (String c1 EmptyString)) c q a r ltac:(tac) ltac:(vm_compute; reflexivity) ltac:(vm_compute; reflexivity))
  end.

(** Evaluates searches through a text: [tac] shows that a chunk is skipped. *)
Ltac scan tac :=
  repeat match goal with
  | |- context [str_find ?p (?a +:+ ?r)] =>
      first [ rewrite (str_find_skip p a r) by (first [tac | vm_compute; reflexivity])
            | let n := eval vm_compute in (str_find p a) in
              match n with Some ?k => rewrite (str_find_in p a r k) by reflexivity end ]
  end; cbn [fmap option_fmap option_map].

(** Drops a literal prefix of a text. *)
Ltac drop_literal :=
  repeat match goal with
  | |- context [str_drop ?n (?a +:+ ?r)] =>
      let k := eval vm_compute in (Nat.leb n (String.length a)) in
      match k with
      | true =>
          let b := eval vm_compute in (str_drop n a) in
          match b with
          | EmptyString => change (str_drop n (a +:+ r)) with r
          | _ => change (str_drop n (a +:+ r)) with (b +:+ r)
          end
      end
  end.

(** Slices of a text at a position that a search returned. *)
Ltac slice :=
  rewrite <- ?Nat.add_assoc; repeat first [rewrite str_take_app | rewrite str_drop_app];
  drop_literal; rewrite ?str_take_0, ?sapp_empty_r.

(** ** The byte order of strings, [Ord for str] *)

Fixpoint string_ltb (a b : string) : bool :=
  match a, b with
  | _, EmptyString => false
  | EmptyString, String _ _ => true
  | String c a, String d b =>
      (nat_of_ascii c <? nat_of_ascii d)%nat || ((nat_of_ascii c =? nat_of_ascii d)%nat && string_ltb a b)
  end.

Lemma string_ltb_irrefl a : string_ltb a a = false.
Proof. induction a as [|c a IH]; [done|]. cbn [string_ltb]. rewrite Nat.ltb_irrefl, Nat.eqb_refl. done. Qed.

Lemma ascii_code_inj c d : nat_of_ascii c = nat_of_ascii d -> c = d.
Proof. intros H. rewrite <- (ascii_nat_embedding c), <- (ascii_nat_embedding d). by rewrite H. Qed.

#[export] Instance string_ltb_strict : StrictTotal string_ltb.
Proof.
  split.
  - apply string_ltb_irrefl.
  - intros a. induction a as [|x a IH]; intros [|y b] [|z c]; cbn [string_ltb]; try done.
    destruct (Nat.ltb_spec (nat_of_ascii x) (nat_of_ascii y)), (Nat.ltb_spec (nat_of_ascii y) (nat_of_ascii z)),
      (Nat.ltb_spec (nat_of_ascii x) (nat_of_ascii z)), (Nat.eqb_spec (nat_of_ascii x) (nat_of_ascii y)),
      (Nat.eqb_spec (nat_of_ascii y) (nat_of_ascii z)), (Nat.eqb_spec (nat_of_ascii x) (nat_of_ascii z));
      cbn; intros; try lia; try done; by eapply IH.
  - intros a. induction a as [|x a IH]; intros [|y b]; cbn [string_ltb]; try done.
    destruct (Nat.ltb_spec (nat_of_ascii x) (nat_of_ascii y)), (Nat.ltb_spec (nat_of_ascii y) (nat_of_ascii x)); try done.
    assert (E : nat_of_ascii x = nat_of_ascii y) by lia. rewrite E, Nat.eqb_refl. cbn. intros H1 H2.
    f_equal; [by apply ascii_code_inj|by apply IH].
Qed.
