(* ===== verification/TypeText.v ===== *)
(** * The text of types (cutile-ir/src/ir/types.rs and ir/fmt.rs)

    [format_type] prints a type in the shorthand of the MLIR text and
    [Type::parse] reads the shorthand and the prefixed form.  The compiler
    builds types from text and reports them as text, so that a printed type
    must be read back as itself. *)

From Stdlib Require Import Ascii.
From S2P Require Import Prelude Enums Encoding IR Text.

(** ** Printing (ir/fmt.rs) *)

Definition format_scalar (s : ScalarType) : string :=
  match s with
  | ScalarType.I1 => "i1"
  | ScalarType.I4 => "i4"
  | ScalarType.I8 => "i8"
  | ScalarType.I16 => "i16"
  | ScalarType.I32 => "i32"
  | ScalarType.I64 => "i64"
  | ScalarType.F16 => "f16"
  | ScalarType.BF16 => "bf16"
  | ScalarType.F32 => "f32"
  | ScalarType.TF32 => "tf32"
  | ScalarType.F64 => "f64"
  | ScalarType.F8E4M3FN => "f8e4m3fn"
  | ScalarType.F8E5M2 => "f8e5m2"
  | ScalarType.F8E8M0FNU => "f8e8m0fnu"
  | ScalarType.F8E5M3FNU => "f8e5m3fnu"
  | ScalarType.F4E2M1FN => "f4e2m1fn"
  end.

(** A dimension or stride of a tensor view. *)
Definition format_view_dim (d : Z) : string := if (d =? DYNAMIC) || (d <? 0) then "?" else pretty d.

Definition format_ints (sep : string) (l : list Z) : string := join sep (pretty <$> l).

Definition format_padding (p : option PaddingValue) : string :=
  match p with
  | Some PVZero => ", padding_value = zero"
  | Some PVNegZero => ", padding_value = neg_zero"
  | Some PVNan => ", padding_value = nan"
  | Some PVPosInf => ", padding_value = pos_inf"
  | Some PVNegInf => ", padding_value = neg_inf"
  | None => ""
  end.

(** [dim_map.iter().enumerate().all(|(i, &d)| d == i as i32)]. *)
Fixpoint is_identity_from (i : Z) (dim_map : list Z) : bool :=
  match dim_map with
  | [] => true
  | d :: dim_map => (d =? as_i32 i) && is_identity_from (i + 1) dim_map
  end.

Definition format_dim_map (dim_map : list Z) : string :=
  if is_identity_from 0 dim_map then "" else ", dim_map=[" +:+ format_ints "," dim_map +:+ "]".

Definition format_tile_elem (e : TileElementType) : string :=
  match e with
  | TEScalar s => format_scalar s
  | TEPointer p => "ptr<" +:+ format_scalar (pointee p) +:+ ">"
  end.

Definition format_tile (t : TileType) : string :=
  let elem := format_tile_elem (tt_element_type t) in
  match tt_shape t with
  | [] => "tile<" +:+ elem +:+ ">"
  | shape => "tile<" +:+ format_ints "x" shape +:+ "x" +:+ elem +:+ ">"
  end.

Definition format_tensor_view (tv : TensorViewType) : string :=
  "tensor_view<" +:+ join "x" (format_view_dim <$> tv_shape tv) +:+ "x" +:+ format_scalar (tv_element_type tv)
    +:+ ", strides=[" +:+ join "," (format_view_dim <$> tv_strides tv) +:+ "]>".

Definition format_partition_view (pv : PartitionViewType) : string :=
  "partition_view<tile=(" +:+ format_ints "x" (pv_tile_shape pv) +:+ ")" +:+ format_padding (pv_padding_value pv)
    +:+ ", " +:+ format_tensor_view (pv_tensor_view pv) +:+ format_dim_map (pv_dim_map pv) +:+ ">".

Definition format_gather_scatter_view (gsv : GatherScatterViewType) : string :=
  "gather_scatter_view<tile=(" +:+ format_ints "x" (gsv_tile_shape gsv) +:+ ")" +:+ format_padding (gsv_padding_value gsv)
    +:+ ", " +:+ format_tensor_view (gsv_tensor_view gsv) +:+ ", sparse_dim=" +:+ pretty (gsv_sparse_dim gsv) +:+ ">".

Definition format_strided_view (sv : StridedViewType) : string :=
  "strided_view<tile=(" +:+ format_ints "x" (sv_tile_shape sv) +:+ ")" +:+ format_padding (sv_padding_value sv)
    +:+ ", traversal_strides=[" +:+ format_ints "," (sv_traversal_strides sv) +:+ "], "
    +:+ format_tensor_view (sv_tensor_view sv) +:+ format_dim_map (sv_dim_map sv) +:+ ">".

Definition ptr_attr_text : string := ", #cuda_tile.ptr_attr<none>".

(** The attribute goes before the closing bracket of the pointer, or else of
    the tensor view. *)
Definition insert_ptr_attr (text : string) : string :=
  match match str_find "ptr<" text with Some p => Some p | None => str_find "tensor_view<" text end with
  | Some start =>
      match str_find ">" (str_drop start text) with
      | Some e => str_take (start + e) text +:+ ptr_attr_text +:+ str_drop (start + e) text
      | None => text
      end
  | None => text
  end.

Fixpoint format_type (ty : IRType) : string :=
  match ty with
  | TWithPointerAttribute base _ => insert_ptr_attr (format_type base)
  | TScalar s => format_scalar s
  | TPointer p => "ptr<" +:+ format_scalar (pointee p) +:+ ">"
  | TTile t => format_tile t
  | TTensorView tv => format_tensor_view tv
  | TPartitionView pv => format_partition_view pv
  | TGatherScatterView gsv => format_gather_scatter_view gsv
  | TStridedView sv => format_strided_view sv
  | TFunc inputs results => "(" +:+ join ", " (map format_type inputs) +:+ ") -> ("
                              +:+ join ", " (map format_type results) +:+ ")"
  | TToken => "token"
  end.

(** ** Parsing (ir/types.rs) *)

(** The scan for the matching bracket; [depth] brackets are open. *)
Fixpoint closing_bracket (depth : nat) (s : string) : option nat :=
  match s with
  | EmptyString => None
  | String c s =>
      if ascii_dec c "<" then S <$> closing_bracket (S depth) s
      else if ascii_dec c ">" then
        match depth with
        | S (S _ as depth) => S <$> closing_bracket depth s
        | _ => Some 0%nat
        end
      else S <$> closing_bracket depth s
  end.

Definition strip_prefix_suffix (s prefix : string) : option string :=
  if starts_with prefix s then
    let after_prefix := str_drop (String.length prefix) s in
    match closing_bracket 1 after_prefix with
    | Some i => Some (str_take i after_prefix)
    | None => strip_suffix ">" after_prefix
    end
  else None.

(** The names in the order of the match arms. *)
Definition scalar_names : list (string * ScalarType) :=
  [("i1", ScalarType.I1); ("i4", ScalarType.I4); ("i8", ScalarType.I8); ("i16", ScalarType.I16);
   ("i32", ScalarType.I32); ("i64", ScalarType.I64); ("f16", ScalarType.F16); ("bf16", ScalarType.BF16);
   ("f32", ScalarType.F32); ("tf32", ScalarType.TF32); ("f64", ScalarType.F64);
   ("f8E4M3FN", ScalarType.F8E4M3FN); ("f8e4m3fn", ScalarType.F8E4M3FN);
   ("f8E5M2", ScalarType.F8E5M2); ("f8e5m2", ScalarType.F8E5M2);
   ("f8E8M0FNU", ScalarType.F8E8M0FNU); ("f8e8m0fnu", ScalarType.F8E8M0FNU);
   ("f4E2M1FN", ScalarType.F4E2M1FN); ("f4e2m1fn", ScalarType.F4E2M1FN);
   ("f8E5M3FNU", ScalarType.F8E5M3FNU); ("f8e5m3fnu", ScalarType.F8E5M3FNU);
   ("bool", ScalarType.I1)]%string.

Definition parse_scalar (s : string) : option ScalarType :=
  snd <$> List.find (fun e => bool_decide (e.1 = trim s)) scalar_names.

(** A dimension: an integer, or [?] for [DYNAMIC]. *)
Definition parse_dim (s : string) : Z :=
  let s := trim s in
  if bool_decide (s = "?"%string) then DYNAMIC else default DYNAMIC (parse_i64 s).

Definition is_char (c x : ascii) : bool := Ascii.eqb x c.

Definition parse_i32_or (fallback : Z) (s : string) : Z := default fallback (parse_i32 (trim s)).

(** [shape x elem] split at the crosses. *)
Definition parse_shape_elem (text : string) : option (list Z * ScalarType) :=
  let parts := str_split (is_char "x") text in
  elem_str ← last parts;
  scalar ← parse_scalar elem_str;
  Some (parse_dim <$> take (length parts - 1) parts, scalar).

Definition parse_tile (inner : string) : option IRType :=
  match str_find "ptr<" inner with
  | Some ptr_start =>
      let before := trim (str_take ptr_start inner) in
      let before := trim_end_str (String.length before) "!cuda_tile." before in
      let shape := if bool_decide (before = EmptyString) then []
                   else parse_dim <$> str_split (is_char "x") (trim_end_matches (is_char "x") before) in
      let rest := str_drop (ptr_start + String.length "ptr<") inner in
      ptr_inner_end ← str_find ">" rest;
      pointee ← parse_scalar (str_take ptr_inner_end rest);
      Some (TTile (mkTileType shape (TEPointer (mkPointerType pointee))))
  | None =>
      '(shape, scalar) ← parse_shape_elem inner;
      Some (TTile (mkTileType shape (TEScalar scalar)))
  end.

(** [(shape and element, strides)], separated at the strides keyword. *)
Definition split_strides (inner : string) : string * option string :=
  match str_find ", strides=" inner with
  | Some pos => (str_take pos inner, Some (str_drop (pos + String.length ", strides=") inner))
  | None =>
      match str_find ",strides=" inner with
      | Some pos => (str_take pos inner, Some (str_drop (pos + String.length ",strides=") inner))
      | None => (inner, None)
      end
  end.

Definition parse_tensor_view (inner : string) : option IRType :=
  let '(shape_elem, strides_part) := split_strides inner in
  '(shape, scalar) ← parse_shape_elem shape_elem;
  let strides :=
    match strides_part with
    | Some sp => parse_dim <$> str_split (is_char ",") (trim_end_matches (is_char "]") (trim_start_matches (is_char "[") sp))
    | None => replicate (length shape) DYNAMIC
    end in
  Some (TTensorView (mkTensorViewType scalar shape strides)).

Definition parse_view_tile_shape (inner : string) : option (list Z * nat) :=
  tile_start ← str_find "tile=(" inner;
  let dims_start := (tile_start + String.length "tile=(")%nat in
  e ← str_find ")" (str_drop dims_start inner);
  let dims_end := (e + dims_start)%nat in
  let dims_str := str_take e (str_drop dims_start inner) in
  let sep := if str_contains "x" dims_str then "x"%char else ","%char in
  Some (parse_i32_or 1 <$> str_split (is_char sep) dims_str, dims_end).

Definition parse_padding_value (inner : string) : option PaddingValue :=
  if str_contains "padding_value" inner then
    if str_contains "zero" inner && negb (str_contains "neg_zero" inner) then Some PVZero
    else if str_contains "neg_zero" inner then Some PVNegZero
    else if str_contains "nan" inner then Some PVNan
    else if str_contains "pos_inf" inner then Some PVPosInf
    else if str_contains "neg_inf" inner then Some PVNegInf
    else None
  else None.

(** Where the text of the nested tensor view starts. *)
Definition nested_start (inner : string) (after_pos : nat) : option nat :=
  let at_end (prefix : string) (p : nat) := (p + String.length prefix)%nat in
  match str_find "tensor_view=!cuda_tile.tensor_view<" inner with
  | Some p => Some (at_end "tensor_view=!cuda_tile.tensor_view<"%string p)
  | None =>
      match str_find "!cuda_tile.tensor_view<" inner with
      | Some p => Some (at_end "!cuda_tile.tensor_view<"%string p)
      | None => (fun p => at_end "tensor_view<"%string (p + after_pos)%nat) <$> str_find "tensor_view<" (str_drop after_pos inner)
      end
  end.

Definition parse_nested_tensor_view (inner : string) (after_pos : nat) : option TensorViewType :=
  tv_inner_start ← nested_start inner after_pos;
  let rest := str_drop tv_inner_start inner in
  let len := default 0%nat (closing_bracket 1 rest) in
  tv_type ← parse_tensor_view (str_take len rest);
  match tv_type with TTensorView tv => Some tv | _ => None end.

Definition parse_i32_list_after (inner prefix : string) : option (list Z) :=
  start ← str_find prefix inner;
  let rest := str_drop (start + String.length prefix) inner in
  e ← str_find "]" rest;
  Some (parse_i32_or 0 <$> str_split (is_char ",") (str_take e rest)).

(** [(0..n as i32).collect()]. *)
Definition identity_map {A} (tile_shape : list A) : list Z := seqZ 0 (as_i32 (zlen tile_shape)).

Definition parse_partition_view (inner : string) : option IRType :=
  '(tile_shape, dims_end) ← parse_view_tile_shape inner;
  let padding_value := parse_padding_value inner in
  tv ← parse_nested_tensor_view inner (dims_end + 1);
  dim_map ← (if str_contains "dim_map=[" inner then parse_i32_list_after inner "dim_map=["
             else Some (identity_map tile_shape));
  Some (TPartitionView (mkPartitionViewType tile_shape tv dim_map padding_value)).

Definition parse_gather_scatter_view (inner : string) : option IRType :=
  '(tile_shape, dims_end) ← parse_view_tile_shape inner;
  let padding_value := parse_padding_value inner in
  tensor_view ← parse_nested_tensor_view inner (dims_end + 1);
  let sparse_dim :=
    match str_find "sparse_dim=" inner with
    | Some start =>
        let rest := str_drop (start + String.length "sparse_dim=") inner in
        let value := trim (default "0"%string (head (str_split (fun c => is_char "," c || is_char ">" c) rest))) in
        default 0 (parse_i32 value)
    | None => 0
    end in
  Some (TGatherScatterView (mkGatherScatterViewType tile_shape tensor_view sparse_dim padding_value)).

Definition parse_strided_view (inner : string) : option IRType :=
  '(tile_shape, dims_end) ← parse_view_tile_shape inner;
  let padding_value := parse_padding_value inner in
  let traversal_strides :=
    default (replicate (length tile_shape) 1) (parse_i32_list_after inner "traversal_strides=[") in
  tensor_view ← parse_nested_tensor_view inner (dims_end + 1);
  let dim_map := default (identity_map tile_shape) (parse_i32_list_after inner "dim_map=[") in
  Some (TStridedView (mkStridedViewType tile_shape traversal_strides tensor_view dim_map padding_value)).

Definition parse_pointer (inner : string) : option IRType :=
  pointee ← parse_scalar inner; Some (TPointer (mkPointerType pointee)).

(** The bracketed forms in the order they are tried: with the dialect prefix,
    then in shorthand. *)
Definition bracketed : list (string * (string -> option IRType)) :=
  [("tile<", parse_tile); ("tensor_view<", parse_tensor_view); ("partition_view<", parse_partition_view);
   ("gather_scatter_view<", parse_gather_scatter_view); ("strided_view<", parse_strided_view);
   ("ptr<", parse_pointer)]%string.

Definition forms : list (string * (string -> option IRType)) :=
  ((fun e => ("!cuda_tile." +:+ e.1, e.2)) <$> bracketed) ++ bracketed.

Fixpoint parse_forms (s : string) (fs : list (string * (string -> option IRType))) : option IRType :=
  match fs with
  | [] => TScalar <$> parse_scalar s
  | (prefix, parser) :: fs =>
      match strip_prefix_suffix s prefix with
      | Some inner => parser inner
      | None => parse_forms s fs
      end
  end.

Fixpoint parse_fuel (fuel : nat) (s : string) : option IRType :=
  match fuel with
  | O => None
  | S fuel =>
      let s := trim s in
      if str_contains ptr_attr_text s then
        (fun ty => with_pointer_attribute ty PANone) <$> parse_fuel fuel (str_remove ptr_attr_text 0 s)
      else if bool_decide (s = "!cuda_tile.token"%string) || bool_decide (s = "token"%string) then Some TToken
      else parse_forms s forms
  end.

(** Each removal shortens the text, so its length bounds the recursion. *)
Definition parse (s : string) : option IRType := parse_fuel (S (String.length s)) s.

(** ** Printed numbers *)

Notation numeric s := (str_all is_numeric s = true).

Definition sep_free (s : string) : Prop :=
  str_all (fun c => negb (is_char "x" c)) s = true /\ str_all (fun c => negb (is_char "," c)) s = true /\
  str_all (fun c => negb (is_whitespace c)) s = true /\ numeric s.

Lemma pretty_sep_free (z : Z) : sep_free (pretty z).
Proof. split_and!; by apply pretty_Z_chars. Qed.

Lemma view_dim_sep_free d : sep_free (format_view_dim d).
Proof. unfold format_view_dim. destruct (_ || _); [repeat split|apply pretty_sep_free]. Qed.

Lemma sep_free_fmap (f : Z -> string) l : (forall z, sep_free (f z)) -> Forall sep_free (f <$> l).
Proof. intros H. apply Forall_fmap. rewrite Forall_forall. intros z _. apply H. Qed.

Lemma numeric_join sep parts : numeric sep -> Forall sep_free parts -> numeric (join sep parts).
Proof.
  intros Hs H. apply str_all_join; [done|]. eapply Forall_impl; [exact H|]. by intros s (_ & _ & _ & ?).
Qed.

Lemma numeric_ints sep l : numeric sep -> numeric (format_ints sep l).
Proof. intros H. apply numeric_join; [done|]. apply sep_free_fmap, pretty_sep_free. Qed.

Lemma numeric_dims sep l : numeric sep -> numeric (join sep (format_view_dim <$> l)).
Proof. intros H. apply numeric_join; [done|]. apply sep_free_fmap, view_dim_sep_free. Qed.

Lemma numeric_pretty (z : Z) : numeric (pretty z).
Proof. apply pretty_sep_free. Qed.

(** The characters of dimensions and element types. *)
Definition is_word (c : ascii) : bool :=
  is_numeric c || existsb (Ascii.eqb c) ["b"; "e"; "f"; "i"; "m"; "n"; "t"; "u"]%char.

Notation word s := (str_all is_word s = true).

Lemma word_scalar s : word (format_scalar s).
Proof. by destruct s. Qed.

Lemma numeric_word s : numeric s -> word s.
Proof. apply str_all_impl. intros c Hc. unfold is_word. by rewrite Hc. Qed.

(** A test on the characters of a chunk, by evaluation. *)
Definition word_chars : list ascii :=
  map ascii_of_nat (seq 48 10) ++ ["-"; "?"; "x"; ","; "b"; "e"; "f"; "i"; "m"; "n"; "t"; "u"]%char.

Lemma word_all p s : forallb p word_chars = true -> word s -> str_all p s = true.
Proof.
  intros Hp. apply str_all_impl. intros c Hc. rewrite forallb_forall in Hp. apply Hp. unfold word_chars. apply in_or_app.
  unfold is_word, is_numeric in Hc. rewrite !orb_true_iff, !existsb_exists in Hc.
  destruct Hc as [[Hd|(x & Hx & ->%Ascii.eqb_eq)]|(x & Hx & ->%Ascii.eqb_eq)]; [left|right; cbn [In] in *; tauto..].
  apply is_digit_code in Hd. rewrite <- (ascii_nat_embedding c). apply in_map, in_seq. lia.
Qed.

(** Names the chunks of a printed text and forgets what they print. *)
Ltac name_chunk s lem :=
  let N := fresh "N" in let HN := fresh "HN" in
  pose proof lem as HN; set (N := s) in *; clearbody N.

Ltac name_chunks :=
  repeat match goal with
  | |- context [format_ints ?sep ?l] => name_chunk (format_ints sep l) (numeric_ints sep l eq_refl)
  | |- context [join ?sep (format_view_dim <$> ?l)] => name_chunk (join sep (format_view_dim <$> l)) (numeric_dims sep l eq_refl)
  | |- context [format_scalar ?s] => name_chunk (format_scalar s) (word_scalar s)
  | |- context [@pretty Z pretty_Z ?z] => name_chunk (@pretty Z pretty_Z z) (numeric_pretty z)
  end.

(** A named chunk is a word. *)
Ltac chunk_word := first [assumption | apply numeric_word; assumption].

(** A test on every character of a printed text. *)
Ltac all_chars :=
  name_chunks; rewrite ?str_all_app; repeat (apply andb_true_intro; split);
  first [ apply word_all; [vm_compute; reflexivity|chunk_word] | vm_compute; reflexivity ].

(** Evaluates the searches in a printed type. *)
Ltac skip_type :=
  first [ skip_by is_numeric ltac:(assumption) | skip_by is_word ltac:(chunk_word) ].
Ltac scan_type :=
  scan skip_type;
  repeat match goal with
  | HN : str_all is_numeric ?N = true |- context [str_find ?p ?N] =>
      rewrite (str_find_absent is_numeric p N HN) by (vm_compute; reflexivity)
  end; cbn [fmap option_fmap option_map].

(** Splitting a joined list. *)
Lemma split_x parts : Forall sep_free parts -> parts <> [] -> str_split (is_char "x") (join "x" parts) = parts.
Proof. intros H Hne. apply str_split_join; [done| |done]. eapply Forall_impl; [exact H|]. by intros s (? & _). Qed.

Lemma split_comma parts : Forall sep_free parts -> parts <> [] -> str_split (is_char ",") (join "," parts) = parts.
Proof. intros H Hne. apply str_split_join; [done| |done]. eapply Forall_impl; [exact H|]. by intros s (_ & ? & _). Qed.

Lemma parse_dim_pretty d : in_i64 d -> parse_dim (pretty d) = d.
Proof.
  intros Hd. unfold parse_dim. pose proof (pretty_sep_free d) as (_ & _ & Hw & _). rewrite trim_none by done.
  case_bool_decide as E.
  - exfalso. assert (Hq : str_all (fun c => negb (is_char "?" c)) (pretty d) = true)
      by (by apply pretty_Z_chars). by rewrite E in Hq.
  - unfold parse_i64. by rewrite parse_int_pretty.
Qed.

Lemma parse_i32_pretty fallback d : in_i32 d -> parse_i32_or fallback (pretty d) = d.
Proof.
  intros Hd. unfold parse_i32_or, parse_i32. pose proof (pretty_sep_free d) as (_ & _ & Hw & _).
  rewrite trim_none by done. by rewrite parse_int_pretty.
Qed.

(** What a tensor view can hold and keep its text: an extent or stride, or
    the dynamic marker. *)
Definition view_dim_ok (d : Z) : bool := (d =? DYNAMIC) || ((0 <=? d) && (d <=? I64_MAX)).

Lemma parse_dim_view d : view_dim_ok d = true -> parse_dim (format_view_dim d) = d.
Proof.
  unfold view_dim_ok, format_view_dim. destruct (Z.eqb_spec d DYNAMIC) as [->|]; [done|]. cbn [orb].
  intros H. destruct (Z.ltb_spec d 0); [lia|]. apply parse_dim_pretty. unfold_int. lia.
Qed.

Lemma parse_scalar_format s : parse_scalar (format_scalar s) = Some s.
Proof. by destruct s. Qed.

(** A list of items printed one by one and read one by one. *)
Lemma fmap_inverse {A B} (f : A -> B) (g : B -> A) l : Forall (fun x => g (f x) = x) l -> g <$> (f <$> l) = l.
Proof. induction 1 as [|x l Hx Hl IH]; [done|]. cbn. by rewrite Hx, IH. Qed.

Lemma parse_i32_list fallback l : Forall in_i32 l -> l <> [] ->
  parse_i32_or fallback <$> str_split (is_char ",") (format_ints "," l) = l.
Proof.
  intros Hl Hne. unfold format_ints. rewrite split_comma; [|apply sep_free_fmap, pretty_sep_free|by destruct l].
  apply fmap_inverse. eapply Forall_impl; [exact Hl|]. intros d Hd. by apply parse_i32_pretty.
Qed.

(** ** Tensor views *)

Definition tensor_view_inner (tv : TensorViewType) : string :=
  join "x" (format_view_dim <$> tv_shape tv) +:+ "x" +:+ format_scalar (tv_element_type tv)
    +:+ ", strides=[" +:+ join "," (format_view_dim <$> tv_strides tv) +:+ "]".

Definition tensor_view_ok (tv : TensorViewType) : bool :=
  negb (bool_decide (tv_shape tv = [])) && negb (bool_decide (tv_strides tv = []))
  && forallb view_dim_ok (tv_shape tv) && forallb view_dim_ok (tv_strides tv).

Lemma parse_shape_elem_text parts s : Forall sep_free parts -> parts <> [] ->
  parse_shape_elem (join "x" parts +:+ "x" +:+ format_scalar s) = Some (parse_dim <$> parts, s).
Proof.
  intros Hp Hne. unfold parse_shape_elem. rewrite <- join_snoc by done. rewrite str_split_join.
  - rewrite last_snoc. cbn [mbind option_bind]. rewrite parse_scalar_format. cbn [mbind option_bind].
    rewrite length_app. cbn [length]. rewrite Nat.add_sub, take_app_length. done.
  - done.
  - apply Forall_app. split; [|apply Forall_singleton; by destruct s].
    eapply Forall_impl; [exact Hp|]. by intros x (? & _).
  - by destruct parts.
Qed.

Lemma dims_ok_inverse l : forallb view_dim_ok l = true -> parse_dim <$> (format_view_dim <$> l) = l.
Proof.
  intros H%forallb_Forall. apply fmap_inverse. eapply Forall_impl; [exact H|]. intros d. apply parse_dim_view.
Qed.

Lemma split_strides_text tv :
  split_strides (tensor_view_inner tv) =
  (join "x" (format_view_dim <$> tv_shape tv) +:+ "x" +:+ format_scalar (tv_element_type tv),
   Some ("[" +:+ join "," (format_view_dim <$> tv_strides tv) +:+ "]")).
Proof.
  unfold split_strides, tensor_view_inner.
  name_chunks. scan_type. slice. reflexivity.
Qed.

Lemma trim_brackets N : numeric N ->
  trim_end_matches (is_char "]") (trim_start_matches (is_char "[") ("[" +:+ N +:+ "]")) = N.
Proof.
  intros H. change (trim_start_matches (is_char "[") ("[" +:+ N +:+ "]")) with (trim_start_matches (is_char "[") (N +:+ "]")).
  assert (Hs : trim_start_matches (is_char "[") (N +:+ "]") = N +:+ "]").
  { destruct N as [|c N]; [done|]. rewrite sapp_cons. cbn [trim_start_matches str_all] in *.
    apply andb_prop in H as [Hc _]. unfold is_char. destruct (Ascii.eqb_spec c "["); [by subst|done]. }
  rewrite Hs. clear Hs. induction N as [|c N IH]; [done|]. rewrite sapp_cons. cbn [trim_end_matches str_all] in *.
  apply andb_prop in H as [Hc H]. rewrite IH by done. destruct N; [|done].
  unfold is_char. destruct (Ascii.eqb_spec c "]"); [by subst|done].
Qed.

Lemma parse_tensor_view_text tv : tensor_view_ok tv = true ->
  parse_tensor_view (tensor_view_inner tv) = Some (TTensorView tv).
Proof.
  unfold tensor_view_ok. rewrite !andb_true_iff, !negb_true_iff, !bool_decide_eq_false. intros (((Hs & Ht) & Hds) & Hdt).
  unfold parse_tensor_view. rewrite split_strides_text, parse_shape_elem_text;
    [|apply sep_free_fmap, view_dim_sep_free|by destruct (tv_shape tv)].
  cbn [mbind option_bind]. rewrite trim_brackets by (by apply numeric_dims).
  rewrite split_comma; [|apply sep_free_fmap, view_dim_sep_free|by destruct (tv_strides tv)].
  rewrite !dims_ok_inverse by done. by destruct tv.
Qed.

(** ** Brackets *)

Definition no_bracket (c : ascii) : bool := negb (is_char "<" c) && negb (is_char ">" c).

Lemma closing_skip depth a r : str_all no_bracket a = true ->
  closing_bracket depth (a +:+ r) = (fun n => (String.length a + n)%nat) <$> closing_bracket depth r.
Proof.
  induction a as [|c a IH]; intros H; [rewrite sapp_nil; by destruct (closing_bracket depth r)|].
  cbn [str_all] in H. apply andb_prop in H as [Hc H]. rewrite sapp_cons. cbn [closing_bracket].
  unfold no_bracket, is_char in Hc. destruct (ascii_dec c "<"); [by subst|]. destruct (ascii_dec c ">"); [by subst|].
  rewrite IH by done. by destruct (closing_bracket depth r).
Qed.

Lemma closing_open r : closing_bracket 1 ("<" +:+ r) = S <$> closing_bracket 2 r.
Proof. reflexivity. Qed.

Lemma closing_nested r : closing_bracket 2 (">" +:+ r) = S <$> closing_bracket 1 r.
Proof. reflexivity. Qed.

(** Text without brackets, then the closing one. *)
Lemma closing_here a r : str_all no_bracket a = true -> closing_bracket 1 (a +:+ ">" +:+ r) = Some (String.length a).
Proof. intros H. rewrite closing_skip by done.
  change (closing_bracket 1 (">" +:+ r)) with (Some 0%nat). cbn [fmap option_fmap option_map]. by rewrite Nat.add_0_r.
Qed.

(** ** The tiled views *)

(** What the three views have in common: [mid] and [tail] are the fields
    around the tensor view. *)
Definition view_inner (tile_shape : list Z) (padding : option PaddingValue) (mid : string) (tv : TensorViewType)
    (tail : string) : string :=
  "tile=(" +:+ format_ints "x" tile_shape +:+ ")" +:+ format_padding padding +:+ mid +:+ "tensor_view<"
    +:+ tensor_view_inner tv +:+ ">" +:+ tail.

Lemma numeric_contains_x l : l <> [] ->
  parse_i32_or 1 <$> str_split (is_char (if str_contains "x" (format_ints "x" l) then "x"%char else ","%char)) (format_ints "x" l)
  = parse_i32_or 1 <$> (pretty <$> l).
Proof.
  intros Hne. unfold format_ints. pose proof (sep_free_fmap pretty l pretty_sep_free) as Hs. f_equal.
  destruct l as [|d [|d' l]]; [done| |].
  - apply Forall_cons in Hs as [(Hx & Hc & _) _]. cbn [fmap list_fmap join].
    unfold str_contains. rewrite (str_find_absent _ _ _ Hx) by done. by apply str_split_one.
  - assert (Hc : str_contains "x" (join "x" (pretty <$> d :: d' :: l)) = true).
    { unfold str_contains. change (join "x" (pretty <$> d :: d' :: l)) with (pretty d +:+ "x" +:+ join "x" (pretty <$> d' :: l)).
      apply Forall_cons in Hs as [(Hx & _) _].
      rewrite str_find_skip; [by rewrite str_find_here|].
      exact (skips_char _ EmptyString "x" EmptyString _ _ Hx eq_refl eq_refl). }
    rewrite Hc. by apply split_x.
Qed.

Lemma parse_view_tile_shape_text tile_shape padding mid tv tail :
  tile_shape <> [] -> Forall in_i32 tile_shape ->
  parse_view_tile_shape (view_inner tile_shape padding mid tv tail) =
  Some (tile_shape, (String.length (format_ints "x" tile_shape) + 6)%nat).
Proof.
  intros Hne Hi. pose proof (numeric_ints "x" tile_shape eq_refl) as HN. unfold parse_view_tile_shape, view_inner. scan_type. cbn [mbind option_bind].
  slice. scan_type. cbn [mbind option_bind]. rewrite str_take_app, str_take_0, sapp_empty_r.
  rewrite numeric_contains_x by done. rewrite fmap_inverse; [by rewrite Nat.add_0_r|].
  eapply Forall_impl; [exact Hi|]. intros d Hd. by apply parse_i32_pretty.
Qed.

(** The fields before and after the tensor view that the views print. *)
Inductive view_mid : string -> Prop :=
| MidPlain : view_mid ", "
| MidStrides l : view_mid (", traversal_strides=[" +:+ format_ints "," l +:+ "], ").

Inductive view_tail : string -> Prop :=
| TailNone : view_tail ""
| TailMap l : view_tail (", dim_map=[" +:+ format_ints "," l +:+ "]")
| TailSparse (d : Z) : view_tail (", sparse_dim=" +:+ pretty d).

(** A view printed as a flat text of literals, numbers and an element type. *)
Ltac flatten_view :=
  unfold view_inner, tensor_view_inner; rewrite ?sapp_assoc, ?sapp_nil.

Lemma closing_tensor_view tv r :
  closing_bracket 1 (tensor_view_inner tv +:+ ">" +:+ r) = Some (String.length (tensor_view_inner tv)).
Proof.
  apply closing_here. unfold tensor_view_inner. all_chars.
Qed.

Lemma nested_start_text tile_shape padding mid tv tail : view_mid mid -> view_tail tail ->
  nested_start (view_inner tile_shape padding mid tv tail) (String.length (format_ints "x" tile_shape) + 6 + 1) =
  Some (String.length ("tile=(" +:+ format_ints "x" tile_shape +:+ ")" +:+ format_padding padding +:+ mid +:+ "tensor_view<")).
Proof.
  intros Hm Ht. unfold nested_start.
  assert (Hq : str_all (fun c => negb (is_char "!" c)) (view_inner tile_shape padding mid tv tail) = true).
  { unfold view_inner, tensor_view_inner. destruct padding as [[]|], Hm, Ht; all_chars. }
  rewrite !(str_find_absent _ _ _ Hq) by done. clear Hq. unfold view_inner. set (N := format_ints "x" tile_shape).
  replace (String.length N + 6 + 1)%nat with (String.length "tile=(" + (String.length N + 1))%nat by (cbn [String.length]; lia).
  rewrite !str_drop_app. drop_literal. rewrite !length_sapp.
  destruct padding as [[]|], Hm; cbn [format_padding]; rewrite ?sapp_assoc, ?sapp_nil; unfold N; name_chunks; scan_type;
    rewrite ?length_sapp; cbn [String.length]; f_equal; lia.
Qed.

Lemma parse_nested_tensor_view_text tile_shape padding mid tv tail :
  view_mid mid -> view_tail tail -> tensor_view_ok tv = true ->
  parse_nested_tensor_view (view_inner tile_shape padding mid tv tail) (String.length (format_ints "x" tile_shape) + 6 + 1) =
  Some tv.
Proof.
  intros Hm Ht Htv. unfold parse_nested_tensor_view. rewrite nested_start_text by done. cbn [mbind option_bind].
  set (pre := "tile=(" +:+ _).
  replace (view_inner tile_shape padding mid tv tail) with (pre +:+ (tensor_view_inner tv +:+ ">" +:+ tail))
    by (unfold pre, view_inner; by rewrite !sapp_assoc).
  rewrite str_drop_exact, closing_tensor_view. cbn [default from_option id]. rewrite str_take_exact, parse_tensor_view_text by done. done.
Qed.

(** The words of the padding do not occur after it. *)
Lemma padding_free p mid tv tail : view_mid mid -> view_tail tail ->
  p ∈ ["padding_value"; "zero"; "neg_zero"; "nan"; "pos_inf"]%string ->
  str_find p (mid +:+ "tensor_view<" +:+ tensor_view_inner tv +:+ ">" +:+ tail) = None.
Proof.
  intros Hm Ht Hp. unfold tensor_view_inner. rewrite !elem_of_cons, elem_of_nil in Hp.
  destruct Hp as [->|[->|[->|[->|[->|[]]]]]]; destruct Hm, Ht; rewrite ?sapp_assoc; name_chunks; scan_type; done.
Qed.

Lemma view_mid_comma mid : view_mid mid -> exists mid', mid = ", " +:+ mid'.
Proof. destruct 1 as [|l]; [by exists ""|]. by exists ("traversal_strides=[" +:+ format_ints "," l +:+ "], "). Qed.

Lemma parse_padding_text tile_shape padding mid tv tail : view_mid mid -> view_tail tail ->
  parse_padding_value (view_inner tile_shape padding mid tv tail) = padding.
Proof.
  intros Hm Ht. unfold parse_padding_value, str_contains, view_inner.
  pose proof (fun p => padding_free p mid tv tail Hm Ht) as Hnone.
  destruct (view_mid_comma mid Hm) as [mid' ->]. rewrite sapp_assoc in Hnone |- *.
  set (rest := mid' +:+ _) in *. clearbody rest. clear Hm Ht. name_chunks.
  assert (Hfree : Forall (fun p => str_find p rest = None) ["padding_value"; "zero"; "neg_zero"; "nan"; "pos_inf"]%string).
  { rewrite Forall_forall. intros p Hp. specialize (Hnone p Hp). rewrite !elem_of_cons, elem_of_nil in Hp.
    destruct Hp as [->|[->|[->|[->|[->|[]]]]]]; rewrite str_find_skip in Hnone by reflexivity; by destruct (str_find _ rest). }
  rewrite !Forall_cons in Hfree. destruct Hfree as (H1 & H2 & H3 & H4 & H5 & _).
  destruct padding as [[]|]; cbn [format_padding]; rewrite ?sapp_nil; scan_type; rewrite ?H1, ?H2, ?H3, ?H4, ?H5; reflexivity.
Qed.

(** ** Lists and brackets of a view *)

(** Evaluates a search in a view whose tail is known. *)
Ltac scan_view :=
  unfold view_inner, tensor_view_inner;
  match goal with padding : option PaddingValue |- _ => destruct padding as [[]|] end;
  cbn [format_padding]; rewrite ?length_sapp, ?sapp_assoc, ?sapp_nil; name_chunks; scan_type;
  rewrite ?length_sapp; cbn [String.length]; try reflexivity; f_equal; lia.

Lemma parse_list_at prefix pre l post :
  Forall in_i32 l -> l <> [] ->
  str_find prefix (pre +:+ prefix +:+ format_ints "," l +:+ "]" +:+ post) = Some (String.length pre) ->
  parse_i32_list_after (pre +:+ prefix +:+ format_ints "," l +:+ "]" +:+ post) prefix = Some l.
Proof.
  intros Hl Hne Hf. unfold parse_i32_list_after. rewrite Hf. cbn [mbind option_bind].
  rewrite str_drop_app, str_drop_exact. pose proof (numeric_ints "," l eq_refl) as HN. scan_type.
  cbn [mbind option_bind]. rewrite str_take_app, str_take_0, sapp_empty_r. by rewrite parse_i32_list.
Qed.

Lemma dim_map_found tile_shape padding mid tv l : view_mid mid -> Forall in_i32 l -> l <> [] ->
  parse_i32_list_after (view_inner tile_shape padding mid tv (", dim_map=[" +:+ format_ints "," l +:+ "]")) "dim_map=[" = Some l.
Proof.
  intros Hm Hl Hne. pose proof (parse_list_at "dim_map=[" (view_inner tile_shape padding mid tv ", ") l "" Hl Hne) as H.
  rewrite sapp_empty_r in H.
  replace (view_inner tile_shape padding mid tv (", dim_map=[" +:+ format_ints "," l +:+ "]")) with
    (view_inner tile_shape padding mid tv ", " +:+ "dim_map=[" +:+ format_ints "," l +:+ "]")
    by (unfold view_inner; by rewrite !sapp_assoc).
  apply H. clear H. destruct Hm; scan_view.
Qed.

Lemma dim_map_absent tile_shape padding mid tv : view_mid mid ->
  str_find "dim_map=[" (view_inner tile_shape padding mid tv "") = None.
Proof. destruct 1; scan_view. Qed.

Lemma traversal_strides_found tile_shape padding tv tail l : Forall in_i32 l -> l <> [] ->
  parse_i32_list_after (view_inner tile_shape padding (", traversal_strides=[" +:+ format_ints "," l +:+ "], ") tv tail)
    "traversal_strides=[" = Some l.
Proof.
  intros Hl Hne.
  pose proof (parse_list_at "traversal_strides=[" ("tile=(" +:+ format_ints "x" tile_shape +:+ ")" +:+ format_padding padding +:+ ", ")
    l (", " +:+ "tensor_view<" +:+ tensor_view_inner tv +:+ ">" +:+ tail) Hl Hne) as H.
  match type of H with _ -> parse_i32_list_after ?t _ = _ =>
    replace (view_inner _ _ _ _ _) with t by (unfold view_inner; by rewrite !sapp_assoc) end.
  apply H. clear H. scan_view.
Qed.

Lemma sparse_dim_found tile_shape padding tv (d : Z) :
  str_find "sparse_dim=" (view_inner tile_shape padding ", " tv (", sparse_dim=" +:+ pretty d)) =
  Some (String.length (view_inner tile_shape padding ", " tv ", ")).
Proof. scan_view. Qed.

(** One nested pair of brackets, then the closing one. *)
Lemma closing_one_nested pre mid post :
  str_all no_bracket pre = true -> str_all no_bracket mid = true -> str_all no_bracket post = true ->
  closing_bracket 1 ((pre +:+ "<" +:+ mid +:+ ">" +:+ post) +:+ ">") =
  Some (String.length (pre +:+ "<" +:+ mid +:+ ">" +:+ post)).
Proof.
  intros Hpre Hmid Hpost. rewrite !sapp_assoc, closing_skip, closing_open, closing_skip, closing_nested, closing_skip by done.
  change (closing_bracket 1 ">") with (Some 0%nat). rewrite !length_sapp.
  cbn [fmap option_fmap option_map String.length]. f_equal. lia.
Qed.

Lemma closing_view tile_shape padding mid tv tail : view_mid mid -> view_tail tail ->
  closing_bracket 1 (view_inner tile_shape padding mid tv tail +:+ ">") =
  Some (String.length (view_inner tile_shape padding mid tv tail)).
Proof.
  intros Hm Ht.
  set (pre := "tile=(" +:+ format_ints "x" tile_shape +:+ ")" +:+ format_padding padding +:+ mid +:+ "tensor_view").
  replace (view_inner tile_shape padding mid tv tail) with (pre +:+ "<" +:+ tensor_view_inner tv +:+ ">" +:+ tail)
    by (unfold pre, view_inner; by rewrite !sapp_assoc).
  apply closing_one_nested.
  - unfold pre. destruct padding as [[]|], Hm; all_chars.
  - unfold tensor_view_inner. all_chars.
  - destruct Ht; all_chars.
Qed.

(** ** Bracketed forms *)

(** The parser of a shorthand form receives the text between its brackets. *)
Lemma parse_bracketed prefix parser inner :
  (prefix, parser) ∈ bracketed -> closing_bracket 1 (inner +:+ ">") = Some (String.length inner) ->
  parse_forms (prefix +:+ inner +:+ ">") forms = parser inner.
Proof.
  intros Hin Hc.
  assert (Hs : strip_prefix_suffix (prefix +:+ inner +:+ ">") prefix = Some inner).
  { unfold strip_prefix_suffix. by rewrite starts_with_self, str_drop_exact, Hc, str_take_exact. }
  unfold bracketed in Hin. rewrite !elem_of_cons, elem_of_nil in Hin.
  destruct Hin as [Hin|[Hin|[Hin|[Hin|[Hin|[Hin|[]]]]]]]; injection Hin as -> ->;
    cbn [forms bracketed app fmap list_fmap parse_forms fst snd];
    repeat (rewrite Hs || match goal with
            | |- context [strip_prefix_suffix ?s ?p] => change (strip_prefix_suffix s p) with (@None string) end);
    reflexivity.
Qed.

Lemma parse_bracketed_text prefix parser inner text :
  text = prefix +:+ inner +:+ ">" -> (prefix, parser) ∈ bracketed ->
  closing_bracket 1 (inner +:+ ">") = Some (String.length inner) -> parse_forms text forms = parser inner.
Proof. intros ->. apply parse_bracketed. Qed.

(** ** Printed types are read back *)

(** The texts [format_type] gives a type without pointer attribute that the
    parser reads back: no function type, no empty list where the list is
    printed without brackets of its own, values in the range of their type. *)
Definition ints_ok (l : list Z) : bool := negb (bool_decide (l = [])) && bool_decide (Forall in_i32 l).

Definition dim_map_ok (tile_shape dim_map : list Z) : bool :=
  if is_identity_from 0 dim_map then bool_decide (dim_map = identity_map tile_shape)
  else bool_decide (Forall in_i32 dim_map).

Definition base_ok (ty : IRType) : bool :=
  match ty with
  | TScalar _ | TPointer _ | TToken => true
  | TTile t => bool_decide (Forall in_i64 (tt_shape t))
  | TTensorView tv => tensor_view_ok tv
  | TPartitionView v => ints_ok (pv_tile_shape v) && tensor_view_ok (pv_tensor_view v) && dim_map_ok (pv_tile_shape v) (pv_dim_map v)
  | TGatherScatterView v => ints_ok (gsv_tile_shape v) && tensor_view_ok (gsv_tensor_view v) && bool_decide (in_i32 (gsv_sparse_dim v))
  | TStridedView v =>
      ints_ok (sv_tile_shape v) && tensor_view_ok (sv_tensor_view v) && ints_ok (sv_traversal_strides v)
      && dim_map_ok (sv_tile_shape v) (sv_dim_map v)
  | TFunc _ _ | TWithPointerAttribute _ _ => false
  end.

(** The types that print a pointer or a tensor view. *)
Definition has_pointer (ty : IRType) : bool :=
  match ty with
  | TPointer _ | TTensorView _ | TPartitionView _ | TGatherScatterView _ | TStridedView _ => true
  | TTile t => match tt_element_type t with TEPointer _ => true | TEScalar _ => false end
  | _ => false
  end.

Definition text_ok (ty : IRType) : bool :=
  match ty with
  | TWithPointerAttribute base _ => base_ok base && has_pointer base
  | _ => base_ok ty
  end.

Lemma pretty_nonempty (z : Z) : pretty z <> EmptyString.
Proof. intros E. pose proof (parse_int_pretty z z z ltac:(lia)) as H. by rewrite E in H. Qed.

(** The last character of printed dimensions is a digit. *)
Lemma trim_last_x l : l <> [] -> trim_end_matches (is_char "x") (format_ints "x" l +:+ "x") = format_ints "x" l.
Proof.
  intros Hne. rewrite trim_end_snoc by done. unfold format_ints.
  destruct (exists_last Hne) as (l' & z & ->). rewrite fmap_app. cbn [fmap list_fmap].
  pose proof (pretty_sep_free z) as (Hx & _). pose proof (pretty_nonempty z) as Hz.
  assert (Ht : trim_end_matches (is_char "x") (pretty z) = pretty z) by (by apply trim_end_none).
  destruct l' as [|y l']; [exact Ht|].
  rewrite join_snoc by done. rewrite <- !sapp_assoc, trim_end_app by (by rewrite Ht). by rewrite Ht.
Qed.

Lemma tile_dims_inverse l : Forall in_i64 l -> parse_dim <$> (pretty <$> l) = l.
Proof. intros H. apply fmap_inverse. eapply Forall_impl; [exact H|]. intros d. apply parse_dim_pretty. Qed.

Lemma parse_tile_scalar shape s : Forall in_i64 shape -> shape <> [] ->
  parse_tile (format_ints "x" shape +:+ "x" +:+ format_scalar s) = Some (TTile (mkTileType shape (TEScalar s))).
Proof.
  intros Hi Hne. unfold parse_tile.
  rewrite (str_find_absent no_bracket) by (done || all_chars).
  unfold format_ints. rewrite parse_shape_elem_text; [|apply sep_free_fmap, pretty_sep_free|by destruct shape].
  cbn [mbind option_bind]. by rewrite tile_dims_inverse.
Qed.

Lemma parse_tile_pointer shape s : Forall in_i64 shape -> shape <> [] ->
  parse_tile (format_ints "x" shape +:+ "x" +:+ "ptr<" +:+ format_scalar s +:+ ">") =
  Some (TTile (mkTileType shape (TEPointer (mkPointerType s)))).
Proof.
  intros Hi Hne. unfold parse_tile. pose proof (numeric_ints "x" shape eq_refl) as HN. pose proof (word_scalar s) as HE.
  assert (Htrim : trim (format_ints "x" shape +:+ "x") = format_ints "x" shape +:+ "x") by (apply trim_none; all_chars).
  assert (Hend : forall n, trim_end_str n "!cuda_tile." (format_ints "x" shape +:+ "x") = format_ints "x" shape +:+ "x").
  { intros [|n]; [done|]. cbn [trim_end_str]. rewrite (strip_suffix_absent (fun c => negb (is_char "!" c))); [done| |done].
    all_chars. }
  scan_type. slice. scan_type. change (str_find ">" ">") with (Some 0%nat). cbn [fmap option_fmap option_map mbind option_bind].
  slice. rewrite parse_scalar_format. cbn [mbind option_bind]. rewrite Htrim, Hend.
  rewrite bool_decide_false by (by destruct (format_ints "x" shape)). rewrite trim_last_x by done. unfold format_ints.
  rewrite split_x; [|apply sep_free_fmap, pretty_sep_free|by destruct shape]. by rewrite tile_dims_inverse.
Qed.

(** Text without brackets between brackets. *)
Lemma closing_flat inner : str_all no_bracket inner = true -> closing_bracket 1 (inner +:+ ">") = Some (String.length inner).
Proof. intros H. by apply (closing_here inner ""). Qed.

Ltac in_bracketed := unfold bracketed; rewrite !elem_of_cons; tauto.

Lemma parse_forms_tile t : base_ok (TTile t) = true -> parse_forms (format_tile t) forms = Some (TTile t).
Proof.
  destruct t as [shape elem]. cbn [base_ok tt_shape]. intros Hi%bool_decide_eq_true. unfold format_tile. cbn [tt_shape tt_element_type].
  destruct shape as [|d shape]; [destruct elem as [s|[s]]; destruct s; vm_compute; reflexivity|].
  set (l := d :: shape) in *. assert (Hne : l <> []) by done. clearbody l. destruct elem as [s|[s]]; cbn [format_tile_elem pointee].
  - rewrite (parse_bracketed_text "tile<" parse_tile (format_ints "x" l +:+ "x" +:+ format_scalar s)).
    + by apply parse_tile_scalar.
    + by rewrite !sapp_assoc.
    + in_bracketed.
    + apply closing_flat. all_chars.
  - rewrite (parse_bracketed_text "tile<" parse_tile (format_ints "x" l +:+ "x" +:+ "ptr<" +:+ format_scalar s +:+ ">")).
    + by apply parse_tile_pointer.
    + by rewrite !sapp_assoc.
    + in_bracketed.
    + pose proof (closing_one_nested (format_ints "x" l +:+ "x" +:+ "ptr") (format_scalar s) "") as H.
      rewrite !sapp_assoc, sapp_empty_r in H. rewrite !sapp_assoc. apply H; [all_chars|all_chars|done].
Qed.

Lemma parse_forms_tensor_view tv : tensor_view_ok tv = true ->
  parse_forms (format_tensor_view tv) forms = Some (TTensorView tv).
Proof.
  intros H. rewrite (parse_bracketed_text "tensor_view<" parse_tensor_view (tensor_view_inner tv)).
  - by apply parse_tensor_view_text.
  - unfold format_tensor_view, tensor_view_inner. rewrite !sapp_assoc. reflexivity.
  - in_bracketed.
  - apply closing_flat. unfold tensor_view_inner. all_chars.
Qed.

(** The tail a dimension map prints, and what is read from it. *)
Lemma dim_map_tail tile_shape padding mid tv shape dim_map : view_mid mid -> dim_map_ok shape dim_map = true ->
  view_tail (format_dim_map dim_map) /\
  let inner := view_inner tile_shape padding mid tv (format_dim_map dim_map) in
  (str_contains "dim_map=[" inner = false /\ dim_map = identity_map shape \/
   str_contains "dim_map=[" inner = true /\ parse_i32_list_after inner "dim_map=[" = Some dim_map).
Proof.
  intros Hm Hok. unfold dim_map_ok in Hok. unfold format_dim_map. destruct (is_identity_from 0 dim_map) eqn:E.
  - apply bool_decide_eq_true in Hok. split; [constructor|]. left. split; [|done].
    unfold str_contains. by rewrite dim_map_absent.
  - apply bool_decide_eq_true in Hok. split; [constructor|]. right.
    assert (Hne : dim_map <> []) by (by destruct dim_map).
    pose proof (dim_map_found tile_shape padding mid tv dim_map Hm Hok Hne) as H. split; [|exact H].
    unfold parse_i32_list_after in H. unfold str_contains. by destruct (str_find "dim_map=[" _).
Qed.

Lemma ints_ok_spec l : ints_ok l = true -> l <> [] /\ Forall in_i32 l.
Proof. unfold ints_ok. by rewrite andb_true_iff, negb_true_iff, bool_decide_eq_false, bool_decide_eq_true. Qed.

Lemma parse_forms_partition_view v : base_ok (TPartitionView v) = true ->
  parse_forms (format_partition_view v) forms = Some (TPartitionView v).
Proof.
  destruct v as [shape tv dim_map padding]. cbn [base_ok pv_tile_shape pv_tensor_view pv_dim_map].
  rewrite !andb_true_iff. intros (([Hne Hi]%ints_ok_spec & Htv) & Hd).
  destruct (dim_map_tail shape padding ", " tv shape dim_map MidPlain Hd) as [Ht Hmap].
  rewrite (parse_bracketed_text "partition_view<" parse_partition_view
             (view_inner shape padding ", " tv (format_dim_map dim_map))).
  - unfold parse_partition_view. rewrite parse_view_tile_shape_text by done. cbn [mbind option_bind].
    rewrite parse_padding_text, parse_nested_tensor_view_text by (done || constructor). cbn [mbind option_bind].
    destruct Hmap as [[-> ->]|[-> ->]]; done.
  - unfold format_partition_view, view_inner, format_tensor_view, tensor_view_inner. cbn [pv_tile_shape pv_tensor_view pv_dim_map pv_padding_value].
    rewrite !sapp_assoc. reflexivity.
  - in_bracketed.
  - apply closing_view; [constructor|done].
Qed.

Lemma parse_forms_gather_scatter_view v : base_ok (TGatherScatterView v) = true ->
  parse_forms (format_gather_scatter_view v) forms = Some (TGatherScatterView v).
Proof.
  destruct v as [shape tv sparse padding]. cbn [base_ok gsv_tile_shape gsv_tensor_view gsv_sparse_dim].
  rewrite !andb_true_iff, bool_decide_eq_true. intros (([Hne Hi]%ints_ok_spec & Htv) & Hd).
  rewrite (parse_bracketed_text "gather_scatter_view<" parse_gather_scatter_view
             (view_inner shape padding ", " tv (", sparse_dim=" +:+ pretty sparse))).
  - unfold parse_gather_scatter_view. rewrite parse_view_tile_shape_text by done. cbn [mbind option_bind].
    rewrite parse_padding_text, parse_nested_tensor_view_text, sparse_dim_found by (done || constructor). cbn [mbind option_bind].
    replace (view_inner shape padding ", " tv (", sparse_dim=" +:+ pretty sparse)) with
      (view_inner shape padding ", " tv ", " +:+ "sparse_dim=" +:+ pretty sparse)
      by (unfold view_inner; by rewrite !sapp_assoc).
    rewrite str_drop_app, str_drop_exact. pose proof (pretty_sep_free sparse) as (_ & _ & Hw & _).
    rewrite str_split_one by (by apply pretty_Z_chars). cbn [head default from_option id].
    unfold parse_i32. by rewrite trim_none, parse_int_pretty.
  - unfold format_gather_scatter_view, view_inner, format_tensor_view, tensor_view_inner.
    cbn [gsv_tile_shape gsv_tensor_view gsv_sparse_dim gsv_padding_value]. rewrite !sapp_assoc. reflexivity.
  - in_bracketed.
  - apply closing_view; constructor.
Qed.

Lemma parse_forms_strided_view v : base_ok (TStridedView v) = true ->
  parse_forms (format_strided_view v) forms = Some (TStridedView v).
Proof.
  destruct v as [shape strides tv dim_map padding].
  cbn [base_ok sv_tile_shape sv_traversal_strides sv_tensor_view sv_dim_map].
  rewrite !andb_true_iff. intros ((([Hne Hi]%ints_ok_spec & Htv) & [Hsne Hsi]%ints_ok_spec) & Hd).
  set (mid := ", traversal_strides=[" +:+ format_ints "," strides +:+ "], ").
  assert (Hm : view_mid mid) by constructor.
  destruct (dim_map_tail shape padding mid tv shape dim_map Hm Hd) as [Ht Hmap].
  rewrite (parse_bracketed_text "strided_view<" parse_strided_view (view_inner shape padding mid tv (format_dim_map dim_map))).
  - unfold parse_strided_view. rewrite parse_view_tile_shape_text by done. cbn [mbind option_bind].
    rewrite parse_padding_text, parse_nested_tensor_view_text by done. cbn [mbind option_bind].
    unfold mid. rewrite traversal_strides_found by done. fold mid. cbn [default from_option id].
    destruct Hmap as [[Hnone ->]|[_ ->]]; [|done].
    unfold str_contains in Hnone. unfold parse_i32_list_after. by destruct (str_find "dim_map=[" _).
  - unfold format_strided_view, mid, view_inner, format_tensor_view, tensor_view_inner.
    cbn [sv_tile_shape sv_traversal_strides sv_tensor_view sv_dim_map sv_padding_value]. rewrite !sapp_assoc. reflexivity.
  - in_bracketed.
  - by apply closing_view.
Qed.

Lemma parse_forms_base ty : base_ok ty = true -> ty <> TToken -> parse_forms (format_type ty) forms = Some ty.
Proof.
  destruct ty as [s|[s]|t|tv|v|v|v|i r| |b a]; intros H Ht; try done.
  - destruct s; vm_compute; reflexivity.
  - destruct s; vm_compute; reflexivity.
  - by apply parse_forms_tile.
  - by apply parse_forms_tensor_view.
  - by apply parse_forms_partition_view.
  - by apply parse_forms_gather_scatter_view.
  - by apply parse_forms_strided_view.
Qed.

(** ** Pointer attributes *)

Definition no_hash (c : ascii) : bool := negb (is_char "#" c).

Lemma base_no_hash ty : base_ok ty = true -> str_all no_hash (format_type ty) = true.
Proof.
  destruct ty as [s|[s]|[shape [s|[s]]]|tv|v|v|v|i r| |b a]; intros H; try done; cbn [format_type].
  - all_chars.
  - all_chars.
  - unfold format_tile. cbn [tt_shape tt_element_type format_tile_elem]. destruct shape; all_chars.
  - unfold format_tile. cbn [tt_shape tt_element_type format_tile_elem]. destruct shape; all_chars.
  - unfold format_tensor_view. all_chars.
  - unfold format_partition_view, format_tensor_view, format_dim_map.
    destruct (pv_padding_value v) as [[]|], (is_identity_from 0 (pv_dim_map v)); all_chars.
  - unfold format_gather_scatter_view, format_tensor_view. destruct (gsv_padding_value v) as [[]|]; all_chars.
  - unfold format_strided_view, format_tensor_view, format_dim_map.
    destruct (sv_padding_value v) as [[]|], (is_identity_from 0 (sv_dim_map v)); all_chars.
Qed.

(** The text of a type with brackets: a first letter and a closing bracket. *)
Definition closed_text (s : string) : Prop := exists c a, is_whitespace c = false /\ s = String c a +:+ ">".

Ltac close_text :=
  eexists _, _; split; cycle 1; [rewrite <- ?sapp_assoc; reflexivity|reflexivity].

Lemma closed_text_base ty : match ty with TScalar _ | TToken | TFunc _ _ | TWithPointerAttribute _ _ => True
                            | _ => closed_text (format_type ty) end.
Proof.
  destruct ty as [s|[s]|[shape e]|tv|v|v|v|i r| |b a]; try done; cbn [format_type].
  - close_text.
  - unfold format_tile. cbn [tt_shape tt_element_type]. destruct shape; close_text.
  - unfold format_tensor_view. change ("]>") with ("]" +:+ ">"). close_text.
  - unfold format_partition_view. close_text.
  - unfold format_gather_scatter_view. close_text.
  - unfold format_strided_view. close_text.
Qed.

Lemma trim_closed s : closed_text s -> trim s = s.
Proof. intros (c & a & Hc & ->). rewrite sapp_cons. by apply trim_tight. Qed.

Lemma trim_base ty : base_ok ty = true -> trim (format_type ty) = format_type ty.
Proof.
  intros H. pose proof (closed_text_base ty) as Hc. destruct ty as [s|p|t|tv|v|v|v|i r| |b a]; try done;
    try (by apply trim_closed); by destruct s.
Qed.

Lemma parse_base fuel ty : base_ok ty = true -> parse_fuel (S fuel) (format_type ty) = Some ty.
Proof.
  intros H. cbn [parse_fuel]. rewrite trim_base by done. unfold str_contains.
  rewrite (str_find_absent no_hash) by (done || by apply base_no_hash). cbn [is_some].
  destruct (decide (ty = TToken)) as [->|Ht]; [done|]. pose proof (parse_forms_base ty H Ht) as Hp.
  rewrite !bool_decide_false; [done| |]; intros E; rewrite E in Hp; vm_compute in Hp; done.
Qed.

(** The attribute is inserted inside the text, in front of a bracket. *)
Lemma insert_ptr_attr_split T : str_contains "ptr<" (T +:+ ">") || str_contains "tensor_view<" (T +:+ ">") = true ->
  exists n, insert_ptr_attr (T +:+ ">") = str_take n T +:+ ptr_attr_text +:+ str_drop n T +:+ ">".
Proof.
  intros H. unfold insert_ptr_attr, str_contains in *.
  assert (exists start, match str_find "ptr<" (T +:+ ">") with Some p => Some p | None => str_find "tensor_view<" (T +:+ ">") end
                        = Some start /\ (start < String.length T)%nat) as (start & -> & Hlt).
  { destruct (str_find "ptr<" (T +:+ ">")) as [k|] eqn:E1.
    - exists k. split; [done|]. apply str_find_bound in E1. rewrite length_sapp in E1. cbn [String.length] in E1. lia.
    - destruct (str_find "tensor_view<" (T +:+ ">")) as [k|] eqn:E2; [|done].
      exists k. split; [done|]. apply str_find_bound in E2. rewrite length_sapp in E2. cbn [String.length] in E2. lia. }
  rewrite (str_drop_le start) by lia. destruct (str_find_mid ">" (str_drop start T) "") as [e He]. rewrite sapp_empty_r in He.
  rewrite He. exists (start + e)%nat. apply str_find_bound in He. rewrite length_sapp in He. cbn [String.length] in He.
  assert (Hlen : (String.length (str_drop start T) + start <= String.length T)%nat).
  { rewrite <- (str_take_drop start T) at 2. rewrite length_sapp.
    enough (start <= String.length (str_take start T))%nat by lia. clear -Hlt. revert T Hlt.
    induction start as [|n IH]; intros [|c T] H; cbn in *; try lia. specialize (IH T ltac:(lia)). lia. }
  by rewrite str_take_le, str_drop_le by lia.
Qed.

Lemma contains_app_r pat a r : str_contains pat r = true -> str_contains pat (a +:+ r) = true.
Proof.
  unfold str_contains. induction a as [|c a IH]; intros H; [done|]. rewrite sapp_cons. cbn [str_find].
  destruct (starts_with pat _); [done|]. specialize (IH H). by destruct (str_find pat (a +:+ r)).
Qed.

Lemma contains_here pat r : str_contains pat (pat +:+ r) = true.
Proof. unfold str_contains. by rewrite str_find_here. Qed.

Ltac contained := rewrite ?sapp_assoc; repeat first [apply contains_here | apply contains_app_r].

Lemma has_pointer_text ty : has_pointer ty = true ->
  str_contains "ptr<" (format_type ty) || str_contains "tensor_view<" (format_type ty) = true.
Proof.
  destruct ty as [s|[s]|[shape [s|[s]]]|tv|v|v|v|i r| |b a]; intros H; try done; apply orb_true_iff; cbn [format_type].
  - left. unfold format_tile. cbn [tt_shape tt_element_type format_tile_elem pointee]. destruct shape; contained.
  - right. unfold format_tensor_view. contained.
  - right. unfold format_partition_view, format_tensor_view. contained.
  - right. unfold format_gather_scatter_view, format_tensor_view. contained.
  - right. unfold format_strided_view, format_tensor_view. contained.
Qed.

(** Removing the attribute restores the text it was inserted in. *)
Lemma remove_ptr_attr a b : str_all no_hash a = true -> str_all no_hash b = true ->
  str_remove ptr_attr_text 0 (a +:+ ptr_attr_text +:+ b) = a +:+ b.
Proof.
  intros Ha Hb. rewrite str_remove_skip, str_remove_here; [|done|].
  - f_equal. rewrite <- (sapp_empty_r b) at 1. rewrite str_remove_skip; [cbn; apply sapp_empty_r|].
    exact (skips_char no_hash ", " "#" "cuda_tile.ptr_attr<none>" b "" Hb eq_refl eq_refl).
  - exact (skips_char no_hash ", " "#" "cuda_tile.ptr_attr<none>" a (ptr_attr_text +:+ b) Ha eq_refl eq_refl).
Qed.

Lemma parse_with_attribute fuel base : base_ok base = true -> has_pointer base = true ->
  parse_fuel (S (S fuel)) (format_type (TWithPointerAttribute base PANone)) = Some (TWithPointerAttribute base PANone).
Proof.
  intros Hok Hp. cbn [format_type].
  assert (closed_text (format_type base)) as (c & a & Hc & E) by (pose proof (closed_text_base base); by destruct base).
  pose proof (has_pointer_text base Hp) as Hin. pose proof (base_no_hash base Hok) as Hh.
  rewrite E in Hin, Hh |- *. apply insert_ptr_attr_split in Hin as [n ->].
  rewrite str_all_app in Hh. apply andb_prop in Hh as [HhT _].
  assert (Ht : trim (str_take n (String c a) +:+ ptr_attr_text +:+ str_drop n (String c a) +:+ ">") =
                str_take n (String c a) +:+ ptr_attr_text +:+ str_drop n (String c a) +:+ ">").
  { apply trim_closed. destruct n as [|n].
    - exists ","%char, (" #cuda_tile.ptr_attr<none>" +:+ String c a). split; [done|]. by rewrite sapp_cons, sapp_assoc.
    - exists c, (str_take n a +:+ ptr_attr_text +:+ str_drop n a). split; [done|]. cbn [str_take str_drop].
      by rewrite !sapp_cons, !sapp_assoc. }
  remember (S fuel) as f eqn:Hf. cbn [parse_fuel]. rewrite Ht, contains_app_r by apply contains_here.
  rewrite remove_ptr_attr.
  - rewrite <- sapp_assoc, str_take_drop, <- E. subst f. rewrite parse_base by done. by destruct base.
  - by apply str_all_take.
  - rewrite str_all_app. by rewrite str_all_drop.
Qed.

(** ** Theorems *)

(** C5: A printed type is read back as itself. For every type the text can
    represent (text_ok: not a function type, tile dimensions in range, a
    tensor view of nonzero rank whose extents and strides are nonnegative or
    dynamic, views with nonempty tiles and a dimension map that is the identity
    of the tile's rank or has an entry that differs, a pointer attribute only
    where a pointer or view is printed), [Type::parse] of the text of
    [format_type] returns that type, padding, dimension map, sparse dimension
    and pointer attribute included. *)
Theorem type_text_roundtrip (ty : IRType) (Hok : text_ok ty = true) : parse (format_type ty) = Some ty.
Proof.
  unfold parse. destruct ty as [s|p|t|tv|v|v|v|i r| |base []]; try by apply parse_base.
  cbn [text_ok] in Hok. apply andb_prop in Hok as [Hb Hp].
  destruct (String.length (format_type (TWithPointerAttribute base PANone))) as [|n] eqn:E; [|by apply parse_with_attribute].
  exfalso. pose proof (parse_with_attribute 0 base Hb Hp) as H.
  destruct (format_type (TWithPointerAttribute base PANone)); [vm_compute in H; done|done].
Qed.

Definition example_view : IRType :=
  TWithPointerAttribute (TStridedView (mkStridedViewType [16; 8] [1; 2]
    (mkTensorViewType ScalarType.F8E4M3FN [DYNAMIC; 8192] [DYNAMIC; 1]) [1; 0] (Some PVNegZero))) PANone.

Lemma type_text_roundtrip_witness : text_ok example_view = true /\ parse (format_type example_view) = Some example_view.
Proof. split; [vm_compute; reflexivity|]. apply (type_text_roundtrip example_view). vm_compute. reflexivity. Defined.

(** Fuel: removing an attribute shortens the text, so that more fuel than the
    length changes nothing. *)
Lemma parse_fuel_enough f g s : (String.length s < f)%nat -> (String.length s < g)%nat -> parse_fuel f s = parse_fuel g s.
Proof.
  revert g s. induction f as [|f IH]; intros [|g] s Hf Hg; try lia. cbn [parse_fuel].
  destruct (str_contains ptr_attr_text (trim s)) eqn:E; [|done]. f_equal.
  apply str_remove_contained in E; [|done].
  assert (String.length (trim s) <= String.length s)%nat.
  { unfold trim. etransitivity; [apply trim_end_length|apply trim_start_length]. }
  apply IH; lia.
Qed.

(** The rank-0 tensor view prints a cross without a dimension and is read back
    as a dynamic vector. *)
Lemma rank0_view_not_read_back :
  let tv := TTensorView (mkTensorViewType ScalarType.F32 [] []) in
  format_type tv = "tensor_view<xf32, strides=[]>"%string /\
  parse (format_type tv) = Some (TTensorView (mkTensorViewType ScalarType.F32 [DYNAMIC] [DYNAMIC])).
Proof. split; vm_compute; reflexivity. Qed.
