(* ===== verification/Options.v ===== *)
(** * Compile options and optimization hints

    cutile-compiler/src/hints.rs, compiler/optimization_hints.rs and the
    [TileirasOptions] of cuda_tile_runtime_utils.rs: the hints an entry point
    declares per architecture, the options a launch adds to them, the
    attributes they become, and the flags passed to the back end. *)

From S2P Require Import Prelude BTree Bounds Obligation Enums IR Text.
Import Syn.
Local Open Scope string_scope.
Local Open Scope Z_scope.

(** ** Hints of one architecture *)

Record SMHints := mkSMHints {
  gpu_name : string;
  sm_num_cta_in_cga : option Z;
  sm_occupancy : option Z;
  sm_max_divisibility : option Z;
  sm_num_worker_warps_per_cta : option Z;
}.

Definition SMHints_new (gpu_name : string) : SMHints := mkSMHints gpu_name None None None None.

Definition get_int_hint (e : Expr) : outcome JITError Z :=
  match e with
  | ELit (LitInt d) =>
      match base10_parse I32_MIN I32_MAX d with
      | Some v => Ok v
      | None => Err (Generic "Failed to parse int hint: number too large to fit in target type")
      end
  | ELit LitOther => unknown_error "expected an integer literal for optimization hint"
  | _ => unknown_error "expected a literal value for optimization hint"
  end.

(** The common body of the setters: a hint is given at most once. *)
Definition set_once (old : option Z) (key : string) (e : Expr) : outcome JITError (option Z) :=
  match old with
  | Some _ => unknown_error (key +:+ " hint has already been set")
  | None => v ← get_int_hint e; Ok (Some v)
  end.

Definition set_num_cta_in_cga (h : SMHints) (e : Expr) : outcome JITError SMHints :=
  v ← set_once (sm_num_cta_in_cga h) "num_cta_in_cga" e;
  Ok (mkSMHints (gpu_name h) v (sm_occupancy h) (sm_max_divisibility h) (sm_num_worker_warps_per_cta h)).
Definition set_occupancy (h : SMHints) (e : Expr) : outcome JITError SMHints :=
  v ← set_once (sm_occupancy h) "occupancy" e;
  Ok (mkSMHints (gpu_name h) (sm_num_cta_in_cga h) v (sm_max_divisibility h) (sm_num_worker_warps_per_cta h)).
Definition set_max_divisibility (h : SMHints) (e : Expr) : outcome JITError SMHints :=
  v ← set_once (sm_max_divisibility h) "max_divisibility" e;
  Ok (mkSMHints (gpu_name h) (sm_num_cta_in_cga h) (sm_occupancy h) v (sm_num_worker_warps_per_cta h)).
Definition set_num_worker_warps_per_cta (h : SMHints) (e : Expr) : outcome JITError SMHints :=
  v ← set_once (sm_num_worker_warps_per_cta h) "num_worker_warps_per_cta" e;
  Ok (mkSMHints (gpu_name h) (sm_num_cta_in_cga h) (sm_occupancy h) (sm_max_divisibility h) v).

(** ** Compile options *)

Inductive DebugInfoLevel := DebugNone | DebugLine | DebugFull.
#[export] Instance DebugInfoLevel_eq_dec : EqDecision DebugInfoLevel.
Proof. solve_decision. Defined.

Record CompileOptions := mkCompileOptions {
  occupancy : option Z;
  num_cta_in_cga : option Z;
  max_divisibility : option Z;
  num_worker_warps_per_cta : option Z;
  opt_level : option Z;
  device_debug : bool;
  lineinfo : bool;
  sanitize_memcheck : bool;
}.
#[export] Instance CompileOptions_eq_dec : EqDecision CompileOptions.
Proof. solve_decision. Defined.

(** [CompileOptions::default] in a build with debug-info level [build]. *)
Definition CompileOptions_default (build : string) : CompileOptions :=
  mkCompileOptions None None None None None (bool_decide (build = "full")) (bool_decide (build = "line")) false.

Definition debug_info (o : CompileOptions) (level : DebugInfoLevel) : CompileOptions :=
  mkCompileOptions (occupancy o) (num_cta_in_cga o) (max_divisibility o) (num_worker_warps_per_cta o) (opt_level o)
    (bool_decide (level = DebugFull)) (bool_decide (level = DebugLine)) (sanitize_memcheck o).

(** ** The back end's flags *)

Record TileirasOptions := mkTileirasOptions {
  t_opt_level : Z; t_device_debug : bool; t_lineinfo : bool; t_sanitize_memcheck : bool }.

Definition DEFAULT_OPT_LEVEL : Z := 3.

Definition from_compile_options (o : CompileOptions) : TileirasOptions :=
  mkTileirasOptions (default (if device_debug o then 0 else DEFAULT_OPT_LEVEL) (opt_level o))
    (device_debug o) (lineinfo o) (sanitize_memcheck o).

Definition flags_byte (o : TileirasOptions) : Z :=
  Z.lor (Z.lor (Z.b2z (t_device_debug o)) (Z.shiftl (Z.b2z (t_lineinfo o)) 1)) (Z.shiftl (Z.b2z (t_sanitize_memcheck o)) 2).

(** ** Hints of an entry point *)

Record OptimizationHints := mkOptimizationHints {
  target_gpu_name : option string;
  tile_as_hints : list (string * SMHints);
}.

Definition parse_key_value (e : Expr) : outcome JITError (string * Expr) :=
  match e with
  | EAssign (EPath _ segments) value =>
      match segments with
      | [key] => Ok (key, value)
      | _ => unknown_error ("Expected single-segment path in optimization hints key, got "
                            +:+ pretty (Z.of_nat (length segments)) +:+ " segments.")
      end
  | EAssign _ _ => unknown_error "Expected path expression on LHS of optimization hints assignment."
  | _ => unknown_error "expected an assignment expression in optimization hints"
  end.

(** One [key = value] inside an architecture's tuple. *)
Definition set_hint (h : SMHints) (key : string) (e : Expr) : outcome JITError SMHints :=
  if bool_decide (key = "num_cta_in_cga") then set_num_cta_in_cga h e
  else if bool_decide (key = "occupancy") then set_occupancy h e
  else if bool_decide (key = "max_divisibility") then set_max_divisibility h e
  else if bool_decide (key = "num_worker_warps_per_cta") then set_num_worker_warps_per_cta h e
  else if bool_decide (key = "allow_tma") || bool_decide (key = "latency") then
    unknown_error ("'" +:+ key +:+ "' is a per-op hint and cannot be set at the entry level. "
                   +:+ "Use it as a parameter on individual load/store operations instead.")
  else unknown_error ("Unexpected optimization hint key '" +:+ key +:+ "'.").

Fixpoint parse_sm_hints (h : SMHints) (elems : list Expr) : outcome JITError SMHints :=
  match elems with
  | [] => Ok h
  | e :: elems => '(key, v) ← parse_key_value e; h' ← set_hint h key v; parse_sm_hints h' elems
  end.

Section parse.
(** The tokens of an expression as text. *)
Context (to_tokens : Expr -> string).

Fixpoint parse_architectures (acc : list (string * SMHints)) (elems : list Expr) : outcome JITError (list (string * SMHints)) :=
  match elems with
  | [] => Ok acc
  | e :: elems =>
      '(key, v) ← parse_key_value e;
      if negb (String.prefix "sm_" key) then unknown_error ("Unexpected optimization hint " +:+ to_tokens e +:+ ".")
      else match v with
      | ETuple hints =>
          h ← parse_sm_hints (SMHints_new key) hints;
          match btree_get string_ltb acc key with
          | Some _ => unknown_error ("Duplicate optimization hint key '" +:+ key +:+ "'.")
          | None => parse_architectures (btree_insert string_ltb acc key h) elems
          end
      | _ => unknown_error "expected a tuple expression for architecture-specific optimization hints"
      end
  end.

Definition OptimizationHints_parse (e : Expr) (target : string) : outcome JITError OptimizationHints :=
  match e with
  | ETuple elems => hs ← parse_architectures [] elems; Ok (mkOptimizationHints (Some target) hs)
  | _ => unknown_error "expected a tuple expression for optimization hints"
  end.
End parse.

Definition get_sm_hints (h : OptimizationHints) (key : string) : option SMHints := btree_get string_ltb (tile_as_hints h) key.

(** The fields of [options] that are set replace the architecture's. *)
Definition override (h : SMHints) (o : CompileOptions) : SMHints :=
  mkSMHints (gpu_name h)
    (match num_cta_in_cga o with Some v => Some v | None => sm_num_cta_in_cga h end)
    (match occupancy o with Some v => Some v | None => sm_occupancy h end)
    (match max_divisibility o with Some v => Some v | None => sm_max_divisibility h end)
    (match num_worker_warps_per_cta o with Some v => Some v | None => sm_num_worker_warps_per_cta h end).

Definition apply_compile_options (h : OptimizationHints) (o : CompileOptions) : OptimizationHints :=
  match occupancy o, num_cta_in_cga o, max_divisibility o, num_worker_warps_per_cta o with
  | None, None, None, None => h
  | _, _, _, _ =>
      let target_arch := default "sm_100" (target_gpu_name h) in
      let sm_hints := default (SMHints_new target_arch) (get_sm_hints h target_arch) in
      mkOptimizationHints (target_gpu_name h) (btree_insert string_ltb (tile_as_hints h) target_arch (override sm_hints o))
  end.

(** ** Attributes (compiler/optimization_hints.rs) *)

Definition int_hint (key : string) (v : option Z) : list (string * Attribute) :=
  match v with Some n => [(key, AInteger n (TScalar ScalarType.I32))] | None => [] end.

Definition arch_entry (p : string * SMHints) : option (string * list (string * Attribute)) :=
  let arch_hints := (int_hint "num_cta_in_cga" (sm_num_cta_in_cga p.2) ++ int_hint "occupancy" (sm_occupancy p.2)
                     ++ int_hint "num_worker_warps_per_cta" (sm_num_worker_warps_per_cta p.2))%list in
  match arch_hints with [] => None | _ => Some (p.1, arch_hints) end.

Definition build_entry_optimization_hints (h : OptimizationHints) : option Attribute :=
  match omap arch_entry (tile_as_hints h) with [] => None | entries => Some (AOptimizationHints entries) end.

(** [hint_params] in the order the hash map yields them. *)
Definition build_load_store_hints (h : OptimizationHints) (hint_params : list (string * Z)) : outcome Empty_set (option Attribute) :=
  match hint_params with
  | [] => Ok None
  | _ =>
      match target_gpu_name h with
      | None => Panic
      | Some target_arch =>
          Ok (Some (AOptimizationHints [(target_arch,
            (fun p : string * Z => (p.1, if bool_decide (p.1 = "allow_tma") then ABool (negb (p.2 =? 0))
                                         else AInteger p.2 (TScalar ScalarType.I32))) <$> hint_params)]))
      end
  end.

(** ** Facts *)

Definition hints_sorted (h : OptimizationHints) : Prop := btree_sorted string_ltb (tile_as_hints h).

Lemma flags_byte_inj o o' : flags_byte o = flags_byte o' ->
  (t_device_debug o, t_lineinfo o, t_sanitize_memcheck o) = (t_device_debug o', t_lineinfo o', t_sanitize_memcheck o').
Proof. destruct o as [? [] [] []], o' as [? [] [] []]; unfold flags_byte; cbn; done. Qed.

Lemma flags_byte_range o : 0 <= flags_byte o < 8.
Proof. destruct o as [? [] [] []]; done. Qed.

Lemma parse_architectures_sorted tok elems acc hs :
  btree_sorted string_ltb acc -> parse_architectures tok acc elems = Ok hs -> btree_sorted string_ltb hs.
Proof.
  revert acc. induction elems as [|e elems IH]; intros acc Hs H; cbn [parse_architectures] in H; [by injection H as <-|].
  apply bind_Ok in H as ([key v] & _ & H). destruct (negb _); [discriminate|]. destruct v; try discriminate.
  apply bind_Ok in H as (h & _ & H). destruct (btree_get _ _ _); [discriminate|].
  eapply IH; [|exact H]. apply (btree_insert_sorted string_ltb); done.
Qed.

(** The hints in force for an architecture are the entry's, except that the
    options of the launch replace those of the target. *)
Lemma apply_compile_options_spec h o arch : hints_sorted h ->
  get_sm_hints (apply_compile_options h o) arch =
    if bool_decide ((occupancy o, num_cta_in_cga o, max_divisibility o, num_worker_warps_per_cta o) = (None, None, None, None))
    then get_sm_hints h arch
    else if bool_decide (arch = default "sm_100" (target_gpu_name h))
    then Some (override (default (SMHints_new arch) (get_sm_hints h arch)) o)
    else get_sm_hints h arch.
Proof.
  intros Hs. unfold apply_compile_options.
  destruct (occupancy o) eqn:E1, (num_cta_in_cga o) eqn:E2, (max_divisibility o) eqn:E3, (num_worker_warps_per_cta o) eqn:E4;
    first [rewrite (bool_decide_true (_ = _)) by done | rewrite (bool_decide_false (_ = _)) by done]; try done;
    unfold get_sm_hints at 1; cbn [tile_as_hints]; case_bool_decide as Ha; try subst arch;
    (by rewrite (btree_get_insert_eq string_ltb)) || (by rewrite (btree_get_insert_ne string_ltb)).
Qed.
