(* ===== verification/Module.v ===== *)
(** * The module arena and its verifiers (cutile-ir/src/ir/module.rs, builder/mod.rs)

    A module owns its values, operations, blocks and regions in flat arenas
    and refers to them by index.  This file models the arena and builder
    operations and the two structural verifiers the compiler runs before
    serialization, and relates the first to a path-based definition of
    dominance. *)

From S2P Require Import Prelude Enums IR Encoding.

(** ** Arenas *)

(** [&self.values[v.0 as usize]] and the like: out of range panics. *)
Definition arena {A} (l : list A) (id : Z) : outcome Error A :=
  match l !! Z.to_nat id with Some a => Ok a | None => Panic end.

Definition module_new (name : string) : IRModule := mkIRModule name None [] [] [] [] [] [].

Definition num_values (m : IRModule) : Z := zlen (m_values m).
Definition value_data (m : IRModule) (v : Z) : outcome Error ValueData := arena (m_values m) v.
Definition value_type (m : IRModule) (v : Z) : outcome Error IRType := vd_ty <$> value_data m v.
Definition get_op (m : IRModule) (id : Z) : outcome Error Operation := arena (m_operations m) id.
Definition get_block (m : IRModule) (id : Z) : outcome Error Block := arena (m_blocks m) id.
Definition get_region (m : IRModule) (id : Z) : outcome Error (list Z) := arena (m_regions m) id.

(** Ids are [u32]: [len() as u32]. *)
Definition module_alloc_value (ty : IRType) (producer : ValueProducer) (m : IRModule) : Z * IRModule :=
  (as_u32 (zlen (m_values m)),
   mkIRModule (m_name m) (m_producer m) (m_values m ++ [mkValueData ty producer]) (m_operations m)
     (m_blocks m) (m_regions m) (m_functions m) (m_globals m)).

Definition alloc_op (op : Operation) (m : IRModule) : Z * IRModule :=
  (as_u32 (zlen (m_operations m)),
   mkIRModule (m_name m) (m_producer m) (m_values m) (m_operations m ++ [op])
     (m_blocks m) (m_regions m) (m_functions m) (m_globals m)).

Definition alloc_block (b : Block) (m : IRModule) : Z * IRModule :=
  (as_u32 (zlen (m_blocks m)),
   mkIRModule (m_name m) (m_producer m) (m_values m) (m_operations m) (m_blocks m ++ [b])
     (m_regions m) (m_functions m) (m_globals m)).

Definition alloc_region (blocks : list Z) (m : IRModule) : Z * IRModule :=
  (as_u32 (zlen (m_regions m)),
   mkIRModule (m_name m) (m_producer m) (m_values m) (m_operations m) (m_blocks m)
     (m_regions m ++ [blocks]) (m_functions m) (m_globals m)).

(** ** The builder (builder/mod.rs) *)

(** Allocate one value per type, numbering the producers from [i]. *)
Fixpoint alloc_values (producer : Z -> ValueProducer) (i : Z) (tys : list IRType) (m : IRModule)
    : list Z * IRModule :=
  match tys with
  | [] => ([], m)
  | ty :: tys =>
      let '(v, m) := module_alloc_value ty (producer (as_u32 i)) m in
      let '(vs, m) := alloc_values producer (i + 1) tys m in (v :: vs, m)
  end.

(** [OpBuilder::build]. *)
Definition build (op : Operation) (m : IRModule) : (Z * list Z) * IRModule :=
  let '(op_id, m) := alloc_op op m in
  let '(results, m) := alloc_values (OpResult op_id) 0 (result_types op) m in
  ((op_id, results), m).

Definition build_block (arg_types : list IRType) (m : IRModule) : (Z * list Z) * IRModule :=
  let block_id := as_u32 (zlen (m_blocks m)) in
  let '(args, m) := alloc_values (BlockArg block_id) 0 arg_types m in
  let '(id, m) := alloc_block (mkBlock (zip args arg_types) []) m in
  ((id, args), m).

Definition build_single_block_region (arg_types : list IRType) (m : IRModule)
    : (Z * Z * list Z) * IRModule :=
  let '((block_id, args), m) := build_block arg_types m in
  let '(region_id, m) := alloc_region [block_id] m in
  ((region_id, block_id, args), m).

(** [append_op]: [module.block_mut(block).ops.push(op)]. *)
Definition module_append_op (block op : Z) (m : IRModule) : outcome Error IRModule :=
  b ← get_block m block;
  Ok (mkIRModule (m_name m) (m_producer m) (m_values m) (m_operations m)
        (<[Z.to_nat block := mkBlock (block_args b) (block_ops b ++ [op])]> (m_blocks m))
        (m_regions m) (m_functions m) (m_globals m)).

(** ** Verification *)

(** [find_op_result] (and the writer's [find_result_value]): the first value
    the arena records as that result. *)
Fixpoint find_from (op_id ri i : Z) (vs : list ValueData) : option Z :=
  match vs with
  | [] => None
  | vd :: vs =>
      match vd_producer vd with
      | OpResult o r => if (o =? op_id) && (r =? ri) then Some (as_u32 i) else find_from op_id ri (i + 1) vs
      | BlockArg _ _ => find_from op_id ri (i + 1) vs
      end
  end.

Definition find_op_result (m : IRModule) (op_id result_index : Z) : option Z :=
  find_from op_id result_index 0 (m_values m).

(** The results of an operation that have a value. *)
Definition op_results (m : IRModule) (op_id : Z) (op : Operation) : list Z :=
  omap (fun i => find_op_result m op_id (Z.of_nat i)) (seq 0 (length (result_types op))).

Section verifiers.
(** The derived [Debug] rendering of attributes, used in diagnostics. *)
Context (debug_attr : Attribute -> string).
Context (m : IRModule).

Definition function_name (func_id : Z) (op : Operation) : string :=
  match find (fun e => bool_decide (e.1 = "sym_name"%string)) (attributes op) with
  | Some (_, v) => debug_attr v
  | None => "op#" +:+ pretty func_id
  end.

(** The visible set, as the code keeps it: a set of value ids. *)
Definition operand_errors (func_name : string) (visible : gset Z) (op_id : Z) (op : Operation) : list string :=
  concat (imap (fun i operand =>
    if bool_decide (operand ∈ visible) then []
    else ["in " +:+ func_name +:+ ": operand " +:+ pretty (Z.of_nat i) +:+ " of " +:+ Opcode.debug (opcode op)
            +:+ " (op#" +:+ pretty op_id +:+ ") references value %" +:+ pretty operand
            +:+ " which does not dominate this use"]) (operands op)).

(** The recursion through regions is by fuel: [verify_region] of a nested
    region gets one unit less. Exhaustion stands for the unbounded recursion
    on a cyclic module. *)
Section block.
Context (verify_region : Z -> gset Z -> list string -> outcome Error (list string)) (func_name : string).

Fixpoint verify_regions (rs : list Z) (visible : gset Z) (errors : list string) : outcome Error (list string) :=
  match rs with
  | [] => Ok errors
  | r :: rs => errors ← verify_region r visible errors; verify_regions rs visible errors
  end.

Fixpoint verify_ops (ops : list Z) (visible : gset Z) (errors : list string) : outcome Error (list string) :=
  match ops with
  | [] => Ok errors
  | op_id :: ops =>
      op ← get_op m op_id;
      let errors := errors ++ operand_errors func_name visible op_id op in
      let visible := visible ∪ list_to_set (op_results m op_id op) in
      errors ← verify_regions (regions op) visible errors;
      verify_ops ops visible errors
  end.

Definition verify_block (block_id : Z) (parent_visible : gset Z) (errors : list string)
    : outcome Error (list string) :=
  block ← get_block m block_id;
  let visible := parent_visible ∪ list_to_set (block_args block).*1 in
  verify_ops (block_ops block) visible errors.

Fixpoint verify_blocks (bs : list Z) (visible : gset Z) (errors : list string) : outcome Error (list string) :=
  match bs with
  | [] => Ok errors
  | b :: bs => errors ← verify_block b visible errors; verify_blocks bs visible errors
  end.
End block.

Fixpoint verify_region (fuel : nat) (func_name : string) (region_id : Z) (parent_visible : gset Z)
    (errors : list string) : outcome Error (list string) :=
  match fuel with
  | O => Panic
  | S fuel =>
      blocks ← get_region m region_id;
      verify_blocks (verify_region fuel func_name) func_name blocks parent_visible errors
  end.

Fixpoint verify_functions (fuel : nat) (funcs : list Z) (errors : list string) : outcome Error (list string) :=
  match funcs with
  | [] => Ok errors
  | func_id :: funcs =>
      func_op ← get_op m func_id;
      errors ← verify_regions (verify_region fuel (function_name func_id func_op)) (regions func_op) ∅ errors;
      verify_functions fuel funcs errors
  end.

(** A region nest without a cycle is at most as deep as there are operations. *)
Definition module_fuel : nat := S (length (m_operations m)).

Definition join_lines (errors : list string) : string := String.concat (String (Ascii.ascii_of_nat 10) EmptyString) errors.

(** [if errors.is_empty() { Ok(()) } else { Err(..join("\n")) }]. *)
Definition report (errors : list string) : outcome Error unit :=
  match errors with
  | [] => Ok tt
  | _ => Err (Verification (join_lines errors))
  end.

Definition verify_dominance : outcome Error unit :=
  errors ← verify_functions module_fuel (m_functions m) [];
  report errors.

(** *** Bytecode value indices *)

(** The state the index verifier threads: value map, next index, errors. *)
Record BcState := mkBcState { bc_map : gmap Z Z; bc_next : Z; bc_errors : list string }.

Definition bc_error (e : string) (s : BcState) : BcState := mkBcState (bc_map s) (bc_next s) (bc_errors s ++ [e]).

Definition bc_insert (v : Z) (s : BcState) : BcState :=
  mkBcState (<[v := bc_next s]> (bc_map s)) (bc_next s + 1) (bc_errors s).

Definition bc_operand_errors (func_name : string) (op_id : Z) (op : Operation) (s : BcState) : BcState :=
  mkBcState (bc_map s) (bc_next s) (bc_errors s ++ concat (imap (fun i operand =>
    if bool_decide (is_Some (bc_map s !! operand)) then []
    else ["in " +:+ func_name +:+ ": bytecode operand " +:+ pretty (Z.of_nat i) +:+ " of " +:+ Opcode.debug (opcode op)
            +:+ " (op#" +:+ pretty op_id +:+ ") references value %" +:+ pretty operand
            +:+ " which is not in the bytecode value map (next_idx=" +:+ pretty (bc_next s)
            +:+ ", map_size=" +:+ pretty (Z.of_nat (size (bc_map s))) +:+ ")"]) (operands op))).

Definition bc_count_error (func_name : string) (op_id : Z) (op : Operation) (s : BcState) : BcState :=
  match Opcode.fixed_result_count (opcode op) with
  | Some expected =>
      if zlen (result_types op) =? expected then s
      else bc_error ("in " +:+ func_name +:+ ": " +:+ Opcode.debug (opcode op) +:+ " (op#" +:+ pretty op_id +:+ ") has "
             +:+ pretty (zlen (result_types op)) +:+ " result types but the bytecode reader expects exactly "
             +:+ pretty expected +:+ " (fixed count)") s
  | None => s
  end.

(** One round of the result loop; a missing result still takes an index. *)
Definition bc_result (func_name : string) (op_id : Z) (op : Operation) (s : BcState) (i : nat) : BcState :=
  match find_op_result m op_id (Z.of_nat i) with
  | Some v => bc_insert v s
  | None =>
      let s := bc_error ("in " +:+ func_name +:+ ": " +:+ Opcode.debug (opcode op) +:+ " (op#" +:+ pretty op_id
                 +:+ ") declares " +:+ pretty (zlen (result_types op)) +:+ " result types but result "
                 +:+ pretty (Z.of_nat i) +:+ " has no Value in the arena — the bytecode reader will allocate a value the writer never registered") s in
      mkBcState (bc_map s) (bc_next s + 1) (bc_errors s)
  end.

Section bc_block.
Context (rec : Z -> BcState -> outcome Error BcState) (func_name : string).

(** [rec] is [verify_bc_operation] on nested operations. *)
Fixpoint bc_ops (ops : list Z) (s : BcState) : outcome Error BcState :=
  match ops with
  | [] => Ok s
  | o :: ops => s ← rec o s; bc_ops ops s
  end.

Definition verify_bc_block (block_id : Z) (s : BcState) : outcome Error BcState :=
  let saved_next_idx := bc_next s in
  block ← get_block m block_id;
  let s := foldl (fun s a => bc_insert a.1 s) s (block_args block) in
  s ← bc_ops (block_ops block) s;
  Ok (mkBcState (filter (fun kv => kv.2 < saved_next_idx) (bc_map s)) saved_next_idx (bc_errors s)).

Fixpoint bc_blocks (bs : list Z) (s : BcState) : outcome Error BcState :=
  match bs with
  | [] => Ok s
  | b :: bs => s ← verify_bc_block b s; bc_blocks bs s
  end.

Fixpoint bc_regions (rs : list Z) (s : BcState) : outcome Error BcState :=
  match rs with
  | [] => Ok s
  | r :: rs => blocks ← get_region m r; s ← bc_blocks blocks s; bc_regions rs s
  end.
End bc_block.

Fixpoint verify_bc_operation (fuel : nat) (func_name : string) (op_id : Z) (s : BcState) : outcome Error BcState :=
  match fuel with
  | O => Panic
  | S fuel =>
      op ← get_op m op_id;
      let s := bc_operand_errors func_name op_id op s in
      let s := bc_count_error func_name op_id op s in
      let s := foldl (bc_result func_name op_id op) s (seq 0 (length (result_types op))) in
      bc_regions (verify_bc_operation fuel func_name) (regions op) s
  end.

(** The per-function walk: only the entry block of the first region. *)
Definition bc_function (fuel : nat) (func_id : Z) (errors : list string) : outcome Error (list string) :=
  func_op ← get_op m func_id;
  let func_name := function_name func_id func_op in
  match regions func_op with
  | [] => Ok errors
  | region_id :: _ =>
      region ← get_region m region_id;
      match region with
      | [] => Ok errors
      | entry_block :: _ =>
          block ← get_block m entry_block;
          let s := foldl (fun s a => bc_insert a.1 s) (mkBcState ∅ 0 errors) (block_args block) in
          s ← bc_ops (verify_bc_operation fuel func_name) (block_ops block) s;
          Ok (bc_errors s)
      end
  end.

Fixpoint bc_functions (fuel : nat) (funcs : list Z) (errors : list string) : outcome Error (list string) :=
  match funcs with
  | [] => Ok errors
  | f :: funcs => errors ← bc_function fuel f errors; bc_functions fuel funcs errors
  end.

Definition verify_bytecode_indices : outcome Error unit :=
  errors ← bc_functions module_fuel (m_functions m) [];
  report errors.
End verifiers.

(** ** Well-formed nests *)

Section nests.
Context (m : IRModule).

(** Every id under an operation is in range and the nest is at most [fuel]
    deep. *)
Fixpoint op_tree (fuel : nat) (op_id : Z) : bool :=
  match fuel with
  | O => false
  | S fuel =>
      match get_op m op_id with
      | Ok op =>
          forallb (fun r =>
            match get_region m r with
            | Ok bs =>
                forallb (fun b =>
                  match get_block m b with
                  | Ok blk => forallb (op_tree fuel) (block_ops blk)
                  | _ => false
                  end) bs
            | _ => false
            end) (regions op)
      | _ => false
      end
  end.

Definition block_tree (fuel : nat) (b : Z) : Prop :=
  exists blk, get_block m b = Ok blk /\ Forall (fun o => op_tree fuel o = true) (block_ops blk).
Definition region_tree (fuel : nat) (r : Z) : Prop :=
  exists bs, get_region m r = Ok bs /\ Forall (block_tree fuel) bs.

Lemma op_tree_S fuel o : op_tree (S fuel) o = true <->
  exists op, get_op m o = Ok op /\ Forall (region_tree fuel) (regions op).
Proof.
  cbn [op_tree]. destruct (get_op m o) as [op| |]; [|split; [done|by intros (? & [=] & _)]..].
  rewrite forallb_Forall. split.
  - intros H. exists op. split; [done|]. eapply Forall_impl; [exact H|]. clear H. cbn beta. intros r H.
    destruct (get_region m r) as [bs| |] eqn:Er; [|done..]. exists bs. split; [done|].
    apply forallb_Forall in H. eapply Forall_impl; [exact H|]. clear H. cbn beta. intros b H.
    destruct (get_block m b) as [blk| |] eqn:Eb; [|done..]. exists blk. split; [done|].
    by apply forallb_Forall in H.
  - intros (? & [= <-] & H). eapply Forall_impl; [exact H|]. clear H. cbn beta. intros r (bs & Er & H). rewrite Er.
    apply forallb_Forall. eapply Forall_impl; [exact H|]. clear H. cbn beta. intros b (blk & Eb & H). rewrite Eb.
    by apply forallb_Forall.
Qed.

Lemma op_tree_mono fuel fuel' o : (fuel <= fuel')%nat -> op_tree fuel o = true -> op_tree fuel' o = true.
Proof.
  revert fuel' o. induction fuel as [|fuel IH]; intros [|fuel'] o Hle; [done|done|lia|].
  rewrite !op_tree_S. intros (op & Ho & H). exists op. split; [done|]. eapply Forall_impl; [exact H|]. clear H.
  intros r (bs & Er & H). exists bs. split; [done|]. eapply Forall_impl; [exact H|]. clear H.
  intros b (blk & Eb & H). exists blk. split; [done|]. eapply Forall_impl; [exact H|]. clear H.
  intros o' Ho'. apply (IH fuel'); [lia|done].
Qed.
(** A nest that has any depth has depth at most the number of operations:
    operations nested in one another are distinct. *)
Lemma op_tree_range fuel o : op_tree fuel o = true -> (Z.to_nat o < length (m_operations m))%nat.
Proof.
  destruct fuel as [|fuel]; [done|]. rewrite op_tree_S. intros (op & Ho & _). unfold get_op, arena in Ho.
  destruct (_ !! _) eqn:E; [|done]. by eapply lookup_lt_Some.
Qed.

Lemma op_tree_arena fuel o o' : Z.to_nat o = Z.to_nat o' -> op_tree fuel o = op_tree fuel o'.
Proof. intros E. destruct fuel; [done|]. cbn [op_tree]. unfold get_op, arena. by rewrite E. Qed.

Lemma op_tree_bound k (V : list nat) o : op_tree k o = true -> NoDup V ->
  (forall v, v ∈ V -> (v < length (m_operations m))%nat /\ op_tree k (Z.of_nat v) = false) ->
  op_tree (length (m_operations m) - length V) o = true.
Proof.
  revert V o. induction k as [|k IH]; intros V o Hk Hnd HV; [done|].
  destruct (op_tree k o) eqn:Eprev.
  { apply IH; [done..|]. intros v Hv. destruct (HV v Hv) as [Hlt Hf]. split; [done|].
    destruct (op_tree k (Z.of_nat v)) eqn:E; [|done].
    by rewrite (op_tree_mono k (S k) _ ltac:(lia) E) in Hf. }
  set (x := Z.to_nat o). assert (Hx : op_tree k (Z.of_nat x) = false).
  { rewrite <- Eprev. apply op_tree_arena. subst x. lia. }
  assert (Hni : x ∉ V).
  { intros Hin. destruct (HV x Hin) as [_ Hf].
    rewrite (op_tree_arena (S k) (Z.of_nat x) o) in Hf by (subst x; lia). congruence. }
  pose proof (op_tree_range _ _ Hk) as Hlt. fold x in Hlt.
  assert (Hlen : (S (length V) <= length (m_operations m))%nat).
  { rewrite <- (length_seq (length (m_operations m)) 0). change (S (length V)) with (length (x :: V)).
    apply NoDup_incl_length; [apply NoDup_ListNoDup; by constructor|].
    intros y Hy%list_elem_of_In. apply list_elem_of_In, elem_of_seq.
    apply elem_of_cons in Hy as [->|Hy]; [lia|]. destruct (HV y Hy). lia. }
  replace (length (m_operations m) - length V)%nat
    with (S (length (m_operations m) - length (x :: V))) by (cbn [length]; lia).
  rewrite op_tree_S in *. destruct Hk as (op & Ho & H). exists op. split; [done|].
  eapply Forall_impl; [exact H|]. intros r (bs & Er & Hbs). exists bs. split; [done|].
  eapply Forall_impl; [exact Hbs|]. intros b (blk & Eb & Hblk). exists blk. split; [done|].
  eapply Forall_impl; [exact Hblk|]. cbn beta. intros o' Ho'. apply IH; [done|by constructor|].
  intros v [->|Hv]%elem_of_cons; [by split|]. destruct (HV v Hv) as [Hlv Hf]. split; [done|].
  destruct (op_tree k (Z.of_nat v)) eqn:E; [|done]. by rewrite (op_tree_mono k (S k) _ ltac:(lia) E) in Hf.
Qed.

Lemma module_fuel_enough k o : op_tree k o = true -> op_tree (module_fuel m) o = true.
Proof.
  intros H. apply (op_tree_mono (length (m_operations m) - length (@nil nat))); [unfold module_fuel; cbn; lia|].
  apply (op_tree_bound k); [done|constructor|]. by intros v ?%elem_of_nil.
Qed.
End nests.

(** ** Dominance, by paths

    A site is the path from a region down to an operation: the enclosing
    blocks, outermost first, each with the position of the operation that
    contains the rest. *)

Section dominance.
Context (m : IRModule).

Notation path := (list (Z * nat)).

Inductive site : Z -> path -> Operation -> Prop :=
| site_here r bs b blk i o op :
    get_region m r = Ok bs -> b ∈ bs -> get_block m b = Ok blk -> block_ops blk !! i = Some o ->
    get_op m o = Ok op -> site r [(b, i)] op
| site_nested r bs b blk i o op r' p op' :
    get_region m r = Ok bs -> b ∈ bs -> get_block m b = Ok blk -> block_ops blk !! i = Some o ->
    get_op m o = Ok op -> r' ∈ regions op -> site r' p op' -> site r ((b, i) :: p) op'.

(** [v] is an argument of [b], or a result of one of its first [n]
    operations. *)
Definition defined_in (b : Z) (n : nat) (v : Z) : Prop :=
  exists blk, get_block m b = Ok blk /\
    (v ∈ (block_args blk).*1 \/
     exists j o op, (j < n)%nat /\ block_ops blk !! j = Some o /\ get_op m o = Ok op /\ v ∈ op_results m o op).

(** The rule the verifier enforces: in the innermost block, definitions before
    the use; in an enclosing block, definitions up to and including the
    operation whose region contains the use. *)
Fixpoint dominates (v : Z) (p : path) : Prop :=
  match p with
  | [] => False
  | [(b, i)] => defined_in b i v
  | (b, i) :: p => defined_in b (S i) v \/ dominates v p
  end.

(** All uses at and below a region are dominated, given the values [V] visible
    around it. *)
Definition region_ok (V : gset Z) (r : Z) : Prop :=
  forall p op v, site r p op -> v ∈ operands op -> v ∈ V \/ dominates v p.

(** *** The verifier decides it *)

(** A pass over the module that appends to the error list and appends nothing
    exactly when [P] holds. *)
Definition checks (f : list string -> outcome Error (list string)) (P : Prop) : Prop :=
  exists E, (forall errors, f errors = Ok (errors ++ E)) /\ (E = [] <-> P).

Lemma checks_iff f P Q : (P <-> Q) -> checks f P -> checks f Q.
Proof. intros H (E & Hf & HE). exists E. by rewrite <- H. Qed.

Lemma checks_ret (P : Prop) : P -> checks Ok P.
Proof. intros H. exists []. split; [|done]. intros errors. by rewrite app_nil_r. Qed.

Lemma checks_bind f g P Q : checks f P -> checks g Q -> checks (fun e => e ← f e; g e) (P /\ Q).
Proof.
  intros (E & Hf & HE) (E' & Hg & HE'). exists (E ++ E'). split.
  - intros errors. rewrite Hf. cbn. by rewrite Hg, app_assoc.
  - rewrite <- HE, <- HE'. split; [by intros [-> ->]%app_eq_nil|by intros [-> ->]].
Qed.

Lemma checks_ext f g P : (forall e, f e = g e) -> checks f P -> checks g P.
Proof. intros H (E & Hf & HE). exists E. split; [|done]. intros e. by rewrite <- H. Qed.

Lemma operand_errors_nil name V o op :
  operand_errors name V o op = [] <-> forall v, v ∈ operands op -> v ∈ V.
Proof.
  unfold operand_errors. generalize (opcode op) as oc. intros oc. generalize (operands op) as l. intros l.
  assert (H : forall k : nat, concat (imap (fun i operand => if bool_decide (operand ∈ V) then []
    else ["in " +:+ name +:+ ": operand " +:+ pretty (Z.of_nat (k + i)) +:+ " of " +:+ Opcode.debug oc
            +:+ " (op#" +:+ pretty o +:+ ") references value %" +:+ pretty operand
            +:+ " which does not dominate this use"]) l) = [] <-> forall v, v ∈ l -> v ∈ V); [|exact (H 0%nat)].
  induction l as [|x l IH]; intros k; [by split; [intros _ v ?%elem_of_nil|]|].
  cbn [imap concat]. case_bool_decide as Hx.
  - cbn [app]. rewrite <- (imap_ext (fun i operand => if bool_decide (operand ∈ V) then []
      else ["in " +:+ name +:+ ": operand " +:+ pretty (Z.of_nat (S k + i)) +:+ " of " +:+ Opcode.debug oc
            +:+ " (op#" +:+ pretty o +:+ ") references value %" +:+ pretty operand
            +:+ " which does not dominate this use"])).
    + rewrite IH. setoid_rewrite elem_of_cons. split; [intros H v [->|?]; auto|auto].
    + intros i y _. cbn [compose]. by replace (k + S i)%nat with (S k + i)%nat by lia.
  - split; [done|]. intros H. exfalso. apply Hx, H. by left.
Qed.

(** What is visible after the first [n] operations of a list. *)
Definition avail (V : gset Z) (ops : list Z) (n : nat) (v : Z) : Prop :=
  v ∈ V \/ exists j o op, (j < n)%nat /\ ops !! j = Some o /\ get_op m o = Ok op /\ v ∈ op_results m o op.

Lemma avail_0 V ops v : avail V ops 0 v <-> v ∈ V.
Proof. split; [|by left]. intros [?|(j & ? & ? & ? & _)]; [done|lia]. Qed.

Lemma avail_S V o op ops n v : get_op m o = Ok op ->
  avail V (o :: ops) (S n) v <-> avail (V ∪ list_to_set (op_results m o op)) ops n v.
Proof.
  intros Ho. unfold avail. rewrite elem_of_union, elem_of_list_to_set. split.
  - intros [?|([|j] & o' & op' & Hj & Hl & Ho' & Hv)]; [by left; left| |].
    + left; right. cbn in Hl. congruence.
    + right. exists j, o', op'. split; [lia|done].
  - intros [[?|?]|(j & o' & op' & Hj & Hl & Ho' & Hv)]; [by left| |].
    + right. exists 0%nat, o, op. split; [lia|done].
    + right. exists (S j), o', op'. split; [lia|done].
Qed.

(** The uses of the operations of a list, and of everything below them. *)
Definition ops_ok (V : gset Z) (ops : list Z) : Prop :=
  forall i o op, ops !! i = Some o -> get_op m o = Ok op ->
    (forall v, v ∈ operands op -> avail V ops i v) /\
    (forall r p op' v, r ∈ regions op -> site r p op' -> v ∈ operands op' ->
       avail V ops (S i) v \/ dominates v p).

Lemma ops_ok_cons V o op ops : get_op m o = Ok op ->
  ops_ok V (o :: ops) <->
  ((forall v, v ∈ operands op -> v ∈ V) /\
   (forall r, r ∈ regions op -> region_ok (V ∪ list_to_set (op_results m o op)) r)) /\
  ops_ok (V ∪ list_to_set (op_results m o op)) ops.
Proof.
  intros Ho. split.
  - intros H. split.
    + destruct (H 0%nat o op eq_refl Ho) as [H1 H2]. split.
      * intros v Hv. by apply avail_0 with (ops := o :: ops), H1.
      * intros r Hr p op' v Hs Hv. destruct (H2 r p op' v Hr Hs Hv) as [Ha|]; [left|by right].
        apply (avail_S V o op ops 0) in Ha; [|done]. by apply avail_0 in Ha.
    + intros i o' op' Hl Ho'. destruct (H (S i) o' op' Hl Ho') as [H1 H2]. split.
      * intros v Hv. by apply (avail_S V o op), H1.
      * intros r p op'' v Hr Hs Hv. rewrite <- (avail_S V o op) by done. eauto.
  - intros [[H1 H2] H3] [|i] o' op' Hl Ho'.
    + cbn in Hl. injection Hl as <-. rewrite Ho in Ho'. injection Ho' as <-. split.
      * intros v Hv. apply avail_0; auto.
      * intros r p op' v Hr Hs Hv. rewrite (avail_S V o op) by done. rewrite avail_0. by eapply H2.
    + destruct (H3 i o' op' Hl Ho') as [H4 H5]. split.
      * intros v Hv. apply (avail_S V o op); auto.
      * intros r p op'' v Hr Hs Hv. rewrite (avail_S V o op) by done. eauto.
Qed.

Lemma verify_regions_checks rec rs V (P : Z -> Prop) :
  Forall (fun r => checks (rec r V) (P r)) rs ->
  checks (verify_regions rec rs V) (forall r, r ∈ rs -> P r).
Proof.
  induction 1 as [|r rs Hr Hrs IH]; [by apply checks_ret; intros r ?%elem_of_nil|].
  eapply checks_iff; [|apply (checks_bind _ _ _ _ Hr IH)]. setoid_rewrite elem_of_cons.
  split; [intros [? ?] ? [->|?]; auto|auto].
Qed.

Lemma verify_ops_checks rec name ops V :
  Forall (fun o => exists op, get_op m o = Ok op /\
    Forall (fun r => forall W, checks (rec r W) (region_ok W r)) (regions op)) ops ->
  checks (verify_ops m rec name ops V) (ops_ok V ops).
Proof.
  intros H. revert V. induction H as [|o ops (op & Ho & Hr) Hops IH]; intros V; [by apply checks_ret; intros ? ? ?|].
  eapply checks_iff; [symmetry; by apply ops_ok_cons|].
  set (W := V ∪ list_to_set (op_results m o op)).
  eapply (checks_ext (fun e => e ← (fun e => e ← Ok (e ++ operand_errors name V o op);
    verify_regions rec (regions op) W e) e; verify_ops m rec name ops W e)).
  { intros e. cbn [verify_ops]. rewrite Ho. reflexivity. }
  apply checks_bind; [|apply IH]. apply (checks_bind (fun e => Ok (e ++ operand_errors name V o op))).
  - eexists. split; [done|]. apply operand_errors_nil.
  - apply verify_regions_checks. eapply Forall_impl; [exact Hr|]. auto.
Qed.

(** A region is in order when each of its blocks is. *)
Lemma dominates_cons v b i p : p <> [] -> dominates v ((b, i) :: p) <-> defined_in b (S i) v \/ dominates v p.
Proof. by destruct p. Qed.

Lemma site_nonempty r p op : site r p op -> p <> [].
Proof. by destruct 1. Qed.

Lemma defined_in_avail V b blk n v : get_block m b = Ok blk ->
  avail (V ∪ list_to_set (block_args blk).*1) (block_ops blk) n v <-> v ∈ V \/ defined_in b n v.
Proof.
  intros Hb. unfold avail, defined_in. rewrite elem_of_union, elem_of_list_to_set. split.
  - intros [[?|?]|?]; [by left|right; eauto..].
  - intros [?|(? & Hb' & H)]; [by left; left|]. assert (x = blk) as -> by congruence. tauto.
Qed.

Lemma region_ok_blocks V r bs : get_region m r = Ok bs ->
  Forall (fun b => exists blk, get_block m b = Ok blk) bs ->
  (forall b blk, b ∈ bs -> get_block m b = Ok blk ->
     ops_ok (V ∪ list_to_set (block_args blk).*1) (block_ops blk)) <-> region_ok V r.
Proof.
  intros Hr Hbs. split.
  - intros H p op v Hs Hv. inversion Hs as [? bs' b blk i o ? E1 Hb Eb Hl Ho|? bs' b blk i o op1 r' p' ? E1 Hb Eb Hl Ho Hin Hs'];
      subst; assert (bs' = bs) as -> by congruence; destruct (H b blk Hb Eb i o _ Hl Ho) as [H1 H2].
    + by apply (defined_in_avail V b blk i v Eb), H1.
    + rewrite dominates_cons by (by eapply site_nonempty).
      destruct (H2 _ _ _ v Hin Hs' Hv) as [Ha|]; [|tauto]. apply (defined_in_avail V b blk (S i) v Eb) in Ha. tauto.
  - intros H b blk Hb Eb i o op Hl Ho. split.
    + intros v Hv. apply (defined_in_avail V b blk i v Eb).
      exact (H [(b, i)] op v (site_here r bs b blk i o op Hr Hb Eb Hl Ho) Hv).
    + intros r' p op' v Hin Hs Hv. rewrite (defined_in_avail V b blk (S i) v Eb).
      pose proof (H _ op' v (site_nested r bs b blk i o op r' p op' Hr Hb Eb Hl Ho Hin Hs) Hv) as HD.
      rewrite dominates_cons in HD by (by eapply site_nonempty). tauto.
Qed.

Lemma verify_blocks_checks rec name bs V :
  Forall (fun b => exists blk, get_block m b = Ok blk /\
    Forall (fun o => exists op, get_op m o = Ok op /\
      Forall (fun r => forall W, checks (rec r W) (region_ok W r)) (regions op)) (block_ops blk)) bs ->
  checks (verify_blocks m rec name bs V)
    (forall b blk, b ∈ bs -> get_block m b = Ok blk ->
       ops_ok (V ∪ list_to_set (block_args blk).*1) (block_ops blk)).
Proof.
  induction 1 as [|b bs (blk & Eb & Hops) Hbs IH]; [apply checks_ret; by intros ? ? ?%elem_of_nil|].
  eapply checks_iff; [|eapply (checks_bind (verify_block m rec name b V) _
    (ops_ok (V ∪ list_to_set (block_args blk).*1) (block_ops blk))); [|exact IH]].
  - setoid_rewrite elem_of_cons. split; [|intros H; split; [by apply (H b); [left|]|eauto]].
    intros [? ?] ? blk' [->|?] Eb'; [by assert (blk' = blk) as -> by congruence|eauto].
  - eapply checks_ext; [|by apply (verify_ops_checks rec name)]. intros e. unfold verify_block. by rewrite Eb.
Qed.

Lemma region_tree_blocks fuel r : region_tree m fuel r ->
  exists bs, get_region m r = Ok bs /\ Forall (fun b => exists blk, get_block m b = Ok blk /\
    Forall (fun o => exists op, get_op m o = Ok op /\
      Forall (fun r => exists fuel', fuel = S fuel' /\ region_tree m fuel' r) (regions op)) (block_ops blk)) bs.
Proof.
  intros (bs & Hr & Hbs). exists bs. split; [done|]. eapply Forall_impl; [exact Hbs|]. clear Hbs.
  intros b (blk & Eb & H). exists blk. split; [done|]. eapply Forall_impl; [exact H|]. clear H. cbn beta. intros o Ho.
  destruct fuel as [|fuel]; [done|]. apply op_tree_S in Ho as (op & Ho & H). exists op. split; [done|].
  eapply Forall_impl; [exact H|]. eauto.
Qed.

Lemma verify_region_checks fuel name r V : region_tree m fuel r ->
  checks (verify_region m (S fuel) name r V) (region_ok V r).
Proof.
  revert r V. induction fuel as [fuel IH] using lt_wf_ind. intros r V (bs & Hr & Hbs)%region_tree_blocks.
  eapply checks_iff; [apply (region_ok_blocks V r bs Hr); eapply Forall_impl; [exact Hbs|];
    by intros b (blk & ? & _); eauto|].
  eapply checks_ext; [|apply (verify_blocks_checks (verify_region m fuel name) name)].
  { intros e. cbn [verify_region]. by rewrite Hr. }
  eapply Forall_impl; [exact Hbs|]. intros b (blk & Eb & H). exists blk. split; [done|].
  eapply Forall_impl; [exact H|]. intros o (op & Ho & Hrs). exists op. split; [done|].
  eapply Forall_impl; [exact Hrs|]. intros r' (fuel' & -> & Hr') W. apply IH; [lia|done].
Qed.

Definition module_dominated : Prop :=
  forall f op r, f ∈ m_functions m -> get_op m f = Ok op -> r ∈ regions op -> region_ok ∅ r.

Lemma verify_functions_checks dattr fs : Forall (fun f => op_tree m (module_fuel m) f = true) fs ->
  checks (verify_functions dattr m (module_fuel m) fs)
    (forall f op r, f ∈ fs -> get_op m f = Ok op -> r ∈ regions op -> region_ok ∅ r).
Proof.
  induction 1 as [|f fs Hf Hfs IH]; [apply checks_ret; by intros ? ? ? ?%elem_of_nil|].
  apply op_tree_S in Hf as (op & Ho & Hr).
  assert (Hc : checks (verify_regions (verify_region m (module_fuel m) (function_name dattr f op)) (regions op) ∅)
                 (forall r, r ∈ regions op -> region_ok ∅ r)).
  { apply verify_regions_checks. eapply Forall_impl; [exact Hr|]. intros r. apply verify_region_checks. }
  eapply checks_iff; [|eapply checks_ext; [|exact (checks_bind _ _ _ _ Hc IH)]].
  - setoid_rewrite elem_of_cons. split; [|intros H; split; [intros r; apply (H f); [by left|done]|eauto]].
    intros [? ?] ? op' r [->|?] Ho'; [by assert (op' = op) as -> by congruence; auto|eauto].
  - intros e. cbn [verify_functions]. by rewrite Ho.
Qed.

Lemma report_ok errors : report errors = Ok tt <-> errors = [].
Proof. by destruct errors. Qed.

End dominance.

(** C27: On a module whose functions nest without cycles, [verify_dominance]
    returns: it accepts exactly when every operand used anywhere below a
    function is dominated, in the sense of enclosing blocks and positions, by
    its definition, and otherwise it reports a verification error and never
    panics. *)
Theorem verify_dominance_exact dattr m :
  Forall (fun f => exists k, op_tree m k f = true) (m_functions m) ->
  (verify_dominance dattr m = Ok tt <-> module_dominated m) /\
  (verify_dominance dattr m = Ok tt \/ exists e, verify_dominance dattr m = Err (Verification e)).
Proof.
  intros H. destruct (verify_functions_checks m dattr (m_functions m)) as (E & Hf & HE).
  { eapply Forall_impl; [exact H|]. intros f [k Hk]. by eapply module_fuel_enough. }
  unfold verify_dominance. rewrite Hf. cbn. split; [by rewrite report_ok|].
  destruct E; [by left|right; eexists; reflexivity].
Qed.

(** A function with a loop whose body uses an argument of the function, and a
    use before its definition when [bad]. *)
Definition dominance_example (bad : bool) : IRModule :=
  let ty := TTile (mkTileType [] (TEScalar ScalarType.F32)) in
  let '((r1, b1, _), m) := build_single_block_region [] (module_new "m") in
  let '((r2, b2, args), m) := build_single_block_region [ty] m in
  let '((o1, res), m) := build (mkOperation Opcode.NegF args [ty] [] [] LocUnknown) m in
  let '((o2, _), m) := build (mkOperation Opcode.AddF (args ++ res) [ty] [] [] LocUnknown) m in
  let '((o3, _), m) := build (mkOperation Opcode.Loop [] [] [] [r1] LocUnknown) m in
  let '((f, _), m) := build (mkOperation Opcode.Entry [] [] [] [r2] LocUnknown) m in
  match (m ← module_append_op b1 o2 m;
         m ← module_append_op b2 (if bad then o3 else o1) m; module_append_op b2 (if bad then o1 else o3) m) with
  | Ok m => mkIRModule (m_name m) None (m_values m) (m_operations m) (m_blocks m) (m_regions m) [f] []
  | _ => m
  end.

Lemma verify_dominance_exact_witness :
  module_dominated (dominance_example false) /\ ~ module_dominated (dominance_example true).
Proof.
  assert (tree : forall b, Forall (fun f => exists k, op_tree (dominance_example b) k f = true)
                             (m_functions (dominance_example b))).
  { intros b. replace (m_functions (dominance_example b)) with [3] by (destruct b; vm_compute; reflexivity).
    apply Forall_cons_2; [|apply Forall_nil_2]. exists 5%nat. destruct b; vm_compute; reflexivity. }
  split.
  - apply (verify_dominance_exact (fun _ => EmptyString) (dominance_example false) (tree false)).
    vm_compute. reflexivity.
  - intros H. apply (verify_dominance_exact (fun _ => EmptyString) (dominance_example true) (tree true)) in H.
    vm_compute in H. discriminate H.
Defined.
