(* ===== verification/Tables.v ===== *)
(** * Interned tables (cutile-ir/src/bytecode/writer.rs, debug_info.rs, decoder.rs)

    The string, constant and debug-attribute tables: interning, the
    offset-table section layout the writer emits (reserve, append, patch) and
    the parsers that read it back.  The theorems show that interning is
    stable and injective and that the sections decode to exactly the entries
    written. *)

From S2P Require Import Prelude Enums Encoding IR.

(** ** Strings as bytes *)

Definition as_bytes (s : string) : list Z := (fun c => Z.of_N (Ascii.N_of_ascii c)) <$> String.list_ascii_of_string s.

Definition of_bytes (bs : list Z) : string :=
  String.string_of_list_ascii ((fun b => Ascii.ascii_of_N (Z.to_N b)) <$> bs).

Definition cont_byte (b : Z) : bool := (0x80 <=? b) && (b <=? 0xBF).
Definition between_bytes (lo hi b : Z) : bool := (lo <=? b) && (b <=? hi).

(** [str::from_utf8]: the well-formed byte sequences of the Unicode standard. *)
Fixpoint utf8_valid (bs : list Z) : bool :=
  match bs with
  | [] => true
  | b0 :: r0 =>
      if b0 <? 0x80 then utf8_valid r0
      else if between_bytes 0xC2 0xDF b0 then
        match r0 with b1 :: r1 => cont_byte b1 && utf8_valid r1 | [] => false end
      else if between_bytes 0xE0 0xEF b0 then
        match r0 with
        | b1 :: b2 :: r2 =>
            between_bytes (if b0 =? 0xE0 then 0xA0 else 0x80) (if b0 =? 0xED then 0x9F else 0xBF) b1
            && cont_byte b2 && utf8_valid r2
        | _ => false
        end
      else if between_bytes 0xF0 0xF4 b0 then
        match r0 with
        | b1 :: b2 :: b3 :: r3 =>
            between_bytes (if b0 =? 0xF0 then 0x90 else 0x80) (if b0 =? 0xF4 then 0x8F else 0xBF) b1
            && cont_byte b2 && cont_byte b3 && utf8_valid r3
        | _ => false
        end
      else false
  end.

Definition from_utf8_or (bs : list Z) (d : string) : string :=
  if utf8_valid bs then of_bytes bs else d.

(** ** Managers *)

(** [IndexMap<String, u64>], in insertion order. *)
Record StringManager := mkStringManager { sm_map : list (string * Z) }.

Definition string_manager_new : StringManager := mkStringManager [].

Definition assoc_get {K} `{EqDecision K} (m : list (K * Z)) (k : K) : option Z :=
  snd <$> find (fun e => bool_decide (e.1 = k)) m.

Definition sm_get_or_insert (m : StringManager) (s : string) : StringManager * Z :=
  match assoc_get (sm_map m) s with
  | Some idx => (m, idx)
  | None => let idx := zlen (sm_map m) in (mkStringManager (sm_map m ++ [(s, idx)]), idx)
  end.

Record ConstantManager := mkConstantManager { cm_entries : list (list Z) }.

Definition constant_manager_new : ConstantManager := mkConstantManager [].
Definition cm_add (m : ConstantManager) (data : list Z) : ConstantManager * Z :=
  (mkConstantManager (cm_entries m ++ [data]), zlen (cm_entries m)).

(** [DebugAttrTable]: a [HashMap<Vec<u8>, u64>] and the entries in id order. *)
Record DebugAttrTable := mkDebugAttrTable {
  da_map : list (list Z * Z);
  da_entries : list (list Z);
}.

Definition debug_table_new : DebugAttrTable := mkDebugAttrTable [] [].
Definition MISSING_DEBUG_ATTR_ID : Z := 0.

Definition intern (t : DebugAttrTable) (encoded : list Z) : DebugAttrTable * Z :=
  match assoc_get (da_map t) encoded with
  | Some id => (t, id)
  | None =>
      let id := zlen (da_entries t) + 1 in
      (mkDebugAttrTable ((encoded, id) :: da_map t) (da_entries t ++ [encoded]), id)
  end.

Definition debug_file (t : DebugAttrTable) (strings : StringManager) (name directory : string)
    : DebugAttrTable * StringManager * Z :=
  let b := [DebugTag.as_u8 DebugTag.DIFile] in
  let '(strings, n) := sm_get_or_insert strings name in
  let b := push_varint b n in
  let '(strings, d) := sm_get_or_insert strings directory in
  let b := push_varint b d in
  let '(t, id) := intern t b in (t, strings, id).

Definition compile_unit (t : DebugAttrTable) (file : Z) : DebugAttrTable * Z :=
  intern t (push_varint [DebugTag.as_u8 DebugTag.DICompileUnit] file).

Definition subprogram (t : DebugAttrTable) (strings : StringManager) (file line : Z)
    (name linkage_name : string) (compile_unit scope_line : Z) : DebugAttrTable * StringManager * Z :=
  let b := [DebugTag.as_u8 DebugTag.DISubprogram] in
  let b := push_varint b file in
  let b := push_varint b line in
  let '(strings, n) := sm_get_or_insert strings name in
  let b := push_varint b n in
  let '(strings, l) := sm_get_or_insert strings linkage_name in
  let b := push_varint b l in
  let b := push_varint b compile_unit in
  let b := push_varint b scope_line in
  let '(t, id) := intern t b in (t, strings, id).

Definition lexical_block (t : DebugAttrTable) (parent_scope file line column : Z) : DebugAttrTable * Z :=
  let b := [DebugTag.as_u8 DebugTag.DILexicalBlock] in
  let b := push_varint b parent_scope in
  let b := push_varint b file in
  let b := push_varint b line in
  let b := push_varint b column in
  intern t b.

Definition debug_loc (t : DebugAttrTable) (strings : StringManager) (scope : Z) (filename : string)
    (line column : Z) : DebugAttrTable * StringManager * Z :=
  let b := [DebugTag.as_u8 DebugTag.DILoc] in
  let b := push_varint b scope in
  let '(strings, f) := sm_get_or_insert strings filename in
  let b := push_varint b f in
  let b := push_varint b line in
  let b := push_varint b column in
  let '(t, id) := intern t b in (t, strings, id).

Definition call_site (t : DebugAttrTable) (callee caller : Z) : DebugAttrTable * Z :=
  intern t (push_varint (push_varint [DebugTag.as_u8 DebugTag.CallSite] callee) caller).

Definition ensure_non_empty (t : DebugAttrTable) : DebugAttrTable :=
  match da_entries t with
  | [] => (intern t [DebugTag.as_u8 DebugTag.Unknown]).1
  | _ => t
  end.

(** ** Offset-table sections *)

(** [for (i, offset) in offsets.enumerate() { patch(buf, offsets_pos + i * n, offset) }]. *)
Fixpoint patch_loop (n : nat) (b : list Z) (offsets_pos i : Z) (offsets : list Z) : outcome Error (list Z) :=
  match offsets with
  | [] => Ok b
  | o :: os => b ← patch n b (offsets_pos + i * Z.of_nat n) o; patch_loop n b offsets_pos (i + 1) os
  end.

(** The append loop: each entry's start is the running size, which wraps at
    the offset width. *)
Fixpoint append_entries (n : nat) (running : Z) (entries : list (list Z)) (w : EncodingWriter)
    : list Z * EncodingWriter :=
  match entries with
  | [] => ([], w)
  | e :: es =>
      let '(offsets, w) := append_entries n ((running + zlen e) mod 256 ^ Z.of_nat n) es (write_bytes e w) in
      (running :: offsets, w)
  end.

(** The shared shape of [write_string_section] and [write_constant_section]:
    count, padding, reserved offsets, entries, patched offsets. *)
Definition write_table_section (sid : Section_t) (n : nat) (out : list Z) (entries : list (list Z))
    : outcome Error (list Z) :=
  match entries with
  | [] => Ok out
  | _ =>
      let w := align_to (Z.of_nat n) (write_varint (zlen entries) writer_new) in
      let offsets_pos := tell w in
      let w := Nat.iter (length entries) (write_bytes (le_bytes n 0)) w in
      let '(offsets, w) := append_entries n 0 entries w in
      b ← patch_loop n (buf w) offsets_pos 0 offsets;
      Ok (write_section_header out sid (zlen b) (Z.of_nat n) ++ b)
  end.

Definition write_string_section (out : list Z) (strings : StringManager) : outcome Error (list Z) :=
  write_table_section Section_.String 4 out ((fun e => as_bytes e.1) <$> sm_map strings).

Definition write_constant_section (out : list Z) (constants : ConstantManager) : outcome Error (list Z) :=
  write_table_section Section_.Constant 8 out (cm_entries constants).

(** [&data[start..end]]. *)
Definition slice (data : list Z) (start end_ : Z) : outcome Error (list Z) :=
  if (start <=? end_) && (end_ <=? zlen data)
  then Ok (take (Z.to_nat (end_ - start)) (drop (Z.to_nat start) data))
  else Panic.

(** The entry loop of the parsers: entry [i] ends where entry [i + 1] starts. *)
Fixpoint entry_slices (data : list Z) (offsets : list Z) : outcome Error (list (list Z)) :=
  match offsets with
  | [] => Ok []
  | start :: rest =>
      let end_ := match rest with e :: _ => e | [] => zlen data end in
      x ← slice data start end_;
      xs ← entry_slices data rest;
      Ok (x :: xs)
  end.

(** [Vec::with_capacity] of [count] elements of [size] bytes: capacities over
    [isize::MAX] bytes panic. *)
Definition with_capacity (count size : Z) : RM unit :=
  if ISIZE_MAX <? count * size then panic else mret tt.

Definition lift {A} (o : outcome Error A) : RM A := fun r => (o, r).

Definition parse_table (n : nat) : RM (list (list Z)) :=
  count ← read_varint;
  if count =? 0 then mret []
  else
    _ ← skip_padding (Z.of_nat n);
    _ ← with_capacity count 8;
    offsets ← read_many (Z.to_nat count) (read_le n);
    data ← read_rest;
    lift (entry_slices data offsets).

Definition parse_string_section (payload : option (list Z)) : outcome Error (list string) :=
  match payload with
  | None => Ok []
  | Some data =>
      entries ← run (parse_table 4) data;
      Ok ((fun bs => from_utf8_or bs "<invalid utf8>") <$> (entries : list (list Z)))
  end.

Definition parse_constant_section (payload : option (list Z)) : outcome Error (list (list Z)) :=
  match payload with
  | None => Ok []
  | Some data => run (parse_table 8) data
  end.

(** ** Lemmas: byte strings *)

Lemma of_as_bytes s : of_bytes (as_bytes s) = s.
Proof.
  unfold of_bytes, as_bytes. induction s as [|c s IH]; cbn; [done|].
  rewrite N2Z.id, Ascii.ascii_N_embedding. by f_equal.
Qed.

#[export] Instance as_bytes_inj : Inj (=) (=) as_bytes.
Proof. intros x y H. by rewrite <- (of_as_bytes x), H, of_as_bytes. Qed.

Lemma as_bytes_ok s : Forall byte_ok (as_bytes s).
Proof.
  unfold as_bytes. induction s as [|c s IH]; cbn; constructor; [|done].
  unfold byte_ok. pose proof (Ascii.N_ascii_bounded c). lia.
Qed.

(** ** Lemmas: managers *)

Lemma assoc_get_app {K} `{EqDecision K} (m m' : list (K * Z)) k :
  assoc_get (m ++ m') k = match assoc_get m k with Some v => Some v | None => assoc_get m' k end.
Proof.
  unfold assoc_get. induction m as [|[k' v] m IH]; cbn; [done|]. by destruct (bool_decide (k' = k)).
Qed.

Lemma assoc_get_elem {K} `{EqDecision K} (m : list (K * Z)) k v : assoc_get m k = Some v -> (k, v) ∈ m.
Proof.
  unfold assoc_get. induction m as [|[k' v'] m IH]; cbn; [done|].
  case_bool_decide; cbn; [intros [= <-]; subst; left|]. intros. right. auto.
Qed.

(** The invariant of a string manager: the [i]-th entry has index [i] and no
    string occurs twice. *)
Definition sm_strings (m : StringManager) : list string := fst <$> sm_map m.
Definition sm_wf (m : StringManager) : Prop :=
  NoDup (sm_strings m) /\ forall i s v, sm_map m !! i = Some (s, v) -> v = Z.of_nat i.

Lemma sm_new_wf : sm_wf string_manager_new.
Proof. split; [constructor|]. intros i s v H. cbn in H. by rewrite lookup_nil in H. Qed.

Lemma sm_get_Some m s i : sm_wf m -> assoc_get (sm_map m) s = Some i ->
  0 <= i /\ sm_strings m !! Z.to_nat i = Some s.
Proof.
  intros [_ Hi] H. apply assoc_get_elem, list_elem_of_lookup in H as [k Hk].
  pose proof (Hi _ _ _ Hk) as ->. split; [lia|]. rewrite Nat2Z.id.
  unfold sm_strings. by rewrite list_lookup_fmap, Hk.
Qed.

Lemma assoc_get_None {K} `{EqDecision K} (m : list (K * Z)) k : assoc_get m k = None <-> k ∉ m.*1.
Proof.
  unfold assoc_get. induction m as [|[k' v] m IH]; cbn; [split; [intros _; apply not_elem_of_nil|done]|].
  rewrite not_elem_of_cons. case_bool_decide as E; cbn.
  - split; [done|]. intros [? _]. congruence.
  - rewrite IH. split; [intros; split; [congruence|done]|tauto].
Qed.

Lemma sm_insert_spec m s m' i : sm_wf m -> sm_get_or_insert m s = (m', i) ->
  sm_wf m' /\ sm_strings m `prefix_of` sm_strings m' /\ 0 <= i /\ sm_strings m' !! Z.to_nat i = Some s /\
  (s ∈ sm_strings m -> m' = m).
Proof.
  intros Hw H. pose proof Hw as [Hn Hidx]. unfold sm_get_or_insert in H.
  destruct (assoc_get (sm_map m) s) as [j|] eqn:E.
  - injection H as <- <-. destruct (sm_get_Some _ _ _ Hw E). by split_and!.
  - injection H as <- <-. apply assoc_get_None in E.
    assert (Hs : sm_strings (mkStringManager (sm_map m ++ [(s, zlen (sm_map m))])) = sm_strings m ++ [s])
      by (unfold sm_strings; cbn; by rewrite fmap_app).
    rewrite Hs. split; [split|split_and!].
    + rewrite Hs. apply NoDup_app. split_and!; [done| |apply NoDup_singleton].
      intros x Hx ->%list_elem_of_singleton. done.
    + cbn. intros k t v Hk. apply lookup_app_Some in Hk as [Hk|[Hk1 Hk2]]; [eauto|].
      apply list_lookup_singleton_Some in Hk2 as [Ek [= <- <-]]. unfold zlen. lia.
    + by apply prefix_app_r.
    + apply zlen_nonneg.
    + rewrite to_nat_zlen. replace (length (sm_map m)) with (length (sm_strings m))
        by (unfold sm_strings; by rewrite length_fmap).
      by rewrite list_lookup_middle.
    + done.
Qed.

Lemma sm_wf_insert m s : sm_wf m -> sm_wf (sm_get_or_insert m s).1.
Proof. intros Hw. eapply sm_insert_spec; [exact Hw|apply surjective_pairing]. Qed.

(** The invariant of the debug table: ids are one-based positions and no
    encoding occurs twice. *)
Definition da_wf (t : DebugAttrTable) : Prop :=
  NoDup (da_entries t) /\
  forall e id, assoc_get (da_map t) e = Some id <-> 1 <= id /\ da_entries t !! Z.to_nat (id - 1) = Some e.

Lemma da_new_wf : da_wf debug_table_new.
Proof. split; [constructor|]. intros e id. cbn. rewrite lookup_nil. split; [done|intros [_ [=]]]. Qed.

Lemma intern_spec t e t' id : da_wf t -> intern t e = (t', id) ->
  da_wf t' /\ da_entries t `prefix_of` da_entries t' /\ 1 <= id /\
  da_entries t' !! Z.to_nat (id - 1) = Some e.
Proof.
  intros Hw H. pose proof Hw as [Hn Hm]. unfold intern in H.
  destruct (assoc_get (da_map t) e) as [j|] eqn:E.
  - injection H as <- <-. apply Hm in E as [? ?]. by split_and!.
  - injection H as <- <-. pose proof (zlen_nonneg (da_entries t)).
    assert (e ∉ da_entries t) as Hni.
    { intros Hin. apply list_elem_of_lookup in Hin as [k Hk].
      assert (assoc_get (da_map t) e = Some (Z.of_nat k + 1)) as Hk'; [|congruence].
      apply Hm. split; [lia|]. by replace (Z.to_nat (Z.of_nat k + 1 - 1)) with k by lia. }
    split; [split|split_and!]; cbn [da_entries da_map].
    + apply NoDup_app. split_and!; [done| |apply NoDup_singleton].
      intros x Hx ->%list_elem_of_singleton. done.
    + intros e' i. unfold assoc_get; cbn. case_bool_decide as Ee; cbn.
      * subst e'. split.
        -- intros [= <-]. split; [lia|]. replace (Z.to_nat _) with (length (da_entries t)) by (unfold zlen; lia).
           by rewrite list_lookup_middle.
        -- intros [Hi Hl]. apply lookup_app_Some in Hl as [Hl|[Hge Hl]].
           { apply list_elem_of_lookup_2 in Hl. done. }
           apply list_lookup_singleton_Some in Hl as [Ek _]. f_equal. unfold zlen. lia.
      * fold (assoc_get (da_map t) e'). rewrite Hm. split; intros [Hi Hl]; (split; [done|]).
        -- by apply lookup_app_l_Some.
        -- apply lookup_app_Some in Hl as [Hl|[Hge Hl]]; [done|].
           apply list_lookup_singleton_Some in Hl as [Ek ?]. congruence.
    + by apply prefix_app_r.
    + lia.
    + replace (Z.to_nat _) with (length (da_entries t)) by (unfold zlen; lia). by rewrite list_lookup_middle.
Qed.

(** ** Lemmas: offset tables *)

(** The start of each entry when nothing wraps. *)
Fixpoint offsets_from (running : Z) (entries : list (list Z)) : list Z :=
  match entries with
  | [] => []
  | e :: es => running :: offsets_from (running + zlen e) es
  end.

Lemma offsets_from_length run es : length (offsets_from run es) = length es.
Proof. revert run. induction es; intros; cbn; auto. Qed.

Lemma offsets_from_bounds run es : 0 <= run ->
  Forall (fun o => 0 <= o <= run + zlen (concat es)) (offsets_from run es).
Proof.
  revert run. induction es as [|e es IH]; intros run Hr; cbn; [constructor|].
  pose proof (zlen_nonneg e). pose proof (zlen_nonneg (concat es)).
  constructor; rewrite zlen_app; [lia|].
  eapply Forall_impl; [apply IH; lia|]. cbn. intros; lia.
Qed.

Lemma append_entries_spec n run es w : 0 <= run -> run + zlen (concat es) < 256 ^ Z.of_nat n ->
  append_entries n run es w = (offsets_from run es, write_bytes (concat es) w).
Proof.
  revert run w. induction es as [|e es IH]; intros run w Hr Hb; cbn.
  - unfold write_bytes. rewrite app_nil_r. by destruct w.
  - cbn in Hb. rewrite zlen_app in Hb. pose proof (zlen_nonneg e). pose proof (zlen_nonneg (concat es)).
    rewrite Z.mod_small by lia. rewrite IH by lia. unfold write_bytes; cbn. by rewrite <- app_assoc.
Qed.

Lemma reserve_spec n k w :
  Nat.iter k (write_bytes (le_bytes n 0)) w = write_bytes (concat (replicate k (le_bytes n 0))) w.
Proof.
  assert (Hsnoc : forall j, concat (replicate j (le_bytes n 0)) ++ le_bytes n 0 =
    le_bytes n 0 ++ concat (replicate j (le_bytes n 0))).
  { induction j as [|j IH]; cbn [replicate concat]; [by rewrite app_nil_r|]. by rewrite <- app_assoc, IH. }
  induction k as [|k IH].
  - unfold write_bytes. cbn. rewrite app_nil_r. by destruct w.
  - change (Nat.iter (S k) ?f w) with (f (Nat.iter k f w)). rewrite IH. unfold write_bytes. cbn [buf required_alignment].
    rewrite <- app_assoc, Hsnoc. done.
Qed.

Lemma patch_middle n pre old post v : length old = n ->
  patch n (pre ++ old ++ post) (zlen pre) v = Ok (pre ++ le_bytes n v ++ post).
Proof.
  intros Hl. unfold patch. pose proof (zlen_nonneg pre). pose proof (zlen_nonneg post).
  rewrite !zlen_app. destruct (Z.ltb_spec (zlen pre) 0); [lia|].
  destruct (Z.ltb_spec (zlen pre + (zlen old + zlen post)) (zlen pre + Z.of_nat n)); [unfold zlen in *; lia|].
  cbn [orb]. rewrite to_nat_zlen, take_app_length. f_equal. f_equal. f_equal.
  rewrite app_assoc. rewrite drop_app_length'; [done|]. rewrite length_app. lia.
Qed.

Lemma patch_loop_spec n pre done_ z post offs i : length z = n -> zlen done_ = i * Z.of_nat n ->
  patch_loop n (pre ++ done_ ++ concat (replicate (length offs) z) ++ post) (zlen pre) i offs =
  Ok (pre ++ done_ ++ concat (le_bytes n <$> offs) ++ post).
Proof.
  intros Hz. revert done_ i. induction offs as [|o offs IH]; intros done_ i Hd; cbn; [done|].
  replace (zlen pre + i * Z.of_nat n) with (zlen (pre ++ done_)) by (rewrite zlen_app; lia).
  rewrite (app_assoc pre), <- (app_assoc z), patch_middle by done. cbn.
  specialize (IH (done_ ++ le_bytes n o) (i + 1)).
  rewrite <- !app_assoc in *. rewrite IH; [done|]. rewrite zlen_app, zlen_le_bytes. lia.
Qed.

(** The payload of an offset-table section. *)
Definition table_payload (n : nat) (entries : list (list Z)) : list Z :=
  let head := varint (zlen entries) in
  head ++ pad_bytes (Z.of_nat n) (zlen head) ++
    concat (le_bytes n <$> offsets_from 0 entries) ++ concat entries.

Lemma write_table_section_spec sid n out es : es <> [] -> (2 <= n)%nat ->
  zlen (concat es) < 256 ^ Z.of_nat n ->
  write_table_section sid n out es =
  Ok (write_section_header out sid (zlen (table_payload n es)) (Z.of_nat n) ++ table_payload n es).
Proof.
  intros Hne Hn Hb. unfold write_table_section. destruct es as [|e es]; [done|].
  set (es' := e :: es) in *. rewrite reserve_spec, append_entries_spec by lia.
  unfold align_to. destruct (Z.ltb_spec (Z.of_nat n) 2); [lia|].
  unfold tell, write_varint, write_bytes, writer_new. cbn [buf required_alignment app].
  rewrite <- !app_assoc.
  replace (length es') with (length (offsets_from 0 es')) by apply offsets_from_length.
  set (head := varint (zlen es')).
  pose proof (patch_loop_spec n (head ++ pad_bytes (Z.of_nat n) (zlen head)) [] (le_bytes n 0)
                (concat es') (offsets_from 0 es') 0 (le_bytes_length n 0) ltac:(done)) as Hp.
  cbn [app] in Hp. rewrite <- !app_assoc in Hp. rewrite Hp. done.
Qed.

Lemma slice_middle pre x post : slice (pre ++ x ++ post) (zlen pre) (zlen pre + zlen x) = Ok x.
Proof.
  unfold slice. rewrite !zlen_app. pose proof (zlen_nonneg x). pose proof (zlen_nonneg post).
  rewrite (proj2 (Z.leb_le _ _)) by lia. rewrite (proj2 (Z.leb_le _ _)) by lia. cbn [andb].
  replace (zlen pre + zlen x - zlen pre) with (zlen x) by lia.
  by rewrite !to_nat_zlen, drop_app_length, take_app_length.
Qed.

Lemma entry_slices_spec pre es :
  entry_slices (pre ++ concat es) (offsets_from (zlen pre) es) = Ok es.
Proof.
  revert pre. induction es as [|e es IH]; intros pre; cbn; [done|].
  assert (match offsets_from (zlen pre + zlen e) es with e0 :: _ => e0 | [] => zlen (pre ++ e ++ concat es) end
          = zlen pre + zlen e) as ->.
  { destruct es; cbn; [|done]. rewrite app_nil_r, zlen_app. lia. }
  rewrite slice_middle. cbn. specialize (IH (pre ++ e)). rewrite zlen_app, <- app_assoc in IH.
  by rewrite IH.
Qed.

Lemma parse_table_payload n es : es <> [] -> (2 <= n)%nat -> zlen (concat es) < 256 ^ Z.of_nat n ->
  zlen es * 8 <= ISIZE_MAX -> fits (table_payload n es) ->
  run (parse_table n) (table_payload n es) = Ok es.
Proof.
  intros Hne Hn Hb Hcap Hf. unfold run, reader_new, parse_table.
  change (mkReader (table_payload n es) 0) with (at_ [] (table_payload n es)).
  assert (Hcount : 0 < zlen es) by (destruct es; [done|]; rewrite zlen_cons; pose proof (zlen_nonneg es); lia).
  unfold table_payload in *. set (head := varint (zlen es)) in *.
  erewrite RM_bind_Ok; [|apply reads_varint; [unfold_int; lia|exact Hf]].
  destruct (Z.eqb_spec (zlen es) 0); [lia|].
  erewrite RM_bind_Ok; [|apply reads_skip_padding; [lia|exact Hf]].
  unfold with_capacity. destruct (Z.ltb_spec ISIZE_MAX (zlen es * 8)); [lia|].
  erewrite RM_bind_Ok by reflexivity. rewrite to_nat_zlen, <- (offsets_from_length 0 es).
  set (pad := pad_bytes _ _) in *. set (offs := offsets_from 0 es) in *.
  erewrite RM_bind_Ok.
  2: { apply (reads_many (read_le n) (le_bytes n)); [|by rewrite <- !app_assoc].
       eapply Forall_impl; [apply (offsets_from_bounds 0 es); lia|]. cbn. intros o Ho.
       pose proof (reads_le n o) as H0. rewrite Z.mod_small in H0 by lia. exact H0. }
  erewrite RM_bind_Ok; [|apply read_rest_spec; by rewrite <- !app_assoc].
  unfold lift. pose proof (entry_slices_spec [] es) as He. cbn [app] in He.
  exact He.
Qed.

(** ** Properties *)

(** the string table round-trips.  Interning keeps every string at one
    stable index, and the string section written for a manager parses back to
    exactly the interned strings in index order. *)
Lemma string_section_roundtrip (m : StringManager) (out bytes : list Z)
    (Hne : sm_map m <> []) (Hutf8 : Forall (fun s => utf8_valid (as_bytes s) = true) (sm_strings m))
    (Hsize : zlen (concat (as_bytes <$> sm_strings m)) < 2 ^ 32)
    (Hcap : zlen (sm_map m) * 8 <= ISIZE_MAX)
    (Hfits : fits (table_payload 4 (as_bytes <$> sm_strings m)))
    (Hw : write_string_section out m = Ok bytes) :
  exists payload,
    bytes = write_section_header out Section_.String (zlen payload) 4 ++ payload /\
    parse_string_section (Some payload) = Ok (sm_strings m).
Proof.
  assert (He : (fun e => as_bytes e.1) <$> sm_map m = as_bytes <$> sm_strings m)
    by (unfold sm_strings; by rewrite <- list_fmap_compose).
  assert (Hne' : as_bytes <$> sm_strings m <> []).
  { unfold sm_strings. by destruct (sm_map m). }
  exists (table_payload 4 (as_bytes <$> sm_strings m)). split.
  - unfold write_string_section in Hw. rewrite He, write_table_section_spec in Hw; try done; try lia.
    by injection Hw as <-.
  - unfold parse_string_section. rewrite parse_table_payload; try done; try lia.
    2: { unfold zlen in *. rewrite length_fmap. unfold sm_strings. by rewrite length_fmap. }
    cbn. f_equal. rewrite <- list_fmap_compose. rewrite <- (list_fmap_id (sm_strings m)) at 2.
    apply list_fmap_ext. intros i s Hs. cbn. unfold from_utf8_or.
    rewrite Forall_lookup in Hutf8. by rewrite (Hutf8 _ _ Hs), of_as_bytes.
Qed.

Definition example_strings : StringManager :=
  (sm_get_or_insert (sm_get_or_insert (sm_get_or_insert string_manager_new "kernel").1 "").1 "kernel").1.

Lemma string_section_roundtrip_witness :
  exists payload,
    [129; 18; 4; 0xCB; 2; 0xCB; 0xCB; 0xCB; 0; 0; 0; 0; 6; 0; 0; 0; 107; 101; 114; 110; 101; 108] =
      write_section_header [] Section_.String (zlen payload) 4 ++ payload /\
    parse_string_section (Some payload) = Ok ["kernel"%string; ""%string].
Proof.
  apply (string_section_roundtrip example_strings [] _).
  - discriminate.
  - repeat constructor.
  - vm_compute. reflexivity.
  - vm_compute. discriminate.
  - vm_compute. discriminate.
  - vm_compute. reflexivity.
Defined.

(** The constant pool round-trips: the section written for a manager
    parses back to exactly its entries, in index order. *)
Lemma constant_section_roundtrip (m : ConstantManager) (out bytes : list Z)
    (Hne : cm_entries m <> []) (Hsize : zlen (concat (cm_entries m)) < 2 ^ 64)
    (Hcap : zlen (cm_entries m) * 8 <= ISIZE_MAX) (Hfits : fits (table_payload 8 (cm_entries m)))
    (Hw : write_constant_section out m = Ok bytes) :
  exists payload,
    bytes = write_section_header out Section_.Constant (zlen payload) 8 ++ payload /\
    parse_constant_section (Some payload) = Ok (cm_entries m).
Proof.
  exists (table_payload 8 (cm_entries m)). split.
  - unfold write_constant_section in Hw. rewrite write_table_section_spec in Hw; try done; try lia.
    by injection Hw as <-.
  - unfold parse_constant_section. apply parse_table_payload; try done; lia.
Qed.

Lemma constant_section_roundtrip_witness :
  exists payload,
    [132; 25; 8; 0xCB; 0xCB; 0xCB; 0xCB; 0xCB; 2; 0xCB; 0xCB; 0xCB; 0xCB; 0xCB; 0xCB; 0xCB;
     0; 0; 0; 0; 0; 0; 0; 0; 1; 0; 0; 0; 0; 0; 0; 0; 7] =
      write_section_header [] Section_.Constant (zlen payload) 8 ++ payload /\
    parse_constant_section (Some payload) = Ok [[7]; []].
Proof.
  apply (constant_section_roundtrip (mkConstantManager [[7]; []]) []);
    [discriminate | vm_compute; reflexivity | vm_compute; discriminate
    | vm_compute; discriminate | vm_compute; reflexivity].
Defined.

(** interning is stable and injective.  [get_or_insert] keeps every
    index already handed out, returns the position of its argument, and
    changes nothing when the string is known; the debug table's [intern]
    does the same with one-based ids, so id zero stays reserved. *)
Lemma interning_stable (m m' : StringManager) (t t' : DebugAttrTable) (s : string) (e : list Z) (i id : Z)
    (Hm : sm_wf m) (Ht : da_wf t) (Hs : sm_get_or_insert m s = (m', i)) (He : intern t e = (t', id)) :
  (sm_wf m' /\ sm_strings m `prefix_of` sm_strings m' /\ sm_strings m' !! Z.to_nat i = Some s /\
   (s ∈ sm_strings m -> m' = m) /\ sm_get_or_insert m' s = (m', i)) /\
  (da_wf t' /\ da_entries t `prefix_of` da_entries t' /\ MISSING_DEBUG_ATTR_ID < id /\
   da_entries t' !! Z.to_nat (id - 1) = Some e /\ intern t' e = (t', id)).
Proof.
  destruct (sm_insert_spec _ _ _ _ Hm Hs) as (W & P & I & L & U).
  destruct (intern_spec _ _ _ _ Ht He) as (W' & P' & I' & L').
  split; split_and!; try done.
  - destruct (sm_get_or_insert m' s) as [m'' j] eqn:E.
    destruct (sm_insert_spec _ _ _ _ W E) as (_ & _ & J & L2 & U2).
    rewrite (U2 (list_elem_of_lookup_2 _ _ _ L)) in *. f_equal.
    pose proof (NoDup_lookup _ _ _ _ (proj1 W) L L2). lia.
  - unfold MISSING_DEBUG_ATTR_ID. lia.
  - unfold intern. by rewrite (proj2 (proj2 W' e id) (conj I' L')).
Qed.

Lemma interning_stable_witness :
  sm_get_or_insert example_strings "kernel" = (example_strings, 0) /\
  intern (ensure_non_empty debug_table_new) [0] = (ensure_non_empty debug_table_new, 1).
Proof.
  destruct (interning_stable example_strings example_strings debug_table_new
              (ensure_non_empty debug_table_new) "kernel" [0] 0 1) as [(_ & _ & _ & _ & H1) (_ & _ & _ & _ & H2)].
  - unfold example_strings. auto using sm_wf_insert, sm_new_wf.
  - apply da_new_wf.
  - vm_compute. reflexivity.
  - vm_compute. reflexivity.
  - split; [exact H1 | exact H2].
Defined.
