(* ===== verification/JitCache.v ===== *)
(** * The persistent cubin cache: keys and entries

    cutile-compiler/src/jit_cache.rs: the content-addressed key of a back-end
    request, and the codec of a stored entry, which repeats the request beside
    the cubin so that a hit is validated field by field.  SHA-256 is the [sha2]
    crate's: a parameter of which only the shape of a digest is assumed, never
    injectivity; the theorems say what holds or exhibit a collision. *)

From S2P Require Import Prelude Bounds Enums Encoding Text Tables Options.
Local Open Scope string_scope.
Local Open Scope list_scope.
Local Open Scope Z_scope.

(** ** Byte slices *)

(** [&bytes[from..to]]. *)
Definition slice {A} (from to : nat) (l : list A) : list A := take (to - from) (drop from l).

(** ** Keys *)

Definition DOMAIN : list Z := as_bytes "cutile-jit-cubin-v1" ++ [0].

Definition put_field (h bytes : list Z) : list Z := h ++ le_bytes 8 (zlen bytes) ++ bytes.

Definition HEX : string := "0123456789abcdef".

Definition hex_digit (i : Z) : Ascii.ascii := default Ascii.zero (String.get (Z.to_nat i) HEX).

Definition hex (bytes : list Z) : string :=
  foldr (fun b out => String (hex_digit (Z.shiftr b 4)) (String (hex_digit (Z.land b 15)) out)) EmptyString bytes.

Record Request := mkRequest {
  q_bc : list Z;
  q_bc_version : BytecodeVersion;
  q_gpu_name : string;
  q_opts : TileirasOptions;
  q_tileiras_fp : string;
}.

(** What [l2_key] feeds the hash, in order. *)
Definition l2_preimage (q : Request) : list Z :=
  let h := DOMAIN in
  let h := put_field h [major (q_bc_version q); minor (q_bc_version q)] in
  let h := put_field h (le_bytes 2 (tag (q_bc_version q))) in
  let h := put_field h (q_bc q) in
  let h := put_field h (as_bytes (q_gpu_name q)) in
  let h := put_field h [t_opt_level (q_opts q); flags_byte (q_opts q)] in
  put_field h (as_bytes (q_tileiras_fp q)).

(** ** Entries *)

Definition ENTRY_MAGIC : list Z := as_bytes "CUTILECUBIN" ++ [0].
Definition ENTRY_FORMAT_VERSION : Z := 1.
Definition ENTRY_HEADER_LEN : Z := 96.

Record EntryParams := mkEntryParams {
  p_bc_sha256 : list Z;
  p_gpu_name : string;
  p_opt_level : Z;
  p_flags : Z;
  p_tileiras_fp : string;
}.

(** [u16::try_from(usize)]. *)
Definition u16_try_from (n : Z) : option Z := if n <? 2 ^ 16 then Some n else None.

(** [usize::checked_add]. *)
Definition usize_checked_add (a b : Z) : option Z := if a + b <=? USIZE_MAX then Some (a + b) else None.

Section Hash.
Context (sha256 : list Z -> list Z).

Definition l2_key (bc : list Z) (bc_version : BytecodeVersion) (gpu_name : string)
    (opts : TileirasOptions) (tileiras_fp : string) : string :=
  hex (sha256 (l2_preimage (mkRequest bc bc_version gpu_name opts tileiras_fp))).

Definition encode_entry (params : EntryParams) (cubin : list Z) : option (list Z) :=
  gpu_len ← u16_try_from (zlen (as_bytes (p_gpu_name params)));
  fp_len ← u16_try_from (zlen (as_bytes (p_tileiras_fp params)));
  let out := ENTRY_MAGIC in
  let out := out ++ le_bytes 2 ENTRY_FORMAT_VERSION in
  let out := out ++ [0; 0] in
  let out := out ++ sha256 cubin in
  let out := out ++ p_bc_sha256 params in
  let out := out ++ le_bytes 2 gpu_len in
  let out := out ++ le_bytes 2 fp_len in
  let out := out ++ [p_opt_level params] in
  let out := out ++ [p_flags params] in
  let out := out ++ [0; 0] in
  let out := out ++ le_bytes 8 (zlen cubin) in
  let out := out ++ as_bytes (p_gpu_name params) in
  let out := out ++ as_bytes (p_tileiras_fp params) in
  Some (out ++ cubin).

Definition decode_entry (bytes : list Z) (params : EntryParams) : option (list Z) :=
  if (zlen bytes <? ENTRY_HEADER_LEN)
     || negb (bool_decide (slice 0 12 bytes = ENTRY_MAGIC))
     || negb (from_le_bytes (slice 12 14 bytes) =? ENTRY_FORMAT_VERSION)
  then None
  else
    let payload_sha256 := slice 16 48 bytes in
    let bc_sha256 := slice 48 80 bytes in
    let gpu_len := from_le_bytes (slice 80 82 bytes) in
    let fp_len := from_le_bytes (slice 82 84 bytes) in
    let opt_level := nth 84 bytes 0 in
    let flags := nth 85 bytes 0 in
    let payload_len := from_le_bytes (slice 88 96 bytes) in
    expected_total ← usize_checked_add ENTRY_HEADER_LEN gpu_len;
    expected_total ← usize_checked_add expected_total fp_len;
    expected_total ← usize_checked_add expected_total payload_len;
    if negb (zlen bytes =? expected_total) then None
    else
      let header := Z.to_nat ENTRY_HEADER_LEN in
      let gpu_end := (header + Z.to_nat gpu_len)%nat in
      let fp_end := (gpu_end + Z.to_nat fp_len)%nat in
      let gpu_name := slice header gpu_end bytes in
      let fp := slice gpu_end fp_end bytes in
      let payload := drop fp_end bytes in
      if negb (bool_decide (bc_sha256 = p_bc_sha256 params))
         || negb (bool_decide (gpu_name = as_bytes (p_gpu_name params)))
         || negb (opt_level =? p_opt_level params)
         || negb (flags =? p_flags params)
         || negb (bool_decide (fp = as_bytes (p_tileiras_fp params)))
         || negb (bool_decide (sha256 payload = payload_sha256))
      then None
      else Some payload.

End Hash.

(** ** Lemmas: slices *)

Lemma slice_here {A} (x l : list A) n : length x = n -> slice 0 n (x ++ l) = x.
Proof. intros <-. unfold slice. by rewrite Nat.sub_0_r, drop_0, take_app_length. Qed.

Lemma slice_skip {A} (x l : list A) a b n : length x = n -> (n <= a)%nat ->
  slice a b (x ++ l) = slice (a - n) (b - n) l.
Proof.
  intros <- Ha. unfold slice. rewrite drop_app_ge by done. f_equal. lia.
Qed.

Lemma nth_skip {A} (x l : list A) d i n : length x = n -> (n <= i)%nat -> nth i (x ++ l) d = nth (i - n) l d.
Proof. intros <- Hi. by rewrite app_nth2. Qed.

Lemma drop_skip {A} (x l : list A) i n : length x = n -> (n <= i)%nat -> drop i (x ++ l) = drop (i - n) l.
Proof. intros <- Hi. by rewrite drop_app_ge. Qed.

Lemma split_prefix {A} (l : list A) n : (n <= length l)%nat ->
  exists a b, l = a ++ b /\ length a = n.
Proof. intros H. exists (take n l), (drop n l). rewrite take_drop, length_take. split; [done|lia]. Qed.

Lemma app_eq_length {A} (a a' b b' : list A) : length a = length a' -> a ++ b = a' ++ b' -> a = a' /\ b = b'.
Proof. intros Hl H. by apply app_inj_1. Qed.

Lemma usize_checked_add_Some a b c : usize_checked_add a b = Some c <-> c = a + b /\ a + b <= USIZE_MAX.
Proof. unfold usize_checked_add. case_match; naive_solver lia. Qed.

Lemma slice_split {A} (l : list A) a b : l = slice 0 a l ++ slice a (a + b) l ++ drop (a + b) l.
Proof.
  unfold slice. rewrite Nat.sub_0_r, drop_0, Nat.add_comm, Nat.add_sub, Nat.add_comm, <- drop_drop.
  by rewrite !take_drop.
Qed.

Lemma slice_length {A} (l : list A) a b : (a + b <= length l)%nat -> length (slice a (a + b) l) = b.
Proof. intros H. unfold slice. rewrite length_take, length_drop. lia. Qed.

(** ** Lemmas: words and hexadecimal *)

Lemma le_bytes_from bs : Forall byte_ok bs -> le_bytes (length bs) (from_le_bytes bs) = bs.
Proof.
  induction 1 as [|b bs Hb _ IH]; [done|]. cbn. fold (from_le_bytes bs). unfold byte_ok in Hb.
  rewrite (Z.mul_comm 256). rewrite Z.mod_add, Z.mod_small by lia.
  rewrite Z.div_add, Z.div_small, Z.add_0_l by lia. by rewrite IH.
Qed.

Lemma from_le_bytes_nonneg bs : Forall byte_ok bs -> 0 <= from_le_bytes bs.
Proof. induction 1 as [|b bs Hb _ IH]; cbn; [lia|]. fold (from_le_bytes bs). unfold byte_ok in Hb. lia. Qed.

Lemma from_le_bytes_bound bs : Forall byte_ok bs -> from_le_bytes bs < 256 ^ Z.of_nat (length bs).
Proof.
  intros H. rewrite <- (le_bytes_from bs H) at 1. rewrite from_le_bytes_le. apply Z.mod_pos_bound. lia.
Qed.

Lemma le_bytes_from_n n bs v : Forall byte_ok bs -> length bs = n -> from_le_bytes bs = v -> bs = le_bytes n v.
Proof. intros Hok <- <-. by rewrite le_bytes_from. Qed.

Lemma from_le_bytes_fits n v : 0 <= v < 256 ^ Z.of_nat n -> from_le_bytes (le_bytes n v) = v.
Proof. intros H. by rewrite from_le_bytes_le, Z.mod_small. Qed.

Lemma le_bytes_inj n v w : 0 <= v < 256 ^ Z.of_nat n -> 0 <= w < 256 ^ Z.of_nat n ->
  le_bytes n v = le_bytes n w -> v = w.
Proof. intros Hv Hw H. by rewrite <- (from_le_bytes_fits n v), H, from_le_bytes_fits. Qed.

Lemma hex_digit_inj i j : 0 <= i < 16 -> 0 <= j < 16 -> hex_digit i = hex_digit j -> i = j.
Proof.
  intros Hi Hj H. rewrite <- (Z2Nat.id i), <- (Z2Nat.id j) by lia. f_equal.
  assert (Hi' : (Z.to_nat i < 16)%nat) by lia. assert (Hj' : (Z.to_nat j < 16)%nat) by lia.
  unfold hex_digit in H. revert H. generalize dependent (Z.to_nat j). generalize dependent (Z.to_nat i).
  intros a Ha b Hb. do 16 (destruct a as [|a]; [do 16 (destruct b as [|b]; [by cbn|]); lia|]). lia.
Qed.

Lemma hex_inj x y : Forall byte_ok x -> Forall byte_ok y -> hex x = hex y -> x = y.
Proof.
  intros Hx. revert y. induction Hx as [|b x Hb _ IH]; intros [|c y] Hy H; try done.
  apply Forall_cons_1 in Hy as [Hc Hy]. unfold byte_ok in *. cbn in H. injection H as H1 H2 H3.
  rewrite !Z.shiftr_div_pow2 in H1 by lia.
  change 15 with (Z.ones 4) in H2. rewrite !Z.land_ones in H2 by lia.
  apply hex_digit_inj in H1; [|change (2 ^ 4) with 16; Z.to_euclidean_division_equations; lia..].
  apply hex_digit_inj in H2; [|apply Z.mod_pos_bound; lia..].
  f_equal; [|by apply IH]. rewrite (Z.div_mod b (2 ^ 4)), (Z.div_mod c (2 ^ 4)) by lia. congruence.
Qed.

Lemma hex_length x : String.length (hex x) = (2 * length x)%nat.
Proof.
  induction x as [|b x IH]; [done|]. unfold hex. cbn [foldr String.length]. fold (hex x). rewrite IH. cbn. lia.
Qed.

(** ** Lemmas: fields *)

Definition field (bytes : list Z) : list Z := le_bytes 8 (zlen bytes) ++ bytes.

Lemma field_inj x y r r' : zlen x < 2 ^ 64 -> zlen y < 2 ^ 64 ->
  field x ++ r = field y ++ r' -> x = y /\ r = r'.
Proof.
  intros Hx Hy H. unfold field in H. rewrite <- !app_assoc in H.
  pose proof (zlen_nonneg x). pose proof (zlen_nonneg y).
  apply app_eq_length in H as [Hl H]; [|by rewrite !le_bytes_length].
  apply le_bytes_inj in Hl; [|cbn; lia..].
  apply app_eq_length in H; [done|]. unfold zlen in Hl. lia.
Qed.

Lemma l2_preimage_fields q : l2_preimage q =
  DOMAIN ++ field [major (q_bc_version q); minor (q_bc_version q)] ++ field (le_bytes 2 (tag (q_bc_version q)))
    ++ field (q_bc q) ++ field (as_bytes (q_gpu_name q))
    ++ field [t_opt_level (q_opts q); flags_byte (q_opts q)] ++ field (as_bytes (q_tileiras_fp q)).
Proof. unfold l2_preimage, put_field, field. by rewrite <- !app_assoc. Qed.

(** The ranges the Rust types give a request: lengths are [usize], the version's
    tag is a [u16]. *)
Definition request_ok (q : Request) : Prop :=
  zlen (q_bc q) < 2 ^ 64 /\ zlen (as_bytes (q_gpu_name q)) < 2 ^ 64 /\
  zlen (as_bytes (q_tileiras_fp q)) < 2 ^ 64 /\ 0 <= tag (q_bc_version q) < 2 ^ 16.

#[export] Instance request_ok_dec q : Decision (request_ok q).
Proof. unfold request_ok. apply _. Defined.

Lemma l2_preimage_inj q q' : request_ok q -> request_ok q' -> l2_preimage q = l2_preimage q' -> q = q'.
Proof.
  intros (Hb & Hg & Hf & Ht) (Hb' & Hg' & Hf' & Ht'). rewrite !l2_preimage_fields. intros H.
  apply app_inv_head in H. rewrite <- (app_nil_r (field (as_bytes (q_tileiras_fp q)))) in H.
  rewrite <- (app_nil_r (field (as_bytes (q_tileiras_fp q')))) in H.
  apply field_inj in H as [Hv H]; [|done..].
  apply field_inj in H as [Htag H]; [|by rewrite zlen_le_bytes..].
  apply field_inj in H as [Hbc H]; [|done..].
  apply field_inj in H as [Hgpu H]; [|done..].
  apply field_inj in H as [Hopt H]; [|done..].
  apply field_inj in H as [Hfp _]; [|done..].
  apply le_bytes_inj in Htag; [|cbn; lia..]. apply as_bytes_inj in Hgpu, Hfp.
  injection Hopt as Hlevel Hflags. apply flags_byte_inj in Hflags.
  injection Hv as Hmaj Hmin. destruct q as [? [] ? [] ?], q' as [? [] ? [] ?]; by simplify_eq/=.
Qed.

(** ** Lemmas: the layout of an entry *)

(** The bytes of an entry for [params] around [cubin]; [r1] and [r2] are the
    reserved bytes, which are written as zeroes and never read. *)
Definition entry_layout (sha256 : list Z -> list Z) (params : EntryParams) (cubin r1 r2 : list Z) : list Z :=
  ENTRY_MAGIC ++ le_bytes 2 ENTRY_FORMAT_VERSION ++ r1 ++ sha256 cubin ++ p_bc_sha256 params
    ++ le_bytes 2 (zlen (as_bytes (p_gpu_name params))) ++ le_bytes 2 (zlen (as_bytes (p_tileiras_fp params)))
    ++ [p_opt_level params] ++ [p_flags params] ++ r2 ++ le_bytes 8 (zlen cubin)
    ++ as_bytes (p_gpu_name params) ++ as_bytes (p_tileiras_fp params) ++ cubin.

(** Names short enough for their [u16] length fields. *)
Definition encodable (params : EntryParams) : Prop :=
  zlen (as_bytes (p_gpu_name params)) < 2 ^ 16 /\ zlen (as_bytes (p_tileiras_fp params)) < 2 ^ 16.

#[export] Instance encodable_dec params : Decision (encodable params).
Proof. unfold encodable. apply _. Defined.

Section Codec.
Context (sha256 : list Z -> list Z).
Context (Hsha : forall m, length (sha256 m) = 32%nat).
Context (params : EntryParams) (Hbc : length (p_bc_sha256 params) = 32%nat).

Lemma encode_entry_layout cubin : encodable params ->
  encode_entry sha256 params cubin = Some (entry_layout sha256 params cubin [0; 0] [0; 0]).
Proof.
  clear Hsha Hbc. intros [Hg Hf]. unfold encode_entry, u16_try_from.
  rewrite (proj2 (Z.ltb_lt _ _) Hg), (proj2 (Z.ltb_lt _ _) Hf). cbn [mbind option_bind].
  unfold entry_layout. by rewrite <- !app_assoc.
Qed.

Lemma encode_entry_too_long cubin : ~ encodable params -> encode_entry sha256 params cubin = None.
Proof.
  clear Hsha Hbc. intros H. unfold encode_entry, u16_try_from. unfold encodable in H.
  destruct (Z.ltb_spec (zlen (as_bytes (p_gpu_name params))) (2 ^ 16)); [|done]. cbn [mbind option_bind].
  destruct (Z.ltb_spec (zlen (as_bytes (p_tileiras_fp params))) (2 ^ 16)); [lia|done].
Qed.

Lemma entry_layout_length cubin r1 r2 : length r1 = 2%nat -> length r2 = 2%nat ->
  zlen (entry_layout sha256 params cubin r1 r2) =
    ENTRY_HEADER_LEN + zlen (as_bytes (p_gpu_name params)) + zlen (as_bytes (p_tileiras_fp params)) + zlen cubin.
Proof.
  intros H1 H2. unfold entry_layout, zlen. rewrite !length_app, !le_bytes_length, Hsha, Hbc, H1, H2.
  change (length ENTRY_MAGIC) with 12%nat. cbn [length]. unfold ENTRY_HEADER_LEN. lia.
Qed.

(** A string of at least a header's length is its header's fields and a rest. *)
Lemma header_fields (bytes : list Z) : ENTRY_HEADER_LEN <= zlen bytes ->
  exists m v r1 ps bs gl fl o f r2 pl rest,
    bytes = m ++ v ++ r1 ++ ps ++ bs ++ gl ++ fl ++ [o] ++ [f] ++ r2 ++ pl ++ rest /\
    length m = 12%nat /\ length v = 2%nat /\ length r1 = 2%nat /\ length ps = 32%nat /\ length bs = 32%nat /\
    length gl = 2%nat /\ length fl = 2%nat /\ length r2 = 2%nat /\ length pl = 8%nat.
Proof.
  unfold ENTRY_HEADER_LEN, zlen. intros H.
  destruct (split_prefix bytes 12) as (m & b1 & -> & Hm); [lia|]. rewrite length_app in H.
  destruct (split_prefix b1 2) as (v & b2 & -> & Hv); [lia|]. rewrite length_app in H.
  destruct (split_prefix b2 2) as (r1 & b3 & -> & Hr1); [lia|]. rewrite length_app in H.
  destruct (split_prefix b3 32) as (ps & b4 & -> & Hps); [lia|]. rewrite length_app in H.
  destruct (split_prefix b4 32) as (bs & b5 & -> & Hbs); [lia|]. rewrite length_app in H.
  destruct (split_prefix b5 2) as (gl & b6 & -> & Hgl); [lia|]. rewrite length_app in H.
  destruct (split_prefix b6 2) as (fl & b7 & -> & Hfl); [lia|]. rewrite length_app in H.
  destruct b7 as [|o [|f b8]]; [cbn in H; lia..|]. cbn [length] in H.
  destruct (split_prefix b8 2) as (r2 & b9 & -> & Hr2); [lia|]. rewrite length_app in H.
  destruct (split_prefix b9 8) as (pl & rest & -> & Hpl); [lia|].
  exists m, v, r1, ps, bs, gl, fl, o, f, r2, pl, rest. done.
Qed.

(** What the decoder reads of a string given by its fields. *)
Lemma decode_entry_fields (m v r1 ps bs gl fl : list Z) (o f : Z) (r2 pl rest : list Z) :
  length m = 12%nat -> length v = 2%nat -> length r1 = 2%nat -> length ps = 32%nat -> length bs = 32%nat ->
  length gl = 2%nat -> length fl = 2%nat -> length r2 = 2%nat -> length pl = 8%nat ->
  let bytes := m ++ v ++ r1 ++ ps ++ bs ++ gl ++ fl ++ [o] ++ [f] ++ r2 ++ pl ++ rest in
  slice 0 12 bytes = m /\ slice 12 14 bytes = v /\ slice 16 48 bytes = ps /\ slice 48 80 bytes = bs /\
  slice 80 82 bytes = gl /\ slice 82 84 bytes = fl /\ nth 84 bytes 0 = o /\ nth 85 bytes 0 = f /\
  slice 88 96 bytes = pl /\ (forall a b, slice (96 + a) (96 + b) bytes = slice a b rest) /\
  (forall a, drop (96 + a) bytes = drop a rest).
Proof.
  intros Hm Hv Hr1 Hps Hbs Hgl Hfl Hr2 Hpl bytes.
  assert (Hskip : forall a b, slice (96 + a) (96 + b) bytes = slice a b rest).
  { intros a b. unfold bytes.
    do 11 (erewrite slice_skip; [|eassumption || reflexivity|cbn; lia]). cbn [length]. f_equal; lia. }
  assert (Hdrop : forall a, drop (96 + a) bytes = drop a rest).
  { intros a. unfold bytes.
    do 11 (erewrite drop_skip; [|eassumption || reflexivity|cbn; lia]). cbn [length]. f_equal; lia. }
  repeat split; try assumption; unfold bytes;
    repeat (erewrite slice_skip; [|eassumption || reflexivity|cbn; lia]);
    repeat (erewrite nth_skip; [|eassumption || reflexivity|cbn; lia]); try done; by apply slice_here.
Qed.

(** The decoder accepts a string exactly when each field agrees. *)
Lemma decode_entry_accepts (m v r1 ps bs gl fl : list Z) (o f : Z) (r2 pl rest c : list Z) :
  length m = 12%nat -> length v = 2%nat -> length r1 = 2%nat -> length ps = 32%nat -> length bs = 32%nat ->
  length gl = 2%nat -> length fl = 2%nat -> length r2 = 2%nat -> length pl = 8%nat ->
  0 <= from_le_bytes gl -> 0 <= from_le_bytes fl -> 0 <= from_le_bytes pl ->
  let ng := Z.to_nat (from_le_bytes gl) in let nf := Z.to_nat (from_le_bytes fl) in
  let bytes := m ++ v ++ r1 ++ ps ++ bs ++ gl ++ fl ++ [o] ++ [f] ++ r2 ++ pl ++ rest in
  decode_entry sha256 bytes params = Some c <->
    m = ENTRY_MAGIC /\ from_le_bytes v = ENTRY_FORMAT_VERSION /\
    ENTRY_HEADER_LEN + from_le_bytes gl + from_le_bytes fl + from_le_bytes pl <= USIZE_MAX /\
    zlen rest = from_le_bytes gl + from_le_bytes fl + from_le_bytes pl /\
    bs = p_bc_sha256 params /\ slice 0 ng rest = as_bytes (p_gpu_name params) /\
    o = p_opt_level params /\ f = p_flags params /\
    slice ng (ng + nf) rest = as_bytes (p_tileiras_fp params) /\
    drop (ng + nf) rest = c /\ sha256 c = ps.
Proof.
  intros Hm Hv Hr1 Hps Hbs Hgl Hfl Hr2 Hpl Ng Nf Np ng nf bytes.
  destruct (decode_entry_fields m v r1 ps bs gl fl o f r2 pl rest)
    as (Em & Ev & Eps & Ebs & Egl & Efl & Eo & Ef & Epl & Eslice & Edrop); [done..|]. fold bytes in Em, Ev, Eps, Ebs, Egl, Efl, Eo, Ef, Epl, Eslice, Edrop.
  assert (Hz : zlen bytes = ENTRY_HEADER_LEN + zlen rest).
  { unfold bytes, zlen, ENTRY_HEADER_LEN. rewrite !length_app. cbn [length]. lia. }
  pose proof (Eslice 0%nat ng) as Eg. rewrite Nat.add_0_r in Eg.
  pose proof (Eslice ng (ng + nf)%nat) as Efp. rewrite Nat.add_assoc in Efp.
  specialize (Edrop (ng + nf)%nat). rewrite Nat.add_assoc in Edrop.
  unfold decode_entry. cbn zeta. rewrite Em, Ev, Eps, Ebs, Egl, Efl, Eo, Ef, Epl, Hz. fold ng nf.
  change (Z.to_nat ENTRY_HEADER_LEN) with 96%nat. rewrite Eg, Efp, Edrop.
  pose proof (zlen_nonneg rest). unfold ENTRY_HEADER_LEN in *.
  destruct (Z.ltb_spec (96 + zlen rest) 96); [lia|]. cbn [orb].
  destruct (bool_decide_reflect (m = ENTRY_MAGIC)); [|naive_solver]. cbn [negb orb].
  destruct (Z.eqb_spec (from_le_bytes v) ENTRY_FORMAT_VERSION); [|naive_solver]. cbn [negb].
  unfold usize_checked_add.
  destruct (Z.leb_spec (96 + from_le_bytes gl) USIZE_MAX); [|naive_solver lia]. cbn [mbind option_bind].
  destruct (Z.leb_spec (96 + from_le_bytes gl + from_le_bytes fl) USIZE_MAX); [|naive_solver lia].
  cbn [mbind option_bind].
  destruct (Z.leb_spec (96 + from_le_bytes gl + from_le_bytes fl + from_le_bytes pl) USIZE_MAX); [|naive_solver lia].
  cbn [mbind option_bind].
  destruct (Z.eqb_spec (96 + zlen rest) (96 + from_le_bytes gl + from_le_bytes fl + from_le_bytes pl));
    [|naive_solver lia]. cbn [negb].
  destruct (bool_decide_reflect (bs = p_bc_sha256 params)); [|naive_solver]. cbn [negb orb].
  destruct (bool_decide_reflect (slice 0 ng rest = as_bytes (p_gpu_name params))); [|naive_solver]. cbn [negb orb].
  destruct (Z.eqb_spec o (p_opt_level params)); [|naive_solver]. cbn [negb orb].
  destruct (Z.eqb_spec f (p_flags params)); [|naive_solver]. cbn [negb orb].
  destruct (bool_decide_reflect (slice ng (ng + nf) rest = as_bytes (p_tileiras_fp params))); [|naive_solver].
  cbn [negb orb]. destruct (bool_decide_reflect (sha256 (drop (ng + nf) rest) = ps)); [|naive_solver]. cbn [negb].
  split; [intros [= <-]; repeat split; try done; lia|naive_solver].
Qed.

Lemma decode_entry_layout cubin r1 r2 : encodable params -> length r1 = 2%nat -> length r2 = 2%nat ->
  zlen (entry_layout sha256 params cubin r1 r2) <= USIZE_MAX ->
  decode_entry sha256 (entry_layout sha256 params cubin r1 r2) params = Some cubin.
Proof.
  intros [Hg Hf] H1 H2 Hfit. rewrite entry_layout_length in Hfit by done.
  pose proof (zlen_nonneg (as_bytes (p_gpu_name params))) as Pg. pose proof (zlen_nonneg cubin) as Pc.
  pose proof (zlen_nonneg (as_bytes (p_tileiras_fp params))) as Pf. unfold ENTRY_HEADER_LEN in Hfit.
  assert (Eg : from_le_bytes (le_bytes 2 (zlen (as_bytes (p_gpu_name params)))) = zlen (as_bytes (p_gpu_name params)))
    by (apply from_le_bytes_fits; cbn; lia).
  assert (Ef : from_le_bytes (le_bytes 2 (zlen (as_bytes (p_tileiras_fp params)))) = zlen (as_bytes (p_tileiras_fp params)))
    by (apply from_le_bytes_fits; cbn; lia).
  assert (Ec : from_le_bytes (le_bytes 8 (zlen cubin)) = zlen cubin)
    by (apply from_le_bytes_fits; cbn; int_lia).
  apply decode_entry_accepts; rewrite ?Eg, ?Ef, ?Ec, ?to_nat_zlen, ?le_bytes_length; try done.
  rewrite !zlen_app. repeat split; try done; try (unfold ENTRY_HEADER_LEN; lia).
  - by apply slice_here.
  - rewrite (slice_skip _ _ _ _ _ eq_refl) by lia. rewrite Nat.sub_diag.
    rewrite Nat.add_comm, Nat.add_sub. by apply slice_here.
  - rewrite (drop_skip _ _ _ _ eq_refl) by lia. rewrite Nat.add_comm, Nat.add_sub. apply drop_app_length.
Qed.

Lemma decode_entry_inv bytes cubin : Forall byte_ok bytes -> decode_entry sha256 bytes params = Some cubin ->
  encodable params /\ exists r1 r2, length r1 = 2%nat /\ length r2 = 2%nat /\
    bytes = entry_layout sha256 params cubin r1 r2.
Proof.
  intros Hok H. assert (Hlen : ENTRY_HEADER_LEN <= zlen bytes).
  { unfold decode_entry in H. destruct (Z.ltb_spec (zlen bytes) ENTRY_HEADER_LEN); [done|lia]. }
  destruct (header_fields bytes Hlen) as (m & v & r1 & ps & bs & gl & fl & o & f & r2 & pl & rest & -> &
    Hm & Hv & Hr1 & Hps & Hbs & Hgl & Hfl & Hr2 & Hpl).
  repeat (setoid_rewrite Forall_app in Hok). destruct Hok as (_ & Okv & _ & _ & _ & Okg & Okf & _ & _ & _ & Okp & _).
  pose proof (from_le_bytes_nonneg _ Okg) as Ng. pose proof (from_le_bytes_nonneg _ Okf) as Nf.
  pose proof (from_le_bytes_nonneg _ Okp) as Np.
  apply decode_entry_accepts in H as (-> & Ev & Hmax & Hrest & -> & Eg & -> & -> & Ef & Ed & <-); try done.
  set (ng := Z.to_nat (from_le_bytes gl)) in *. set (nf := Z.to_nat (from_le_bytes fl)) in *.
  assert (Hn : (ng + nf <= length rest)%nat) by (unfold zlen in Hrest; lia).
  assert (Lg : from_le_bytes gl = zlen (as_bytes (p_gpu_name params))).
  { rewrite <- Eg. unfold zlen. pose proof (slice_length rest 0 ng ltac:(lia)) as L. cbn [Nat.add] in L. rewrite L. lia. }
  assert (Lf : from_le_bytes fl = zlen (as_bytes (p_tileiras_fp params))).
  { rewrite <- Ef. unfold zlen. rewrite slice_length by lia. lia. }
  assert (Lc : from_le_bytes pl = zlen cubin).
  { rewrite <- Ed. unfold zlen. rewrite length_drop. unfold zlen in Hrest. lia. }
  assert (Erest : rest = as_bytes (p_gpu_name params) ++ as_bytes (p_tileiras_fp params) ++ cubin).
  { rewrite <- Eg, <- Ef, <- Ed. apply slice_split. }
  pose proof (from_le_bytes_bound _ Okg) as Bg. pose proof (from_le_bytes_bound _ Okf) as Bf.
  rewrite Hgl in Bg. rewrite Hfl in Bf. rewrite Lg in Bg. rewrite Lf in Bf.
  split; [by split|]. exists r1, r2. repeat split; try done. unfold entry_layout.
  by rewrite <- (le_bytes_from_n 2 v _ Okv Hv Ev), <- (le_bytes_from_n 2 gl _ Okg Hgl Lg),
    <- (le_bytes_from_n 2 fl _ Okf Hfl Lf), <- (le_bytes_from_n 8 pl _ Okp Hpl Lc), <- Erest.
Qed.

End Codec.

(** Equal entries are entries of one request and one cubin. *)
Lemma entry_layout_inj sha256 params params' c c' r1 r2 r1' r2' :
  (forall m, length (sha256 m) = 32%nat) ->
  length (p_bc_sha256 params) = 32%nat -> length (p_bc_sha256 params') = 32%nat ->
  encodable params -> encodable params' ->
  length r1 = 2%nat -> length r2 = 2%nat -> length r1' = 2%nat -> length r2' = 2%nat ->
  entry_layout sha256 params c r1 r2 = entry_layout sha256 params' c' r1' r2' -> params = params' /\ c = c'.
Proof.
  intros Hsha Hb Hb' [Hg Hf] [Hg' Hf'] H1 H2 H1' H2' H. unfold entry_layout in H.
  apply app_inv_head, app_inv_head in H. apply app_eq_length in H as [_ H]; [|lia].
  apply app_eq_length in H as [_ H]; [|by rewrite !Hsha]. apply app_eq_length in H as [Ebc H]; [|lia].
  apply app_eq_length in H as [Eg H]; [|by rewrite !le_bytes_length].
  apply app_eq_length in H as [Ef H]; [|by rewrite !le_bytes_length].
  apply app_eq_length in H as [Eo H]; [|done]. apply app_eq_length in H as [El H]; [|done].
  apply app_eq_length in H as [_ H]; [|lia].
  apply app_eq_length in H as [_ H]; [|by rewrite !le_bytes_length].
  apply le_bytes_inj in Eg, Ef; try (split; [apply zlen_nonneg|cbn; lia]). unfold zlen in Eg, Ef.
  apply app_eq_length in H as [Egpu H]; [|lia]. apply app_eq_length in H as [Efp H]; [|lia].
  apply as_bytes_inj in Egpu, Efp. destruct params, params'; by simplify_eq/=.
Qed.

(** ** Keys and entries are faithful to the request *)

(** C21: two requests that share a cache key are one request — the same
    bytecode, bytecode version, target, optimization level, debug and sanitizer
    flags and compiler fingerprint — unless two different key inputs have the
    same SHA-256 digest; and a key is 64 characters long. *)
Theorem key_identifies_request (sha256 : list Z -> list Z) (q q' : Request)
    (Hsha : forall m, length (sha256 m) = 32%nat /\ Forall byte_ok (sha256 m))
    (Hq : request_ok q) (Hq' : request_ok q') :
  let key q := l2_key sha256 (q_bc q) (q_bc_version q) (q_gpu_name q) (q_opts q) (q_tileiras_fp q) in
  String.length (key q) = 64%nat /\
  (key q = key q' -> q = q' \/
     (l2_preimage q <> l2_preimage q' /\ sha256 (l2_preimage q) = sha256 (l2_preimage q'))).
Proof.
  assert (E : forall r, mkRequest (q_bc r) (q_bc_version r) (q_gpu_name r) (q_opts r) (q_tileiras_fp r) = r)
    by (by intros []).
  cbn zeta. unfold l2_key. rewrite !E. split.
  - by rewrite hex_length, (proj1 (Hsha _)).
  - intros H. apply hex_inj in H; [|apply Hsha..].
    destruct (decide (l2_preimage q = l2_preimage q')) as [Hp|Hp]; [left; by apply l2_preimage_inj|by right].
Qed.

(** A hash with digests of the right shape, to evaluate the definitions with. *)
Definition toy_hash (m : list Z) : list Z := replicate 32 (foldr (fun b acc => (b + 3 * acc) mod 256) 7 m).

Lemma toy_hash_shape m : length (toy_hash m) = 32%nat /\ Forall byte_ok (toy_hash m).
Proof.
  unfold toy_hash. rewrite length_replicate. split; [done|]. apply Forall_replicate.
  destruct m; cbn; unfold byte_ok; [lia|]. apply Z.mod_pos_bound. lia.
Qed.

Definition sample_request (debug : bool) : Request :=
  mkRequest [1; 2; 3] V13_2 "sm_90" (mkTileirasOptions 3 debug false false) "tileiras 13.2".

Lemma key_identifies_request_witness :
  let key d := let q := sample_request d in
    l2_key toy_hash (q_bc q) (q_bc_version q) (q_gpu_name q) (q_opts q) (q_tileiras_fp q) in
  String.length (key true) = 64%nat /\
  (key true = key false -> sample_request true = sample_request false \/
     (l2_preimage (sample_request true) <> l2_preimage (sample_request false) /\
      toy_hash (l2_preimage (sample_request true)) = toy_hash (l2_preimage (sample_request false)))).
Proof.
  apply (key_identifies_request toy_hash (sample_request true) (sample_request false) toy_hash_shape);
    repeat split; vm_compute; congruence.
Defined.

(** C22: an entry written for a request and a cubin is accepted back only for
    that request, and gives that cubin; for a request that differs in the
    bytecode digest, the target, the optimization level, the flags or the
    fingerprint it is refused.  And whatever the bytes of a stored entry are,
    they are accepted only when they are such an entry up to the four reserved
    bytes: magic, version, sizes, checksum and request fields all agree, so a
    truncated, extended or damaged entry is refused unless its payload has the
    digest in its header. *)
Theorem entry_round_trip (sha256 : list Z -> list Z) (params params' : EntryParams) (bytes cubin : list Z)
    (Hsha : forall m, length (sha256 m) = 32%nat)
    (Hlen : length (p_bc_sha256 params) = 32%nat) (Hlen' : length (p_bc_sha256 params') = 32%nat)
    (Hok : Forall byte_ok bytes) (Hfits : zlen bytes <= ISIZE_MAX) :
  (encode_entry sha256 params cubin = Some bytes ->
     decode_entry sha256 bytes params = Some cubin /\
     (params' <> params -> decode_entry sha256 bytes params' = None)) /\
  (decode_entry sha256 bytes params = Some cubin <->
     encodable params /\ exists r1 r2, length r1 = 2%nat /\ length r2 = 2%nat /\
       bytes = entry_layout sha256 params cubin r1 r2).
Proof.
  split.
  - intros He. destruct (decide (encodable params)) as [Henc|Henc];
      [|by rewrite encode_entry_too_long in He].
    rewrite encode_entry_layout in He by done. injection He as <-. split.
    + apply decode_entry_layout; try done. int_lia.
    + intros Hne. destruct (decode_entry sha256 _ params') as [c|] eqn:Hd; [|done].
      apply decode_entry_inv in Hd as (Henc' & r1 & r2 & H1 & H2 & E); try done.
      by apply entry_layout_inj in E as [-> _].
  - split; [by apply decode_entry_inv|]. intros (Henc & r1 & r2 & H1 & H2 & ->).
    apply decode_entry_layout; try done. int_lia.
Qed.

Definition sample_params (flags : Z) : EntryParams :=
  mkEntryParams (toy_hash [1; 2; 3]) "sm_90" 3 flags "tileiras 13.2".

Definition sample_entry : list Z := default [] (encode_entry toy_hash (sample_params 0) [9; 8; 7]).

Lemma entry_round_trip_witness :
  decode_entry toy_hash sample_entry (sample_params 0) = Some [9; 8; 7] /\
  decode_entry toy_hash sample_entry (sample_params 1) = None.
Proof.
  destruct (entry_round_trip toy_hash (sample_params 0) (sample_params 1) sample_entry [9; 8; 7]
    (fun m => proj1 (toy_hash_shape m)) eq_refl eq_refl) as [H _].
  - apply (bool_decide_unpack _). vm_compute. exact I.
  - vm_compute. congruence.
  - destruct H as [H1 H2]; [vm_compute; reflexivity|]. split; [exact H1|].
    apply H2. intros E. discriminate E.
Defined.
