(* ===== verification/Backend.v ===== *)
(** * The back end: running [tileiras] behind the cubin cache

    cutile-compiler/src/cuda_tile_runtime_utils.rs (fingerprint, temporary
    files, [run_tileiras_at], [compile_bytecode_cached_at],
    [recompile_after_disk_rejection_at]), the [JitStore] trait and the counters
    of jit_cache.rs, and the load step of cutile/src/tile_kernel.rs.  The
    [tileiras] program, the CUDA driver's module loader and SHA-256 are
    parameters; a store is any implementation of the trait, whose operations
    may fail.  Logging is left out. *)

From Stdlib Require Import Ascii.
From stdpp Require Import gmap.
From S2P Require Import Prelude Bounds Enums Encoding Text Tables Options JitCache.
Local Open Scope string_scope.
Local Open Scope list_scope.
Local Open Scope Z_scope.

(** ** Messages *)

Definition nl : string := String "010"%char EmptyString.
Definition nul : string := String "000"%char EmptyString.

Definition is_plain (c : Ascii.ascii) : bool :=
  let n := Z.of_nat (Ascii.nat_of_ascii c) in
  ((48 <=? n) && (n <=? 57)) || ((65 <=? n) && (n <=? 90)) || ((97 <=? n) && (n <=? 122))
  || bool_decide (c ∈ ["_"; "-"; "."; "/"; ":"; "="]%char).

Fixpoint quote_quotes (s : string) : string :=
  match s with
  | EmptyString => EmptyString
  | String c s => if bool_decide (c = "'"%char) then "'\''" +:+ quote_quotes s else String c (quote_quotes s)
  end.

Definition shell_display (value : string) : string :=
  match value with
  | EmptyString => "''"
  | _ => if str_all is_plain value then value else "'" +:+ quote_quotes value +:+ "'"
  end.

Definition display_command (program : string) (args : list string) : string :=
  join " " (shell_display <$> program :: args).

(** ** Files *)

(** The files of the temporary directory, and the operations on them that
    fail: a failed write may leave a part of the contents behind. *)
Record Disk := mkDisk {
  files : gmap string (list Z);
  write_fault : string -> option (string * option (list Z));
  read_fault : string -> option string;
  remove_fault : string -> bool;
}.

Definition set_files (f : gmap string (list Z)) (d : Disk) : Disk :=
  mkDisk f (write_fault d) (read_fault d) (remove_fault d).

(** [io::Result]. *)
Definition io_result (A : Type) : Type := (A + string)%type.

Definition fs_write (path : string) (bytes : list Z) (d : Disk) : io_result unit * Disk :=
  match write_fault d path with
  | None => (inl tt, set_files (<[path := bytes]> (files d)) d)
  | Some (e, part) => (inr e, match part with Some b => set_files (<[path := b]> (files d)) d | None => d end)
  end.

Definition fs_read (path : string) (d : Disk) : io_result (list Z) :=
  match read_fault d path, files d !! path with
  | Some e, _ => inr e
  | None, Some bytes => inl bytes
  | None, None => inr "No such file or directory (os error 2)"
  end.

Definition fs_remove (path : string) (d : Disk) : Disk :=
  if remove_fault d path then d else set_files (delete path (files d)) d.

(** [Drop for ScopedTempFile], after [keep] or not. *)
Definition drop_temp (kept : bool) (path : string) (d : Disk) : Disk := if kept then d else fs_remove path d.

(** ** The environment *)

Inductive SpawnResult :=
| Exited (success : bool) (status stdout stderr : string)
| NotLaunched (error : string).

(** [spawn program args] runs a program on the files; [canonicalize],
    [metadata] (length and modification time) and the environment variables are
    the operating system's answers. *)
Record Os := mkOs {
  spawn : string -> list string -> gmap string (list Z) -> SpawnResult * gmap string (list Z);
  version_of : string -> SpawnResult;
  canonicalize : string -> option string;
  metadata : string -> option (Z * Z);
  temp_dir : string;
  var : string -> option string;
}.

Definition stat_fingerprint (os : Os) (tileiras : string) : string :=
  let path := default tileiras (canonicalize os tileiras) in
  let '(len, mtime_ns) := default (0, 0) (metadata os path) in
  "stat" +:+ nul +:+ path +:+ nul +:+ pretty len +:+ nul +:+ pretty mtime_ns.

Definition compute_tileiras_fingerprint (os : Os) (tileiras : string) : string :=
  match version_of os tileiras with
  | Exited true _ stdout _ =>
      let version := trim stdout in
      match version with EmptyString => stat_fingerprint os tileiras | _ => version end
  | _ => stat_fingerprint os tileiras
  end.

Definition tileiras_launch_error (os : Os) (tileiras : string) (args : list string) (bc_filename error : string) : string :=
  let shown v := default "<unset>" (var os v) in
  let message :=
    "failed to launch tileiras." +:+ nl +:+
    "error: " +:+ error +:+ nl +:+
    "command: " +:+ display_command tileiras args +:+ nl +:+
    "bytecode: " +:+ bc_filename +:+ " (kept for inspection)" +:+ nl +:+
    "CUTILE_TILEIRAS_PATH: " +:+ shown "CUTILE_TILEIRAS_PATH" +:+ nl +:+
    "CUDA_TOOLKIT_PATH: " +:+ shown "CUDA_TOOLKIT_PATH" +:+ nl +:+
    "CUDA_HOME: " +:+ shown "CUDA_HOME" +:+ nl in
  match var os "CUTILE_TILEIRAS_PATH" with
  | None => message +:+ "hint: install CUDA 13.2+ with tileiras, set CUDA_TOOLKIT_PATH or CUDA_HOME to that "
      +:+ "toolkit, set CUTILE_TILEIRAS_PATH to the absolute tileiras path, or rerun with "
      +:+ "CUTILE_SETUP_DIAGNOSTICS=1 to trace toolkit discovery."
  | Some _ => message +:+ "hint: verify CUTILE_TILEIRAS_PATH points to an executable tileiras binary."
  end.

(** ** Stores *)

(** What the pipeline uses of the [JitStore] trait. *)
Class JitStore (S : Type) := {
  store_get : string -> S -> io_result (option (list Z)) * S;
  store_put : string -> list Z -> S -> io_result unit * S;
  store_delete : string -> S -> io_result unit * S;
}.

Record StatCounters := mkStats { hits : Z; misses : Z; puts : Z; bytes_written : Z; io_errors : Z }.

Definition no_stats : StatCounters := mkStats 0 0 0 0 0.

Definition add_hit (c : StatCounters) : StatCounters :=
  mkStats (as_u64 (hits c + 1)) (misses c) (puts c) (bytes_written c) (io_errors c).
Definition add_miss (c : StatCounters) : StatCounters :=
  mkStats (hits c) (as_u64 (misses c + 1)) (puts c) (bytes_written c) (io_errors c).
Definition add_put (len : Z) (c : StatCounters) : StatCounters :=
  mkStats (hits c) (misses c) (as_u64 (puts c + 1)) (as_u64 (bytes_written c + len)) (io_errors c).
Definition add_io_error (c : StatCounters) : StatCounters :=
  mkStats (hits c) (misses c) (puts c) (bytes_written c) (as_u64 (io_errors c + 1)).

(** The process: its files, the stores (shared objects, named by a number) and
    which one is installed, the fingerprints computed so far and the counters. *)
Record World (S : Type) := mkWorld {
  disk : Disk; stores : nat -> S; STORE : option nat; fingerprints : gmap string string;
  STATS : StatCounters; BACKEND_COMPILES : Z }.
Arguments mkWorld {S}.
Arguments disk {S}.
Arguments stores {S}.
Arguments STORE {S}.
Arguments fingerprints {S}.
Arguments STATS {S}.
Arguments BACKEND_COMPILES {S}.

Definition set_disk {S} (d : Disk) (w : World S) : World S :=
  mkWorld d (stores w) (STORE w) (fingerprints w) (STATS w) (BACKEND_COMPILES w).
Definition set_store {S} (i : nat) (s : S) (w : World S) : World S :=
  mkWorld (disk w) (fun j => if (i =? j)%nat then s else stores w j) (STORE w) (fingerprints w) (STATS w) (BACKEND_COMPILES w).
Definition count {S} (f : StatCounters -> StatCounters) (w : World S) : World S :=
  mkWorld (disk w) (stores w) (STORE w) (fingerprints w) (f (STATS w)) (BACKEND_COMPILES w).
Definition record_backend_compile {S} (w : World S) : World S :=
  mkWorld (disk w) (stores w) (STORE w) (fingerprints w) (STATS w) (as_u64 (BACKEND_COMPILES w + 1)).

Definition enable {S} (store : nat) (w : World S) : World S :=
  mkWorld (disk w) (stores w) (Some store) (fingerprints w) (STATS w) (BACKEND_COMPILES w).
Definition disable {S} (w : World S) : World S :=
  mkWorld (disk w) (stores w) None (fingerprints w) (STATS w) (BACKEND_COMPILES w).
Definition is_enabled {S} (w : World S) : bool := is_some (STORE w).

(** Where a cubin came from. *)
Inductive Stage2Source := FromTileiras | DiskCache (store : nat) (key : string).

Section Backend.
Context {S : Type} `{JitStore S} (sha256 : list Z -> list Z) (os : Os).

Definition fingerprint_of (tileiras : string) (w : World S) : string * World S :=
  let key := stat_fingerprint os tileiras in
  match fingerprints w !! key with
  | Some fp => (fp, w)
  | None =>
      let fp := compute_tileiras_fingerprint os tileiras in
      (fp, mkWorld (disk w) (stores w) (STORE w) (<[key := fp]> (fingerprints w)) (STATS w) (BACKEND_COMPILES w))
  end.

Definition tileiras_args (gpu_name : string) (opts : TileirasOptions) (cubin_filename bc_filename : string) : list string :=
  ["--gpu-name"; gpu_name; "--opt-level"; pretty (t_opt_level opts)]
  ++ (if t_device_debug opts then ["--device-debug"] else [])
  ++ (if t_lineinfo opts then ["--lineinfo"] else [])
  ++ (if t_sanitize_memcheck opts then ["--sanitize=memcheck"] else [])
  ++ ["-o"; cubin_filename; bc_filename].

(** [uuid] is the random name of the temporary files. *)
Definition run_tileiras_at (uuid tileiras : string) (bytecode : list Z) (gpu_name : string) (opts : TileirasOptions)
    (w : World S) : outcome JITError (list Z) * World S :=
  let base_filename := temp_dir os +:+ "/" +:+ uuid in
  let bc_filename := base_filename +:+ ".bc" in
  let cubin_filename := base_filename +:+ ".cubin" in
  let finish kept r w := (r, set_disk (drop_temp kept bc_filename (drop_temp false cubin_filename (disk w))) w) in
  match fs_write bc_filename bytecode (disk w) with
  | (inr e, d) => finish false (Err (Generic ("Failed to write bytecode for " +:+ bc_filename +:+ ": " +:+ e))) (set_disk d w)
  | (inl _, d) =>
      let args := tileiras_args gpu_name opts cubin_filename bc_filename in
      let '(output, f) := spawn os tileiras args (files d) in
      let w := set_disk (set_files f d) w in
      match output with
      | NotLaunched e => finish true (Err (Generic (tileiras_launch_error os tileiras args bc_filename e))) w
      | Exited false status stdout stderr =>
          finish true (Err (Generic (
            tileiras +:+ " failed while compiling Tile IR bytecode." +:+ nl +:+
            "status: " +:+ status +:+ nl +:+
            "command: " +:+ display_command tileiras args +:+ nl +:+
            "target gpu: " +:+ gpu_name +:+ nl +:+
            "bytecode: " +:+ bc_filename +:+ " (kept for inspection)" +:+ nl +:+
            "output cubin: " +:+ cubin_filename +:+ nl +:+
            "stdout:" +:+ nl +:+ stdout +:+ nl +:+
            "stderr:" +:+ nl +:+ stderr +:+ nl +:+
            "hint: run with CUTILE_DUMP=ir,bytecode to include the generated Tile IR and decoded bytecode in stderr."))) w
      | Exited true _ _ _ =>
          match fs_read cubin_filename (disk w) with
          | inr e => finish false (Err (Generic (tileiras +:+ " reported success but its output cubin at "
                       +:+ cubin_filename +:+ " could not be read: " +:+ e))) w
          | inl [] => finish false (Err (Generic (tileiras +:+ " reported success but wrote an empty cubin at " +:+ cubin_filename))) w
          | inl cubin => finish false (Ok cubin) (record_backend_compile w)
          end
      end
  end.

Definition entry_params (bytecode : list Z) (gpu_name : string) (opts : TileirasOptions) (tileiras_fp : string) : EntryParams :=
  mkEntryParams (sha256 bytecode) gpu_name (t_opt_level opts) (flags_byte opts) tileiras_fp.

(** [fetch_add] of the error counter after a failed store operation. *)
Definition soft {A} (r : io_result A) (w : World S) : World S :=
  match r with inl _ => w | inr _ => count add_io_error w end.

(** The lookup: [Some] of a validated cubin, or a miss after its clean-up. *)
Definition consult (store : nat) (key : string) (params : EntryParams) (w : World S) : option (list Z) * World S :=
  match store_get key (stores w store) with
  | (inl (Some entry), s) =>
      let w := set_store store s w in
      match decode_entry sha256 entry params with
      | Some cubin => (Some cubin, count add_hit w)
      | None => let '(r, s) := store_delete key (stores w store) in (None, soft r (set_store store s w))
      end
  | (inl None, s) => (None, set_store store s w)
  | (inr _, s) => (None, count add_io_error (set_store store s w))
  end.

(** Writing a fresh cubin back. *)
Definition save (store : nat) (key : string) (params : EntryParams) (cubin : list Z) (w : World S) : World S :=
  match encode_entry sha256 params cubin with
  | Some entry =>
      let '(r, s) := store_put key entry (stores w store) in
      let w := set_store store s w in
      match r with
      | inl _ => count (add_put (zlen entry)) w
      | inr _ => count add_io_error w
      end
  | None => w
  end.

Definition compile_bytecode_cached_at (uuid tileiras : string) (bytecode : list Z) (bc_version : BytecodeVersion)
    (gpu_name : string) (opts : TileirasOptions) (w : World S) : outcome JITError (list Z * Stage2Source) * World S :=
  match STORE w with
  | None =>
      let '(r, w) := run_tileiras_at uuid tileiras bytecode gpu_name opts w in
      (c ← r; Ok (c, FromTileiras), w)
  | Some store =>
      let '(tileiras_fp, w) := fingerprint_of tileiras w in
      let key := l2_key sha256 bytecode bc_version gpu_name opts tileiras_fp in
      let params := entry_params bytecode gpu_name opts tileiras_fp in
      match consult store key params w with
      | (Some cubin, w) => (Ok (cubin, DiskCache store key), w)
      | (None, w) =>
          let w := count add_miss w in
          let '(r, w) := run_tileiras_at uuid tileiras bytecode gpu_name opts w in
          match r with
          | Ok cubin => (Ok (cubin, FromTileiras), save store key params cubin w)
          | Err e => (Err e, w)
          | Panic => (Panic, w)
          end
      end
  end.

Definition recompile_after_disk_rejection_at (uuid tileiras : string) (store : nat) (key : string) (bytecode : list Z)
    (gpu_name : string) (opts : TileirasOptions) (w : World S) : outcome JITError (list Z) * World S :=
  let '(r, s) := store_delete key (stores w store) in
  run_tileiras_at uuid tileiras bytecode gpu_name opts (soft r (set_store store s w)).

(** Stage 2 and the module load of [compile_and_load_kernel]: a cubin of the
    cache that the driver rejects is evicted and compiled afresh. *)
Definition compile_and_load {M : Type} (load : list Z -> outcome JITError M) (uuid uuid' tileiras : string)
    (bytecode : list Z) (bc_version : BytecodeVersion) (gpu_name : string) (opts : TileirasOptions)
    (w : World S) : outcome JITError M * World S :=
  match compile_bytecode_cached_at uuid tileiras bytecode bc_version gpu_name opts w with
  | (Ok (cubin, source), w) =>
      match load cubin with
      | Ok m => (Ok m, w)
      | Err e =>
          match source with
          | DiskCache store key =>
              match recompile_after_disk_rejection_at uuid' tileiras store key bytecode gpu_name opts w with
              | (Ok cubin, w) => (load cubin, w)
              | (Err e, w) => (Err e, w)
              | (Panic, w) => (Panic, w)
              end
          | FromTileiras => (Err e, w)
          end
      | Panic => (Panic, w)
      end
  | (Err e, w) => (Err e, w)
  | (Panic, w) => (Panic, w)
  end.

End Backend.

(** ** What a trustworthy store promises *)

(** A value read was put under that key before; nothing appears by reading,
    deleting or by a put of something else.  A store may lose values and fail
    at any time.  A value is a [Vec], so its length fits an [isize]. *)
Class TrustedStore (S : Type) `{JitStore S} := {
  may_hold : S -> string -> list Z -> Prop;
  trusted_get k s r s' : store_get k s = (r, s') ->
    (forall k' v, may_hold s' k' v -> may_hold s k' v) /\
    (forall v, r = inl (Some v) -> may_hold s k v /\ zlen v <= ISIZE_MAX);
  trusted_put k v s r s' : store_put k v s = (r, s') ->
    forall k' v', may_hold s' k' v' -> may_hold s k' v' \/ (k' = k /\ v' = v);
  trusted_delete k s r s' : store_delete k s = (r, s') -> forall k' v, may_hold s' k' v -> may_hold s k' v;
}.

(** ** Histories of a process *)

Inductive Event :=
| Enable (store : nat)
| Disable
| Compile (uuid tileiras : string) (bytecode : list Z) (bc_version : BytecodeVersion) (gpu_name : string) (opts : TileirasOptions)
| Reject (uuid tileiras : string) (store : nat) (key : string) (bytecode : list Z) (gpu_name : string) (opts : TileirasOptions).

Section History.
Context {S : Type} `{JitStore S} (sha256 : list Z -> list Z) (os : Os).

(** The requests of a history with their results, in order. *)
Fixpoint run_events (evs : list Event) (w : World S) : list (Request * outcome JITError (list Z * Stage2Source)) * World S :=
  match evs with
  | [] => ([], w)
  | Enable i :: evs => run_events evs (enable i w)
  | Disable :: evs => run_events evs (disable w)
  | Compile uuid tileiras bc v gpu opts :: evs =>
      let q := mkRequest bc v gpu opts (fingerprint_of os tileiras w).1 in
      let '(r, w) := compile_bytecode_cached_at sha256 os uuid tileiras bc v gpu opts w in
      let '(out, w) := run_events evs w in ((q, r) :: out, w)
  | Reject uuid tileiras i key bc gpu opts :: evs =>
      run_events evs (recompile_after_disk_rejection_at os uuid tileiras i key bc gpu opts w).2
  end.

(** [c] is what a compiler with the request's fingerprint wrote for it. *)
Definition produced (q : Request) (c : list Z) : Prop :=
  exists uuid tileiras (w w' : World S), (fingerprint_of os tileiras w).1 = q_tileiras_fp q /\
    run_tileiras_at os uuid tileiras (q_bc q) (q_gpu_name q) (q_opts q) w = (Ok c, w').

Definition request_key (q : Request) : string :=
  l2_key sha256 (q_bc q) (q_bc_version q) (q_gpu_name q) (q_opts q) (q_tileiras_fp q).
Definition request_params (q : Request) : EntryParams :=
  entry_params sha256 (q_bc q) (q_gpu_name q) (q_opts q) (q_tileiras_fp q).

(** Two requests of the list whose key inputs differ and hash alike. *)
Definition collision (qs : list Request) : Prop :=
  exists q q', q ∈ qs /\ q' ∈ qs /\ l2_preimage q <> l2_preimage q' /\ sha256 (l2_preimage q) = sha256 (l2_preimage q').

Definition cache_inv `{!TrustedStore S} (known : list Request) (w : World S) : Prop :=
  forall i k v, may_hold (stores w i) k v ->
    exists q c, q ∈ known /\ k = request_key q /\ encode_entry sha256 (request_params q) c = Some v /\ produced q c.

End History.

(** ** Lemmas: running the compiler *)

Section Lemmas.
Context {S : Type} `{JitStore S} (sha256 : list Z -> list Z) (os : Os).

(** Running [tileiras] touches the files and the count of compiles only. *)
Lemma run_frame uuid tileiras bc gpu opts (w w' : World S) r :
  run_tileiras_at os uuid tileiras bc gpu opts w = (r, w') ->
  stores w' = stores w /\ STORE w' = STORE w /\ fingerprints w' = fingerprints w /\ STATS w' = STATS w /\
  BACKEND_COMPILES w' = match r with Ok _ => as_u64 (BACKEND_COMPILES w + 1) | _ => BACKEND_COMPILES w end /\
  r <> Panic.
Proof. unfold run_tileiras_at. intros Hr. repeat case_match; simplify_eq/=; done. Qed.

(** Its result is a function of the files. *)
Lemma run_disk uuid tileiras bc gpu opts (w w' : World S) : disk w = disk w' ->
  (run_tileiras_at os uuid tileiras bc gpu opts w).1 = (run_tileiras_at os uuid tileiras bc gpu opts w').1.
Proof.
  intros E. unfold run_tileiras_at. rewrite E. destruct (fs_write _ _ _) as [[] d]; [|done].
  destruct (spawn _ _ _ _) as [[[] ? ? ?|?] f]; try done. cbn [disk set_disk]. by destruct (fs_read _ _) as [[]|].
Qed.

Lemma fingerprint_frame tileiras (w w' : World S) fp : fingerprint_of os tileiras w = (fp, w') ->
  disk w' = disk w /\ stores w' = stores w /\ STORE w' = STORE w /\ STATS w' = STATS w /\
  BACKEND_COMPILES w' = BACKEND_COMPILES w.
Proof. unfold fingerprint_of. intros Hf. case_match; by simplify_eq/=. Qed.

Lemma consult_frame i key params (w w' : World S) r : consult sha256 i key params w = (r, w') ->
  disk w' = disk w /\ STORE w' = STORE w /\ fingerprints w' = fingerprints w /\ BACKEND_COMPILES w' = BACKEND_COMPILES w /\
  hits (STATS w') = (if r then as_u64 (hits (STATS w) + 1) else hits (STATS w)) /\
  misses (STATS w') = misses (STATS w).
Proof. unfold consult, soft. intros Hc. repeat case_match; by simplify_eq/=. Qed.

Lemma save_frame i key params c (w : World S) :
  disk (save sha256 i key params c w) = disk w /\ BACKEND_COMPILES (save sha256 i key params c w) = BACKEND_COMPILES w /\
  hits (STATS (save sha256 i key params c w)) = hits (STATS w) /\
  misses (STATS (save sha256 i key params c w)) = misses (STATS w).
Proof. unfold save. repeat case_match; by simplify_eq/=. Qed.

(** A compile is a hit, which touches no file, or exactly a direct one. *)
Lemma compile_cached_cases uuid tileiras bc v gpu opts (w w' : World S) r :
  compile_bytecode_cached_at sha256 os uuid tileiras bc v gpu opts w = (r, w') ->
  (exists i key c, r = Ok (c, DiskCache i key) /\ STORE w = Some i /\ disk w' = disk w /\
     hits (STATS w') = as_u64 (hits (STATS w) + 1) /\ BACKEND_COMPILES w' = BACKEND_COMPILES w) \/
  (r = (c ← (run_tileiras_at os uuid tileiras bc gpu opts w).1; Ok (c, FromTileiras)) /\
     hits (STATS w') = hits (STATS w) /\
     BACKEND_COMPILES w' = match r with Ok _ => as_u64 (BACKEND_COMPILES w + 1) | _ => BACKEND_COMPILES w end).
Proof.
  unfold compile_bytecode_cached_at. destruct (STORE w) as [i|] eqn:Es.
  - destruct (fingerprint_of os tileiras w) as [fp w1] eqn:Ef.
    destruct (fingerprint_frame _ _ _ _ Ef) as (Hd1 & _ & Hs1 & Hst1 & Hb1).
    destruct (consult _ _ _ _ _) as [[c|] w2] eqn:Ec;
      destruct (consult_frame _ _ _ _ _ _ Ec) as (Hd2 & Hs2 & _ & Hb2 & Hh2 & _).
    + intros [= <- <-]. left. exists i, (l2_key sha256 bc v gpu opts fp), c. repeat split; congruence.
    + destruct (run_tileiras_at _ _ _ _ _ _ _) as [r3 w3] eqn:Er.
      destruct (run_frame _ _ _ _ _ _ _ _ Er) as (_ & _ & _ & Hst3 & Hb3 & _).
      rewrite (run_disk uuid tileiras bc gpu opts w (count add_miss w2)) by (cbn; congruence). rewrite Er.
      intros Hr. right. destruct r3 as [c| |]; simplify_eq/=; [|rewrite Hst3; cbn; repeat split; congruence..].
      destruct (save_frame i (l2_key sha256 bc v gpu opts fp) (entry_params sha256 bc gpu opts fp) c w3)
        as (_ & -> & -> & _). rewrite Hst3, Hb3. cbn. repeat split; congruence.
  - destruct (run_tileiras_at _ _ _ _ _ _ _) as [r3 w3] eqn:Er.
    destruct (run_frame _ _ _ _ _ _ _ _ Er) as (_ & _ & _ & Hst3 & Hb3 & _).
    intros [= <- <-]. right. rewrite Hst3, Hb3. by destruct r3.
Qed.

End Lemmas.

(** ** The cache never fails a launch *)


(** ** Lemmas: what a trusted store can hold *)

Section Trusted.
Context {S : Type} `{TrustedStore S} (sha256 : list Z -> list Z) (os : Os).

(** Every value of the second world's stores is one of the first's. *)
Definition held_before (w w' : World S) : Prop :=
  forall i k v, may_hold (stores w' i) k v -> may_hold (stores w i) k v.

#[local] Instance held_before_preorder : PreOrder held_before.
Proof. split; [by intros w i k v|]. intros w1 w2 w3 H12 H23 i k v Hv. by apply H12, H23. Qed.

Lemma held_before_stores w w' : stores w' = stores w -> held_before w w'.
Proof. intros E i k v. by rewrite E. Qed.

Lemma held_before_set i s w : (forall k v, may_hold s k v -> may_hold (stores w i) k v) -> held_before w (set_store i s w).
Proof. intros Hs j k v. cbn. destruct (Nat.eqb_spec i j) as [->|]; auto. Qed.

Lemma consult_held i key params w r w' : consult sha256 i key params w = (r, w') ->
  held_before w w' /\
  forall c, r = Some c -> exists v, may_hold (stores w i) key v /\ zlen v <= ISIZE_MAX /\ decode_entry sha256 v params = Some c.
Proof.
  unfold consult. destruct (store_get key (stores w i)) as [g s] eqn:Eg.
  destruct (trusted_get _ _ _ _ Eg) as [Hold Hval].
  assert (Hs : held_before w (set_store i s w)) by (apply held_before_set; auto).
  destruct g as [[entry|]|e].
  - destruct (Hval entry eq_refl) as [Hm Hl]. destruct (decode_entry sha256 entry params) as [c|] eqn:Ed.
    + intros [= <- <-]. split; [done|]. intros c' [= <-]. eauto.
    + destruct (store_delete key _) as [rd s'] eqn:Edel. intros [= <- <-]. split; [|done].
      transitivity (set_store i s w); [done|]. transitivity (set_store i s' (set_store i s w)).
      * apply held_before_set. intros k v. apply (trusted_delete _ _ _ _ Edel).
      * apply held_before_stores. by destruct rd.
  - intros [= <- <-]. done.
  - intros [= <- <-]. done.
Qed.

Lemma save_held i key params c w j k v : may_hold (stores (save sha256 i key params c w) j) k v ->
  may_hold (stores w j) k v \/ (k = key /\ encode_entry sha256 params c = Some v).
Proof.
  unfold save. destruct (encode_entry sha256 params c) as [entry|] eqn:Ee; [|by left].
  destruct (store_put key entry (stores w i)) as [r s] eqn:Ep.
  assert (Hm : may_hold (stores (set_store i s w) j) k v -> may_hold (stores w j) k v \/ (k = key /\ Some entry = Some v)).
  { cbn. destruct (Nat.eqb_spec i j) as [->|]; [|by left].
    intros Hv. destruct (trusted_put _ _ _ _ _ Ep _ _ Hv) as [?|[-> ->]]; auto. }
  by destruct r.
Qed.

Lemma reject_held uuid tileiras i key bc gpu opts w :
  held_before w (recompile_after_disk_rejection_at os uuid tileiras i key bc gpu opts w).2.
Proof.
  unfold recompile_after_disk_rejection_at. destruct (store_delete key _) as [rd s] eqn:Ed.
  destruct (run_tileiras_at _ _ _ _ _ _ _) as [r w'] eqn:Er.
  destruct (run_frame os _ _ _ _ _ _ _ _ Er) as (Hs & _). cbn.
  transitivity (set_store i s w).
  - apply held_before_set. intros k v. apply (trusted_delete _ _ _ _ Ed).
  - apply held_before_stores. rewrite Hs. by destruct rd.
Qed.

Lemma cache_inv_held known w w' : held_before w w' -> cache_inv sha256 os known w -> cache_inv sha256 os known w'.
Proof. intros Hh Hi i k v Hv. apply (Hi i k v), Hh, Hv. Qed.

Lemma cache_inv_more q known w : cache_inv sha256 os known w -> cache_inv sha256 os (q :: known) w.
Proof. intros Hi i k v Hv. destruct (Hi i k v Hv) as (q' & c & Hq & ?). exists q', c. split; [by right|done]. Qed.

Context (Hsha : forall m, length (sha256 m) = 32%nat /\ Forall byte_ok (sha256 m)).

(** A validated value of the store is what was stored for this request. *)
Lemma hit_is_own known q c v : Forall request_ok (q :: known) ->
  (exists q' c', q' ∈ known /\ request_key sha256 q = request_key sha256 q' /\
     encode_entry sha256 (request_params sha256 q') c' = Some v /\ produced (S:=S) os q' c') ->
  zlen v <= ISIZE_MAX -> decode_entry sha256 v (request_params sha256 q) = Some c ->
  produced (S:=S) os q c \/ collision sha256 (q :: known).
Proof.
  intros Hok (q' & c' & Hq' & Hk & He & Hp) Hl Hd.
  apply Forall_cons in Hok as [Hq Hok]. rewrite Forall_forall in Hok.
  unfold request_key, l2_key in Hk. apply hex_inj in Hk; [|apply Hsha..].
  assert (Eta : forall r, mkRequest (q_bc r) (q_bc_version r) (q_gpu_name r) (q_opts r) (q_tileiras_fp r) = r)
    by (by intros []). rewrite !Eta in Hk.
  destruct (decide (l2_preimage q = l2_preimage q')) as [E|E].
  - left. apply l2_preimage_inj in E as <-; [|done|by apply Hok].
    destruct (decide (encodable (request_params sha256 q))) as [Henc|Henc];
      [|by rewrite encode_entry_too_long in He].
    rewrite encode_entry_layout in He by done. injection He as <-.
    rewrite decode_entry_layout in Hd; try done; [by injection Hd as <-|intros; apply Hsha|apply Hsha|int_lia].
  - right. exists q, q'. split; [by left|]. split; [by right|done].
Qed.

Lemma fingerprint_stable tileiras (w w1 w2 : World S) fp : fingerprint_of os tileiras w = (fp, w1) ->
  fingerprints w2 = fingerprints w1 -> (fingerprint_of os tileiras w2).1 = fp.
Proof.
  unfold fingerprint_of. intros Hf ->. destruct (fingerprints w !! _) as [fp'|] eqn:E; simplify_eq/=; [by rewrite E|].
  by rewrite lookup_insert_eq.
Qed.

Lemma collision_mono qs qs' : qs ⊆ qs' -> collision sha256 qs -> collision sha256 qs'.
Proof. intros Hs (q & q' & Hq & Hq' & ?). exists q, q'. auto. Qed.

Lemma compile_step known uuid tileiras bc v gpu opts (w w' : World S) r :
  let q := mkRequest bc v gpu opts (fingerprint_of os tileiras w).1 in
  cache_inv sha256 os known w -> Forall request_ok (q :: known) ->
  compile_bytecode_cached_at sha256 os uuid tileiras bc v gpu opts w = (r, w') ->
  cache_inv sha256 os (q :: known) w' /\
  ((forall c src, r = Ok (c, src) -> produced (S:=S) os q c) \/ collision sha256 (q :: known)).
Proof.
  intros q Hinv Hok. unfold compile_bytecode_cached_at. destruct (STORE w) as [i|] eqn:Es.
  - destruct (fingerprint_of os tileiras w) as [fp w1] eqn:Ef. cbn in q.
    destruct (fingerprint_frame os _ _ _ _ Ef) as (_ & Hst1 & _).
    assert (Hinv1 : cache_inv sha256 os known w1) by (eapply cache_inv_held; [|done]; by apply held_before_stores).
    destruct (consult _ _ _ _ _) as [[c|] w2] eqn:Ec; destruct (consult_held _ _ _ _ _ _ Ec) as [Hh2 Hv2];
      destruct (consult_frame sha256 _ _ _ _ _ _ Ec) as (_ & _ & Hf2 & _);
      assert (Hinv2 : cache_inv sha256 os known w2) by (by eapply cache_inv_held).
    + intros [= <- <-]. split; [by apply cache_inv_more|]. destruct (Hv2 c eq_refl) as (e & He & Hl & Hd).
      destruct (hit_is_own known q c e) as [Hp|Hc]; try done; [|left; by intros ? ? [= <- <-]|by right].
      destruct (Hinv1 i _ e He) as (q' & c' & ? & ? & ?). by exists q', c'.
    + destruct (run_tileiras_at _ _ _ _ _ _ _) as [r3 w3] eqn:Er.
      destruct (run_frame os _ _ _ _ _ _ _ _ Er) as (Hst3 & _).
      assert (Hinv3 : cache_inv sha256 os known w3)
        by (eapply cache_inv_held; [|exact Hinv2]; by apply held_before_stores).
      assert (Hp : forall c, r3 = Ok c -> produced (S:=S) os q c).
      { intros c ->. exists uuid, tileiras, (count add_miss w2), w3. split; [|done].
        by apply (fingerprint_stable _ _ _ _ _ Ef). }
      destruct r3 as [c| |]; intros [= <- <-]; (split; [|left; intros c0 src Hr; first [discriminate Hr|injection Hr as <- <-; by apply Hp]]);
        [|by apply cache_inv_more..].
      intros j k e He. apply save_held in He as [He|[-> He]].
      * by apply (cache_inv_more q known w3 Hinv3 j k e).
      * exists q, c. split; [by left|]. auto.
  - destruct (run_tileiras_at _ _ _ _ _ _ _) as [r3 w3] eqn:Er.
    destruct (run_frame os _ _ _ _ _ _ _ _ Er) as (Hst3 & _).
    intros [= <- <-]. split.
    + apply cache_inv_more. eapply cache_inv_held; [|exact Hinv]. by apply held_before_stores.
    + left. intros c src Hc. destruct r3 as [c3| |]; [|done..]. injection Hc as <- <-. by exists uuid, tileiras, w, w3.
Qed.

Lemma run_events_own evs : forall known (w w' : World S) out,
  run_events sha256 os evs w = (out, w') -> cache_inv sha256 os known w -> Forall request_ok (known ++ out.*1) ->
  Forall (fun '(q, r) => forall c src, r = Ok (c, src) -> produced (S:=S) os q c) out \/ collision sha256 (known ++ out.*1).
Proof.
  induction evs as [|ev evs IH]; intros known w w' out; cbn [run_events].
  { intros [= <- <-] _ _. by left. }
  destruct ev as [i| |uuid tileiras bc v gpu opts|uuid tileiras i key bc gpu opts].
  1, 2: intros Hr Hinv; apply (IH _ _ _ _ Hr), (cache_inv_held _ w); [by apply held_before_stores|done].
  2: { intros Hr Hinv. apply (IH _ _ _ _ Hr), (cache_inv_held _ w); [apply reject_held|done]. }
  destruct (compile_bytecode_cached_at _ _ _ _ _ _ _ _ _) as [r w1] eqn:Ec.
  destruct (run_events sha256 os evs w1) as [out1 w2] eqn:Er. intros [= <- <-] Hinv Hok. cbn [fmap list_fmap fst] in *.
  set (q := mkRequest bc v gpu opts (fingerprint_of os tileiras w).1) in *.
  assert (Hok' : Forall request_ok ((q :: known) ++ out1.*1)).
  { apply Forall_app in Hok as [? [? ?]%Forall_cons]. cbn. constructor; [done|]. by apply Forall_app. }
  destruct (compile_step known uuid tileiras bc v gpu opts w w1 r) as [Hinv1 Hown]; try done.
  { by apply Forall_app in Hok' as [? _]. }
  assert (Hsub : (q :: known) ++ out1.*1 ⊆ known ++ q :: out1.*1) by set_solver.
  destruct (IH _ _ _ _ Er Hinv1 Hok') as [Hf|Hc]; [|right; by eapply collision_mono].
  destruct Hown as [Hp|Hc]; [left; by constructor|]. right. eapply collision_mono; [|exact Hc]. set_solver.
Qed.

End Trusted.

(** ** The cache serves only what the compiler wrote *)


(** ** Temporary files *)

Definition bc_path (os : Os) (uuid : string) : string := (temp_dir os +:+ "/" +:+ uuid) +:+ ".bc".
Definition cubin_path (os : Os) (uuid : string) : string := (temp_dir os +:+ "/" +:+ uuid) +:+ ".cubin".

Lemma temp_paths_differ os uuid : bc_path os uuid <> cubin_path os uuid.
Proof.
  unfold bc_path, cubin_path. generalize (temp_dir os +:+ "/" +:+ uuid). intros base.
  induction base as [|c base IH]; [done|]. rewrite !sapp_cons. intros [= E]. done.
Qed.

(** Compiling leaves no temporary file behind: after the call the files of
    the temporary directory are those before it, whether the bytecode could not
    be written, the output could not be read or the compile succeeded — except
    that when [tileiras] cannot be launched or exits with an error, the bytecode
    its message names stays, with the contents it was given. *)
Lemma temporaries_removed {S : Type} (os : Os) (uuid tileiras : string) (bc : list Z) (gpu : string)
    (opts : TileirasOptions) (w : World S)
    (Hspawn : forall f, delete (cubin_path os uuid)
       (spawn os tileiras (tileiras_args gpu opts (cubin_path os uuid) (bc_path os uuid)) f).2 = delete (cubin_path os uuid) f)
    (Hremove : remove_fault (disk w) (bc_path os uuid) = false /\ remove_fault (disk w) (cubin_path os uuid) = false)
    (Hfresh : files (disk w) !! bc_path os uuid = None /\ files (disk w) !! cubin_path os uuid = None) :
  let '(r, w') := run_tileiras_at os uuid tileiras bc gpu opts w in
  let args := tileiras_args gpu opts (cubin_path os uuid) (bc_path os uuid) in
  let ran := (spawn os tileiras args (<[bc_path os uuid := bc]> (files (disk w)))).1 in
  files (disk w') =
    match write_fault (disk w) (bc_path os uuid), ran with
    | None, Exited false _ _ _ | None, NotLaunched _ => <[bc_path os uuid := bc]> (files (disk w))
    | _, _ => files (disk w)
    end /\
  (files (disk w') <> files (disk w) -> exists message, r = Err (Generic message)).
Proof.
  unfold run_tileiras_at, fs_write. fold (bc_path os uuid) (cubin_path os uuid).
  destruct Hremove as [Rb Rc], Hfresh as [Fb Fc]. pose proof (temp_paths_differ os uuid) as Hne.
  set (b := bc_path os uuid) in *. set (o := cubin_path os uuid) in *.
  assert (Hclean : forall x, delete b (delete o (<[b := x]> (files (disk w)))) = files (disk w)).
  { intros x. rewrite delete_insert_ne by congruence. by rewrite (delete_id _ o), delete_insert_id. }
  destruct (write_fault (disk w) b) as [[e [part|]]|].
  - cbn. unfold fs_remove. cbn. rewrite Rc. cbn. rewrite Rb. cbn. by rewrite Hclean.
  - cbn. unfold fs_remove. rewrite Rc. cbn. rewrite Rb. cbn. by rewrite (delete_id _ o), delete_id.
  - cbn [files set_files disk]. specialize (Hspawn (<[b := bc]> (files (disk w)))).
    destruct (spawn _ _ _ _) as [res f]. cbn [fst snd] in *.
    assert (Hkept : delete o f = <[b := bc]> (files (disk w))).
    { rewrite Hspawn, delete_insert_ne by congruence. by rewrite delete_id. }
    destruct res as [[] status out err|e].
    2, 3: cbn; unfold fs_remove; cbn; rewrite Rc; cbn; split; [done|]; intros _; eauto.
    assert (Hd : delete b (delete o f) = files (disk w)) by (by rewrite Hkept, delete_insert_id).
    destruct (fs_read _ _) as [[|x cubin]|e]; cbn; unfold fs_remove; cbn; rewrite Rc; cbn; rewrite Rb; cbn; by rewrite Hd.
Qed.

(** ** A store in memory, and the theorems on it *)

(** A store that refuses values no vector can hold. *)
Notation MemStore := (gmap string (list Z)).

#[export] Instance mem_store : JitStore MemStore := {|
  store_get k s := (match s !! k with
                    | Some v => if zlen v <=? ISIZE_MAX then inl (Some v) else inr "capacity overflow"
                    | None => inl None
                    end, s);
  store_put k v s := (inl tt, <[k := v]> s);
  store_delete k s := (inl tt, delete k s);
|}.

#[export, refine] Instance mem_store_trusted : TrustedStore MemStore := {| may_hold s k v := s !! k = Some v |}.
Proof.
  - intros k s r s' [= <- <-]. split; [done|]. intros v. destruct (s !! k) as [v'|]; [|done].
    destruct (Z.leb_spec (zlen v') ISIZE_MAX); [|done]. by intros [= <-].
  - intros k v s r s' [= <- <-] k' v'. destruct (decide (k = k')) as [<-|Hne].
    + rewrite lookup_insert_eq. intros [= <-]. by right.
    + rewrite lookup_insert_ne by done. by left.
  - intros k s r s' [= <- <-] k' v. destruct (decide (k = k')) as [<-|Hne].
    + by rewrite lookup_delete_eq.
    + by rewrite lookup_delete_ne.
Defined.

(** A compiler that prefixes its input with a byte. *)
Definition sample_spawn (program : string) (args : list string) (f : gmap string (list Z)) : SpawnResult * gmap string (list Z) :=
  match reverse args with
  | bc :: out :: _ => (Exited true "exit status: 0" EmptyString EmptyString, <[out := 77 :: default [] (f !! bc)]> f)
  | _ => (NotLaunched "no arguments", f)
  end.

Definition sample_os : Os :=
  mkOs sample_spawn (fun _ => Exited true "exit status: 0" "tileiras 13.2" EmptyString) Some (fun _ => Some (5, 9)) "/tmp" (fun _ => None).

Definition sample_disk : Disk := mkDisk ∅ (fun _ => None) (fun _ => None) (fun _ => false).

Definition sample_world : World MemStore := mkWorld sample_disk (fun _ => ∅) (Some 0%nat) ∅ no_stats 0.

Definition sample_opts : TileirasOptions := mkTileirasOptions 3 false false false.

Definition sample_load (c : list Z) : outcome JITError Z := match c with 77 :: _ => Ok (zlen c) | _ => Err (Generic "invalid image") end.


Definition sample_events : list Event :=
  [Compile "u" "tileiras" [1; 2] V13_2 "sm_90" sample_opts; Compile "v" "tileiras" [1; 2] V13_2 "sm_90" sample_opts;
   Compile "x" "tileiras" [1; 2] V13_2 "sm_100" sample_opts].

(** The second compile of the sample history is served by the store. *)
Example sample_history_hits :
  (snd <$> (run_events toy_hash sample_os sample_events sample_world).1) =
    [Ok ([77; 1; 2], FromTileiras);
     Ok ([77; 1; 2], DiskCache 0 (l2_key toy_hash [1; 2] V13_2 "sm_90" sample_opts "tileiras 13.2"));
     Ok ([77; 1; 2], FromTileiras)].
Proof. vm_compute. reflexivity. Qed.


Lemma temporaries_removed_witness :
  files (disk (run_tileiras_at sample_os "u" "tileiras" [1; 2] "sm_90" sample_opts sample_world).2) = ∅.
Proof.
  pose proof (temporaries_removed sample_os "u" "tileiras" [1; 2] "sm_90" sample_opts sample_world) as T.
  destruct (run_tileiras_at _ _ _ _ _ _ _) as [r w']. destruct T as [T _].
  - intros f. change (spawn sample_os) with sample_spawn. unfold sample_spawn. cbn [reverse rev_append tileiras_args app].
    cbn. apply delete_insert_eq.
  - split; reflexivity.
  - split; reflexivity.
  - cbn [snd]. rewrite T. vm_compute. reflexivity.
Defined.
