(* ===== verification/Toolchain.v ===== *)
(** * Choosing the assembler and the bytecode version

    cutile-ir/src/toolchain.rs and the discovery half of
    cutile-compiler/src/cuda_tile_runtime_utils.rs: which [tileiras] the
    environment selects, and the newest bytecode version that both the writer
    and that executable accept.  The answers of the file system and of the
    executable are parameters; a probe image is its encoding at a version. *)

From Stdlib Require Import Ascii.
From S2P Require Import Prelude Enums Text Backend.
Local Open Scope string_scope.
Local Open Scope list_scope.
Local Open Scope Z_scope.

(** ** Versions as text *)

(** [text.trim().split('.')] and the parsing of two or three parts. *)
Definition parse_bytecode_version (text : string) : option BytecodeVersion :=
  match str_split (fun c => bool_decide (c = "."%char)) (trim text) with
  | [major; minor] =>
      major ← parse_uint 255 (trim major); minor ← parse_uint 255 (trim minor); Some (mkVersion major minor 0)
  | [major; minor; tag] =>
      major ← parse_uint 255 (trim major); minor ← parse_uint 255 (trim minor); tag ← parse_uint 65535 (trim tag);
      Some (mkVersion major minor tag)
  | _ => None
  end.

(** ** Negotiation *)

(** What running the probe image of a version gave. [code] is absent when a
    signal ended the program. *)
Inductive ProbeAnswer :=
| NotEncoded (error : string)
| NotWritten (bc_filename error : string)
| NotStarted (error : string)
| Ran (code : option Z) (status command stderr : string).

Definition versions_text (vs : list BytecodeVersion) : string := join ", " (show_version <$> vs).

Section Negotiation.
(** [listing] is the run of [--list-versions], [probe] that of an image. *)
Context (tileiras tmp_dir : string) (listing : SpawnResult) (probe : BytecodeVersion -> ProbeAnswer).

Fixpoint probe_bytecode_versions (last_rejection : string) (versions : list BytecodeVersion) : outcome string BytecodeVersion :=
  match versions with
  | [] => Err (tileiras +:+ " accepts none of the bytecode versions this compiler can emit (" +:+ versions_text SUPPORTED +:+ ")." +:+ nl
            +:+ "last rejection (" +:+ last_rejection +:+ ")" +:+ nl
            +:+ "hint: cuTile requires CUDA 13.2+; set CUDA_TOOLKIT_PATH/CUDA_HOME or "
            +:+ "CUTILE_TILEIRAS_PATH to a matching toolkit, or force a version with CUTILE_BYTECODE_VERSION.")
  | version :: versions =>
      match probe version with
      | NotEncoded e => Err ("internal: the bytecode-version probe module does not encode at " +:+ show_version version +:+ ": " +:+ e)
      | NotWritten bc_filename e =>
          Err ("cannot write the bytecode-version probe to " +:+ bc_filename +:+ ": " +:+ e
               +:+ " (the temporary directory " +:+ tmp_dir +:+ " must be writable to run tileiras)")
      | NotStarted e => Err ("failed to launch tileiras " +:+ tileiras +:+ ": " +:+ e)
      | Ran (Some 0) _ _ _ => Ok version
      | Ran None status command stderr =>
          Err (tileiras +:+ " crashed (" +:+ status +:+ ") while probing bytecode version " +:+ show_version version +:+ "." +:+ nl
               +:+ "command: " +:+ command +:+ nl +:+ "stderr:" +:+ nl +:+ stderr)
      | Ran (Some _) _ _ stderr => probe_bytecode_versions (show_version version +:+ ": " +:+ trim stderr) versions
      end
  end.

(** The requested version, checked against the writer. *)
Definition parse_request (requested : option string) : outcome string (option BytecodeVersion) :=
  match requested with
  | None => Ok None
  | Some text =>
      match parse_bytecode_version text with
      | None => Err ("invalid CUTILE_BYTECODE_VERSION=" +:+ text +:+ ": expected major.minor[.tag]")
      | Some version =>
          if bool_decide (version ∈ SUPPORTED) then Ok (Some version)
          else Err ("CUTILE_BYTECODE_VERSION=" +:+ show_version version +:+ " is not supported by the cutile-ir writer")
      end
  end.

(** The versions the executable lists, if it lists any and nothing else. *)
Definition listed_versions : option (list BytecodeVersion) :=
  match listing with
  | Exited true _ stdout _ =>
      versions ← mapM parse_bytecode_version (filter (fun s => trim s <> EmptyString) (lines stdout));
      match versions with [] => None | _ => Some versions end
  | _ => None
  end.

Definition negotiate_bytecode_version (requested : option string) : outcome string BytecodeVersion :=
  requested ← parse_request requested;
  match listed_versions with
  | Some versions =>
      match requested with
      | Some version =>
          if bool_decide (version ∈ versions) then Ok version
          else Err ("CUTILE_BYTECODE_VERSION=" +:+ show_version version +:+ " is not accepted by " +:+ tileiras
                    +:+ " (supports " +:+ versions_text versions +:+ ")")
      | None =>
          match List.find (fun v => bool_decide (v ∈ versions)) (reverse SUPPORTED) with
          | Some v => Ok v
          | None => Err (tileiras +:+ " accepts none of the bytecode versions this compiler can emit; cuTile requires CUDA 13.2 or newer (assembler supports "
                         +:+ versions_text versions +:+ ")")
          end
      end
  | None => probe_bytecode_versions EmptyString (match requested with Some version => [version] | None => reverse SUPPORTED end)
  end.

(** The executable accepts a version: it lists it, or lists nothing and ran the
    probe image to success. *)
Definition accepts (v : BytecodeVersion) : Prop :=
  match listed_versions with
  | Some versions => v ∈ versions
  | None => exists status command stderr, probe v = Ran (Some 0) status command stderr
  end.

(** It refuses a version by its own judgement, not by a failure to run. *)
Definition refuses (v : BytecodeVersion) : Prop :=
  match listed_versions with
  | Some versions => v ∉ versions
  | None => exists code status command stderr, code <> 0 /\ probe v = Ran (Some code) status command stderr
  end.

Lemma probe_bytecode_versions_spec last vs v : probe_bytecode_versions last vs = Ok v ->
  exists pre post, vs = pre ++ v :: post /\ (exists status command stderr, probe v = Ran (Some 0) status command stderr) /\
    Forall (fun u => exists code status command stderr, code <> 0 /\ probe u = Ran (Some code) status command stderr) pre.
Proof.
  revert last. induction vs as [|u vs IH]; intros last; cbn; [done|].
  destruct (probe u) as [e|f e|e|[code|] status command stderr] eqn:Ep; try done.
  destruct (decide (code = 0)) as [->|Hc].
  { intros [= <-]. exists [], vs. split; [done|]. split; [eauto|constructor]. }
  assert (probe_bytecode_versions (show_version u +:+ ": " +:+ trim stderr) vs = Ok v -> exists pre post,
    u :: vs = pre ++ v :: post /\ (exists status command stderr, probe v = Ran (Some 0) status command stderr) /\
    Forall (fun u => exists code status command stderr, code <> 0 /\ probe u = Ran (Some code) status command stderr) pre).
  { intros (pre & post & -> & Hv & Hp)%IH. exists (u :: pre), post. split; [done|]. split; [done|].
    constructor; [|done]. by exists code, status, command, stderr. }
  destruct code; done.
Qed.

End Negotiation.

Lemma find_first {A} (f : A -> bool) l v : List.find f l = Some v ->
  exists pre post, l = pre ++ v :: post /\ f v = true /\ Forall (fun u => f u = false) pre.
Proof.
  induction l as [|u l IH]; cbn; [done|]. destruct (f u) eqn:Ef.
  - intros [= <-]. exists [], l. by split.
  - intros (pre & post & -> & Hv & Hp)%IH. exists (u :: pre), post. split; [done|]. split; [done|]. by constructor.
Qed.

(** In the order they are tried, a newer version comes before. *)
Lemma newer_before v u pre post : reverse SUPPORTED = pre ++ v :: post -> u ∈ SUPPORTED -> version_lt v u = true -> u ∈ pre.
Proof.
  change (reverse SUPPORTED) with [V13_4; V13_3; V13_2]. intros E Hu Hlt.
  assert (Hin : u ∈ pre \/ u ∈ v :: post) by (rewrite <- elem_of_app, <- E; set_solver).
  destruct Hin as [Hin|Hin]; [done|]. exfalso.
  destruct pre as [|a [|b [|c pre]]]; cbn in E; simplify_eq;
    repeat (apply elem_of_cons in Hin as [->|Hin]; [done|]); try by apply elem_of_nil in Hin.
  destruct pre; discriminate.
Qed.

Lemma parse_request_spec requested r : parse_request requested = Ok r ->
  match requested with
  | None => r = None
  | Some text => exists v, r = Some v /\ parse_bytecode_version text = Some v /\ v ∈ SUPPORTED
  end.
Proof.
  destruct requested as [text|]; cbn; [|by intros [= <-]].
  destruct (parse_bytecode_version text) as [v|]; [|done]. case_bool_decide; [|done]. intros [= <-]. eauto.
Qed.

(** C34: a negotiated version is one the writer emits and the executable accepts; it
    is the requested one, if one is requested, and otherwise the newest: every
    newer one the writer emits was refused by the executable itself. *)
Theorem negotiated_version_accepted (tileiras tmp_dir : string) (listing : SpawnResult) (probe : BytecodeVersion -> ProbeAnswer)
    (requested : option string) (v : BytecodeVersion)
    (H : negotiate_bytecode_version tileiras tmp_dir listing probe requested = Ok v) :
  v ∈ SUPPORTED /\ accepts listing probe v /\
  match requested with
  | Some text => parse_bytecode_version text = Some v
  | None => forall u, u ∈ SUPPORTED -> version_lt v u = true -> refuses listing probe u
  end.
Proof.
  unfold negotiate_bytecode_version in H. apply bind_Ok in H as (r & Hr & H). apply parse_request_spec in Hr.
  unfold accepts, refuses. destruct (listed_versions listing) as [versions|].
  - destruct requested as [text|].
    + destruct Hr as (v' & -> & Ht & Hs). case_bool_decide; [|done]. injection H as <-. done.
    + subst r. destruct (List.find _ _) as [v'|] eqn:Ef; [|done]. injection H as ->.
      apply find_first in Ef as (pre & post & E & Hv & Hp). apply bool_decide_eq_true in Hv.
      split; [|split; [done|]].
      * apply elem_of_reverse. rewrite E. set_solver.
      * intros u Hu Hlt. pose proof (newer_before _ _ _ _ E Hu Hlt) as Hin.
        rewrite Forall_forall in Hp. by apply Hp, bool_decide_eq_false in Hin.
  - destruct requested as [text|].
    + destruct Hr as (v' & -> & Ht & Hs). apply probe_bytecode_versions_spec in H as (pre & post & E & Hv & _).
      assert (v' = v) as -> by (destruct pre as [|? []]; by simplify_eq/=). done.
    + subst r. apply probe_bytecode_versions_spec in H as (pre & post & E & Hv & Hp). split; [|split; [done|]].
      * apply elem_of_reverse. rewrite E. set_solver.
      * intros u Hu Hlt. pose proof (newer_before _ _ _ _ E Hu Hlt) as Hin. rewrite Forall_forall in Hp. by apply Hp.
Qed.

(** ** Parsing reads back what is shown *)

Lemma parse_uint_pretty hi z : 0 <= z <= hi -> parse_uint hi (pretty z) = Some z.
Proof.
  intros Hz. unfold parse_uint. destruct z as [|x|x]; [|change (pretty (Zpos x)) with (pretty x)|lia].
  - change (pretty 0) with "0". cbn [parse_magnitude digits_value digit_value mbind option_bind].
    change ((if 0 <=? hi then Some 0 else None) = Some 0). by rewrite (proj2 (Z.leb_le 0 hi)) by lia.
  - destruct (pretty_positive_digits x) as [Hm Hd].
    enough (match pretty x with String "+"%char rest => parse_magnitude rest | _ => parse_magnitude (pretty x) end = Some (Zpos x)) as ->.
    { cbn [mbind option_bind]. by rewrite (proj2 (Z.leb_le (Zpos x) hi)) by lia. }
    destruct (pretty x) as [|c r]; [done|]. cbn [str_all] in Hd. apply andb_prop in Hd as [Hc _].
    assert (c <> "+"%char) by (intros ->; done). destruct (decide (c = "+"%char)); [done|].
    rewrite <- Hm. destruct c as [[] [] [] [] [] [] [] []]; done.
Qed.

Lemma trim_pretty (z : Z) : trim (pretty z) = pretty z.
Proof. apply trim_none, pretty_Z_chars. reflexivity. Qed.

(** The text of a version parses back to it. *)
Lemma parse_show_version v : version_wf v -> parse_bytecode_version (show_version v) = Some v.
Proof.
  intros (Hmaj & Hmin & Htag). unfold parse_bytecode_version, show_version.
  assert (Hp : forall z : Z, str_all (fun c => negb (bool_decide (c = "."%char))) (pretty z) = true)
    by (intros; by apply pretty_Z_chars).
  assert (Hw : forall z : Z, str_all (fun c => negb (is_whitespace c)) (pretty z) = true) by (intros; by apply pretty_Z_chars).
  assert (Hsplit : forall parts, Forall (fun s => exists z : Z, s = pretty z) parts -> parts <> [] ->
    str_split (fun c => bool_decide (c = "."%char)) (trim (join "." parts)) = parts).
  { intros parts Hall Hne. rewrite trim_none.
    - apply (str_split_join _ "."%char); [done| |done]. eapply Forall_impl; [exact Hall|]. by intros s [z ->].
    - apply str_all_join; [done|]. eapply Forall_impl; [exact Hall|]. by intros s [z ->]. }
  destruct (Z.eqb_spec (tag v) 0) as [Ht|Ht]; cbn [negb].
  - change (pretty (major v) +:+ "." +:+ pretty (minor v)) with (join "." [pretty (major v); pretty (minor v)]).
    rewrite Hsplit by (repeat constructor; eauto). rewrite !trim_pretty, !parse_uint_pretty by lia.
    destruct v; by simplify_eq/=.
  - change (pretty (major v) +:+ "." +:+ pretty (minor v) +:+ "." +:+ pretty (tag v))
      with (join "." [pretty (major v); pretty (minor v); pretty (tag v)]).
    rewrite Hsplit by (repeat constructor; eauto). rewrite !trim_pretty, !parse_uint_pretty by lia. by destruct v.
Qed.

(** ** Discovery *)

(** [Path::join] with a relative path, on Unix. *)
Definition path_join (base name : string) : string :=
  match base with
  | EmptyString => name
  | _ => match strip_suffix "/" base with Some _ => base +:+ name | None => base +:+ "/" +:+ name end
  end.

Definition executable_name (windows : bool) : string := if windows then "tileiras.exe" else "tileiras".

Definition non_empty (s : string) : bool := negb (bool_decide (s = EmptyString)).

Section Discovery.
(** The environment variables, the files and the platform. *)
Context (var : string -> option string) (is_file is_dir : string -> bool) (read_to_string : string -> io_result string)
  (platform : string * string) (windows : bool).

Definition var_set (name : string) : option string := v ← var name; if non_empty v then Some v else None.

Definition toolkit_env : option (string * string) :=
  match var_set "CUDA_TOOLKIT_PATH" with
  | Some v => Some ("CUDA_TOOLKIT_PATH", v)
  | None => v ← var_set "CUDA_HOME"; Some ("CUDA_HOME", v)
  end.

(** The selection of the standalone tools: the file need not exist. *)
Definition tileiras_from_env : string :=
  match var_set "CUTILE_TILEIRAS_PATH" with
  | Some path => path
  | None =>
      match toolkit_env with
      | Some (_, root) => path_join (path_join root "bin") (executable_name windows)
      | None => "tileiras"
      end
  end.

Definition cuda_toolkit_tileiras (toolkit : option (string * string)) : option string :=
  '(_, value) ← toolkit;
  if non_empty value then
    let tileiras := path_join (path_join value "bin") (executable_name windows) in
    if is_file tileiras then Some tileiras else None
  else None.

Definition toolkit_include_dirs (cuda_toolkit : string) : list string :=
  let target_dirs :=
    if bool_decide (platform = ("linux", "x86_64")) then ["x86_64-linux"]
    else if bool_decide (platform = ("linux", "aarch64")) then ["sbsa-linux"; "aarch64-linux"]
    else [] in
  path_join cuda_toolkit "include"
  :: ((fun dir => path_join (path_join (path_join cuda_toolkit "targets") dir) "include") <$> target_dirs).

Definition header_line (line : string) : option Z :=
  match split_whitespace line with
  | define :: name :: version :: _ =>
      if bool_decide (define = "#define") && bool_decide (name = "CUDA_VERSION") then parse_uint U32_MAX version else None
  | _ => None
  end.

Definition cuda_version_from_header (cuda_h : string) : outcome string Z :=
  match read_to_string cuda_h with
  | inr error => Err ("could not read " +:+ cuda_h +:+ ": " +:+ error)
  | inl source =>
      match head (omap header_line (lines source)) with
      | Some v => Ok v
      | None => Err ("could not find CUDA_VERSION in " +:+ cuda_h)
      end
  end.

Fixpoint first_header (cuda_toolkit : string) (probed dirs : list string) : outcome string (string * Z) :=
  match dirs with
  | [] => Err ("no cuda.h under " +:+ cuda_toolkit +:+ " (probed " +:+ join ", " probed +:+ ")")
  | dir :: dirs =>
      let cuda_h := path_join dir "cuda.h" in
      if is_file cuda_h then v ← cuda_version_from_header cuda_h; Ok (cuda_h, v)
      else first_header cuda_toolkit (probed ++ [cuda_h]) dirs
  end.

Definition cuda_version_from_toolkit (cuda_toolkit : string) : outcome string (string * Z) :=
  first_header cuda_toolkit [] (toolkit_include_dirs cuda_toolkit).

Definition MIN_CUDA_VERSION : Z := 13020.

Definition format_cuda_version (version : Z) : string :=
  pretty (version / 1000) +:+ "." +:+ pretty (version mod 1000 / 10).

Definition supported_cuda_toolkit_tileiras (cuda_toolkit : string) : outcome string string :=
  if negb (is_dir cuda_toolkit) then Err "not a directory"
  else
    '(_, version) ← cuda_version_from_toolkit cuda_toolkit;
    if version <? MIN_CUDA_VERSION then Err ("CUDA toolkit " +:+ format_cuda_version version +:+ " is too old")
    else
      let tileiras := path_join (path_join cuda_toolkit "bin") (executable_name windows) in
      if negb (is_file tileiras) then Err ("missing " +:+ tileiras) else Ok tileiras.

(** The first candidate that has one, with the toolkit it is in. *)
Fixpoint default_cuda_toolkit_tileiras (candidates : list string) : option (string * string) :=
  match candidates with
  | [] => None
  | c :: candidates =>
      match supported_cuda_toolkit_tileiras c with
      | Ok tileiras => Some (tileiras, c)
      | _ => default_cuda_toolkit_tileiras candidates
      end
  end.

(** The executable and, when it was found through a toolkit, the toolkit: the
    path it was built from, which [toolkit_root_of] strips back to. *)
Definition resolve_tileiras_with_toolkit_candidates (tileiras_override : option string)
    (toolkit : option (string * string)) (candidates : list string) : string * option string :=
  match (path ← tileiras_override; if non_empty path then Some path else None) with
  | Some path => (path, None)
  | None =>
      match cuda_toolkit_tileiras toolkit with
      | Some path => (path, snd <$> toolkit)
      | None =>
          match default_cuda_toolkit_tileiras candidates with
          | Some (path, root) => (path, Some root)
          | None => (executable_name windows, None)
          end
      end
  end.

(** A discovered executable exists; one found in a default location belongs to
    a toolkit of at least the minimum version. *)
Lemma default_toolkit_supported candidates path root : default_cuda_toolkit_tileiras candidates = Some (path, root) ->
  root ∈ candidates /\ is_dir root = true /\ is_file path = true /\
  exists header version, cuda_version_from_toolkit root = Ok (header, version) /\ MIN_CUDA_VERSION <= version.
Proof.
  induction candidates as [|c cs IH]; cbn [default_cuda_toolkit_tileiras]; [done|].
  destruct (supported_cuda_toolkit_tileiras c) as [t| |] eqn:Es;
    [|intros [Hin Hrest]%IH; split; [by right|exact Hrest]..].
  intros [= -> ->]. unfold supported_cuda_toolkit_tileiras in Es. destruct (is_dir root) eqn:Ed; [|done]. cbn [negb] in Es.
  apply bind_Ok in Es as ([header version] & Ev & Es). destruct (Z.ltb_spec version MIN_CUDA_VERSION); [done|].
  destruct (negb (is_file _)) eqn:Ef; [done|]. apply negb_false_iff in Ef. injection Es as <-. split; [by left|]. eauto 6.
Qed.

End Discovery.

(** ** Requests from the environment *)

(** [compute_bytecode_version] takes an empty variable as unset;
    [ToolkitCapabilities::for_device], which serves the launches, does not. *)
Definition compute_bytecode_version (negotiate : option string -> outcome string BytecodeVersion) (variable : option string)
    : outcome string BytecodeVersion :=
  negotiate (v ← variable; if non_empty v then Some v else None).
Definition for_device_version (negotiate : option string -> outcome string BytecodeVersion) (variable : option string)
    : outcome string BytecodeVersion := negotiate variable.

Definition sample_listing : SpawnResult := Exited true "exit status: 0" ("13.1" +:+ nl +:+ "13.2" +:+ nl +:+ "13.3" +:+ nl) EmptyString.

Definition sample_negotiate : option string -> outcome string BytecodeVersion :=
  negotiate_bytecode_version "tileiras" "/tmp" sample_listing (fun _ => NotStarted "not executable").

Example empty_request_diverges :
  compute_bytecode_version sample_negotiate (Some EmptyString) = Ok V13_3 /\
  for_device_version sample_negotiate (Some EmptyString) =
    Err "invalid CUTILE_BYTECODE_VERSION=: expected major.minor[.tag]".
Proof. vm_compute. split; reflexivity. Qed.

Lemma negotiated_version_accepted_witness :
  V13_3 ∈ SUPPORTED /\ accepts sample_listing (fun _ => NotStarted "not executable") V13_3 /\
  forall u, u ∈ SUPPORTED -> version_lt V13_3 u = true -> refuses sample_listing (fun _ => NotStarted "not executable") u.
Proof.
  apply (negotiated_version_accepted "tileiras" "/tmp" sample_listing (fun _ => NotStarted "not executable") None V13_3).
  vm_compute. reflexivity.
Defined.
