(* ===== verification/JitStore.v ===== *)
(** * The file-system store of the cubin cache

    cutile-compiler/src/jit_cache.rs, [FileSystemJitStore]: an implementation
    of the store trait over shard directories.  Entries are written to a
    temporary file and renamed, read with a refresh of their modification time,
    and evicted oldest first.  The first part models the operations, each with
    the failures the operating system may answer; the second part the protocol
    of any number of writers on one directory, step by step, with crashes.
    A path is its shard directory and its file name under the root. *)

From Stdlib Require Import Ascii SpecFloat Sorted.
From stdpp Require Import gmap.
From S2P Require Import Prelude Bounds Enums Encoding Text Tables Options JitCache Backend.
Local Open Scope string_scope.
Local Open Scope list_scope.
Local Open Scope Z_scope.

(** ** Binary64 *)

Definition f64 : Type := spec_float.
Definition u64_as_f64 (n : Z) : f64 := binary_normalize 53 1024 n 0 false.
Definition f64_mul : f64 -> f64 -> f64 := SFmul 53 1024.
(** The literals 1.0 and 0.8. *)
Definition f64_one : f64 := u64_as_f64 1.
Definition f64_0_8 : f64 := S754_finite false 7205759403792794 (-53).

Definition is_finite (x : f64) : bool := match x with S754_zero _ | S754_finite _ _ _ => true | _ => false end.

(** ** Paths *)

Notation Path := (string * string)%type.

Definition is_lower_hex (c : ascii) : bool :=
  let n := Z.of_nat (nat_of_ascii c) in ((48 <=? n) && (n <=? 57)) || ((97 <=? n) && (n <=? 102)).
Definition is_ascii_hexdigit (c : ascii) : bool :=
  let n := Z.of_nat (nat_of_ascii c) in is_lower_hex c || ((65 <=? n) && (n <=? 70)).

Definition valid_key (key : string) : bool := (String.length key =? 64)%nat && str_all is_lower_hex key.

(** [debug] is the key's [Debug] text. *)
Definition entry_path (debug : string -> string) (key : string) : io_result Path :=
  if valid_key key then inl (str_take 2 key, key +:+ ".cubin")
  else inr ("jit store keys are 64 lowercase hex chars, got " +:+ debug key).

Definition is_shard (name : string) : bool := (String.length name =? 2)%nat && str_all is_ascii_hexdigit name.

(** A put's temporary file: the process, its counter and a random id. *)
Definition temp_name (key : string) (pid counter : Z) (nonce : string) : string :=
  key +:+ ".tmp." +:+ pretty pid +:+ "." +:+ pretty counter +:+ "." +:+ nonce.

(** ** The store *)

Record File := mkFile { contents : list Z; mtime : Z }.

Record FileSystemJitStore := mkStore { capacity_bytes : Z; high_watermark : f64; low_watermark : f64 }.

Definition DEFAULT_CAPACITY_BYTES : Z := Z.shiftl 2 30.

Definition builder : FileSystemJitStore := mkStore DEFAULT_CAPACITY_BYTES f64_one f64_0_8.

(** [create] is the answer to creating the root directory; [shown] the message's numbers. *)
Definition open (self : FileSystemJitStore) (create : io_result unit) (shown : string) : io_result FileSystemJitStore :=
  if negb (SFltb (S754_zero false) (low_watermark self) && SFleb (low_watermark self) (high_watermark self)
           && is_finite (high_watermark self))
  then inr ("eviction watermarks need 0 < low <= high, got " +:+ shown)
  else match create with inl _ => inl self | inr e => inr e end.

(** [eviction_draw]: the two halves of the sixteen bytes of a uuid. *)
Definition eviction_draw (nonce : list Z) : Z :=
  Z.lxor (from_le_bytes (slice 0 8 nonce)) (from_le_bytes (slice 8 16 nonce)).

(** The weighted coin of [put]. *)
Definition evicts (self : FileSystemJitStore) (len : Z) (nonce : list Z) : bool :=
  (0 <? capacity_bytes self)
  && (eviction_draw nonce * Z.max (capacity_bytes self / 16) 1 <? Z.shiftl len 64).

(** [value.len() as f64 > capacity as f64 * low]: the entry is declined. *)
Definition declines (self : FileSystemJitStore) (len : Z) : bool :=
  (0 <? capacity_bytes self)
  && SFltb (f64_mul (u64_as_f64 (capacity_bytes self)) (low_watermark self)) (u64_as_f64 len).

(** ** Eviction *)

(** In nanoseconds, like every time here. *)
Definition STALE_TEMP_AGE : Z := 3600 * 10 ^ 9.

(** What a scan of one file does: drop a stale temporary, count an entry. *)
Inductive Scanned := StaleTemp | Counted | Skipped.

Definition scan_file (now : Z) (p : Path) (f : File) : Scanned :=
  if negb (is_shard p.1) then Skipped
  else if str_contains ".tmp." p.2 then
    (if (mtime f <=? now) && (STALE_TEMP_AGE <? now - mtime f) then StaleTemp else Skipped)
  else match strip_suffix ".cubin" p.2 with Some _ => Counted | None => Skipped end.

Definition is_counted (now : Z) (e : Path * File) : bool :=
  match scan_file now e.1 e.2 with Counted => true | _ => false end.
Definition is_stale (now : Z) (e : Path * File) : bool :=
  match scan_file now e.1 e.2 with StaleTemp => true | _ => false end.

(** [sort_by_key] on the modification time, which is stable. *)
Fixpoint insert_by_mtime (e : Path * File) (l : list (Path * File)) : list (Path * File) :=
  match l with
  | [] => [e]
  | e' :: l' => if mtime e.2 <=? mtime e'.2 then e :: l else e' :: insert_by_mtime e l'
  end.
Definition sort_by_mtime (l : list (Path * File)) : list (Path * File) := foldr insert_by_mtime [] l.

Definition file_len (e : Path * File) : Z := zlen (contents e.2).
Definition total_len (l : list (Path * File)) : Z := foldr (fun e t => file_len e + t) 0 l.

(** The deletion loop: the paths it removes and the size it believes remains.
    [removable] is whether the removal of a path succeeds. *)
Fixpoint delete_oldest (removable : Path -> bool) (target : f64) (total : Z) (l : list (Path * File)) : list Path * Z :=
  match l with
  | [] => ([], total)
  | e :: l =>
      if SFleb (u64_as_f64 total) target then ([], total)
      else if removable e.1 then
        let '(gone, rest) := delete_oldest removable target (total - file_len e) l in (e.1 :: gone, rest)
      else delete_oldest removable target total l
  end.

(** The answers of the operating system to one call of [evict]: the lock, the
    time, the listing of the files (in directory order) and the removals. *)
Inductive LockAnswer := Locked | WouldBlock | LockError.
Record EvictAnswers := mkAnswers {
  ev_lock : LockAnswer; ev_now : Z; ev_listing : gmap Path File -> io_result (list (Path * File)); ev_removable : Path -> bool }.

(** The paths [evict] removes, and the errors it counts. *)
Definition evict_plan (self : FileSystemJitStore) (a : EvictAnswers) (fs : gmap Path File) : list Path * Z :=
  match ev_lock a with
  | LockError => ([], 1)
  | WouldBlock => ([], 0)
  | Locked =>
      match ev_listing a fs with
      | inr _ => ([], 1)
      | inl files =>
          let stale := filter (fun p => ev_removable a p = true) (filter (fun e => is_stale (ev_now a) e = true) files).*1 in
          let entries := filter (fun e => is_counted (ev_now a) e = true) files in
          let total := total_len entries in
          let capacity := u64_as_f64 (capacity_bytes self) in
          if SFleb (u64_as_f64 total) (f64_mul capacity (high_watermark self)) then (stale, 0)
          else
            let target := f64_mul capacity (low_watermark self) in
            (stale ++ (delete_oldest (ev_removable a) target total (sort_by_mtime entries)).1, 0)
      end
  end.

Definition remove_all (ps : list Path) (fs : gmap Path File) : gmap Path File := foldr delete fs ps.

Definition evict (self : FileSystemJitStore) (a : EvictAnswers) (fs : gmap Path File) : gmap Path File :=
  remove_all (evict_plan self a fs).1 fs.

(** ** Operations *)

(** The answers of the operating system to one operation: errors of each call,
    the time, and what names the temporary file. *)
Record Answers := mkOpAnswers {
  an_now : Z;
  an_read : option string;
  an_touch : bool;
  an_mkdir : option string;
  an_write : option (string * option (list Z));
  an_rename : option string;
  an_unlink : bool;
  an_remove : option string;
  an_cleared : string -> bool;
  an_pid : Z; an_counter : Z; an_nonce : list Z; an_nonce_text : string;
  an_evict : EvictAnswers;
}.

Section Operations.
Context (debug : string -> string) (self : FileSystemJitStore).

Definition get (a : Answers) (key : string) (fs : gmap Path File) : io_result (option (list Z)) * gmap Path File :=
  match entry_path debug key with
  | inr e => (inr e, fs)
  | inl path =>
      match an_read a, fs !! path with
      | Some e, _ => (inr e, fs)
      | None, None => (inl None, fs)
      | None, Some f =>
          (inl (Some (contents f)),
           if (0 <? capacity_bytes self) && an_touch a then <[path := mkFile (contents f) (an_now a)]> fs else fs)
      end
  end.

(** [an_unlink]: whether removing the temporary file after a failure works. *)
Definition drop_temp_file (a : Answers) (temp : Path) (fs : gmap Path File) : gmap Path File :=
  if an_unlink a then delete temp fs else fs.

Definition put (a : Answers) (key : string) (value : list Z) (fs : gmap Path File) : io_result unit * gmap Path File :=
  match entry_path debug key with
  | inr e => (inr e, fs)
  | inl final_path =>
      if declines self (zlen value) then (inl tt, fs)
      else
        match an_mkdir a with
        | Some e => (inr e, fs)
        | None =>
            let temp_path := (final_path.1, temp_name key (an_pid a) (an_counter a) (an_nonce_text a)) in
            match an_write a with
            | Some (e, part) =>
                (inr e, drop_temp_file a temp_path
                          match part with Some b => <[temp_path := mkFile b (an_now a)]> fs | None => fs end)
            | None =>
                let fs := <[temp_path := mkFile value (an_now a)]> fs in
                match an_rename a with
                | Some e => (inr e, drop_temp_file a temp_path fs)
                | None =>
                    let fs := <[final_path := mkFile value (an_now a)]> (delete temp_path fs) in
                    (inl tt, if evicts self (zlen value) (an_nonce a) then evict self (an_evict a) fs else fs)
                end
            end
        end
  end.

Definition contains (a : Answers) (key : string) (fs : gmap Path File) : io_result bool :=
  match entry_path debug key with
  | inr e => inr e
  | inl path => match an_read a with Some e => inr e | None => inl (is_some (fs !! path)) end
  end.

Definition delete_key (a : Answers) (key : string) (fs : gmap Path File) : io_result unit * gmap Path File :=
  match entry_path debug key with
  | inr e => (inr e, fs)
  | inl path =>
      match fs !! path, an_remove a with
      | None, _ => (inl tt, fs)
      | Some _, None => (inl tt, delete path fs)
      | Some _, Some e => (inr e, fs)
      end
  end.

(** Every shard directory is removed with its contents; on an error those
    removed before it ([an_cleared]) are gone. *)
Definition clear (a : Answers) (fs : gmap Path File) : io_result unit * gmap Path File :=
  match an_remove a with
  | Some e => (inr e, filter (fun e => is_shard e.1.1 && an_cleared a e.1.1 = false) fs)
  | None => (inl tt, filter (fun e => is_shard e.1.1 = false) fs)
  end.

End Operations.

(** ** The store as an implementation of the trait *)

(** The directory, and the answers to come. *)
Record FsStore := mkFsStore { fs_cfg : FileSystemJitStore; fs_files : gmap Path File; fs_script : nat -> Answers; fs_tick : nat }.

Definition fs_next (fs : gmap Path File) (s : FsStore) : FsStore := mkFsStore (fs_cfg s) fs (fs_script s) (S (fs_tick s)).
Definition fs_answers (s : FsStore) : Answers := fs_script s (fs_tick s).

Definition no_debug (s : string) : string := s.

#[export] Instance fs_jit_store : JitStore FsStore := {|
  store_get k s := let '(r, fs) := get no_debug (fs_cfg s) (fs_answers s) k (fs_files s) in
    (match r with inl (Some v) => if zlen v <=? ISIZE_MAX then r else inr "capacity overflow" | _ => r end, fs_next fs s);
  store_put k v s := let '(r, fs) := put no_debug (fs_cfg s) (fs_answers s) k v (fs_files s) in (r, fs_next fs s);
  store_delete k s := let '(r, fs) := delete_key no_debug (fs_answers s) k (fs_files s) in (r, fs_next fs s);
|}.

(** ** Lemmas: names *)

Lemma sapp_inj_length a a' b b' : String.length a = String.length a' -> a +:+ b = a' +:+ b' -> a = a' /\ b = b'.
Proof.
  revert a'. induction a as [|c a IH]; intros [|c' a'] Hl; try done. rewrite !sapp_cons. intros [= -> E].
  injection Hl as Hl. by destruct (IH a' Hl E) as [-> ->].
Qed.

Lemma entry_path_inv debug key p : entry_path debug key = inl p ->
  String.length key = 64%nat /\ str_all is_lower_hex key = true /\ p = (str_take 2 key, key +:+ ".cubin").
Proof.
  unfold entry_path, valid_key. destruct (Nat.eqb_spec (String.length key) 64); [|done].
  destruct (str_all is_lower_hex key); [|done]. by intros [= <-].
Qed.

Lemma entry_path_inj debug key key' p : entry_path debug key = inl p -> entry_path debug key' = inl p -> key = key'.
Proof.
  intros (Hl & _ & ->)%entry_path_inv (Hl' & _ & E)%entry_path_inv. injection E as _ E.
  apply sapp_inj_length in E as [E _]; [done|congruence].
Qed.

(** A temporary file is never the file of an entry. *)
Lemma temp_not_entry debug key key' p p' pid counter nonce :
  entry_path debug key = inl p -> entry_path debug key' = inl p' -> (p.1, temp_name key pid counter nonce) <> p'.
Proof.
  intros (Hl & _ & ->)%entry_path_inv (Hl' & _ & ->)%entry_path_inv E. injection E as _ E. unfold temp_name in E.
  apply sapp_inj_length in E as [_ E]; [|congruence]. discriminate E.
Qed.

(** The keys of the cache are keys of the store. *)
Lemma hex_digit_lower i : 0 <= i < 16 -> is_lower_hex (hex_digit i) = true.
Proof.
  intros Hi. rewrite <- (Z2Nat.id i) by lia. assert (Hn : (Z.to_nat i < 16)%nat) by lia. unfold hex_digit.
  rewrite Z2Nat.id by lia. revert Hn. generalize (Z.to_nat i). intros n Hn.
  do 16 (destruct n as [|n]; [done|]). lia.
Qed.

Lemma hex_lower bs : Forall byte_ok bs -> str_all is_lower_hex (hex bs) = true.
Proof.
  induction 1 as [|b bs Hb _ IH]; [done|]. unfold byte_ok in Hb. unfold hex. cbn [foldr str_all]. fold (hex bs).
  rewrite IH, !hex_digit_lower; [done| |].
  - change 15 with (Z.ones 4). rewrite Z.land_ones by lia. apply Z.mod_pos_bound. lia.
  - rewrite Z.shiftr_div_pow2 by lia. change (2 ^ 4) with 16. Z.to_euclidean_division_equations; lia.
Qed.

Lemma l2_key_valid sha256 bc v gpu opts fp : (forall m, length (sha256 m) = 32%nat /\ Forall byte_ok (sha256 m)) ->
  valid_key (l2_key sha256 bc v gpu opts fp) = true.
Proof.
  intros Hsha. unfold valid_key, l2_key. destruct (Hsha (l2_preimage (mkRequest bc v gpu opts fp))) as [Hl Hb].
  rewrite hex_length, Hl, hex_lower by done. done.
Qed.

(** ** Lemmas: removals *)

Lemma remove_all_lookup ps fs p : remove_all ps fs !! p = if decide (p ∈ ps) then None else fs !! p.
Proof.
  induction ps as [|q ps IH]; [by rewrite decide_False by (by apply not_elem_of_nil)|].
  change (remove_all (q :: ps) fs) with (delete q (remove_all ps fs)).
  destruct (decide (p = q)) as [->|Hne].
  - rewrite lookup_delete_eq, decide_True by (by left). done.
  - rewrite lookup_delete_ne, IH by done. destruct (decide (p ∈ ps)).
    + rewrite decide_True by (by right). done.
    + rewrite decide_False by (by rewrite not_elem_of_cons). done.
Qed.

Lemma remove_all_subseteq ps fs : remove_all ps fs ⊆ fs.
Proof.
  apply map_subseteq_spec. intros p f. rewrite remove_all_lookup. by case_decide.
Qed.

Lemma evict_subseteq self a fs : evict self a fs ⊆ fs.
Proof. apply remove_all_subseteq. Qed.

(** ** The store keeps the promise of the interface *)

(** What the directory holds for a key. *)
Definition fs_holds (fs : gmap Path File) (key : string) (v : list Z) : Prop :=
  exists p f, entry_path no_debug key = inl p /\ fs !! p = Some f /\ contents f = v.

Lemma fs_holds_mono fs fs' key v : fs ⊆ fs' -> fs_holds fs key v -> fs_holds fs' key v.
Proof. intros Hs (p & f & Hp & Hf & Hv). exists p, f. split; [done|]. split; [by eapply lookup_weaken|done]. Qed.

Lemma fs_get_holds self a key fs r fs' : get no_debug self a key fs = (r, fs') ->
  (forall k v, fs_holds fs' k v -> fs_holds fs k v) /\ (forall v, r = inl (Some v) -> fs_holds fs key v).
Proof.
  unfold get. destruct (entry_path no_debug key) as [p|e] eqn:Ep; [|by intros [= <- <-]].
  destruct (an_read a); [by intros [= <- <-]|]. destruct (fs !! p) as [f|] eqn:Ef; [|by intros [= <- <-]].
  intros [= <- <-]. split; [|intros v [= <-]; by exists p, f].
  intros k v. case_match; [|done]. intros (p' & f' & Hp' & Hf' & Hv).
  destruct (decide (p = p')) as [<-|Hne].
  - rewrite lookup_insert_eq in Hf'. injection Hf' as <-. by exists p, f.
  - rewrite lookup_insert_ne in Hf' by done. by exists p', f'.
Qed.

Lemma fs_put_holds self a key value fs r fs' : put no_debug self a key value fs = (r, fs') ->
  forall k v, fs_holds fs' k v -> fs_holds fs k v \/ (k = key /\ v = value).
Proof.
  unfold put. destruct (entry_path no_debug key) as [p|e] eqn:Ep; [|intros [= <- <-]; by left].
  destruct (declines self (zlen value)); [intros [= <- <-]; by left|].
  destruct (an_mkdir a); [intros [= <- <-]; by left|].
  set (temp := (p.1, temp_name key (an_pid a) (an_counter a) (an_nonce_text a))).
  assert (Htemp : forall b fs0 k v, fs_holds (<[temp := b]> fs0) k v -> fs_holds fs0 k v).
  { intros b fs0 k v (p' & f & Hp' & Hf & Hv). exists p', f. split; [done|].
    rewrite lookup_insert_ne in Hf; [done|]. by eapply temp_not_entry. }
  assert (Hdrop : forall fs0 k v, fs_holds (drop_temp_file a temp fs0) k v -> fs_holds fs0 k v).
  { intros fs0 k v. unfold drop_temp_file. case_match; [|done]. apply fs_holds_mono, delete_subseteq. }
  destruct (an_write a) as [[e part]|].
  { intros [= <- <-] k v Hv. left. apply Hdrop in Hv. destruct part; [by apply Htemp in Hv|done]. }
  destruct (an_rename a) as [e|]; intros [= <- <-] k v Hv.
  { left. apply Hdrop in Hv. by apply Htemp in Hv. }
  assert (Hv' : fs_holds (<[p := mkFile value (an_now a)]> (delete temp (<[temp := mkFile value (an_now a)]> fs))) k v).
  { revert Hv. case_match; [|done]. apply fs_holds_mono, evict_subseteq. }
  destruct Hv' as (p' & f & Hp' & Hf & <-). destruct (decide (p = p')) as [<-|Hne].
  - rewrite lookup_insert_eq in Hf. injection Hf as <-. right. split; [|done]. by eapply entry_path_inj.
  - rewrite lookup_insert_ne in Hf by done. left. apply (Htemp (mkFile value (an_now a))).
    exists p', f. split; [done|]. split; [|done]. eapply lookup_weaken; [done|]. apply delete_subseteq.
Qed.

Lemma delete_key_holds a key fs r fs' : delete_key no_debug a key fs = (r, fs') ->
  forall k v, fs_holds fs' k v -> fs_holds fs k v.
Proof.
  unfold delete_key. intros Hd k v. repeat case_match; simplify_eq; try done.
  apply fs_holds_mono, delete_subseteq.
Qed.

(** The file-system store discharges the interface the back end relies on. *)
#[export, refine] Instance fs_store_trusted : TrustedStore FsStore := {| may_hold s k v := fs_holds (fs_files s) k v |}.
Proof.
  - cbn. intros k s r s'. destruct (get _ _ _ _ _) as [r' fs'] eqn:Eg. intros [= <- <-].
    destruct (fs_get_holds _ _ _ _ _ _ Eg) as [Hh Hv]. split; [done|]. intros v.
    destruct r' as [[v'|]|]; try done. destruct (Z.leb_spec (zlen v') ISIZE_MAX); [|done].
    intros [= <-]. split; [by apply Hv|done].
  - cbn. intros k v s r s'. destruct (put _ _ _ _ _ _) as [r' fs'] eqn:Ep. intros [= <- <-]. by eapply fs_put_holds.
  - cbn. intros k s r s'. destruct (delete_key _ _ _ _) as [r' fs'] eqn:Ed. intros [= <- <-]. by eapply delete_key_holds.
Defined.

(** ** Lemmas: eviction order *)

Definition older (e e' : Path * File) : Prop := mtime e.2 <= mtime e'.2.

#[local] Instance older_trans : Transitive older.
Proof. unfold older. intros x y z. lia. Qed.

Lemma insert_by_mtime_perm e l : insert_by_mtime e l ≡ₚ e :: l.
Proof. induction l as [|e' l IH]; cbn; [done|]. case_match; [done|]. rewrite IH. constructor. Qed.

Lemma sort_by_mtime_perm l : sort_by_mtime l ≡ₚ l.
Proof. induction l as [|e l IH]; cbn; [done|]. by rewrite insert_by_mtime_perm, IH. Qed.

Lemma insert_by_mtime_sorted e l : StronglySorted older l -> StronglySorted older (insert_by_mtime e l).
Proof.
  induction 1 as [|e' l Hs IH Hall]; cbn; [repeat constructor|].
  destruct (Z.leb_spec (mtime e.2) (mtime e'.2)) as [Hle|Hgt].
  - constructor; [by constructor|]. constructor; [done|]. eapply Forall_impl; [exact Hall|]. intros x. by transitivity e'.
  - constructor; [done|]. rewrite insert_by_mtime_perm. constructor; [unfold older; lia|done].
Qed.

Lemma sort_by_mtime_sorted l : StronglySorted older (sort_by_mtime l).
Proof. induction l as [|e l IH]; cbn; [constructor|]. by apply insert_by_mtime_sorted. Qed.

#[local] Instance total_len_proper : Proper ((≡ₚ) ==> (=)) total_len.
Proof. unfold total_len. induction 1; cbn; lia. Qed.

Lemma total_len_app l k : total_len (l ++ k) = total_len l + total_len k.
Proof. unfold total_len. induction l as [|e l IH]; cbn; lia. Qed.

Lemma sorted_app_older l k : StronglySorted older (l ++ k) -> Forall (fun e => Forall (older e) k) l.
Proof.
  induction l as [|e l IH]; [constructor|]. cbn. intros [Hs Hall]%StronglySorted_inv. constructor; [|by apply IH].
  by apply Forall_app in Hall as [_ ?].
Qed.

(** The loop removes the shortest prefix that reaches the target. *)
Lemma delete_oldest_spec removable target total l : (forall p, removable p = true) ->
  exists gone kept, l = gone ++ kept /\ delete_oldest removable target total l = (gone.*1, total - total_len gone) /\
    (kept = [] \/ SFleb (u64_as_f64 (total - total_len gone)) target = true) /\
    (forall g e, gone = g ++ [e] -> SFleb (u64_as_f64 (total - total_len g)) target = false).
Proof.
  intros Hr. revert total. induction l as [|e l IH]; intros total.
  { exists [], []. cbn. rewrite Z.sub_0_r. split; [done|]. split; [done|]. split; [by left|]. by intros [] ?. }
  cbn [delete_oldest]. destruct (SFleb (u64_as_f64 total) target) eqn:Et.
  { exists [], (e :: l). cbn. rewrite Z.sub_0_r. split; [done|]. split; [done|]. split; [by right|]. by intros [] ?. }
  rewrite Hr. destruct (IH (total - file_len e)) as (gone & kept & -> & -> & Hk & Hmin).
  exists (e :: gone), kept. split; [done|]. cbn [total_len foldr]. fold (total_len gone).
  rewrite Z.sub_add_distr. split; [done|]. split; [done|].
  intros [|e' g] e0 [= <- E]; [by cbn; rewrite Z.sub_0_r|]. specialize (Hmin g e0 E).
  cbn [total_len foldr]. fold (total_len g). by rewrite Z.sub_add_distr.
Qed.

(** ** Lemmas: comparing floats *)

Lemma SFcompare_swap x y : SFcompare y x = option_map CompOpp (SFcompare x y).
Proof.
  destruct x as [[]|[]| |[] m e], y as [[]|[]| |[] m' e']; cbn; try done;
    rewrite (Z.compare_antisym e' e); destruct (e' ?= e) eqn:Ee; cbn; try done;
    change (Pos.compare_cont Eq) with Pos.compare; rewrite (Pos.compare_antisym m' m); by destruct (m' ?= m)%positive.
Qed.

Lemma SFleb_of_not_lt x y : SFcompare x y <> None -> SFltb y x = false -> SFleb x y = true.
Proof.
  unfold SFltb, SFleb. rewrite (SFcompare_swap x y). destruct (SFcompare x y) as [[]|]; cbn; done.
Qed.

(** ** What an eviction removes *)

Lemma counted_not_stale now e : is_counted now e = true -> is_stale now e = false.
Proof. unfold is_counted, is_stale. by destruct (scan_file now e.1 e.2). Qed.

Definition low_target (self : FileSystemJitStore) : f64 := f64_mul (u64_as_f64 (capacity_bytes self)) (low_watermark self).
Definition high_limit (self : FileSystemJitStore) : f64 := f64_mul (u64_as_f64 (capacity_bytes self)) (high_watermark self).

Lemma listed_lookup (fs : gmap Path File) files p f : files ≡ₚ map_to_list fs -> (p, f) ∈ files <-> fs !! p = Some f.
Proof. intros ->. apply elem_of_map_to_list. Qed.

Lemma listed_NoDup (fs : gmap Path File) files now : files ≡ₚ map_to_list fs ->
  NoDup (filter (fun e => is_counted now e = true) files).*1.
Proof.
  intros Hf. apply NoDup_fmap_fst.
  - intros p f f' [_ H1]%list_elem_of_filter [_ H2]%list_elem_of_filter.
    apply (listed_lookup fs) in H1, H2; [|done..]. congruence.
  - apply NoDup_filter. rewrite Hf. apply NoDup_map_to_list.
Qed.

(** The paths an eviction with a listing removes: stale temporaries, and of the
    entries a shortest prefix in order of age. *)
Lemma evict_plan_spec self a fs files : ev_lock a = Locked -> ev_listing a fs = inl files ->
  (forall p, ev_removable a p = true) ->
  let entries := filter (fun e => is_counted (ev_now a) e = true) files in
  exists gone kept, sort_by_mtime entries = gone ++ kept /\
    (forall p, p ∈ (evict_plan self a fs).1 <-> (exists f, (p, f) ∈ files /\ is_stale (ev_now a) (p, f) = true) \/ p ∈ gone.*1) /\
    (SFleb (u64_as_f64 (total_len entries)) (high_limit self) = true -> gone = []) /\
    (SFleb (u64_as_f64 (total_len entries)) (high_limit self) = false ->
       kept = [] \/ SFleb (u64_as_f64 (total_len kept)) (low_target self) = true) /\
    (forall g e, gone = g ++ [e] -> SFleb (u64_as_f64 (total_len (e :: kept))) (low_target self) = false).
Proof.
  intros Hl Hf Hr entries. unfold evict_plan. rewrite Hl, Hf. fold entries (high_limit self) (low_target self).
  set (stale := filter (fun p => ev_removable a p = true) _).
  assert (Hs : forall p, p ∈ stale <-> exists f, (p, f) ∈ files /\ is_stale (ev_now a) (p, f) = true).
  { intros p. unfold stale. rewrite list_elem_of_filter, list_elem_of_fmap. setoid_rewrite list_elem_of_filter.
    split; [intros (_ & [p' f] & -> & Hst & Hin); by exists f|]. intros (f & Hin & Hst).
    split; [apply Hr|]. by exists (p, f). }
  pose proof (sort_by_mtime_perm entries) as Hperm.
  destruct (SFleb (u64_as_f64 (total_len entries)) (high_limit self)).
  - exists [], (sort_by_mtime entries). cbn [fst fmap list_fmap]. split; [done|]. split; [|by split; [|split; [|intros []]]].
    intros p. rewrite Hs, elem_of_nil. tauto.
  - destruct (delete_oldest_spec (ev_removable a) (low_target self) (total_len entries) (sort_by_mtime entries) Hr)
      as (gone & kept & Hsplit & -> & Hk & Hmin).
    assert (Htot : total_len entries = total_len gone + total_len kept).
    { rewrite <- Hperm, Hsplit. apply total_len_app. }
    exists gone, kept. split; [done|]. cbn [fst]. split; [intros p; by rewrite elem_of_app, Hs|]. split; [done|].
    split; [intros _; by replace (total_len kept) with (total_len entries - total_len gone) by lia|].
    intros g e E. replace (total_len (e :: kept)) with (total_len entries - total_len g); [by apply (Hmin g e)|].
    rewrite Htot, E, total_len_app. unfold total_len. cbn. lia.
Qed.

(** C33: an eviction that gets the lock and whose removals succeed leaves the
    store alone while its total size is at most the high watermark of the
    capacity; above it, it deletes entries in order of their modification time,
    oldest first, none that is younger than one it keeps, until the size of the
    remaining ones is at most the low watermark — and no further: without the
    last deletion the size would still be above it. *)
Theorem evict_deletes_least_recently_used (self : FileSystemJitStore) (a : EvictAnswers) (fs : gmap Path File)
    (files : list (Path * File)) (Hlock : ev_lock a = Locked) (Hlist : ev_listing a fs = inl files)
    (Hfiles : files ≡ₚ map_to_list fs) (Hremove : forall p, ev_removable a p = true) :
  let entries := filter (fun e => is_counted (ev_now a) e = true) files in
  exists gone kept, sort_by_mtime entries = gone ++ kept /\
    (forall e, e ∈ gone -> evict self a fs !! e.1 = None) /\
    (forall e, e ∈ kept -> evict self a fs !! e.1 = Some e.2) /\
    Forall (fun e => Forall (older e) kept) gone /\
    (SFleb (u64_as_f64 (total_len entries)) (high_limit self) = true -> gone = []) /\
    (SFleb (u64_as_f64 (total_len entries)) (high_limit self) = false ->
       kept = [] \/ SFleb (u64_as_f64 (total_len kept)) (low_target self) = true) /\
    (forall g e, gone = g ++ [e] -> SFleb (u64_as_f64 (total_len (e :: kept))) (low_target self) = false).
Proof.
  intros entries. destruct (evict_plan_spec self a fs files Hlock Hlist Hremove) as (gone & kept & Hsplit & Hplan & Hrest).
  fold entries in Hsplit. pose proof (sort_by_mtime_perm entries) as Hperm. rewrite Hsplit in Hperm.
  exists gone, kept. split; [done|]. unfold evict. split; [|split; [|split; [|done]]].
  - intros e He. rewrite remove_all_lookup, decide_True; [done|]. apply Hplan. right. apply list_elem_of_fmap. by exists e.
  - intros [p f] He. cbn. assert (Hin : (p, f) ∈ entries) by (rewrite <- Hperm, elem_of_app; by right).
    apply list_elem_of_filter in Hin as [Hcount Hin]. rewrite remove_all_lookup, decide_False; [by eapply listed_lookup|].
    rewrite Hplan. intros [(f' & Hin' & Hst)|Hgone].
    + assert (f' = f) as ->.
      { apply (listed_lookup fs) in Hin, Hin'; [|done..]. congruence. }
      by rewrite counted_not_stale in Hst.
    + assert (Hnd : NoDup (gone ++ kept).*1).
      { rewrite Hperm. by apply (listed_NoDup fs). }
      rewrite fmap_app in Hnd. apply NoDup_app in Hnd as (_ & Hdisj & _). apply (Hdisj p Hgone).
      apply list_elem_of_fmap. by exists (p, f).
  - apply sorted_app_older. rewrite <- Hsplit. apply sort_by_mtime_sorted.
Qed.

(** ** An entry just written survives its own eviction *)

Lemma entry_name_no_temp key : str_all is_lower_hex key = true -> str_contains ".tmp." (key +:+ ".cubin") = false.
Proof.
  unfold str_contains. intros Hk. assert (str_find ".tmp." (key +:+ ".cubin") = None) as ->; [|done].
  induction key as [|c key IH]; [done|]. cbn [str_all] in Hk. apply andb_prop in Hk as [Hc Hk]. rewrite sapp_cons.
  cbn [str_find starts_with]. destruct (ascii_dec "." c) as [<-|_]; [done|]. by rewrite IH.
Qed.

Lemma evict_keeps_newest self a fs p f :
  match ev_listing a fs with inl files => files ≡ₚ map_to_list fs | inr _ => True end ->
  (forall q, ev_removable a q = true) ->
  fs !! p = Some f -> str_contains ".tmp." p.2 = false -> (forall q g, fs !! q = Some g -> q <> p -> mtime g < mtime f) ->
  SFleb (u64_as_f64 (zlen (contents f))) (low_target self) = true -> evict self a fs !! p = Some f.
Proof.
  intros Hfiles Hr Hp Htmp Hnew Hle. unfold evict. rewrite remove_all_lookup, decide_False; [done|]. intros Hin.
  destruct (ev_lock a) eqn:Hlock; [|unfold evict_plan in Hin; rewrite Hlock in Hin; by apply elem_of_nil in Hin..].
  destruct (ev_listing a fs) as [files|e] eqn:Hlist;
    [|unfold evict_plan in Hin; rewrite Hlock, Hlist in Hin; by apply elem_of_nil in Hin].
  destruct (evict_plan_spec self a fs files Hlock Hlist Hr) as (gone & kept & Hsplit & Hplan & _ & _ & Hmin).
  apply Hplan in Hin as [(f' & _ & Hst)|Hgone].
  { unfold is_stale, scan_file in Hst. cbn in Hst. rewrite Htmp in Hst. repeat case_match; done. }
  set (entries := filter _ files) in *. pose proof (sort_by_mtime_perm entries) as Hperm. rewrite Hsplit in Hperm.
  apply list_elem_of_fmap in Hgone as ([p' f0] & -> & Hgone). cbn in *.
  assert (Hall : forall q g, (q, g) ∈ gone ++ kept -> fs !! q = Some g).
  { intros q g. rewrite Hperm. unfold entries. rewrite list_elem_of_filter. intros [_ ?]. by eapply listed_lookup. }
  assert (f0 = f) as ->.
  { apply (f_equal id) in Hp. cbn in Hp. rewrite (Hall p' f0) in Hp by (apply elem_of_app; by left). by injection Hp. }
  apply list_elem_of_split in Hgone as (g1 & g2 & ->).
  assert (Hnd : NoDup ((g1 ++ (p', f) :: g2) ++ kept).*1) by (rewrite Hperm; by apply (listed_NoDup fs)).
  assert (Hsorted : StronglySorted older ((g1 ++ [(p', f)]) ++ g2 ++ kept)).
  { rewrite <- !app_assoc. cbn. rewrite <- app_assoc in Hsplit. cbn in Hsplit. rewrite <- Hsplit. apply sort_by_mtime_sorted. }
  assert (Hlast : g2 ++ kept = []).
  { destruct (g2 ++ kept) as [|[q g] rest] eqn:E; [done|]. exfalso.
    apply sorted_app_older, Forall_app in Hsorted as [_ [Ho _]%Forall_cons]. apply Forall_cons in Ho as [Ho _].
    unfold older in Ho. cbn in Ho.
    assert (Hq : (q, g) ∈ (g1 ++ (p', f) :: g2) ++ kept) by (rewrite <- app_assoc; cbn; rewrite E; set_solver).
    assert (Hne : q <> p').
    { intros ->. rewrite <- app_assoc in Hnd. cbn in Hnd. rewrite E, fmap_app in Hnd. cbn in Hnd.
      apply NoDup_app in Hnd as (_ & _ & Hnd). apply NoDup_cons in Hnd as [Hnd _]. apply Hnd. by left. }
    specialize (Hnew q g (Hall q g Hq) Hne). lia. }
  apply app_eq_nil in Hlast as [-> ->]. specialize (Hmin g1 (p', f) eq_refl).
  unfold total_len in Hmin. cbn in Hmin. unfold file_len in Hmin. cbn in Hmin. rewrite Z.add_0_r in Hmin. congruence.
Qed.


(** The coin always falls on eviction for an entry of at least a sixteenth of
    the capacity: the draw is below [2 ^ 64]. *)
Lemma evicts_large self len nonce : 0 < capacity_bytes self -> Z.max (capacity_bytes self / 16) 1 <= len ->
  0 <= eviction_draw nonce < 2 ^ 64 -> evicts self len nonce = true.
Proof.
  intros Hc Hl Hd. unfold evicts. rewrite (proj2 (Z.ltb_lt _ _) Hc). cbn [andb]. apply Z.ltb_lt.
  rewrite Z.shiftl_mul_pow2 by lia. nia.
Qed.

Lemma eviction_draw_range nonce : Forall byte_ok nonce -> length nonce = 16%nat -> 0 <= eviction_draw nonce < 2 ^ 64.
Proof.
  intros Hok Hl. unfold eviction_draw.
  assert (Hb : forall i, Forall byte_ok (slice i (i + 8) nonce)) by (intros; unfold slice; by apply Forall_take, Forall_drop).
  assert (Hr : forall i, (i + 8 <= 16)%nat -> 0 <= from_le_bytes (slice i (i + 8) nonce) < 2 ^ 64).
  { intros i Hi. split; [by apply from_le_bytes_nonneg|]. pose proof (from_le_bytes_bound _ (Hb i)) as B.
    rewrite slice_length in B by lia. done. }
  pose proof (Hr 0%nat ltac:(lia)) as [L0 U0]. pose proof (Hr 8%nat ltac:(lia)) as [L1 U1]. cbn [Nat.add] in *.
  assert (H : in_u64 (Z.lxor (from_le_bytes (slice 0 8 nonce)) (from_le_bytes (slice 8 16 nonce)))).
  { apply in_u64_shiftr. rewrite Z.shiftr_lxor.
    rewrite (proj1 (in_u64_shiftr (from_le_bytes (slice 0 8 nonce)))), (proj1 (in_u64_shiftr (from_le_bytes (slice 8 16 nonce))));
      [done|int_lia..]. }
  int_lia.
Qed.

(** ** Samples *)

Definition sample_store : FileSystemJitStore := mkStore 160 f64_one f64_0_8.

Definition sample_evict : EvictAnswers := mkAnswers Locked 100 (fun fs => inl (map_to_list fs)) (fun _ => true).

Definition sample_answers (now : Z) : Answers :=
  mkOpAnswers now None true None None None true None (fun _ => true) 7 0 (replicate 16 0) "nonce" sample_evict.

Definition sample_key (d : ascii) : string := String d (hex (replicate 31 0) +:+ "0").

Definition sample_fs : gmap Path File :=
  (put no_debug sample_store (sample_answers 2) (sample_key "b") (replicate 60 2)
    (put no_debug sample_store (sample_answers 1) (sample_key "a") (replicate 90 1) ∅).2).2.

(** The third put goes over the capacity and evicts the oldest entry only. *)
Example sample_put_evicts :
  let fs := (put no_debug sample_store (sample_answers 3) (sample_key "c") (replicate 50 3) sample_fs).2 in
  (get no_debug sample_store (sample_answers 4) (sample_key "a") fs).1 = inl None /\
  (get no_debug sample_store (sample_answers 4) (sample_key "b") fs).1 = inl (Some (replicate 60 2)).
Proof. vm_compute. split; reflexivity. Qed.

(** A put declined as too large is reported as done, and the back end counts an
    entry written although the directory is still empty. *)
Example declined_put_counted :
  let store := mkFsStore (mkStore 10 f64_one f64_0_8) ∅ (fun _ => sample_answers 1) 0 in
  let w := save toy_hash 0 (sample_key "a") (sample_params 0) [1] (mkWorld sample_disk (fun _ => store) (Some 0%nat) ∅ no_stats 0) in
  puts (STATS w) = 1 /\ fs_files (stores w 0%nat) = ∅.
Proof. vm_compute. split; reflexivity. Qed.


Lemma evict_deletes_least_recently_used_witness :
  exists gone kept, sort_by_mtime (filter (fun e => is_counted 100 e = true) (map_to_list sample_fs)) = gone ++ kept /\
    (forall e, e ∈ gone -> evict (mkStore 100 f64_one f64_0_8) sample_evict sample_fs !! e.1 = None) /\
    (forall e, e ∈ kept -> evict (mkStore 100 f64_one f64_0_8) sample_evict sample_fs !! e.1 = Some e.2).
Proof.
  destruct (evict_deletes_least_recently_used (mkStore 100 f64_one f64_0_8) sample_evict sample_fs (map_to_list sample_fs))
    as (gone & kept & H1 & H2 & H3 & _).
  - reflexivity.
  - reflexivity.
  - apply Permutation_refl.
  - reflexivity.
  - exists gone, kept. split; [exact H1|]. split; [exact H2|exact H3].
Defined.

(** ** Writers that share a directory *)

Module Protocol.

(** A put in progress: its temporary file, its key and value, and how much of
    the value is written. *)
Inductive Writer :=
| Writing (temp : Path) (key : string) (value : list Z) (written : nat)
| Stopped.

(** The files of the directory, the writers of all processes, the puts begun
    and the temporary names used so far. *)
Record World := mkWorld {
  files : gmap Path (list Z); writers : list Writer; begun : list (string * list Z); temps : list Path }.

Definition empty_world : World := mkWorld ∅ [] [] [].

Definition set_writer (i : nat) (x : Writer) (w : World) : World :=
  mkWorld (files w) (<[i := x]> (writers w)) (begun w) (temps w).

(** [Begin] creates the temporary file; [Chunk] writes some more bytes;
    [Rename] publishes a complete file; [GiveUp] is a failed write or rename,
    whose file is removed or not; [Crash] stops a writer where it is; [Unlink]
    is a deletion or an eviction by anyone, of any file. *)
Inductive Event :=
| Begin (key : string) (value : list Z) (pid counter : Z) (nonce : string)
| Chunk (i n : nat)
| Rename (i : nat)
| GiveUp (i : nat) (unlinked : bool)
| Crash (i : nat)
| Unlink (p : Path).

Definition step (w : World) (e : Event) : option World :=
  match e with
  | Begin key value pid counter nonce =>
      match entry_path no_debug key with
      | inr _ => None
      | inl p =>
          let temp := (p.1, temp_name key pid counter nonce) in
          if decide (temp ∈ temps w) then None
          else Some (mkWorld (<[temp := []]> (files w)) (writers w ++ [Writing temp key value 0])
                 ((key, value) :: begun w) (temp :: temps w))
      end
  | Chunk i n =>
      match writers w !! i with
      | Some (Writing temp key value k) =>
          let w := set_writer i (Writing temp key value (k + n)) w in
          Some (match files w !! temp with
                | Some _ => mkWorld (<[temp := take (k + n) value]> (files w)) (writers w) (begun w) (temps w)
                | None => w
                end)
      | _ => None
      end
  | Rename i =>
      match writers w !! i with
      | Some (Writing temp key value k) =>
          if (length value <=? k)%nat then
            match files w !! temp, entry_path no_debug key with
            | Some bytes, inl p =>
                Some (set_writer i Stopped (mkWorld (<[p := bytes]> (delete temp (files w))) (writers w) (begun w) (temps w)))
            | _, _ => None
            end
          else None
      | _ => None
      end
  | GiveUp i unlinked =>
      match writers w !! i with
      | Some (Writing temp key value k) =>
          Some (set_writer i Stopped
            (mkWorld (if unlinked then delete temp (files w) else files w) (writers w) (begun w) (temps w)))
      | _ => None
      end
  | Crash i => match writers w !! i with Some _ => Some (set_writer i Stopped w) | None => None end
  | Unlink p => Some (mkWorld (delete p (files w)) (writers w) (begun w) (temps w))
  end.

Fixpoint run (evs : list Event) (w : World) : option World :=
  match evs with [] => Some w | e :: evs => w ← step w e; run evs w end.

(** What a reader finds under a key. *)
Definition read (key : string) (w : World) : option (list Z) :=
  match entry_path no_debug key with inl p => files w !! p | inr _ => None end.

(** ** Invariant *)

Definition writer_ok (w : World) (x : Writer) : Prop :=
  match x with
  | Writing temp key value k =>
      (key, value) ∈ begun w /\ temp ∈ temps w /\ forall b, files w !! temp = Some b -> b = take k value
  | Stopped => True
  end.

Definition temp_of (x : Writer) : option Path := match x with Writing temp _ _ _ => Some temp | Stopped => None end.

Record inv (w : World) : Prop := mkInv {
  inv_read : forall key v, read key w = Some v -> (key, v) ∈ begun w;
  inv_writer : forall i x, writers w !! i = Some x -> writer_ok w x;
  inv_apart : forall i j x y t, writers w !! i = Some x -> writers w !! j = Some y ->
    temp_of x = Some t -> temp_of y = Some t -> i = j;
  inv_temps : forall t, t ∈ temps w -> forall key p, entry_path no_debug key = inl p -> t <> p;
}.

Lemma inv_empty : inv empty_world.
Proof.
  split; cbn; try (intros; set_solver).
  - intros key v. unfold read. destruct (entry_path _ _); [|done]. cbn. by rewrite lookup_empty.
Qed.
Lemma read_files key v w : read key w = Some v <-> exists p, entry_path no_debug key = inl p /\ files w !! p = Some v.
Proof. unfold read. destruct (entry_path no_debug key); naive_solver. Qed.

(** Files may disappear at any time. *)
Lemma inv_shrink w f : f ⊆ files w -> inv w -> inv (mkWorld f (writers w) (begun w) (temps w)).
Proof.
  intros Hf [Hr Hw Ha Ht]. split; cbn; try done.
  - intros key v (p & Hp & Hv)%read_files. apply Hr, read_files. exists p. split; [done|]. by eapply lookup_weaken.
  - intros i x Hx. specialize (Hw i x Hx). destruct x; [|done]. cbn in *. destruct Hw as (? & ? & Hb).
    split; [done|]. split; [done|]. intros b Hb'. apply Hb. by eapply lookup_weaken.
Qed.

Lemma inv_stop i w : inv w -> inv (set_writer i Stopped w).
Proof.
  intros [Hr Hw Ha Ht]. split; cbn; try done.
  - intros j x [(<- & <- & _)|(_ & Hx)]%list_lookup_insert_Some; [done|]. by apply (Hw j).
  - intros j k x y t [(<- & <- & _)|(_ & Hx)]%list_lookup_insert_Some [(<- & <- & _)|(_ & Hy)]%list_lookup_insert_Some;
      try done. by apply (Ha j k x y).
Qed.

Lemma step_begin w w' key value pid counter nonce : inv w -> step w (Begin key value pid counter nonce) = Some w' -> inv w'.
Proof.
  intros [Hr Hw Ha Ht]. cbn. destruct (entry_path no_debug key) as [p|] eqn:Ep; [|done].
  set (temp := (p.1, temp_name key pid counter nonce)). destruct (decide (temp ∈ temps w)) as [|Hfresh]; [done|].
  intros [= <-].
  assert (Htemp : forall key' q, entry_path no_debug key' = inl q -> temp <> q) by (intros; by eapply temp_not_entry).
  split; cbn.
  - intros key' v (q & Hq & Hv)%read_files. cbn in Hv. rewrite lookup_insert_ne in Hv by (by eapply Htemp).
    right. apply Hr, read_files. by exists q.
  - intros i x [Hx|[_ Hx]]%lookup_app_Some.
    + specialize (Hw i x Hx). destruct x as [t k' v' n|]; [|done]. cbn in *. destruct Hw as (? & Hin & Hb).
      split; [by right|]. split; [by right|]. rewrite lookup_insert_ne; [done|]. by intros ->.
    + apply list_lookup_singleton_Some in Hx as [_ <-]. cbn. split; [by left|]. split; [by left|].
      intros b. rewrite lookup_insert_eq. by intros [= <-].
  - intros i j x y t Hi Hj Hx Hy.
    assert (Hold : forall l z, writers w !! l = Some z -> temp_of z = Some temp -> False).
    { intros l z Hz. specialize (Hw l z Hz). destruct z; [|done]. cbn in *. intros [= ->]. tauto. }
    apply lookup_app_Some in Hi as [Hi|[Li Hi]], Hj as [Hj|[Lj Hj]].
    + by apply (Ha i j x y t).
    + apply list_lookup_singleton_Some in Hj as [_ <-]. injection Hy as <-. by destruct (Hold i x).
    + apply list_lookup_singleton_Some in Hi as [_ <-]. injection Hx as <-. by destruct (Hold j y).
    + apply list_lookup_singleton_Some in Hi as [Hi _], Hj as [Hj _]. lia.
  - intros t [->|Hin]%elem_of_cons; [apply Htemp|by apply Ht].
Qed.

Lemma step_chunk w w' i n : inv w -> step w (Chunk i n) = Some w' -> inv w'.
Proof.
  intros [Hr Hw Ha Ht]. cbn. destruct (writers w !! i) as [[temp key value k|]|] eqn:Ei; [|done..]. intros [= <-].
  destruct (Hw i _ Ei) as (Hbeg & Hin & Hb). cbn.
  assert (Hapart : forall i0 j x y t, <[i := Writing temp key value (k + n)]> (writers w) !! i0 = Some x ->
    <[i := Writing temp key value (k + n)]> (writers w) !! j = Some y -> temp_of x = Some t -> temp_of y = Some t -> i0 = j).
  { intros i0 j x y t [(<- & <- & _)|(_ & Hx)]%list_lookup_insert_Some [(<- & <- & _)|(_ & Hy)]%list_lookup_insert_Some Tx Ty;
      try done.
    - by apply (Ha _ _ _ _ t Ei Hy).
    - by apply (Ha _ _ _ _ t Hx Ei).
    - by apply (Ha i0 j x y t). }
  destruct (files w !! temp) as [b0|] eqn:Ef; split; cbn; try done.
  - intros key' v (q & Hq & Hv)%read_files. cbn in Hv. rewrite lookup_insert_ne in Hv by (by eapply Ht).
    apply Hr, read_files. by exists q.
  - intros j x Hx. pose proof Hx as [(<- & <- & _)|(Hne & Hx')]%list_lookup_insert_Some.
    + cbn. split; [done|]. split; [done|]. intros b. rewrite lookup_insert_eq. by intros [= <-].
    + specialize (Hw j x Hx'). destruct x as [t k' v' n'|]; [|done]. cbn in *. destruct Hw as (? & ? & Hb').
      split; [done|]. split; [done|]. rewrite lookup_insert_ne; [done|]. intros ->. by apply Hne, (Ha i j _ _ t Ei Hx').
  - intros j x [(<- & <- & _)|(_ & Hx)]%list_lookup_insert_Some; [|by apply (Hw j)].
    cbn. split; [done|]. split; [done|]. by rewrite Ef.
Qed.

Lemma step_rename w w' i : inv w -> step w (Rename i) = Some w' -> inv w'.
Proof.
  intros Hinv. pose proof Hinv as [Hr Hw Ha Ht]. cbn.
  destruct (writers w !! i) as [[temp key value k|]|] eqn:Ei; [|done..].
  destruct (Nat.leb_spec (length value) k) as [Hk|]; [|done]. destruct (files w !! temp) as [bytes|] eqn:Ef; [|done].
  destruct (entry_path no_debug key) as [p|] eqn:Ep; [|done]. intros [= <-]. apply inv_stop.
  destruct (Hw i _ Ei) as (Hbeg & Hin & Hb). rewrite (Hb bytes Ef), take_ge by done.
  destruct (inv_shrink w (delete temp (files w)) (delete_subseteq _ _) Hinv) as [Hr1 Hw1 _ _]. cbn in *.
  split; cbn; try done.
  - intros key' v (q & Hq & Hv)%read_files. cbn in Hv. destruct (decide (p = q)) as [<-|Hne].
    + rewrite lookup_insert_eq in Hv. injection Hv as <-. by rewrite (entry_path_inj _ _ _ _ Hq Ep).
    + rewrite lookup_insert_ne in Hv by done. apply Hr1, read_files. by exists q.
  - intros j x Hx. specialize (Hw1 j x Hx). destruct x as [t k' v' n'|]; [|done]. cbn in *.
    destruct Hw1 as (? & Hin' & Hb'). split; [done|]. split; [done|].
    rewrite lookup_insert_ne; [done|]. intros <-. by apply (Ht p Hin' key p).
Qed.

Lemma protocol_step_inv w w' e : inv w -> step w e = Some w' -> inv w'.
Proof.
  destruct e as [key value pid counter nonce|i n|i|i unlinked|i|p]; intros Hi.
  - by apply step_begin.
  - by apply step_chunk.
  - by apply step_rename.
  - cbn. destruct (writers w !! i) as [[]|]; [|done..]. intros [= <-]. apply inv_stop, inv_shrink; [|done].
    destruct unlinked; [apply delete_subseteq|done].
  - cbn. destruct (writers w !! i); [|done]. intros [= <-]. by apply inv_stop.
  - intros [= <-]. apply inv_shrink; [apply delete_subseteq|done].
Qed.

Lemma protocol_run_inv evs w w' : inv w -> run evs w = Some w' -> inv w'.
Proof.
  revert w. induction evs as [|e evs IH]; intros w Hi; cbn; [by intros [= <-]|].
  intros (w1 & Hs & Hr)%bind_Some. apply (IH w1); [by eapply protocol_step_inv|done].
Qed.


Definition sample_run : list Event :=
  [Begin (sample_key "a") [1; 2; 3] 1 0 "n0"; Begin (sample_key "a") [4; 5] 1 0 "n1"; Chunk 0 2; Chunk 1 2; Rename 1; Crash 0].


End Protocol.
