(* ===== verification/TypeTable.v ===== *)
(** * The type table (cutile-ir/src/bytecode/writer.rs, decoder.rs)

    Types are interned so that every type appears after the types it
    mentions; the Type section serializes each as a tag and the indices of
    its components, and the decoder renders it using the entries already
    decoded.  The theorems show that interning keeps the table closed under
    dependencies, that serialization never grows the table being written, and
    that the section decodes to the rendering of each type. *)

From S2P Require Import Prelude Enums Encoding IR Tables.

(** ** The type manager *)

Record TypeManager := mkTypeManager { tm_list : list IRType; tm_map : list (IRType * Z) }.

Definition type_manager_new : TypeManager := mkTypeManager [] [].

Definition pointer_dependency (ty : IRType) : option IRType :=
  match ty with
  | TTile t => match tt_element_type t with TEPointer p => Some (TPointer p) | _ => None end
  | TPartitionView v => Some (TTensorView (pv_tensor_view v))
  | TGatherScatterView v => Some (TTensorView (gsv_tensor_view v))
  | TStridedView v => Some (TTensorView (sv_tensor_view v))
  | _ => None
  end.

(** The types [register_deps] inserts, in order. *)
Definition type_deps (ty : IRType) : list IRType :=
  match ty with
  | TWithPointerAttribute base attr =>
      match base with
      | TPointer p => [TScalar (pointee p)]
      | TTensorView tv => [TScalar (tv_element_type tv)]
      | _ => match pointer_dependency base with
             | Some dependency => [with_pointer_attribute dependency attr]
             | None => []
             end
      end
  | TPointer p => [TScalar (pointee p)]
  | TTile t => match tt_element_type t with
               | TEScalar s => [TScalar s]
               | TEPointer p => [TPointer p]
               end
  | TTensorView tv => [TScalar (tv_element_type tv)]
  | TPartitionView pv => [TTensorView (pv_tensor_view pv)]
  | TGatherScatterView gsv => [TTensorView (gsv_tensor_view gsv)]
  | TStridedView sv => [TTensorView (sv_tensor_view sv)]
  | TFunc inputs results => inputs ++ results
  | TScalar _ | TToken => []
  end.

(** [get_or_insert], with [register_deps] as the fold over [type_deps].  The
    fuel bounds the nesting of dependencies; [type_rank] is enough. *)
Fixpoint tm_insert (fuel : nat) (tm : TypeManager) (ty : IRType) : TypeManager * Z :=
  match assoc_get (tm_map tm) ty with
  | Some idx => (tm, idx)
  | None =>
      match fuel with
      | O => (tm, 0)
      | S fuel =>
          let tm := foldl (fun tm d => (tm_insert fuel tm d).1) tm (type_deps ty) in
          let idx := zlen (tm_list tm) in
          (mkTypeManager (tm_list tm ++ [ty]) ((ty, idx) :: tm_map tm), idx)
      end
  end.

Fixpoint type_rank (ty : IRType) : nat :=
  match ty with
  | TScalar _ | TToken => 1
  | TPointer _ | TTensorView _ => 2
  | TTile _ | TPartitionView _ | TGatherScatterView _ | TStridedView _ => 3
  | TFunc inputs results =>
      S (foldr (fun t n => Nat.max (type_rank t) n) (foldr (fun t n => Nat.max (type_rank t) n) 0%nat results) inputs)
  | TWithPointerAttribute base _ => S (type_rank base)
  end.

Definition tm_get_or_insert (tm : TypeManager) (ty : IRType) : TypeManager * Z :=
  tm_insert (type_rank ty) tm ty.

(** ** Serialization *)

Definition require_version (feature : string) (required target : BytecodeVersion) : outcome Error unit :=
  if version_lt target required
  then Err (BytecodeWrite (feature +:+ " requires bytecode version " +:+ show_version required
         +:+ " or newer, requested " +:+ show_version target))
  else Ok tt.

Definition qualify (attr : option PointerAttribute) (ty : IRType) : IRType :=
  match attr with Some a => with_pointer_attribute ty a | None => ty end.

(** [let idx = types.get_or_insert(ty); w.write_varint(idx)]. *)
Definition write_type_index (ty : IRType) (tw : TypeManager * EncodingWriter) : TypeManager * EncodingWriter :=
  let '(tm, w) := tw in
  let '(tm, idx) := tm_get_or_insert tm ty in (tm, write_varint idx w).

Definition write_pad_byte (p : option PaddingValue) (w : EncodingWriter) : EncodingWriter :=
  match p with Some v => write_byte (padding_u8 v) w | None => w end.

Definition write_attr_byte (a : option PointerAttribute) (w : EncodingWriter) : EncodingWriter :=
  match a with Some v => write_byte (pointer_attribute_u8 v) w | None => w end.

Definition tag_of (t : TypeTag.t) (w : EncodingWriter) : EncodingWriter := write_varint (TypeTag.as_u8 t) w.

(** [if version >= 13.4 { write_varint(pointer_attribute.is_some()) }]. *)
Definition write_attr_flag (version : BytecodeVersion) (a : option PointerAttribute) (w : EncodingWriter)
    : EncodingWriter :=
  if version_ge version V13_4 then write_varint (bool_as (is_some a)) w else w.

Fixpoint serialize_type_with_pointer_attribute (ty : IRType) (types : TypeManager) (w : EncodingWriter)
    (version : BytecodeVersion) (attr : option PointerAttribute)
    : outcome Error (TypeManager * EncodingWriter) :=
  match ty with
  | TWithPointerAttribute base a =>
      _ ← require_version "ptr_attr" (Feature.since Feature.PointerAttribute) version;
      if negb (match base with TPointer _ | TTensorView _ => true | _ => false end)
         && negb (is_some (pointer_dependency base))
      then Err (BytecodeWrite "ptr_attr requires a pointer, pointer tile or view type")
      else serialize_type_with_pointer_attribute base types w version (Some a)
  | TScalar s =>
      _ ← require_version (show_scalar s) (minimum_version s) version;
      Ok (types, tag_of (type_tag s) w)
  | TPointer p =>
      let w := write_attr_flag version attr (tag_of TypeTag.Pointer w) in
      let '(types, w) := write_type_index (TScalar (pointee p)) (types, w) in
      Ok (types, write_attr_byte attr w)
  | TTile t =>
      let w := tag_of TypeTag.Tile w in
      let elem_ty := match tt_element_type t with
                     | TEScalar s => TScalar s
                     | TEPointer p => qualify attr (TPointer p)
                     end in
      let '(types, w) := write_type_index elem_ty (types, w) in
      Ok (types, write_le_var_size_i64 (tt_shape t) w)
  | TTensorView tv =>
      let w := write_attr_flag version attr (tag_of TypeTag.TensorView w) in
      let '(types, w) := write_type_index (TScalar (tv_element_type tv)) (types, w) in
      let w := write_le_var_size_i64 (tv_shape tv) w in
      let w := write_le_var_size_i64 (tv_strides tv) w in
      Ok (types, write_attr_byte attr w)
  | TPartitionView pv =>
      let w := tag_of TypeTag.PartitionView w in
      let w := if version_ge version V13_3
               then write_varint (bool_as (is_some (pv_padding_value pv))) w else w in
      let w := write_le_var_size_i32 (pv_tile_shape pv) w in
      let '(types, w) := write_type_index (qualify attr (TTensorView (pv_tensor_view pv))) (types, w) in
      let w := write_le_var_size_i32 (pv_dim_map pv) w in
      if version_ge version V13_3 then Ok (types, write_pad_byte (pv_padding_value pv) w)
      else
        let w := write_byte (bool_as (is_some (pv_padding_value pv))) w in
        Ok (types, match pv_padding_value pv with
                   | Some v => write_varint (padding_u8 v) w
                   | None => w
                   end)
  | TGatherScatterView gsv =>
      _ ← require_version "gather_scatter_view" (Feature.since Feature.GatherScatterView) version;
      let w := tag_of TypeTag.GatherScatterView w in
      let w := write_varint (bool_as (is_some (gsv_padding_value gsv))) w in
      let w := write_le_var_size_i32 (gsv_tile_shape gsv) w in
      let '(types, w) := write_type_index (qualify attr (TTensorView (gsv_tensor_view gsv))) (types, w) in
      let w := write_varint (as_u64 (gsv_sparse_dim gsv)) w in
      Ok (types, write_pad_byte (gsv_padding_value gsv) w)
  | TStridedView sv =>
      _ ← require_version "strided_view" (Feature.since Feature.StridedView) version;
      let w := tag_of TypeTag.StridedView w in
      let w := write_varint (bool_as (is_some (sv_padding_value sv))) w in
      let w := write_le_var_size_i32 (sv_tile_shape sv) w in
      let w := write_le_var_size_i32 (sv_traversal_strides sv) w in
      let '(types, w) := write_type_index (qualify attr (TTensorView (sv_tensor_view sv))) (types, w) in
      let w := write_le_var_size_i32 (sv_dim_map sv) w in
      Ok (types, write_pad_byte (sv_padding_value sv) w)
  | TFunc inputs results =>
      let w := tag_of TypeTag.Func w in
      let w := write_varint (zlen inputs) w in
      let '(types, w) := foldl (fun tw t => write_type_index t tw) (types, w) inputs in
      let w := write_varint (zlen results) w in
      Ok (foldl (fun tw t => write_type_index t tw) (types, w) results)
  | TToken => Ok (types, tag_of TypeTag.Token w)
  end.

Definition serialize_type (ty : IRType) (types : TypeManager) (w : EncodingWriter)
    (version : BytecodeVersion) : outcome Error (TypeManager * EncodingWriter) :=
  serialize_type_with_pointer_attribute ty types w version None.

(** The serialization loop of [write_type_section]: offsets advance by the
    bytes each type took. *)
Fixpoint serialize_all (tys : list IRType) (running : Z) (types : TypeManager) (w : EncodingWriter)
    (version : BytecodeVersion) : outcome Error (list Z * EncodingWriter) :=
  match tys with
  | [] => Ok ([], w)
  | ty :: tys =>
      let before := tell w in
      tw ← serialize_type ty types w version;
      let '(types, w) := (tw : TypeManager * EncodingWriter) in
      ow ← serialize_all tys (as_u32 (running + as_u32 (tell w - before))) types w version;
      Ok (running :: (ow : list Z * EncodingWriter).1, ow.2)
  end.

Definition write_type_section (out : list Z) (types : TypeManager) (version : BytecodeVersion)
    : outcome Error (list Z) :=
  match tm_list types with
  | [] => Ok out
  | tys =>
      let w := align_to 4 (write_varint (zlen tys) writer_new) in
      let offsets_pos := tell w in
      let w := Nat.iter (length tys) (write_le_u32 0) w in
      ow ← serialize_all tys 0 types w version;
      let '(offsets, w) := (ow : list Z * EncodingWriter) in
      b ← patch_loop 4 (buf w) offsets_pos 0 offsets;
      Ok (write_section_header out Section_.Type_ (zlen b) 4 ++ b)
  end.

(** ** The decoder *)

Definition show_dim (d : Z) : string := if d =? DYNAMIC then "?" else pretty d.

Definition prev_name (prev_types : list string) (idx : Z) : string :=
  default "?"%string (prev_types !! Z.to_nat idx).

Definition uvar : RM Z := unwrap_or 0 read_varint.
Definition ubyte : RM Z := unwrap_or 0 read_byte.

(** [let n = read_varint(); with_capacity(n); for _ in 0..n { read() }]. *)
Definition read_vec {A} (size : Z) (m : RM A) : RM (list A) :=
  n ← uvar; _ ← with_capacity n size; read_many (Z.to_nat n) m.
Definition i64s : RM (list Z) := read_vec 8 (unwrap_or 0 read_le_i64).
Definition i32s : RM (list Z) := read_vec 4 (unwrap_or 0 read_le_i32).
Definition names (prev : list string) : RM (list string) := read_vec 24 (i ← uvar; mret (prev_name prev i)).

Definition bit0 (flags : Z) : bool := negb (Z.land flags 1 =? 0).

Definition decode_type_body (tag : Z) (prev_types : list string) (version : BytecodeVersion) : RM string :=
  let is_tag t := tag =? TypeTag.as_u8 t in
  if is_tag TypeTag.I1 then mret "i1"%string
  else if is_tag TypeTag.I4 then mret "i4"%string
  else if is_tag TypeTag.I8 then mret "i8"%string
  else if is_tag TypeTag.I16 then mret "i16"%string
  else if is_tag TypeTag.I32 then mret "i32"%string
  else if is_tag TypeTag.I64 then mret "i64"%string
  else if is_tag TypeTag.F16 then mret "f16"%string
  else if is_tag TypeTag.BF16 then mret "bf16"%string
  else if is_tag TypeTag.F32 then mret "f32"%string
  else if is_tag TypeTag.TF32 then mret "tf32"%string
  else if is_tag TypeTag.F64 then mret "f64"%string
  else if is_tag TypeTag.F8E4M3FN then mret "f8e4m3fn"%string
  else if is_tag TypeTag.F8E5M2 then mret "f8e5m2"%string
  else if is_tag TypeTag.F8E8M0FNU then mret "f8e8m0fnu"%string
  else if is_tag TypeTag.F4E2M1FN then mret "f4e2m1fn"%string
  else if is_tag TypeTag.F8E5M3FNU then mret "f8e5m3fnu"%string
  else if is_tag TypeTag.Token then mret "token"%string
  else if is_tag TypeTag.Pointer then
    flags ← (if version_ge version V13_4 then uvar else mret 0);
    elem ← uvar;
    let elem_name := prev_name prev_types elem in
    if bit0 flags then attr ← ubyte; mret ("ptr<" +:+ elem_name +:+ ", ptr_attr=" +:+ pretty attr +:+ ">")
    else mret ("ptr<" +:+ elem_name +:+ ">")
  else if is_tag TypeTag.Tile then
    elem ← uvar;
    let elem_name := prev_name prev_types elem in
    dims ← i64s;
    let shape_str := join "x" (pretty <$> (dims : list Z)) in
    mret (if bool_decide (shape_str = EmptyString) then "tile<" +:+ elem_name +:+ ">"
          else "tile<" +:+ shape_str +:+ "x" +:+ elem_name +:+ ">")
  else if is_tag TypeTag.TensorView then
    flags ← (if version_ge version V13_4 then uvar else mret 0);
    elem ← uvar;
    let elem_name := prev_name prev_types elem in
    shape ← i64s;
    strides ← i64s;
    let shape_str := join "x" (show_dim <$> (shape : list Z)) in
    let stride_str := join "," (show_dim <$> (strides : list Z)) in
    ptr_attr ← (if bit0 flags then a ← ubyte; mret (", ptr_attr=" +:+ pretty a) else mret EmptyString);
    mret ("tensor_view<" +:+ shape_str +:+ "x" +:+ elem_name +:+ ", strides=[" +:+ stride_str +:+ "]"
            +:+ ptr_attr +:+ ">")
  else if is_tag TypeTag.PartitionView then
    flag ← (if version_ge version V13_3 then flags ← uvar; mret (Some (bit0 flags)) else mret None);
    tile_shape ← i32s;
    tv_idx ← uvar;
    let tv_name := prev_name prev_types tv_idx in
    dim_map ← i32s;
    has_padding ← (match flag with
                   | Some b => mret b
                   | None => b ← ubyte; mret (negb (b =? 0))
                   end);
    padding ← (if (has_padding : bool)
               then p ← (if version_ge version V13_3 then ubyte else uvar);
                    mret (", padding=" +:+ pretty p)
               else mret EmptyString);
    mret ("partition_view<tile=(" +:+ join "x" (pretty <$> (tile_shape : list Z)) +:+ "), tv=" +:+ tv_name
            +:+ padding +:+ ">")
  else if is_tag TypeTag.GatherScatterView then
    flags ← uvar;
    tile_shape ← i32s;
    tv_idx ← uvar;
    let tv_name := prev_name prev_types tv_idx in
    sparse_dim ← uvar;
    padding ← (if bit0 flags then p ← ubyte; mret (", padding=" +:+ pretty p) else mret EmptyString);
    mret ("gather_scatter_view<tile=(" +:+ join "x" (pretty <$> (tile_shape : list Z)) +:+ "), tv=" +:+ tv_name
            +:+ ", sparse_dim=" +:+ pretty sparse_dim +:+ padding +:+ ">")
  else if is_tag TypeTag.StridedView then
    flags ← uvar;
    tile_shape ← i32s;
    traversal_strides ← i32s;
    tv_idx ← uvar;
    let tv_name := prev_name prev_types tv_idx in
    dim_map ← i32s;
    padding ← (if bit0 flags then p ← ubyte; mret (", padding=" +:+ pretty p) else mret EmptyString);
    mret ("strided_view<tile=(" +:+ join "x" (pretty <$> (tile_shape : list Z)) +:+ "), traversal_strides=["
            +:+ join "," (pretty <$> (traversal_strides : list Z)) +:+ "], tv=" +:+ tv_name +:+ ", dim_map=["
            +:+ join "," (pretty <$> (dim_map : list Z)) +:+ "]" +:+ padding +:+ ">")
  else if is_tag TypeTag.Func then
    inputs ← names prev_types;
    results ← names prev_types;
    mret ("(" +:+ join ", " inputs +:+ ") -> (" +:+ join ", " results +:+ ")")
  else mret ("<unknown type tag " +:+ pretty tag +:+ ">").

Definition decode_type_entry (data : list Z) (prev_types : list string) (version : BytecodeVersion)
    : outcome Error string :=
  match read_varint (reader_new data) with
  | (Ok tag_val, r) => (decode_type_body (as_u8 tag_val) prev_types version r).1
  | (Err _, _) => Ok "<read error>"%string
  | (Panic, _) => Panic
  end.

Fixpoint decode_entries (entries : list (list Z)) (types : list string) (version : BytecodeVersion)
    : outcome Error (list string) :=
  match entries with
  | [] => Ok types
  | e :: es => desc ← decode_type_entry e types version; decode_entries es (types ++ [desc]) version
  end.

Definition parse_type_section (payload : option (list Z)) (version : BytecodeVersion)
    : outcome Error (list string) :=
  match payload with
  | None => Ok []
  | Some data => entries ← run (parse_table 4) data; decode_entries entries [] version
  end.

(** ** Interning keeps the table closed *)

Lemma rank_in_list (l : list IRType) n t : t ∈ l ->
  (type_rank t <= foldr (fun t n => Nat.max (type_rank t) n) n l)%nat.
Proof.
  induction l as [|x l IH]; intros H; [by apply not_elem_of_nil in H|].
  apply elem_of_cons in H as [->|H]; cbn; [lia|]. specialize (IH H). lia.
Qed.

Lemma foldr_rank_ge (l : list IRType) n : (n <= foldr (fun t n => Nat.max (type_rank t) n) n l)%nat.
Proof. induction l; cbn; lia. Qed.

Lemma rank_pos ty : (0 < type_rank ty)%nat.
Proof. destruct ty; cbn [type_rank]; apply Nat.lt_0_succ. Qed.

Lemma rank_deps ty d : d ∈ type_deps ty -> (type_rank d < type_rank ty)%nat.
Proof.
  destruct ty as [s|p|t|t|t|t|t|i r| |b a]; cbn [type_deps]; intros H.
  all: try (apply list_elem_of_singleton in H as ->; cbn; lia).
  all: try by apply not_elem_of_nil in H.
  - destruct (tt_element_type t); apply list_elem_of_singleton in H as ->; cbn; lia.
  - apply elem_of_app in H as [H|H]; cbn.
    + pose proof (rank_in_list i (foldr (fun t n => Nat.max (type_rank t) n) 0%nat r) d H). lia.
    + pose proof (rank_in_list r 0%nat d H).
      pose proof (foldr_rank_ge i (foldr (fun t n => Nat.max (type_rank t) n) 0%nat r)). lia.
  - destruct b as [s|p|t|t|t|t|t|i r| |b' a']; cbn in H;
      try (by apply not_elem_of_nil in H); try (apply list_elem_of_singleton in H as ->; cbn; lia).
    destruct (tt_element_type t); [by apply not_elem_of_nil in H|].
    apply list_elem_of_singleton in H as ->; cbn; lia.
Qed.

(** The invariant: the map gives each type its position, and every type comes
    after the types it mentions. *)
Record tm_wf (tm : TypeManager) : Prop := {
  tm_index_ok ty i : assoc_get (tm_map tm) ty = Some i <-> 0 <= i /\ tm_list tm !! Z.to_nat i = Some ty;
  tm_closed k ty d : tm_list tm !! k = Some ty -> d ∈ type_deps ty ->
    exists j, (j < k)%nat /\ tm_list tm !! j = Some d;
}.

Lemma tm_new_wf : tm_wf type_manager_new.
Proof. split; cbn; intros; [rewrite lookup_nil; split; [done|intros [_ [=]]]|by rewrite lookup_nil in H]. Qed.

Lemma tm_known tm ty : tm_wf tm -> assoc_get (tm_map tm) ty = None <-> ty ∉ tm_list tm.
Proof.
  intros Hw. split.
  - intros Hn [k Hk]%list_elem_of_lookup.
    assert (assoc_get (tm_map tm) ty = Some (Z.of_nat k)) as E; [|congruence].
    apply tm_index_ok; [done|]. rewrite Nat2Z.id. split; [lia|done].
  - intros Hni. destruct (assoc_get (tm_map tm) ty) as [i|] eqn:E; [|done].
    apply tm_index_ok in E as [_ E]; [|done]. by apply list_elem_of_lookup_2 in E.
Qed.

(** What an insertion of [ty] does to a manager. *)
Record inserted (ty : IRType) (tm tm' : TypeManager) (i : Z) : Prop := {
  ins_wf : tm_wf tm';
  ins_prefix : tm_list tm `prefix_of` tm_list tm';
  ins_nonneg : 0 <= i;
  ins_index : tm_list tm' !! Z.to_nat i = Some ty;
  ins_same : ty ∈ tm_list tm -> tm' = tm;
  ins_rank x : x ∈ tm_list tm' -> x ∈ tm_list tm \/ (type_rank x <= type_rank ty)%nat;
}.

Lemma append_wf tm ty : tm_wf tm -> ty ∉ tm_list tm -> (forall d, d ∈ type_deps ty -> d ∈ tm_list tm) ->
  tm_wf (mkTypeManager (tm_list tm ++ [ty]) ((ty, zlen (tm_list tm)) :: tm_map tm)).
Proof.
  intros Hw Hni Hdeps. split; cbn [tm_list tm_map].
  - intros ty' i. unfold assoc_get; cbn. case_bool_decide as E; cbn.
    + subst ty'. split.
      * intros [= <-]. split; [apply zlen_nonneg|]. rewrite to_nat_zlen. by rewrite list_lookup_middle.
      * intros [Hi Hl]. apply lookup_app_Some in Hl as [Hl|[Hge Hl]].
        { by apply list_elem_of_lookup_2 in Hl. }
        apply list_lookup_singleton_Some in Hl as [Ek _]. f_equal. unfold zlen. lia.
    + fold (assoc_get (tm_map tm) ty'). rewrite tm_index_ok by done.
      split; intros [Hi Hl]; (split; [done|]); [by apply lookup_app_l_Some|].
      apply lookup_app_Some in Hl as [Hl|[Hge Hl]]; [done|].
      apply list_lookup_singleton_Some in Hl as [_ ?]. congruence.
  - intros k ty' d Hk Hd. apply lookup_app_Some in Hk as [Hk|[Hge Hk]].
    + destruct (tm_closed tm Hw k ty' d Hk Hd) as (j & Hj & Hl).
      exists j. split; [done|]. by apply lookup_app_l_Some.
    + apply list_lookup_singleton_Some in Hk as [Ek <-].
      apply Hdeps, list_elem_of_lookup in Hd as [j Hj]. exists j.
      split; [apply lookup_lt_Some in Hj; lia|]. by apply lookup_app_l_Some.
Qed.

Lemma tm_insert_spec fuel tm ty tm' i : (type_rank ty <= fuel)%nat -> tm_wf tm ->
  tm_insert fuel tm ty = (tm', i) -> inserted ty tm tm' i.
Proof.
  revert tm ty tm' i. induction fuel as [|fuel IH]; intros tm ty tm' i Hr Hw H.
  { pose proof (rank_pos ty). lia. }
  cbn [tm_insert] in H. destruct (assoc_get (tm_map tm) ty) as [j|] eqn:E.
  { injection H as <- <-. apply tm_index_ok in E as [Hj Hl]; [|done]. split; auto. }
  apply tm_known in E; [|done].
  assert (Hfold : forall ds tm0, tm_wf tm0 -> (forall d, d ∈ ds -> (type_rank d < type_rank ty)%nat) ->
    let tm1 := foldl (fun tm d => (tm_insert fuel tm d).1) tm0 ds in
    tm_wf tm1 /\ tm_list tm0 `prefix_of` tm_list tm1 /\ (forall d, d ∈ ds -> d ∈ tm_list tm1) /\
    (forall x, x ∈ tm_list tm1 -> x ∈ tm_list tm0 \/ (type_rank x < type_rank ty)%nat)).
  { clear H E. induction ds as [|d ds IHds]; intros tm0 H0 Hds; cbn.
    { split_and!; auto. intros d Hd. by apply not_elem_of_nil in Hd. }
    destruct (tm_insert fuel tm0 d) as [tm1 j] eqn:Ed. cbn.
    assert (type_rank d < type_rank ty)%nat as Hdr by (apply Hds; left).
    destruct (IH tm0 d tm1 j ltac:(lia) H0 Ed) as [W P N L _ R].
    destruct (IHds tm1 W) as (W2 & P2 & D2 & R2); [intros; apply Hds; by right|].
    split_and!; [done|by etrans| |].
    - intros d' [->|Hd']%elem_of_cons; [|auto]. apply list_elem_of_lookup_2 in L.
      destruct P2 as [k Hk]. rewrite Hk. apply elem_of_app. by left.
    - intros x [Hx|Hx]%R2; [|auto]. destruct (R x Hx); [auto|]. right. lia. }
  destruct (Hfold (type_deps ty) tm Hw (rank_deps ty)) as (W & P & D & R).
  set (tm1 := foldl _ tm (type_deps ty)) in *. injection H as <- <-.
  assert (ty ∉ tm_list tm1) as Hni by (intros [?|?]%R; [done|lia]).
  split; cbn [tm_list].
  - by apply append_wf.
  - by apply prefix_app_r.
  - apply zlen_nonneg.
  - rewrite to_nat_zlen. by rewrite list_lookup_middle.
  - done.
  - intros x [Hx| ->%list_elem_of_singleton]%elem_of_app; [|auto]. destruct (R x Hx); [auto|]. right. lia.
Qed.

Lemma tm_get_or_insert_spec tm ty tm' i : tm_wf tm -> tm_get_or_insert tm ty = (tm', i) -> inserted ty tm tm' i.
Proof. apply tm_insert_spec. lia. Qed.

(** The index of a registered type. *)
Definition tm_idx (tm : TypeManager) (ty : IRType) : Z := default 0 (assoc_get (tm_map tm) ty).

Lemma tm_get_known tm ty : tm_wf tm -> ty ∈ tm_list tm ->
  tm_get_or_insert tm ty = (tm, tm_idx tm ty) /\ 0 <= tm_idx tm ty < zlen (tm_list tm) /\
  tm_list tm !! Z.to_nat (tm_idx tm ty) = Some ty.
Proof.
  intros Hw Hin. unfold tm_get_or_insert, tm_idx.
  destruct (assoc_get (tm_map tm) ty) as [i|] eqn:E; [|by apply tm_known in E].
  split; [destruct ty; cbn [type_rank tm_insert]; by rewrite E|].
  apply tm_index_ok in E as [Hi Hl]; [|done]. cbn. split; [|done].
  apply lookup_lt_Some in Hl. unfold zlen. lia.
Qed.

(** ** The bytes of a type *)

Definition dims64 (l : list Z) : list Z := varint (zlen l) ++ concat (le_bytes 8 <$> l).
Definition dims32 (l : list Z) : list Z := varint (zlen l) ++ concat (le_bytes 4 <$> l).
Definition tag_bytes (t : TypeTag.t) : list Z := varint (TypeTag.as_u8 t).
Definition flag_bytes (b : bool) : list Z := varint (bool_as b).
Definition attr_flag (v : BytecodeVersion) (a : option PointerAttribute) : list Z :=
  if version_ge v V13_4 then flag_bytes (is_some a) else [].
Definition attr_bytes (a : option PointerAttribute) : list Z :=
  match a with Some x => [pointer_attribute_u8 x] | None => [] end.
Definition pad_value_bytes (p : option PaddingValue) : list Z :=
  match p with Some x => [padding_u8 x] | None => [] end.
Definition elem_type (attr : option PointerAttribute) (e : TileElementType) : IRType :=
  match e with TEScalar s => TScalar s | TEPointer p => qualify attr (TPointer p) end.

Fixpoint type_bytes (idx : IRType -> Z) (v : BytecodeVersion) (attr : option PointerAttribute)
    (ty : IRType) : list Z :=
  match ty with
  | TWithPointerAttribute base a => type_bytes idx v (Some a) base
  | TScalar s => tag_bytes (type_tag s)
  | TPointer p =>
      tag_bytes TypeTag.Pointer ++ attr_flag v attr ++ varint (idx (TScalar (pointee p))) ++ attr_bytes attr
  | TTile t =>
      tag_bytes TypeTag.Tile ++ varint (idx (elem_type attr (tt_element_type t))) ++ dims64 (tt_shape t)
  | TTensorView tv =>
      tag_bytes TypeTag.TensorView ++ attr_flag v attr ++ varint (idx (TScalar (tv_element_type tv)))
        ++ dims64 (tv_shape tv) ++ dims64 (tv_strides tv) ++ attr_bytes attr
  | TPartitionView pv =>
      tag_bytes TypeTag.PartitionView
        ++ (if version_ge v V13_3 then flag_bytes (is_some (pv_padding_value pv)) else [])
        ++ dims32 (pv_tile_shape pv) ++ varint (idx (qualify attr (TTensorView (pv_tensor_view pv))))
        ++ dims32 (pv_dim_map pv)
        ++ (if version_ge v V13_3 then pad_value_bytes (pv_padding_value pv)
            else [bool_as (is_some (pv_padding_value pv))]
                 ++ match pv_padding_value pv with Some x => varint (padding_u8 x) | None => [] end)
  | TGatherScatterView g =>
      tag_bytes TypeTag.GatherScatterView ++ flag_bytes (is_some (gsv_padding_value g))
        ++ dims32 (gsv_tile_shape g) ++ varint (idx (qualify attr (TTensorView (gsv_tensor_view g))))
        ++ varint (as_u64 (gsv_sparse_dim g)) ++ pad_value_bytes (gsv_padding_value g)
  | TStridedView s =>
      tag_bytes TypeTag.StridedView ++ flag_bytes (is_some (sv_padding_value s))
        ++ dims32 (sv_tile_shape s) ++ dims32 (sv_traversal_strides s)
        ++ varint (idx (qualify attr (TTensorView (sv_tensor_view s))))
        ++ dims32 (sv_dim_map s) ++ pad_value_bytes (sv_padding_value s)
  | TFunc i r =>
      tag_bytes TypeTag.Func ++ varint (zlen i) ++ concat ((fun t => varint (idx t)) <$> i)
        ++ varint (zlen r) ++ concat ((fun t => varint (idx t)) <$> r)
  | TToken => tag_bytes TypeTag.Token
  end.

Lemma write_bytes_app a b w : write_bytes b (write_bytes a w) = write_bytes (a ++ b) w.
Proof. unfold write_bytes; cbn. by rewrite <- app_assoc. Qed.

Lemma write_bytes_nil w : write_bytes [] w = w.
Proof. unfold write_bytes. rewrite app_nil_r. by destruct w. Qed.

Lemma write_bytes_buf a w w' : buf w' = buf w ++ a -> required_alignment w' = required_alignment w ->
  w' = write_bytes a w.
Proof. destruct w'. unfold write_bytes. cbn. by intros -> ->. Qed.

Lemma write_dims64 l w : write_le_var_size_i64 l w = write_bytes (dims64 l) w.
Proof.
  apply write_bytes_buf; [apply write_le_var_size_i64_buf|].
  unfold write_le_var_size_i64, write_le_i64. by rewrite (proj2 (write_loop_buf 8 l _)).
Qed.
Lemma write_dims32 l w : write_le_var_size_i32 l w = write_bytes (dims32 l) w.
Proof.
  apply write_bytes_buf; [apply write_le_var_size_i32_buf|].
  unfold write_le_var_size_i32, write_le_i32. by rewrite (proj2 (write_loop_buf 4 l _)).
Qed.
Lemma write_attr_flag_eq v a w : write_attr_flag v a w = write_bytes (attr_flag v a) w.
Proof. unfold write_attr_flag, attr_flag. destruct (version_ge v V13_4); [done|]. by rewrite write_bytes_nil. Qed.
Lemma write_attr_byte_eq a w : write_attr_byte a w = write_bytes (attr_bytes a) w.
Proof. destruct a; [done|]. by rewrite write_bytes_nil. Qed.
Lemma write_pad_byte_eq p w : write_pad_byte p w = write_bytes (pad_value_bytes p) w.
Proof. destruct p; [done|]. by rewrite write_bytes_nil. Qed.

(** The types serialization looks up under an attribute. *)
Definition attr_deps (attr : option PointerAttribute) (ty : IRType) : list IRType :=
  match attr with Some a => type_deps (TWithPointerAttribute ty a) | None => type_deps ty end.

(** An attribute only reaches the types that can carry one. *)
Definition carries (attr : option PointerAttribute) (ty : IRType) : bool :=
  match attr with
  | None => true
  | Some _ => match ty with TPointer _ | TTensorView _ => true | _ => is_some (pointer_dependency ty) end
  end.

Section serialize.
Context (tm : TypeManager) (Htm : tm_wf tm) (v : BytecodeVersion).

Lemma write_type_index_known ty w : ty ∈ tm_list tm ->
  write_type_index ty (tm, w) = (tm, write_bytes (varint (tm_idx tm ty)) w).
Proof. intros Hin. unfold write_type_index. by rewrite (proj1 (tm_get_known tm ty Htm Hin)). Qed.

Lemma write_type_indices_known tys w : (forall t, t ∈ tys -> t ∈ tm_list tm) ->
  foldl (fun tw t => write_type_index t tw) (tm, w) tys =
  (tm, write_bytes (concat ((fun t => varint (tm_idx tm t)) <$> tys)) w).
Proof.
  revert w. induction tys as [|t tys IH]; intros w H; [by rewrite write_bytes_nil|].
  cbn [foldl]. rewrite write_type_index_known by (apply H; left). rewrite IH by (intros; apply H; by right).
  by rewrite write_bytes_app.
Qed.

(** Rewriting every writer step to [write_bytes] and merging them. *)
Ltac merge_writes :=
  unfold tag_of, write_varint, write_byte;
  rewrite ?write_attr_flag_eq, ?write_dims64, ?write_dims32, ?write_attr_byte_eq, ?write_pad_byte_eq,
    ?write_bytes_app, <- ?app_assoc.

Lemma serialize_known_base ty attr w r :
  match ty with TWithPointerAttribute _ _ => False | _ => True end ->
  carries attr ty = true -> (forall d, d ∈ attr_deps attr ty -> d ∈ tm_list tm) ->
  serialize_type_with_pointer_attribute ty tm w v attr = Ok r ->
  r = (tm, write_bytes (type_bytes (tm_idx tm) v attr ty) w).
Proof.
  intros Hb Hc Hd H.
  assert (Hq : forall t, pointer_dependency ty = Some t -> match t with TWithPointerAttribute _ _ => False | _ => True end ->
    match ty with TPointer _ | TTensorView _ | TTile _ => False | _ => True end ->
    type_deps ty = [t] -> qualify attr t ∈ tm_list tm).
  { intros t Ht Hnw Hk Hdeps. apply Hd. unfold attr_deps, qualify. destruct attr as [a|].
    - destruct ty; cbn in *; try done; simplify_eq; left.
    - rewrite Hdeps. left. }
  destruct ty as [s|p|t|tv|pv|g|sv|i res| |b a]; cbn [serialize_type_with_pointer_attribute type_bytes] in *; try done.
  - apply bind_Ok in H as ([] & _ & H). injection H as <-. done.
  - rewrite write_type_index_known in H by (apply Hd; destruct attr; left).
    injection H as <-. merge_writes. done.
  - assert (elem_type attr (tt_element_type t) ∈ tm_list tm) as He.
    { apply Hd. destruct attr as [a|]; cbn in *; destruct (tt_element_type t); try done; left. }
    unfold elem_type in He. rewrite write_type_index_known in H by done.
    injection H as <-. merge_writes. done.
  - rewrite write_type_index_known in H by (apply Hd; destruct attr; left).
    injection H as <-. merge_writes. done.
  - rewrite write_type_index_known in H by (by apply Hq).
    destruct (version_ge v V13_3).
    + injection H as <-. merge_writes. done.
    + injection H as <-. destruct (pv_padding_value pv); merge_writes; cbn [app]; [done|]. done.
  - apply bind_Ok in H as ([] & _ & H). rewrite write_type_index_known in H by (by apply Hq).
    injection H as <-. merge_writes. done.
  - apply bind_Ok in H as ([] & _ & H). rewrite write_type_index_known in H by (by apply Hq).
    injection H as <-. merge_writes. done.
  - destruct attr; [done|]. cbn in Hd.
    rewrite write_type_indices_known in H by (intros; apply Hd, elem_of_app; auto).
    rewrite write_type_indices_known in H by (intros; apply Hd, elem_of_app; auto).
    injection H as <-. merge_writes. done.
  - injection H as <-. done.
Qed.

(** Serializing a registered type leaves the manager alone and writes
    [type_bytes]. *)
Lemma serialize_known ty w r : ty ∈ tm_list tm -> serialize_type ty tm w v = Ok r ->
  r = (tm, write_bytes (type_bytes (tm_idx tm) v None ty) w).
Proof.
  intros Hin H. unfold serialize_type in H.
  assert (Hd : forall d, d ∈ type_deps ty -> d ∈ tm_list tm).
  { intros d Hd. apply list_elem_of_lookup in Hin as [k Hk].
    destruct (tm_closed tm Htm k ty d Hk Hd) as (j & _ & Hj). by apply list_elem_of_lookup_2 in Hj. }
  destruct ty as [s|p|t|tv|pv|g|sv|i res| |b a]; try (by apply serialize_known_base in H).
  cbn [serialize_type_with_pointer_attribute type_bytes] in *.
  apply bind_Ok in H as ([] & _ & H). destruct (_ && _) eqn:Ec; [discriminate|].
  apply serialize_known_base in H; [done| | |done].
  - destruct b; cbn in *; try done.
  - cbn. destruct b; cbn in *; try done; by destruct (is_some _).
Qed.
End serialize.

(** ** The rendering of a type *)

Definition scalar_text (s : ScalarType) : string :=
  match s with
  | ScalarType.I1 => "i1" | ScalarType.I4 => "i4" | ScalarType.I8 => "i8" | ScalarType.I16 => "i16"
  | ScalarType.I32 => "i32" | ScalarType.I64 => "i64" | ScalarType.F16 => "f16"
  | ScalarType.BF16 => "bf16" | ScalarType.F32 => "f32" | ScalarType.TF32 => "tf32"
  | ScalarType.F64 => "f64" | ScalarType.F8E4M3FN => "f8e4m3fn" | ScalarType.F8E5M2 => "f8e5m2"
  | ScalarType.F8E8M0FNU => "f8e8m0fnu" | ScalarType.F4E2M1FN => "f4e2m1fn"
  | ScalarType.F8E5M3FNU => "f8e5m3fnu"
  end.

Definition attr_text (attr : option PointerAttribute) : string :=
  match attr with Some a => ", ptr_attr=" +:+ pretty (pointer_attribute_u8 a) | None => EmptyString end.
Definition pad_text (p : option PaddingValue) : string :=
  match p with Some x => ", padding=" +:+ pretty (padding_u8 x) | None => EmptyString end.
Definition dims_text (sep : string) (l : list Z) : string := join sep (pretty <$> l).

Definition ptr_text (attr : option PointerAttribute) (p : PointerType) : string :=
  "ptr<" +:+ scalar_text (pointee p) +:+ attr_text attr +:+ ">".
Definition view_text (attr : option PointerAttribute) (tv : TensorViewType) : string :=
  "tensor_view<" +:+ join "x" (show_dim <$> tv_shape tv) +:+ "x" +:+ scalar_text (tv_element_type tv)
    +:+ ", strides=[" +:+ join "," (show_dim <$> tv_strides tv) +:+ "]" +:+ attr_text attr +:+ ">".

Fixpoint type_text (attr : option PointerAttribute) (ty : IRType) : string :=
  match ty with
  | TWithPointerAttribute base a => type_text (Some a) base
  | TScalar s => scalar_text s
  | TPointer p => ptr_text attr p
  | TTile t =>
      let elem := match tt_element_type t with
                  | TEScalar s => scalar_text s
                  | TEPointer p => ptr_text attr p
                  end in
      let shape := dims_text "x" (tt_shape t) in
      if bool_decide (shape = EmptyString) then "tile<" +:+ elem +:+ ">"
      else "tile<" +:+ shape +:+ "x" +:+ elem +:+ ">"
  | TTensorView tv => view_text attr tv
  | TPartitionView pv =>
      "partition_view<tile=(" +:+ dims_text "x" (pv_tile_shape pv) +:+ "), tv="
        +:+ view_text attr (pv_tensor_view pv) +:+ pad_text (pv_padding_value pv) +:+ ">"
  | TGatherScatterView g =>
      "gather_scatter_view<tile=(" +:+ dims_text "x" (gsv_tile_shape g) +:+ "), tv="
        +:+ view_text attr (gsv_tensor_view g) +:+ ", sparse_dim=" +:+ pretty (as_u64 (gsv_sparse_dim g))
        +:+ pad_text (gsv_padding_value g) +:+ ">"
  | TStridedView s =>
      "strided_view<tile=(" +:+ dims_text "x" (sv_tile_shape s) +:+ "), traversal_strides=["
        +:+ dims_text "," (sv_traversal_strides s) +:+ "], tv=" +:+ view_text attr (sv_tensor_view s)
        +:+ ", dim_map=[" +:+ dims_text "," (sv_dim_map s) +:+ "]" +:+ pad_text (sv_padding_value s) +:+ ">"
  | TFunc i r =>
      "(" +:+ join ", " (map (type_text None) i) +:+ ") -> (" +:+ join ", " (map (type_text None) r) +:+ ")"
  | TToken => "token"
  end.

(** ** Decoding *)

#[local] Arguments varint : simpl never.

(** The values of a type fit the fields they are written to, and its vectors
    fit in memory. *)
Definition vec_ok (size : Z) {A} (P : A -> Prop) (l : list A) : Prop :=
  zlen l * size <= ISIZE_MAX /\ Forall P l.

Definition view_ok (tv : TensorViewType) : Prop :=
  vec_ok 8 in_i64 (tv_shape tv) /\ vec_ok 8 in_i64 (tv_strides tv).

Fixpoint type_ok (ty : IRType) : Prop :=
  match ty with
  | TScalar _ | TPointer _ | TToken => True
  | TTile t => vec_ok 8 in_i64 (tt_shape t)
  | TTensorView tv => view_ok tv
  | TPartitionView pv => vec_ok 4 in_i32 (pv_tile_shape pv) /\ vec_ok 4 in_i32 (pv_dim_map pv)
  | TGatherScatterView g => vec_ok 4 in_i32 (gsv_tile_shape g)
  | TStridedView s =>
      vec_ok 4 in_i32 (sv_tile_shape s) /\ vec_ok 4 in_i32 (sv_traversal_strides s) /\
      vec_ok 4 in_i32 (sv_dim_map s)
  | TFunc i r => zlen i * 24 <= ISIZE_MAX /\ zlen r * 24 <= ISIZE_MAX
  | TWithPointerAttribute base _ => type_ok base
  end.

Lemma reads_uvar n : in_u64 n -> reads uvar (varint n) n.
Proof. intros. by apply reads_unwrap_or, reads_varint. Qed.

Lemma reads_ubyte b : reads ubyte [b] b.
Proof. apply reads_unwrap_or, reads_byte. Qed.

Lemma reads_read_vec {A} size (m : RM A) (enc : A -> list Z) xs : 1 <= size ->
  zlen xs * size <= ISIZE_MAX -> Forall (fun x => reads m (enc x) x) xs ->
  reads (read_vec size m) (varint (zlen xs) ++ concat (enc <$> xs)) xs.
Proof.
  intros Hs Hcap Hf. pose proof (zlen_nonneg xs).
  unfold read_vec. eapply reads_bind; [apply reads_uvar; unfold_int; nia|].
  unfold with_capacity. destruct (Z.ltb_spec ISIZE_MAX (zlen xs * size)); [lia|].
  rewrite <- (app_nil_l (concat _)). eapply reads_bind; [apply reads_ret|].
  rewrite to_nat_zlen. by apply reads_many.
Qed.

Lemma reads_i64s l : vec_ok 8 in_i64 l -> reads i64s (dims64 l) l.
Proof.
  intros [Hc Hf]. apply reads_read_vec; [lia|done|]. eapply Forall_impl; [exact Hf|].
  intros x Hx. by apply reads_unwrap_or, reads_le_i64.
Qed.

Lemma reads_i32s l : vec_ok 4 in_i32 l -> reads i32s (dims32 l) l.
Proof.
  intros [Hc Hf]. apply reads_read_vec; [lia|done|]. eapply Forall_impl; [exact Hf|].
  intros x Hx. by apply reads_unwrap_or, reads_le_i32.
Qed.

Lemma bit0_bool b : bit0 (bool_as b) = b.
Proof. by destruct b. Qed.

Lemma reads_flag b : reads uvar (flag_bytes b) (bool_as b).
Proof. apply reads_uvar. destruct b; vm_compute; split; discriminate. Qed.

Lemma reads_attr_flag v attr : (is_some attr = true -> version_ge v V13_4 = true) ->
  reads (if version_ge v V13_4 then uvar else mret 0) (attr_flag v attr) (bool_as (is_some attr)).
Proof.
  intros H. unfold attr_flag. destruct (version_ge v V13_4); [apply reads_flag|].
  destruct attr; [by specialize (H eq_refl)|]. apply reads_ret.
Qed.

Lemma reads_attr_text attr :
  reads (if is_some attr then a ← ubyte; mret (", ptr_attr=" +:+ pretty a) else mret EmptyString)
    (attr_bytes attr) (attr_text attr).
Proof.
  destruct attr; [|apply reads_ret].
  apply (reads_map ubyte (fun a => ", ptr_attr=" +:+ pretty a)), reads_ubyte.
Qed.

Lemma reads_pad_text p :
  reads (if is_some p then x ← ubyte; mret (", padding=" +:+ pretty x) else mret EmptyString)
    (pad_value_bytes p) (pad_text p).
Proof.
  destruct p; [|apply reads_ret].
  apply (reads_map ubyte (fun x => ", padding=" +:+ pretty x)), reads_ubyte.
Qed.

(** Reduce the tag dispatch of the decoder at a concrete tag. *)
Ltac at_tag :=
  cbn [TypeTag.as_u8 type_tag];
  repeat match goal with |- context [as_u8 ?k] => change (as_u8 k) with k end;
  unfold decode_type_body; cbn [TypeTag.as_u8 Z.eqb Pos.eqb].

Lemma reads_tag t : reads read_varint (tag_bytes t) (TypeTag.as_u8 t).
Proof. apply reads_varint. pose proof (type_tag_u8_range t). int_lia. Qed.

Lemma reads_last {A B} (m : RM A) (f : A -> RM B) bs a b :
  reads m bs a -> reads (f a) [] b -> reads (m ≫= f) bs b.
Proof. intros H1 H2. rewrite <- (app_nil_r bs). by eapply reads_bind. Qed.

Section decode.
Context (prev : list string) (v : BytecodeVersion) (idx : IRType -> Z).

(** The component types are registered and already decoded. *)
Definition dep_decoded (d : IRType) : Prop :=
  in_u64 (idx d) /\ prev_name prev (idx d) = type_text None d.

Lemma reads_names tys : zlen tys * 24 <= ISIZE_MAX -> (forall d, d ∈ tys -> dep_decoded d) ->
  reads (names prev) (varint (zlen tys) ++ concat ((fun t => varint (idx t)) <$> tys)) (map (type_text None) tys).
Proof.
  intros Hcap Hd. pose proof (zlen_nonneg tys). unfold names, read_vec.
  eapply reads_bind; [apply reads_uvar; unfold_int; lia|].
  unfold with_capacity. destruct (Z.ltb_spec ISIZE_MAX (zlen tys * 24)); [lia|].
  rewrite <- (app_nil_l (concat _)). eapply reads_bind; [apply reads_ret|].
  rewrite to_nat_zlen. clear Hcap H H0. induction tys as [|t tys IH]; cbn; [apply reads_ret|].
  destruct (Hd t) as [Hi Hn]; [left|].
  eapply reads_bind; [by apply (reads_map uvar (prev_name prev)), reads_uvar|].
  rewrite Hn. apply (reads_map _ (cons (type_text None t))), IH. intros d Hin. apply Hd. by right.
Qed.

Lemma decode_reads attr ty :
  match ty with TWithPointerAttribute _ _ => False | _ => True end ->
  carries attr ty = true -> (is_some attr = true -> version_ge v V13_4 = true) -> type_ok ty ->
  (forall d, d ∈ attr_deps attr ty -> dep_decoded d) ->
  reads (t ← read_varint; decode_type_body (as_u8 t) prev v) (type_bytes idx v attr ty) (type_text attr ty).
Proof.
  intros Hb Hc Hv Hok Hd.
  assert (Hq : forall tv, attr_deps attr ty = [qualify attr (TTensorView tv)] ->
    in_u64 (idx (qualify attr (TTensorView tv))) /\
    prev_name prev (idx (qualify attr (TTensorView tv))) = view_text attr tv).
  { intros tv Heq. destruct (Hd (qualify attr (TTensorView tv))) as [Hi Hn]; [rewrite Heq; left|].
    split; [done|]. rewrite Hn. by destruct attr. }
  destruct ty as [s|p|t|tv|pv|g|sv|i r| |b a]; cbn [type_bytes type_ok] in *; try done.
  - apply (reads_last _ _ _ _ _ (reads_tag _)). destruct s; at_tag; apply reads_ret.
  - destruct (Hd (TScalar (pointee p))) as [Hi Hn]; [destruct attr; left|].
    eapply reads_bind; [apply reads_tag|]. at_tag.
    eapply reads_bind; [by apply reads_attr_flag|]. eapply reads_bind; [by apply reads_uvar|].
    rewrite bit0_bool, Hn. cbn [type_text]. unfold ptr_text. destruct attr as [a|]; [|apply reads_ret].
    apply (reads_map ubyte (fun x => "ptr<" +:+ _ +:+ ", ptr_attr=" +:+ pretty x +:+ ">")), reads_ubyte.
  - assert (in_u64 (idx (elem_type attr (tt_element_type t))) /\
            prev_name prev (idx (elem_type attr (tt_element_type t))) =
            match tt_element_type t with TEScalar s => scalar_text s | TEPointer p => ptr_text attr p end) as [Hi Hn].
    { destruct (Hd (elem_type attr (tt_element_type t))) as [Hi Hn].
      - destruct attr; cbn in *; destruct (tt_element_type t); try done; left.
      - split; [done|]. rewrite Hn. by destruct (tt_element_type t), attr. }
    eapply reads_bind; [apply reads_tag|]. at_tag. eapply reads_bind; [by apply reads_uvar|].
    rewrite Hn. apply (reads_last _ _ _ _ _ (reads_i64s _ Hok)). apply reads_ret.
  - destruct Hok as [Hsh Hst]. destruct (Hd (TScalar (tv_element_type tv))) as [Hi Hn]; [destruct attr; left|].
    eapply reads_bind; [apply reads_tag|]. at_tag.
    eapply reads_bind; [by apply reads_attr_flag|]. eapply reads_bind; [by apply reads_uvar|].
    eapply reads_bind; [by apply reads_i64s|]. eapply reads_bind; [by apply reads_i64s|].
    rewrite bit0_bool, Hn. eapply reads_last; [apply reads_attr_text|]. apply reads_ret.
  - destruct Hok as [Hts Hdm]. destruct (Hq (pv_tensor_view pv)) as [Hi Hn]; [by destruct attr|].
    eapply reads_bind; [apply reads_tag|]. at_tag. destruct (version_ge v V13_3).
    + eapply reads_bind; [apply (reads_map uvar (fun f => Some (bit0 f))), reads_flag|].
      eapply reads_bind; [by apply reads_i32s|]. eapply reads_bind; [by apply reads_uvar|].
      eapply reads_bind; [by apply reads_i32s|]. rewrite bit0_bool, Hn.
      rewrite <- (app_nil_l (pad_value_bytes _)). eapply reads_bind; [apply reads_ret|].
      eapply reads_last; [apply reads_pad_text|]. apply reads_ret.
    + rewrite app_nil_l, <- (app_nil_l (dims32 (pv_tile_shape pv) ++ _)). eapply reads_bind; [apply reads_ret|].
      eapply reads_bind; [by apply reads_i32s|]. eapply reads_bind; [by apply reads_uvar|].
      eapply reads_bind; [by apply reads_i32s|]. rewrite Hn.
      eapply reads_bind; [apply (reads_map ubyte (fun b => negb (b =? 0))), reads_ubyte|].
      cbn [type_text]. destruct (pv_padding_value pv) as [x|]; cbn [is_some bool_as negb Z.eqb pad_text].
      * eapply reads_last; [apply (reads_map uvar (fun x => ", padding=" +:+ pretty x)), reads_uvar|apply reads_ret].
        destruct x; vm_compute; split; discriminate.
      * eapply reads_last; [apply reads_ret|apply reads_ret].
  - destruct (Hq (gsv_tensor_view g)) as [Hi Hn]; [by destruct attr|].
    eapply reads_bind; [apply reads_tag|]. at_tag. eapply reads_bind; [apply reads_flag|].
    eapply reads_bind; [by apply reads_i32s|]. eapply reads_bind; [by apply reads_uvar|].
    eapply reads_bind; [apply reads_uvar|].
    { pose proof (Z.mod_pos_bound (gsv_sparse_dim g) (2 ^ 64) ltac:(lia)). unfold as_u64. int_lia. }
    rewrite bit0_bool, Hn. eapply reads_last; [apply reads_pad_text|]. apply reads_ret.
  - destruct Hok as (Hts & Htr & Hdm). destruct (Hq (sv_tensor_view sv)) as [Hi Hn]; [by destruct attr|].
    eapply reads_bind; [apply reads_tag|]. at_tag. eapply reads_bind; [apply reads_flag|].
    eapply reads_bind; [by apply reads_i32s|]. eapply reads_bind; [by apply reads_i32s|].
    eapply reads_bind; [by apply reads_uvar|]. eapply reads_bind; [by apply reads_i32s|].
    rewrite bit0_bool, Hn. eapply reads_last; [apply reads_pad_text|]. apply reads_ret.
  - destruct attr; [done|]. destruct Hok as [Hci Hcr]. cbn in Hd.
    eapply reads_bind; [apply reads_tag|]. at_tag. rewrite (app_assoc (varint (zlen i))).
    eapply reads_bind; [apply reads_names; [done|]; intros; apply Hd, elem_of_app; auto|].
    eapply reads_last; [apply reads_names; [done|]; intros; apply Hd, elem_of_app; auto|]. apply reads_ret.
  - apply (reads_last _ _ _ _ _ (reads_tag _)). at_tag. apply reads_ret.
Qed.
End decode.

(** ** The whole section *)

(** What a successful serialization says about a type: the attribute form is
    supported by the version and applied to a type that can carry it. *)
Definition encodable (v : BytecodeVersion) (ty : IRType) : Prop :=
  match ty with
  | TWithPointerAttribute base a =>
      version_ge v V13_4 = true /\ carries (Some a) base = true /\
      match base with TWithPointerAttribute _ _ => False | _ => True end
  | _ => True
  end.

Lemma require_version_Ok f req v u : require_version f req v = Ok u -> version_ge v req = true.
Proof. unfold require_version, version_ge, version_lt. by destruct (version_cmp v req). Qed.

Lemma serialize_encodable ty tm w v r : serialize_type ty tm w v = Ok r -> encodable v ty.
Proof.
  destruct ty as [| | | | | | | | |base a]; try done. cbn. intros H.
  apply bind_Ok in H as (u & Hv & H). apply require_version_Ok in Hv. split; [exact Hv|].
  destruct (_ && _) eqn:Ec; [discriminate|]. destruct base; cbn in *; try done.
  destruct (is_some _); [done|]. by rewrite ?andb_true_r in Ec.
Qed.

Section section_.
Context (tm : TypeManager) (Htm : tm_wf tm) (v : BytecodeVersion).

Definition entry_bytes (ty : IRType) : list Z := type_bytes (tm_idx tm) v None ty.

Lemma serialize_all_spec tys run w r : (forall t, t ∈ tys -> t ∈ tm_list tm) ->
  0 <= run -> run + zlen (concat (entry_bytes <$> tys)) < 2 ^ 32 ->
  serialize_all tys run tm w v = Ok r ->
  r = (offsets_from run (entry_bytes <$> tys), write_bytes (concat (entry_bytes <$> tys)) w) /\
  Forall (encodable v) tys.
Proof.
  revert run w r. induction tys as [|ty tys IH]; intros run w r Hin Hr Hb H; cbn [serialize_all] in H.
  { injection H as <-. cbn. by rewrite write_bytes_nil. }
  cbn [fmap list_fmap concat offsets_from] in *. rewrite zlen_app in Hb.
  pose proof (zlen_nonneg (entry_bytes ty)). pose proof (zlen_nonneg (concat (entry_bytes <$> tys))).
  apply bind_Ok in H as (tw & Hs & H). pose proof (serialize_encodable _ _ _ _ _ Hs).
  apply serialize_known in Hs as ->; [|done|apply Hin; left].
  apply bind_Ok in H as ([offs w'] & Hrec & H). fold (entry_bytes ty) in Hrec.
  replace (as_u32 (run + _)) with (run + zlen (entry_bytes ty)) in Hrec.
  2: { unfold tell, write_bytes. cbn [buf]. rewrite zlen_app, Z.add_simpl_l. unfold as_u32.
       rewrite (Z.mod_small (zlen _)), Z.mod_small by lia. done. }
  apply IH in Hrec as [E Hf]; [|intros; apply Hin; by right|lia|lia].
  injection E as -> ->. injection H as <-. rewrite write_bytes_app. auto.
Qed.

Lemma write_type_section_spec out bytes : tm_list tm <> [] ->
  zlen (concat (entry_bytes <$> tm_list tm)) < 2 ^ 32 -> write_type_section out tm v = Ok bytes ->
  let payload := table_payload 4 (entry_bytes <$> tm_list tm) in
  bytes = write_section_header out Section_.Type_ (zlen payload) 4 ++ payload /\
  Forall (encodable v) (tm_list tm).
Proof.
  intros Hne Hb H. unfold write_type_section in H.
  destruct (tm_list tm) as [|t0 l0] eqn:El; [done|]. rewrite <- El in *. clear El t0 l0.
  apply bind_Ok in H as ([offs w] & Hs & H). apply serialize_all_spec in Hs as [E Hf]; [|done..].
  injection E as -> ->. split; [|done]. unfold write_le_u32 in H. rewrite reserve_spec in H.
  set (es := entry_bytes <$> tm_list tm) in *.
  replace (length (tm_list tm)) with (length (offsets_from 0 es)) in H
    by (rewrite offsets_from_length; apply length_fmap).
  unfold align_to in H. cbn [Z.ltb Z.compare Pos.compare Pos.compare_cont] in H.
  unfold tell, write_varint, write_bytes, writer_new in H. cbn [buf required_alignment app] in H.
  rewrite <- !app_assoc in H. unfold table_payload.
  replace (zlen es) with (zlen (tm_list tm)) by (unfold zlen, es; by rewrite length_fmap).
  set (head := varint (zlen (tm_list tm))) in *.
  pose proof (patch_loop_spec 4 (head ++ pad_bytes 4 (zlen head)) [] (le_bytes 4 0) (concat es)
                (offsets_from 0 es) 0 (le_bytes_length 4 0) ltac:(done)) as Hp.
  cbn [app] in Hp. rewrite <- !app_assoc in Hp.
  apply bind_Ok in H as (b & Hl & H). apply Ok_inj in H as <-.
  rewrite Hp in Hl. by apply Ok_inj in Hl as <-.
Qed.

Lemma decode_entry_run data prev x :
  run (t ← read_varint; decode_type_body (as_u8 t) prev v) data = Ok x -> decode_type_entry data prev v = Ok x.
Proof.
  unfold run, decode_type_entry. cbv [mbind RM_bind]. by destruct (read_varint (reader_new data)) as [[] ?].
Qed.

Lemma tm_idx_lookup k ty : tm_list tm !! k = Some ty -> tm_idx tm ty = Z.of_nat k.
Proof.
  intros H. unfold tm_idx. rewrite (proj2 (tm_index_ok tm Htm ty (Z.of_nat k))); [done|].
  rewrite Nat2Z.id. split; [lia|done].
Qed.

Lemma decode_one l1 ty l2 : tm_list tm = l1 ++ ty :: l2 -> encodable v ty -> type_ok ty ->
  zlen (tm_list tm) * 8 <= ISIZE_MAX -> fits (entry_bytes ty) ->
  decode_type_entry (entry_bytes ty) (type_text None <$> l1) v = Ok (type_text None ty).
Proof.
  intros El He Hok Hcap Hfit. apply decode_entry_run, reads_run; [|done]. unfold entry_bytes.
  assert (Hd : forall d, d ∈ type_deps ty -> dep_decoded (type_text None <$> l1) (tm_idx tm) d).
  { intros d Hd. destruct (tm_closed tm Htm (length l1) ty d) as (j & Hj & Hl); [|done|].
    { rewrite El. by apply list_lookup_middle. }
    unfold dep_decoded. rewrite (tm_idx_lookup j d Hl). split.
    - apply lookup_lt_Some in Hl. unfold zlen in Hcap. unfold_int. lia.
    - unfold prev_name. rewrite Nat2Z.id, list_lookup_fmap. rewrite El, lookup_app_l in Hl by done. by rewrite Hl. }
  destruct ty as [| | | | | | | | |base a]; try (by apply decode_reads).
  destruct He as (Hv & Hc & Hb). apply (decode_reads _ v (tm_idx tm) (Some a) base); done.
Qed.

Lemma decode_entries_spec l1 l2 : tm_list tm = l1 ++ l2 -> Forall (encodable v) l2 -> Forall type_ok l2 ->
  zlen (tm_list tm) * 8 <= ISIZE_MAX -> Forall (fun t => fits (entry_bytes t)) l2 ->
  decode_entries (entry_bytes <$> l2) (type_text None <$> l1) v = Ok (type_text None <$> tm_list tm).
Proof.
  revert l1. induction l2 as [|ty l2 IH]; intros l1 El He Hok Hcap Hfit.
  { by rewrite El, app_nil_r. }
  apply Forall_cons in He as [He1 He], Hok as [Hok1 Hok], Hfit as [Hf1 Hf].
  cbn [fmap list_fmap decode_entries]. rewrite (decode_one l1 ty l2) by done. cbn.
  rewrite <- (IH (l1 ++ [ty])); [|by rewrite <- app_assoc|done..]. f_equal. by rewrite fmap_app.
Qed.
End section_.

(** Each entry is part of the payload. *)
Lemma fits_entries n (es : list (list Z)) : fits (table_payload n es) -> Forall fits es.
Proof.
  unfold fits, table_payload. rewrite !zlen_app. intros H.
  assert (zlen (concat es) <= ISIZE_MAX) as Hc.
  { pose proof (zlen_nonneg (varint (zlen es))). pose proof (zlen_nonneg (pad_bytes (Z.of_nat n) (zlen (varint (zlen es))))).
    pose proof (zlen_nonneg (concat (le_bytes n <$> offsets_from 0 es))). lia. }
  clear H. induction es as [|e es IH]; [done|]. cbn in Hc. rewrite zlen_app in Hc.
  pose proof (zlen_nonneg e). pose proof (zlen_nonneg (concat es)). constructor; [lia|apply IH; lia].
Qed.

(** Interning a list of types one after the other. *)
Definition intern_all (tm : TypeManager) (tys : list IRType) : TypeManager :=
  foldl (fun tm ty => (tm_get_or_insert tm ty).1) tm tys.

Lemma intern_all_wf tm tys : tm_wf tm -> tm_wf (intern_all tm tys).
Proof.
  revert tm. induction tys as [|ty tys IH]; intros tm Hw; [done|]. apply IH.
  destruct (tm_get_or_insert tm ty) as [tm' i] eqn:E. by destruct (tm_get_or_insert_spec _ _ _ _ Hw E).
Qed.

(** ** Properties *)

(** C4: the type table round-trips.  Whenever [write_type_section] succeeds on
    a table built by interning, the payload it wrote decodes, entry by entry,
    to the rendering of exactly the interned types in index order, whatever
    the bytecode version: every component index is one the decoder has already
    rendered. *)
Theorem type_section_roundtrip (tm : TypeManager) (v : BytecodeVersion) (out bytes : list Z)
    (Htm : tm_wf tm) (Hne : tm_list tm <> []) (Hok : Forall type_ok (tm_list tm))
    (Hsize : zlen (concat (entry_bytes tm v <$> tm_list tm)) < 2 ^ 32)
    (Hcap : zlen (tm_list tm) * 8 <= ISIZE_MAX)
    (Hfits : fits (table_payload 4 (entry_bytes tm v <$> tm_list tm)))
    (Hw : write_type_section out tm v = Ok bytes) :
  exists payload,
    bytes = write_section_header out Section_.Type_ (zlen payload) 4 ++ payload /\
    parse_type_section (Some payload) v = Ok (type_text None <$> tm_list tm).
Proof.
  destruct (write_type_section_spec tm Htm v out bytes Hne Hsize Hw) as [-> Henc].
  eexists. split; [done|]. unfold parse_type_section.
  assert (zlen (entry_bytes tm v <$> tm_list tm) = zlen (tm_list tm)) as El
    by (unfold zlen; by rewrite length_fmap).
  rewrite parse_table_payload; [|by destruct (tm_list tm)|lia|done|by rewrite El|done].
  cbn. apply (decode_entries_spec tm Htm v [] (tm_list tm)); try done.
  apply fits_entries in Hfits. rewrite Forall_fmap in Hfits. exact Hfits.
Qed.

Definition example_types : TypeManager :=
  intern_all type_manager_new
    [TTile (mkTileType [4; 8] (TEScalar ScalarType.F32)); TWithPointerAttribute (TPointer (mkPointerType ScalarType.I32)) PANone;
     TFunc [TTile (mkTileType [4; 8] (TEScalar ScalarType.F32))] [TToken]].

Lemma type_section_roundtrip_witness :
  exists payload,
    default [] (match write_type_section [] example_types V13_4 with Ok b => Some b | _ => None end) =
      write_section_header [] Section_.Type_ (zlen payload) 4 ++ payload /\
    parse_type_section (Some payload) V13_4 =
      Ok ["f32"; "tile<4x8xf32>"; "i32"; "ptr<i32, ptr_attr=0>"; "token"; "(tile<4x8xf32>) -> (token)"]%string.
Proof.
  apply (type_section_roundtrip example_types V13_4 []).
  - apply intern_all_wf, tm_new_wf.
  - vm_compute. discriminate.
  - let l := eval vm_compute in (tm_list example_types) in change (Forall type_ok l).
    assert (vec_ok 8 in_i64 [4; 8]) as Hd by (split; [|repeat constructor]; vm_compute; discriminate).
    repeat apply Forall_cons_2; try exact I; try exact Hd; [split; vm_compute; discriminate|constructor].
  - vm_compute. reflexivity.
  - vm_compute. discriminate.
  - vm_compute. discriminate.
  - vm_compute. reflexivity.
Defined.

(** interning a type is closed and stable, and writing never grows the
    table.  After [get_or_insert] every earlier index still names the same
    type, the returned index names [ty], every type [ty] mentions sits at a
    smaller index, asking again returns the same index, and serializing any
    registered type leaves the table exactly as it was (so the offset table
    sized before serialization is right). *)
Lemma type_interning_closed (tm tm' : TypeManager) (ty : IRType) (i : Z)
    (Htm : tm_wf tm) (Hi : tm_get_or_insert tm ty = (tm', i)) :
  tm_wf tm' /\ tm_list tm `prefix_of` tm_list tm' /\ tm_list tm' !! Z.to_nat i = Some ty /\
  (forall d, d ∈ type_deps ty -> exists j, 0 <= j < i /\ tm_list tm' !! Z.to_nat j = Some d) /\
  tm_get_or_insert tm' ty = (tm', i) /\
  (forall t w v r, t ∈ tm_list tm' -> serialize_type t tm' w v = Ok r -> r.1 = tm').
Proof.
  destruct (tm_get_or_insert_spec _ _ _ _ Htm Hi) as [W P N L S _]. split_and!; try done.
  - intros d Hd. destruct (tm_closed tm' W _ _ d L Hd) as (j & Hj & Hl).
    exists (Z.of_nat j). rewrite Nat2Z.id. split; [lia|done].
  - rewrite (proj1 (tm_get_known tm' ty W (list_elem_of_lookup_2 _ _ _ L))). f_equal.
    rewrite (tm_idx_lookup tm' W _ _ L). lia.
  - intros t w v r Ht Hs. by apply serialize_known in Hs as ->.
Qed.

Lemma type_interning_closed_witness :
  exists tm' i, tm_get_or_insert example_types (TTile (mkTileType [] (TEPointer (mkPointerType ScalarType.I8)))) = (tm', i) /\
    i = 8 /\ tm_wf tm'.
Proof.
  eexists _, _. split; [vm_compute; reflexivity|]. split; [reflexivity|].
  refine (proj1 (type_interning_closed example_types _
    (TTile (mkTileType [] (TEPointer (mkPointerType ScalarType.I8)))) 8 _ _)).
  - apply intern_all_wf, tm_new_wf.
  - vm_compute. reflexivity.
Defined.

(** The features a type needs, by version. *)
Fixpoint type_admitted (v : BytecodeVersion) (ty : IRType) : bool :=
  match ty with
  | TWithPointerAttribute base a =>
      version_ge v V13_4 && carries (Some a) base && type_admitted v base
  | TScalar s => version_ge v (minimum_version s)
  | TGatherScatterView _ => version_ge v (Feature.since Feature.GatherScatterView)
  | TStridedView _ => version_ge v (Feature.since Feature.StridedView)
  | _ => true
  end.

Lemma require_version_cases f req v :
  (version_ge v req = true /\ require_version f req v = Ok tt) \/
  (version_ge v req = false /\ exists m, require_version f req v = Err (BytecodeWrite m)).
Proof. unfold require_version, version_ge, version_lt. destruct (version_cmp v req); eauto. Qed.

(** Case on the version gate at the head of a serialization. *)
Ltac gate :=
  match goal with
  | |- context [require_version ?f ?req ?v] =>
      destruct (require_version_cases f req v) as [[-> ->]|[-> [? ->]]]; cbn [mbind outcome_bind andb]; eauto
  end.

Lemma serialize_cases ty : forall tm w v attr,
  if type_admitted v ty
  then exists r, serialize_type_with_pointer_attribute ty tm w v attr = Ok r
  else exists m, serialize_type_with_pointer_attribute ty tm w v attr = Err (BytecodeWrite m).
Proof.
  induction ty as [s|p|t|tv|pv|g|sv|i res| |b IH a]; intros tm w v attr;
    cbn [serialize_type_with_pointer_attribute type_admitted].
  - gate.
  - destruct (write_type_index _ _). eauto.
  - destruct (write_type_index _ _). eauto.
  - destruct (write_type_index _ _). eauto.
  - destruct (write_type_index _ _). destruct (version_ge v V13_3); eauto.
  - gate. destruct (write_type_index _ _). eauto.
  - gate. destruct (write_type_index _ _). eauto.
  - destruct (foldl _ _ _). eauto.
  - eauto.
  - change (Feature.since Feature.PointerAttribute) with V13_4. gate.
    assert (negb (match b with TPointer _ | TTensorView _ => true | _ => false end)
            && negb (is_some (pointer_dependency b)) = negb (carries (Some a) b)) as -> by (by destruct b).
    destruct (carries (Some a) b); cbn [negb andb]; [apply IH|eauto].
Qed.

Lemma serialize_all_total tm v tys run w : tm_wf tm -> (forall t, t ∈ tys -> t ∈ tm_list tm) ->
  if forallb (type_admitted v) tys
  then exists r, serialize_all tys run tm w v = Ok r
  else exists m, serialize_all tys run tm w v = Err (BytecodeWrite m).
Proof.
  intros Hw. revert run w. induction tys as [|ty tys IH]; intros run w Hin; cbn [forallb serialize_all]; [eauto|].
  pose proof (serialize_cases ty tm w v None) as Hc. fold (serialize_type ty tm w v) in Hc.
  destruct (type_admitted v ty); cbn [andb].
  2: { destruct Hc as [m ->]. cbn. eauto. }
  destruct Hc as [r Hr]. rewrite Hr. apply serialize_known in Hr as ->; [|done|apply Hin; left]. cbn [mbind outcome_bind].
  match goal with |- context [serialize_all tys ?run' tm ?w' v] =>
    pose proof (IH run' w' ltac:(intros; apply Hin; by right)) as IH' end.
  destruct (forallb _ tys); destruct IH' as [? ->]; cbn; eauto.
Qed.

(** the version gate of the type section is exact.  The section is
    written exactly when every type of the table, components included, is
    supported by the target version and every pointer attribute sits on a type
    that can carry it; otherwise the writer reports an error naming the
    missing feature and writes nothing.  It never panics. *)
Lemma type_section_gate (tm : TypeManager) (v : BytecodeVersion) (out : list Z)
    (Htm : tm_wf tm) (Hsize : zlen (concat (entry_bytes tm v <$> tm_list tm)) < 2 ^ 32) :
  if forallb (type_admitted v) (tm_list tm)
  then exists bytes, write_type_section out tm v = Ok bytes
  else exists m, write_type_section out tm v = Err (BytecodeWrite m).
Proof.
  destruct (tm_list tm) as [|t0 l0] eqn:El; [cbn; unfold write_type_section; rewrite El; eauto|].
  unfold write_type_section. rewrite El, <- El in *.
  match goal with |- context [serialize_all _ ?run ?t ?w ?v'] =>
    pose proof (serialize_all_total t v' (tm_list tm) run w Htm ltac:(done)) as Hs end.
  destruct (forallb _ _); [|destruct Hs as [m ->]; cbn; eauto].
  destruct Hs as [r Hr]. rewrite Hr. apply serialize_all_spec in Hr as [-> _]; [|done..].
  cbn [mbind outcome_bind]. unfold write_le_u32. rewrite reserve_spec.
  set (es := entry_bytes tm v <$> tm_list tm).
  replace (length (tm_list tm)) with (length (offsets_from 0 es))
    by (rewrite offsets_from_length; apply length_fmap).
  match goal with |- context [patch_loop 4 (buf (write_bytes _ (write_bytes _ ?w0)))] =>
    pose proof (patch_loop_spec 4 (buf w0) [] (le_bytes 4 0) (concat es) (offsets_from 0 es) 0
                  (le_bytes_length 4 0) ltac:(done)) as Hp end.
  cbn [app] in Hp. unfold tell. cbn [buf write_bytes]. rewrite <- app_assoc, Hp. cbn [mbind outcome_bind]. eauto.
Qed.

Lemma type_section_gate_witness :
  (exists bytes, write_type_section [] example_types V13_4 = Ok bytes) /\
  (exists m, write_type_section [] example_types V13_3 = Err (BytecodeWrite m)).
Proof.
  split.
  - apply (type_section_gate example_types V13_4 []); [apply intern_all_wf, tm_new_wf|vm_compute; reflexivity].
  - apply (type_section_gate example_types V13_3 []); [apply intern_all_wf, tm_new_wf|vm_compute; reflexivity].
Defined.
