(* ===== verification/Writer.v ===== *)
(** * The writer context (cutile-ir/src/bytecode/writer.rs, encoding.rs)

    Serialization threads one context through every routine: the map from
    values to their bytecode indices, the interned tables and the debug-info
    collector, beside the byte buffer being filled.  This file models the
    context as a state-and-error monad, the debug collector, and attribute
    serialization, and shows that every routine only extends the tables and
    appends to the buffer. *)

From S2P Require Import Prelude Enums Encoding IR Tables TypeTable Module.

(** ** The debug collector *)

Record DebugInfoCollector := mkDebugInfoCollector {
  dc_attrs : DebugAttrTable;
  per_function : list (list Z);
  current_scope : Z;
}.

Definition debug_collector_new : DebugInfoCollector :=
  mkDebugInfoCollector debug_table_new [] MISSING_DEBUG_ATTR_ID.

(** The collector's methods thread the attribute table and the string table. *)
Definition subprogram_attr (t : DebugAttrTable) (strings : StringManager) (sp : DISubprogram)
    : DebugAttrTable * StringManager * Z :=
  let '(t, strings, file) := debug_file t strings (df_name (sp_file sp)) (df_directory (sp_file sp)) in
  let '(t, strings, cu_file) :=
    debug_file t strings (df_name (cu_file (sp_compile_unit sp))) (df_directory (cu_file (sp_compile_unit sp))) in
  let '(t, cu) := compile_unit t cu_file in
  subprogram t strings file (sp_line sp) (sp_name sp) (sp_linkage_name sp) cu (sp_scope_line sp).

Fixpoint scope_attr (t : DebugAttrTable) (strings : StringManager) (scope : DebugScope)
    : DebugAttrTable * StringManager * Z :=
  match scope with
  | Subprogram sp => subprogram_attr t strings sp
  | LexicalBlock scope file line column =>
      let '(t, strings, parent) := scope_attr t strings scope in
      let '(t, strings, file) := debug_file t strings (df_name file) (df_directory file) in
      let '(t, id) := lexical_block t parent file line column in (t, strings, id)
  end.

Fixpoint attr_for (current_scope : Z) (t : DebugAttrTable) (strings : StringManager) (loc : Location)
    : DebugAttrTable * StringManager * Z :=
  match loc with
  | LocUnknown => (t, strings, MISSING_DEBUG_ATTR_ID)
  | FileLineCol filename line column =>
      if current_scope =? MISSING_DEBUG_ATTR_ID then (t, strings, MISSING_DEBUG_ATTR_ID)
      else debug_loc t strings current_scope filename line column
  | DebugInfo filename line column scope =>
      let '(t, strings, scope) := scope_attr t strings scope in
      debug_loc t strings scope filename line column
  | CallSite callee caller =>
      let '(t, strings, callee_attr) := attr_for current_scope t strings callee in
      if callee_attr =? MISSING_DEBUG_ATTR_ID then (t, strings, MISSING_DEBUG_ATTR_ID)
      else
        let '(t, strings, caller_attr) := attr_for current_scope t strings caller in
        let '(t, id) := call_site t callee_attr caller_attr in (t, strings, id)
  end.

(** [path.rfind('/')], as the text before and after the last slash. *)
Fixpoint rsplit_slash (path : string) : option (string * string) :=
  match path with
  | EmptyString => None
  | String c rest =>
      match rsplit_slash rest with
      | Some (dir, base) => Some (String c dir, base)
      | None => if bool_decide (c = Ascii.ascii_of_nat 47) then Some (EmptyString, rest) else None
      end
  end.

Definition split_file_path (path : string) : string * string :=
  match rsplit_slash path with
  | Some db => db
  | None => (EmptyString, path)
  end.

Definition begin_function (d : DebugInfoCollector) (strings : StringManager) (sym_name : string)
    (di_name : option string) (loc : Location) : DebugInfoCollector * StringManager * Z :=
  let '(t, strings, scope) :=
    match loc with
    | FileLineCol filename line _ =>
        let '(dir, base) := split_file_path filename in
        let '(t, strings, file) := debug_file (dc_attrs d) strings base dir in
        let '(t, cu) := compile_unit t file in
        subprogram t strings file line (default sym_name di_name) sym_name cu line
    | DebugInfo _ _ _ scope => scope_attr (dc_attrs d) strings scope
    | _ => (dc_attrs d, strings, MISSING_DEBUG_ATTR_ID)
    end in
  let '(t, strings, func_attr) := attr_for scope t strings loc in
  let per_function := per_function d ++ [[func_attr]] in
  (mkDebugInfoCollector t per_function scope, strings, zlen per_function).

(** [list.last_mut().push(attr)]. *)
Fixpoint push_last (ls : list (list Z)) (x : Z) : list (list Z) :=
  match ls with
  | [] => []
  | [l] => [l ++ [x]]
  | l :: ls => l :: push_last ls x
  end.

(** [record_op]: in a build with debug assertions, recording before any
    [begin_function] panics. *)
Definition record_op (d : DebugInfoCollector) (strings : StringManager) (loc : Location)
    : outcome Error (DebugInfoCollector * StringManager) :=
  let '(t, strings, attr) := attr_for (current_scope d) (dc_attrs d) strings loc in
  match per_function d with
  | [] => Panic
  | ls => Ok (mkDebugInfoCollector t (push_last ls attr) (current_scope d), strings)
  end.

(** ** The context *)

(** The mutable part of [WriterCtx]; its [module] and [version] are fixed
    while writing and are arguments of the routines that read them. *)
Record WriterCtx := mkWriterCtx {
  value_map : gmap Z Z;
  next_idx : Z;
  strings : StringManager;
  types : TypeManager;
  constants : ConstantManager;
  debug : DebugInfoCollector;
}.

Definition ctx_new : WriterCtx :=
  mkWriterCtx ∅ 0 string_manager_new type_manager_new constant_manager_new debug_collector_new.

(** Routines take [&mut WriterCtx] and [&mut EncodingWriter] and return a
    [Result]; an error abandons both. *)
Definition WS : Type := WriterCtx * EncodingWriter.
Definition WM (A : Type) : Type := WS -> outcome Error (A * WS).

#[export] Instance WM_ret : MRet WM := fun A a s => Ok (a, s).
#[export] Instance WM_bind : MBind WM := fun A B f m s =>
  match m s with
  | Ok (a, s) => f a s
  | Err e => Err e
  | Panic => Panic
  end.

Definition wlift {A} (o : outcome Error A) : WM A := fun s => a ← o; Ok (a, s).
Definition wfail {A} (msg : string) : WM A := wlift (Err (BytecodeWrite msg)).
Definition wpanic {A} : WM A := wlift Panic.

Definition emit (f : EncodingWriter -> EncodingWriter) : WM unit := fun s => Ok (tt, (s.1, f s.2)).
Definition put_varint (v : Z) : WM unit := emit (write_varint v).
Definition put_byte (b : Z) : WM unit := emit (write_byte b).
Definition put_bytes (bs : list Z) : WM unit := emit (write_bytes bs).

Definition string_index (str : string) : WM Z := fun s =>
  let '(c, w) := s in
  let '(sm, i) := sm_get_or_insert (strings c) str in
  Ok (i, (mkWriterCtx (value_map c) (next_idx c) sm (types c) (constants c) (debug c), w)).

Definition type_index (ty : IRType) : WM Z := fun s =>
  let '(c, w) := s in
  let '(tm, i) := tm_get_or_insert (types c) ty in
  Ok (i, (mkWriterCtx (value_map c) (next_idx c) (strings c) tm (constants c) (debug c), w)).

Definition constant_index (data : list Z) : WM Z := fun s =>
  let '(c, w) := s in
  let '(cm, i) := cm_add (constants c) data in
  Ok (i, (mkWriterCtx (value_map c) (next_idx c) (strings c) (types c) cm (debug c), w)).

(** [let idx = strings.get_or_insert(s); w.write_varint(idx)] and the like. *)
Definition put_string (str : string) : WM unit := i ← string_index str; put_varint i.
Definition put_type (ty : IRType) : WM unit := i ← type_index ty; put_varint i.
(** The data of a dense constant, length first, into the constant pool. *)
Definition put_constant (data : list Z) : WM unit :=
  i ← constant_index (varint (zlen data) ++ data); put_varint i.

Definition lookup_value (v : Z) : WM (option Z) := fun s => Ok (value_map s.1 !! v, s).

(** [value_map.insert(v, next_idx); next_idx += 1]. *)
Definition define_value (v : Z) : WM unit := fun s =>
  let '(c, w) := s in
  Ok (tt, (mkWriterCtx (<[v := next_idx c]> (value_map c)) (next_idx c + 1) (strings c) (types c)
             (constants c) (debug c), w)).

Definition record_location (loc : Location) : WM unit := fun s =>
  let '(c, w) := s in
  ds ← record_op (debug c) (strings c) loc;
  Ok (tt, (mkWriterCtx (value_map c) (next_idx c) (ds : DebugInfoCollector * StringManager).2 (types c)
             (constants c) ds.1, w)).

(** A loop over a slice. *)
Definition each {A} (f : A -> WM unit) : list A -> WM unit :=
  fix go l := match l with [] => mret tt | x :: l => _ ← f x; go l end.

Definition when (b : bool) (m : WM unit) : WM unit := if b then m else mret tt.

(** ** Floating-point attributes *)

(** The language's [f64 as f32]: round to nearest, ties to even; a NaN keeps
    its sign and upper payload and becomes quiet. *)
Definition f64_as_f32 (bits : Z) : Z :=
  let sign := Z.land (Z.shiftr bits 63) 1 in
  let f64_exp := Z.land (Z.shiftr bits 52) 0x7FF in
  let f64_man := Z.land bits (Z.shiftl 1 52 - 1) in
  let sign_bit := Z.shiftl sign 31 in
  if f64_exp =? 0x7FF then
    if f64_man =? 0 then Z.lor sign_bit 0x7F800000
    else Z.lor sign_bit (Z.lor 0x7FC00000 (Z.shiftr f64_man 29))
  else
    let '(significand, unbiased) :=
      if f64_exp =? 0 then (f64_man, -1022) else (Z.lor (Z.shiftl 1 52) f64_man, f64_exp - 1023) in
    let target_exp := unbiased + 127 in
    if 255 <=? target_exp then Z.lor sign_bit 0x7F800000
    else if target_exp <=? 0 then sign_bit + round_shift_right_ties_even significand (29 + (1 - target_exp))
    else sign_bit + Z.shiftl (target_exp - 1) 23 + round_shift_right_ties_even significand 29.

Section floats.
(** Bits of [half::f16::from_f64] and [half::bf16::from_f64]. *)
Context (f16_bits bf16_bits : Z -> Z).

Definition write_ap_float (value : Z) (ty : IRType) : EncodingWriter -> EncodingWriter :=
  match ty with
  | TScalar ScalarType.F16 => write_signed_varint (f16_bits value)
  | TScalar ScalarType.BF16 => write_signed_varint (bf16_bits value)
  | TScalar ScalarType.F32 | TScalar ScalarType.TF32 => write_signed_varint (f64_as_f32 value)
  | TScalar ScalarType.F8E4M3FN => write_byte (f64_to_f8e4m3fn value)
  | TScalar ScalarType.F8E5M2 => write_byte (f64_to_f8e5m2 value)
  | _ => write_signed_varint (as_i64 value)
  end.

(** ** Attributes *)

Definition put_signed (v : Z) : WM unit := emit (write_signed_varint v).
Definition put_tag (t : AttributeTag.t) : WM unit := put_varint (AttributeTag.as_u8 t).
Definition put_option (o : option Z) : WM unit :=
  match o with Some v => put_signed v | None => mret tt end.
Definition flags2 {A B} (a : option A) (b : option B) : Z :=
  Z.lor (if is_some a then 0x01 else 0) (if is_some b then 0x02 else 0).

Fixpoint write_self_contained_attribute (attr : Attribute) : WM unit :=
  match attr with
  | AInteger v ty =>
      _ ← put_tag AttributeTag.Integer; _ ← put_type ty; put_varint (as_u64 v)
  | AFloat v ty =>
      _ ← put_tag AttributeTag.Float; _ ← put_type ty; emit (write_ap_float v ty)
  | ABool v => _ ← put_tag AttributeTag.Bool; put_byte (bool_as v)
  | AType ty => _ ← put_tag AttributeTag.Type_; put_type ty
  | AString str => _ ← put_tag AttributeTag.String; put_string str
  | AArray elems =>
      _ ← put_tag AttributeTag.Array; _ ← put_varint (zlen elems);
      each (fun elem => write_self_contained_attribute elem) elems
  | ADenseElements de =>
      _ ← put_tag AttributeTag.DenseElements; _ ← put_type (de_element_type de); put_constant (de_data de)
  | ADenseI32Array arr => emit (write_le_var_size_i32 arr)
  | ADivBy db =>
      _ ← put_tag AttributeTag.DivBy; _ ← put_varint (db_divisor db);
      _ ← put_byte (flags2 (db_every db) (db_along db));
      _ ← put_option (db_every db); put_option (db_along db)
  | ASameElements values => _ ← put_tag AttributeTag.SameElements; emit (write_le_var_size_i64 values)
  | ADictionary entries =>
      _ ← put_tag AttributeTag.Dictionary; _ ← put_varint (zlen entries);
      each (fun kv => let '(key, val) := kv in
        _ ← put_string key; write_self_contained_attribute val) entries
  | AOptimizationHints entries =>
      _ ← put_tag AttributeTag.OptimizationHints; _ ← put_varint (zlen entries);
      each (fun ah => let '(arch, hints) := ah in
        _ ← put_string arch;
        _ ← put_tag AttributeTag.Dictionary; _ ← put_varint (zlen hints);
        each (fun kv => let '(k, v) := kv in
          _ ← put_string k; write_self_contained_attribute v) hints) entries
  | ABounded b =>
      _ ← put_tag AttributeTag.Bounded; _ ← put_byte (flags2 (ba_lb b) (ba_ub b));
      _ ← put_option (ba_lb b); put_option (ba_ub b)
  end.

(** op_writer.rs: the untagged form used for an operation's own attributes. *)
Definition write_attr_value_inline (attr : Attribute) : WM unit :=
  match attr with
  | AInteger v _ => put_varint (as_u64 v)
  | AFloat v ty => emit (write_ap_float v ty)
  | ABool v => put_byte (bool_as v)
  | AString str => put_string str
  | AType ty => put_type ty
  | ADenseI32Array arr => emit (write_le_var_size_i32 arr)
  | ADenseElements de => put_constant (de_data de)
  | AArray elems => _ ← put_varint (zlen elems); each write_self_contained_attribute elems
  | ADictionary entries =>
      _ ← put_varint (zlen entries);
      each (fun kv => let '(key, val) := kv in
        _ ← put_string key; write_self_contained_attribute val) entries
  | AOptimizationHints entries =>
      _ ← put_varint (zlen entries);
      each (fun ah => let '(arch, hints) := ah in
        _ ← put_string arch; write_self_contained_attribute (ADictionary hints)) entries
  | ADivBy _ | ASameElements _ | ABounded _ => write_self_contained_attribute attr
  end.
End floats.

(** ** What serialization may do to the state *)

(** Every routine relates the state it starts from to the one it ends in.
    [respects R m]: a successful run of [m] moves the state along [R]. *)
Definition respects {A} (R : relation WS) (m : WM A) : Prop :=
  forall s a s', m s = Ok (a, s') -> R s s'.

(** The types an attribute mentions. *)
Fixpoint attr_all (T : IRType -> Prop) (attr : Attribute) : Prop :=
  match attr with
  | AInteger _ ty | AFloat _ ty | AType ty => T ty
  | ADenseElements de => T (de_element_type de)
  | AArray elems => foldr (fun a P => attr_all T a /\ P) True elems
  | ADictionary entries => foldr (fun kv P => attr_all T kv.2 /\ P) True entries
  | AOptimizationHints entries =>
      foldr (fun ah P => foldr (fun kv P => attr_all T kv.2 /\ P) True ah.2 /\ P) True entries
  | ABool _ | AString _ | ADenseI32Array _ | ADivBy _ | ASameElements _ | ABounded _ => True
  end.

(** What a relation must admit for the pre-scan to respect it: interning
    strings and the types in [T]. *)
Class InternRel (R : relation WS) (T : IRType -> Prop) : Prop := {
  ir_preorder :: PreOrder R;
  ir_string str : respects R (string_index str);
  ir_type ty : T ty -> respects R (type_index ty);
}.

(** And for every attribute and operation body: also appending bytes and
    adding constants. *)
Class WriterRel (R : relation WS) (T : IRType -> Prop) : Prop := {
  wr_intern :: InternRel R T;
  wr_bytes bs : respects R (put_bytes bs);
  wr_constant data : respects R (constant_index data);
}.

Create HintDb writer.
#[export] Hint Extern 0 (PreOrder _) => typeclasses eauto : writer.
#[export] Hint Extern 0 (InternRel _ _) => typeclasses eauto : writer.
#[export] Hint Extern 0 (WriterRel _ _) => typeclasses eauto : writer.

Lemma WM_bind_Ok {A B} (m : WM A) (f : A -> WM B) s b s' :
  (m ≫= f) s = Ok (b, s') -> exists a s1, m s = Ok (a, s1) /\ f a s1 = Ok (b, s').
Proof. unfold mbind, WM_bind. destruct (m s) as [[a s1]| |]; [eauto|done..]. Qed.

Lemma wlift_Ok {A} (o : outcome Error A) s a s' : wlift o s = Ok (a, s') -> o = Ok a /\ s' = s.
Proof. unfold wlift. destruct o; cbn; [intros [= <- <-]; done|done..]. Qed.

Section structure.
Context {R : relation WS} `{!PreOrder R}.

Lemma respects_bind {A B} (m : WM A) (f : A -> WM B) :
  respects R m -> (forall a, respects R (f a)) -> respects R (m ≫= f).
Proof. intros Hm Hf s b s' (a & s1 & H1 & H2)%WM_bind_Ok. etrans; [by eapply Hm|by eapply Hf]. Qed.

Lemma respects_ret {A} (a : A) : respects R (mret a).
Proof. by intros s a' s' [= <- <-]. Qed.

Lemma respects_lift {A} (o : outcome Error A) : respects R (wlift o).
Proof. by intros s a s' [_ ->]%wlift_Ok. Qed.

(** A lifted result is available to the rest. *)
Lemma respects_lift_bind {A B} (o : outcome Error A) (f : A -> WM B) :
  (forall a, o = Ok a -> respects R (f a)) -> respects R (wlift o ≫= f).
Proof. intros Hf s b s' (a & s1 & [-> ->]%wlift_Ok & H)%WM_bind_Ok. by eapply Hf. Qed.

Lemma respects_when b m : respects R m -> respects R (when b m).
Proof. destruct b; [done|]. intros _. apply respects_ret. Qed.

Lemma respects_each {A} (f : A -> WM unit) l : Forall (fun x => respects R (f x)) l -> respects R (each f l).
Proof.
  induction 1 as [|x l Hx Hl IH]; [apply respects_ret|]. apply respects_bind; [exact Hx|]. intros _. exact IH.
Qed.

Lemma respects_each_pair {A} (f : string -> A -> WM unit) (l : list (string * A)) :
  (forall k v, (k, v) ∈ l -> respects R (f k v)) -> respects R (each (fun kv => let '(k, v) := kv in f k v) l).
Proof. intros H. apply respects_each, Forall_forall. intros [k v]. apply H. Qed.

Lemma respects_fail {A} msg : respects R (wfail (A:=A) msg).
Proof. apply respects_lift. Qed.

Lemma respects_lookup v : respects R (lookup_value v).
Proof. by intros s a s' [= _ <-]. Qed.

End structure.

Section respects.
Context {R : relation WS} {T : IRType -> Prop} `{HR : !WriterRel R T}.

Lemma respects_emit f bs : (forall w, f w = write_bytes bs w) -> respects R (emit f).
Proof. intros Hf s a s'. unfold emit. rewrite Hf. apply (wr_bytes bs). Qed.

Lemma respects_varint v : respects R (put_varint v).
Proof. by apply (respects_emit _ (varint v)). Qed.

Lemma respects_byte b : respects R (put_byte b).
Proof. by apply (respects_emit _ [b]). Qed.

Lemma respects_signed v : respects R (put_signed v).
Proof. by apply (respects_emit _ (varint (zigzag v))). Qed.

Lemma respects_option o : respects R (put_option o).
Proof. destruct o; [apply respects_signed|apply respects_ret]. Qed.

Lemma respects_string str : respects R (put_string str).
Proof. apply respects_bind; [apply ir_string|intros; apply respects_varint]. Qed.

Lemma respects_type ty : T ty -> respects R (put_type ty).
Proof. intros. apply respects_bind; [by apply ir_type|intros; apply respects_varint]. Qed.

Lemma respects_constant data : respects R (put_constant data).
Proof. apply respects_bind; [apply wr_constant|intros; apply respects_varint]. Qed.

Lemma respects_ap_float f16 bf16 v ty : respects R (emit (write_ap_float f16 bf16 v ty)).
Proof.
  destruct ty as [[]| | | | | | | | |]; (eapply respects_emit; intros w; reflexivity).
Qed.

Lemma respects_i32s l : respects R (emit (write_le_var_size_i32 l)).
Proof. eapply respects_emit. apply write_dims32. Qed.

Lemma respects_i64s l : respects R (emit (write_le_var_size_i64 l)).
Proof. eapply respects_emit. apply write_dims64. Qed.
End respects.

#[export] Hint Resolve respects_bind respects_ret respects_lift respects_when respects_varint respects_byte
  respects_signed respects_option respects_string respects_type respects_constant respects_fail
  respects_lookup respects_ap_float respects_i32s respects_i64s ir_string ir_type wr_constant : writer.

(** Solve [respects R _] by the structure of the routine. *)
Ltac writer := eauto 40 with writer nocore.

Lemma foldr_and {A} (P : A -> Prop) l : foldr (fun a Q => P a /\ Q) True l <-> Forall P l.
Proof. induction l as [|a l IH]; cbn; [by split; [constructor|]|]. by rewrite IH, Forall_cons. Qed.

Definition is_leaf (attr : Attribute) : bool :=
  match attr with AArray _ | ADictionary _ | AOptimizationHints _ => false | _ => true end.

(** Induction over attributes with the nested lists unfolded. *)
Section attribute_ind.
Context (P : Attribute -> Prop).
Context (Hleaf : forall attr, is_leaf attr = true -> P attr).
Context (Harray : forall elems, Forall P elems -> P (AArray elems)).
Context (Hdict : forall entries, Forall (fun kv => P kv.2) entries -> P (ADictionary entries)).
Context (Hhints : forall entries, Forall (fun ah => Forall (fun kv => P kv.2) ah.2) entries ->
  P (AOptimizationHints entries)).

Fixpoint attribute_ind' (attr : Attribute) : P attr.
Proof.
  destruct attr; try (apply Hleaf; reflexivity).
  - apply Harray. induction elems as [|a l IH]; constructor; [apply attribute_ind'|exact IH].
  - apply Hdict. induction entries as [|[k a] l IH]; constructor; [apply attribute_ind'|exact IH].
  - apply Hhints. induction entries as [|[k h] l IH]; constructor; [|exact IH]. cbn.
    induction h as [|[k' a] h IH']; constructor; [apply attribute_ind'|exact IH'].
Defined.
End attribute_ind.

(** Nothing is asked of the types. *)
Lemma attr_all_True attr : attr_all (fun _ => True) attr.
Proof.
  induction attr as [attr Hl|l IH|l IH|l IH] using attribute_ind'; [by destruct attr|..]; cbn [attr_all].
  - by apply foldr_and.
  - by apply (foldr_and (fun kv => attr_all (fun _ => True) kv.2)).
  - apply (foldr_and (fun ah => foldr (fun kv P => attr_all (fun _ => True) kv.2 /\ P) True ah.2)).
    eapply Forall_impl; [exact IH|]. intros [k h]. apply (foldr_and (fun kv => attr_all (fun _ => True) kv.2)).
Qed.

Section attributes.
Context {R : relation WS} {T : IRType -> Prop} `{HR : !WriterRel R T}.
Context (f16_bits bf16_bits : Z -> Z).

Lemma respects_self_contained attr : attr_all T attr ->
  respects R (write_self_contained_attribute f16_bits bf16_bits attr).
Proof.
  induction attr as [attr Hl|elems IH|entries IH|entries IH] using attribute_ind'; cbn [attr_all].
  - destruct attr; try discriminate Hl; cbn [attr_all write_self_contained_attribute]; unfold put_tag; writer.
  - rewrite foldr_and. intros H. cbn [write_self_contained_attribute]. unfold put_tag.
    apply respects_bind; [writer|]. intros _. apply respects_bind; [writer|]. intros _. apply respects_each.
    rewrite Forall_forall in *. intros a Ha. by apply IH, H.
  - rewrite (foldr_and (fun kv => attr_all T kv.2)). intros H. cbn [write_self_contained_attribute]. unfold put_tag.
    apply respects_bind; [writer|]. intros _. apply respects_bind; [writer|]. intros _.
    apply respects_each_pair. rewrite Forall_forall in *. intros k v Hk. apply respects_bind; [writer|]. intros _.
    by apply (IH _ Hk), (H _ Hk).
  - rewrite (foldr_and (fun ah => foldr (fun kv P => attr_all T kv.2 /\ P) True ah.2)). intros H.
    cbn [write_self_contained_attribute]. unfold put_tag.
    apply respects_bind; [writer|]. intros _. apply respects_bind; [writer|]. intros _.
    apply respects_each_pair. rewrite Forall_forall in *. intros arch hints Hk.
    pose proof (IH _ Hk) as IHk. pose proof (H _ Hk) as Hh. cbn [snd] in IHk, Hh.
    rewrite (foldr_and (fun kv => attr_all T kv.2)) in Hh. rewrite Forall_forall in *.
    do 3 (apply respects_bind; [writer|]; intros _).
    apply respects_each_pair. intros k v Hv. apply respects_bind; [writer|]. intros _.
    by apply (IHk _ Hv), (Hh _ Hv).
Qed.

Lemma respects_inline attr : attr_all T attr -> respects R (write_attr_value_inline f16_bits bf16_bits attr).
Proof.
  destruct attr; cbn [attr_all write_attr_value_inline]; intros H; try writer;
    try (by apply respects_self_contained); (apply respects_bind; [writer|]; intros _).
  - apply foldr_and in H. apply respects_each. eapply Forall_impl; [exact H|]. apply respects_self_contained.
  - apply (foldr_and (fun kv => attr_all T kv.2)) in H. apply respects_each_pair. rewrite Forall_forall in H.
    intros k v Hk. apply respects_bind; [writer|]. intros _. by apply respects_self_contained, (H _ Hk).
  - apply (foldr_and (fun ah => foldr (fun kv P => attr_all T kv.2 /\ P) True ah.2)) in H.
    apply respects_each_pair. rewrite Forall_forall in H.
    intros k h Hk. apply respects_bind; [writer|]. intros _. by apply respects_self_contained, (H _ Hk).
Qed.
End attributes.

#[export] Hint Resolve respects_self_contained respects_inline : writer.
