(* ===== verification/OpWriter.v ===== *)
(** * Per-operation serialization (cutile-ir/src/bytecode/op_writer.rs)

    The body of an operation: version gates, result types, flags,
    attributes, operands and regions, laid out opcode by opcode.  The
    serialization of a nested region is a parameter here and is tied back in
    [ModuleWriter]. *)

From S2P Require Import Prelude Enums Encoding IR Tables TypeTable Module Writer.

(** ** Attribute and segment access *)

Definition find_op_attr (op : Operation) (name : string) : option Attribute :=
  snd <$> find (fun e => bool_decide (e.1 = name)) (attributes op).

Definition flag_if_present (op : Operation) (attr_name : string) (bit : Z) : Z :=
  if is_some (find_op_attr op attr_name) then Z.shiftl 1 bit else 0.

Definition flag_if_bool_true (op : Operation) (attr_name : string) (bit : Z) : Z :=
  match find_op_attr op attr_name with
  | Some (ABool true) => Z.shiftl 1 bit
  | Some (AInteger v _) => if negb (v =? 0) then Z.shiftl 1 bit else 0
  | _ => 0
  end.

(** The first attribute of that name that is an array; without one, one
    operand per segment. *)
Definition operand_segment_sizes (op : Operation) : list Z :=
  match find (fun e => bool_decide (e.1 = "operandSegmentSizes"%string)
                       && match e.2 with AArray _ => true | _ => false end) (attributes op) with
  | Some (_, AArray arr) => (fun a => match a with AInteger v _ => as_i32 v | _ => 0 end) <$> arr
  | _ => replicate (length (operands op)) 1
  end.

(** [sizes.get(group).copied().unwrap_or(0)]. *)
Definition segment_size (op : Operation) (group : nat) : Z := default 0 (operand_segment_sizes op !! group).

(** [sizes.iter().take(group_idx).map(|&s| s as usize).sum()]; a negative
    size casts to a huge one. *)
Definition operand_group_offset (op : Operation) (group_idx : nat) : Z :=
  as_u64 (foldr Z.add 0 (as_u64 <$> take group_idx (operand_segment_sizes op))).

Definition flag_if_operand_group (op : Operation) (group_idx : nat) (bit : Z) : Z :=
  if 0 <? segment_size op group_idx then Z.shiftl 1 bit else 0.

(** [flags & (1 << bit) != 0]. *)
Definition has_flag (flags bit : Z) : bool := negb (Z.land flags (Z.shiftl 1 bit) =? 0).

Section op_writer.
Context (f16_bits bf16_bits : Z -> Z).
Context (m : IRModule) (version : BytecodeVersion).
(** [ctx.write_region(region_id, w)]. *)
Context (write_region : Z -> WM unit).

Definition require (feature : string) (required : BytecodeVersion) : WM unit :=
  wlift (require_version feature required version).

Definition write_result_types (op : Operation) : WM unit := each put_type (result_types op).

(** ** Operands *)

(** [value_map.get(&v).copied().ok_or_else(..)], then the index. *)
Definition put_value (v : Z) (missing : string) : WM unit :=
  i ← lookup_value v;
  match i with
  | Some i => put_varint i
  | None => wfail missing
  end.

Definition put_operand (op : Operation) (v : Z) : WM unit :=
  put_value v ("operand Value(" +:+ pretty v +:+ ") not found in value map for op " +:+ Opcode.debug (opcode op)).

Definition write_operands (op : Operation) (encode_size : bool) : WM unit :=
  _ ← when encode_size (put_varint (zlen (operands op)));
  each (put_operand op) (operands op).

(** [op.operands[offset + i]] for [i] from [i] to [size]. The operand list
    bounds the rounds: an index past its end panics. *)
Fixpoint group_loop (fuel : nat) (op : Operation) (what : string) (offset i size : Z) : WM unit :=
  if size <=? i then mret tt
  else
    match fuel with
    | O => wpanic
    | S fuel =>
        operand ← wlift (arena (operands op) (as_u64 (offset + i)));
        _ ← put_value operand (what +:+ "[" +:+ pretty i +:+ "] not found in value map");
        group_loop fuel op what offset (i + 1) size
    end.

Definition run_group (op : Operation) (what : string) (offset size : Z) : WM unit :=
  group_loop (S (length (operands op))) op what offset 0 size.

Definition write_operand_group (op : Operation) (group_idx : nat) (expected_size : Z) : WM unit :=
  run_group op ("operand group " +:+ pretty (Z.of_nat group_idx)) (operand_group_offset op group_idx) expected_size.

Definition write_variadic_operand_group (op : Operation) (group_idx : nat) : WM unit :=
  let size := as_u64 (segment_size op group_idx) in
  let offset := operand_group_offset op group_idx in
  _ ← put_varint size;
  run_group op ("variadic operand group " +:+ pretty (Z.of_nat group_idx)) offset size.

(** The operand groups of [print_tko]: how many format arguments, and whether
    a token follows. *)
Definition print_operand_groups (op : Operation) : outcome Error (Z * bool) :=
  if is_some (find_op_attr op "operandSegmentSizes") then
    let num_args := Z.max (segment_size op 0) 0 in
    let has_token := 0 <? segment_size op 1 in
    Ok (Z.min num_args (zlen (operands op)), has_token)
  else
    match last (operands op) with
    | Some v =>
        ty ← value_type m v;
        let has_token := match ty with TToken => true | _ => false end in
        Ok (zlen (operands op) - bool_as has_token, has_token)
    | None => Ok (0, false)
    end.

Definition write_regions (op : Operation) : WM unit :=
  _ ← put_varint (zlen (regions op));
  each write_region (regions op).

(** ** Attributes *)

Definition write_inline_attr (op : Operation) (name : string) : WM unit :=
  match find_op_attr op name with
  | Some attr => write_attr_value_inline f16_bits bf16_bits attr
  | None => wfail ("missing attribute '" +:+ name +:+ "' on op " +:+ Opcode.debug (opcode op))
  end.

Definition write_inline_attr_or_default (op : Operation) (name : string) (default : Z) : WM unit :=
  match find_op_attr op name with
  | Some attr => write_attr_value_inline f16_bits bf16_bits attr
  | None => put_varint default
  end.

Definition write_interface_attr (op : Operation) (name : string) : WM unit :=
  match find_op_attr op name with
  | Some attr => write_self_contained_attribute f16_bits bf16_bits attr
  | None => wfail ("missing interface attribute '" +:+ name +:+ "' on op " +:+ Opcode.debug (opcode op))
  end.

(** [attrs.iter().map(..).collect::<Result<Vec<_>>>()]. *)
Fixpoint bool_elements (attrs : list Attribute) : outcome Error (list bool) :=
  match attrs with
  | [] => Ok []
  | ABool value :: attrs => vs ← bool_elements attrs; Ok (value :: vs)
  | _ :: _ => Err (BytecodeWrite "inbounds requires boolean elements")
  end.

Definition inbounds_values (op : Operation) (rank : Z) : outcome Error (list bool) :=
  let wrong := Err (BytecodeWrite (Opcode.name (opcode op) +:+ ".inbounds must contain " +:+ pretty rank
                      +:+ " booleans (one per index dimension)")) in
  match find_op_attr op "inbounds" with
  | None => Ok (replicate (Z.to_nat rank) false)
  | Some (AArray attrs) => if zlen attrs =? rank then bool_elements attrs else wrong
  | Some _ => wrong
  end.

Definition write_inbounds (op : Operation) (indices_group : nat) : WM unit :=
  let rank := segment_size op indices_group in
  if rank <? 0 then wfail "negative view index operand count"
  else
    values ← wlift (inbounds_values op rank);
    _ ← when (existsb id values) (require "inbounds=true" (Feature.since Feature.Inbounds));
    when (version_ge version V13_4)
      (_ ← put_varint rank; each (fun b => put_byte (bool_as b)) values).

(** The two optional attributes the memory operations share. *)
Definition write_memory_attrs (op : Operation) (flags : Z) : WM unit :=
  _ ← write_inline_attr op "memory_ordering_semantics";
  _ ← when (has_flag flags 0) (write_inline_attr op "memory_scope");
  when (has_flag flags 1) (write_inline_attr op "optimization_hints").

(** ** Dispatch *)

(** The gates before the dispatch. *)
Definition check_features (op : Operation) : WM unit :=
  _ ← require (Opcode.name (opcode op)) (since (opcode_requirement (opcode op)));
  each (fun e => match attribute_feature (opcode op) e.1 e.2 with
                 | Some feature => require (Feature.name feature) (Feature.since feature)
                 | None => mret tt
                 end) (attributes op).

Definition put_result_count (op : Operation) : WM unit := put_varint (zlen (result_types op)).

Definition is_integer (attr : Attribute) (n : Z) : bool :=
  match attr with AInteger v _ => v =? n | _ => false end.

(** [find_op_attr(op, name).is_some_and(|attr| !matches!(attr, Integer(n, _)))]. *)
Definition attr_differs (op : Operation) (name : string) (n : Z) : bool :=
  match find_op_attr op name with
  | Some attr => negb (is_integer attr n)
  | None => false
  end.

Definition v13_3 : bool := version_ge version V13_3.

(** The [Print] arm after its result types. *)
Definition print_tail (op : Operation) : WM unit :=
  groups ← wlift (print_operand_groups op);
  let '(num_args, has_token) := (groups : Z * bool) in
  _ ← put_varint (if has_token then 1 else 0);
  _ ← write_inline_attr op "str";
  _ ← put_varint num_args;
  _ ← each (put_operand op) (take (Z.to_nat num_args) (operands op));
  when has_token (v ← wlift (arena (operands op) num_args); put_operand op v).

(** The arm of the dispatch an opcode takes. *)
Definition op_arm (op : Operation) : WM unit :=
  match opcode op with
  | Opcode.AbsF | Opcode.AbsI | Opcode.AndI | Opcode.Atan2 | Opcode.Bitcast | Opcode.Broadcast | Opcode.Ceil
  | Opcode.Cos | Opcode.CosH | Opcode.Floor | Opcode.FPowI | Opcode.IntToPtr | Opcode.Log | Opcode.Log2
  | Opcode.MakeGatherScatterView | Opcode.MakeStridedView | Opcode.MemoryFenceAliasTko | Opcode.MmaFScaled
  | Opcode.MulhiI | Opcode.NegF | Opcode.Offset | Opcode.OrI | Opcode.Pack | Opcode.Pow | Opcode.PtrToInt
  | Opcode.PtrToPtr | Opcode.RemF | Opcode.Reshape | Opcode.Select | Opcode.Sin | Opcode.SinH | Opcode.Tan
  | Opcode.Unpack | Opcode.XOrI =>
      _ ← write_result_types op; write_operands op false
  | Opcode.Exp =>
      _ ← write_result_types op;
      _ ← when (attr_differs op "rounding_mode" 5) (require "exp.rounding_mode" (Feature.since Feature.ExpRounding));
      _ ← when v13_3 (write_inline_attr_or_default op "rounding_mode" 5);
      write_operands op false
  | Opcode.MmaF =>
      _ ← write_result_types op;
      _ ← when (negb (flag_if_bool_true op "fast_acc" 0 =? 0))
            (require "mmaf.fast_acc" (Feature.since Feature.FastAccumulation));
      _ ← when v13_3 (put_varint (flag_if_bool_true op "fast_acc" 0));
      write_operands op false
  | Opcode.Alloca =>
      _ ← write_result_types op;
      _ ← put_varint (flag_if_bool_true op "global" 0);
      _ ← write_inline_attr op "num_elem";
      write_inline_attr op "alignment"
  | Opcode.NegI =>
      _ ← write_result_types op; _ ← write_inline_attr_or_default op "overflow" 0; write_operands op false
  | Opcode.TanH =>
      _ ← write_result_types op; _ ← write_inline_attr_or_default op "rounding_mode" 5; write_operands op false
  | Opcode.Iota => write_result_types op
  | Opcode.AddI | Opcode.MulI | Opcode.SubI | Opcode.ShLI | Opcode.TruncI =>
      _ ← write_result_types op; _ ← write_inline_attr op "overflow"; write_operands op false
  | Opcode.ShRI | Opcode.ExtI =>
      _ ← write_result_types op; _ ← write_inline_attr op "signedness"; write_operands op false
  | Opcode.Cat => _ ← write_result_types op; _ ← write_inline_attr op "dim"; write_operands op false
  | Opcode.Permute => _ ← write_result_types op; _ ← write_inline_attr op "permutation"; write_operands op false
  | Opcode.Assert => _ ← write_result_types op; _ ← write_inline_attr op "message"; write_operands op false
  | Opcode.Assume => _ ← write_result_types op; _ ← write_interface_attr op "predicate"; write_operands op false
  | Opcode.CmpF =>
      _ ← write_result_types op;
      _ ← write_inline_attr op "comparison_predicate";
      _ ← write_inline_attr op "comparison_ordering";
      write_operands op false
  | Opcode.CmpI =>
      _ ← write_result_types op;
      _ ← write_inline_attr op "comparison_predicate";
      _ ← write_inline_attr op "signedness";
      write_operands op false
  | Opcode.Constant => _ ← write_result_types op; write_inline_attr op "value"
  | Opcode.DivI =>
      _ ← write_result_types op;
      _ ← write_inline_attr op "signedness";
      _ ← write_inline_attr op "rounding";
      write_operands op false
  | Opcode.FToF => _ ← write_result_types op; _ ← write_inline_attr op "rounding_mode"; write_operands op false
  | Opcode.FToI =>
      _ ← write_result_types op;
      let flags := flag_if_bool_true op "saturating" 0 in
      _ ← when (negb (flags =? 0)) (require "ftoi.saturating" (Feature.since Feature.SaturatingFToI));
      _ ← when (version_ge version V13_4) (put_varint flags);
      _ ← write_inline_attr op "signedness";
      _ ← write_inline_attr op "rounding_mode";
      write_operands op false
  | Opcode.IToF =>
      _ ← write_result_types op;
      _ ← write_inline_attr op "signedness";
      _ ← write_inline_attr op "rounding_mode";
      write_operands op false
  | Opcode.MaxI | Opcode.MinI | Opcode.RemI =>
      _ ← write_result_types op; _ ← write_inline_attr op "signedness"; write_operands op false
  | Opcode.MmaI =>
      _ ← write_result_types op;
      _ ← write_inline_attr op "signedness_lhs";
      _ ← write_inline_attr op "signedness_rhs";
      write_operands op false
  | Opcode.GetNumTileBlocks | Opcode.GetTileBlockId | Opcode.MakeToken => write_result_types op
  | Opcode.MakePartitionView => _ ← write_result_types op; write_operands op false
  | Opcode.JoinTokens => _ ← put_result_count op; _ ← write_result_types op; write_operands op true
  | Opcode.MakeTensorView =>
      _ ← put_result_count op;
      _ ← write_result_types op;
      _ ← write_operand_group op 0 1;
      _ ← write_variadic_operand_group op 1;
      write_variadic_operand_group op 2
  | Opcode.GetGlobal => _ ← write_result_types op; write_inline_attr op "name"
  | Opcode.Extract | Opcode.Insert =>
      _ ← put_result_count op; _ ← write_result_types op; write_operands op true
  | Opcode.AddF | Opcode.DivF | Opcode.MulF | Opcode.SubF | Opcode.Fma | Opcode.Sqrt =>
      _ ← write_result_types op;
      _ ← put_varint (flag_if_present op "flush_to_zero" 0);
      _ ← write_inline_attr op "rounding_mode";
      write_operands op false
  | Opcode.Exp2 | Opcode.Rsqrt =>
      _ ← write_result_types op;
      _ ← put_varint (flag_if_present op "flush_to_zero" 0);
      write_operands op false
  | Opcode.MaxF | Opcode.MinF =>
      _ ← write_result_types op;
      _ ← put_varint (Z.lor (flag_if_present op "propagate_nan" 0) (flag_if_present op "flush_to_zero" 1));
      write_operands op false
  | Opcode.GetIndexSpaceShape | Opcode.GetTensorShape =>
      _ ← put_result_count op; _ ← write_result_types op; write_operands op false
  | Opcode.Global =>
      _ ← write_result_types op;
      _ ← when (negb (flag_if_bool_true op "constant" 0 =? 0))
            (require "global.constant" (Feature.since Feature.GlobalConstant));
      _ ← when (attr_differs op "symbol_visibility" 0)
            (require "global.symbol_visibility" (Feature.since Feature.GlobalVisibility));
      _ ← when v13_3 (put_varint (flag_if_bool_true op "constant" 0));
      _ ← write_inline_attr op "sym_name";
      _ ← write_inline_attr op "value";
      _ ← write_inline_attr op "alignment";
      when v13_3 (write_inline_attr_or_default op "symbol_visibility" 0)
  | Opcode.Module =>
      let has_producer := is_some (find_op_attr op "producer") in
      _ ← write_result_types op;
      _ ← when has_producer (require "module.producer" (Feature.since Feature.Producer));
      _ ← when v13_3 (put_varint (flag_if_present op "producer" 0));
      _ ← write_inline_attr op "sym_name";
      _ ← when (v13_3 && has_producer) (write_inline_attr op "producer");
      write_regions op
  | Opcode.Break | Opcode.Continue | Opcode.Return | Opcode.Yield =>
      _ ← put_result_count op; _ ← write_result_types op; write_operands op true
  | Opcode.Print => _ ← put_result_count op; _ ← write_result_types op; print_tail op
  | Opcode.For =>
      _ ← put_result_count op;
      _ ← write_result_types op;
      _ ← put_varint (flag_if_present op "unsigned_cmp" 0);
      _ ← write_operands op true;
      write_regions op
  | Opcode.Loop =>
      _ ← put_result_count op; _ ← write_result_types op; _ ← write_operands op true; write_regions op
  | Opcode.If =>
      _ ← put_result_count op; _ ← write_result_types op; _ ← write_operands op false; write_regions op
  | Opcode.Reduce =>
      _ ← put_result_count op;
      _ ← write_result_types op;
      _ ← write_inline_attr op "dim";
      _ ← write_inline_attr op "identities";
      _ ← write_operands op true;
      write_regions op
  | Opcode.Scan =>
      _ ← put_result_count op;
      _ ← write_result_types op;
      _ ← write_inline_attr op "dim";
      _ ← write_inline_attr op "reverse";
      _ ← write_inline_attr op "identities";
      _ ← write_operands op true;
      write_regions op
  | Opcode.AtomicCAS =>
      _ ← write_result_types op;
      let flags := Z.lor (flag_if_operand_group op 3 0) (flag_if_operand_group op 4 1) in
      _ ← put_varint flags;
      _ ← write_inline_attr op "memory_ordering_semantics";
      _ ← write_inline_attr op "memory_scope";
      _ ← write_operand_group op 0 1;
      _ ← write_operand_group op 1 1;
      _ ← write_operand_group op 2 1;
      _ ← when (has_flag flags 0) (write_operand_group op 3 1);
      when (has_flag flags 1) (write_operand_group op 4 1)
  | Opcode.AtomicRMW =>
      _ ← write_result_types op;
      let flags := Z.lor (flag_if_operand_group op 2 0) (flag_if_operand_group op 3 1) in
      _ ← put_varint flags;
      _ ← write_inline_attr op "memory_ordering_semantics";
      _ ← write_inline_attr op "memory_scope";
      _ ← write_inline_attr op "mode";
      _ ← write_operand_group op 0 1;
      _ ← write_operand_group op 1 1;
      _ ← when (has_flag flags 0) (write_operand_group op 2 1);
      when (has_flag flags 1) (write_operand_group op 3 1)
  | Opcode.AtomicRedViewTko =>
      _ ← put_result_count op;
      _ ← write_result_types op;
      let flags := flag_if_operand_group op 3 0 in
      _ ← put_varint flags;
      _ ← write_inline_attr op "memory_ordering_semantics";
      _ ← write_inline_attr op "memory_scope";
      _ ← write_inline_attr op "mode";
      _ ← write_operand_group op 0 1;
      _ ← write_variadic_operand_group op 1;
      _ ← write_operand_group op 2 1;
      when (has_flag flags 0) (write_operand_group op 3 1)
  | Opcode.LoadPtrTko =>
      _ ← write_result_types op;
      let flags := Z.lor (flag_if_present op "memory_scope" 0) (Z.lor (flag_if_present op "optimization_hints" 1)
                     (Z.lor (flag_if_operand_group op 1 2) (Z.lor (flag_if_operand_group op 2 3)
                        (flag_if_operand_group op 3 4)))) in
      _ ← put_varint flags;
      _ ← write_memory_attrs op flags;
      _ ← write_operand_group op 0 1;
      _ ← when (has_flag flags 2) (write_operand_group op 1 1);
      _ ← when (has_flag flags 3) (write_operand_group op 2 1);
      when (has_flag flags 4) (write_operand_group op 3 1)
  | Opcode.LoadViewTko =>
      _ ← put_result_count op;
      _ ← write_result_types op;
      let flags := Z.lor (flag_if_present op "memory_scope" 0) (Z.lor (flag_if_present op "optimization_hints" 1)
                     (flag_if_operand_group op 2 2)) in
      _ ← put_varint flags;
      _ ← write_memory_attrs op flags;
      _ ← write_inbounds op 1;
      _ ← write_operand_group op 0 1;
      _ ← write_variadic_operand_group op 1;
      when (has_flag flags 2) (write_operand_group op 2 1)
  | Opcode.StorePtrTko =>
      _ ← write_result_types op;
      let flags := Z.lor (flag_if_present op "memory_scope" 0) (Z.lor (flag_if_present op "optimization_hints" 1)
                     (Z.lor (flag_if_operand_group op 2 2) (flag_if_operand_group op 3 3))) in
      _ ← put_varint flags;
      _ ← write_memory_attrs op flags;
      _ ← write_operand_group op 0 1;
      _ ← write_operand_group op 1 1;
      _ ← when (has_flag flags 2) (write_operand_group op 2 1);
      when (has_flag flags 3) (write_operand_group op 3 1)
  | Opcode.StoreViewTko =>
      _ ← put_result_count op;
      _ ← write_result_types op;
      let flags := Z.lor (flag_if_present op "memory_scope" 0) (Z.lor (flag_if_present op "optimization_hints" 1)
                     (flag_if_operand_group op 3 2)) in
      _ ← put_varint flags;
      _ ← write_memory_attrs op flags;
      _ ← write_inbounds op 2;
      _ ← write_operand_group op 0 1;
      _ ← write_operand_group op 1 1;
      _ ← write_variadic_operand_group op 2;
      when (has_flag flags 2) (write_operand_group op 3 1)
  | Opcode.GdcLaunchDependentsTko | Opcode.GdcWaitTko =>
      _ ← when (1 <? zlen (operands op)) (wfail (Opcode.name (opcode op) +:+ " expects at most one token operand"));
      _ ← write_result_types op;
      _ ← put_varint (bool_as (negb (zlen (operands op) =? 0)));
      write_operands op false
  | Opcode.Entry =>
      _ ← write_result_types op;
      let flags := Z.lor (flag_if_present op "arg_attrs" 0) (Z.lor (flag_if_present op "res_attrs" 1)
                     (flag_if_present op "optimization_hints" 2)) in
      _ ← put_varint flags;
      _ ← write_inline_attr op "sym_name";
      _ ← write_inline_attr op "function_type";
      _ ← when (has_flag flags 0) (write_inline_attr op "arg_attrs");
      _ ← when (has_flag flags 1) (write_inline_attr op "res_attrs");
      _ ← when (has_flag flags 2) (write_inline_attr op "optimization_hints");
      write_regions op
  end.

Definition write_op_body (op : Operation) : WM unit := _ ← check_features op; op_arm op.

End op_writer.

(** ** Operation bodies respect every writer relation *)

(** The types an operation mentions. *)
Definition op_types (T : IRType -> Prop) (op : Operation) : Prop :=
  Forall T (result_types op) /\ Forall (fun e => attr_all T e.2) (attributes op).

Lemma find_op_attr_elem op name attr : find_op_attr op name = Some attr -> (name, attr) ∈ attributes op.
Proof.
  unfold find_op_attr. destruct (find _ _) as [[k a]|] eqn:E; [|done]. cbn. intros [= ->].
  apply find_some in E as [Hin Hk]. cbn in Hk. apply bool_decide_eq_true in Hk as ->. by apply list_elem_of_In.
Qed.

Section respects.
Context {R : relation WS} {T : IRType -> Prop} `{HR : !WriterRel R T}.
Context (f16_bits bf16_bits : Z -> Z) (m : IRModule) (version : BytecodeVersion).
Context (write_region : Z -> WM unit) (op : Operation).
Context (Hregion : forall r, r ∈ regions op -> respects R (write_region r)) (Hop : op_types T op).

Lemma respects_require feature required : respects R (require version feature required).
Proof. apply respects_lift. Qed.

Lemma respects_result_types : respects R (write_result_types op).
Proof. apply respects_each. eapply Forall_impl; [exact (proj1 Hop)|]. intros ty. apply respects_type. Qed.

Lemma respects_put_value v msg : respects R (put_value v msg).
Proof. apply respects_bind; [writer|]. intros [i|]; writer. Qed.

Lemma respects_operands size : respects R (write_operands op size).
Proof.
  apply respects_bind; [writer|]. intros _. apply respects_each, Forall_forall. intros v _. apply respects_put_value.
Qed.

Lemma respects_group what offset size : respects R (run_group op what offset size).
Proof.
  unfold run_group. generalize (S (length (operands op))) as fuel, 0 as i. intros fuel.
  induction fuel as [|fuel IH]; intros i; cbn [group_loop]; (destruct (size <=? i); [apply respects_ret|]);
    [apply respects_lift|]. apply respects_bind; [writer|]. intros v.
  apply respects_bind; [apply respects_put_value|]. intros _. apply IH.
Qed.

Lemma respects_operand_group g n : respects R (write_operand_group op g n).
Proof. apply respects_group. Qed.

Lemma respects_variadic_group g : respects R (write_variadic_operand_group op g).
Proof. apply respects_bind; [writer|]. intros _. apply respects_group. Qed.

Lemma respects_regions : respects R (write_regions write_region op).
Proof. apply respects_bind; [writer|]. intros _. by apply respects_each, Forall_forall. Qed.

Lemma attr_found name attr : find_op_attr op name = Some attr -> attr_all T attr.
Proof. intros H%find_op_attr_elem. destruct Hop as [_ Ha]. rewrite Forall_forall in Ha. exact (Ha _ H). Qed.

Lemma respects_inline_attr name : respects R (write_inline_attr f16_bits bf16_bits op name).
Proof.
  unfold write_inline_attr. destruct (find_op_attr op name) eqn:E; [|writer].
  apply respects_inline. by eapply attr_found.
Qed.

Lemma respects_inline_or_default name d :
  respects R (write_inline_attr_or_default f16_bits bf16_bits op name d).
Proof.
  unfold write_inline_attr_or_default. destruct (find_op_attr op name) eqn:E; [|writer].
  apply respects_inline. by eapply attr_found.
Qed.

Lemma respects_interface_attr name : respects R (write_interface_attr f16_bits bf16_bits op name).
Proof.
  unfold write_interface_attr. destruct (find_op_attr op name) eqn:E; [|writer].
  apply respects_self_contained. by eapply attr_found.
Qed.

Lemma respects_memory_attrs flags : respects R (write_memory_attrs f16_bits bf16_bits op flags).
Proof.
  apply respects_bind; [apply respects_inline_attr|]. intros _.
  apply respects_bind; [|intros _]; apply respects_when, respects_inline_attr.
Qed.

Lemma respects_inbounds g : respects R (write_inbounds version op g).
Proof.
  unfold write_inbounds. destruct (_ <? 0); [writer|]. apply respects_bind; [writer|]. intros vs.
  apply respects_bind; [apply respects_when, respects_require|]. intros _. apply respects_when.
  apply respects_bind; [writer|]. intros _. apply respects_each, Forall_forall. intros; apply respects_byte.
Qed.

Lemma respects_print : respects R (print_tail f16_bits bf16_bits m op).
Proof.
  unfold print_tail. apply respects_bind; [writer|]. intros [n b]. apply respects_bind; [writer|]. intros _.
  apply respects_bind; [apply respects_inline_attr|]. intros _. apply respects_bind; [writer|]. intros _.
  apply respects_bind; [apply respects_each, Forall_forall; intros; apply respects_put_value|]. intros _.
  apply respects_when, respects_bind; [writer|]. intros v. apply respects_put_value.
Qed.

#[local] Hint Resolve respects_require respects_result_types respects_operands respects_operand_group
  respects_variadic_group respects_regions respects_inline_attr respects_inline_or_default
  respects_interface_attr respects_memory_attrs respects_inbounds respects_print : writer.

Lemma respects_op_arm : respects R (op_arm f16_bits bf16_bits m version write_region op).
Proof. unfold op_arm, put_result_count. destruct (opcode op); writer. Qed.

Lemma respects_op_body : respects R (write_op_body f16_bits bf16_bits m version write_region op).
Proof.
  apply respects_bind; [|intros _; apply respects_op_arm].
  apply respects_bind; [apply respects_require|]. intros _. apply respects_each, Forall_forall.
  intros [k a] _. cbn. destruct (attribute_feature _ _ _); [apply respects_require|writer].
Qed.
End respects.

#[export] Hint Resolve respects_require respects_result_types respects_operands respects_operand_group
  respects_variadic_group respects_regions respects_inline_attr respects_inline_or_default
  respects_interface_attr respects_memory_attrs respects_inbounds respects_print : writer.

(** ** The shape of a body *)

(** The opcodes whose bodies end in their regions. *)
Definition writes_regions (o : Opcode) : bool :=
  match o with
  | Opcode.For | Opcode.Loop | Opcode.If | Opcode.Reduce | Opcode.Scan | Opcode.Module | Opcode.Entry => true
  | _ => false
  end.

(** The opcodes whose bodies start with a result count. *)
Definition writes_count (o : Opcode) : bool :=
  match o with
  | Opcode.JoinTokens | Opcode.MakeTensorView | Opcode.Extract | Opcode.Insert | Opcode.GetIndexSpaceShape
  | Opcode.GetTensorShape | Opcode.Break | Opcode.Continue | Opcode.Return | Opcode.Yield | Opcode.Print
  | Opcode.For | Opcode.Loop | Opcode.If | Opcode.Reduce | Opcode.Scan | Opcode.AtomicRedViewTko
  | Opcode.LoadViewTko | Opcode.StoreViewTko => true
  | _ => false
  end.

Section shape.
Context (f16_bits bf16_bits : Z -> Z) (m : IRModule) (version : BytecodeVersion).

(** Other bodies do not depend on how regions are written. *)
Lemma op_arm_no_regions wr wr' op : writes_regions (opcode op) = false ->
  op_arm f16_bits bf16_bits m version wr op = op_arm f16_bits bf16_bits m version wr' op.
Proof. unfold op_arm. destruct (opcode op); done. Qed.

(** A successful body is its result header followed by more bytes. *)
Lemma op_arm_header (wr : Z -> WM unit) op s s' :
  op_arm f16_bits bf16_bits m version wr op s = Ok (tt, s') ->
  exists s1 (rest : WM unit),
    (_ ← when (writes_count (opcode op)) (put_result_count op); write_result_types op) s = Ok (tt, s1) /\
    rest s1 = Ok (tt, s') /\
    forall (R : relation WS) T, WriterRel R T -> op_types T op ->
      (forall r, r ∈ regions op -> respects R (wr r)) -> respects R rest.
Proof.
  assert (Hcount : forall K, (_ ← put_result_count op; _ ← write_result_types op; K) s = Ok (tt, s') ->
    exists s1, (_ ← put_result_count op; write_result_types op) s = Ok (tt, s1) /\ K s1 = Ok (tt, s')).
  { intros K ([] & sa & E1 & ([] & s1 & E2 & E3)%WM_bind_Ok)%WM_bind_Ok. exists s1. split; [|done].
    unfold mbind, WM_bind. by rewrite E1. }
  assert (Hplain : forall K, (_ ← write_result_types op; K) s = Ok (tt, s') ->
    exists s1, write_result_types op s = Ok (tt, s1) /\ K s1 = Ok (tt, s')).
  { intros K ([] & s1 & E1 & E2)%WM_bind_Ok. by exists s1. }
  unfold op_arm. destruct (opcode op); cbn [writes_count when]; intros H;
    try (apply Hcount in H as (s1 & E1 & E2); exists s1; eexists; split; [exact E1|]; split; [exact E2|];
         intros R T HR Hop Hr; writer);
    try (apply Hplain in H as (s1 & E1 & E2); exists s1; eexists; split; [exact E1|]; split; [exact E2|];
         intros R T HR Hop Hr; writer);
    try (exists s', (mret tt); split; [exact H|]; split; [done|]; intros; apply respects_ret).
  all: apply WM_bind_Ok in H as ([] & s0 & E0 & H); destruct (1 <? zlen (operands op)); [discriminate E0|];
    injection E0 as <-; apply Hplain in H as (s1 & E1 & E2); exists s1; eexists; split; [exact E1|]; split; [exact E2|];
    intros R T HR Hop Hr; writer.
Qed.
End shape.
