(* ===== verification/ModuleWriter.v ===== *)
(** * Serializing a module (cutile-ir/src/bytecode/writer.rs)

    Operations, blocks and regions with their value numbering, the function,
    global and debug sections, the pre-scan that interns types and strings
    before anything is written, and [write_bytecode_version], which puts the
    sections together. *)

From S2P Require Import Prelude Enums Encoding IR Tables TypeTable Module Writer OpWriter.

(** ** Attribute helpers *)

Definition find_string_attr (attrs : list (string * Attribute)) (name : string) : option string :=
  head (omap (fun e => if bool_decide (e.1 = name) then match e.2 with AString s => Some s | _ => None end else None) attrs).

Definition find_type_attr (attrs : list (string * Attribute)) (name : string) : option IRType :=
  head (omap (fun e => if bool_decide (e.1 = name) then match e.2 with AType t => Some t | _ => None end else None) attrs).

Definition find_attr (attrs : list (string * Attribute)) (name : string) : option Attribute :=
  snd <$> find (fun e => bool_decide (e.1 = name)) attrs.

(** ** Version checks before writing *)

Definition digit (c : Ascii.ascii) : option Z :=
  let n := Z.of_N (Ascii.N_of_ascii c) in
  if (48 <=? n) && (n <=? 57) then Some (n - 48) else None.

Fixpoint parse_digits (acc : Z) (s : string) : option Z :=
  match s with
  | EmptyString => Some acc
  | String c s =>
      match digit c with
      | Some d => if U32_MAX <? acc * 10 + d then None else parse_digits (acc * 10 + d) s
      | None => None
      end
  end.

(** [str::parse::<u32>]: decimal digits, with an optional leading plus. *)
Definition parse_u32 (s : string) : option Z :=
  match s with
  | EmptyString => None
  | String c rest =>
      if bool_decide (c = Ascii.ascii_of_nat 43)
      then match rest with EmptyString => None | _ => parse_digits 0 rest end
      else parse_digits 0 s
  end.

Definition strip_prefix (p s : string) : option string :=
  if String.prefix p s then Some (String.substring (String.length p) (String.length s - String.length p) s) else None.

Definition WORKER_WARPS : string := "num_worker_warps_per_cta".

Section versions.
Context (m : IRModule) (version : BytecodeVersion).

Definition check_hint_target (arch : string) : outcome Error unit :=
  match (strip_prefix "sm_" arch ≫= parse_u32) ≫= target_requirement with
  | Some requirement => require_version ("optimization hint target " +:+ arch) (since requirement) version
  | None => Ok tt
  end.

(** One [(arch, values)] entry of an operation's optimization hints. *)
Definition check_hint_entry (e : string * list (string * Attribute)) : outcome Error unit :=
  let '(arch, values) := e in
  _ ← check_hint_target arch;
  if existsb (fun kv => bool_decide (kv.1 = WORKER_WARPS)) values
  then require_version "optimization hint 'num_worker_warps_per_cta'" (Feature.since Feature.WorkerWarps) version
  else Ok tt.

Definition oeach {A} (f : A -> outcome Error unit) : list A -> outcome Error unit :=
  fix go l := match l with [] => Ok tt | x :: l => _ ← f x; go l end.

Definition check_attr_versions (e : string * Attribute) : outcome Error unit :=
  match e.2 with
  | AOptimizationHints entries => oeach check_hint_entry entries
  | _ => Ok tt
  end.

Definition check_return (in_loop in_for : bool) (op : Operation) : outcome Error unit :=
  if bool_decide (opcode op = Opcode.Return) then
    if in_for then Err (BytecodeWrite "return is not allowed inside for")
    else if in_loop then require_version "return inside loop" (Feature.since Feature.LoopReturn) version
    else Ok tt
  else Ok tt.

Fixpoint check_region_versions (fuel : nat) (in_loop in_for : bool) (id : Z) : outcome Error unit :=
  match fuel with
  | O => Panic
  | S fuel =>
      op ← get_op m id;
      _ ← check_return in_loop in_for op;
      _ ← oeach check_attr_versions (attributes op);
      oeach (fun region =>
        blocks ← get_region m region;
        oeach (fun block =>
          blk ← get_block m block;
          oeach (check_region_versions fuel (in_loop || bool_decide (opcode op = Opcode.Loop))
                   (in_for || bool_decide (opcode op = Opcode.For))) (block_ops blk)) blocks) (regions op)
  end.
End versions.

(** ** Pre-scan *)

Fixpoint prescan_attribute (name : string) (attr : Attribute) : WM unit :=
  _ ← string_index name;
  match attr with
  | AString s => _ ← string_index s; mret tt
  | AType ty => _ ← type_index ty; mret tt
  | ADenseElements de => _ ← type_index (de_element_type de); mret tt
  | ADictionary entries => each (fun kv => let '(k, v) := kv in prescan_attribute k v) entries
  | AOptimizationHints entries =>
      each (fun ah => let '(arch, hints) := ah in
        _ ← string_index arch; each (fun kv => let '(k, v) := kv in prescan_attribute k v) hints) entries
  | AArray elems => each (fun elem => prescan_attribute EmptyString elem) elems
  | _ => mret tt
  end.

Definition prescan_attributes (op : Operation) : WM unit :=
  each (fun e => prescan_attribute e.1 e.2) (attributes op).

Definition intern_type (ty : IRType) : WM unit := _ ← type_index ty; mret tt.

Section module_writer.
Context (f16_bits bf16_bits : Z -> Z).
Context (m : IRModule) (version : BytecodeVersion).

Fixpoint prescan_region (fuel : nat) (region_id : Z) : WM unit :=
  match fuel with
  | O => wpanic
  | S fuel =>
      blocks ← wlift (get_region m region_id);
      each (fun block_id =>
        block ← wlift (get_block m block_id);
        _ ← each (fun a => intern_type a.2) (block_args block);
        each (fun op_id =>
          op ← wlift (get_op m op_id);
          _ ← each intern_type (result_types op);
          _ ← prescan_attributes op;
          each (prescan_region fuel) (regions op)) (block_ops block)) blocks
  end.

Definition prescan_function (fuel : nat) (func_op : Z) : WM unit :=
  op ← wlift (get_op m func_op);
  _ ← prescan_attributes op;
  each (prescan_region fuel) (regions op).

(** ** Operations, blocks and regions *)

(** [write_region] is the recursion; see [write_region] below. *)
Section nested.
Context (write_region : Z -> WM unit).

Definition define_result (op_id : Z) (i : nat) : WM unit :=
  match find_op_result m op_id (Z.of_nat i) with
  | Some v => define_value v
  | None => mret tt
  end.

Definition write_operation (op_id : Z) : WM unit :=
  op ← wlift (get_op m op_id);
  _ ← record_location (location op);
  _ ← put_varint (Opcode.as_u16 (opcode op));
  _ ← write_op_body f16_bits bf16_bits m version write_region op;
  each (define_result op_id) (seq 0 (length (result_types op))).

(** [value_map.retain(|_, v| *v < saved_next_idx); next_idx = saved_next_idx]. *)
Definition rollback (saved_next_idx : Z) : WM unit := fun s =>
  let '(c, w) := s in
  Ok (tt, (mkWriterCtx (filter (fun kv => kv.2 < saved_next_idx) (value_map c)) saved_next_idx (strings c)
             (types c) (constants c) (debug c), w)).

Definition current_next_idx : WM Z := fun s => Ok (next_idx s.1, s).

Definition write_block (block_id : Z) : WM unit :=
  saved_next_idx ← current_next_idx;
  block ← wlift (get_block m block_id);
  _ ← put_varint (zlen (block_args block));
  _ ← each (fun a => _ ← put_type a.2; define_value a.1) (block_args block);
  _ ← put_varint (zlen (block_ops block));
  _ ← each write_operation (block_ops block);
  rollback saved_next_idx.
End nested.

Fixpoint write_region (fuel : nat) (region_id : Z) : WM unit :=
  match fuel with
  | O => wpanic
  | S fuel =>
      blocks ← wlift (get_region m region_id);
      _ ← put_varint (zlen blocks);
      each (write_block (write_region fuel)) blocks
  end.

(** ** The function section *)

(** Run a routine on a fresh buffer and return its bytes. *)
Definition into_bytes (body : WM unit) : WM (list Z) := fun s =>
  let '(c, w) := s in
  match body (c, writer_new) with
  | Ok (_, (c, w')) => Ok (buf w', (c, w))
  | Err e => Err e
  | Panic => Panic
  end.

Definition write_function_body (fuel : nat) (func_op : Z) : WM unit :=
  op ← wlift (get_op m func_op);
  match regions op with
  | [] => mret tt
  | region_id :: _ =>
      region ← wlift (get_region m region_id);
      match region with
      | [] => mret tt
      | entry_block :: _ =>
          block ← wlift (get_block m entry_block);
          _ ← each (fun a => define_value a.1) (block_args block);
          each (write_operation (write_region fuel)) (block_ops block)
      end
  end.

(** [value_map.clear(); next_idx = 0]. *)
Definition reset_values : WM unit := fun s =>
  let '(c, w) := s in
  Ok (tt, (mkWriterCtx ∅ 0 (strings c) (types c) (constants c) (debug c), w)).

Definition begin_debug (name : string) (di_name : option string) (loc : Location) : WM Z := fun s =>
  let '(c, w) := s in
  let '(d, sm, id) := begin_function (debug c) (strings c) name di_name loc in
  Ok (id, (mkWriterCtx (value_map c) (next_idx c) sm (types c) (constants c) d, w)).

Definition worker_warps_hint (hints : Attribute) : bool :=
  match hints with
  | AOptimizationHints entries =>
      existsb (fun e => existsb (fun kv => bool_decide (kv.1 = WORKER_WARPS)) e.2) entries
  | _ => false
  end.

Definition function_hints (op : Operation) : option Attribute :=
  if bool_decide (opcode op = Opcode.Entry) then find_attr (attributes op) "optimization_hints" else None.

Definition function_flags (op : Operation) : Z :=
  let is_entry := bool_decide (opcode op = Opcode.Entry) in
  Z.lor (if is_entry then FunctionFlag.as_u8 FunctionFlag.KindKernel else 0)
    (if is_entry && is_some (function_hints op) then FunctionFlag.as_u8 FunctionFlag.HasOptimizationHints else 0).

Definition check_worker_warps (hints_attr : option Attribute) : WM unit :=
  match hints_attr with
  | Some hints =>
      if version_lt version V13_3 && worker_warps_hint hints
      then wfail ("optimization hint 'num_worker_warps_per_cta' requires bytecode version 13.3 or newer, requested "
             +:+ show_version version)
      else mret tt
  | None => mret tt
  end.

Definition write_hints (hints_attr : option Attribute) : WM unit :=
  match hints_attr with
  | Some hints => write_self_contained_attribute f16_bits bf16_bits hints
  | None => mret tt
  end.

Definition write_function (fuel : nat) (func_op_id : Z) : WM unit :=
  op ← wlift (get_op m func_op_id);
  name ← wlift (ok_or (find_string_attr (attributes op) "sym_name")
                  (BytecodeWrite "function missing sym_name attribute"));
  func_type ← wlift (ok_or (find_type_attr (attributes op) "function_type")
                       (BytecodeWrite "function missing function_type attribute"));
  name_idx ← string_index name;
  sig_idx ← type_index func_type;
  _ ← put_varint name_idx;
  _ ← put_varint sig_idx;
  let hints_attr := function_hints op in
  _ ← check_worker_warps hints_attr;
  _ ← put_byte (function_flags op);
  di_idx ← begin_debug name (find_string_attr (attributes op) "di_name") (location op);
  _ ← put_varint di_idx;
  _ ← write_hints hints_attr;
  _ ← reset_values;
  body ← into_bytes (write_function_body fuel func_op_id);
  _ ← put_varint (zlen body);
  put_bytes body.

(** Every section routine takes the output so far and the context. *)
Definition SectionWriter : Type := list Z -> WriterCtx -> outcome Error (list Z * WriterCtx).

(** [let mut w = EncodingWriter::new(); ...; write_section_header(out, ..); out.extend(w)]. *)
Definition write_section (sid : Section_t) (alignment : Z) (payload : WM unit) : SectionWriter := fun out c =>
  match payload (c, writer_new) with
  | Ok (_, (c, w)) => Ok (write_section_header out sid (tell w) alignment ++ buf w, c)
  | Err e => Err e
  | Panic => Panic
  end.

Definition write_function_section : SectionWriter := fun out c =>
  match m_functions m with
  | [] => Ok (out, c)
  | func_ids =>
      write_section Section_.Func 8
        (_ ← put_varint (zlen func_ids); _ ← each (write_function (module_fuel m)) func_ids; emit (align_to 8)) out c
  end.

(** ** The global section *)

Definition write_global (g : Global) : WM unit :=
  _ ← when (g_constant g)
        (wlift (require_version "global.constant" (Feature.since Feature.GlobalConstant) version));
  _ ← when (match symbol_visibility g with Public => false | _ => true end)
        (wlift (require_version "global.symbol_visibility" (Feature.since Feature.GlobalVisibility) version));
  _ ← put_string (sym_name g);
  _ ← put_type (de_element_type (g_value g));
  _ ← put_constant (de_data (g_value g));
  _ ← put_varint (g_alignment g);
  when (version_ge version V13_3)
    (_ ← put_byte (visibility_u8 (symbol_visibility g)); put_varint (bool_as (g_constant g))).

Definition write_global_section : SectionWriter := fun out c =>
  match m_globals m with
  | [] => Ok (out, c)
  | globals =>
      write_section Section_.Global 1 (_ ← put_varint (zlen globals); each write_global globals) out c
  end.

(** ** The debug section *)

(** Running [u32] starts of consecutive lists. *)
Fixpoint starts (offset : Z) (ls : list (list Z)) : list Z * Z :=
  match ls with
  | [] => ([], offset)
  | l :: ls => let '(offs, total) := starts (as_u32 (offset + as_u32 (zlen l))) ls in (offset :: offs, total)
  end.

Definition write_words (write : Z -> EncodingWriter -> EncodingWriter) (vs : list Z) (w : EncodingWriter) : EncodingWriter :=
  foldl (fun w v => write v w) w vs.

Definition debug_payload (per_function : list (list Z)) (entries : list (list Z)) : EncodingWriter :=
  let w := align_to 4 (write_varint (zlen per_function) writer_new) in
  let '(offsets, num_indices) := starts 0 per_function in
  let w := write_words write_le_u32 offsets w in
  let w := align_to 8 (write_varint num_indices w) in
  let w := foldl (fun w ids => write_words write_le_u64 ids w) w per_function in
  let w := align_to 4 (write_varint (zlen entries) w) in
  let w := write_words write_le_u32 (starts 0 entries).1 w in
  foldl (fun w e => write_bytes e w) w entries.

Definition write_debug_section : SectionWriter := fun out c =>
  let d := debug c in
  let d := mkDebugInfoCollector (ensure_non_empty (dc_attrs d)) (per_function d) (current_scope d) in
  let w := debug_payload (per_function d) (da_entries (dc_attrs d)) in
  Ok (write_section_header out Section_.Debug (tell w) 8 ++ buf w,
      mkWriterCtx (value_map c) (next_idx c) (strings c) (types c) (constants c) d).

(** ** The module *)

Definition prescan_producer : WM unit :=
  match m_producer m with
  | Some producer =>
      _ ← wlift (require_version "module.producer" (Feature.since Feature.Producer) version);
      _ ← string_index producer; mret tt
  | None => mret tt
  end.

(** The pre-scan runs on the fresh context and writes nothing. *)
Definition prescan : WM unit :=
  _ ← prescan_producer;
  _ ← each (fun g => _ ← string_index (sym_name g); intern_type (de_element_type (g_value g))) (m_globals m);
  each (fun func_op =>
    _ ← wlift (check_region_versions m version (module_fuel m) false false func_op);
    prescan_function (module_fuel m) func_op) (m_functions m).

Definition producer_section (out : list Z) (c : WriterCtx) : list Z :=
  match m_producer m with
  | Some producer =>
      let bytes := varint (sm_get_or_insert (strings c) producer).2 in
      write_section_header out Section_.Producer (zlen bytes) 1 ++ bytes
  | None => out
  end.

Definition write_sections (out : list Z) (c : WriterCtx) : outcome Error (list Z) :=
  oc ← write_global_section out c;
  let '(out, c) := (oc : list Z * WriterCtx) in
  oc ← write_function_section out c;
  let '(out, c) := (oc : list Z * WriterCtx) in
  out ← write_constant_section out (constants c);
  oc ← write_debug_section out c;
  let '(out, c) := (oc : list Z * WriterCtx) in
  out ← write_type_section out (types c) version;
  out ← write_string_section out (strings c);
  Ok (producer_section out c ++ [Section_.as_u8 Section_.EndOfBytecode]).

Definition write_bytecode_version : outcome Error (list Z) :=
  if version_lt version MIN_SUPPORTED then
    Err (BytecodeWrite ("unsupported version " +:+ show_version version +:+ ", minimum is " +:+ show_version MIN_SUPPORTED))
  else if negb (bool_decide (version ∈ SUPPORTED)) then
    Err (BytecodeWrite ("unsupported bytecode version " +:+ show_version version +:+ "; supported versions: "
           +:+ join ", " (show_version <$> SUPPORTED)))
  else
    s ← prescan (ctx_new, writer_new);
    write_sections (write_header [] version) (s : unit * WS).2.1.
End module_writer.

Definition write_bytecode (f16_bits bf16_bits : Z -> Z) (m : IRModule) : outcome Error (list Z) :=
  write_bytecode_version f16_bits bf16_bits m CURRENT.

(** ** An example *)

(** A module with one global and one entry, built with the builder. *)
Definition tile_f32 : IRType := TTile (mkTileType [] (TEScalar ScalarType.F32)).

Definition example_module (extra : list (string * Attribute)) : IRModule :=
  let '((r, b, args), m) := build_single_block_region [tile_f32; TToken] (module_new "m") in
  let '((o1, _), m) := build (mkOperation Opcode.NegF (take 1 args) [tile_f32] [] [] (FileLineCol "a/b.rs" 3 4)) m in
  let '((o2, _), m) := build (mkOperation Opcode.Return [] [] [] [] LocUnknown) m in
  let '((f, _), m) := build (mkOperation Opcode.Entry [] []
    (("sym_name"%string, AString "k") :: ("function_type"%string, AType (TFunc [tile_f32; TToken] [])) :: extra)
    [r] (FileLineCol "a/b.rs" 1 1)) m in
  match (m ← module_append_op b o1 m; module_append_op b o2 m) with
  | Ok m => mkIRModule (m_name m) (Some "rs"%string) (m_values m) (m_operations m) (m_blocks m) (m_regions m) [f]
              [mkGlobal "g" (mkDenseElements (TScalar ScalarType.I8) [2] [1; 2]) 16 true Private]
  | _ => m
  end.
