(* ===== verification/WriterFacts.v ===== *)
(** * Invariants of serialization

    The tables a write leaves behind are well formed and only ever extended,
    the buffer is only appended to, and blocks restore the value numbering
    they started from. *)

From S2P Require Import Prelude Enums Encoding IR Tables TypeTable Module Writer OpWriter ModuleWriter.

(** ** Debug attributes *)

(** How many varint fields follow each tag. *)
Definition debug_arity (t : DebugTag.t) : nat :=
  match t with
  | DebugTag.Unknown => 0
  | DebugTag.DICompileUnit => 1
  | DebugTag.DIFile => 2
  | DebugTag.DILexicalBlock => 4
  | DebugTag.DILoc => 4
  | DebugTag.DISubprogram => 6
  | DebugTag.CallSite => 2
  end.

Definition debug_bytes (t : DebugTag.t) (fields : list Z) : list Z := DebugTag.as_u8 t :: concat (varint <$> fields).

Definition below (B f : Z) : Prop := 0 <= f < B.

Definition debug_entry_ok (B : Z) (bytes : list Z) : Prop :=
  exists t fields, bytes = debug_bytes t fields /\ length fields = debug_arity t /\ Forall (below B) fields.

(** What bounds the fields: source positions are 32-bit, everything else is an
    index into the string table or a one-based id. *)
Definition id_bound (sm : StringManager) (t : DebugAttrTable) : Z :=
  Z.max (2 ^ 32) (Z.max (zlen (sm_map sm)) (zlen (da_entries t) + 1)).

Record debug_wf (sm : StringManager) (t : DebugAttrTable) : Prop := {
  dw_strings : sm_wf sm;
  dw_table : da_wf t;
  dw_entries : Forall (debug_entry_ok (id_bound sm t)) (da_entries t);
}.

Definition debug_ext (sm : StringManager) (t : DebugAttrTable) (sm' : StringManager) (t' : DebugAttrTable) : Prop :=
  sm_strings sm `prefix_of` sm_strings sm' /\ da_entries t `prefix_of` da_entries t'.

(** A step of the collector: tables extended, a valid id returned. *)
Definition debug_step (sm : StringManager) (t : DebugAttrTable) (r : DebugAttrTable * StringManager * Z) : Prop :=
  debug_wf r.1.2 r.1.1 /\ debug_ext sm t r.1.2 r.1.1 /\ below (id_bound r.1.2 r.1.1) r.2.

Lemma prefix_zlen {A} (l l' : list A) : l `prefix_of` l' -> zlen l <= zlen l'.
Proof. intros [k ->]. rewrite zlen_app. pose proof (zlen_nonneg k). lia. Qed.

Lemma id_bound_mono sm t sm' t' : debug_ext sm t sm' t' -> id_bound sm t <= id_bound sm' t'.
Proof.
  intros [H1%prefix_zlen H2%prefix_zlen]. unfold id_bound. unfold sm_strings, zlen in *. rewrite !length_fmap in H1. lia.
Qed.

Lemma below_mono B B' f : B <= B' -> below B f -> below B' f.
Proof. unfold below. lia. Qed.

Lemma entry_ok_mono B B' e : B <= B' -> debug_entry_ok B e -> debug_entry_ok B' e.
Proof.
  intros H (t & fs & -> & Hl & Hf). exists t, fs. split; [done|]. split; [done|].
  eapply Forall_impl; [exact Hf|]. intros f. by apply below_mono.
Qed.

Lemma debug_ext_refl sm t : debug_ext sm t sm t.
Proof. by split. Qed.

Lemma debug_ext_trans sm t sm1 t1 sm2 t2 : debug_ext sm t sm1 t1 -> debug_ext sm1 t1 sm2 t2 -> debug_ext sm t sm2 t2.
Proof. intros [? ?] [? ?]. split; by etrans. Qed.

Lemma string_step sm t s : debug_wf sm t ->
  let '(sm', i) := sm_get_or_insert sm s in
  debug_wf sm' t /\ debug_ext sm t sm' t /\ below (id_bound sm' t) i /\ sm_strings sm' !! Z.to_nat i = Some s.
Proof.
  intros [W1 W2 W3]. destruct (sm_get_or_insert sm s) as [sm' i] eqn:E.
  destruct (sm_insert_spec _ _ _ _ W1 E) as (W1' & P & Hi & Hl & _).
  assert (Hx : debug_ext sm t sm' t) by (by split). pose proof (id_bound_mono _ _ _ _ Hx) as Hb.
  split_and!; [split; [done|done|]|done| |done].
  - eapply Forall_impl; [exact W3|]. intros e. by apply entry_ok_mono.
  - split; [done|]. apply lookup_lt_Some in Hl. unfold id_bound, zlen. unfold sm_strings in Hl.
    rewrite length_fmap in Hl. lia.
Qed.

(** Interning an entry whose fields are valid. *)
Lemma intern_step sm t tg fields : debug_wf sm t -> length fields = debug_arity tg ->
  Forall (below (id_bound sm t)) fields ->
  let '(t', id) := intern t (debug_bytes tg fields) in debug_step sm t (t', sm, id).
Proof.
  intros [W1 W2 W3] Hlen Hf. destruct (intern t _) as [t' id] eqn:E.
  destruct (intern_spec _ _ _ _ W2 E) as (W2' & P & Hid & Hl).
  assert (Hx : debug_ext sm t sm t') by (by split). pose proof (id_bound_mono _ _ _ _ Hx) as Hb.
  assert (He : forall e, e ∈ da_entries t' -> e ∈ da_entries t \/ e = debug_bytes tg fields).
  { unfold intern in E. destruct (assoc_get _ _); injection E as <- <-; [auto|]. cbn [da_entries].
    intros e [?|?%list_elem_of_singleton]%elem_of_app; auto. }
  split_and!; [split; [done|done|]|done|]; cbn [fst snd].
  - apply Forall_forall. intros e [Hin| ->]%He.
    + rewrite Forall_forall in W3. eapply entry_ok_mono; [exact Hb|auto].
    + exists tg, fields. split; [done|]. split; [done|]. eapply Forall_impl; [exact Hf|]. intros f. by apply below_mono.
  - apply lookup_lt_Some in Hl. unfold below, id_bound, zlen. lia.
Qed.

(** Positions of a location are 32-bit. *)
Definition subprogram_ok (sp : DISubprogram) : Prop := in_u32 (sp_line sp) /\ in_u32 (sp_scope_line sp).
Fixpoint scope_ok (s : DebugScope) : Prop :=
  match s with
  | Subprogram sp => subprogram_ok sp
  | LexicalBlock s _ line column => scope_ok s /\ in_u32 line /\ in_u32 column
  end.
Fixpoint location_ok (l : Location) : Prop :=
  match l with
  | LocUnknown => True
  | FileLineCol _ line column => in_u32 line /\ in_u32 column
  | DebugInfo _ line column scope => in_u32 line /\ in_u32 column /\ scope_ok scope
  | CallSite callee caller => location_ok callee /\ location_ok caller
  end.

Lemma in_u32_below sm t z : in_u32 z -> below (id_bound sm t) z.
Proof. unfold below, id_bound. unfold_int. lia. Qed.

Lemma debug_step_trans sm t sm1 t1 r : debug_ext sm t sm1 t1 -> debug_step sm1 t1 r -> debug_step sm t r.
Proof. intros H (W & X & B). split_and!; [done|by eapply debug_ext_trans|done]. Qed.

(** Ids stay valid as the tables grow. *)
Lemma below_ext sm t sm' t' f : debug_ext sm t sm' t' -> below (id_bound sm t) f -> below (id_bound sm' t') f.
Proof. intros H. by apply below_mono, id_bound_mono. Qed.

Lemma debug_bytes_push tg fields :
  foldl push_varint [DebugTag.as_u8 tg] fields = debug_bytes tg fields.
Proof.
  unfold debug_bytes. change (DebugTag.as_u8 tg :: concat (varint <$> fields))
    with ([DebugTag.as_u8 tg] ++ concat (varint <$> fields)).
  generalize [DebugTag.as_u8 tg] as pre. induction fields as [|f fs IH]; intros pre; cbn; [by rewrite app_nil_r|].
  rewrite IH, push_varint_varint. by rewrite <- app_assoc.
Qed.

(** The fields of an entry are valid: indices obtained earlier, or positions. *)
Ltac fields_below :=
  repeat first [apply Forall_nil; exact I | apply Forall_cons; split];
  eauto using below_ext, in_u32_below, debug_ext_trans.

Lemma debug_file_step sm t name dir : debug_wf sm t -> debug_step sm t (debug_file t sm name dir).
Proof.
  intros W. unfold debug_file. pose proof (string_step sm t name W) as H1.
  destruct (sm_get_or_insert sm name) as [sm1 n]. destruct H1 as (W1 & X1 & B1 & _).
  pose proof (string_step sm1 t dir W1) as H2.
  destruct (sm_get_or_insert sm1 dir) as [sm2 d]. destruct H2 as (W2 & X2 & B2 & _).
  pose proof (intern_step sm2 t DebugTag.DIFile [n; d] W2 eq_refl) as H3.
  rewrite <- debug_bytes_push in H3. cbn [foldl] in H3. destruct (intern t _) as [t' id].
  eapply debug_step_trans; [exact (debug_ext_trans _ _ _ _ _ _ X1 X2)|]. apply H3. fields_below.
Qed.

Lemma compile_unit_step sm t file : debug_wf sm t -> below (id_bound sm t) file ->
  let '(t', id) := compile_unit t file in debug_step sm t (t', sm, id).
Proof.
  intros W B. unfold compile_unit.
  pose proof (intern_step sm t DebugTag.DICompileUnit [file] W eq_refl) as H.
  rewrite <- debug_bytes_push in H. cbn [foldl] in H. apply H. fields_below.
Qed.

Lemma subprogram_step sm t file line name linkage cu scope_line : debug_wf sm t ->
  below (id_bound sm t) file -> in_u32 line -> below (id_bound sm t) cu -> in_u32 scope_line ->
  debug_step sm t (subprogram t sm file line name linkage cu scope_line).
Proof.
  intros W Bf Hl Bc Hs. unfold subprogram. pose proof (string_step sm t name W) as H1.
  destruct (sm_get_or_insert sm name) as [sm1 n]. destruct H1 as (W1 & X1 & B1 & _).
  pose proof (string_step sm1 t linkage W1) as H2.
  destruct (sm_get_or_insert sm1 linkage) as [sm2 l]. destruct H2 as (W2 & X2 & B2 & _).
  pose proof (intern_step sm2 t DebugTag.DISubprogram [file; line; n; l; cu; scope_line] W2 eq_refl) as H3.
  rewrite <- debug_bytes_push in H3. cbn [foldl] in H3. destruct (intern t _) as [t' id].
  pose proof (debug_ext_trans _ _ _ _ _ _ X1 X2) as X.
  eapply debug_step_trans; [exact X|]. apply H3. fields_below.
Qed.

Lemma lexical_block_step sm t parent file line column : debug_wf sm t ->
  below (id_bound sm t) parent -> below (id_bound sm t) file -> in_u32 line -> in_u32 column ->
  let '(t', id) := lexical_block t parent file line column in debug_step sm t (t', sm, id).
Proof.
  intros W Bp Bf Hl Hc. unfold lexical_block.
  pose proof (intern_step sm t DebugTag.DILexicalBlock [parent; file; line; column] W eq_refl) as H.
  rewrite <- debug_bytes_push in H. cbn [foldl] in H. apply H. fields_below.
Qed.

Lemma debug_loc_step sm t scope filename line column : debug_wf sm t -> below (id_bound sm t) scope ->
  in_u32 line -> in_u32 column -> debug_step sm t (debug_loc t sm scope filename line column).
Proof.
  intros W Bs Hl Hc. unfold debug_loc. pose proof (string_step sm t filename W) as H1.
  destruct (sm_get_or_insert sm filename) as [sm1 f]. destruct H1 as (W1 & X1 & B1 & _).
  pose proof (intern_step sm1 t DebugTag.DILoc [scope; f; line; column] W1 eq_refl) as H3.
  rewrite <- debug_bytes_push in H3. cbn [foldl] in H3. destruct (intern t _) as [t' id].
  eapply debug_step_trans; [exact X1|]. apply H3. fields_below.
Qed.

Lemma call_site_step sm t callee caller : debug_wf sm t -> below (id_bound sm t) callee ->
  below (id_bound sm t) caller -> let '(t', id) := call_site t callee caller in debug_step sm t (t', sm, id).
Proof.
  intros W Be Br. unfold call_site.
  pose proof (intern_step sm t DebugTag.CallSite [callee; caller] W eq_refl) as H.
  rewrite <- debug_bytes_push in H. cbn [foldl] in H. apply H. fields_below.
Qed.

Lemma subprogram_attr_step sm t sp : debug_wf sm t -> subprogram_ok sp -> debug_step sm t (subprogram_attr t sm sp).
Proof.
  intros W [Hl Hs]. unfold subprogram_attr.
  pose proof (debug_file_step sm t (df_name (sp_file sp)) (df_directory (sp_file sp)) W) as H1.
  destruct (debug_file t sm _ _) as [[t1 sm1] file]. destruct H1 as (W1 & X1 & B1). cbn [fst snd] in *.
  pose proof (debug_file_step sm1 t1 (df_name (cu_file (sp_compile_unit sp)))
                (df_directory (cu_file (sp_compile_unit sp))) W1) as H2.
  destruct (debug_file t1 sm1 _ _) as [[t2 sm2] cf]. destruct H2 as (W2 & X2 & B2). cbn [fst snd] in *.
  pose proof (compile_unit_step sm2 t2 cf W2 B2) as H3.
  destruct (compile_unit t2 cf) as [t3 cu]. destruct H3 as (W3 & X3 & B3). cbn [fst snd] in *.
  eapply debug_step_trans; [|apply subprogram_step; try done; eauto using below_ext, debug_ext_trans].
  eauto using debug_ext_trans.
Qed.

Lemma scope_attr_step sm t scope : debug_wf sm t -> scope_ok scope -> debug_step sm t (scope_attr t sm scope).
Proof.
  revert sm t. induction scope as [sp|scope IH file line column]; intros sm t W; cbn [scope_ok scope_attr];
    [by apply subprogram_attr_step|]. intros (Hs & Hl & Hc).
  pose proof (IH sm t W Hs) as H1. destruct (scope_attr t sm scope) as [[t1 sm1] parent].
  destruct H1 as (W1 & X1 & B1). cbn [fst snd] in *.
  pose proof (debug_file_step sm1 t1 (df_name file) (df_directory file) W1) as H2.
  destruct (debug_file t1 sm1 _ _) as [[t2 sm2] f]. destruct H2 as (W2 & X2 & B2). cbn [fst snd] in *.
  pose proof (lexical_block_step sm2 t2 parent f line column W2 (below_ext _ _ _ _ _ X2 B1) B2 Hl Hc) as H3.
  destruct (lexical_block t2 _ _ _ _) as [t3 id]. eapply debug_step_trans; [|exact H3]. eauto using debug_ext_trans.
Qed.

Lemma missing_below sm t : below (id_bound sm t) MISSING_DEBUG_ATTR_ID.
Proof. unfold below, id_bound, MISSING_DEBUG_ATTR_ID. lia. Qed.

Lemma missing_step sm t : debug_wf sm t -> debug_step sm t (t, sm, MISSING_DEBUG_ATTR_ID).
Proof. intros W. split_and!; [done|apply debug_ext_refl|apply missing_below]. Qed.

Lemma attr_for_step cur sm t loc : debug_wf sm t -> below (id_bound sm t) cur -> location_ok loc ->
  debug_step sm t (attr_for cur t sm loc).
Proof.
  revert sm t. induction loc as [|filename line column|filename line column scope|callee IH1 caller IH2];
    intros sm t W Bc; cbn [location_ok attr_for].
  - intros _. by apply missing_step.
  - intros [Hl Hc]. destruct (cur =? _); [by apply missing_step|by apply debug_loc_step].
  - intros (Hl & Hc & Hs). pose proof (scope_attr_step sm t scope W Hs) as H1.
    destruct (scope_attr t sm scope) as [[t1 sm1] id]. destruct H1 as (W1 & X1 & B1). cbn [fst snd] in *.
    eapply debug_step_trans; [exact X1|]. by apply debug_loc_step.
  - intros [H1 H2]. specialize (IH1 sm t W Bc H1). destruct (attr_for cur t sm callee) as [[t1 sm1] e].
    destruct IH1 as (W1 & X1 & B1). cbn [fst snd] in *.
    destruct (e =? _); [eapply debug_step_trans; [exact X1|by apply missing_step]|].
    specialize (IH2 sm1 t1 W1 (below_ext _ _ _ _ _ X1 Bc) H2).
    destruct (attr_for cur t1 sm1 caller) as [[t2 sm2] r]. destruct IH2 as (W2 & X2 & B2). cbn [fst snd] in *.
    pose proof (call_site_step sm2 t2 e r W2 (below_ext _ _ _ _ _ X2 B1) B2) as H3.
    destruct (call_site t2 e r) as [t3 id]. eapply debug_step_trans; [|exact H3]. eauto using debug_ext_trans.
Qed.

(** ** Types *)

(** A type and everything it mentions fit their fields. *)
Fixpoint deep_ok (ty : IRType) : Prop :=
  type_ok ty /\
  match ty with
  | TPartitionView pv => view_ok (pv_tensor_view pv)
  | TGatherScatterView g => view_ok (gsv_tensor_view g)
  | TStridedView s => view_ok (sv_tensor_view s)
  | TFunc i r => foldr (fun t P => deep_ok t /\ P) True i /\ foldr (fun t P => deep_ok t /\ P) True r
  | TWithPointerAttribute base _ => deep_ok base
  | _ => True
  end.

Lemma deep_ok_type_ok ty : deep_ok ty -> type_ok ty.
Proof. destruct ty; by intros [? _]. Qed.

Lemma deep_ok_deps ty d : deep_ok ty -> d ∈ type_deps ty -> deep_ok d.
Proof.
  destruct ty as [s|p|t|tv|pv|g|sv|i r| |base a]; cbn [type_deps].
  9: by intros _ ?%elem_of_nil.
  1: by intros _ ?%elem_of_nil.
  1: by intros _ ->%list_elem_of_singleton.
  1: by destruct (tt_element_type t); intros _ ->%list_elem_of_singleton.
  1-4: intros [H1 H2] ->%list_elem_of_singleton; by split.
  - intros [_ [Hi Hr]] [Hd|Hd]%elem_of_app.
    + apply (foldr_and deep_ok) in Hi. rewrite Forall_forall in Hi. auto.
    + apply (foldr_and deep_ok) in Hr. rewrite Forall_forall in Hr. auto.
  - intros [_ Hb]. destruct base as [s|p|t|tv|pv|g|sv|i r| |base' a']; cbn; try (by intros ?%elem_of_nil);
      try (intros ->%list_elem_of_singleton; cbn in *; tauto).
    destruct (tt_element_type t); [by intros ?%elem_of_nil|]. intros ->%list_elem_of_singleton. by cbn.
Qed.

Lemma tm_insert_all (P : IRType -> Prop) fuel tm ty : (forall t d, P t -> d ∈ type_deps t -> P d) ->
  P ty -> Forall P (tm_list tm) -> Forall P (tm_list (tm_insert fuel tm ty).1).
Proof.
  intros Hdeps. revert tm ty. induction fuel as [|fuel IH]; intros tm ty Hty Htm; cbn [tm_insert];
    (destruct (assoc_get _ _); [done|]); [done|]. cbn [fst tm_list].
  apply Forall_app. split; [|by constructor].
  assert (Hd : Forall P (type_deps ty)) by (apply Forall_forall; eauto).
  revert tm Htm. induction Hd as [|d ds Hd Hds IHds]; intros tm Htm; [done|]. cbn [foldl]. auto.
Qed.

(** ** The context *)

Definition ctx_bound (c : WriterCtx) : Z := id_bound (strings c) (dc_attrs (debug c)).

Record ctx_wf (c : WriterCtx) : Prop := {
  cw_debug : debug_wf (strings c) (dc_attrs (debug c));
  cw_scope : below (ctx_bound c) (current_scope (debug c));
  cw_ids : Forall (Forall (below (ctx_bound c))) (per_function (debug c));
  cw_types : tm_wf (types c);
  cw_types_ok : Forall deep_ok (tm_list (types c));
}.

Definition ctx_ext (c c' : WriterCtx) : Prop :=
  debug_ext (strings c) (dc_attrs (debug c)) (strings c') (dc_attrs (debug c')) /\
  tm_list (types c) `prefix_of` tm_list (types c') /\
  cm_entries (constants c) `prefix_of` cm_entries (constants c') /\
  (length (per_function (debug c)) <= length (per_function (debug c')))%nat.

(** The tables stay well formed and grow at the end, and so does the buffer. *)
Definition grows (s s' : WS) : Prop :=
  ctx_wf s.1 -> ctx_wf s'.1 /\ ctx_ext s.1 s'.1 /\ exists bs, s'.2 = write_bytes bs s.2.

Lemma ctx_ext_refl c : ctx_ext c c.
Proof. split_and!; [apply debug_ext_refl|done..]. Qed.

Lemma ctx_ext_trans c1 c2 c3 : ctx_ext c1 c2 -> ctx_ext c2 c3 -> ctx_ext c1 c3.
Proof. intros (? & ? & ? & ?) (? & ? & ? & ?). split_and!; [by eapply debug_ext_trans|by etrans..|lia]. Qed.

Lemma ids_mono B B' ls : B <= B' -> Forall (Forall (below B)) ls -> Forall (Forall (below B')) ls.
Proof.
  intros HB H. eapply Forall_impl; [exact H|]. intros l Hl. eapply Forall_impl; [exact Hl|]. intros f. by apply below_mono.
Qed.

Lemma ctx_new_wf : ctx_wf ctx_new.
Proof.
  split.
  - split; [apply sm_new_wf|apply da_new_wf|apply Forall_nil_2].
  - apply missing_below.
  - apply Forall_nil_2.
  - apply tm_new_wf.
  - apply Forall_nil_2.
Qed.

#[export] Instance grows_preorder : PreOrder grows.
Proof.
  split.
  - intros [c w] Hw. split_and!; [done|apply ctx_ext_refl|]. exists []. by rewrite write_bytes_nil.
  - intros s1 s2 s3 H1 H2 Hw. destruct (H1 Hw) as (W2 & X2 & b2 & E2), (H2 W2) as (W3 & X3 & b3 & E3).
    split_and!; [done|by eapply ctx_ext_trans|]. exists (b2 ++ b3). by rewrite E3, E2, write_bytes_app.
Qed.

(** A string interned beside unchanged debug attributes. *)
Lemma grows_string str : respects grows (string_index str).
Proof.
  intros [c w] i [c' w'] H Hw. unfold string_index in H. destruct Hw as [W Sc Ids Tm Tok].
  pose proof (string_step (strings c) (dc_attrs (debug c)) str W) as Hs.
  destruct (sm_get_or_insert (strings c) str) as [sm j]. injection H as <- <- <-. destruct Hs as (W1 & X & _).
  split_and!; [split|split_and!|]; cbn; try done.
  - by eapply below_ext.
  - eapply ids_mono; [|exact Ids]. by apply id_bound_mono.
  - exists []. by rewrite write_bytes_nil.
Qed.

#[export] Instance grows_rel : WriterRel grows deep_ok.
Proof.
  split; [split|..].
  - apply _.
  - apply grows_string.
  - intros ty Hty [c w] i [c' w'] H Hw. unfold type_index in H. destruct Hw as [W Sc Ids Tm Tok].
    pose proof (tm_insert_all deep_ok (type_rank ty) (types c) ty deep_ok_deps Hty Tok) as Hall.
    fold (tm_get_or_insert (types c) ty) in Hall.
    destruct (tm_get_or_insert (types c) ty) as [tm j] eqn:E. injection H as <- <- <-.
    destruct (tm_get_or_insert_spec _ _ _ _ Tm E) as [W1 P _ _ _ _].
    split_and!; [by split|split_and!; [apply debug_ext_refl|done..]|]. exists []. by rewrite write_bytes_nil.
  - intros bs [c w] [] s' H. injection H as <-. intros Hw. split_and!; [done|apply ctx_ext_refl|by exists bs].
  - intros data [c w] i [c' w'] H Hw. injection H as <- <- <-. destruct Hw as [W Sc Ids Tm Tok].
    split_and!; [by split|split_and!; [apply debug_ext_refl|done|by apply prefix_app_r|done]|].
    exists []. by rewrite write_bytes_nil.
Qed.

(** ** Value numbering *)

(** Every numbered value has an index below the next one. *)
Definition numbered_below (c : WriterCtx) : Prop :=
  0 <= next_idx c /\ forall v i, value_map c !! v = Some i -> 0 <= i < next_idx c.

(** Within a block: new indices are taken from the counter, and what was
    numbered before keeps its index or is forgotten. *)
Definition advances (s s' : WS) : Prop :=
  numbered_below s.1 -> numbered_below s'.1 /\ next_idx s.1 <= next_idx s'.1 /\
  forall v i, value_map s'.1 !! v = Some i -> i < next_idx s.1 -> value_map s.1 !! v = Some i.

(** Around a block: the counter is back where it was. *)
Definition scoped (s s' : WS) : Prop :=
  numbered_below s.1 -> next_idx s'.1 = next_idx s.1 /\ value_map s'.1 ⊆ value_map s.1.

#[export] Instance advances_preorder : PreOrder advances.
Proof.
  split; [intros s H; split_and!; auto; lia|]. intros s1 s2 s3 H1 H2 Hb.
  destruct (H1 Hb) as (B2 & L2 & K2), (H2 B2) as (B3 & L3 & K3). split_and!; [done|lia|].
  intros v i Hv Hi. apply K2; [apply K3; [done|lia]|done].
Qed.

Lemma scoped_below s s' : scoped s s' -> numbered_below s.1 -> numbered_below s'.1.
Proof.
  intros H Hb. destruct (H Hb) as [E Hs], Hb as [H0 Hb]. split; [by rewrite E|]. intros v i Hv. rewrite E.
  eapply Hb, lookup_weaken; [exact Hv|done].
Qed.

#[export] Instance scoped_preorder : PreOrder scoped.
Proof.
  split; [by intros s H|]. intros s1 s2 s3 H1 H2 Hb. pose proof (scoped_below _ _ H1 Hb) as Hb2.
  destruct (H1 Hb) as [E1 S1], (H2 Hb2) as [E2 S2]. split; [congruence|by etrans].
Qed.

Lemma scoped_advances s s' : scoped s s' -> advances s s'.
Proof.
  intros H Hb. destruct (H Hb) as [E S]. split_and!; [by eapply scoped_below|lia|].
  intros v i Hv _. by eapply lookup_weaken.
Qed.

(** Routines that leave the numbering alone. *)
Lemma untouched_scoped s s' : value_map s'.1 = value_map s.1 -> next_idx s'.1 = next_idx s.1 -> scoped s s'.
Proof. intros E1 E2 _. by rewrite E1, E2. Qed.

#[export] Instance scoped_rel T : WriterRel scoped T.
Proof.
  split; [split|..].
  - apply _.
  - intros str [c w] i [c' w'] H. unfold string_index in H. destruct (sm_get_or_insert _ _).
    injection H as <- <- <-. by apply untouched_scoped.
  - intros ty _ [c w] i [c' w'] H. unfold type_index in H. destruct (tm_get_or_insert _ _).
    injection H as <- <- <-. by apply untouched_scoped.
  - intros bs s a s' [= _ <-]. by apply untouched_scoped.
  - intros data [c w] i [c' w'] H. injection H as <- <- <-. by apply untouched_scoped.
Qed.

Lemma advances_define v : respects advances (define_value v).
Proof.
  intros [c w] [] [c' w'] H. injection H as <- <-. intros [H0 Hb]. cbn in *. split_and!; [split; cbn; [lia|]|lia|].
  - intros v' i. rewrite lookup_insert_Some. intros [[<- <-]|[_ Hi]]; [lia|]. apply Hb in Hi. lia.
  - intros v' i. rewrite lookup_insert_Some. intros [[<- <-]|[_ Hi]] ?; [lia|done].
Qed.

(** Rolling back to where a stretch of advancing steps began. *)
Lemma rollback_scoped s s1 s' : advances s s1 -> rollback (next_idx s.1) s1 = Ok (tt, s') -> scoped s s'.
Proof.
  destruct s1 as [c1 w1]. intros H E. injection E as <-. intros Hb. destruct (H Hb) as (_ & _ & K).
  split; [done|]. cbn. apply map_subseteq_spec. intros v i Hv. apply map_lookup_filter_Some in Hv as [Hv Hi].
  by apply K.
Qed.

(** ** Modules *)

(** The data of a module fits the fields it is written to: what the types of
    the program guarantee. *)
Record module_ok (m : IRModule) : Prop := {
  mo_ops : Forall (fun op => op_types deep_ok op /\ location_ok (location op)) (m_operations m);
  mo_blocks : Forall (fun b => Forall (fun a => deep_ok a.2) (block_args b)) (m_blocks m);
  mo_globals : Forall (fun g => deep_ok (de_element_type (g_value g)) /\ in_u64 (g_alignment g)) (m_globals m);
}.

Lemma arena_elem {A} (l : list A) id a : arena l id = Ok a -> a ∈ l.
Proof. unfold arena. destruct (l !! _) eqn:E; [|done]. intros [= ->]. by eapply list_elem_of_lookup_2. Qed.

Lemma per_function_push ls x P : Forall (Forall P) ls -> P x -> Forall (Forall P) (push_last ls x).
Proof.
  intros H Hx. induction H as [|l ls Hl Hls IH]; [constructor|]. destruct ls; cbn in *; constructor; auto.
  apply Forall_app. auto.
Qed.

Lemma push_last_length ls x : length (push_last ls x) = length ls.
Proof. induction ls as [|l [|l' ls] IH]; [done..|]. cbn in *. by rewrite IH. Qed.

Lemma grows_record loc : location_ok loc -> respects grows (record_location loc).
Proof.
  intros Hloc [c w] [] [c' w'] H [W Sc Ids Tm Tok]. unfold record_location, record_op in H. cbn [fst snd] in *.
  pose proof (attr_for_step (current_scope (debug c)) _ _ loc W Sc Hloc) as Hs.
  destruct (attr_for _ _ _ _) as [[t sm] id]. destruct Hs as (W1 & X & B). cbn [fst snd] in *.
  destruct (per_function (debug c)) as [|l ls] eqn:E; [done|]. cbn in H. injection H as <- <-.
  pose proof (id_bound_mono _ _ _ _ X) as HB. split_and!; [split|split_and!; [exact X|done|done|]|]; try done.
  - by eapply below_ext.
  - change (Forall (Forall (below (id_bound sm t))) (push_last (l :: ls) id)).
    apply per_function_push; [|done]. by eapply ids_mono.
  - rewrite E. change (length (l :: ls) <= length (push_last (l :: ls) id))%nat. by rewrite push_last_length.
  - exists []. by rewrite write_bytes_nil.
Qed.

(** Changes of the numbering alone. *)
Lemma grows_numbering (f : WS -> WS) : (forall s, (f s).2 = s.2) ->
  (forall s, strings (f s).1 = strings s.1 /\ types (f s).1 = types s.1 /\ constants (f s).1 = constants s.1 /\
             debug (f s).1 = debug s.1) ->
  respects grows (fun s => Ok (tt, f s)).
Proof.
  intros Hw Hc s [] s' [= <-] [W Sc Ids Tm Tok]. destruct (Hc s) as (E1 & E2 & E3 & E4). unfold ctx_ext.
  rewrite E1, E2, E3, E4, Hw. split_and!; [split; unfold ctx_bound; by rewrite ?E1, ?E2, ?E4|apply debug_ext_refl|done..|].
  exists []. by rewrite write_bytes_nil.
Qed.

Lemma grows_define v : respects grows (define_value v).
Proof.
  intros [c w] a s' H. injection H as <- <-. eapply (grows_numbering (fun s => (mkWriterCtx (<[v:=next_idx s.1]>
    (value_map s.1)) (next_idx s.1 + 1) (strings s.1) (types s.1) (constants s.1) (debug s.1), s.2))); by intros.
Qed.

Lemma grows_rollback n : respects grows (rollback n).
Proof.
  intros [c w] a s' H. injection H as <- <-. eapply (grows_numbering (fun s => (mkWriterCtx (filter (fun kv =>
    kv.2 < n) (value_map s.1)) n (strings s.1) (types s.1) (constants s.1) (debug s.1), s.2))); by intros.
Qed.

Lemma grows_reset : respects grows reset_values.
Proof.
  intros [c w] a s' H. injection H as <- <-.
  eapply (grows_numbering (fun s => (mkWriterCtx ∅ 0 (strings s.1) (types s.1) (constants s.1) (debug s.1), s.2))); by intros.
Qed.

#[export] Hint Resolve grows_define grows_rollback grows_reset grows_record : writer.

Section module_facts.
Context (f16_bits bf16_bits : Z -> Z) (m : IRModule) (version : BytecodeVersion).

Lemma each_nil {A} (f : A -> WM unit) : each f [] = mret tt.
Proof. done. Qed.

(** A loop of advancing steps advances. *)
Lemma advances_each {A} (f : A -> WM unit) l : (forall x, respects advances (f x)) -> respects advances (each f l).
Proof.
  intros Hf. induction l as [|x l IH]; [by intros s a s' [= <- <-]|].
  intros s a s' (? & s1 & H1 & H2)%WM_bind_Ok. etrans; [by eapply Hf|by eapply IH].
Qed.

Lemma respects_advances {A} (f : WM A) : respects scoped f -> respects advances f.
Proof. intros H s a s' E. by apply scoped_advances, (H _ _ _ E). Qed.

Section nested.
Context (wr : Z -> WM unit).

Lemma scoped_record loc : respects scoped (record_location loc).
Proof.
  intros [c w] [] [c' w'] H. unfold record_location, record_op in H. destruct (attr_for _ _ _ _) as [[t sm] id].
  destruct (per_function (debug c)); [done|]. cbn in H. injection H as <- <-. by apply untouched_scoped.
Qed.

Lemma write_operation_advances o : (forall r, respects scoped (wr r)) ->
  respects advances (write_operation f16_bits bf16_bits m version wr o).
Proof.
  intros Hr s a s' (op & s1 & [Ho ->]%wlift_Ok & H)%WM_bind_Ok.
  apply WM_bind_Ok in H as ([] & s2 & H1 & H). apply WM_bind_Ok in H as ([] & s3 & H2 & H).
  apply WM_bind_Ok in H as ([] & s4 & H3 & H).
  apply scoped_record, scoped_advances in H1. apply (respects_varint (T:=fun _ => True)), scoped_advances in H2.
  assert (H3' : scoped s3 s4).
  { refine (respects_op_body (T:=fun _ => True) _ _ m version wr op _ _ _ _ _ H3); [auto|].
    split; apply Forall_forall; [done|]. intros [k at_] _. apply attr_all_True. }
  apply scoped_advances in H3'. etrans; [exact H1|]. etrans; [exact H2|]. etrans; [exact H3'|].
  refine (advances_each _ _ _ _ _ _ H). intros i. unfold define_result.
  destruct (find_op_result _ _ _); [apply advances_define|by intros ? ? ? [= <- <-]].
Qed.

Lemma write_block_scoped b : (forall r, respects scoped (wr r)) ->
  respects scoped (write_block f16_bits bf16_bits m version wr b).
Proof.
  intros Hr s a s' (n & s0 & [= <- <-] & H)%WM_bind_Ok.
  apply WM_bind_Ok in H as (blk & s1 & [Hb ->]%wlift_Ok & H). apply WM_bind_Ok in H as ([] & s2 & H1 & H).
  apply WM_bind_Ok in H as ([] & s3 & H2 & H). apply WM_bind_Ok in H as ([] & s4 & H3 & H).
  apply WM_bind_Ok in H as ([] & s5 & H4 & H). destruct a.
  eapply rollback_scoped; [|exact H].
  apply (respects_varint (T:=fun _ => True)), scoped_advances in H1, H3.
  apply advances_each in H2; [|intros x; intros t [] t' ([] & t1 & E1 & E2)%WM_bind_Ok;
    etrans; [|by eapply advances_define];
    by eapply scoped_advances, (respects_type (T:=fun _ => True)), E1].
  apply advances_each in H4; [|intros x; by apply write_operation_advances].
  etrans; [exact H1|]. etrans; [exact H2|]. etrans; [exact H3|exact H4].
Qed.
End nested.

Lemma write_region_scoped fuel r : respects scoped (write_region f16_bits bf16_bits m version fuel r).
Proof.
  revert r. induction fuel as [|fuel IH]; intros r; [apply respects_lift|]. cbn [write_region].
  apply respects_bind; [apply respects_lift|]. intros bs.
  apply respects_bind; [by apply (respects_varint (T:=fun _ => True))|]. intros _.
  apply respects_each, Forall_forall. intros b _. by apply write_block_scoped.
Qed.

(** *** Growth *)
Context (Hm : module_ok m).

Lemma op_ok id op : get_op m id = Ok op -> op_types deep_ok op /\ location_ok (location op).
Proof. intros H%arena_elem. pose proof (mo_ops m Hm) as Ho. rewrite Forall_forall in Ho. auto. Qed.

Lemma block_ok id b : get_block m id = Ok b -> Forall (fun a => deep_ok a.2) (block_args b).
Proof. intros H%arena_elem. pose proof (mo_blocks m Hm) as Ho. rewrite Forall_forall in Ho. auto. Qed.

Lemma grows_define_result o i : respects grows (define_result m o i).
Proof. unfold define_result. destruct (find_op_result _ _ _); writer. Qed.

Lemma grows_operation wr o : (forall r, respects grows (wr r)) ->
  respects grows (write_operation f16_bits bf16_bits m version wr o).
Proof.
  intros Hr. apply respects_lift_bind. intros op [Ht Hl]%op_ok.
  apply respects_bind; [by apply grows_record|]. intros _. apply respects_bind; [writer|]. intros _.
  apply respects_bind; [by apply respects_op_body|]. intros _.
  apply respects_each, Forall_forall. intros i _. apply grows_define_result.
Qed.

Lemma grows_block wr b : (forall r, respects grows (wr r)) ->
  respects grows (write_block f16_bits bf16_bits m version wr b).
Proof.
  intros Hr. apply respects_bind; [by intros s a s' [= _ <-]|]. intros n.
  apply respects_lift_bind. intros blk Hb%block_ok. apply respects_bind; [writer|]. intros _.
  apply respects_bind. { apply respects_each. eapply Forall_impl; [exact Hb|]. writer. } intros _.
  apply respects_bind; [writer|]. intros _.
  apply respects_bind; [|writer]. apply respects_each, Forall_forall. intros o _. by apply grows_operation.
Qed.

Lemma grows_region fuel r : respects grows (write_region f16_bits bf16_bits m version fuel r).
Proof.
  revert r. induction fuel as [|fuel IH]; intros r; [apply respects_lift|]. cbn [write_region].
  apply respects_bind; [writer|]. intros bs. apply respects_bind; [writer|]. intros _.
  apply respects_each, Forall_forall. intros b _. by apply grows_block.
Qed.

Lemma grows_function_body fuel f : respects grows (write_function_body f16_bits bf16_bits m version fuel f).
Proof.
  apply respects_bind; [writer|]. intros op. destruct (regions op) as [|r rs]; [writer|].
  apply respects_bind; [writer|]. intros bs. destruct bs as [|b bs]; [writer|].
  apply respects_bind; [writer|]. intros blk. apply respects_bind.
  - apply respects_each, Forall_forall. intros a _. writer.
  - intros _. apply respects_each, Forall_forall. intros o _. apply grows_operation, grows_region.
Qed.
End module_facts.

Lemma grows_begin name di loc : location_ok loc -> respects grows (begin_debug name di loc).
Proof.
  intros Hloc [c w] id [c' w'] H [W Sc Ids Tm Tok]. unfold begin_debug, begin_function in H. cbn [fst snd] in *.
  assert (Hs : debug_step (strings c) (dc_attrs (debug c))
    match loc with
    | FileLineCol filename line _ =>
        let '(dir, base) := split_file_path filename in
        let '(t, strings, file) := debug_file (dc_attrs (debug c)) (strings c) base dir in
        let '(t, cu) := compile_unit t file in
        subprogram t strings file line (default name di) name cu line
    | DebugInfo _ _ _ scope => scope_attr (dc_attrs (debug c)) (strings c) scope
    | _ => (dc_attrs (debug c), strings c, MISSING_DEBUG_ATTR_ID)
    end).
  { destruct loc as [|filename line column|? ? ? scope|]; try (by apply missing_step).
    - destruct Hloc as [Hl _], (split_file_path filename) as [dir base].
      pose proof (debug_file_step _ _ base dir W) as H1.
      destruct (debug_file _ _ _ _) as [[t1 sm1] file]. destruct H1 as (W1 & X1 & B1). cbn [fst snd] in *.
      pose proof (compile_unit_step sm1 t1 file W1 B1) as H2.
      destruct (compile_unit t1 file) as [t2 cu]. destruct H2 as (W2 & X2 & B2). cbn [fst snd] in *.
      eapply debug_step_trans; [|apply subprogram_step; eauto using below_ext]. by eapply debug_ext_trans.
    - destruct Hloc as (_ & _ & Hs). by apply scope_attr_step. }
  destruct (match loc with FileLineCol _ _ _ => _ | _ => _ end) as [[t1 sm1] scope]. clear Sc.
  destruct Hs as (W1 & X1 & B1). cbn [fst snd] in *.
  pose proof (attr_for_step scope sm1 t1 loc W1 B1 Hloc) as H2.
  destruct (attr_for scope t1 sm1 loc) as [[t2 sm2] fa]. destruct H2 as (W2 & X2 & B2). cbn [fst snd] in *.
  injection H as <- <- <-. pose proof (debug_ext_trans _ _ _ _ _ _ X1 X2) as X.
  split_and!; [split|split_and!; [exact X|done|done|]|]; cbn; try done.
  - exact (below_ext _ _ _ _ _ X2 B1).
  - apply Forall_app. split; [|by repeat constructor; apply B2]. eapply ids_mono; [|exact Ids]. by apply id_bound_mono.
  - rewrite length_app. cbn. lia.
  - exists []. by rewrite write_bytes_nil.
Qed.
(** ** The pre-scan *)

(** The types of a module. *)
Record module_types (T : IRType -> Prop) (m : IRModule) : Prop := {
  mt_ops : Forall (op_types T) (m_operations m);
  mt_blocks : Forall (fun b => Forall (fun a => T a.2) (block_args b)) (m_blocks m);
  mt_globals : Forall (fun g => T (de_element_type (g_value g))) (m_globals m);
}.

Lemma module_types_True m : module_types (fun _ => True) m.
Proof.
  split; apply Forall_forall; intros x _; [|by apply Forall_forall|done].
  split; apply Forall_forall; [done|]. intros e _. apply attr_all_True.
Qed.

Section prescan.
Context {R : relation WS} {T : IRType -> Prop} `{HR : !InternRel R T}.
Context (m : IRModule) (version : BytecodeVersion) (Hm : module_types T m).

Lemma respects_intern_type ty : T ty -> respects R (intern_type ty).
Proof. intros. apply respects_bind; writer. Qed.

Lemma respects_prescan_attribute name attr : attr_all T attr -> respects R (prescan_attribute name attr).
Proof.
  revert name. induction attr as [attr Hl|elems IH|entries IH|entries IH] using attribute_ind'; intros name;
    cbn [attr_all prescan_attribute].
  - destruct attr; try discriminate Hl; cbn [attr_all]; writer.
  - rewrite foldr_and. intros H. apply respects_bind; [writer|]. intros _. apply respects_each.
    rewrite Forall_forall in *. intros a Ha. by apply IH, H.
  - rewrite (foldr_and (fun kv => attr_all T kv.2)). intros H. apply respects_bind; [writer|]. intros _.
    apply respects_each_pair. rewrite Forall_forall in *. intros k v Hk. by apply (IH _ Hk), (H _ Hk).
  - rewrite (foldr_and (fun ah => foldr (fun kv P => attr_all T kv.2 /\ P) True ah.2)). intros H.
    apply respects_bind; [writer|]. intros _. apply respects_each_pair. rewrite Forall_forall in *.
    intros arch hints Hk. pose proof (IH _ Hk) as IHk. pose proof (H _ Hk) as Hh. cbn [snd] in IHk, Hh.
    rewrite (foldr_and (fun kv => attr_all T kv.2)) in Hh. rewrite Forall_forall in *.
    apply respects_bind; [writer|]. intros _. apply respects_each_pair. intros k v Hv.
    by apply (IHk _ Hv), (Hh _ Hv).
Qed.

Lemma respects_prescan_attributes op : op_types T op -> respects R (prescan_attributes op).
Proof.
  intros [_ H]. apply respects_each. eapply Forall_impl; [exact H|]. intros [k a]. apply respects_prescan_attribute.
Qed.

Lemma prescan_op id op : get_op m id = Ok op -> op_types T op.
Proof. intros H%arena_elem. pose proof (mt_ops T m Hm) as Ho. rewrite Forall_forall in Ho. auto. Qed.

Lemma respects_prescan_region fuel r : respects R (prescan_region m fuel r).
Proof.
  revert r. induction fuel as [|fuel IH]; intros r; [apply respects_lift|]. cbn [prescan_region].
  apply respects_bind; [writer|]. intros bs. apply respects_each, Forall_forall. intros b _.
  apply respects_lift_bind. intros blk Hb%arena_elem. apply respects_bind.
  { apply respects_each. pose proof (mt_blocks T m Hm) as Hbs. rewrite Forall_forall in Hbs.
    eapply Forall_impl; [exact (Hbs _ Hb)|]. intros a. apply respects_intern_type. } intros _.
  apply respects_each, Forall_forall. intros o _. apply respects_lift_bind. intros op Ht%prescan_op.
  apply respects_bind.
  { apply respects_each. eapply Forall_impl; [exact (proj1 Ht)|]. apply respects_intern_type. } intros _.
  apply respects_bind; [by apply respects_prescan_attributes|]. intros _.
  apply respects_each, Forall_forall. auto.
Qed.

Lemma respects_prescan_rest :
  respects R (_ ← each (fun g => _ ← string_index (sym_name g); intern_type (de_element_type (g_value g))) (m_globals m);
    each (fun func_op => _ ← wlift (check_region_versions m version (module_fuel m) false false func_op);
      prescan_function m (module_fuel m) func_op) (m_functions m)).
Proof.
  apply respects_bind.
  { apply respects_each. eapply Forall_impl; [exact (mt_globals T m Hm)|]. intros g Hg.
    apply respects_bind; [writer|]. intros _. by apply respects_intern_type. } intros _.
  apply respects_each, Forall_forall. intros f _. apply respects_bind; [writer|]. intros _.
  apply respects_lift_bind. intros op Ht%prescan_op. apply respects_bind; [by apply respects_prescan_attributes|].
  intros _. apply respects_each, Forall_forall. intros r _. apply respects_prescan_region.
Qed.

Lemma respects_prescan : respects R (prescan m version).
Proof.
  apply respects_bind; [|intros _; apply respects_prescan_rest].
  unfold prescan_producer. destruct (m_producer m); writer.
Qed.
End prescan.

Lemma module_ok_types m : module_ok m -> module_types deep_ok m.
Proof.
  intros [H1 H2 H3]. split; [eapply Forall_impl; [exact H1|]; by intros op [? _]|done|].
  eapply Forall_impl; [exact H3|]. by intros g [? _].
Qed.

(** The pre-scan adds no constants and writes nothing. *)
Definition interns_only (s s' : WS) : Prop := constants s'.1 = constants s.1 /\ s'.2 = s.2 /\ debug s'.1 = debug s.1.

#[export] Instance interns_only_rel T : InternRel interns_only T.
Proof.
  split.
  - split; [by intros s|]. intros s1 s2 s3 (? & ? & ?) (? & ? & ?). split_and!; congruence.
  - intros str [c w] i [c' w'] H. unfold string_index in H. destruct (sm_get_or_insert _ _).
    by injection H as <- <- <-.
  - intros ty _ [c w] i [c' w'] H. unfold type_index in H. destruct (tm_get_or_insert _ _).
    by injection H as <- <- <-.
Qed.

(** ** Indices into the tables *)

Definition knows_string (c : WriterCtx) (i : Z) (str : string) : Prop :=
  0 <= i /\ sm_strings (strings c) !! Z.to_nat i = Some str.
Definition knows_type (c : WriterCtx) (i : Z) (ty : IRType) : Prop :=
  0 <= i /\ tm_list (types c) !! Z.to_nat i = Some ty.

Lemma knows_string_ext c c' i str : ctx_ext c c' -> knows_string c i str -> knows_string c' i str.
Proof. intros ([[k Hp] _] & _) [Hi Hl]. split; [done|]. rewrite Hp. by apply lookup_app_l_Some. Qed.

Lemma knows_type_ext c c' i ty : ctx_ext c c' -> knows_type c i ty -> knows_type c' i ty.
Proof. intros (_ & [k Hp] & _) [Hi Hl]. split; [done|]. rewrite Hp. by apply lookup_app_l_Some. Qed.

Lemma string_index_knows s i s' str : ctx_wf s.1 -> string_index str s = Ok (i, s') ->
  ctx_wf s'.1 /\ ctx_ext s.1 s'.1 /\ s'.2 = s.2 /\ knows_string s'.1 i str /\ constants s'.1 = constants s.1.
Proof.
  intros Hw H. destruct (grows_string str _ _ _ H Hw) as (W & X & _). split_and!; [done|done|..];
    destruct s as [c w]; unfold string_index in H; pose proof (string_step _ _ str (cw_debug _ Hw)) as Hs;
    cbn [fst] in Hs; destruct (sm_get_or_insert (strings c) str) as [sm j]; injection H as <- <-; [done| |done].
  destruct Hs as (_ & _ & [? _] & Hl). by split.
Qed.

Lemma type_index_knows s i s' ty : ctx_wf s.1 -> deep_ok ty -> type_index ty s = Ok (i, s') ->
  ctx_wf s'.1 /\ ctx_ext s.1 s'.1 /\ s'.2 = s.2 /\ knows_type s'.1 i ty /\ constants s'.1 = constants s.1.
Proof.
  intros Hw Hty H. destruct (ir_type (R:=grows) ty Hty _ _ _ H Hw) as (W & X & _). split_and!; [done|done|..];
    destruct s as [c w]; unfold type_index in H; pose proof (cw_types _ Hw) as Hs; cbn [fst] in Hs;
    destruct (tm_get_or_insert (types c) ty) as [tm j] eqn:E; injection H as <- <-; [done| |done].
  by destruct (tm_get_or_insert_spec _ _ _ _ Hs E).
Qed.

(** The buffer is only appended to, whatever the tables. *)
Definition appends (s s' : WS) : Prop := exists bs, s'.2 = write_bytes bs s.2.

#[export] Instance appends_preorder : PreOrder appends.
Proof.
  split.
  - intros s. exists []. by rewrite write_bytes_nil.
  - intros s1 s2 s3 [b1 E1] [b2 E2]. exists (b1 ++ b2). by rewrite E2, E1, write_bytes_app.
Qed.

#[export] Instance appends_rel T : WriterRel appends T.
Proof.
  split; [split; [apply _|..]|..].
  - intros str [c w] i [c' w'] H. unfold string_index in H. destruct (sm_get_or_insert _ _). injection H as <- <- <-.
    exists []. by rewrite write_bytes_nil.
  - intros ty _ [c w] i [c' w'] H. unfold type_index in H. destruct (tm_get_or_insert _ _). injection H as <- <- <-.
    exists []. by rewrite write_bytes_nil.
  - intros bs s a s' [= _ <-]. by exists bs.
  - intros data [c w] i [c' w'] H. injection H as <- <- <-. exists []. by rewrite write_bytes_nil.
Qed.

(** ** Properties *)

Lemma example_module_ok : module_ok (example_module []).
Proof.
  pose (m := example_module []). vm_compute in m. change (module_ok m). split; cbn [m m_operations m_blocks m_globals];
    repeat first [apply Forall_cons_2 | apply Forall_nil_2]; repeat first [apply Forall_cons_2 | apply Forall_nil_2 | split];
    first [exact I | vm_compute; discriminate].
Qed.

(** A context in which a function has been started. *)
Definition example_ctx : WriterCtx :=
  match begin_debug "k" None (FileLineCol "a/b.rs" 1 1) (ctx_new, writer_new) with
  | Ok (_, (c, _)) => mkWriterCtx {[ 7 := 0; 8 := 1 ]} 2 (strings c) (types c) (constants c) (debug c)
  | _ => ctx_new
  end.

Lemma example_ctx_wf : ctx_wf example_ctx.
Proof.
  unfold example_ctx. destruct (begin_debug _ _ _ _) as [[i [c w]]| |] eqn:E; try apply ctx_new_wf.
  destruct (grows_begin "k" None (FileLineCol "a/b.rs" 1 1) ltac:(cbn; unfold_int; lia) _ _ _ E ctx_new_wf) as [[W Sc Ids Tm Tok] _].
  by split.
Qed.

Lemma example_ctx_numbered : numbered_below example_ctx.
Proof.
  assert (E : next_idx example_ctx = 2 /\ value_map example_ctx = {[ 7 := 0; 8 := 1 ]}) by (vm_compute; done).
  destruct E as [En Em]. split; rewrite En; [done|]. intros v i. rewrite Em.
  rewrite lookup_insert_Some, lookup_singleton_Some. lia.
Qed.

(** C28: Serializing a region is scoped. Whatever is nested in it, when the
    region has been written the next value index is what it was before, the
    values numbered then that are still mapped keep their indices and no others
    remain, every index is below the next one throughout, the string, type,
    constant and debug tables have only been extended, and the buffer has only
    been appended to. *)
Theorem region_write_scoped (f16_bits bf16_bits : Z -> Z) (m : IRModule) (version : BytecodeVersion) (fuel : nat)
    (r : Z) (c c' : WriterCtx) (w w' : EncodingWriter) (Hm : module_ok m) (Hc : ctx_wf c) (Hn : numbered_below c)
    (H : write_region f16_bits bf16_bits m version fuel r (c, w) = Ok (tt, (c', w'))) :
  next_idx c' = next_idx c /\ value_map c' ⊆ value_map c /\ numbered_below c' /\
  ctx_wf c' /\ ctx_ext c c' /\ exists bs, w' = write_bytes bs w.
Proof.
  pose proof (write_region_scoped f16_bits bf16_bits m version fuel r _ _ _ H) as Hs.
  pose proof (scoped_below _ _ Hs Hn) as Hb. destruct (Hs Hn) as [E S].
  destruct (grows_region f16_bits bf16_bits m version Hm fuel r _ _ _ H Hc) as (W & X & B). by split_and!.
Qed.

Lemma region_write_scoped_witness : exists c' w',
  write_region id id (example_module []) V13_4 4 0 (example_ctx, writer_new) = Ok (tt, (c', w')) /\
  next_idx c' = 2 /\ value_map c' ⊆ value_map example_ctx /\ exists bs, w' = write_bytes bs writer_new.
Proof.
  destruct (write_region id id (example_module []) V13_4 4 0 (example_ctx, writer_new)) as [[[] [c' w']]| |] eqn:E;
    [|vm_compute in E; discriminate E..].
  exists c', w'. split; [done|].
  destruct (region_write_scoped id id (example_module []) V13_4 4 0 example_ctx c' writer_new w' example_module_ok
    example_ctx_wf) as (H1 & H2 & _ & _ & _ & H6).
  - apply example_ctx_numbered.
  - exact E.
  - by split_and!.
Defined.
