(* ===== verification/OpLayout.v ===== *)
(** * The layout of operation bodies and their debug ids

    Every operation body opens with its results: a count exactly for the
    opcodes whose result count the format does not fix, then the type
    indices.  And serializing a function records one debug id per operation it
    serializes, in order, so that the ids line up with the operations. *)

From S2P Require Import Prelude Enums Encoding IR Tables TypeTable Module Writer OpWriter ModuleWriter WriterFacts.

(** ** Result headers *)

Lemma put_varint_bytes x s a s' : put_varint x s = Ok (a, s') -> s' = (s.1, write_bytes (varint x) s.2).
Proof. by intros [= _ <-]. Qed.

Lemma put_types_spec tys s s' : ctx_wf s.1 -> Forall deep_ok tys -> each put_type tys s = Ok (tt, s') ->
  ctx_wf s'.1 /\ ctx_ext s.1 s'.1 /\
  exists idxs, s'.2 = write_bytes (concat (varint <$> idxs)) s.2 /\ Forall2 (knows_type s'.1) idxs tys.
Proof.
  intros Hw Htys. revert s Hw. induction Htys as [|ty tys Hty Htys IH]; intros s Hw H.
  - injection H as <-. split_and!; [done|apply ctx_ext_refl|]. exists []. split; [by rewrite write_bytes_nil|constructor].
  - apply WM_bind_Ok in H as ([] & s1 & H1 & H). apply WM_bind_Ok in H1 as (i & s0 & E0 & ->%put_varint_bytes).
    destruct (type_index_knows _ _ _ _ Hw Hty E0) as (W0 & X0 & B0 & K0 & _).
    destruct (IH (s0.1, write_bytes (varint i) s0.2) W0 H) as (W & X & idxs & B & K). cbn [fst snd] in *.
    split_and!; [done|by eapply ctx_ext_trans|]. exists (i :: idxs). split; [by rewrite B, B0, write_bytes_app|].
    constructor; [exact (knows_type_ext _ _ _ _ X K0)|done].
Qed.

(** Result headers agree with the format. A body written for an operation
    other than [atomic_red_view_tko] starts with the number of its results if
    and only if [fixed_result_count] leaves that number open, followed by the
    indices its result types have in the type table. *)
Lemma result_header_agrees (f16_bits bf16_bits : Z -> Z) (m : IRModule) (version : BytecodeVersion)
    (write_region : Z -> WM unit) (op : Operation) (s s' : WS) (Hop : op_types deep_ok op) (Hs : ctx_wf s.1)
    (Hr : forall r, r ∈ regions op -> respects grows (write_region r))
    (Hne : opcode op <> Opcode.AtomicRedViewTko)
    (H : write_op_body f16_bits bf16_bits m version write_region op s = Ok (tt, s')) :
  exists idxs rest,
    s'.2 = write_bytes ((match Opcode.fixed_result_count (opcode op) with
                         | None => varint (zlen (result_types op))
                         | Some _ => []
                         end) ++ concat (varint <$> idxs) ++ rest) s.2 /\
    Forall2 (knows_type s'.1) idxs (result_types op).
Proof.
  apply WM_bind_Ok in H as ([] & s0 & E0 & H).
  assert (s0 = s) as ->.
  { apply WM_bind_Ok in E0 as ([] & s1 & [_ ->]%wlift_Ok & E0). revert E0. generalize (attributes op) as l.
    induction l as [|e l IH]; [by intros [= <-]|]. intros ([] & s1 & E1 & E2)%WM_bind_Ok.
    destruct (attribute_feature _ _ _) in E1; [apply wlift_Ok in E1 as [_ ->]|injection E1 as <-]; auto. }
  destruct (op_arm_header f16_bits bf16_bits m version write_region op s s' H) as (s1 & rest & E1 & E2 & Hrest).
  assert (Ec : writes_count (opcode op) = match Opcode.fixed_result_count (opcode op) with None => true | _ => false end)
    by (by destruct (opcode op)).
  apply WM_bind_Ok in E1 as ([] & sc & Ecount & Etys).
  assert (Hc : sc = (s.1, write_bytes (match Opcode.fixed_result_count (opcode op) with
                       | None => varint (zlen (result_types op)) | Some _ => [] end) s.2)).
  { rewrite Ec in Ecount. destruct (Opcode.fixed_result_count (opcode op)); cbn [when] in Ecount.
    - injection Ecount as <-. rewrite write_bytes_nil. by destruct s.
    - by apply put_varint_bytes in Ecount. }
  subst sc. destruct (put_types_spec _ (s.1, _) _ Hs (proj1 Hop) Etys) as (W1 & X1 & idxs & B1 & K1).
  destruct (Hrest grows deep_ok grows_rel Hop Hr _ _ _ E2 W1) as (_ & X & bs & B). cbn [fst snd] in *.
  exists idxs, bs. split; [by rewrite B, B1, !write_bytes_app, <- ?app_assoc|].
  eapply Forall2_impl; [exact K1|]. intros i ty. by apply knows_type_ext.
Qed.

(** [join_tokens] counts its results, [negf] does not. *)
Lemma result_header_agrees_witness :
  let op := mkOperation Opcode.NegF [7] [tile_f32] [] [] LocUnknown in
  exists s', write_op_body id id (module_new "m") V13_4 (fun _ => wpanic) op (example_ctx, writer_new) = Ok (tt, s') /\
    exists idxs rest,
      s'.2 = write_bytes ([] ++ concat (varint <$> idxs) ++ rest) writer_new /\
      Forall2 (knows_type s'.1) idxs [tile_f32].
Proof.
  intros op. destruct (write_op_body id id (module_new "m") V13_4 (fun _ => wpanic) op (example_ctx, writer_new))
    as [[[] s']| |] eqn:E; [|vm_compute in E; discriminate E..].
  exists s'. split; [done|].
  apply (result_header_agrees id id (module_new "m") V13_4 (fun _ => wpanic) op (example_ctx, writer_new) s').
  - split; repeat constructor. vm_compute. discriminate.
  - apply example_ctx_wf.
  - intros r Hr. by apply not_elem_of_nil in Hr.
  - discriminate.
  - exact E.
Defined.

(** The exception: the writer counts the results of [atomic_red_view_tko], and
    [fixed_result_count] says their number is fixed. *)
Lemma atomic_red_view_counted : writes_count Opcode.AtomicRedViewTko = true /\
  Opcode.fixed_result_count Opcode.AtomicRedViewTko = Some 1.
Proof. done. Qed.

(** ** Debug ids *)

(** How many operations the serialization of a region visits. *)
Section counts.
Context (m : IRModule).

Definition total {A} (f : A -> nat) (l : list A) : nat := foldr (fun x n => (f x + n)%nat) 0%nat l.

Section op_count.
Context (region_count : Z -> nat).

Definition op_count (o : Z) : nat :=
  match get_op m o with
  | Ok op => S (if writes_regions (opcode op) then total region_count (regions op) else 0%nat)
  | _ => 0%nat
  end.

Definition block_count (b : Z) : nat :=
  match get_block m b with Ok blk => total op_count (block_ops blk) | _ => 0%nat end.
End op_count.

Fixpoint region_count (fuel : nat) (r : Z) : nat :=
  match fuel with
  | O => 0%nat
  | S fuel => match get_region m r with Ok bs => total (block_count (region_count fuel)) bs | _ => 0%nat end
  end.

(** The operations of a function's entry block, and below. *)
Definition function_count (fuel : nat) (f : Z) : nat :=
  match get_op m f with
  | Ok op =>
      match regions op with
      | r :: _ =>
          match get_region m r with
          | Ok (b :: _) => block_count (region_count fuel) b
          | _ => 0%nat
          end
      | [] => 0%nat
      end
  | _ => 0%nat
  end.
End counts.

(** [records k m]: a successful run appends [k] ids to the current function's
    list and changes no other. *)
Definition records {A} (k : nat) (m : WM A) : Prop :=
  forall s a s' pre l, m s = Ok (a, s') -> per_function (debug s.1) = pre ++ [l] ->
    exists ids, length ids = k /\ per_function (debug s'.1) = pre ++ [l ++ ids].

(** Everything but the recording of locations leaves the ids alone. *)
Definition same_ids (s s' : WS) : Prop := per_function (debug s'.1) = per_function (debug s.1).

#[export] Instance same_ids_preorder : PreOrder same_ids.
Proof. split; [by intros s|]. unfold same_ids. intros s1 s2 s3 H1 H2. congruence. Qed.

#[export] Instance same_ids_rel : WriterRel same_ids (fun _ => True).
Proof.
  split; [split; [apply _|..]|..].
  - intros str [c w] i [c' w'] H. unfold string_index in H. destruct (sm_get_or_insert _ _). by injection H as <- <- <-.
  - intros ty _ [c w] i [c' w'] H. unfold type_index in H. destruct (tm_get_or_insert _ _). by injection H as <- <- <-.
  - intros bs s a s' [= _ <-]. done.
  - intros data [c w] i [c' w'] H. by injection H as <- <- <-.
Qed.

Lemma records_0 {A} (f : WM A) : respects same_ids f -> records 0 f.
Proof. intros Hf s a s' pre l H E. exists []. split; [done|]. by rewrite (Hf _ _ _ H), E, app_nil_r. Qed.

Lemma records_bind {A B} j k (f : WM A) (g : A -> WM B) : records j f -> (forall a, records k (g a)) ->
  records (j + k) (f ≫= g).
Proof.
  intros Hf Hg s b s' pre l (a & s1 & H1 & H2)%WM_bind_Ok E.
  destruct (Hf _ _ _ _ _ H1 E) as (ids1 & L1 & E1), (Hg _ _ _ _ _ _ H2 E1) as (ids2 & L2 & E2).
  exists (ids1 ++ ids2). split; [rewrite length_app; lia|]. by rewrite E2, <- app_assoc.
Qed.

Lemma records_seq {A B} k (f : WM A) (g : A -> WM B) : respects same_ids f -> (forall a, records k (g a)) ->
  records k (f ≫= g).
Proof. intros Hf Hg. apply (records_bind 0 k); [by apply records_0|done]. Qed.

Lemma records_then {A B} k (f : WM A) (g : A -> WM B) : records k f -> (forall a, respects same_ids (g a)) ->
  records k (f ≫= g).
Proof.
  intros Hf Hg. rewrite <- (Nat.add_0_r k). apply records_bind; [done|]. intros a. by apply records_0.
Qed.

(** A lifted result decides how much the rest records. *)
Lemma records_lift {A B} k (o : outcome Error A) (g : A -> WM B) :
  (forall a, o = Ok a -> records k (g a)) -> records k (wlift o ≫= g).
Proof. intros Hg s b s' pre l (a & s1 & [E ->]%wlift_Ok & H)%WM_bind_Ok. by eapply Hg. Qed.

Lemma records_each {A} (count : A -> nat) (f : A -> WM unit) l : (forall x, records (count x) (f x)) ->
  records (total count l) (each f l).
Proof.
  intros Hf. induction l as [|x l IH]; [by apply records_0, respects_ret|]. cbn [total foldr].
  apply records_bind; [apply Hf|]. intros _. exact IH.
Qed.

Lemma push_last_app pre l x : push_last (pre ++ [l]) x = pre ++ [l ++ [x]].
Proof. induction pre as [|p pre IH]; [done|]. cbn. rewrite IH. by destruct pre. Qed.

Lemma records_location loc : records 1 (record_location loc).
Proof.
  intros [c w] [] [c' w'] pre l H E. unfold record_location, record_op in H. cbn [fst] in *.
  destruct (attr_for _ _ _ _) as [[t sm] id]. rewrite E in H.
  destruct (pre ++ [l]) as [|l0 ls] eqn:Ep; [by apply app_eq_nil in Ep as [_ ?]|]. cbn in H. injection H as <- <-.
  exists [id]. split; [done|]. change (push_last (l0 :: ls) id = pre ++ [l ++ [id]]). by rewrite <- Ep, push_last_app.
Qed.

Section ids.
Context (f16_bits bf16_bits : Z -> Z) (m : IRModule) (version : BytecodeVersion).

Lemma op_types_True op : op_types (fun _ => True) op.
Proof. split; apply Forall_forall; [done|]. intros e _. apply attr_all_True. Qed.

Lemma records_op_arm wr count op : (forall r, records (count r) (wr r)) ->
  records (if writes_regions (opcode op) then total count (regions op) else 0%nat)
    (op_arm f16_bits bf16_bits m version wr op).
Proof.
  intros Hwr. pose proof (op_types_True op) as Hop.
  destruct (writes_regions (opcode op)) eqn:E.
  - assert (Hr : records (total count (regions op)) (write_regions wr op)).
    { apply records_seq; [apply (respects_varint (T:=fun _ => True))|]. intros _. by apply records_each. }
    unfold op_arm. destruct (opcode op); try discriminate E;
      repeat first [exact Hr | apply records_seq; [unfold put_result_count; writer|intros _]].
  - rewrite (op_arm_no_regions f16_bits bf16_bits m version wr (fun _ => mret tt) op E).
    apply records_0, (respects_op_arm (T:=fun _ => True)); [intros; apply respects_ret|done].
Qed.

Lemma records_op_body wr count op : (forall r, records (count r) (wr r)) ->
  records (if writes_regions (opcode op) then total count (regions op) else 0%nat)
    (write_op_body f16_bits bf16_bits m version wr op).
Proof.
  intros Hwr. apply records_seq; [|intros _; by apply records_op_arm].
  apply respects_bind; [apply respects_lift|]. intros _. apply respects_each, Forall_forall. intros e _.
  destruct (attribute_feature _ _ _); [apply respects_lift|apply respects_ret].
Qed.

Lemma same_ids_define v : respects same_ids (define_value v).
Proof. intros [c w] [] s' H. by injection H as <-. Qed.

Lemma records_operation wr count o : (forall r, records (count r) (wr r)) ->
  records (op_count m count o) (write_operation f16_bits bf16_bits m version wr o).
Proof.
  intros Hwr. apply records_lift. intros op Ho. unfold op_count. rewrite Ho.
  change (S ?n) with (1 + n)%nat. apply records_bind; [apply records_location|]. intros _.
  apply records_seq; [by apply (respects_varint (T:=fun _ => True))|]. intros _.
  apply records_then; [by apply records_op_body|]. intros _. apply respects_each, Forall_forall. intros i _.
  unfold define_result. destruct (find_op_result _ _ _); [apply same_ids_define|apply respects_ret].
Qed.

Lemma records_block wr count b : (forall r, records (count r) (wr r)) ->
  records (block_count m count b) (write_block f16_bits bf16_bits m version wr b).
Proof.
  intros Hwr. apply records_seq; [by intros s n s' [= _ <-]|]. intros n.
  apply records_lift. intros blk Hb. unfold block_count. rewrite Hb.
  apply records_seq; [by apply (respects_varint (T:=fun _ => True))|]. intros _.
  apply records_seq; [|intros _].
  { apply respects_each, Forall_forall. intros a _.
    apply respects_bind; [by apply (respects_type (T:=fun _ => True))|intros; apply same_ids_define]. }
  apply records_seq; [by apply (respects_varint (T:=fun _ => True))|]. intros _.
  apply records_then; [apply records_each; intros o; by apply records_operation|]. intros _ [c w] [] s' H. by injection H as <-.
Qed.

Lemma records_region fuel r : records (region_count m fuel r) (write_region f16_bits bf16_bits m version fuel r).
Proof.
  revert r. induction fuel as [|fuel IH]; intros r; [by intros s a s' pre l H|]. cbn [write_region region_count].
  apply records_lift. intros bs Hr. rewrite Hr.
  apply records_seq; [by apply (respects_varint (T:=fun _ => True))|]. intros _.
  apply records_each. intros b. by apply records_block.
Qed.

Lemma records_function_body fuel f :
  records (function_count m fuel f) (write_function_body f16_bits bf16_bits m version fuel f).
Proof.
  apply records_lift. intros op Ho. unfold function_count. rewrite Ho.
  destruct (regions op) as [|r rs]; [by apply records_0, respects_ret|].
  apply records_lift. intros bs Hr. rewrite Hr. destruct bs as [|b bs]; [by apply records_0, respects_ret|].
  apply records_lift. intros blk Hb. unfold block_count. rewrite Hb. apply records_seq.
  { apply respects_each, Forall_forall. intros a _. apply same_ids_define. }
  intros _. apply records_each. intros o. apply records_operation, records_region.
Qed.
End ids.



(** ** An operation's own results inside its regions

    Both verifiers make an operation's results visible before they enter its
    regions; the writer numbers them after. A nested use of the enclosing
    operation's own result is therefore accepted by both and rejected by the
    writer. *)

Definition own_result_module : IRModule :=
  let '((r1, b1, _), m) := build_single_block_region [] (module_new "m") in
  let '((r2, b2, _), m) := build_single_block_region [tile_f32] m in
  let '((o1, res), m) := build (mkOperation Opcode.Loop [] [tile_f32] [] [r1] LocUnknown) m in
  let '((o2, _), m) := build (mkOperation Opcode.Continue res [] [] [] LocUnknown) m in
  let '((f, _), m) := build (mkOperation Opcode.Entry [] []
    [("sym_name"%string, AString "k"); ("function_type"%string, AType (TFunc [tile_f32] []))] [r2] LocUnknown) m in
  match (m ← module_append_op b1 o2 m; module_append_op b2 o1 m) with
  | Ok m => mkIRModule (m_name m) None (m_values m) (m_operations m) (m_blocks m) (m_regions m) [f] []
  | _ => m
  end.

Lemma own_result_not_written debug_attr :
  verify_dominance debug_attr own_result_module = Ok tt /\
  verify_bytecode_indices debug_attr own_result_module = Ok tt /\
  write_bytecode id id own_result_module =
    Err (BytecodeWrite "operand Value(1) not found in value map for op Continue").
Proof. split_and!; vm_compute; reflexivity. Qed.
