(* ===== verification/Decoder.v ===== *)
(** * Decoding bytecode (cutile-ir/src/bytecode/decoder.rs)

    The section collector, the global, function and debug section parsers and
    [decode_bytecode], which renders a whole bytecode file as text. *)

From S2P Require Import Prelude Enums Encoding IR Tables TypeTable.

(** ** Raw sections *)

(** [[Option<&[u8]>; NUM_SECTIONS]]: a later section of the same id wins, and
    unknown ids are dropped. *)
Definition RawSections : Type := gmap Z (list Z).

Definition sections_insert (id : Z) (payload : list Z) (s : RawSections) : RawSections :=
  if id <? NUM_SECTIONS then <[id := payload]> s else s.

Definition sections_get (sid : Section_t) (s : RawSections) : option (list Z) := s !! Section_.as_u8 sid.

(** The collecting loop: every round consumes at least the id byte. *)
Fixpoint collect_sections (fuel : nat) (s : RawSections) : RM RawSections :=
  match fuel with
  | O => panic
  | S fuel =>
      sh ← read_section_header;
      if sh_id sh =? Section_.as_u8 Section_.EndOfBytecode then mret s
      else
        payload ← read_bytes (data_len sh);
        collect_sections fuel (sections_insert (sh_id sh) payload s)
  end.

(** ** Globals *)

Definition show_bool (b : bool) : string := if b then "true" else "false".

Definition parse_global (strings types : list string) (version : BytecodeVersion) : RM string :=
  name_idx ← read_varint;
  type_idx ← read_varint;
  const_idx ← read_varint;
  alignment ← read_varint;
  suffix ← (if version_ge version V13_3 then
              b ← read_byte;
              c ← read_varint;
              mret (", " +:+ (if b =? 0 then "public" else if b =? 1 then "private" else "unknown")
                      +:+ ", constant=" +:+ show_bool (negb (c =? 0)))
            else mret EmptyString);
  mret ("@" +:+ prev_name strings name_idx +:+ " : " +:+ prev_name types type_idx +:+ " = const[" +:+ pretty const_idx
          +:+ "], align " +:+ pretty alignment +:+ suffix).

Definition parse_global_section (data : list Z) (strings types : list string) (version : BytecodeVersion)
    : outcome Error (list string) :=
  run (count ← read_varint;
       _ ← with_capacity count 24;
       read_many (Z.to_nat count) (parse_global strings types version)) data.

(** ** Functions *)

Definition line (s : string) : string := s +:+ String (Ascii.ascii_of_nat 10) EmptyString.

(** "Quick heuristic": the byte count. *)
Definition count_ops_in_body (data : list Z) : Z := zlen data.

Definition flag_set (flags : Z) (f : FunctionFlag.t) : bool := negb (Z.land flags (FunctionFlag.as_u8 f) =? 0).

Definition render_func (name sig : string) (flags_byte body_len op_count : Z) : string :=
  let kind := if flag_set flags_byte FunctionFlag.KindKernel then "entry"%string else "func"%string in
  line ("  " +:+ kind +:+ " @" +:+ name +:+ " : " +:+ sig)
  +:+ line ("    body: " +:+ pretty body_len +:+ " bytes, ~" +:+ pretty op_count +:+ " ops")
  +:+ (if flag_set flags_byte FunctionFlag.HasOptimizationHints then line "    [has optimization_hints]" else EmptyString).

(** The [if has_hints { .. }] block that should skip the hints has no
    statements. *)
Definition parse_func (strings types : list string) : RM string :=
  name_idx ← read_varint;
  sig_idx ← read_varint;
  flags_byte ← read_byte;
  _ ← read_varint;
  body_len ← read_varint;
  body_data ← read_bytes body_len;
  mret (render_func (prev_name strings name_idx) (prev_name types sig_idx) flags_byte body_len
          (count_ops_in_body body_data)).

Definition parse_func_section (data : list Z) (strings types : list string) : outcome Error (list string) :=
  run (count ← read_varint;
       _ ← with_capacity count 24;
       read_many (Z.to_nat count) (parse_func strings types)) data.

Section decode.
(** [{:?}] of a string: quoted and escaped. *)
Context (show_str : string -> string).

(** ** Debug info *)

Definition debug_string (strings : list string) (idx : Z) : string :=
  default "<bad string index>"%string (strings !! Z.to_nat idx).

Definition parse_debug_attr (strings : list string) : RM string :=
  tag ← read_byte;
  let is_tag t := tag =? DebugTag.as_u8 t in
  let s i := show_str (debug_string strings i) in
  if is_tag DebugTag.DIFile then
    name ← read_varint; dir ← read_varint;
    mret ("DIFile(name=" +:+ s name +:+ ", dir=" +:+ s dir +:+ ")")
  else if is_tag DebugTag.DICompileUnit then
    file ← read_varint; mret ("DICompileUnit(file=di[" +:+ pretty file +:+ "])")
  else if is_tag DebugTag.DILexicalBlock then
    scope ← read_varint; file ← read_varint; ln ← read_varint; col ← read_varint;
    mret ("DILexicalBlock(scope=di[" +:+ pretty scope +:+ "], file=di[" +:+ pretty file +:+ "], " +:+ pretty ln
            +:+ ":" +:+ pretty col +:+ ")")
  else if is_tag DebugTag.DILoc then
    scope ← read_varint; file ← read_varint; ln ← read_varint; col ← read_varint;
    mret ("DILoc(scope=di[" +:+ pretty scope +:+ "], " +:+ s file +:+ ":" +:+ pretty ln +:+ ":" +:+ pretty col +:+ ")")
  else if is_tag DebugTag.DISubprogram then
    file ← read_varint; ln ← read_varint; name ← read_varint; linkage ← read_varint; cu ← read_varint;
    scope_line ← read_varint;
    mret ("DISubprogram(file=di[" +:+ pretty file +:+ "], line=" +:+ pretty ln +:+ ", name=" +:+ s name +:+ ", linkage="
            +:+ s linkage +:+ ", cu=di[" +:+ pretty cu +:+ "], scope_line=" +:+ pretty scope_line +:+ ")")
  else if is_tag DebugTag.CallSite then
    callee ← read_varint; caller ← read_varint;
    mret ("CallSite(callee=di[" +:+ pretty callee +:+ "], caller=di[" +:+ pretty caller +:+ "])")
  else if is_tag DebugTag.Unknown then mret "Unknown"%string
  else fail (err ("unknown debug attribute tag " +:+ pretty tag)).

(** The attribute loop; [i] counts from one in the text. *)
Fixpoint debug_attrs (strings : list string) (attr_data : list Z) (i : Z) (offsets : list Z) : outcome Error string :=
  match offsets with
  | [] => Ok EmptyString
  | start :: rest =>
      let end_ := match rest with e :: _ => e | [] => zlen attr_data end in
      if (end_ <=? start) || (zlen attr_data <? end_) then Err (err "debug attribute offsets out of range")
      else
        text ← run (parse_debug_attr strings) (take (Z.to_nat (end_ - start)) (drop (Z.to_nat start) attr_data));
        more ← debug_attrs strings attr_data (i + 1) rest;
        Ok (line ("  di[" +:+ pretty (i + 1) +:+ "] = " +:+ text) +:+ more)
  end.

(** The per-function loop. *)
Fixpoint debug_functions (attr_ids : list Z) (num_indices i : Z) (offsets : list Z) : outcome Error string :=
  match offsets with
  | [] => Ok EmptyString
  | start :: rest =>
      let end_ := match rest with e :: _ => e | [] => num_indices end in
      if (end_ <? start) || (zlen attr_ids <? end_) then Err (err "debug index offsets out of range")
      else
        let ids := take (Z.to_nat (end_ - start)) (drop (Z.to_nat start) attr_ids) in
        more ← debug_functions attr_ids num_indices (i + 1) rest;
        Ok (line ("  fn " +:+ pretty i +:+ ": [" +:+ join ", " (pretty <$> (ids : list Z)) +:+ "]") +:+ more)
  end.

(** The capacities are capped by the payload, so only the reads can fail. *)
Definition read_debug_tables : RM (list Z * list Z * list Z * list Z) :=
  num_functions ← read_varint;
  _ ← skip_padding 4;
  index_offsets ← read_many (Z.to_nat num_functions) read_le_u32;
  num_indices ← read_varint;
  _ ← skip_padding 8;
  attr_ids ← read_many (Z.to_nat num_indices) read_le_u64;
  attr_count ← read_varint;
  _ ← skip_padding 4;
  attr_offsets ← read_many (Z.to_nat attr_count) read_le_u32;
  attr_data ← read_rest;
  mret (index_offsets, attr_ids, attr_offsets, attr_data).

Definition parse_debug_section (payload : list Z) (strings : list string) : outcome Error string :=
  tables ← run read_debug_tables payload;
  let '(index_offsets, attr_ids, attr_offsets, attr_data) := (tables : list Z * list Z * list Z * list Z) in
  attrs ← debug_attrs strings attr_data 0 attr_offsets;
  functions ← debug_functions attr_ids (zlen attr_ids) 0 index_offsets;
  Ok (line ("=== Debug (" +:+ pretty (zlen index_offsets) +:+ " functions) ===") +:+ attrs +:+ functions).

(** ** The whole file *)

Definition lines (l : list string) : string := foldr (fun s acc => line s +:+ acc) EmptyString l.

(** A titled, numbered list, omitted when empty. *)
Definition numbered (title : string) (l : list string) : string :=
  match l with
  | [] => EmptyString
  | _ => line ("=== " +:+ title +:+ " (" +:+ pretty (zlen l) +:+ ") ===")
           +:+ lines (imap (fun i s => "  [" +:+ pretty (Z.of_nat i) +:+ "] " +:+ s) l) +:+ line EmptyString
  end.

Definition producer_text (strings : list string) (payload : option (list Z)) : outcome Error string :=
  match payload with
  | None => Ok EmptyString
  | Some data =>
      index ← run read_varint data;
      name ← ok_or (strings !! Z.to_nat index) (BytecodeWrite "producer string index out of range");
      Ok (line "=== Producer ===" +:+ line ("  " +:+ show_str name) +:+ line EmptyString)
  end.

Definition globals_text (globals : list string) : string :=
  match globals with
  | [] => EmptyString
  | _ => line ("=== Globals (" +:+ pretty (zlen globals) +:+ ") ===")
           +:+ lines ((fun g => "  " +:+ g) <$> globals) +:+ line EmptyString
  end.

Definition functions_text (funcs : list string) : string :=
  line ("=== Functions (" +:+ pretty (zlen funcs) +:+ ") ===") +:+ lines funcs.

Definition opt_text {A} (o : option A) (f : A -> outcome Error string) : outcome Error string :=
  match o with Some a => f a | None => Ok EmptyString end.

Definition dump (version : BytecodeVersion) (sections : RawSections) : outcome Error string :=
  let get sid := sections_get sid sections in
  strings ← parse_string_section (get Section_.String);
  producer ← producer_text strings (get Section_.Producer);
  types ← parse_type_section (get Section_.Type_) version;
  constants ← parse_constant_section (get Section_.Constant);
  globals ← opt_text (get Section_.Global) (fun payload =>
    gs ← parse_global_section payload strings types version; Ok (globals_text gs));
  funcs ← opt_text (get Section_.Func) (fun payload =>
    fs ← parse_func_section payload strings types; Ok (functions_text fs));
  debug ← opt_text (get Section_.Debug) (fun payload => parse_debug_section payload strings);
  Ok (line ("TileIR bytecode v" +:+ show_version version) +:+ line EmptyString
      +:+ numbered "Strings" (show_str <$> (strings : list string)) +:+ producer
      +:+ numbered "Types" types
      +:+ numbered "Constants" ((fun c => pretty (zlen c) +:+ " bytes") <$> (constants : list (list Z)))
      +:+ globals +:+ funcs +:+ debug).

Definition buffer_size : RM nat := fun r => (Ok (length (data r)), r).

Definition read_file : RM (BytecodeVersion * RawSections) :=
  version ← read_header;
  size ← buffer_size;
  sections ← collect_sections (S size) ∅;
  mret (version, sections).

Definition decode_bytecode (data : list Z) : outcome Error string :=
  vs ← run read_file data;
  dump (vs : BytecodeVersion * RawSections).1 vs.2.
End decode.
