(* ===== verification/Roundtrip.v ===== *)
(** * Decoding what was written

    The bytecode of a module, read back by [decode_bytecode]: every section
    is found where the writer put it, the tables decode to what was interned,
    and the globals and functions are listed with the names and types the
    module gave them. *)

From S2P Require Import Prelude Enums Encoding IR Tables TypeTable Module Writer OpWriter ModuleWriter WriterFacts Decoder.

(** ** Sections *)

(** One section of the file: its id, its alignment and its payload, if it is
    written at all. *)
Definition FileSection : Type := Section_t * Z * option (list Z).

Definition put_section (out : list Z) (sec : FileSection) : list Z :=
  match sec with
  | (sid, al, Some b) => write_section_header out sid (zlen b) al ++ b
  | (_, _, None) => out
  end.

Definition collect (s : RawSections) (sec : FileSection) : RawSections :=
  match sec with
  | (sid, _, Some b) => sections_insert (Section_.as_u8 sid) b s
  | (_, _, None) => s
  end.

Definition section_ok (sec : FileSection) : Prop := sec.1.1 <> Section_.EndOfBytecode /\ in_u64 sec.1.2.

Lemma header_prefix out sid len al : exists hdr, write_section_header out sid len al = out ++ hdr.
Proof. unfold write_section_header. destruct (1 <? al); rewrite <- ?app_assoc; by eexists. Qed.

Lemma put_sections_prefix out ss : exists t, foldl put_section out ss = out ++ t.
Proof.
  revert out. induction ss as [|[[sid al] [b|]] ss IH]; intros out; cbn; [exists []; by rewrite app_nil_r| |apply IH].
  destruct (header_prefix out sid (zlen b) al) as [hdr ->]. destruct (IH ((out ++ hdr) ++ b)) as [t ->].
  exists (hdr ++ b ++ t). by rewrite <- !app_assoc.
Qed.

Lemma fits_app_l l k : fits (l ++ k) -> fits l.
Proof. unfold fits. rewrite zlen_app. pose proof (zlen_nonneg k). lia. Qed.

Lemma fits_app_r l k : fits (l ++ k) -> fits k.
Proof. unfold fits. rewrite zlen_app. pose proof (zlen_nonneg l). lia. Qed.

Lemma reads_end_header :
  reads read_section_header [Section_.as_u8 Section_.EndOfBytecode]
    (mkSectionHeader (Section_.as_u8 Section_.EndOfBytecode) 0).
Proof.
  unfold read_section_header. rewrite <- (app_nil_r [_]). eapply reads_bind; [apply reads_byte|]. apply reads_ret.
Qed.

(** The collecting loop reads the sections back in order. *)
Lemma collect_sections_put ss out s t fuel : Forall section_ok ss ->
  foldl put_section out ss = out ++ t -> fits (out ++ t ++ [Section_.as_u8 Section_.EndOfBytecode]) ->
  (length ss < fuel)%nat ->
  (collect_sections fuel s (at_ out (t ++ [Section_.as_u8 Section_.EndOfBytecode]))).1 = Ok (foldl collect s ss).
Proof.
  intros Hss. revert out s t fuel. induction Hss as [|[[sid al] o] ss [Hsid Hal] Hss IH]; intros out s t fuel Ht Hf Hfuel;
    (destruct fuel as [|fuel]; [lia|]).
  - cbn [foldl] in Ht. rewrite <- (app_nil_r out) in Ht at 1. apply app_inv_head in Ht as <-. cbn [app] in *.
    cbn [collect_sections]. erewrite RM_bind_Ok; [|by apply (reads_end_header out)]. done.
  - cbn [foldl length] in *. destruct o as [b|]; [|apply (IH out s t (S fuel) Ht Hf); lia].
    cbn [put_section] in Ht. destruct (header_prefix out sid (zlen b) al) as [hdr Eh].
    destruct (put_sections_prefix ((out ++ hdr) ++ b) ss) as [t' Et]. rewrite Eh in Ht.
    assert (t = hdr ++ b ++ t') as ->.
    { apply (app_inv_head out). rewrite <- Ht, Et. by rewrite <- !app_assoc. }
    rewrite <- !app_assoc in Hf. rewrite <- !app_assoc. cbn [collect_sections].
    assert (in_u64 (zlen b)) as Hb.
    { unfold fits in Hf. rewrite !zlen_app in Hf. pose proof (zlen_nonneg out). pose proof (zlen_nonneg hdr).
      pose proof (zlen_nonneg t'). pose proof (zlen_nonneg b).
      pose proof (zlen_nonneg [Section_.as_u8 Section_.EndOfBytecode]). unfold_int. lia. }
    erewrite RM_bind_Ok; [|by apply (reads_section_header out sid (zlen b) al hdr)]. cbn [sh_id data_len].
    destruct (section_byte sid false Hsid) as (_ & _ & ->).
    erewrite RM_bind_Ok; [|apply (reads_bytes b); by rewrite <- app_assoc].
    apply (IH ((out ++ hdr) ++ b)); [done|by rewrite <- !app_assoc|lia].
Qed.

(** What a section lookup finds: each id is collected at most once. *)
Lemma collect_get_ne s sec sid : sec.1.1 <> sid -> sections_get sid (collect s sec) = sections_get sid s.
Proof.
  destruct sec as [[sid' al] [b|]]; [|done]. cbn. intros H. unfold sections_get, sections_insert.
  destruct (_ <? _); [|done]. apply lookup_insert_ne. intros E. apply H. by destruct sid, sid'.
Qed.

Lemma collect_get_eq s sid al o : sections_get sid s = None -> sections_get sid (collect s (sid, al, o)) = o.
Proof.
  destruct o as [b|]; [|done]. cbn. intros _. unfold sections_get, sections_insert.
  assert (Section_.as_u8 sid <? NUM_SECTIONS = true) as -> by (by destruct sid). apply lookup_insert_eq.
Qed.

(** ** Table sections *)

Lemma patch_zlen n b o v b' : patch n b o v = Ok b' -> zlen b' = zlen b.
Proof.
  unfold patch. destruct (Z.ltb_spec o 0); [done|]. cbn. destruct (Z.ltb_spec (zlen b) (o + Z.of_nat n)); [done|].
  cbn. intros [= <-]. rewrite !zlen_app, zlen_le_bytes. unfold zlen in *. rewrite length_take, length_drop.
  lia.
Qed.

Lemma patch_loop_zlen n b p i offs b' : patch_loop n b p i offs = Ok b' -> zlen b' = zlen b.
Proof.
  revert b i. induction offs as [|o offs IH]; intros b i; cbn; [by intros [= <-]|].
  intros (b1 & H1 & H2)%bind_Ok. by rewrite (IH _ _ H2), (patch_zlen _ _ _ _ _ H1).
Qed.

Lemma append_entries_bytes n run es w : (append_entries n run es w).2 = write_bytes (concat es) w.
Proof.
  revert run w. induction es as [|e es IH]; intros run w; cbn; [by rewrite write_bytes_nil|].
  specialize (IH ((run + zlen e) mod 256 ^ Z.of_nat n) (write_bytes e w)).
  destruct (append_entries n _ es _) as [offs w']. cbn in *. by rewrite IH, write_bytes_app.
Qed.

(** Whatever the offsets, the entries themselves are in the file. *)
Lemma table_section_size sid n out es out' : write_table_section sid n out es = Ok out' ->
  zlen (concat es) <= zlen out'.
Proof.
  unfold write_table_section. destruct es as [|e es]; [intros [= <-]; apply zlen_nonneg|].
  set (es' := e :: es). intros H. pose proof (append_entries_bytes n 0 es'
    (Nat.iter (length es') (write_bytes (le_bytes n 0)) (align_to (Z.of_nat n) (write_varint (zlen es') writer_new)))) as Hb.
  destruct (append_entries n 0 es' _) as [offs w']. cbn in Hb. subst w'.
  apply bind_Ok in H as (b & Hp & H). apply Ok_inj in H as <-. apply patch_loop_zlen in Hp.
  unfold write_bytes at 1 in Hp. cbn [buf] in Hp. rewrite zlen_app in Hp. rewrite zlen_app.
  match type of Hp with _ = zlen ?l + _ => pose proof (zlen_nonneg l) end.
  pose proof (zlen_nonneg (write_section_header out sid (zlen b) (Z.of_nat n))).
  change (concat es') with (e ++ concat es). lia.
Qed.

(** The payload of a table section; an empty table has no section. *)
Definition table_section (n : nat) (es : list (list Z)) : option (list Z) :=
  match es with [] => None | _ => Some (table_payload n es) end.

Lemma table_section_put sid n out es out' : (4 <= n)%nat -> write_table_section sid n out es = Ok out' ->
  zlen out' <= U32_MAX -> out' = put_section out (sid, Z.of_nat n, table_section n es).
Proof.
  intros Hn H Hs. destruct es as [|e es]; [by injection H as <-|].
  pose proof (table_section_size _ _ _ _ _ H) as Hsz.
  rewrite write_table_section_spec in H; [by apply Ok_inj in H as <-|done|lia|].
  assert (256 ^ 4 <= 256 ^ Z.of_nat n) by (apply Z.pow_le_mono_r; lia). unfold U32_MAX in Hs. lia.
Qed.

Lemma payload_entries n es : zlen es * Z.of_nat n <= zlen (table_payload n es).
Proof.
  unfold table_payload. rewrite !zlen_app.
  assert (zlen (concat (le_bytes n <$> offsets_from 0 es)) = zlen es * Z.of_nat n) as ->.
  { unfold zlen. rewrite <- (offsets_from_length 0 es). induction (offsets_from 0 es) as [|o l IH]; [done|].
    cbn. rewrite length_app, le_bytes_length. lia. }
  pose proof (zlen_nonneg (varint (zlen es))). pose proof (zlen_nonneg (concat es)).
  pose proof (zlen_nonneg (pad_bytes (Z.of_nat n) (zlen (varint (zlen es))))). lia.
Qed.

Lemma put_section_payload out sid al b : zlen b <= zlen (put_section out (sid, al, Some b)).
Proof. cbn. rewrite zlen_app. pose proof (zlen_nonneg (write_section_header out sid (zlen b) al)). lia. Qed.

(** A table section that fits a 32-bit file parses back to its entries. *)
Lemma table_section_parses n out sid es : (4 <= n <= 8)%nat ->
  zlen (put_section out (sid, Z.of_nat n, table_section n es)) <= U32_MAX ->
  forall p, table_section n es = Some p -> run (parse_table n) p = Ok es.
Proof.
  intros Hn Hs p Hp. unfold table_section in *. destruct es as [|e es]; [done|]. injection Hp as <-.
  set (es' := e :: es) in *.
  pose proof (put_section_payload out sid (Z.of_nat n) (table_payload n es')) as Hb.
  pose proof (payload_entries n es') as He. unfold U32_MAX in Hs.
  pose proof (zlen_nonneg es') as Hnn.
  assert (Hc : zlen (concat es') <= zlen (table_payload n es')).
  { unfold table_payload. rewrite !zlen_app. pose proof (zlen_nonneg (varint (zlen es'))).
    pose proof (zlen_nonneg (concat (le_bytes n <$> offsets_from 0 es'))).
    pose proof (zlen_nonneg (pad_bytes (Z.of_nat n) (zlen (varint (zlen es'))))). lia. }
  apply parse_table_payload; [done|lia| |unfold_int; nia|unfold fits; unfold_int; lia].
  assert (256 ^ 4 <= 256 ^ Z.of_nat n) by (apply Z.pow_le_mono_r; lia). lia.
Qed.

(** A string as the reader shows it; a valid string is unchanged. *)
Definition decoded (s : string) : string := from_utf8_or (as_bytes s) "<invalid utf8>".

Lemma decoded_valid s : utf8_valid (as_bytes s) = true -> decoded s = s.
Proof. intros H. unfold decoded, from_utf8_or. by rewrite H, of_as_bytes. Qed.

Definition string_section (sm : StringManager) : option (list Z) := table_section 4 (as_bytes <$> sm_strings sm).

Lemma string_section_put out sm out' : write_string_section out sm = Ok out' -> zlen out' <= U32_MAX ->
  out' = put_section out (Section_.String, 4, string_section sm).
Proof.
  intros H Hs. apply (table_section_put _ 4); [lia| |done]. rewrite <- H. unfold write_string_section, sm_strings.
  by rewrite <- list_fmap_compose.
Qed.

Lemma string_section_parses out sm : zlen (put_section out (Section_.String, 4, string_section sm)) <= U32_MAX ->
  parse_string_section (string_section sm) = Ok (decoded <$> sm_strings sm).
Proof.
  intros Hs. pose proof (table_section_parses 4 out _ _ ltac:(lia) Hs) as Hp. unfold string_section in *.
  destruct (table_section 4 _) as [p|] eqn:E.
  - cbn [parse_string_section]. rewrite (Hp p eq_refl). cbn. by rewrite <- list_fmap_compose.
  - destruct (sm_strings sm); [done|]. discriminate E.
Qed.

Definition constant_section (cm : ConstantManager) : option (list Z) := table_section 8 (cm_entries cm).

Lemma constant_section_parses out cm : zlen (put_section out (Section_.Constant, 8, constant_section cm)) <= U32_MAX ->
  parse_constant_section (constant_section cm) = Ok (cm_entries cm).
Proof.
  intros Hs. pose proof (table_section_parses 8 out _ _ ltac:(lia) Hs) as Hp. unfold constant_section in *.
  destruct (table_section 8 _) as [p|] eqn:E; [by apply Hp|]. destruct (cm_entries cm); [done|]. discriminate E.
Qed.

Lemma serialize_all_bytes tm v tys run w r : tm_wf tm -> (forall t, t ∈ tys -> t ∈ tm_list tm) ->
  serialize_all tys run tm w v = Ok r -> r.2 = write_bytes (concat (entry_bytes tm v <$> tys)) w.
Proof.
  intros Hw. revert run w r. induction tys as [|ty tys IH]; intros run w r Hin H; cbn [serialize_all] in H.
  { injection H as <-. cbn. by rewrite write_bytes_nil. }
  apply bind_Ok in H as (tw & Hs & H). apply serialize_known in Hs as ->; [|done|apply Hin; left].
  apply bind_Ok in H as (ow & Hrec & H). apply Ok_inj in H as <-. cbn [snd fmap list_fmap concat].
  apply IH in Hrec as ->; [|intros; apply Hin; by right]. by rewrite write_bytes_app.
Qed.

Lemma type_section_size tm v out out' : tm_wf tm -> write_type_section out tm v = Ok out' ->
  zlen (concat (entry_bytes tm v <$> tm_list tm)) <= zlen out'.
Proof.
  intros Hw H. unfold write_type_section in H. destruct (tm_list tm) as [|t0 l0] eqn:El.
  { injection H as <-. apply zlen_nonneg. }
  rewrite <- El in *. clear El t0 l0.
  apply bind_Ok in H as ([offs w] & Hs & H). apply (serialize_all_bytes tm v) in Hs; [|done..]. cbn [snd] in Hs. subst w.
  apply bind_Ok in H as (b & Hl & H). apply Ok_inj in H as <-. apply patch_loop_zlen in Hl.
  unfold write_bytes at 1 in Hl. cbn [buf] in Hl. rewrite zlen_app in Hl. rewrite zlen_app.
  match type of Hl with _ = zlen ?l + _ => pose proof (zlen_nonneg l) end.
  pose proof (zlen_nonneg (write_section_header out Section_.Type_ (zlen b) 4)). lia.
Qed.

Definition type_section (tm : TypeManager) (v : BytecodeVersion) : option (list Z) :=
  table_section 4 (entry_bytes tm v <$> tm_list tm).

Lemma type_section_ok tm v out out' : tm_wf tm -> Forall type_ok (tm_list tm) ->
  write_type_section out tm v = Ok out' -> zlen out' <= U32_MAX ->
  out' = put_section out (Section_.Type_, 4, type_section tm v) /\
  parse_type_section (type_section tm v) v = Ok (type_text None <$> tm_list tm).
Proof.
  intros Hw Hok H Hs. pose proof (type_section_size _ _ _ _ Hw H) as Hsz. unfold type_section.
  destruct (tm_list tm) as [|t0 l0] eqn:El.
  { unfold write_type_section in H. rewrite El in H. by injection H as <-. }
  rewrite <- El in *. assert (Hne : tm_list tm <> []) by (by rewrite El). clear El t0 l0.
  destruct (write_type_section_spec tm Hw v out out' Hne ltac:(unfold U32_MAX in Hs; lia) H) as [E Henc].
  assert (Ets : table_section 4 (entry_bytes tm v <$> tm_list tm) = Some (table_payload 4 (entry_bytes tm v <$> tm_list tm)))
    by (by destruct (tm_list tm)).
  rewrite Ets. assert (Hput : out' = put_section out (Section_.Type_, 4, Some (table_payload 4 (entry_bytes tm v <$> tm_list tm))))
    by exact E. split; [done|]. cbn [parse_type_section].
  assert (Hs' : zlen (put_section out (Section_.Type_, Z.of_nat 4, table_section 4 (entry_bytes tm v <$> tm_list tm))) <= U32_MAX)
    by (rewrite Ets; change (Z.of_nat 4) with 4; by rewrite <- Hput).
  rewrite (table_section_parses 4 out Section_.Type_ _ ltac:(lia) Hs' _ Ets). cbn.
  rewrite Ets in Hs'. pose proof (put_section_payload out Section_.Type_ 4 (table_payload 4 (entry_bytes tm v <$> tm_list tm))) as Hp.
  pose proof (payload_entries 4 (entry_bytes tm v <$> tm_list tm)) as Hpe.
  assert (zlen (entry_bytes tm v <$> tm_list tm) = zlen (tm_list tm)) as Ez by (unfold zlen; by rewrite length_fmap).
  change (Z.of_nat 4) with 4 in *. unfold U32_MAX in Hs'. pose proof (zlen_nonneg (tm_list tm)).
  apply (decode_entries_spec tm Hw v [] (tm_list tm)); try done; [unfold_int; lia|].
  assert (Hf : Forall fits (entry_bytes tm v <$> tm_list tm)).
  { eapply fits_entries. unfold fits. unfold_int. etrans; [exact Hp|]. lia. }
  by rewrite Forall_fmap in Hf.
Qed.

Section parse.
Context (c : WriterCtx) (v : BytecodeVersion).
(** Both tables have fewer than 2^32 entries. *)
Context (Hstr : zlen (sm_strings (strings c)) <= U32_MAX) (Hty : zlen (tm_list (types c)) <= U32_MAX).

Notation strs := (decoded <$> sm_strings (strings c)).
Notation tys := (type_text None <$> tm_list (types c)).

Lemma knows_string_u64 i str : knows_string c i str -> in_u64 i.
Proof. intros [Hi Hl%lookup_lt_Some]. unfold zlen in Hstr. unfold_int. lia. Qed.

Lemma knows_type_u64 i ty : knows_type c i ty -> in_u64 i.
Proof. intros [Hi Hl%lookup_lt_Some]. unfold zlen in Hty. unfold_int. lia. Qed.

Lemma knows_string_name i str : knows_string c i str -> prev_name strs i = decoded str.
Proof. intros [Hi Hl]. unfold prev_name. by rewrite list_lookup_fmap, Hl. Qed.

Lemma knows_type_name i ty : knows_type c i ty -> prev_name tys i = type_text None ty.
Proof. intros [Hi Hl]. unfold prev_name. by rewrite list_lookup_fmap, Hl. Qed.

(** *** Globals *)

Definition visibility_text (vis : SymbolVisibility) : string :=
  match vis with Public => "public" | Private => "private" end.

(** The line the dump shows for a global. *)
Definition global_line (k : Z) (g : Global) : string :=
  "@" +:+ decoded (sym_name g) +:+ " : " +:+ type_text None (de_element_type (g_value g)) +:+ " = const["
    +:+ pretty k +:+ "], align " +:+ pretty (g_alignment g)
    +:+ (if version_ge v V13_3
         then ", " +:+ visibility_text (symbol_visibility g) +:+ ", constant=" +:+ show_bool (g_constant g)
         else EmptyString).

Definition global_bytes (ni ti ci : Z) (g : Global) : list Z :=
  varint ni ++ varint ti ++ varint ci ++ varint (g_alignment g) ++
    (if version_ge v V13_3 then [visibility_u8 (symbol_visibility g)] ++ varint (bool_as (g_constant g)) else []).

Definition global_record (k : Z) (g : Global) (bs : list Z) : Prop :=
  exists ni ti, bs = global_bytes ni ti k g /\ knows_string c ni (sym_name g) /\
    knows_type c ti (de_element_type (g_value g)).

Lemma reads_global k g bs : in_u64 k -> in_u64 (g_alignment g) -> global_record k g bs ->
  reads (parse_global strs tys v) bs (global_line k g).
Proof.
  intros Hk Ha (ni & ti & -> & Hn & Ht). unfold parse_global, global_bytes.
  eapply reads_bind; [apply reads_varint; by eapply knows_string_u64|].
  eapply reads_bind; [apply reads_varint; by eapply knows_type_u64|].
  eapply reads_bind; [by apply reads_varint|]. eapply reads_bind; [by apply reads_varint|].
  rewrite (knows_string_name _ _ Hn), (knows_type_name _ _ Ht). unfold global_line.
  set (suffix := if version_ge v V13_3 then _ else EmptyString).
  rewrite <- (app_nil_r (if version_ge v V13_3 then _ else [])).
  apply (reads_bind _ _ _ _ suffix); [|apply reads_ret].
  subst suffix. destruct (version_ge v V13_3); [|apply reads_ret].
  eapply reads_bind; [apply reads_byte|]. rewrite <- (app_nil_r (varint _)).
  eapply reads_bind; [apply reads_varint; destruct (g_constant g); unfold_int; cbn; lia|].
  destruct (symbol_visibility g), (g_constant g); apply reads_ret.
Qed.
End parse.

Lemma global_record_ext c c' v k g bs : ctx_ext c c' -> global_record c v k g bs -> global_record c' v k g bs.
Proof.
  intros X (ni & ti & E & Hn & Ht). exists ni, ti.
  split_and!; [done|by eapply knows_string_ext|by eapply knows_type_ext].
Qed.

Lemma when_require_Ok b o s s' : when b (wlift o) s = Ok (tt, s') -> s' = s.
Proof. destruct b; cbn; [by intros [_ ->]%wlift_Ok|by intros [= <-]]. Qed.

(** Invert a successful sequence into its first step and the rest. *)
Ltac wm_step H x s E := apply WM_bind_Ok in H as (x & s & E & H).

Lemma put_varint_Ok x s a s' : put_varint x s = Ok (a, s') -> s' = (s.1, write_bytes (varint x) s.2).
Proof. by intros [= _ <-]. Qed.

Lemma put_byte_Ok x s a s' : put_byte x s = Ok (a, s') -> s' = (s.1, write_bytes [x] s.2).
Proof. by intros [= _ <-]. Qed.

Lemma constant_index_Ok data s i s' : constant_index data s = Ok (i, s') ->
  i = zlen (cm_entries (constants s.1)) /\ s'.2 = s.2 /\
  cm_entries (constants s'.1) = cm_entries (constants s.1) ++ [data] /\
  strings s'.1 = strings s.1 /\ types s'.1 = types s.1.
Proof. destruct s as [c w]. by intros [= <- <-]. Qed.

Lemma put_constant_Ok data s a s' : put_constant data s = Ok (a, s') ->
  exists c, s' = (c, write_bytes (varint (zlen (cm_entries (constants s.1)))) s.2) /\
  constant_index (varint (zlen data) ++ data) s = Ok (zlen (cm_entries (constants s.1)), (c, s.2)).
Proof.
  intros (i & [c w] & H & ->%put_varint_Ok)%WM_bind_Ok. pose proof (constant_index_Ok _ _ _ _ H) as (-> & E & _).
  cbn [fst snd] in *. subst w. by exists c.
Qed.

(** The optional tail of a global. *)
Lemma global_tail_Ok v g s s' :
  when (version_ge v V13_3) (_ ← put_byte (visibility_u8 (symbol_visibility g)); put_varint (bool_as (g_constant g))) s
    = Ok (tt, s') ->
  s' = (s.1, write_bytes (if version_ge v V13_3
                          then [visibility_u8 (symbol_visibility g)] ++ varint (bool_as (g_constant g)) else []) s.2).
Proof.
  destruct (version_ge v V13_3); cbn [when].
  - intros ([] & s1 & ->%put_byte_Ok & ->%put_varint_Ok)%WM_bind_Ok. cbn [fst snd]. by rewrite write_bytes_app.
  - intros [= <-]. rewrite write_bytes_nil. by destruct s.
Qed.

Lemma write_global_spec v g s s' : ctx_wf s.1 -> deep_ok (de_element_type (g_value g)) ->
  write_global v g s = Ok (tt, s') ->
  ctx_wf s'.1 /\ ctx_ext s.1 s'.1 /\
  zlen (cm_entries (constants s'.1)) = zlen (cm_entries (constants s.1)) + 1 /\
  exists bs, s'.2 = write_bytes bs s.2 /\ global_record s'.1 v (zlen (cm_entries (constants s.1))) g bs.
Proof.
  intros Hw Hty H. unfold write_global in H.
  wm_step H u1 s1 E1. destruct u1. apply when_require_Ok in E1 as ->.
  wm_step H u2 s2 E2. destruct u2. apply when_require_Ok in E2 as ->.
  wm_step H u3 s3 E3. apply WM_bind_Ok in E3 as (ni & s3' & E3 & E3'). apply put_varint_Ok in E3' as ->.
  destruct (string_index_knows _ _ _ _ Hw E3) as (W3 & X3 & B3 & K3 & C3). clear E3.
  wm_step H u4 s4 E4. apply WM_bind_Ok in E4 as (ti & s4' & E4 & E4'). apply put_varint_Ok in E4' as ->.
  destruct (type_index_knows (s3'.1, _) _ _ _ W3 Hty E4) as (W4 & X4 & B4 & K4 & C4). clear E4.
  cbn [fst snd] in *.
  wm_step H u5 s5 E5. apply put_constant_Ok in E5 as (c5 & -> & E5).
  pose proof (wr_constant (R:=grows) _ _ _ _ E5 W4) as (W5 & X5 & _).
  apply constant_index_Ok in E5 as (_ & _ & C5 & _). cbn [fst snd] in *.
  wm_step H u6 s6 E6. apply put_varint_Ok in E6 as ->. apply global_tail_Ok in H as ->. cbn [fst snd] in *.
  rewrite C4, C3 in *. pose proof (ctx_ext_trans _ _ _ X3 (ctx_ext_trans _ _ _ X4 X5)) as X.
  split_and!; [done|done|rewrite C5, zlen_app; done|].
  eexists. split; [rewrite B4; cbn [snd]; rewrite B3, !write_bytes_app; reflexivity|].
  exists ni, ti. split; [unfold global_bytes; by rewrite <- ?app_assoc|].
  split; [exact (knows_string_ext _ _ _ _ (ctx_ext_trans _ _ _ X4 X5) K3)|exact (knows_type_ext _ _ _ _ X5 K4)].
Qed.

(** Pair each element with its position, counting from [k]. *)
Fixpoint number {A} (k : Z) (l : list A) : list (Z * A) :=
  match l with
  | [] => []
  | a :: l => (k, a) :: number (k + 1) l
  end.

Lemma number_length {A} k (l : list A) : length (number k l) = length l.
Proof. revert k. induction l; intros; cbn; auto. Qed.

Lemma number_bounds {A} k (l : list A) x : 0 <= k -> x ∈ number k l -> 0 <= x.1 < k + zlen l /\ x.2 ∈ l.
Proof.
  revert k. induction l as [|a l IH]; intros k Hk; cbn [number]; [by intros ?%elem_of_nil|].
  pose proof (zlen_nonneg l). rewrite zlen_cons.
  intros [->|Hx]%elem_of_cons; cbn; [split; [lia|by left]|].
  destruct (IH (k + 1) ltac:(lia) Hx). split; [lia|by right].
Qed.

Lemma reads_many2 {A} (m : RM A) bss xs : Forall2 (fun bs x => reads m bs x) bss xs ->
  reads (read_many (length xs) m) (concat bss) xs.
Proof.
  induction 1 as [|bs x bss xs Hx _ IH]; cbn; [apply reads_ret|].
  eapply reads_bind; [exact Hx|]. apply (reads_map _ (cons x)), IH.
Qed.

(** A counted list of records. *)
Lemma reads_counted {A} (m : RM A) bss xs : zlen xs <= U32_MAX -> Forall2 (fun bs x => reads m bs x) bss xs ->
  reads (count ← read_varint; _ ← with_capacity count 24; read_many (Z.to_nat count) m)
    (varint (zlen xs) ++ concat bss) xs.
Proof.
  intros Hn H. pose proof (zlen_nonneg xs). unfold U32_MAX in Hn.
  eapply reads_bind; [apply reads_varint; unfold_int; lia|].
  rewrite <- (app_nil_l (concat bss)). eapply (reads_bind _ _ _ _ tt).
  - unfold with_capacity. destruct (Z.ltb_spec ISIZE_MAX (zlen xs * 24)); [unfold_int; lia|]. apply reads_ret.
  - rewrite to_nat_zlen. by apply reads_many2.
Qed.

Lemma write_globals_spec v gs s s' : ctx_wf s.1 -> Forall (fun g => deep_ok (de_element_type (g_value g))) gs ->
  each (write_global v) gs s = Ok (tt, s') ->
  ctx_wf s'.1 /\ ctx_ext s.1 s'.1 /\
  exists bss, s'.2 = write_bytes (concat bss) s.2 /\
    Forall2 (fun bs kg => global_record s'.1 v kg.1 kg.2 bs) bss (number (zlen (cm_entries (constants s.1))) gs).
Proof.
  intros Hw Hgs. revert s Hw. induction Hgs as [|g gs Hg Hgs IH]; intros s Hw H.
  - injection H as <-. split_and!; [done|apply ctx_ext_refl|]. exists []. split; [by rewrite write_bytes_nil|constructor].
  - apply WM_bind_Ok in H as ([] & s1 & H1 & H).
    destruct (write_global_spec v g s s1 Hw Hg H1) as (W1 & X1 & C1 & bs & B1 & R1).
    destruct (IH s1 W1 H) as (W & X & bss & B & R). split_and!; [done|by eapply ctx_ext_trans|].
    exists (bs :: bss). split; [by rewrite B, B1, write_bytes_app|]. cbn [number]. constructor.
    + by eapply global_record_ext.
    + by rewrite <- C1.
Qed.

(** ** Functions *)

(** The name, type and kind of a function, as its attributes give them. *)
Record FunctionInfo := mkFunctionInfo { fi_op : Operation; fi_name : string; fi_type : IRType }.

Definition function_info (m : IRModule) (f : Z) (i : FunctionInfo) : Prop :=
  get_op m f = Ok (fi_op i) /\ find_string_attr (attributes (fi_op i)) "sym_name" = Some (fi_name i) /\
  find_type_attr (attributes (fi_op i)) "function_type" = Some (fi_type i).

(** The text the dump shows for a function whose body takes [len] bytes. *)
Definition function_line (i : FunctionInfo) (len : Z) : string :=
  render_func (decoded (fi_name i)) (type_text None (fi_type i)) (function_flags (fi_op i)) len len.

Definition function_record (c : WriterCtx) (i : FunctionInfo) (body bs : list Z) : Prop :=
  exists ni si di, bs = varint ni ++ varint si ++ [function_flags (fi_op i)] ++ varint di ++ varint (zlen body) ++ body /\
    knows_string c ni (fi_name i) /\ knows_type c si (fi_type i) /\ 0 <= di <= zlen (per_function (debug c)).

Lemma function_record_ext c c' i body bs : ctx_ext c c' -> function_record c i body bs -> function_record c' i body bs.
Proof.
  intros X (ni & si & di & E & Hn & Ht & Hd). exists ni, si, di.
  split_and!; [done|by eapply knows_string_ext|by eapply knows_type_ext|lia|].
  destruct X as (_ & _ & _ & X). unfold zlen in *. lia.
Qed.

Lemma reads_function c i body bs : zlen (sm_strings (strings c)) <= U32_MAX ->
  zlen (tm_list (types c)) <= U32_MAX -> zlen (per_function (debug c)) <= U32_MAX -> zlen body <= U32_MAX ->
  function_record c i body bs ->
  reads (parse_func (decoded <$> sm_strings (strings c)) (type_text None <$> tm_list (types c))) bs
    (function_line i (zlen body)).
Proof.
  intros H1 H2 H3 H4 (ni & si & di & -> & Hn & Ht & Hd). pose proof (zlen_nonneg body). unfold parse_func.
  eapply reads_bind; [apply reads_varint; by eapply knows_string_u64|].
  eapply reads_bind; [apply reads_varint; by eapply knows_type_u64|].
  eapply reads_bind; [apply reads_byte|].
  eapply reads_bind; [apply reads_varint; unfold U32_MAX in *; unfold_int; lia|].
  eapply reads_bind; [apply reads_varint; unfold U32_MAX in *; unfold_int; lia|].
  rewrite <- (app_nil_r body) at 2. eapply reads_bind; [apply reads_bytes|].
  rewrite (knows_string_name _ _ _ Hn), (knows_type_name _ _ _ Ht). apply reads_ret.
Qed.

Lemma find_type_attr_elem attrs name ty : find_type_attr attrs name = Some ty -> exists k, (k, AType ty) ∈ attrs.
Proof.
  unfold find_type_attr. induction attrs as [|[k a] attrs IH]; [done|]. cbn [omap list_omap fst snd].
  assert (Hrec : find_type_attr attrs name = Some ty -> exists k', (k', AType ty) ∈ (k, a) :: attrs).
  { intros [k' Hk']%IH. exists k'. by right. }
  case_bool_decide; [|exact Hrec]. destruct a; try exact Hrec. cbn. intros [= ->]. exists k. by left.
Qed.

(** A routine run on its own buffer grows the context and leaves the outer
    buffer alone. *)
Lemma into_bytes_Ok body s bs s' : respects grows body -> ctx_wf s.1 -> into_bytes body s = Ok (bs, s') ->
  ctx_wf s'.1 /\ ctx_ext s.1 s'.1 /\ s'.2 = s.2.
Proof.
  intros Hg Hw H. destruct s as [c w]. unfold into_bytes in H.
  destruct (body (c, writer_new)) as [[[] [c' w']]| |] eqn:E; [|done..]. injection H as <- <-.
  by destruct (Hg _ _ _ E Hw) as (? & ? & _).
Qed.

Lemma begin_debug_Ok name di loc s i s' : begin_debug name di loc s = Ok (i, s') ->
  s'.2 = s.2 /\ 0 <= i <= zlen (per_function (debug s'.1)).
Proof.
  destruct s as [c w]. unfold begin_debug, begin_function.
  destruct (match loc with FileLineCol _ _ _ => _ | _ => _ end) as [[t1 sm1] scope].
  destruct (attr_for scope t1 sm1 loc) as [[t2 sm2] fa]. intros [= <- <-]. cbn. split; [done|].
  pose proof (zlen_nonneg (per_function (debug c) ++ [[fa]])). lia.
Qed.

Lemma ok_or_Ok {A} (o : option A) (e : Error) a : ok_or o e = Ok a -> o = Some a.
Proof. destruct o; [by intros [= ->]|done]. Qed.

Section functions.
Context (f16_bits bf16_bits : Z -> Z) (m : IRModule) (v : BytecodeVersion) (Hm : module_ok m).

Lemma write_function_spec fuel f s s' : ctx_wf s.1 ->
  (forall op, get_op m f = Ok op -> function_hints op = None) ->
  write_function f16_bits bf16_bits m v fuel f s = Ok (tt, s') ->
  ctx_wf s'.1 /\ ctx_ext s.1 s'.1 /\
  exists i body bs, function_info m f i /\ s'.2 = write_bytes bs s.2 /\ function_record s'.1 i body bs.
Proof.
  intros Hw Hno H. unfold write_function in H.
  wm_step H op s1 E1. apply wlift_Ok in E1 as [Hop ->]. pose proof (Hno _ Hop) as Hh.
  destruct (op_ok m Hm _ _ Hop) as [Htys Hloc].
  wm_step H name s2 E2. apply wlift_Ok in E2 as [Hname ->]. wm_step H ty s3 E3. apply wlift_Ok in E3 as [Htype ->].
  assert (Hn : find_string_attr (attributes op) "sym_name" = Some name) by (by eapply ok_or_Ok).
  assert (Ht : find_type_attr (attributes op) "function_type" = Some ty) by (by eapply ok_or_Ok).
  assert (Hdeep : deep_ok ty).
  { destruct (find_type_attr_elem _ _ _ Ht) as [k Hk]. destruct Htys as [_ Ha]. rewrite Forall_forall in Ha.
    exact (Ha _ Hk). }
  wm_step H ni s4 E4. destruct (string_index_knows _ _ _ _ Hw E4) as (W4 & X4 & B4 & K4 & _). clear E4.
  wm_step H si s5 E5. destruct (type_index_knows _ _ _ _ W4 Hdeep E5) as (W5 & X5 & B5 & K5 & _). clear E5.
  wm_step H u6 s6 E6. apply put_varint_Ok in E6 as ->. wm_step H u7 s7 E7. apply put_varint_Ok in E7 as ->. cbn [fst snd] in H.
  rewrite Hh in H. cbn [check_worker_warps write_hints] in H.
  wm_step H u8 s8 E8. injection E8 as <- <-. wm_step H u9 s9 E9. apply put_byte_Ok in E9 as ->. cbn [fst snd] in H.
  wm_step H di s10 E10. pose proof (grows_begin _ _ _ Hloc _ _ _ E10 W5) as (W10 & X10 & _).
  apply begin_debug_Ok in E10 as [B10 D10]. cbn [fst snd] in *.
  wm_step H u11 s11 E11. apply put_varint_Ok in E11 as ->. cbn [fst snd] in H.
  wm_step H u12 s12 E12. injection E12 as <- <-.
  wm_step H u13 s13 E13. pose proof (grows_reset _ _ _ E13 W10) as (W13 & X13 & _).
  assert (B13 : s13.2 = write_bytes (varint di) s10.2) by (by injection E13 as <- <-).
  cbn [fst snd] in *.
  wm_step H body s14 E14.
  destruct (into_bytes_Ok _ _ _ _ (grows_function_body f16_bits bf16_bits m v Hm fuel f) W13 E14) as (W14 & X14 & B14).
  wm_step H u15 s15 E15. apply put_varint_Ok in E15 as ->. injection H as <-. cbn [fst snd] in *.
  pose proof (ctx_ext_trans _ _ _ X13 X14) as X134. pose proof (ctx_ext_trans _ _ _ X10 X134) as X1034.
  split_and!; [done|exact (ctx_ext_trans _ _ _ X4 (ctx_ext_trans _ _ _ X5 X1034))|].
  exists (mkFunctionInfo op name ty), body. eexists. split; [by split_and!|].
  split; [rewrite B14, B13, B10, B5, B4, !write_bytes_app; reflexivity|].
  exists ni, si, di. split; [by rewrite <- ?app_assoc|]. cbn [fi_name fi_type].
  split_and!; [exact (knows_string_ext _ _ _ _ (ctx_ext_trans _ _ _ X5 X1034) K4)|exact (knows_type_ext _ _ _ _ X1034 K5)|lia|].
  destruct X134 as (_ & _ & _ & X). unfold zlen in *. lia.
Qed.

Lemma write_functions_spec fuel fs s s' : ctx_wf s.1 ->
  (forall f op, f ∈ fs -> get_op m f = Ok op -> function_hints op = None) ->
  each (write_function f16_bits bf16_bits m v fuel) fs s = Ok (tt, s') ->
  ctx_wf s'.1 /\ ctx_ext s.1 s'.1 /\
  exists ibs bss, s'.2 = write_bytes (concat bss) s.2 /\ Forall2 (fun f ib => function_info m f ib.1) fs ibs /\
    Forall2 (fun bs ib => function_record s'.1 ib.1 ib.2 bs) bss ibs.
Proof.
  revert s. induction fs as [|f fs IH]; intros s Hw Hno H.
  - injection H as <-. split_and!; [done|apply ctx_ext_refl|]. exists [], []. split; [by rewrite write_bytes_nil|].
    split; constructor.
  - apply WM_bind_Ok in H as ([] & s1 & H1 & H).
    destruct (write_function_spec fuel f s s1 Hw ltac:(intros op; apply Hno; by left) H1)
      as (W1 & X1 & i & body & bs & I1 & B1 & R1).
    destruct (IH s1 W1 ltac:(intros f' op Hf; apply Hno; by right) H) as (W & X & ibs & bss & B & I & R).
    split_and!; [done|by eapply ctx_ext_trans|]. exists ((i, body) :: ibs), (bs :: bss).
    split; [by rewrite B, B1, write_bytes_app|]. split; constructor; try done.
    by eapply function_record_ext.
Qed.
End functions.

(** ** The debug section *)

Lemma write_words_bytes n vs w :
  write_words (fun x => write_bytes (le_bytes n x)) vs w = write_bytes (concat (le_bytes n <$> vs)) w.
Proof.
  revert w. induction vs as [|x vs IH]; intros w; cbn; [by rewrite write_bytes_nil|].
  unfold write_words in IH. by rewrite IH, write_bytes_app.
Qed.

Lemma write_all_bytes es w : foldl (fun w e => write_bytes e w) w es = write_bytes (concat es) w.
Proof.
  revert w. induction es as [|e es IH]; intros w; cbn; [by rewrite write_bytes_nil|]. by rewrite IH, write_bytes_app.
Qed.

Lemma starts_length off ls : length (starts off ls).1 = length ls.
Proof.
  revert off. induction ls as [|l ls IH]; intros off; cbn; [done|].
  specialize (IH (as_u32 (off + as_u32 (zlen l)))). destruct (starts _ ls). cbn in *. auto.
Qed.

Lemma starts_spec off ls : 0 <= off -> off + zlen (concat ls) <= U32_MAX ->
  starts off ls = (offsets_from off ls, off + zlen (concat ls)).
Proof.
  revert off. induction ls as [|l ls IH]; intros off H0 Hb; cbn; [by rewrite Z.add_0_r|].
  cbn [concat] in Hb. rewrite zlen_app in *. pose proof (zlen_nonneg l). pose proof (zlen_nonneg (concat ls)).
  rewrite (as_u32_id (zlen l)), as_u32_id by (unfold_int; unfold U32_MAX in Hb; lia).
  rewrite IH by lia. f_equal. lia.
Qed.

(** The bytes of the debug payload, given its offset tables. *)
Definition debug_image (offs1 : list Z) (n : Z) (ids offs2 : list Z) (es : list (list Z)) : list Z :=
  let h1 := varint (zlen offs1) in
  let a := (h1 ++ pad_bytes 4 (zlen h1)) ++ concat (le_bytes 4 <$> offs1) in
  let h2 := a ++ varint n in
  let b := (h2 ++ pad_bytes 8 (zlen h2)) ++ concat (le_bytes 8 <$> ids) in
  let h3 := b ++ varint (zlen offs2) in
  ((h3 ++ pad_bytes 4 (zlen h3)) ++ concat (le_bytes 4 <$> offs2)) ++ concat es.

Lemma fold_words pf w :
  foldl (fun w ids => write_words write_le_u64 ids w) w pf = write_bytes (concat (le_bytes 8 <$> concat pf)) w.
Proof.
  revert w. induction pf as [|l pf IH]; intros w; cbn; [by rewrite write_bytes_nil|].
  rewrite IH, fmap_app, concat_app, (write_words_bytes 8). by rewrite write_bytes_app.
Qed.

Lemma debug_payload_image pf es :
  buf (debug_payload pf es) = debug_image (starts 0 pf).1 (starts 0 pf).2 (concat pf) (starts 0 es).1 es.
Proof.
  unfold debug_payload, debug_image.
  assert (zlen (starts 0 pf).1 = zlen pf) as -> by (unfold zlen; by rewrite starts_length).
  assert (zlen (starts 0 es).1 = zlen es) as -> by (unfold zlen; by rewrite starts_length).
  destruct (starts 0 pf) as [o1 n]. cbn [fst snd].
  rewrite write_all_bytes, (write_words_bytes 4), fold_words, (write_words_bytes 4).
  unfold align_to. cbn [Z.ltb Z.compare Pos.compare Pos.compare_cont].
  unfold write_varint, write_bytes, tell. cbn [buf writer_new app]. done.
Qed.


Lemma reads_words (read : RM Z) n vs : Forall (fun x => reads read (le_bytes n x) x) vs ->
  reads (read_many (Z.to_nat (zlen vs)) read) (concat (le_bytes n <$> vs)) vs.
Proof. intros H. rewrite to_nat_zlen. by apply (reads_many read (le_bytes n)). Qed.

Lemma zlen_words n vs : zlen (concat (le_bytes n <$> vs)) = Z.of_nat n * zlen vs.
Proof.
  induction vs as [|x vs IH]; [unfold zlen; cbn; lia|]. cbn [fmap list_fmap concat]. rewrite zlen_app, zlen_le_bytes, zlen_cons. lia.
Qed.

(** The parts of the image are no longer than the whole. *)
Lemma debug_image_sizes offs1 n ids offs2 es :
  zlen offs1 <= zlen (debug_image offs1 n ids offs2 es) /\ zlen ids <= zlen (debug_image offs1 n ids offs2 es) /\
  zlen offs2 <= zlen (debug_image offs1 n ids offs2 es) /\ zlen (concat es) <= zlen (debug_image offs1 n ids offs2 es).
Proof.
  unfold debug_image. rewrite !zlen_app, !zlen_words.
  repeat match goal with |- context [zlen (pad_bytes ?a ?b)] =>
    let H := fresh in pose proof (zlen_nonneg (pad_bytes a b)) as H; generalize dependent (zlen (pad_bytes a b)); intros end.
  pose proof (zlen_nonneg (varint (zlen offs1))). pose proof (zlen_nonneg (varint n)).
  pose proof (zlen_nonneg (varint (zlen offs2))). pose proof (zlen_nonneg (concat es)).
  pose proof (zlen_nonneg offs1). pose proof (zlen_nonneg ids). pose proof (zlen_nonneg offs2). lia.
Qed.

(** One step of a reader on known input. *)
Lemma reads_at_step {A B} pre (m : RM A) (f : A -> RM B) b a post : reads_at pre m b a -> fits (pre ++ b ++ post) ->
  (m ≫= f) (at_ pre (b ++ post)) = f a (at_ (pre ++ b) post).
Proof. intros H Hf. apply RM_bind_Ok. by apply H. Qed.

Lemma reads_skip_padding' pre a p : 2 <= a -> p = pad_bytes a (zlen pre) -> reads_at pre (skip_padding a) p tt.
Proof. intros H ->. by apply reads_skip_padding. Qed.

Lemma read_debug_tables_at h1 p1 w1 h2 p2 w2 h3 p3 w3 data offs1 ids offs2 :
  reads read_varint h1 (zlen offs1) -> p1 = pad_bytes 4 (zlen h1) ->
  reads (read_many (Z.to_nat (zlen offs1)) read_le_u32) w1 offs1 ->
  reads read_varint h2 (zlen ids) -> p2 = pad_bytes 8 (zlen (((h1 ++ p1) ++ w1) ++ h2)) ->
  reads (read_many (Z.to_nat (zlen ids)) read_le_u64) w2 ids ->
  reads read_varint h3 (zlen offs2) ->
  p3 = pad_bytes 4 (zlen ((((((h1 ++ p1) ++ w1) ++ h2) ++ p2) ++ w2) ++ h3)) ->
  reads (read_many (Z.to_nat (zlen offs2)) read_le_u32) w3 offs2 ->
  fits (h1 ++ p1 ++ w1 ++ h2 ++ p2 ++ w2 ++ h3 ++ p3 ++ w3 ++ data) ->
  run read_debug_tables (h1 ++ p1 ++ w1 ++ h2 ++ p2 ++ w2 ++ h3 ++ p3 ++ w3 ++ data) = Ok (offs1, ids, offs2, data).
Proof.
  intros R1 P1 R2 R3 P2 R4 R5 P3 R6 Hf. unfold run, reader_new, read_debug_tables.
  change (mkReader (h1 ++ p1 ++ w1 ++ h2 ++ p2 ++ w2 ++ h3 ++ p3 ++ w3 ++ data) 0)
    with (at_ [] (h1 ++ p1 ++ w1 ++ h2 ++ p2 ++ w2 ++ h3 ++ p3 ++ w3 ++ data)).
  rewrite (reads_at_step [] _ _ h1 _ _ (R1 [])) by exact Hf. cbn [app].
  rewrite (reads_at_step _ _ _ p1 _ _ (reads_skip_padding' h1 4 p1 ltac:(lia) P1)) by exact Hf.
  rewrite (reads_at_step _ _ _ w1 _ _ (R2 _)) by (by rewrite <- !app_assoc).
  rewrite (reads_at_step _ _ _ h2 _ _ (R3 _)) by (by rewrite <- !app_assoc).
  rewrite (reads_at_step _ _ _ p2 _ _ (reads_skip_padding' _ 8 p2 ltac:(lia) P2)) by (by rewrite <- !app_assoc).
  rewrite (reads_at_step _ _ _ w2 _ _ (R4 _)) by (by rewrite <- !app_assoc).
  rewrite (reads_at_step _ _ _ h3 _ _ (R5 _)) by (by rewrite <- !app_assoc).
  rewrite (reads_at_step _ _ _ p3 _ _ (reads_skip_padding' _ 4 p3 ltac:(lia) P3)) by (by rewrite <- !app_assoc).
  rewrite (reads_at_step _ _ _ w3 _ _ (R6 _)) by (by rewrite <- !app_assoc).
  erewrite RM_bind_Ok; [|apply read_rest_spec; by rewrite <- !app_assoc]. done.
Qed.

Lemma read_debug_tables_image offs1 ids offs2 es :
  Forall in_u32 offs1 -> Forall in_u64 ids -> Forall in_u32 offs2 ->
  zlen (debug_image offs1 (zlen ids) ids offs2 es) <= U32_MAX ->
  run read_debug_tables (debug_image offs1 (zlen ids) ids offs2 es) = Ok (offs1, ids, offs2, concat es).
Proof.
  intros H1 H2 H3 Hs. destruct (debug_image_sizes offs1 (zlen ids) ids offs2 es) as (S1 & S2 & S3 & _).
  assert (Hf : fits (debug_image offs1 (zlen ids) ids offs2 es)) by (unfold fits; unfold_int; unfold U32_MAX in Hs; lia).
  assert (Hu : forall l : list Z, zlen l <= zlen (debug_image offs1 (zlen ids) ids offs2 es) -> in_u64 (zlen l)).
  { intros l Hl. pose proof (zlen_nonneg l). unfold_int. unfold U32_MAX in Hs. lia. }
  apply Hu in S1, S2, S3. clear Hu Hs.
  pose (h1 := varint (zlen offs1)). pose (p1 := pad_bytes 4 (zlen h1)). pose (w1 := concat (le_bytes 4 <$> offs1)).
  pose (h2 := varint (zlen ids)). pose (p2 := pad_bytes 8 (zlen (((h1 ++ p1) ++ w1) ++ h2))).
  pose (w2 := concat (le_bytes 8 <$> ids)). pose (h3 := varint (zlen offs2)).
  pose (p3 := pad_bytes 4 (zlen ((((((h1 ++ p1) ++ w1) ++ h2) ++ p2) ++ w2) ++ h3))).
  pose (w3 := concat (le_bytes 4 <$> offs2)).
  assert (E : debug_image offs1 (zlen ids) ids offs2 es
              = h1 ++ p1 ++ w1 ++ h2 ++ p2 ++ w2 ++ h3 ++ p3 ++ w3 ++ concat es).
  { change (debug_image offs1 (zlen ids) ids offs2 es)
      with (((((((((h1 ++ p1) ++ w1) ++ h2) ++ p2) ++ w2) ++ h3) ++ p3) ++ w3) ++ concat es).
    clearbody h1 p1 w1 h2 p2 w2 h3 p3 w3. by rewrite <- !app_assoc. }
  rewrite E in *. apply read_debug_tables_at; try reflexivity; try exact Hf; try (by apply reads_varint);
    apply reads_words.
  - eapply Forall_impl; [exact H1|]. apply reads_le_u32.
  - eapply Forall_impl; [exact H2|]. apply reads_le_u64.
  - eapply Forall_impl; [exact H3|]. apply reads_le_u32.
Qed.


Section debug_text.
Context (show_str : string -> string) (strs : list string).

Lemma reads_debug_attr B e : B <= 2 ^ 64 -> debug_entry_ok B e ->
  exists text, reads (parse_debug_attr show_str strs) e text.
Proof.
  intros HB (t & fields & -> & Hl & Hf).
  assert (Hr : Forall (fun f => reads read_varint (varint f) f) fields).
  { eapply Forall_impl; [exact Hf|]. intros f Hb. apply reads_varint. unfold below in Hb. unfold_int. lia. }
  unfold parse_debug_attr, debug_bytes. clear Hf.
  destruct t; destruct fields as [|f1 [|f2 [|f3 [|f4 [|f5 [|f6 [|]]]]]]]; try discriminate Hl;
    repeat match goal with H : Forall _ (_ :: _) |- _ => apply Forall_cons in H as [? H] end;
    (eexists; change (?x :: ?l) with ([x] ++ l); eapply reads_bind; [apply reads_byte|]; cbn -[reads varint];
     repeat (eapply reads_bind; [eassumption|]); try apply reads_ret).
Qed.

Lemma debug_attrs_ok B pre es i : B <= 2 ^ 64 -> Forall (debug_entry_ok B) es -> fits (pre ++ concat es) ->
  exists text, debug_attrs show_str strs (pre ++ concat es) i (offsets_from (zlen pre) es) = Ok text.
Proof.
  intros HB Hes. revert pre i. induction Hes as [|e es He Hes IH]; intros pre i Hf; cbn [offsets_from debug_attrs]; [by eexists|].
  cbn [concat] in *.
  assert (match offsets_from (zlen pre + zlen e) es with e0 :: _ => e0 | [] => zlen (pre ++ e ++ concat es) end
          = zlen pre + zlen e) as ->.
  { destruct es; cbn; [|done]. rewrite app_nil_r, zlen_app. lia. }
  assert (Hpos : 0 < zlen e).
  { destruct He as (t & fs & -> & _). unfold debug_bytes. rewrite zlen_cons. pose proof (zlen_nonneg (concat (varint <$> fs))). lia. }
  rewrite (proj2 (Z.leb_gt _ _)) by lia. rewrite !zlen_app. pose proof (zlen_nonneg (concat es)).
  rewrite (proj2 (Z.ltb_ge _ _)) by lia. cbn [orb].
  replace (zlen pre + zlen e - zlen pre) with (zlen e) by lia.
  rewrite !to_nat_zlen, drop_app_length, take_app_length.
  destruct (reads_debug_attr B e HB He) as [text Hr].
  rewrite (reads_run _ e text); [|apply Hr|by eapply fits_app_l, fits_app_r].
  cbn. destruct (IH (pre ++ e) (i + 1)) as [more Hmore]; [by rewrite <- app_assoc|].
  rewrite zlen_app, <- app_assoc in Hmore. rewrite Hmore. by eexists.
Qed.

Lemma debug_functions_ok pre ls i :
  exists text, debug_functions (pre ++ concat ls) (zlen (pre ++ concat ls)) i (offsets_from (zlen pre) ls) = Ok text.
Proof.
  revert pre i. induction ls as [|l ls IH]; intros pre i; cbn [offsets_from debug_functions]; [by eexists|].
  cbn [concat] in *.
  assert (match offsets_from (zlen pre + zlen l) ls with e0 :: _ => e0 | [] => zlen (pre ++ l ++ concat ls) end
          = zlen pre + zlen l) as ->.
  { destruct ls; cbn; [|done]. rewrite app_nil_r, zlen_app. lia. }
  rewrite !zlen_app. pose proof (zlen_nonneg (concat ls)). pose proof (zlen_nonneg l).
  rewrite (proj2 (Z.ltb_ge (zlen pre + zlen l) (zlen pre))) by lia. rewrite (proj2 (Z.ltb_ge _ _)) by lia. cbn [orb].
  destruct (IH (pre ++ l) (i + 1)) as [more Hmore].
  rewrite !zlen_app, <- app_assoc in Hmore.
  replace (zlen pre + (zlen l + zlen (concat ls))) with (zlen pre + zlen l + zlen (concat ls)) by lia.
  rewrite Hmore. by eexists.
Qed.

(** The debug payload of a well-formed collector renders. *)
Lemma debug_section_parses B pf es : B <= 2 ^ 64 -> Forall (Forall (below B)) pf -> Forall (debug_entry_ok B) es ->
  zlen (buf (debug_payload pf es)) <= U32_MAX ->
  exists text, parse_debug_section show_str (buf (debug_payload pf es)) strs = Ok text.
Proof.
  intros HB Hpf Hes Hs. rewrite debug_payload_image in *.
  destruct (debug_image_sizes (starts 0 pf).1 (starts 0 pf).2 (concat pf) (starts 0 es).1 es) as (S1 & S2 & S3 & S4).
  pose proof (starts_spec 0 pf ltac:(lia) ltac:(lia)) as E1. pose proof (starts_spec 0 es ltac:(lia) ltac:(lia)) as E2.
  rewrite Z.add_0_l in E1, E2. rewrite E1, E2 in *. cbn [fst snd] in *. clear E1 E2.
  unfold parse_debug_section. rewrite read_debug_tables_image; [cbn| | | |done].
  - destruct (debug_attrs_ok B [] es 0 HB Hes) as [t1 E1].
    { unfold fits. cbn. unfold_int. unfold U32_MAX in Hs. lia. }
    cbn [app] in E1. change (zlen []) with 0 in E1. rewrite E1. cbn.
    destruct (debug_functions_ok [] pf 0) as [t2 E2]. cbn [app] in E2. change (zlen []) with 0 in E2. rewrite E2.
    by eexists.
  - eapply Forall_impl; [apply offsets_from_bounds; lia|]. cbn. intros o Ho. unfold_int. unfold U32_MAX in Hs. lia.
  - apply Forall_concat. eapply Forall_impl; [exact Hpf|]. intros l Hl. eapply Forall_impl; [exact Hl|].
    intros f Hb. unfold below in Hb. unfold_int. lia.
  - eapply Forall_impl; [apply offsets_from_bounds; lia|]. cbn. intros o Ho. unfold_int. unfold U32_MAX in Hs. lia.
Qed.
End debug_text.

(** ** The file *)

Lemma put_section_grows out sec : zlen out <= zlen (put_section out sec).
Proof.
  destruct sec as [[sid al] [b|]]; cbn; [|done]. destruct (header_prefix out sid (zlen b) al) as [h ->].
  rewrite !zlen_app. pose proof (zlen_nonneg h). pose proof (zlen_nonneg b). lia.
Qed.

Lemma write_section_Ok sid al p out c r : write_section sid al p out c = Ok r ->
  exists w, p (c, writer_new) = Ok (tt, (r.2, w)) /\ r.1 = put_section out (sid, al, Some (buf w)).
Proof.
  unfold write_section. destruct (p (c, writer_new)) as [[[] [c' w]]| |] eqn:E; [|done..].
  intros [= <-]. by exists w.
Qed.

Section file.
Context (f16_bits bf16_bits : Z -> Z) (m : IRModule) (v : BytecodeVersion) (Hm : module_ok m).
Context (Hhints : forall f op, f ∈ m_functions m -> get_op m f = Ok op -> function_hints op = None).

(** What the global section holds. *)
Definition globals_payload (c : WriterCtx) (gp : option (list Z)) : Prop :=
  match m_globals m with
  | [] => gp = None
  | gs => exists bss, gp = Some (varint (zlen gs) ++ concat bss) /\
            Forall2 (fun bs kg => global_record c v kg.1 kg.2 bs) bss (number 0 gs)
  end.

Lemma global_section_spec out c r : ctx_wf c -> cm_entries (constants c) = [] ->
  write_global_section m v out c = Ok r ->
  ctx_wf r.2 /\ ctx_ext c r.2 /\
  exists gp, r.1 = put_section out (Section_.Global, 1, gp) /\ globals_payload r.2 gp.
Proof.
  intros Hw Hc H. unfold write_global_section, globals_payload in *.
  pose proof (mo_globals m Hm) as Hg. destruct (m_globals m) as [|g gs].
  { injection H as <-. split_and!; [done|apply ctx_ext_refl|]. by exists None. }
  set (all := g :: gs) in *. apply write_section_Ok in H as (w & H & E).
  wm_step H u s1 E1. apply put_varint_Ok in E1 as ->. cbn [fst snd] in H.
  eapply write_globals_spec in H as (W & X & bss & B & R); cbn [fst snd] in *;
    [|done|eapply Forall_impl; [exact Hg|]; by intros ? [? _]].
  rewrite Hc in R. split_and!; [done|done|]. eexists. split; [exact E|]. exists bss. split; [|exact R].
  rewrite B, write_bytes_app. done.
Qed.

Definition functions_payload (c : WriterCtx) (ibs : list (FunctionInfo * list Z)) (fp : option (list Z)) : Prop :=
  Forall2 (fun f ib => function_info m f ib.1) (m_functions m) ibs /\
  match m_functions m with
  | [] => fp = None
  | _ => exists bss pad, fp = Some ((varint (zlen ibs) ++ concat bss) ++ pad) /\
           Forall2 (fun bs ib => function_record c ib.1 ib.2 bs) bss ibs
  end.

Lemma function_section_spec out c r : ctx_wf c ->
  write_function_section f16_bits bf16_bits m v out c = Ok r ->
  ctx_wf r.2 /\ ctx_ext c r.2 /\
  exists ibs fp, r.1 = put_section out (Section_.Func, 8, fp) /\ functions_payload r.2 ibs fp.
Proof.
  intros Hw H. unfold write_function_section, functions_payload in *. destruct (m_functions m) as [|f fs].
  { injection H as <-. split_and!; [done|apply ctx_ext_refl|]. exists [], None. split; [done|]. split; [constructor|done]. }
  set (all := f :: fs) in *. apply write_section_Ok in H as (w & H & E).
  wm_step H u s1 E1. apply put_varint_Ok in E1 as ->. cbn [fst snd] in H.
  wm_step H u2 s2 E2. destruct u2.
  eapply (write_functions_spec f16_bits bf16_bits m v Hm) in E2 as (W & X & ibs & bss & B & I & R); [|done..].
  cbn [fst snd] in *. injection H as E3 E4. rewrite <- E3. split_and!; [done|done|].
  exists ibs. eexists. split; [exact E|]. split; [exact I|]. exists bss. eexists. split; [|exact R].
  rewrite <- E4, B. unfold align_to. cbn [Z.ltb Z.compare Pos.compare Pos.compare_cont]. cbn [buf].
  replace (zlen ibs) with (zlen all) by (unfold zlen; f_equal; by eapply Forall2_length).
  unfold write_bytes. cbn [buf writer_new app]. reflexivity.
Qed.

(** *** Parsing the payloads *)

Lemma varint_loop_length n x : (length (varint_loop n x) <= n)%nat.
Proof. revert x. induction n as [|n IH]; intros x; cbn -[Z.land Z.lor]; [done|]. destruct (_ =? 0); cbn; [lia|]. specialize (IH (Z.shiftr x 7)). lia. Qed.

Lemma varint_zlen x : 1 <= zlen (varint x).
Proof.
  pose proof (varint_loop_nonempty 10 x ltac:(lia)) as H. unfold varint. destruct (varint_loop 10 x) as [|b l]; [done|].
  rewrite zlen_cons. pose proof (zlen_nonneg l). lia.
Qed.

Lemma concat_zlen (bss : list (list Z)) : Forall (fun bs => 1 <= zlen bs) bss -> zlen bss <= zlen (concat bss).
Proof.
  induction 1 as [|bs bss Hb _ IH]; [done|]. cbn [concat]. rewrite zlen_cons, zlen_app. lia.
Qed.

Lemma zlen_elem_concat bs (bss : list (list Z)) : bs ∈ bss -> zlen bs <= zlen (concat bss).
Proof.
  intros (l1 & l2 & ->)%list_elem_of_split. rewrite concat_app. cbn [concat]. rewrite !zlen_app.
  pose proof (zlen_nonneg (concat l1)). pose proof (zlen_nonneg (concat l2)). lia.
Qed.

Lemma Forall2_with_r {A B} (P : A -> B -> Prop) (Q : B -> Prop) l k :
  Forall2 P l k -> Forall Q k -> Forall2 (fun x y => P x y /\ Q y) l k.
Proof. induction 1; intros HQ; inversion HQ; constructor; auto. Qed.

Lemma Forall2_with_l {A B} (P : A -> B -> Prop) (Q : A -> Prop) l k :
  Forall2 P l k -> Forall Q l -> Forall2 (fun x y => P x y /\ Q x) l k.
Proof. induction 1; intros HQ; inversion HQ; constructor; auto. Qed.

(** A reader that succeeds on a prefix succeeds on the whole. *)
Lemma run_prefix {A} (r : RM A) bs post a : reads r bs a -> fits (bs ++ post) -> run r (bs ++ post) = Ok a.
Proof. intros H Hf. unfold run. change (reader_new (bs ++ post)) with (at_ [] (bs ++ post)). by rewrite (H [] post Hf). Qed.

Context (c : WriterCtx).
Context (Hstr : zlen (sm_strings (strings c)) <= U32_MAX) (Hty : zlen (tm_list (types c)) <= U32_MAX).
Context (Hpf : zlen (per_function (debug c)) <= U32_MAX).

Notation strs := (decoded <$> sm_strings (strings c)).
Notation tys := (type_text None <$> tm_list (types c)).

Definition payload_fits (p : option (list Z)) : Prop := match p with Some b => zlen b <= U32_MAX | None => True end.

Lemma u32_fits l : zlen l <= U32_MAX -> fits l.
Proof. unfold fits, U32_MAX. unfold_int. lia. Qed.

Lemma globals_parse gp : globals_payload c gp -> payload_fits gp ->
  opt_text gp (fun payload => gs ← parse_global_section payload strs tys v; Ok (globals_text gs)) =
  Ok (globals_text ((fun kg => global_line v kg.1 kg.2) <$> number 0 (m_globals m))).
Proof.
  unfold globals_payload. pose proof (mo_globals m Hm) as Hg. destruct (m_globals m) as [|g gs]; [by intros -> _|].
  set (all := g :: gs) in *. intros (bss & -> & R) Hs. cbn [opt_text payload_fits] in *.
  assert (Hlen : zlen bss = zlen all).
  { unfold zlen. f_equal. rewrite (Forall2_length _ _ _ R). apply number_length. }
  assert (Hb : zlen all <= U32_MAX).
  { rewrite zlen_app in Hs. pose proof (zlen_nonneg (varint (zlen all))). rewrite <- Hlen. etrans; [apply concat_zlen|lia].
    apply Forall_forall. intros bs Hbs. apply (Forall2_Forall_l _ (fun bs => 1 <= zlen bs)) in R.
    - rewrite Forall_forall in R. auto.
    - apply Forall_forall. intros kg _ bs' (ni & ti & -> & _). unfold global_bytes. rewrite zlen_app.
      pose proof (varint_zlen ni). match goal with |- 1 <= _ + zlen ?l => pose proof (zlen_nonneg l) end. lia. }
  unfold parse_global_section. rewrite (reads_run _ _ ((fun kg => global_line v kg.1 kg.2) <$> number 0 all)); [done| |by apply u32_fits].
  replace (zlen all) with (zlen ((fun kg => global_line v kg.1 kg.2) <$> number 0 all))
    by (unfold zlen; by rewrite length_fmap, number_length).
  apply reads_counted. { unfold zlen. rewrite length_fmap, number_length. exact Hb. }
  apply Forall2_fmap_r. eapply Forall2_impl; [eapply (Forall2_with_r _ (fun kg => in_u64 kg.1 /\ in_u64 (g_alignment kg.2))); [exact R|]|].
  - apply Forall_forall. intros kg Hkg%number_bounds; [|lia]. destruct Hkg as [Hk Hin]. rewrite Forall_forall in Hg.
    split; [unfold_int; unfold U32_MAX in Hb; lia|by apply Hg].
  - intros bs kg [Hr [Hk Ha]]. by apply reads_global.
Qed.

Lemma functions_parse ibs fp : functions_payload c ibs fp -> payload_fits fp ->
  opt_text fp (fun payload => fs ← parse_func_section payload strs tys; Ok (functions_text fs)) =
  Ok (match m_functions m with
      | [] => EmptyString
      | _ => functions_text ((fun ib => function_line ib.1 (zlen ib.2)) <$> ibs)
      end).
Proof.
  unfold functions_payload. intros [_ H] Hs. destruct (m_functions m) as [|f fs]; [by subst fp|].
  destruct H as (bss & pad & -> & R). cbn [opt_text payload_fits] in *.
  rewrite !zlen_app in Hs. pose proof (zlen_nonneg pad). pose proof (zlen_nonneg (varint (zlen ibs))).
  assert (Hc : zlen (concat bss) <= U32_MAX) by lia.
  assert (Hlen : zlen bss = zlen ibs) by (unfold zlen; f_equal; by eapply Forall2_length).
  assert (Hb : zlen ibs <= U32_MAX).
  { rewrite <- Hlen. etrans; [apply concat_zlen|exact Hc].
    apply (Forall2_Forall_l _ _ _ _ R). apply Forall_forall. intros ib _ bs (ni & si & di & -> & _).
    rewrite zlen_app. pose proof (varint_zlen ni). match goal with |- 1 <= _ + zlen ?l => pose proof (zlen_nonneg l) end. lia. }
  unfold parse_func_section.
  rewrite (run_prefix _ (varint (zlen ibs) ++ concat bss) pad ((fun ib => function_line ib.1 (zlen ib.2)) <$> ibs));
    [done| |apply u32_fits; rewrite !zlen_app; lia].
  replace (zlen ibs) with (zlen ((fun ib => function_line ib.1 (zlen ib.2)) <$> ibs)) by (unfold zlen; by rewrite length_fmap).
  apply reads_counted. { unfold zlen. rewrite length_fmap. exact Hb. }
  apply Forall2_fmap_r. eapply Forall2_impl; [eapply (Forall2_with_l _ (fun bs => bs ∈ bss)); [exact R|by apply Forall_forall]|].
  intros bs ib [Hr Hin]. apply reads_function; [done..| |done].
  destruct Hr as (ni & si & di & -> & _). apply zlen_elem_concat in Hin. rewrite !zlen_app in Hin.
  pose proof (zlen_nonneg (varint ni)). pose proof (zlen_nonneg (varint si)). pose proof (zlen_nonneg (varint di)).
  pose proof (zlen_nonneg (varint (zlen ib.2))). pose proof (zlen_nonneg [function_flags (fi_op ib.1)]). lia.
Qed.
End file.

Section decode.
Context (f16_bits bf16_bits : Z -> Z) (show_str : string -> string) (m : IRModule) (v : BytecodeVersion).
Context (Hm : module_ok m).
Context (Hhints : forall f op, f ∈ m_functions m -> get_op m f = Ok op -> function_hints op = None).

Lemma globals_payload_ext c c' gp : ctx_ext c c' -> globals_payload m v c gp -> globals_payload m v c' gp.
Proof.
  intros X. unfold globals_payload. destruct (m_globals m); [done|]. intros (bss & E & R). exists bss. split; [done|].
  eapply Forall2_impl; [exact R|]. intros bs kg. by apply global_record_ext.
Qed.

(** The tables the pre-scan leaves. *)
Lemma prescan_spec s : prescan m v (ctx_new, writer_new) = Ok (tt, s) ->
  ctx_wf s.1 /\ cm_entries (constants s.1) = [] /\
  forall p, m_producer m = Some p -> p ∈ sm_strings (strings s.1).
Proof.
  intros H. destruct (respects_prescan (R:=grows) m v (module_ok_types m Hm) _ _ _ H ctx_new_wf) as (W & _ & _).
  destruct (respects_prescan (R:=interns_only) m v (module_types_True m) _ _ _ H) as (C & _ & _).
  split_and!; [done|by rewrite C|]. intros p Hp.
  unfold prescan in H. wm_step H u s1 E1. unfold prescan_producer in E1. rewrite Hp in E1.
  wm_step E1 u1 s2 E2. apply wlift_Ok in E2 as [_ ->]. wm_step E1 i s3 E3. injection E1 as <- <-.
  destruct (string_index_knows (ctx_new, writer_new) _ _ _ ctx_new_wf E3) as (W3 & _ & _ & K3 & _).
  assert (X : ctx_ext s3.1 s.1).
  { assert (Hr : respects grows (_ ← each (fun g => _ ← string_index (sym_name g); intern_type (de_element_type (g_value g)))
      (m_globals m); each (fun func_op => _ ← wlift (check_region_versions m v (module_fuel m) false false func_op);
      prescan_function m (module_fuel m) func_op) (m_functions m))).
    { apply respects_prescan_rest. by apply module_ok_types. }
    by destruct (Hr _ _ _ H W3) as (_ & ? & _). }
  destruct (knows_string_ext _ _ _ _ X K3) as [_ Hl]. by eapply list_elem_of_lookup_2.
Qed.

(** The producer section. *)
Definition producer_payload (c : WriterCtx) : option (list Z) :=
  (fun p => varint (sm_get_or_insert (strings c) p).2) <$> m_producer m.

Definition producer_lines : string :=
  match m_producer m with
  | Some p => line "=== Producer ===" +:+ line ("  " +:+ show_str (decoded p)) +:+ line EmptyString
  | None => EmptyString
  end.

Lemma producer_parses c : ctx_wf c -> zlen (sm_strings (strings c)) <= U32_MAX ->
  (forall p, m_producer m = Some p -> p ∈ sm_strings (strings c)) ->
  producer_text show_str (decoded <$> sm_strings (strings c)) (producer_payload c) = Ok producer_lines.
Proof.
  intros Hw Hs Hp. unfold producer_payload, producer_lines. destruct (m_producer m) as [p|]; [|done].
  cbn [fmap option_fmap option_map producer_text]. specialize (Hp p eq_refl).
  destruct (sm_get_or_insert (strings c) p) as [sm i] eqn:E.
  destruct (sm_insert_spec _ _ _ _ (dw_strings _ _ (cw_debug _ Hw)) E) as (_ & _ & Hi & Hl & Hsame).
  rewrite (Hsame Hp) in *. cbn [snd]. pose proof (lookup_lt_Some _ _ _ Hl) as Hlt.
  rewrite (reads_run read_varint (varint i) i); [|apply reads_varint; unfold zlen, U32_MAX in Hs; unfold_int; lia|].
  - cbn. rewrite list_lookup_fmap, Hl. done.
  - assert (Hv : in_u64 i) by (unfold zlen, U32_MAX in Hs; unfold_int; lia).
    unfold fits. unfold zlen. unfold varint. pose proof (varint_loop_length 10 i). unfold_int. lia.
Qed.

(** The sections of the file, in the order they are written. *)
Definition file_sections (c : WriterCtx) (gp fp : option (list Z)) (dbg : list Z) : list FileSection :=
  [(Section_.Global, 1, gp); (Section_.Func, 8, fp); (Section_.Constant, 8, constant_section (constants c));
   (Section_.Debug, 8, Some dbg); (Section_.Type_, 4, type_section (types c) v);
   (Section_.String, 4, string_section (strings c)); (Section_.Producer, 1, producer_payload c)].

Lemma file_sections_ok c gp fp dbg : Forall section_ok (file_sections c gp fp dbg).
Proof. repeat constructor; try done; cbn; unfold U64_MAX; lia. Qed.

Lemma ensure_non_empty_wf sm t : debug_wf sm t ->
  debug_wf sm (ensure_non_empty t) /\ id_bound sm t <= id_bound sm (ensure_non_empty t) /\
  zlen (da_entries (ensure_non_empty t)) <= zlen (da_entries t) + 1.
Proof.
  intros W. unfold ensure_non_empty. destruct (da_entries t) eqn:E; [|split_and!; [done|done|rewrite E; lia]].
  pose proof (intern_step sm t DebugTag.Unknown [] W eq_refl (Forall_nil_2 _)) as H.
  change (debug_bytes DebugTag.Unknown []) with [DebugTag.as_u8 DebugTag.Unknown] in H.
  unfold intern in *. destruct (assoc_get _ _); cbn [fst snd] in *; destruct H as (W' & X & _); cbn [fst snd] in *.
  - split_and!; [done|done|rewrite E; lia].
  - split_and!; [done|by apply id_bound_mono|]. cbn. rewrite E. done.
Qed.

(** The payload of the debug section. *)
Definition debug_section (c : WriterCtx) : list Z :=
  buf (debug_payload (per_function (debug c)) (da_entries (ensure_non_empty (dc_attrs (debug c))))).

Lemma write_sections_spec out c bytes : ctx_wf c -> cm_entries (constants c) = [] ->
  (forall p, m_producer m = Some p -> p ∈ sm_strings (strings c)) ->
  write_sections f16_bits bf16_bits m v out c = Ok bytes -> zlen bytes <= U32_MAX ->
  exists c' ibs gp fp, ctx_wf c' /\ (forall p, m_producer m = Some p -> p ∈ sm_strings (strings c')) /\
    globals_payload m v c' gp /\ functions_payload m c' ibs fp /\
    parse_type_section (type_section (types c') v) v = Ok (type_text None <$> tm_list (types c')) /\
    bytes = foldl put_section out (file_sections c' gp fp (debug_section c')) ++ [Section_.as_u8 Section_.EndOfBytecode].
Proof.
  intros Hw Hc Hp H Hs. unfold write_sections in H.
  apply bind_Ok in H as ([o1 c1] & E1 & H).
  destruct (global_section_spec m v Hm out c _ Hw Hc E1) as (W1 & X1 & gp & P1 & G1). cbn [fst snd] in *. clear E1.
  apply bind_Ok in H as ([o2 c2] & E2 & H).
  destruct (function_section_spec f16_bits bf16_bits m v Hm Hhints o1 c1 _ W1 E2) as (W2 & X2 & ibs & fp & P2 & F2).
  cbn [fst snd] in *. clear E2.
  apply bind_Ok in H as (o3 & E3 & H). apply bind_Ok in H as ([o4 c4] & E4 & H).
  injection E4 as <- <-. cbn [types strings] in H.
  apply bind_Ok in H as (o5 & E5 & H). apply bind_Ok in H as (o6 & E6 & H). apply Ok_inj in H as <-.
  exists c2, ibs, gp, fp.
  assert (Hpr : producer_section m o6 (mkWriterCtx (value_map c2) (next_idx c2) (strings c2) (types c2) (constants c2)
     (mkDebugInfoCollector (ensure_non_empty (dc_attrs (debug c2))) (per_function (debug c2)) (current_scope (debug c2))))
     = put_section o6 (Section_.Producer, 1, producer_payload c2)).
  { unfold producer_section, producer_payload. by destruct (m_producer m). }
  rewrite Hpr in *. rewrite zlen_app in Hs. change (zlen [Section_.as_u8 Section_.EndOfBytecode]) with 1 in Hs.
  assert (S6 : zlen o6 <= U32_MAX) by (pose proof (put_section_grows o6 (Section_.Producer, 1, producer_payload c2)); lia).
  apply string_section_put in E6; [|done].
  assert (S5 : zlen o5 <= U32_MAX) by (pose proof (put_section_grows o5 (Section_.String, 4, string_section (strings c2))); subst o6; lia).
  apply type_section_ok in E5 as [E5 Pt]; [|by apply cw_types|eapply Forall_impl; [by apply cw_types_ok|apply deep_ok_type_ok]|done].
  set (o4 := write_section_header o3 Section_.Debug _ 8 ++ _) in *.
  assert (S3 : zlen o3 <= U32_MAX).
  { pose proof (put_section_grows o4 (Section_.Type_, 4, type_section (types c2) v)).
    pose proof (put_section_grows o3 (Section_.Debug, 8, Some (debug_section c2))) as H4.
    change (put_section o3 _) with o4 in H4. subst o5. lia. }
  apply (table_section_put _ 8) in E3; [|lia|done].
  pose proof (ctx_ext_trans _ _ _ X1 X2) as X. split_and!; try done.
  - intros p Hpp. destruct X as ([[k Hk] _] & _). rewrite Hk. apply elem_of_app. left. auto.
  - exact (globals_payload_ext _ _ _ X2 G1).
  - f_equal. cbn [file_sections foldl]. rewrite <- P1, <- P2.
    change (put_section o2 (Section_.Constant, 8, constant_section (constants c2)))
      with (put_section o2 (Section_.Constant, Z.of_nat 8, table_section 8 (cm_entries (constants c2)))).
    rewrite <- E3. change (put_section o3 (Section_.Debug, 8, Some (debug_section c2))) with o4. by rewrite <- E5, <- E6.
Qed.

(** What the dump of a module's bytecode says. *)
Definition module_dump (strs tys : list string) (consts : list (list Z)) (fs : list (FunctionInfo * Z)) (dbg : string)
    : string :=
  line ("TileIR bytecode v" +:+ show_version v) +:+ line EmptyString
  +:+ numbered "Strings" (show_str <$> strs) +:+ producer_lines
  +:+ numbered "Types" tys
  +:+ numbered "Constants" ((fun c => pretty (zlen c) +:+ " bytes") <$> consts)
  +:+ globals_text ((fun kg => global_line v kg.1 kg.2) <$> number 0 (m_globals m))
  +:+ match m_functions m with
      | [] => EmptyString
      | _ => functions_text ((fun f => function_line f.1 f.2) <$> fs)
      end
  +:+ dbg.

Lemma file_sections_sizes out c gp fp dbg :
  zlen (foldl put_section out (file_sections c gp fp dbg)) <= U32_MAX ->
  payload_fits gp /\ payload_fits fp /\ zlen dbg <= U32_MAX /\
  (exists o, zlen (put_section o (Section_.Constant, 8, constant_section (constants c))) <= U32_MAX) /\
  payload_fits (type_section (types c) v) /\
  (exists o, zlen (put_section o (Section_.String, 4, string_section (strings c))) <= U32_MAX).
Proof.
  cbn [file_sections foldl]. intros H.
  set (o1 := put_section out _) in *. set (o2 := put_section o1 _) in *. set (o3 := put_section o2 _) in *.
  set (o4 := put_section o3 _) in *. set (o5 := put_section o4 _) in *. set (o6 := put_section o5 _) in *.
  set (o7 := put_section o6 _) in *.
  assert (G : zlen o1 <= U32_MAX /\ zlen o2 <= U32_MAX /\ zlen o3 <= U32_MAX /\ zlen o4 <= U32_MAX /\ zlen o5 <= U32_MAX /\
              zlen o6 <= U32_MAX).
  { pose proof (put_section_grows o1 (Section_.Func, 8, fp)) as G1.
    pose proof (put_section_grows o2 (Section_.Constant, 8, constant_section (constants c))) as G2.
    pose proof (put_section_grows o3 (Section_.Debug, 8, Some dbg)) as G3.
    pose proof (put_section_grows o4 (Section_.Type_, 4, type_section (types c) v)) as G4.
    pose proof (put_section_grows o5 (Section_.String, 4, string_section (strings c))) as G5.
    pose proof (put_section_grows o6 (Section_.Producer, 1, producer_payload c)) as G6.
    fold o2 in G1. fold o3 in G2. fold o4 in G3. fold o5 in G4. fold o6 in G5. fold o7 in G6. lia. }
  destruct G as (G1 & G2 & G3 & G4 & G5 & G6).
  assert (Hpay : forall o sid al p o', put_section o (sid, al, p) = o' -> zlen o' <= U32_MAX -> payload_fits p).
  { intros o sid al [b|] o' <- Ho; [|done]. pose proof (put_section_payload o sid al b). cbn. lia. }
  split_and!.
  - by apply (Hpay _ _ _ _ o1 eq_refl).
  - by apply (Hpay _ _ _ _ o2 eq_refl).
  - by apply (Hpay _ _ _ (Some dbg) o4 eq_refl).
  - by exists o2.
  - by apply (Hpay _ _ _ _ o5 eq_refl).
  - by exists o5.
Qed.

Lemma table_section_count n es : (1 <= n)%nat -> payload_fits (table_section n es) -> zlen es <= U32_MAX.
Proof.
  unfold table_section. destruct es as [|e es]; [done|]. cbn [payload_fits]. intros Hn H.
  pose proof (payload_entries n (e :: es)). pose proof (zlen_nonneg (e :: es)). nia.
Qed.

Lemma debug_section_ok c strs : ctx_wf c -> zlen (sm_strings (strings c)) <= U32_MAX -> zlen (debug_section c) <= U32_MAX ->
  zlen (per_function (debug c)) <= U32_MAX /\
  exists text, parse_debug_section show_str (debug_section c) strs = Ok text.
Proof.
  intros Hw Hs Hd. destruct (ensure_non_empty_wf _ _ (cw_debug _ Hw)) as (W & Hb & _).
  unfold debug_section in *. set (t := ensure_non_empty _) in *.
  destruct (debug_image_sizes (starts 0 (per_function (debug c))).1 (starts 0 (per_function (debug c))).2
    (concat (per_function (debug c))) (starts 0 (da_entries t)).1 (da_entries t)) as (S1 & _ & S3 & _).
  rewrite <- debug_payload_image in S1, S3.
  assert (E1 : zlen (starts 0 (per_function (debug c))).1 = zlen (per_function (debug c))) by (unfold zlen; by rewrite starts_length).
  assert (E3 : zlen (starts 0 (da_entries t)).1 = zlen (da_entries t)) by (unfold zlen; by rewrite starts_length).
  rewrite E1 in S1. rewrite E3 in S3.
  split; [lia|]. apply (debug_section_parses show_str strs (id_bound (strings c) t)); [| |by apply dw_entries|done].
  - unfold id_bound. unfold sm_strings, zlen in Hs. rewrite length_fmap in Hs. unfold zlen in *. unfold U32_MAX in *. lia.
  - eapply ids_mono; [exact Hb|]. by apply cw_ids.
Qed.

Lemma supported_wf : v ∈ SUPPORTED -> version_wf v.
Proof. unfold SUPPORTED. rewrite !elem_of_cons. intros [->|[->|[->|?%elem_of_nil]]]; [..|done]; by repeat split; vm_compute. Qed.

(** The file read back section by section. *)
Lemma read_file_sections c gp fp dbg : v ∈ SUPPORTED ->
  let file := foldl put_section (write_header [] v) (file_sections c gp fp dbg) ++ [Section_.as_u8 Section_.EndOfBytecode] in
  fits file -> run read_file file = Ok (v, foldl collect ∅ (file_sections c gp fp dbg)).
Proof.
  intros Hv file Hf. subst file. destruct (put_sections_prefix (write_header [] v) (file_sections c gp fp dbg)) as [t Et].
  rewrite Et, <- app_assoc in *. unfold run, reader_new, read_file.
  change (mkReader (write_header [] v ++ t ++ [Section_.as_u8 Section_.EndOfBytecode]) 0)
    with (at_ [] (write_header [] v ++ t ++ [Section_.as_u8 Section_.EndOfBytecode])).
  rewrite (reads_at_step [] _ _ _ v _ (reads_read_header v (supported_wf Hv) [])) by exact Hf. cbn [app].
  erewrite RM_bind_Ok by reflexivity. set (fuel := S _).
  pose proof (collect_sections_put (file_sections c gp fp dbg) (write_header [] v) ∅ t fuel
    (file_sections_ok c gp fp dbg) Et Hf) as Hc.
  unfold mbind at 1, RM_bind at 1. destruct (collect_sections fuel ∅ _) as [o r]. cbn [fst] in Hc.
  rewrite Hc; [done|]. subst fuel. cbn [data at_ file_sections length]. rewrite length_app.
  unfold write_header. rewrite !length_app. cbn. lia.
Qed.
End decode.

(** Sections found by id, whatever surrounds them. *)
Ltac find_section :=
  cbn [file_sections foldl]; repeat (rewrite collect_get_ne by done); apply collect_get_eq;
  repeat (rewrite collect_get_ne by done); reflexivity.

Lemma file_sections_get m v c gp fp dbg :
  let secs := foldl collect ∅ (file_sections m v c gp fp dbg) in
  sections_get Section_.String secs = string_section (strings c) /\
  sections_get Section_.Producer secs = producer_payload m c /\
  sections_get Section_.Type_ secs = type_section (types c) v /\
  sections_get Section_.Constant secs = constant_section (constants c) /\
  sections_get Section_.Global secs = gp /\ sections_get Section_.Func secs = fp /\
  sections_get Section_.Debug secs = Some dbg.
Proof. split_and!; find_section. Qed.

(** C6: Decoding what was written. Whenever [write_bytecode_version] produces
    a file of less than 4 GiB for a module whose data fits its fields and whose
    entries carry no optimization hints, [decode_bytecode] accepts the file, and
    the dump lists the producer, every global in order with its name, type,
    constant, alignment, visibility and constness, and every function in order
    with its kind, name and signature, all resolved through the string and type
    tables of the file. *)
Theorem bytecode_decodes (f16_bits bf16_bits : Z -> Z) (show_str : string -> string) (m : IRModule)
    (v : BytecodeVersion) (bytes : list Z) (Hm : module_ok m)
    (Hhints : forall f op, f ∈ m_functions m -> get_op m f = Ok op -> function_hints op = None)
    (Hw : write_bytecode_version f16_bits bf16_bits m v = Ok bytes) (Hs : zlen bytes <= U32_MAX) :
  exists strs tys consts fs dbg,
    Forall2 (function_info m) (m_functions m) fs.*1 /\
    decode_bytecode show_str bytes = Ok (module_dump show_str m v strs tys consts fs dbg).
Proof.
  unfold write_bytecode_version in Hw. destruct (version_lt v MIN_SUPPORTED); [done|].
  case_bool_decide as Hv; [|done]. cbn [negb] in Hw. apply bind_Ok in Hw as ([[] s0] & Hp & Hw).
  destruct (prescan_spec m v Hm s0 Hp) as (W0 & C0 & P0). cbn [snd] in Hw.
  destruct (write_sections_spec f16_bits bf16_bits m v Hm Hhints _ _ _ W0 C0 P0 Hw Hs)
    as (c & ibs & gp & fp & W & P & G & F & T & ->). clear Hw Hp W0 C0 P0 s0.
  assert (Hs' : zlen (foldl put_section (write_header [] v) (file_sections m v c gp fp (debug_section c))) <= U32_MAX)
    by (rewrite zlen_app in Hs; pose proof (zlen_nonneg [Section_.as_u8 Section_.EndOfBytecode]); lia).
  destruct (file_sections_sizes m v _ c gp fp (debug_section c) Hs') as (Sg & Sf & Sd & (oc & Sc) & St & (os & Ss)).
  apply (table_section_count 4) in St; [|lia].
  assert (Sstr : zlen (sm_strings (strings c)) <= U32_MAX).
  { assert (Hps : payload_fits (string_section (strings c))).
    { destruct (string_section (strings c)) as [b|]; [|done]. pose proof (put_section_payload os Section_.String 4 b). cbn. lia. }
    apply (table_section_count 4) in Hps; [|lia]. unfold zlen in *. by rewrite length_fmap in Hps. }
  assert (Sty : zlen (tm_list (types c)) <= U32_MAX) by (unfold zlen in *; by rewrite length_fmap in St).
  destruct (debug_section_ok show_str c (decoded <$> sm_strings (strings c)) W Sstr Sd) as [Spf [dbg Hdbg]].
  exists (decoded <$> sm_strings (strings c)), (type_text None <$> tm_list (types c)), (cm_entries (constants c)),
    ((fun ib => (ib.1, zlen ib.2)) <$> ibs), dbg.
  split.
  { destruct F as [F _]. rewrite <- list_fmap_compose. apply Forall2_fmap_r. exact F. }
  unfold decode_bytecode. rewrite (read_file_sections m v c gp fp (debug_section c) Hv) by (by apply u32_fits).
  cbn [mbind outcome_bind fst snd]. unfold dump. cbv zeta.
  destruct (file_sections_get m v c gp fp (debug_section c)) as (Es & Ep & Et & Ec & Eg & Ef & Ed).
  rewrite Es, Ep, Et, Ec, Eg, Ef, Ed.
  rewrite (string_section_parses os (strings c) Ss), bind_ret_l.
  rewrite (producer_parses show_str m c W Sstr P), bind_ret_l, T, bind_ret_l.
  rewrite (constant_section_parses oc (constants c) Sc), bind_ret_l.
  rewrite (globals_parse m v Hm c Sstr Sty gp G Sg), bind_ret_l.
  rewrite (functions_parse m Hhints c Sstr Sty Spf ibs fp F Sf), bind_ret_l.
  cbn [opt_text]. rewrite Hdbg, bind_ret_l. unfold module_dump.
  assert (Efs : (fun f => function_line f.1 f.2) <$> ((fun ib => (ib.1, zlen ib.2)) <$> ibs)
                = (fun ib => function_line ib.1 (zlen ib.2)) <$> ibs) by (by rewrite <- list_fmap_compose).
  by rewrite Efs.
Qed.


Lemma bytecode_decodes_witness : exists bytes,
  write_bytecode_version id id (example_module []) V13_4 = Ok bytes /\
  exists strs tys consts fs dbg,
    Forall2 (function_info (example_module [])) (m_functions (example_module [])) fs.*1 /\
    decode_bytecode id bytes = Ok (module_dump id (example_module []) V13_4 strs tys consts fs dbg).
Proof.
  eexists. split; [vm_compute; reflexivity|].
  apply (bytecode_decodes id id id (example_module []) V13_4).
  - apply example_module_ok.
  - intros f op Hf Ho. vm_compute in Hf. apply list_elem_of_singleton in Hf as ->. vm_compute in Ho.
    apply Ok_inj in Ho as <-. vm_compute. reflexivity.
  - vm_compute. reflexivity.
  - vm_compute. discriminate.
Defined.

(** ** Entries with optimization hints *)

(** The hints start with their tag. *)
Lemma hints_bytes f16 bf16 entries s s' :
  write_self_contained_attribute f16 bf16 (AOptimizationHints entries) s = Ok (tt, s') ->
  exists hs, s'.2 = write_bytes (varint (AttributeTag.as_u8 AttributeTag.OptimizationHints) ++ hs) s.2.
Proof.
  cbn [write_self_contained_attribute]. intros H. wm_step H u s1 E. apply put_varint_Ok in E as ->.
  match type of H with ?f _ = _ => assert (Hr : respects appends f) end.
  { apply respects_bind; [by apply (respects_varint (T:=fun _ => True))|]. intros _.
    apply respects_each_pair. intros arch hints _.
    apply respects_bind; [by apply (respects_string (T:=fun _ => True))|]. intros _.
    apply respects_bind; [by apply (respects_varint (T:=fun _ => True))|]. intros _.
    apply respects_bind; [by apply (respects_varint (T:=fun _ => True))|]. intros _.
    apply respects_each_pair. intros k v _. apply respects_bind; [by apply (respects_string (T:=fun _ => True))|]. intros _.
    apply (respects_self_contained (T:=fun _ => True)), attr_all_True. }
  destruct (Hr _ _ _ H) as [hs E]. exists hs. cbn [fst snd] in E. by rewrite E, write_bytes_app.
Qed.

(** The decoder does not skip optimization hints. For a function record
    written with hints, [parse_func] takes the attribute's tag for the length
    of the body: the dump reports a body of eleven bytes whatever body
    follows. *)
Lemma hints_read_as_body (f16_bits bf16_bits : Z -> Z) (strs tys : list string) (ni si di flags : Z)
    (entries : list (string * list (string * Attribute))) (s s' : WS) (Hni : in_u64 ni) (Hsi : in_u64 si)
    (Hdi : in_u64 di)
    (H : write_self_contained_attribute f16_bits bf16_bits (AOptimizationHints entries) s = Ok (tt, s')) :
  exists hints, s'.2 = write_bytes hints s.2 /\
    forall body, let record := varint ni ++ varint si ++ [flags] ++ varint di ++ hints ++ varint (zlen body) ++ body in
      fits record -> 12 <= zlen (hints ++ varint (zlen body) ++ body) ->
      run (parse_func strs tys) record = Ok (render_func (prev_name strs ni) (prev_name tys si) flags 11 11).
Proof.
  destruct (hints_bytes _ _ _ _ _ H) as [hs E]. eexists. split; [exact E|]. intros body record Hf Hl. subst record.
  assert (exists b1 b2, hs ++ varint (zlen body) ++ body = b1 ++ b2 /\ zlen b1 = 11) as (b1 & b2 & Eb & L1).
  { exists (take 11 (hs ++ varint (zlen body) ++ body)), (drop 11 (hs ++ varint (zlen body) ++ body)).
    rewrite take_drop. split; [done|]. unfold zlen in *. rewrite <- app_assoc, length_app in Hl. rewrite length_take.
    change (length (varint (AttributeTag.as_u8 AttributeTag.OptimizationHints))) with 1%nat in Hl. lia. }
  rewrite <- app_assoc in *. rewrite Eb in *.
  set (pre := varint ni ++ varint si ++ [flags] ++ varint di ++ varint (AttributeTag.as_u8 AttributeTag.OptimizationHints) ++ b1).
  assert (Ep : varint ni ++ varint si ++ [flags] ++ varint di ++ varint (AttributeTag.as_u8 AttributeTag.OptimizationHints) ++ b1 ++ b2
               = pre ++ b2) by (subst pre; by rewrite <- !app_assoc).
  rewrite Ep in *. apply run_prefix; [|done]. subst pre. unfold parse_func.
  eapply reads_bind; [by apply reads_varint|]. eapply reads_bind; [by apply reads_varint|].
  eapply reads_bind; [apply reads_byte|]. eapply reads_bind; [by apply reads_varint|].
  eapply reads_bind; [apply reads_varint; split; vm_compute; discriminate|].
  change (AttributeTag.as_u8 AttributeTag.OptimizationHints) with 11. rewrite <- (app_nil_r b1).
  apply (reads_bind (read_bytes 11) _ b1 [] b1); [rewrite <- L1; apply reads_bytes|].
  unfold count_ops_in_body. rewrite L1. apply reads_ret.
Qed.

Lemma hints_read_as_body_witness :
  let hints := varint 11 ++ [1; 0; 10; 1; 1; 1; 0; 4] in
  exists s', write_self_contained_attribute id id
      (AOptimizationHints [("sm_100"%string, [("num_ctas"%string, AInteger 4 (TScalar ScalarType.I32))])])
      (ctx_new, writer_new) = Ok (tt, s') /\ s'.2 = write_bytes hints writer_new /\
    run (parse_func ["k"%string] ["() -> ()"%string])
      (varint 0 ++ varint 0 ++ [6] ++ varint 1 ++ hints ++ varint (zlen [1; 2; 3]) ++ [1; 2; 3])
    = Ok (render_func "k" "() -> ()" 6 11 11).
Proof.
  intros hints. eexists. split; [vm_compute; reflexivity|].
  pose proof (hints_read_as_body id id ["k"%string] ["() -> ()"%string] 0 0 1 6
    [("sm_100"%string, [("num_ctas"%string, AInteger 4 (TScalar ScalarType.I32))])]) as Ht.
  specialize (Ht (ctx_new, writer_new) _ ltac:(split; vm_compute; discriminate) ltac:(split; vm_compute; discriminate)
    ltac:(split; vm_compute; discriminate) eq_refl).
  destruct Ht as (hs & E & Hb). split; [vm_compute; reflexivity|].
  assert (hs = hints) as ->. { vm_compute in E. injection E as E. subst hints. by rewrite <- E. }
  apply (Hb [1; 2; 3]); vm_compute; discriminate.
Defined.
