(* ===== verification/WriterTotal.v ===== *)
(** * The writer returns

    Serialization recurses through the regions of a module and indexes
    operand lists by the segment sizes an attribute declares; both can go
    wrong at run time.  This file states what a module must satisfy for
    [write_bytecode_version] to come back with bytes or an error, and shows
    that the fuel of the recursions is then never exhausted. *)

From S2P Require Import Prelude Enums Encoding IR Tables TypeTable Module Writer OpWriter ModuleWriter WriterFacts Roundtrip.

(** ** Returning *)

(** At least [k] functions have been started, and the type table is closed
    under dependencies. *)
Definition open (k : nat) (s : WS) : Prop :=
  (k <= length (per_function (debug s.1)))%nat /\ tm_wf (types s.1).

(** From such a state the routine does not panic, and stays in one. *)
Definition returns {A} (k : nat) (m : WM A) : Prop := forall s, open k s ->
  match m s with Ok (_, s') => open k s' | Err _ => True | Panic => False end.

Section structure.
Context {k : nat}.

Lemma returns_bind {A B} (m : WM A) (f : A -> WM B) :
  returns k m -> (forall a, returns k (f a)) -> returns k (m ≫= f).
Proof.
  intros Hm Hf s Hs. unfold mbind, WM_bind. specialize (Hm s Hs).
  destruct (m s) as [[a s1]| |]; [|done..]. by apply Hf.
Qed.

Lemma returns_ret {A} (a : A) : returns k (mret a).
Proof. by intros s Hs. Qed.

Lemma returns_lift_bind {A B} (o : outcome Error A) (f : A -> WM B) :
  o <> Panic -> (forall a, o = Ok a -> returns k (f a)) -> returns k (wlift o ≫= f).
Proof. intros Ho Hf s Hs. unfold mbind, WM_bind, wlift. destruct o; cbn; [by apply Hf|done..]. Qed.

Lemma returns_lift {A} (o : outcome Error A) : o <> Panic -> returns k (wlift o).
Proof. intros Ho s Hs. unfold wlift. by destruct o. Qed.

Lemma returns_fail {A} msg : returns k (wfail (A:=A) msg).
Proof. by apply returns_lift. Qed.

Lemma returns_each {A} (f : A -> WM unit) l : Forall (fun x => returns k (f x)) l -> returns k (each f l).
Proof.
  induction 1 as [|x l Hx Hl IH]; [apply returns_ret|]. apply returns_bind; [exact Hx|]. intros _. exact IH.
Qed.

Lemma returns_each_all {A} (f : A -> WM unit) l : (forall x, returns k (f x)) -> returns k (each f l).
Proof. intros H. apply returns_each, Forall_forall. auto. Qed.

Lemma returns_each_pair {A} (f : string -> A -> WM unit) (l : list (string * A)) :
  (forall key v, (key, v) ∈ l -> returns k (f key v)) -> returns k (each (fun kv => let '(key, v) := kv in f key v) l).
Proof. intros H. apply returns_each, Forall_forall. intros [key v]. apply H. Qed.

Lemma returns_when b m : (b = true -> returns k m) -> returns k (when b m).
Proof. destruct b; [auto|]. intros _. apply returns_ret. Qed.

Lemma returns_emit f : returns k (emit f).
Proof. by intros s Hs. Qed.

Lemma returns_string str : returns k (string_index str).
Proof. intros [c w] Hs. unfold string_index. by destruct (sm_get_or_insert (strings c) str). Qed.

Lemma returns_type ty : returns k (type_index ty).
Proof.
  intros [c w] [Hl Hw]. unfold type_index. destruct (tm_get_or_insert (types c) ty) as [tm i] eqn:E.
  split; [done|]. exact (ins_wf _ _ _ _ (tm_get_or_insert_spec _ _ _ _ Hw E)).
Qed.

Lemma returns_constant data : returns k (constant_index data).
Proof. intros [c w] Hs. unfold constant_index. by destruct (cm_add (constants c) data). Qed.

Lemma returns_lookup v : returns k (lookup_value v).
Proof. by intros s Hs. Qed.

Lemma returns_define v : returns k (define_value v).
Proof. by intros [c w] Hs. Qed.

Lemma returns_put_string str : returns k (put_string str).
Proof. apply returns_bind; [apply returns_string|intros; apply returns_emit]. Qed.

Lemma returns_put_type ty : returns k (put_type ty).
Proof. apply returns_bind; [apply returns_type|intros; apply returns_emit]. Qed.

Lemma returns_put_constant data : returns k (put_constant data).
Proof. apply returns_bind; [apply returns_constant|intros; apply returns_emit]. Qed.

Lemma returns_option o : returns k (put_option o).
Proof. destruct o; [apply returns_emit|apply returns_ret]. Qed.
End structure.

Create HintDb total.
#[export] Hint Resolve returns_bind returns_ret returns_fail returns_when returns_emit returns_string returns_type
  returns_constant returns_lookup returns_define returns_put_string returns_put_type returns_put_constant
  returns_option : total.
#[export] Hint Extern 0 (returns _ (put_varint _)) => apply returns_emit : total.
#[export] Hint Extern 0 (returns _ (put_byte _)) => apply returns_emit : total.
#[export] Hint Extern 0 (returns _ (put_bytes _)) => apply returns_emit : total.
#[export] Hint Extern 0 (returns _ (put_tag _)) => apply returns_emit : total.

(** Solve [returns k _] by the structure of the routine. *)
Ltac total := eauto 40 with total nocore.

(** Go past a step that returns. *)
Ltac total_step := apply returns_bind; [total|intros _].

(** ** Attributes *)

Section attributes.
Context {k : nat} (f16_bits bf16_bits : Z -> Z).

Lemma returns_self_contained attr : returns k (write_self_contained_attribute f16_bits bf16_bits attr).
Proof.
  induction attr as [attr Hl|elems IH|entries IH|entries IH] using attribute_ind';
    cbn [write_self_contained_attribute].
  - destruct attr; try discriminate Hl; cbn [write_self_contained_attribute]; total.
  - do 2 total_step. apply returns_each. exact IH.
  - do 2 total_step. apply returns_each_pair. rewrite Forall_forall in IH. intros key v Hk. total_step.
    exact (IH _ Hk).
  - do 2 total_step. apply returns_each_pair. rewrite Forall_forall in IH. intros arch hints Hk.
    do 3 total_step. pose proof (IH _ Hk) as IHk. cbn in IHk. rewrite Forall_forall in IHk.
    apply returns_each_pair. intros key v Hv. total_step. exact (IHk _ Hv).
Qed.

Lemma returns_inline attr : returns k (write_attr_value_inline f16_bits bf16_bits attr).
Proof.
  destruct attr; cbn [write_attr_value_inline]; try total; try apply returns_self_contained; total_step.
  - apply returns_each_all, returns_self_contained.
  - apply returns_each_pair. intros key v _. total_step. apply returns_self_contained.
  - apply returns_each_pair. intros key v _. total_step. apply returns_self_contained.
Qed.

Lemma returns_prescan_attribute name attr : returns k (prescan_attribute name attr).
Proof.
  revert name. induction attr as [attr Hl|elems IH|entries IH|entries IH] using attribute_ind'; intros name;
    [destruct attr; try discriminate Hl; cbn [prescan_attribute]; total|..]; cbn [prescan_attribute];
    (apply returns_bind; [total|intros _]).
  - apply returns_each. rewrite Forall_forall in *. auto.
  - apply returns_each_pair. rewrite Forall_forall in IH. intros key v Hk. exact (IH _ Hk _).
  - apply returns_each_pair. rewrite Forall_forall in IH. intros arch hints Hk.
    apply returns_bind; [total|intros _]. pose proof (IH _ Hk) as IHk. cbn in IHk. rewrite Forall_forall in IHk.
    apply returns_each_pair. intros key v Hv. exact (IHk _ Hv _).
Qed.
End attributes.

#[export] Hint Resolve returns_self_contained returns_inline : total.

(** ** Operand groups *)

(** The operand groups an arm writes whatever the segment sizes say. *)
Definition required_groups (o : Opcode) : list nat :=
  match o with
  | Opcode.MakeTensorView | Opcode.LoadPtrTko | Opcode.LoadViewTko => [0]
  | Opcode.AtomicRMW | Opcode.StorePtrTko | Opcode.StoreViewTko => [0; 1]
  | Opcode.AtomicRedViewTko => [0; 2]
  | Opcode.AtomicCAS => [0; 1; 2]
  | _ => []
  end%nat.

(** Operands are values of the module; segment sizes are not negative, cover
    no more than the operands and give every required group an operand. *)
Definition op_indexable (m : IRModule) (op : Operation) : bool :=
  (zlen (operands op) <=? ISIZE_MAX)
  && forallb (fun v => (Z.to_nat v <? length (m_values m))%nat) (operands op)
  && forallb (Z.leb 0) (operand_segment_sizes op)
  && (foldr Z.add 0 (operand_segment_sizes op) <=? zlen (operands op))
  && forallb (fun g => 0 <? segment_size op g) (required_groups (opcode op)).

Lemma arena_lt {A} (l : list A) (i : Z) : (Z.to_nat i < length l)%nat -> arena l i <> Panic.
Proof. intros H. unfold arena. destruct (lookup_lt_is_Some_2 l (Z.to_nat i) H) as [x ->]. done. Qed.

Lemma sum_nonneg l : Forall (Z.le 0) l -> 0 <= foldr Z.add 0 l.
Proof. induction 1; cbn; lia. Qed.

(** A group starts after the groups before it and ends within the total. *)
Lemma prefix_sum l g : Forall (Z.le 0) l -> foldr Z.add 0 l <= ISIZE_MAX ->
  0 <= foldr Z.add 0 (as_u64 <$> take g l) /\
  foldr Z.add 0 (as_u64 <$> take g l) + default 0 (l !! g) <= foldr Z.add 0 l /\ 0 <= default 0 (l !! g).
Proof.
  intros Hl. revert g. induction Hl as [|x l Hx Hl IH]; intros g Hs; [rewrite take_nil, lookup_nil; cbn; lia|].
  pose proof (sum_nonneg l Hl). cbn [foldr] in *. destruct g as [|g]; [cbn; lia|].
  cbn [take fmap list_fmap foldr]. change ((x :: l) !! S g) with (l !! g).
  rewrite as_u64_id by (unfold_int; lia). destruct (IH g); [lia|]. lia.
Qed.

Section groups.
Context (m : IRModule) (op : Operation) (Hop : op_indexable m op = true).

Lemma indexable :
  zlen (operands op) <= ISIZE_MAX /\ Forall (fun v => (Z.to_nat v < length (m_values m))%nat) (operands op) /\
  Forall (Z.le 0) (operand_segment_sizes op) /\
  foldr Z.add 0 (operand_segment_sizes op) <= zlen (operands op) /\
  Forall (fun g => 0 < segment_size op g) (required_groups (opcode op)).
Proof.
  unfold op_indexable in Hop. rewrite !andb_true_iff, !forallb_Forall in Hop. destruct Hop as [[[[H1 H2] H3] H4] H5].
  split_and!; [by apply Z.leb_le| | |by apply Z.leb_le|].
  - eapply Forall_impl; [exact H2|]. intros v. cbn beta. intros H. by apply Nat.ltb_lt.
  - eapply Forall_impl; [exact H3|]. intros v. cbn beta. intros H. by apply Z.leb_le.
  - eapply Forall_impl; [exact H5|]. intros v. cbn beta. intros H. by apply Z.ltb_lt.
Qed.

Lemma group_range g :
  0 <= operand_group_offset op g /\ operand_group_offset op g + segment_size op g <= zlen (operands op) /\
  0 <= segment_size op g.
Proof.
  destruct indexable as (Hlen & _ & Hnn & Hsum & _).
  destruct (prefix_sum (operand_segment_sizes op) g Hnn ltac:(lia)) as (P1 & P2 & P3).
  unfold operand_group_offset, segment_size. rewrite as_u64_id by (unfold_int; lia). lia.
Qed.

Lemma required_group g : g ∈ required_groups (opcode op) -> 0 < segment_size op g.
Proof. destruct indexable as (_ & _ & _ & _ & H). rewrite Forall_forall in H. auto. Qed.

Lemma returns_put_value {k} v msg : returns k (put_value v msg).
Proof. apply returns_bind; [total|]. intros [i|]; total. Qed.

Lemma returns_group {k} what offset size : 0 <= offset -> offset + size <= zlen (operands op) ->
  returns k (run_group op what offset size).
Proof.
  intros Ho Hs. destruct indexable as (Hlen & _). unfold run_group.
  assert (Hgen : forall fuel i, 0 <= i -> size - i <= Z.of_nat fuel -> returns k (group_loop fuel op what offset i size)).
  2: { apply Hgen; [done|]. unfold zlen in *. lia. }
  induction fuel as [|fuel IH]; intros i Hi Hn; cbn [group_loop]; destruct (Z.leb_spec size i);
    try apply returns_ret; [lia|].
  apply returns_lift_bind.
  { apply arena_lt. rewrite as_u64_id by (unfold_int; lia). unfold zlen in *. lia. }
  intros v _. apply returns_bind; [apply returns_put_value|]. intros _. apply IH; lia.
Qed.

Lemma returns_operand_group {k} g : 0 < segment_size op g -> returns k (write_operand_group op g 1).
Proof. intros Hg. destruct (group_range g) as (H1 & H2 & _). apply returns_group; lia. Qed.

Lemma returns_variadic_group {k} g : returns k (write_variadic_operand_group op g).
Proof.
  destruct (group_range g) as (H1 & H2 & H3). destruct indexable as (Hlen & _). total_step.
  rewrite as_u64_id by (unfold_int; lia). by apply returns_group.
Qed.

Lemma returns_print {k} f16_bits bf16_bits : returns k (print_tail f16_bits bf16_bits m op).
Proof.
  destruct indexable as (Hlen & Hv & _). unfold print_tail. apply returns_lift_bind.
  { unfold print_operand_groups. destruct (is_some _); [done|]. destruct (last (operands op)) as [v|] eqn:El; [|done].
    apply bind_no_panic; [|done]. apply last_Some_elem_of in El. rewrite Forall_forall in Hv.
    pose proof (arena_lt (m_values m) v (Hv _ El)). unfold value_type, value_data. by destruct (arena _ v). }
  intros [n b] Hg. do 1 total_step. apply returns_bind; [unfold write_inline_attr; destruct (find_op_attr _ _); total|].
  intros _. total_step. apply returns_bind; [apply returns_each_all; intros; apply returns_put_value|]. intros _.
  apply returns_when. intros ->. apply returns_lift_bind; [|intros; apply returns_put_value].
  apply arena_lt. unfold print_operand_groups in Hg. destruct (is_some _).
  - injection Hg as <- Ht. apply Z.ltb_lt in Ht. destruct (group_range 1) as (_ & H1 & _).
    destruct (group_range 0) as (_ & Hx & H0). unfold operand_group_offset in H1, Hx.
    destruct (operand_segment_sizes op) as [|x l] eqn:Es; [unfold segment_size in Ht; by rewrite Es in Ht|].
    unfold segment_size in *. rewrite Es in *. cbn in Hx, H0, H1, Ht |- *.
    change (as_u64 0) with 0 in Hx. rewrite take_0 in H1. cbn in H1.
    rewrite Z.add_0_r, !as_u64_id in H1; rewrite ?as_u64_id; unfold zlen in *; unfold_int; lia.
  - destruct (last (operands op)) as [v|] eqn:El; [|discriminate Hg]. apply bind_Ok in Hg as (ty & _ & Hg).
    destruct ty; try discriminate Hg; injection Hg as <-. apply last_Some_elem_of in El.
    apply list_elem_of_lookup in El as [i Hi]. apply lookup_lt_Some in Hi. cbn. unfold zlen. lia.
Qed.
End groups.

(** ** Operation bodies *)

Section bodies.
Context {k : nat} (f16_bits bf16_bits : Z -> Z) (m : IRModule) (version : BytecodeVersion).
Context (write_region : Z -> WM unit) (op : Operation).
Context (Hop : op_indexable m op = true).
Context (Hregion : writes_regions (opcode op) = true -> forall r, r ∈ regions op -> returns k (write_region r)).

Lemma require_version_returns f req : require_version f req version <> Panic.
Proof. unfold require_version. by destruct (version_lt _ _). Qed.

Lemma returns_require f req : returns k (require version f req).
Proof. apply returns_lift, require_version_returns. Qed.

Lemma returns_result_types : returns k (write_result_types op).
Proof. apply returns_each_all, returns_put_type. Qed.

Lemma returns_operands size : returns k (write_operands op size).
Proof. apply returns_bind; [total|]. intros _. apply returns_each_all. intros v. apply returns_put_value. Qed.

Lemma returns_inline_attr name : returns k (write_inline_attr f16_bits bf16_bits op name).
Proof. unfold write_inline_attr. destruct (find_op_attr op name); total. Qed.

Lemma returns_inline_or_default name d : returns k (write_inline_attr_or_default f16_bits bf16_bits op name d).
Proof. unfold write_inline_attr_or_default. destruct (find_op_attr op name); total. Qed.

Lemma returns_interface_attr name : returns k (write_interface_attr f16_bits bf16_bits op name).
Proof. unfold write_interface_attr. destruct (find_op_attr op name); total. Qed.

Lemma returns_memory_attrs flags : returns k (write_memory_attrs f16_bits bf16_bits op flags).
Proof.
  apply returns_bind; [apply returns_inline_attr|]. intros _.
  apply returns_bind; [|intros _]; apply returns_when; intros _; apply returns_inline_attr.
Qed.

Lemma bool_elements_returns attrs : bool_elements attrs <> Panic.
Proof.
  induction attrs as [|a attrs IH]; [done|]. destruct a; try done. cbn [bool_elements].
  by apply bind_no_panic.
Qed.

Lemma returns_inbounds g : returns k (write_inbounds version op g).
Proof.
  unfold write_inbounds. destruct (_ <? 0); [total|]. apply returns_lift_bind.
  { unfold inbounds_values. destruct (find_op_attr _ _) as [[]|]; try done.
    destruct (_ =? _); [apply bool_elements_returns|done]. }
  intros vs _. apply returns_bind; [apply returns_when; intros _; apply returns_require|]. intros _.
  apply returns_when. intros _. total_step. apply returns_each_all. intros. apply returns_emit.
Qed.

Lemma returns_regions : writes_regions (opcode op) = true -> returns k (write_regions write_region op).
Proof. intros Hr. total_step. apply returns_each, Forall_forall. auto. Qed.

(** A group behind a set flag has operands. *)
Ltac flagged_group :=
  let Hf := fresh in
  apply returns_when; intros Hf; apply (returns_operand_group m op Hop);
  unfold flag_if_operand_group, flag_if_present in Hf;
  match goal with |- 0 < segment_size ?o ?g =>
    let E := fresh in
    destruct (0 <? segment_size o g) eqn:E; [by apply Z.ltb_lt|];
    exfalso; revert Hf;
    repeat match goal with
    | |- context [if ?b then _ else _] => destruct b
    end; vm_compute; discriminate
  end.

(** A group the arm always writes. *)
Ltac required_group :=
  apply (returns_operand_group m op Hop), (required_group m op Hop);
  match goal with E : opcode op = _ |- _ => rewrite E end; apply list_elem_of_In; cbn; tauto.

#[local] Hint Extern 0 (returns _ (when (has_flag _ _) (write_operand_group _ _ _))) => flagged_group : total.
#[local] Hint Extern 0 (returns _ (write_operand_group _ _ _)) => required_group : total.
#[local] Hint Extern 0 (returns _ (write_regions _ _)) =>
  match goal with H : writes_regions _ = true -> returns _ (write_regions _ _) |- _ => by apply H end : total.
#[local] Hint Extern 0 (returns _ (write_variadic_operand_group _ _)) => apply (returns_variadic_group m op Hop) : total.
#[local] Hint Extern 0 (returns _ (print_tail _ _ _ _)) => apply (returns_print m op Hop) : total.
#[local] Hint Resolve returns_require returns_result_types returns_operands returns_inline_attr
  returns_inline_or_default returns_interface_attr returns_memory_attrs returns_inbounds : total.

Lemma returns_op_arm : returns k (op_arm f16_bits bf16_bits m version write_region op).
Proof.
  pose proof returns_regions as Hr. unfold op_arm, put_result_count. destruct (opcode op) eqn:E; cbv zeta; total.
Qed.

Lemma returns_op_body : returns k (write_op_body f16_bits bf16_bits m version write_region op).
Proof.
  apply returns_bind; [|intros _; apply returns_op_arm].
  apply returns_bind; [apply returns_require|]. intros _. apply returns_each_all.
  intros [name a]. cbn. destruct (attribute_feature _ _ _); [apply returns_require|total].
Qed.
End bodies.

(** ** Regions, functions and the module *)

Section module.
Context (f16_bits bf16_bits : Z -> Z) (m : IRModule) (version : BytecodeVersion).
Context (Hops : forallb (op_indexable m) (m_operations m) = true).

Lemma get_op_indexable o op : get_op m o = Ok op -> op_indexable m op = true.
Proof.
  unfold get_op, arena. destruct (_ !! _) as [op'|] eqn:E; [|done]. intros [= ->].
  apply forallb_Forall in Hops. rewrite Forall_forall in Hops. apply Hops. by eapply list_elem_of_lookup_2.
Qed.

Lemma returns_record k loc : (0 < k)%nat -> returns k (record_location loc).
Proof.
  intros Hk [c w] [Hl Hw]. unfold record_location, record_op. cbn in Hl |- *.
  destruct (attr_for _ _ _ _) as [[t sm] attr]. destruct (per_function (debug c)) as [|l ls] eqn:E; [cbn in Hl; lia|].
  split; [|done]. change (k <= length (push_last (l :: ls) attr))%nat. by rewrite push_last_length.
Qed.

Lemma returns_operation k wr o op : (0 < k)%nat -> get_op m o = Ok op ->
  (forall r, r ∈ regions op -> returns k (wr r)) ->
  returns k (write_operation f16_bits bf16_bits m version wr o).
Proof.
  intros Hk Ho Hr. unfold write_operation. apply returns_lift_bind; [by rewrite Ho|]. rewrite Ho. intros ? [= <-].
  apply returns_bind; [by apply returns_record|]. intros _. total_step.
  apply returns_bind; [apply returns_op_body; [by eapply get_op_indexable|auto]|]. intros _.
  apply returns_each_all. intros i. unfold define_result. destruct (find_op_result _ _ _); total.
Qed.

Lemma returns_block k wr fuel b : (0 < k)%nat -> block_tree m fuel b ->
  (forall o op r, op_tree m fuel o = true -> get_op m o = Ok op -> r ∈ regions op -> returns k (wr r)) ->
  returns k (write_block f16_bits bf16_bits m version wr b).
Proof.
  intros Hk (blk & Hb & Hblk) Hr. unfold write_block. apply returns_bind; [by intros s Hs|]. intros n.
  apply returns_lift_bind; [by rewrite Hb|]. rewrite Hb. intros ? [= <-]. total_step.
  apply returns_bind; [apply returns_each_all; intros; total|]. intros _. total_step.
  apply returns_bind; [|by intros _ [c w] Hs]. apply returns_each. eapply Forall_impl; [exact Hblk|]. cbn beta.
  intros o Ho. destruct fuel as [|fuel]; [done|]. pose proof Ho as (op & Hop & _)%op_tree_S.
  apply (returns_operation _ _ _ op Hk Hop). intros r. by apply (Hr o).
Qed.

(** A region whose nest is at most [fuel] deep is written with that fuel. *)
Lemma returns_region k fuel r : (0 < k)%nat -> region_tree m fuel r ->
  returns k (write_region f16_bits bf16_bits m version (S fuel) r).
Proof.
  intros Hk. revert r. induction fuel as [|fuel IH]; intros r (bs & Hr & Hbs); cbn [write_region];
    (apply returns_lift_bind; [by rewrite Hr|]; rewrite Hr; intros ? [= <-]; total_step);
    apply returns_each; (eapply Forall_impl; [exact Hbs|]; cbn beta; intros b Hb);
    (eapply returns_block; [done|exact Hb|]; intros o op r' Ho Hop Hin); [done|].
  apply IH. apply op_tree_S in Ho as (op' & Hop' & Ho). rewrite Hop in Hop'. injection Hop' as <-.
  rewrite Forall_forall in Ho. auto.
Qed.

Lemma region_tree_mono fuel fuel' r : (fuel <= fuel')%nat -> region_tree m fuel r -> region_tree m fuel' r.
Proof.
  intros Hle (bs & Hr & H). exists bs. split; [done|]. eapply Forall_impl; [exact H|]. intros b (blk & Hb & H').
  exists blk. split; [done|]. eapply Forall_impl; [exact H'|]. cbn beta. intros o. by apply op_tree_mono.
Qed.

Lemma returns_function_body k fuel f : (0 < k)%nat -> op_tree m (S fuel) f = true ->
  returns k (write_function_body f16_bits bf16_bits m version (S fuel) f).
Proof.
  intros Hk (op & Hop & Hrs)%op_tree_S. unfold write_function_body. apply returns_lift_bind; [by rewrite Hop|].
  rewrite Hop. intros ? [= <-]. destruct Hrs as [|r rs (bs & Hr & Hbs) _]; [apply returns_ret|].
  apply returns_lift_bind; [by rewrite Hr|]. rewrite Hr. intros ? [= <-].
  destruct Hbs as [|b bs (blk & Hb & Hblk) _]; [apply returns_ret|].
  apply returns_lift_bind; [by rewrite Hb|]. rewrite Hb. intros ? [= <-].
  apply returns_bind; [apply returns_each_all; intros; total|]. intros _. apply returns_each.
  eapply Forall_impl; [exact Hblk|]. cbn beta. intros o Ho. destruct fuel as [|fuel]; [done|].
  apply op_tree_S in Ho as (op' & Hop' & Ho). apply (returns_operation _ _ _ op' Hk Hop'). intros r' Hr'.
  rewrite Forall_forall in Ho. apply returns_region; [done|]. apply (region_tree_mono fuel); [lia|auto].
Qed.

(** Starting a function opens it for the operations that follow. *)
Lemma returns_begin {A} k name di_name loc (f : Z -> WM A) :
  (forall id, returns (S k) (f id)) -> returns k (begin_debug name di_name loc ≫= f).
Proof.
  intros Hf [c w] [Hl Hw]. unfold mbind, WM_bind, begin_debug, begin_function. cbn in Hl, Hw.
  destruct (match loc with FileLineCol _ _ _ => _ | _ => _ end) as [[t1 sm1] sc].
  destruct (attr_for sc t1 sm1 loc) as [[t2 sm2] fa].
  match goal with |- context [f ?id ?s] => pose proof (Hf id s) as H; destruct (f id s) as [[a s']| |] end;
    (apply H || (cut (open k s'); [done|]; destruct H as [Hl' Hw']; [|split; [lia|done]]));
    (split; [|done]; cbn [fst debug per_function]; rewrite length_app; cbn; lia).
Qed.

Lemma returns_into_bytes k body : returns k body -> returns k (into_bytes body).
Proof. intros H [c w] Hs. unfold into_bytes. specialize (H (c, writer_new) Hs). by destruct (body _) as [[? []]| |]. Qed.

Lemma returns_function k fuel f : op_tree m (S fuel) f = true ->
  returns k (write_function f16_bits bf16_bits m version (S fuel) f).
Proof.
  intros Hf. pose proof Hf as (op & Hop & _)%op_tree_S. unfold write_function.
  apply returns_lift_bind; [by rewrite Hop|]. intros op' _.
  do 2 (apply returns_lift_bind; [by destruct (_ (attributes op') _)|]; intros ? _).
  do 2 (apply returns_bind; [total|]; intros ?). do 2 total_step. cbv zeta.
  apply returns_bind.
  { unfold check_worker_warps. destruct (function_hints op'); [destruct (_ && _)|]; total. }
  intros _. total_step. apply returns_begin. intros id. total_step.
  apply returns_bind; [unfold write_hints; destruct (function_hints op'); total|]. intros _.
  apply returns_bind; [by intros [c w] Hs|]. intros _.
  apply returns_bind; [apply returns_into_bytes, returns_function_body; [lia|done]|]. intros body. total.
Qed.

(** *** Pre-scan and version checks *)

Lemma returns_prescan_attributes k op : returns k (prescan_attributes op).
Proof. apply returns_each_all. intros e. apply returns_prescan_attribute. Qed.

Lemma returns_intern k ty : returns k (intern_type ty).
Proof. unfold intern_type. total. Qed.

Lemma returns_prescan_region k fuel r : region_tree m fuel r -> returns k (prescan_region m (S fuel) r).
Proof.
  revert r. induction fuel as [|fuel IH]; intros r (bs & Hr & Hbs); cbn [prescan_region];
    (apply returns_lift_bind; [by rewrite Hr|]; rewrite Hr; intros ? [= <-]);
    apply returns_each; (eapply Forall_impl; [exact Hbs|]; cbn beta; intros b (blk & Hb & Hblk));
    (apply returns_lift_bind; [by rewrite Hb|]; rewrite Hb; intros ? [= <-]);
    (apply returns_bind; [apply returns_each_all; intros; apply returns_intern|]; intros _);
    apply returns_each; (eapply Forall_impl; [exact Hblk|]; cbn beta; intros o Ho); [done|].
  apply op_tree_S in Ho as (op & Hop & Ho). apply returns_lift_bind; [by rewrite Hop|]. rewrite Hop. intros ? [= <-].
  apply returns_bind; [apply returns_each_all, returns_intern|]. intros _.
  apply returns_bind; [apply returns_prescan_attributes|]. intros _.
  apply returns_each. eapply Forall_impl; [exact Ho|]. cbn beta. intros r'. apply IH.
Qed.

Lemma returns_prescan_function k fuel f : op_tree m (S fuel) f = true -> returns k (prescan_function m (S fuel) f).
Proof.
  intros (op & Hop & Hrs)%op_tree_S. apply returns_lift_bind; [by rewrite Hop|]. rewrite Hop. intros ? [= <-].
  apply returns_bind; [apply returns_prescan_attributes|]. intros _. apply returns_each.
  eapply Forall_impl; [exact Hrs|]. cbn beta. intros r. apply returns_prescan_region.
Qed.

Lemma oeach_returns {A} (f : A -> outcome Error unit) l : Forall (fun x => f x <> Panic) l -> oeach f l <> Panic.
Proof. induction 1 as [|x l Hx Hl IH]; [done|]. apply bind_no_panic; [done|]. intros _ _. exact IH. Qed.

Lemma check_attr_returns e : check_attr_versions version e <> Panic.
Proof.
  unfold check_attr_versions. destruct e.2; try done. apply oeach_returns, Forall_forall. intros [arch vs] _.
  unfold check_hint_entry. apply bind_no_panic.
  - unfold check_hint_target. destruct (_ ≫= _); [apply require_version_returns|done].
  - intros _ _. destruct (existsb _ _); [apply require_version_returns|done].
Qed.

Lemma check_region_versions_returns fuel in_loop in_for o :
  op_tree m fuel o = true -> check_region_versions m version fuel in_loop in_for o <> Panic.
Proof.
  revert in_loop in_for o. induction fuel as [|fuel IH]; intros in_loop in_for o; [done|].
  rewrite op_tree_S. intros (op & Hop & Hrs). cbn [check_region_versions]. rewrite Hop. cbn [mbind outcome_bind].
  apply bind_no_panic.
  { unfold check_return. destruct (bool_decide _); [|done]. destruct in_for; [done|].
    destruct in_loop; [apply require_version_returns|done]. }
  intros _ _. apply bind_no_panic; [apply oeach_returns, Forall_forall; intros; apply check_attr_returns|]. intros _ _.
  apply oeach_returns. eapply Forall_impl; [exact Hrs|]. cbn beta. intros r (bs & Hr & Hbs). rewrite Hr. cbn [mbind outcome_bind].
  apply oeach_returns. eapply Forall_impl; [exact Hbs|]. cbn beta. intros b (blk & Hb & Hblk). rewrite Hb. cbn [mbind outcome_bind].
  apply oeach_returns. eapply Forall_impl; [exact Hblk|]. cbn beta. intros o'. apply IH.
Qed.
End module.

(** ** Sections *)

Lemma patch_loop_returns n b p i offs : 0 <= p -> 0 <= i ->
  p + (i + zlen offs) * Z.of_nat n <= zlen b -> patch_loop n b p i offs <> Panic.
Proof.
  intros Hp. revert b i. induction offs as [|o offs IH]; intros b i Hi Hb; [done|]. cbn [patch_loop].
  rewrite zlen_cons in Hb. pose proof (zlen_nonneg offs). apply bind_no_panic.
  - unfold patch. destruct (Z.ltb_spec (p + i * Z.of_nat n) 0); [nia|]. cbn [orb].
    destruct (Z.ltb_spec (zlen b) (p + i * Z.of_nat n + Z.of_nat n)); [nia|done].
  - intros b' Hb'%patch_zlen. apply IH; [lia|]. rewrite Hb'. nia.
Qed.

(** The offsets written after the reserved words fit into them. *)
Lemma patched_table_returns n k w bytes offs : zlen offs = Z.of_nat k ->
  patch_loop n (buf (write_bytes bytes (Nat.iter k (write_bytes (le_bytes n 0)) w))) (tell w) 0 offs <> Panic.
Proof.
  intros Ho. apply patch_loop_returns; [apply zlen_nonneg|done|]. rewrite reserve_spec, Ho.
  unfold write_bytes, tell. cbn [buf]. rewrite !zlen_app. pose proof (zlen_nonneg bytes).
  assert (zlen (concat (replicate k (le_bytes n 0))) = Z.of_nat k * Z.of_nat n); [|lia].
  clear. induction k as [|k IH]; [done|]. cbn [replicate concat]. rewrite zlen_app, IH, zlen_le_bytes. lia.
Qed.

Lemma append_entries_length n run es w : length (append_entries n run es w).1 = length es.
Proof.
  revert run w. induction es as [|e es IH]; intros run w; [done|]. cbn.
  specialize (IH ((run + zlen e) mod 256 ^ Z.of_nat n) (write_bytes e w)).
  destruct (append_entries n _ es _) as [offs w']. cbn in *. by rewrite IH.
Qed.

Lemma table_section_returns sid n out es : write_table_section sid n out es <> Panic.
Proof.
  unfold write_table_section. destruct es as [|e es]; [done|]. set (es' := e :: es).
  set (w := Nat.iter _ _ _). pose proof (append_entries_bytes n 0 es' w) as Hb.
  pose proof (append_entries_length n 0 es' w) as Hl. destruct (append_entries n 0 es' w) as [offs w'].
  cbn [fst snd] in Hb, Hl. subst w'. apply bind_no_panic; [|done].
  apply patched_table_returns. unfold zlen. by rewrite Hl.
Qed.

Lemma serialize_all_length tys run tm w v r : serialize_all tys run tm w v = Ok r -> length r.1 = length tys.
Proof.
  revert run tm w r. induction tys as [|ty tys IH]; intros run tm w r H; cbn [serialize_all] in H.
  { by injection H as <-. }
  apply bind_Ok in H as ([tm' w'] & _ & H). apply bind_Ok in H as (ow & H & E). apply Ok_inj in E as <-.
  cbn. by rewrite (IH _ _ _ _ H).
Qed.

Lemma type_section_returns out tm v : tm_wf tm -> write_type_section out tm v <> Panic.
Proof.
  intros Hw. unfold write_type_section. destruct (tm_list tm) as [|t0 l0] eqn:El; [done|]. rewrite <- El.
  apply bind_no_panic.
  - match goal with |- serialize_all _ ?run ?t ?w ?v' <> _ =>
      pose proof (serialize_all_total t v' (tm_list tm) run w Hw ltac:(done)) as Hs end.
    destruct (forallb _ _); destruct Hs as [? ->]; done.
  - intros [offs w] H. pose proof (serialize_all_length _ _ _ _ _ _ H) as Hl. cbn [fst] in Hl.
    apply (serialize_all_bytes tm v) in H; [|done..]. cbn [snd] in H. subst w. apply bind_no_panic; [|done].
    apply patched_table_returns. unfold zlen. by rewrite Hl.
Qed.

Section file.
Context (f16_bits bf16_bits : Z -> Z) (m : IRModule) (version : BytecodeVersion).
Context (Hops : forallb (op_indexable m) (m_operations m) = true).
Context (Hnest : forall f, f ∈ m_functions m -> exists k, op_tree m k f = true).

Lemma function_tree f : f ∈ m_functions m -> op_tree m (module_fuel m) f = true.
Proof. intros [k Hk]%Hnest. by eapply module_fuel_enough. Qed.

Lemma returns_prescan : returns 0 (prescan m version).
Proof.
  unfold prescan. apply returns_bind.
  { unfold prescan_producer. destruct (m_producer m); [|total].
    apply returns_bind; [apply returns_lift, require_version_returns|]. intros _. total. }
  intros _. apply returns_bind; [apply returns_each_all; intros; apply returns_bind; [total|]; intros; apply returns_intern|].
  intros _. apply returns_each, Forall_forall. intros f Hf%function_tree.
  apply returns_bind; [by apply returns_lift, check_region_versions_returns|]. intros _.
  by apply returns_prescan_function.
Qed.

Lemma returns_global g : returns 0 (write_global version g).
Proof.
  unfold write_global. do 2 (apply returns_bind; [apply returns_when; intros; apply returns_lift, require_version_returns|]; intros _).
  total.
Qed.

(** A section routine keeps the context open and does not panic. *)
Definition section_returns (w : SectionWriter) : Prop := forall out c, open 0 (c, writer_new) ->
  match w out c with Ok (_, c') => open 0 (c', writer_new) | Err _ => True | Panic => False end.

Lemma write_section_returns sid al payload : returns 0 payload -> section_returns (write_section sid al payload).
Proof.
  intros H out c Hc. unfold write_section. specialize (H (c, writer_new) Hc).
  by destruct (payload _) as [[? []]| |].
Qed.

Lemma global_section_returns : section_returns (write_global_section m version).
Proof.
  intros out c Hc. unfold write_global_section. destruct (m_globals m) as [|g gs]; [done|].
  apply write_section_returns; [|done]. total_step. apply returns_each_all, returns_global.
Qed.

Lemma function_section_returns : section_returns (write_function_section f16_bits bf16_bits m version).
Proof.
  intros out c Hc. assert (Ht : Forall (fun f => op_tree m (module_fuel m) f = true) (m_functions m))
    by (apply Forall_forall, function_tree).
  unfold write_function_section. destruct (m_functions m) as [|f fs]; [done|].
  apply write_section_returns; [|done]. total_step. apply returns_bind; [|intros; apply returns_emit].
  apply returns_each. eapply Forall_impl; [exact Ht|]. cbn beta. intros f'. by apply returns_function.
Qed.

Lemma sections_return out c : open 0 (c, writer_new) -> write_sections f16_bits bf16_bits m version out c <> Panic.
Proof.
  intros Hc. unfold write_sections. pose proof (global_section_returns out c Hc) as H1.
  destruct (write_global_section m version out c) as [[out1 c1]| |]; [|done..]. cbn [mbind outcome_bind].
  pose proof (function_section_returns out1 c1 H1) as H2.
  destruct (write_function_section _ _ m version out1 c1) as [[out2 c2]| |]; [|done..]. cbn [mbind outcome_bind].
  apply bind_no_panic; [apply table_section_returns|]. intros out3 _. cbn [mbind outcome_bind write_debug_section].
  apply bind_no_panic; [apply type_section_returns, H2|]. intros out4 _.
  apply bind_no_panic; [apply table_section_returns|]. done.
Qed.
End file.

(** C25: The writer returns. For a module whose functions nest without cycles and
    whose operations declare operand segments that fit their operands,
    [write_bytecode_version] produces bytes or an error at every version: it
    neither indexes out of range nor exhausts the recursion. *)
Theorem writer_returns (f16_bits bf16_bits : Z -> Z) (m : IRModule) (version : BytecodeVersion)
    (Hops : forallb (op_indexable m) (m_operations m) = true)
    (Hnest : forall f, f ∈ m_functions m -> exists k, op_tree m k f = true) :
  (exists bytes, write_bytecode_version f16_bits bf16_bits m version = Ok bytes) \/
  (exists e, write_bytecode_version f16_bits bf16_bits m version = Err e).
Proof.
  assert (H : write_bytecode_version f16_bits bf16_bits m version <> Panic).
  { unfold write_bytecode_version. destruct (version_lt _ _); [done|]. destruct (negb _); [done|].
    pose proof (returns_prescan m version Hnest (ctx_new, writer_new)) as Hp.
    destruct (prescan m version (ctx_new, writer_new)) as [[[] [c w]]| |]; cbn [mbind outcome_bind].
    - apply sections_return; [done..|]. apply Hp. split; [cbn; lia|apply tm_new_wf].
    - done.
    - exfalso. apply Hp. split; [cbn; lia|apply tm_new_wf]. }
  destruct (write_bytecode_version _ _ _ _); [by left; eexists|by right; eexists|done].
Qed.

Lemma writer_returns_witness : exists bytes, write_bytecode_version id id (example_module []) V13_4 = Ok bytes.
Proof.
  destruct (writer_returns id id (example_module []) V13_4) as [H|[e He]].
  - vm_compute. reflexivity.
  - intros f Hf. exists 4%nat. assert (Hall : forallb (op_tree (example_module []) 4) (m_functions (example_module [])) = true)
      by (vm_compute; reflexivity).
    apply forallb_Forall in Hall. rewrite Forall_forall in Hall. exact (Hall f Hf).
  - exact H.
  - vm_compute in He. discriminate He.
Defined.

(** The condition on segments is needed: a required group without an operand
    indexes past the end of the operand list. *)
Definition missing_group_module : IRModule :=
  let '((r, b, _), m) := build_single_block_region [] (module_new "m") in
  let '((o, _), m) := build (mkOperation Opcode.LoadPtrTko [] [tile_f32; TToken]
    [("memory_ordering_semantics"%string, AInteger 0 (TScalar ScalarType.I32))] [] LocUnknown) m in
  let '((f, _), m) := build (mkOperation Opcode.Entry [] []
    [("sym_name"%string, AString "k"); ("function_type"%string, AType (TFunc [] []))] [r] LocUnknown) m in
  match module_append_op b o m with
  | Ok m => mkIRModule (m_name m) None (m_values m) (m_operations m) (m_blocks m) (m_regions m) [f] []
  | _ => m
  end.

Lemma missing_group_panics : write_bytecode id id missing_group_module = Panic.
Proof. vm_compute. reflexivity. Qed.
