(* ===== verification/VerifyTarget.v ===== *)
(** * Static checks on types and raw operations (cutile-ir/src/verify_target.rs)

    What the dialect demands of a type and of the operands, result and
    attributes of one operation, whatever the target.  The checks run after the
    version and architecture checks of [Capabilities] and before the module is
    written. *)

From stdpp Require Import sorting.
From S2P Require Import Prelude Enums Encoding IR Tables TypeTable Module.

(** ** Errors and targets (capabilities.rs) *)

Record TargetCapabilities := mkTargetCapabilities {
  bytecode_version : BytecodeVersion;
  target_architecture : string;
}.

Record CapabilityError := mkCapabilityError { ce_message : string; ce_location : Location }.

(** Module lookups index arenas: out of range panics. *)
Definition index {A} (o : outcome Error A) : outcome CapabilityError A :=
  match o with Ok a => Ok a | _ => Panic end.

(** [slice[i as usize]]. *)
Definition slice_at {A} (l : list A) (i : Z) : outcome CapabilityError A :=
  if (0 <=? i) && (i <? zlen l) then match l !! Z.to_nat i with Some a => Ok a | None => Panic end else Panic.

(** An [i64] product, in a build with overflow checks. *)
Definition mul_i64 (a b : Z) : outcome CapabilityError Z :=
  match checked_i64 (a * b) with Some n => Ok n | None => Panic end.

Fixpoint product_i64 (acc : Z) (l : list Z) : outcome CapabilityError Z :=
  match l with
  | [] => Ok acc
  | d :: l => acc ← mul_i64 acc d; product_i64 acc l
  end.

(** ** Helpers *)

(** [Attribute::Integer(v, _) if n == name]: the first integer attribute of
    that name. *)
Definition integer (op : Operation) (name : string) : option Z :=
  head (omap (fun e => match e.2 with AInteger v _ => if bool_decide (e.1 = name) then Some v else None | _ => None end)
          (attributes op)).

Definition scalar (t : TileType) : option ScalarType :=
  match tt_element_type t with TEScalar s => Some s | TEPointer _ => None end.

Definition tile (ty : IRType) : option TileType :=
  match without_pointer_attribute ty with TTile t => Some t | _ => None end.

Definition bits (s : ScalarType) : Z :=
  match s with
  | ScalarType.I1 => 1
  | ScalarType.I4 | ScalarType.F4E2M1FN => 4
  | _ => byte_width s * 8
  end.

Definition one_of (z : Z) (l : list Z) : bool := bool_decide (z ∈ l).

(** [matches!(o, Some(lo..=hi))]. *)
Definition some_in (o : option Z) (lo hi : Z) : bool :=
  match o with Some n => (lo <=? n) && (n <=? hi) | None => false end.

Definition is_one_of {A} `{EqDecision A} (o : option A) (l : list A) : bool :=
  match o with Some a => bool_decide (a ∈ l) | None => false end.

Definition atomic_mode_valid (mode : option Z) (element : ScalarType) : bool :=
  match mode with
  | Some n =>
      if ((0 <=? n) && (n <=? 3)) || ((5 <=? n) && (n <=? 8))
      then bool_decide (element ∈ [ScalarType.I32; ScalarType.I64])
      else if n =? 4 then bool_decide (element ∈ [ScalarType.F16; ScalarType.BF16; ScalarType.F32; ScalarType.F64])
      else if n =? 9 then one_of (bits element) [32; 64]
      else false
  | None => false
  end.

(** Precision, minimum normal exponent, maximum normal exponent. *)
Definition float_semantics (s : ScalarType) : option (Z * Z * Z) :=
  match s with
  | ScalarType.F4E2M1FN => Some (2, 0, 2)
  | ScalarType.F8E4M3FN => Some (4, -6, 8)
  | ScalarType.F8E5M2 => Some (3, -14, 15)
  | ScalarType.F8E8M0FNU => Some (1, -127, 127)
  | ScalarType.F8E5M3FNU => Some (4, -14, 16)
  | ScalarType.F16 => Some (11, -14, 15)
  | ScalarType.BF16 => Some (8, -126, 127)
  | ScalarType.TF32 => Some (11, -126, 127)
  | ScalarType.F32 => Some (24, -126, 127)
  | ScalarType.F64 => Some (53, -1022, 1023)
  | _ => None
  end.

(** [u64::is_power_of_two]. *)
Definition is_power_of_two (n : Z) : bool := (0 <? n) && (Z.land n (n - 1) =? 0).

(** [sorted == (0..n as i32).collect()] for [sorted] the sorted axes. *)
Definition is_axis_permutation (p : list Z) (n : Z) : bool :=
  bool_decide (merge_sort Z.le p = seqZ 0 (as_i32 n)).

(** ** Types *)

Definition MAX_TILE : Z := 16777216.

(** The dimension loop of the [tile_shape] closure; [dim as u64] follows the
    test for positive dimensions. *)
Fixpoint tile_size (size : Z) (shape : list Z) : outcome string Z :=
  match shape with
  | [] => Ok size
  | dim :: shape =>
      if (dim <=? 0) || negb (is_power_of_two dim)
      then Err "tile dimensions must be positive powers of two"%string
      else
        let n := size * dim in
        if (U64_MAX <? n) || negb (n <=? MAX_TILE) then Err "tile exceeds 16777216 elements"%string
        else tile_size n shape
  end.

Definition verify_tile_shape (shape : list Z) (element : option ScalarType) : outcome string unit :=
  size ← tile_size 1 shape;
  if bool_decide (element = Some ScalarType.F4E2M1FN) && negb (Z.rem size 2 =? 0)
  then Err "f4E2M1FN tiles require an even element count"%string
  else Ok tt.

Definition verify_tensor_view (v : TensorViewType) : outcome string unit :=
  if negb (zlen (tv_shape v) =? zlen (tv_strides v))
  then Err "tensor shape and strides must have matching rank"%string
  else if existsb (fun n => (n <=? 0) && negb (n =? DYNAMIC)) (tv_shape v ++ tv_strides v)
  then Err "tensor dimensions and strides must be positive or dynamic"%string
  else Ok tt.

(** The checks the three tiled views share. *)
Definition verify_view (shape : list Z) (tensor : TensorViewType) (mapping : option (list Z))
    (padding : option PaddingValue) : outcome string unit :=
  if (zlen shape =? 0) || negb (zlen shape =? zlen (tv_shape tensor))
  then Err "view tile rank must be nonzero and match tensor rank"%string
  else if match mapping with Some p => negb (is_axis_permutation p (zlen shape)) | None => false end
  then Err "view dim_map must be a permutation of the tensor axes"%string
  else if match padding with Some p => negb (bool_decide (p = PVZero)) | None => false end
          && negb (is_float (tv_element_type tensor))
  then Err "nonzero padding modes require a floating-point element type"%string
  else
    _ ← verify_tensor_view tensor;
    verify_tile_shape shape (Some (tv_element_type tensor)).

Definition verify_type (ty : IRType) : outcome string unit :=
  match without_pointer_attribute ty with
  | TTile t => verify_tile_shape (tt_shape t) (scalar t)
  | TTensorView v => verify_tensor_view v
  | TPartitionView v => verify_view (pv_tile_shape v) (pv_tensor_view v) (Some (pv_dim_map v)) (pv_padding_value v)
  | TStridedView v =>
      if negb (zlen (sv_traversal_strides v) =? zlen (sv_tile_shape v))
         || existsb (fun n => n <=? 0) (sv_traversal_strides v)
      then Err "strided view requires one positive traversal stride per tile axis"%string
      else verify_view (sv_tile_shape v) (sv_tensor_view v) (Some (sv_dim_map v)) (sv_padding_value v)
  | TGatherScatterView v =>
      if (gsv_sparse_dim v <? 0) || (zlen (gsv_tile_shape v) <=? gsv_sparse_dim v)
      then Err "gather/scatter sparse_dim is outside the tile rank"%string
      else verify_view (gsv_tile_shape v) (gsv_tensor_view v) None (gsv_padding_value v)
  | _ => Ok tt
  end.

(** ** Operations *)

Section operation.
Context (m : IRModule) (op : Operation).

Definition fail {A} (why : string) : outcome CapabilityError A :=
  Err (mkCapabilityError ("cuda_tile." +:+ Opcode.name (opcode op) +:+ ": " +:+ why) (location op)).

Definition ok_or_fail {A} (o : option A) (why : string) : outcome CapabilityError A :=
  match o with Some a => Ok a | None => fail why end.

Definition check (b : bool) (why : string) : outcome CapabilityError unit := if b then Ok tt else fail why.

Definition type_of (v : Z) : outcome CapabilityError IRType := index (value_type m v).

Definition operand (i : nat) : outcome CapabilityError (option TileType) :=
  match operands op !! i with
  | Some v => ty ← type_of v; Ok (tile ty)
  | None => Ok None
  end.

Definition result : option TileType := head (result_types op) ≫= tile.

Definition rounding : option Z := integer op "rounding_mode".

(** [operands.iter().any(|v| p(value_type(v)))]. *)
Fixpoint any_operand (p : IRType -> bool) (vs : list Z) : outcome CapabilityError bool :=
  match vs with
  | [] => Ok false
  | v :: vs => ty ← type_of v; if p ty then Ok true else any_operand p vs
  end.

(** [p.iter().enumerate().all(|(i, n)| dst.shape[i] == src.shape[*n as usize])]. *)
Fixpoint permuted (src dst : list Z) (i : Z) (p : list Z) : outcome CapabilityError bool :=
  match p with
  | [] => Ok true
  | n :: p =>
      d ← slice_at dst i;
      s ← slice_at src n;
      if d =? s then permuted src dst (i + 1) p else Ok false
  end.

Definition permutation_attr : option (list Z) :=
  head (omap (fun e => match e.2 with
                       | ADenseI32Array p => if bool_decide (e.1 = "permutation"%string) then Some p else None
                       | _ => None
                       end) (attributes op)).

Definition permute_valid (src dst : TileType) : outcome CapabilityError bool :=
  match permutation_attr with
  | Some p =>
      if (2 <=? zlen (tt_shape src)) && (zlen (tt_shape dst) =? zlen (tt_shape src))
         && bool_decide (tt_element_type src = tt_element_type dst)
         && is_axis_permutation p (zlen (tt_shape src))
      then permuted (tt_shape src) (tt_shape dst) 0 p
      else Ok false
  | None => Ok false
  end.

Definition pack_valid (src dst : TileType) (src_count dst_count : Z) : outcome CapabilityError bool :=
  match scalar src, scalar dst with
  | Some a, Some b =>
      if (zlen (tt_shape src) =? 1) && (zlen (tt_shape dst) =? 1) && negb (bits a =? bits b) then
        sa ← mul_i64 src_count (bits a);
        db ← mul_i64 dst_count (bits b);
        Ok ((sa =? db) && (Z.rem sa 8 =? 0))
      else Ok false
  | _, _ => Ok false
  end.

Definition reshape_valid (src dst : TileType) (src_count dst_count : Z) : outcome CapabilityError bool :=
  match opcode op with
  | Opcode.Bitcast =>
      Ok (bool_decide (tt_shape src = tt_shape dst)
          && match scalar src, scalar dst with Some a, Some b => bits a =? bits b | _, _ => false end)
  | Opcode.Reshape => Ok (bool_decide (tt_element_type src = tt_element_type dst) && (src_count =? dst_count))
  | Opcode.Broadcast =>
      Ok (bool_decide (tt_element_type src = tt_element_type dst)
          && (zlen (tt_shape src) =? zlen (tt_shape dst))
          && forallb (fun ab => (ab.1 =? ab.2) || (ab.1 =? 1)) (zip (tt_shape src) (tt_shape dst)))
  | Opcode.Permute => permute_valid src dst
  | _ => pack_valid src dst src_count dst_count
  end.

Definition verify_reshape : outcome CapabilityError unit :=
  src ← operand 0; src ← ok_or_fail src "source must be a tile";
  dst ← ok_or_fail result "result must be a tile";
  src_count ← product_i64 1 (tt_shape src);
  dst_count ← product_i64 1 (tt_shape dst);
  valid ← reshape_valid src dst src_count dst_count;
  check valid "incompatible source/result shapes, element widths or permutation".

(** The mask loop of the atomics. *)
Fixpoint verify_masks (val : TileType) (vs : list Z) : outcome CapabilityError unit :=
  match vs with
  | [] => Ok tt
  | v :: vs =>
      ty ← type_of v;
      _ ← match tile ty with
          | Some mask => check (bool_decide (scalar mask = Some ScalarType.I1) && bool_decide (tt_shape mask = tt_shape val))
                           "atomic mask must be an i1 tile with the value shape"
          | None => Ok tt
          end;
      verify_masks val vs
  end.

Definition verify_atomic : outcome CapabilityError unit :=
  let cas := bool_decide (opcode op = Opcode.AtomicCAS) in
  ptr ← operand 0; ptr ← ok_or_fail ptr "expected pointer tile";
  val ← operand 1; val ← ok_or_fail val "expected value tile";
  element ← ok_or_fail (scalar val) "atomic value must be numeric";
  _ ← check (match tt_element_type ptr with TEPointer p => bool_decide (pointee p = element) | TEScalar _ => false end
             && bool_decide (tt_shape ptr = tt_shape val) && bool_decide (result = Some val))
        "atomic pointer, value and result types/shapes must match";
  _ ← (if cas then
         expected ← operand 2;
         check (bool_decide (expected = Some val) && one_of (bits element) [32; 64])
           "compare-and-swap requires matching 32-bit or 64-bit values"
       else check (atomic_mode_valid (integer op "mode") element) "atomic mode is not supported for this element type");
  _ ← check (some_in (integer op "memory_ordering_semantics") 1 4 && some_in (integer op "memory_scope") 0 2)
        "atomic operations require relaxed/acquire/release/acq_rel ordering and a valid scope";
  verify_masks val (drop (if cas then 3 else 2) (operands op)).

Definition verify_div_by (value : option TileType) (integer_or_pointer : bool) (p : DivBy)
    : outcome CapabilityError unit :=
  _ ← check (is_power_of_two (db_divisor p) && (db_divisor p <=? 2 ^ 62)
             && Bool.eqb (is_some (db_every p)) (is_some (db_along p)))
        "div_by requires a power-of-two divisor no greater than 2^62, with every/along both present or absent";
  tensor_view ← match operands op with
                | v :: _ => ty ← type_of v;
                    Ok (match without_pointer_attribute ty with TTensorView _ => true | _ => false end)
                | [] => Ok false
                end;
  _ ← check (integer_or_pointer || tensor_view) "div_by requires an integer/pointer tile or tensor view";
  match db_every p, db_along p with
  | Some every, Some along =>
      v ← ok_or_fail value "every/along are not allowed on tensor views";
      let wrong := fail "every/along must select a valid axis and group extent" in
      if (along <? 0) || (zlen (tt_shape v) <=? along) || (every <? 0) then wrong
      else extent ← slice_at (tt_shape v) along; if extent <? every then wrong else Ok tt
  | _, _ => Ok tt
  end.

Definition verify_same_elements (value : option TileType) (integer_or_pointer : bool) (values : list Z)
    : outcome CapabilityError unit :=
  _ ← check integer_or_pointer "same_elements requires an integer/pointer tile";
  v ← match value with Some v => Ok v | None => Panic end;
  check ((zlen values =? zlen (tt_shape v))
         && forallb (fun nd => (0 <=? nd.1) && (nd.1 <=? nd.2)) (zip values (tt_shape v)))
    "same_elements requires one group size per axis, between zero and that axis's extent".

Definition verify_bounded (value : option TileType) (p : BoundedAttr) : outcome CapabilityError unit :=
  s ← ok_or_fail ((value ≫= scalar) ≫= (fun s => if is_integer s then Some s else None)) "bounded requires an integer tile";
  let width := match s with ScalarType.I1 => 1 | ScalarType.I4 => 4 | _ => byte_width s * 8 end in
  let lo := if width =? 64 then I64_MIN else - Z.shiftl 1 (width - 1) in
  let hi := if width =? 64 then I64_MAX else Z.shiftl 1 (width - 1) - 1 in
  let outside o := match o with Some v => (v <? lo) || (hi <? v) | None => false end in
  check (negb (outside (ba_lb p) || outside (ba_ub p))
         && match ba_lb p, ba_ub p with Some l, Some u => l <=? u | _, _ => true end)
    "bounded endpoints must be ordered and fit the signed operand range".

Fixpoint verify_assumptions (value : option TileType) (attrs : list (string * Attribute))
    : outcome CapabilityError unit :=
  let integer_or_pointer :=
    match value with Some t => match scalar t with Some s => is_integer s | None => true end | None => false end in
  match attrs with
  | [] => Ok tt
  | (_, attr) :: attrs =>
      _ ← match attr with
          | ADivBy p => verify_div_by value integer_or_pointer p
          | ASameElements values => verify_same_elements value integer_or_pointer values
          | ABounded p => verify_bounded value p
          | _ => Ok tt
          end;
      verify_assumptions value attrs
  end.

Definition verify_assume : outcome CapabilityError unit :=
  value ← operand 0; verify_assumptions value (attributes op).

Definition verify_view_construction : outcome CapabilityError unit :=
  source ← match operands op with v :: _ => ty ← type_of v; Ok (Some ty) | [] => Ok None end;
  check (bool_decide ((source ≫= pointer_attribute) = (head (result_types op) ≫= pointer_attribute)))
    "view must preserve both presence and value of the base pointer's ptr_attr".

Definition verify_alloca : outcome CapabilityError unit :=
  count ← ok_or_fail (integer op "num_elem") "num_elem must be a compile-time integer";
  let alignment := default 0 (integer op "alignment") in
  natural ← ok_or_fail (t ← result; match tt_element_type t with
                                    | TEPointer p => Some (byte_width (pointee p))
                                    | TEScalar _ => None
                                    end) "alloca result must be a pointer tile";
  _ ← check (negb (count <? 0)) "num_elem must be nonnegative";
  check ((0 <? alignment) && is_power_of_two (as_u64 alignment) && (natural <=? alignment))
    "alignment must be a nonzero power of two at least the element's natural size".

Definition verify_fpowi : outcome CapabilityError unit :=
  base ← operand 0; base ← ok_or_fail base "base must be a floating-point tile";
  exponent ← operand 1; exponent ← ok_or_fail exponent "exponent must be an integer tile";
  _ ← check (is_one_of (scalar base) [ScalarType.F16; ScalarType.BF16; ScalarType.F32; ScalarType.F64]
             && bool_decide (result = Some base))
        "base and result must be matching f16, bf16, f32 or f64 tiles";
  check (bool_decide (tt_shape base = tt_shape exponent)
         && is_one_of (scalar exponent) [ScalarType.I1; ScalarType.I8; ScalarType.I16; ScalarType.I32])
    "exponent must have the base's shape and element type i1, i8, i16 or i32 (interpreted as signed)".

(** *** Matrix products *)

Definition mma_dims (a b c : list Z) (rank row col : Z) : outcome CapabilityError bool :=
  ar ← slice_at a row; cr ← slice_at c row;
  if negb (ar =? cr) then Ok false else
  bc ← slice_at b col; cc ← slice_at c col;
  if negb (bc =? cc) then Ok false else
  ac ← slice_at a col; br ← slice_at b row;
  if negb (ac =? br) then Ok false else
  if rank =? 3 then
    a0 ← slice_at a 0; b0 ← slice_at b 0;
    if negb (a0 =? b0) then Ok false else c0 ← slice_at c 0; Ok (a0 =? c0)
  else Ok true.

Definition scale_dims (a b sa sb : list Z) (rank row col : Z) : outcome CapabilityError bool :=
  sar ← slice_at sa row; ar ← slice_at a row;
  if negb (sar =? ar) then Ok false else
  sbc ← slice_at sb col; bc ← slice_at b col;
  if negb (sbc =? bc) then Ok false else
  sac ← slice_at sa col; sbr ← slice_at sb row;
  if negb (sac =? sbr) then Ok false else
  batch ← (if rank =? 3 then
             sa0 ← slice_at sa 0; a0 ← slice_at a 0;
             if negb (sa0 =? a0) then Ok false else sb0 ← slice_at sb 0; b0 ← slice_at b 0; Ok (sb0 =? b0)
           else Ok true);
  if negb batch then Ok false
  else if sac <=? 0 then Ok false
  else ac ← slice_at a col; Ok (Z.rem ac sac =? 0).

Definition mma_types_valid (input acc : option ScalarType) : bool :=
  match input with
  | Some (ScalarType.F4E2M1FN | ScalarType.F8E4M3FN | ScalarType.F8E5M2 | ScalarType.F16) =>
      is_one_of acc [ScalarType.F16; ScalarType.F32]
  | Some (ScalarType.BF16 | ScalarType.TF32 | ScalarType.F32) => bool_decide (acc = Some ScalarType.F32)
  | Some ScalarType.F64 => bool_decide (acc = Some ScalarType.F64)
  | _ => false
  end.

Definition scale_types_valid (input scale : option ScalarType) (vector : Z) : bool :=
  match input, scale with
  | Some ScalarType.F4E2M1FN, Some ScalarType.F8E4M3FN => vector =? 16
  | Some ScalarType.F4E2M1FN, Some (ScalarType.F8E8M0FNU | ScalarType.F8E5M3FNU) => one_of vector [16; 32]
  | Some (ScalarType.F8E4M3FN | ScalarType.F8E5M2), Some ScalarType.F8E8M0FNU => vector =? 32
  | _, _ => false
  end.

Definition verify_scales (a b : TileType) (rank row col : Z) (input acc : option ScalarType)
    : outcome CapabilityError unit :=
  sa ← operand 3; sa ← ok_or_fail sa "scaled MMA requires lhs scale tile";
  sb ← operand 4; sb ← ok_or_fail sb "scaled MMA requires rhs scale tile";
  _ ← check ((zlen (tt_shape sa) =? rank) && (zlen (tt_shape sb) =? rank)
             && bool_decide (acc = Some ScalarType.F32) && bool_decide (scalar sa = scalar sb))
        "scaled MMA requires matching scale ranks/types and f32 accumulation";
  dims ← scale_dims (tt_shape a) (tt_shape b) (tt_shape sa) (tt_shape sb) rank row col;
  _ ← check dims "scaled MMA scale shapes must match batch/M/N and divide K";
  k ← slice_at (tt_shape a) col; s ← slice_at (tt_shape sa) col;
  check (scale_types_valid input (scalar sa) (Z.quot k s)) "unsupported scaled MMA element types or scale-vector size".

Definition verify_mma : outcome CapabilityError unit :=
  a ← operand 0; a ← ok_or_fail a "MMA lhs must be a tile";
  b ← operand 1; b ← ok_or_fail b "MMA rhs must be a tile";
  c ← operand 2; c ← ok_or_fail c "MMA accumulator must be a tile";
  let rank := zlen (tt_shape a) in
  _ ← check (one_of rank [2; 3] && (zlen (tt_shape b) =? rank) && (zlen (tt_shape c) =? rank)
             && bool_decide (result = Some c))
        "MMA requires matching 2D or 3D ranks and identical accumulator/result types";
  let row := rank - 2 in
  let col := rank - 1 in
  dims ← mma_dims (tt_shape a) (tt_shape b) (tt_shape c) rank row col;
  _ ← check dims "MMA batch, M, N and K dimensions must match";
  let input := scalar a in
  let acc := scalar c in
  _ ← check (bool_decide (input = scalar b)) "MMA lhs and rhs element types must match";
  match opcode op with
  | Opcode.MmaF => check (mma_types_valid input acc) "unsupported MMA input/accumulator element type combination"
  | Opcode.MmaFScaled => verify_scales a b rank row col input acc
  | _ => Ok tt
  end.

(** *** Insert, extract and conversions *)

Definition scalar_index (ty : IRType) : bool :=
  match tile ty with
  | Some t => bool_decide (tt_shape t = []) && bool_decide (scalar t = Some ScalarType.I32)
  | None => false
  end.

Definition verify_insert_extract : outcome CapabilityError unit :=
  let insert := bool_decide (opcode op = Opcode.Insert) in
  source ← operand 0; source ← ok_or_fail source "source must be a tile";
  output ← ok_or_fail result "result must be a tile";
  _ ← (if insert then
         destination ← operand 1;
         check (bool_decide (destination = Some output)) "destination and result must have identical types"
       else Ok tt);
  let small := if insert then source else output in
  let large := if insert then output else source in
  let offset := if insert then 2 else 1 in
  _ ← check (bool_decide (tt_element_type small = tt_element_type large)
             && (zlen (tt_shape small) =? zlen (tt_shape large))
             && forallb (fun sl => (0 <? sl.1) && (Z.rem sl.2 sl.1 =? 0)) (zip (tt_shape small) (tt_shape large)))
        "source and result must have matching element types and rank, with divisible tile dimensions";
  let wrong := fail "expected one scalar i32 index per tile dimension" in
  if negb (zlen (operands op) =? offset + zlen (tt_shape small)) then wrong
  else
    bad ← any_operand (fun ty => negb (scalar_index ty)) (drop (Z.to_nat offset) (operands op));
    if bad : bool then wrong else Ok tt.

Definition ftof_allowed (version : BytecodeVersion) (src dst : ScalarType) (s d : Z * Z * Z) (r : Z) : bool :=
  let '(sp, smin, smax) := s in
  let '(dp, dmin, dmax) := d in
  if bool_decide (dst = ScalarType.F8E8M0FNU) then one_of r [1; 3]
  else if version_lt version (Feature.since Feature.ExtendedFloatRounding) || (byte_width dst <? 2) then r =? 0
  else if (sp <=? dp) && (dmin <=? smin) && (smax <=? dmax) then one_of r [0; 1; 2; 3; 7]
  else if bool_decide (src = ScalarType.F64) && bool_decide (dst = ScalarType.F32) then one_of r [0; 1; 2; 3]
  else if bool_decide (src = ScalarType.F32) && bool_decide (dst = ScalarType.TF32) then one_of r [0; 1; 7]
  else one_of r [0; 1].

Definition verify_ftof (caps : TargetCapabilities) : outcome CapabilityError unit :=
  src ← operand 0; src ← ok_or_fail (src ≫= scalar) "source must be a floating-point tile";
  dst ← ok_or_fail (result ≫= scalar) "result must be a floating-point tile";
  s ← ok_or_fail (float_semantics src) "source must be floating point";
  d ← ok_or_fail (float_semantics dst) "result must be floating point";
  _ ← check (negb (bool_decide (src = dst))) "float-to-float conversion must change element type";
  let r := default (-1) rounding in
  check (ftof_allowed (bytecode_version caps) src dst s d r)
    ("rounding_mode " +:+ pretty r +:+ " is not supported for " +:+ show_scalar src +:+ " to " +:+ show_scalar dst
       +:+ " in Tile IR " +:+ show_version (bytecode_version caps)).

Definition verify_approx : outcome CapabilityError unit :=
  let r := default 5 rounding in
  _ ← check (one_of r [4; 5]) "rounding_mode must be approx or full";
  if r =? 4 then
    t ← operand 0;
    check (bool_decide ((t ≫= scalar) = Some ScalarType.F32)) "approx rounding requires f32"
  else Ok tt.

Definition verify_tokens : outcome CapabilityError unit :=
  let wrong := fail "invalid token operand/result signature" in
  if negb (bool_decide (result_types op = [TToken])) then wrong
  else
    other ← any_operand (fun ty => negb (bool_decide (ty = TToken))) (operands op);
    if (other : bool) || (1 <? zlen (operands op))
       || bool_decide (opcode op = Opcode.MemoryFenceAliasTko) && negb (zlen (operands op) =? 1)
    then wrong else Ok tt.

(** *** Views in memory operations *)

Record ViewInfo := mkViewInfo {
  vi_shape : list Z; vi_element : ScalarType; vi_padding : option PaddingValue; vi_sparse : option Z }.

Definition view_info (ty : IRType) : option ViewInfo :=
  match without_pointer_attribute ty with
  | TPartitionView v => Some (mkViewInfo (pv_tile_shape v) (tv_element_type (pv_tensor_view v)) (pv_padding_value v) None)
  | TStridedView v => Some (mkViewInfo (sv_tile_shape v) (tv_element_type (sv_tensor_view v)) (sv_padding_value v) None)
  | TGatherScatterView v =>
      Some (mkViewInfo (gsv_tile_shape v) (tv_element_type (gsv_tensor_view v)) (gsv_padding_value v)
              (Some (gsv_sparse_dim v)))
  | _ => None
  end.

(** [segments.get(group)] of the first array attribute of that name. *)
Definition segment_attr (group : nat) : option Attribute :=
  segments ← head (omap (fun e => if bool_decide (e.1 = "operandSegmentSizes"%string)
                                  then match e.2 with AArray v => Some v | _ => None end else None) (attributes op));
  segments !! group.

(** The index loop: one integer index per axis. *)
Fixpoint verify_indices (info : ViewInfo) (start : nat) (axis : Z) (shape : list Z) (index_element : option ScalarType)
    : outcome CapabilityError unit :=
  match shape with
  | [] => Ok tt
  | extent :: shape =>
      index ← operand (start + Z.to_nat axis);
      index ← ok_or_fail index "indices must be integer tiles";
      element ← ok_or_fail (s ← scalar index; if is_integer s then Some s else None) "indices must be integer tiles";
      if bool_decide (vi_sparse info = Some (as_i32 axis)) then
        _ ← check (bool_decide (tt_shape index = [extent]))
              "sparse index must be a 1D tile with the sparse axis's tile extent";
        verify_indices info start (axis + 1) shape index_element
      else
        _ ← check (bool_decide (tt_shape index = [])) "dense indices must be scalar integer tiles";
        _ ← check (match index_element with Some s => bool_decide (s = element) | None => true end)
              "dense index element types must match";
        verify_indices info start (axis + 1) shape (Some element)
  end.

Definition ordering_valid (is_load atomic : bool) (order : Z) (scope : option Z) : bool :=
  negb (is_load && negb ((0 <=? order) && (order <=? 2)))
  && negb (negb is_load && negb (one_of order [0; 1; 3]))
  && negb (atomic && (negb (order =? 1) || negb (is_one_of scope [0; 1])))
  && negb ((order =? 0) && is_some scope)
  && negb (negb (order =? 0) && negb (some_in scope 0 2)).

Definition verify_view_access : outcome CapabilityError unit :=
  let is_load := bool_decide (opcode op = Opcode.LoadViewTko) in
  let atomic := bool_decide (opcode op = Opcode.AtomicRedViewTko) in
  let store := bool_decide (opcode op = Opcode.StoreViewTko) in
  view ← match operands op !! (if store then 1 else 0)%nat with
         | Some v => ty ← type_of v; Ok (Some ty)
         | None => Ok None
         end;
  view ← ok_or_fail view "expected view operand";
  info ← ok_or_fail (view_info view) "expected a partition, strided or gather/scatter view";
  let shape := vi_shape info in
  let index_start := (if store then 2 else 1)%nat in
  value ← (if is_load then Ok result
           else if atomic then operand (1 + length shape) else operand 0);
  value ← ok_or_fail value "expected loaded/stored tile";
  _ ← check (bool_decide (tt_shape value = shape) && bool_decide (scalar value = Some (vi_element info)))
        "view and value must have matching tile shape and element type";
  _ ← check (negb (atomic && (is_some (vi_sparse info) || is_some (vi_padding info)
                              || bool_decide (integer op "mode" = Some 9))))
        "view atomic reduction requires an unpadded partition or strided view and a non-exchange mode";
  _ ← check (negb (atomic && negb (atomic_mode_valid (integer op "mode") (vi_element info))))
        "atomic reduction mode is not supported for this element type";
  _ ← check (match segment_attr (if is_load || atomic then 1 else 2)%nat with
             | Some (AInteger n _) => n =? zlen shape
             | _ => false
             end) "expected one index per view dimension";
  _ ← verify_indices info index_start 0 shape None;
  let order := default 0 (integer op "memory_ordering_semantics") in
  check (ordering_valid is_load atomic order (integer op "memory_scope"))
    "invalid memory ordering/scope combination for this view operation".

(** *** Dispatch *)

Definition verify_arm (caps : TargetCapabilities) : outcome CapabilityError unit :=
  match opcode op with
  | Opcode.Bitcast | Opcode.Reshape | Opcode.Broadcast | Opcode.Permute | Opcode.Pack | Opcode.Unpack => verify_reshape
  | Opcode.AtomicRMW | Opcode.AtomicCAS => verify_atomic
  | Opcode.Assume => verify_assume
  | Opcode.MakeTensorView | Opcode.MakePartitionView | Opcode.MakeGatherScatterView | Opcode.MakeStridedView =>
      verify_view_construction
  | Opcode.Alloca => verify_alloca
  | Opcode.FPowI => verify_fpowi
  | Opcode.MmaF | Opcode.MmaI | Opcode.MmaFScaled => verify_mma
  | Opcode.Insert | Opcode.Extract => verify_insert_extract
  | Opcode.FToI => check (bool_decide (rounding = Some 6)) "rounding_mode must be nearest_int_to_zero"
  | Opcode.FToF => verify_ftof caps
  | Opcode.AddF | Opcode.SubF | Opcode.MulF | Opcode.Fma =>
      check (some_in rounding 0 3) "rounding_mode must be nearest_even, positive_inf, negative_inf or zero"
  | Opcode.Exp | Opcode.TanH => verify_approx
  | Opcode.GdcLaunchDependentsTko | Opcode.GdcWaitTko | Opcode.MemoryFenceAliasTko => verify_tokens
  | Opcode.LoadViewTko | Opcode.StoreViewTko | Opcode.AtomicRedViewTko => verify_view_access
  | _ => Ok tt
  end.

Definition verify_operation (caps : TargetCapabilities) : outcome CapabilityError unit :=
  _ ← verify_arm caps;
  if existsb (fun e => bool_decide (e.1 = "flush_to_zero"%string) && match e.2 with ABool false => false | _ => true end)
       (attributes op)
  then t ← operand 0; check (bool_decide ((t ≫= scalar) = Some ScalarType.F32)) "flush_to_zero requires f32"
  else Ok tt.
End operation.

(** ** Tile shapes *)

Lemma is_power_of_two_spec n : is_power_of_two n = true <-> exists k, 0 <= k /\ n = 2 ^ k.
Proof.
  unfold is_power_of_two. rewrite andb_true_iff, Z.ltb_lt, Z.eqb_eq. split.
  - intros [Hn Hl]. exists (Z.log2 n). split; [apply Z.log2_nonneg|].
    destruct (Z.log2_spec n Hn) as [H1 H2]. destruct (Z.eq_dec n (2 ^ Z.log2 n)) as [|Hne]; [done|]. exfalso.
    assert (Hk : Z.log2 (n - 1) = Z.log2 n) by (apply Z.log2_unique; [apply Z.log2_nonneg|lia]).
    assert (Hb : Z.testbit (Z.land n (n - 1)) (Z.log2 n) = true).
    { rewrite Z.land_spec, Z.bit_log2 by done. rewrite <- Hk, Z.bit_log2; [done|].
      pose proof (Z.pow_pos_nonneg 2 (Z.log2 n) ltac:(lia) (Z.log2_nonneg n)). lia. }
    by rewrite Hl, Z.bits_0 in Hb.
  - intros (k & Hk & ->). split; [by apply Z.pow_pos_nonneg|].
    replace (2 ^ k - 1) with (Z.ones k) by (rewrite Z.ones_equiv; lia).
    rewrite Z.land_ones by done. apply Z.mod_same, Z.pow_nonzero; lia.
Qed.

Definition volume (shape : list Z) : Z := foldr Z.mul 1 shape.

Lemma volume_pos shape : Forall (fun d => 1 <= d) shape -> 1 <= volume shape.
Proof. unfold volume. induction 1; cbn [foldr]; nia. Qed.

Lemma power_pos shape : Forall (fun d => is_power_of_two d = true) shape -> Forall (fun d => 1 <= d) shape.
Proof.
  intros H. eapply Forall_impl; [exact H|]. cbn beta. intros d Hd. unfold is_power_of_two in Hd.
  apply andb_true_iff in Hd as [Hd%Z.ltb_lt _]. lia.
Qed.

(** The size loop succeeds exactly on powers of two of bounded volume. *)
Lemma tile_size_spec size shape n : 1 <= size <= MAX_TILE ->
  tile_size size shape = Ok n <->
  Forall (fun d => is_power_of_two d = true) shape /\ n = size * volume shape /\ n <= MAX_TILE.
Proof.
  revert size. induction shape as [|d shape IH]; intros size Hs; cbn [tile_size].
  { unfold volume. cbn [foldr]. rewrite Z.mul_1_r. split; [intros [= <-]|intros (_ & -> & _)]; [|done].
    split_and!; [constructor|done|lia]. }
  change (volume (d :: shape)) with (d * volume shape). rewrite Forall_cons.
  destruct (Z.leb_spec d 0); cbn [orb].
  { split; [done|]. intros [[Hd _] _]. unfold is_power_of_two in Hd. apply andb_true_iff in Hd as [Hd%Z.ltb_lt _]. lia. }
  destruct (is_power_of_two d); cbn [negb]; [|split; [done|]; by intros [[? _] _]].
  destruct (Z.leb_spec (size * d) MAX_TILE) as [Hm|Hm]; cbn [negb].
  - destruct (Z.ltb_spec U64_MAX (size * d)); [unfold MAX_TILE in *; unfold_int; lia|]. cbn [orb].
    rewrite IH by nia. rewrite Z.mul_assoc. tauto.
  - rewrite orb_true_r. split; [done|]. intros ([_ Hf] & -> & Hle). pose proof (volume_pos _ (power_pos _ Hf)). nia.
Qed.

(** C38: A tile type is accepted exactly when every dimension is a power of two,
    the tile has at most 2^24 elements, and a tile of 4-bit floats has an even
    number of them. *)
Theorem verify_tile_exact (t : TileType) :
  verify_type (TTile t) = Ok tt <->
  Forall (fun d => exists k, 0 <= k /\ d = 2 ^ k) (tt_shape t) /\ volume (tt_shape t) <= 2 ^ 24 /\
  (tt_element_type t = TEScalar ScalarType.F4E2M1FN -> (2 | volume (tt_shape t))).
Proof.
  cbn [verify_type without_pointer_attribute]. unfold verify_tile_shape.
  assert (Hf : Forall (fun d => exists k, 0 <= k /\ d = 2 ^ k) (tt_shape t) <->
               Forall (fun d => is_power_of_two d = true) (tt_shape t)).
  { rewrite !Forall_forall. by setoid_rewrite is_power_of_two_spec. }
  assert (He : scalar t = Some ScalarType.F4E2M1FN <-> tt_element_type t = TEScalar ScalarType.F4E2M1FN).
  { unfold scalar. destruct (tt_element_type t); split; congruence. }
  rewrite bind_Ok, Hf. setoid_rewrite (tile_size_spec 1 (tt_shape t)); [|unfold MAX_TILE; lia].
  change (2 ^ 24) with MAX_TILE. split.
  - intros (n & (H1 & -> & H2) & Hev). rewrite Z.mul_1_l in *. split_and!; [done..|]. intros E%He.
    rewrite bool_decide_true in Hev by done. cbn [andb] in Hev.
    destruct (Z.eqb_spec (Z.rem (volume (tt_shape t)) 2) 0); [|done]. by apply Z.rem_divide.
  - intros (H1 & H2 & H3). exists (volume (tt_shape t)). rewrite Z.mul_1_l. split; [done|].
    case_bool_decide as E; [|done]. cbn [andb]. apply He, H3, Z.rem_divide in E; [|done]. by rewrite E.
Qed.

(** ** Checked operations do not panic *)

Lemma product_volume size shape n : 1 <= size <= MAX_TILE -> tile_size size shape = Ok n ->
  product_i64 size shape = Ok n.
Proof.
  revert size. induction shape as [|d shape IH]; intros size Hs H; [by injection H as <-|]. cbn [product_i64]. cbn [tile_size] in H.
  destruct (Z.leb_spec d 0); [done|]. destruct (is_power_of_two d); [|done]. cbn [orb negb] in H.
  destruct (Z.ltb_spec U64_MAX (size * d)); [done|]. destruct (Z.leb_spec (size * d) MAX_TILE); [|done].
  cbn [orb negb] in H. unfold mul_i64, checked_i64. rewrite bool_decide_true by (unfold MAX_TILE in *; unfold_int; nia).
  cbn [mbind outcome_bind]. apply IH; [nia|done].
Qed.

Lemma mul_i64_small a b : 0 <= a <= MAX_TILE -> 0 <= b <= 64 -> mul_i64 a b = Ok (a * b).
Proof. intros. unfold mul_i64, checked_i64. rewrite bool_decide_true; [done|]. unfold MAX_TILE in *. unfold_int. nia. Qed.

Lemma bits_range s : 0 <= bits s <= 64.
Proof. destruct s; cbn; lia. Qed.

Lemma slice_at_lt {A} (l : list A) i : 0 <= i < zlen l -> slice_at l i <> Panic.
Proof.
  intros Hi. unfold slice_at. destruct (Z.leb_spec 0 i); [|lia]. destruct (Z.ltb_spec i (zlen l)); [|lia]. cbn [andb].
  destruct (lookup_lt_is_Some_2 l (Z.to_nat i)) as [x ->]; [unfold zlen in *; lia|done].
Qed.

(** The entries of an axis permutation are axes. *)
Lemma axis_permutation_range p n : 0 <= n -> is_axis_permutation p n = true ->
  zlen p <= n /\ Forall (fun a => 0 <= a < n) p.
Proof.
  intros Hn H. apply bool_decide_eq_true in H.
  pose proof (merge_sort_Permutation Z.le p) as Hp. rewrite H in Hp.
  assert (as_i32 n <= n) by (unfold as_i32, as_signed; pose proof (Z.mod_le (n + 2 ^ (32 - 1)) (2 ^ 32)); lia).
  split.
  - unfold zlen. rewrite <- (Permutation_length Hp), length_seqZ. lia.
  - rewrite <- Hp. apply Forall_forall. intros a Ha%elem_of_seqZ. lia.
Qed.

Lemma check_returns op b why : check op b why <> Panic.
Proof. by destruct b. Qed.

Lemma ok_or_fail_returns {A} op (o : option A) why : ok_or_fail op o why <> Panic.
Proof. by destruct o. Qed.

Lemma ok_or_fail_Ok {A} op (o : option A) why a : ok_or_fail op o why = Ok a -> o = Some a.
Proof. destruct o; [by intros [= ->]|done]. Qed.

Lemma check_Ok op b why u : check op b why = Ok u -> b = true.
Proof. by destruct b. Qed.

Lemma drop_elem {A} (x : A) n l : x ∈ drop n l -> x ∈ l.
Proof. intros [i Hi]%list_elem_of_lookup. rewrite lookup_drop in Hi. by eapply list_elem_of_lookup_2. Qed.

(** Step through a sequence of checks that cannot panic. *)
Ltac returns_step :=
  match goal with
  | |- Ok _ <> Panic => done
  | |- Err _ <> Panic => done
  | |- fail _ _ <> Panic => done
  | |- check _ _ _ <> Panic => apply check_returns
  | |- ok_or_fail _ _ _ <> Panic => apply ok_or_fail_returns
  | |- (check _ _ _ ≫= _) <> Panic =>
      apply bind_no_panic; [apply check_returns|]; let H := fresh "Hc" in intros _ H%check_Ok
  | |- (ok_or_fail _ _ _ ≫= _) <> Panic =>
      apply bind_no_panic; [apply ok_or_fail_returns|]; let H := fresh "Ho" in intros ? H%ok_or_fail_Ok
  | |- (_ ≫= _) <> Panic => apply bind_no_panic; [|intros ? ?]
  | |- (if ?b then _ else _) <> Panic => let E := fresh "Eb" in destruct b eqn:E
  end.
Ltac returns := repeat returns_step.

Section returns.
Context (m : IRModule) (op : Operation) (caps : TargetCapabilities).
Context (Hresults : Forall (fun ty => verify_type ty = Ok tt) (result_types op)).
Context (Hoperands : Forall (fun v => exists ty, type_of m v = Ok ty /\ verify_type ty = Ok tt) (operands op)).

Lemma type_of_returns v : v ∈ operands op -> type_of m v <> Panic.
Proof.
  intros Hv. rewrite Forall_forall in Hoperands. by destruct (Hoperands v Hv) as (ty & -> & _).
Qed.

Lemma operand_returns i : operand m op i <> Panic.
Proof.
  unfold operand. destruct (operands op !! i) as [v|] eqn:E; [|done].
  returns. by eapply type_of_returns, list_elem_of_lookup_2.
Qed.

Lemma any_operand_returns p vs : (forall v, v ∈ vs -> v ∈ operands op) -> any_operand m p vs <> Panic.
Proof.
  induction vs as [|v vs IH]; intros Hin; cbn [any_operand]; returns.
  - apply type_of_returns, Hin. left.
  - apply IH. intros w Hw. apply Hin. by right.
Qed.

(** The tiles an operation mentions have bounded volume. *)
Lemma tile_volume ty t : verify_type ty = Ok tt -> tile ty = Some t ->
  exists n, product_i64 1 (tt_shape t) = Ok n /\ 0 <= n <= MAX_TILE.
Proof.
  unfold verify_type, tile. destruct (without_pointer_attribute ty) as [| |t'| | | | | | |]; try done. intros H [= ->].
  apply bind_Ok in H as (n & Hn & _). exists n. split; [by apply product_volume|].
  apply tile_size_spec in Hn as (Hf & -> & Hle); [|by unfold MAX_TILE].
  pose proof (volume_pos _ (power_pos _ Hf)). lia.
Qed.

Lemma operand_volume i t : operand m op i = Ok (Some t) ->
  exists n, product_i64 1 (tt_shape t) = Ok n /\ 0 <= n <= MAX_TILE.
Proof.
  unfold operand. destruct (operands op !! i) as [v|] eqn:E; [|done]. apply list_elem_of_lookup_2 in E.
  rewrite Forall_forall in Hoperands. destruct (Hoperands v E) as (ty & -> & Hty). cbn. intros [= H]. by eapply tile_volume.
Qed.

Lemma result_volume t : result op = Some t -> exists n, product_i64 1 (tt_shape t) = Ok n /\ 0 <= n <= MAX_TILE.
Proof.
  unfold result. destruct Hresults as [|ty tys Hty _]; [done|]. cbn. by apply tile_volume.
Qed.

Lemma permuted_returns src dst i p : 0 <= i -> i + zlen p <= zlen dst -> Forall (fun a => 0 <= a < zlen src) p ->
  permuted src dst i p <> Panic.
Proof.
  intros Hi Hd Hp. revert i Hi Hd. induction Hp as [|a p Ha Hp IH]; intros i Hi Hd; cbn [permuted]; [done|].
  rewrite zlen_cons in Hd. pose proof (zlen_nonneg p). returns; [apply slice_at_lt; lia|by apply slice_at_lt|apply IH; lia].
Qed.

Lemma verify_reshape_returns : verify_reshape m op <> Panic.
Proof.
  unfold verify_reshape. apply bind_no_panic; [apply operand_returns|]. intros src Hs.
  returns_step. subst src. destruct (operand_volume _ _ Hs) as (n & En & Hn).
  returns_step. destruct (result_volume _ Ho) as (k & Ek & Hk). rewrite En, Ek. cbn [mbind outcome_bind].
  apply bind_no_panic; [|intros; apply check_returns]. rename a into src, a0 into dst.
  assert (Hpack : pack_valid src dst n k <> Panic).
  { unfold pack_valid. destruct (scalar src) as [x|], (scalar dst) as [y|]; try done.
    destruct (_ && _); [|done]. pose proof (bits_range x). pose proof (bits_range y).
    by rewrite !mul_i64_small. }
  unfold reshape_valid. destruct (opcode op); try done.
  unfold permute_valid. destruct (permutation_attr op) as [p|]; [|done]. returns.
  rewrite !andb_true_iff in Eb. destruct Eb as [[[_ Hl%Z.eqb_eq] _] Hp].
  apply axis_permutation_range in Hp as [H1 H2]; [|apply zlen_nonneg]. apply permuted_returns; [done|lia|done].
Qed.

Lemma verify_atomic_returns : verify_atomic m op <> Panic.
Proof.
  unfold verify_atomic. returns; try apply operand_returns.
  assert (Hin : forall v, v ∈ drop (if bool_decide (opcode op = Opcode.AtomicCAS) then 3 else 2)%nat (operands op) ->
    v ∈ operands op) by (intros v; apply drop_elem).
  revert Hin. generalize (drop (if bool_decide (opcode op = Opcode.AtomicCAS) then 3 else 2)%nat (operands op)) as vs.
  induction vs as [|v vs IH]; intros Hin; cbn [verify_masks]; returns.
  - apply type_of_returns, Hin. left.
  - destruct (tile _); [apply check_returns|done].
  - apply IH. intros w Hw. apply Hin. by right.
Qed.

Lemma verify_assume_returns : verify_assume m op <> Panic.
Proof.
  unfold verify_assume. returns; [apply operand_returns|]. rename a into value. clear H.
  induction (attributes op) as [|[name attr] attrs IH]; cbn [verify_assumptions]; [done|].
  apply bind_no_panic; [|intros _ _; exact IH]. clear IH. destruct attr; try done.
  - unfold verify_div_by. returns_step. apply bind_no_panic.
    { pose proof type_of_returns as Ht. destruct (operands op) as [|v vs]; [done|]. returns. apply Ht. left. }
    intros tv _. returns_step. destruct (db_every d) as [every|], (db_along d) as [along|]; try done. returns.
    apply orb_false_iff in Eb as [[H1%Z.ltb_ge H2%Z.leb_gt]%orb_false_iff _]. by apply slice_at_lt.
  - unfold verify_same_elements. returns. by destruct value.
  - unfold verify_bounded. returns.
Qed.

Lemma verify_view_construction_returns : verify_view_construction m op <> Panic.
Proof.
  unfold verify_view_construction. returns. pose proof type_of_returns as Ht.
  destruct (operands op) as [|v vs]; [done|]. returns. apply Ht. left.
Qed.

Lemma verify_mma_returns : verify_mma m op <> Panic.
Proof.
  unfold verify_mma. returns_step; [apply operand_returns|]. returns_step. returns_step; [apply operand_returns|].
  returns_step. returns_step; [apply operand_returns|]. returns_step. cbv zeta. returns_step.
  rewrite !andb_true_iff in Hc. destruct Hc as [[[Hr Hb%Z.eqb_eq] Hcc%Z.eqb_eq] _].
  match type of Hr with one_of (zlen (tt_shape ?x)) _ = true => rename x into ta end.
  apply bool_decide_eq_true in Hr. assert (2 <= zlen (tt_shape ta) <= 3) by set_solver by lia.
  apply bind_no_panic; [unfold mma_dims; returns; apply slice_at_lt; lia|]. intros dims _. do 2 returns_step.
  destruct (opcode op); try done; [apply check_returns|].
  unfold verify_scales. returns_step; [apply operand_returns|]. returns_step. returns_step; [apply operand_returns|].
  do 2 returns_step. rewrite !andb_true_iff in Hc1. destruct Hc1 as [[[Ha%Z.eqb_eq Hb'%Z.eqb_eq] _] _].
  apply bind_no_panic; [unfold scale_dims; returns; apply slice_at_lt; lia|]. intros sdims _. returns; apply slice_at_lt; lia.
Qed.

Lemma verify_insert_extract_returns : verify_insert_extract m op <> Panic.
Proof.
  unfold verify_insert_extract. returns; try apply operand_returns.
  all: apply any_operand_returns; intros v; apply drop_elem.
Qed.

Lemma verify_view_access_returns : verify_view_access m op <> Panic.
Proof.
  unfold verify_view_access. returns; try apply operand_returns.
  - destruct (operands op !! _) as [v|] eqn:E; [|done]. returns. by eapply type_of_returns, list_elem_of_lookup_2.
  - generalize (vi_shape a1) at 1 as shape, (@None ScalarType) as e, 0 as axis.
    induction shape as [|x shape IH]; intros e axis; cbn [verify_indices]; returns; try apply operand_returns; apply IH.
Qed.

Lemma verify_operation_returns : verify_operation m op caps <> Panic.
Proof.
  unfold verify_operation. apply bind_no_panic; [|intros _ _; returns; apply operand_returns].
  unfold verify_arm. destruct (opcode op); try done; try apply check_returns;
    auto using verify_reshape_returns, verify_atomic_returns, verify_assume_returns, verify_view_construction_returns,
      verify_mma_returns, verify_insert_extract_returns, verify_view_access_returns.
  all: unfold verify_alloca, verify_approx, verify_ftof, verify_fpowi, verify_tokens; cbv zeta;
    returns; try apply operand_returns; by apply any_operand_returns.
Qed.
End returns.
