(* ===== verification/Capabilities.v ===== *)
(** * Target capabilities (cutile-ir/src/capabilities.rs, requirements.rs)

    What a module may use when it is compiled for one Tile IR version and one
    architecture: the requirement of every feature is checked against the
    selected target over all reachable operations, before anything is
    written.  The theorems relate this validation to the version gates of the
    bytecode writer. *)

From S2P Require Import Prelude Enums Encoding IR Tables TypeTable Module Writer OpWriter ModuleWriter VerifyTarget.

(** ** Targets *)

(** [trim_end_matches(['a', 'f'])]. *)
Definition trim_suffix_letter (c : Ascii.ascii) : bool :=
  bool_decide (c = Ascii.ascii_of_nat 97) || bool_decide (c = Ascii.ascii_of_nat 102).

Fixpoint trim_end (s : string) : string :=
  match s with
  | EmptyString => EmptyString
  | String c s =>
      match trim_end s with
      | EmptyString => if trim_suffix_letter c then EmptyString else String c EmptyString
      | s => String c s
      end
  end.

Definition sm (caps : TargetCapabilities) : option Z :=
  rest ← strip_prefix "sm_" (target_architecture caps); parse_u32 (trim_end rest).

Definition cap_error (caps : TargetCapabilities) (feature requirement : string) (loc : Location) : CapabilityError :=
  mkCapabilityError (feature +:+ " requires " +:+ requirement +:+ "; selected Tile IR "
    +:+ show_version (bytecode_version caps) +:+ ", target " +:+ target_architecture caps) loc.

Definition cap_require_version (caps : TargetCapabilities) (feature : string) (required : BytecodeVersion)
    (loc : Location) : outcome CapabilityError unit :=
  if version_lt (bytecode_version caps) required
  then Err (cap_error caps feature ("Tile IR " +:+ show_version required +:+ " or newer") loc)
  else Ok tt.

Definition require_sm (caps : TargetCapabilities) (feature : string) (minimum : Z) (loc : Location)
    : outcome CapabilityError unit :=
  if match sm caps with Some s => s <? minimum | None => true end
  then Err (cap_error caps feature ("sm_" +:+ pretty minimum +:+ " or newer") loc)
  else Ok tt.

(** ** Requirements (requirements.rs) *)

Definition check_architecture (r : Requirement) (caps : TargetCapabilities) (name : string) (loc : Location)
    : outcome CapabilityError unit :=
  match architecture r with
  | Any => Ok tt
  | AtLeast s => require_sm caps name s loc
  | Only s => if bool_decide (sm caps = Some s) then Ok tt else Err (cap_error caps name ("sm_" +:+ pretty s) loc)
  end.

Definition check_requirement (r : Requirement) (caps : TargetCapabilities) (name : string) (loc : Location)
    : outcome CapabilityError unit :=
  _ ← cap_require_version caps name (since r) loc; check_architecture r caps name loc.

Definition check_feature (f : Feature) (caps : TargetCapabilities) (loc : Location) : outcome CapabilityError unit :=
  check_requirement (Feature.requirement f) caps (Feature.name f) loc.

(** ** Types *)

Section types.
Context (caps : TargetCapabilities).

Definition check_scalar (s : ScalarType) (feature : string) (loc : Location) : outcome CapabilityError unit :=
  let requirement := scalar_requirement s in
  _ ← cap_require_version caps feature (since requirement) loc;
  check_architecture requirement caps (feature +:+ " using " +:+ show_scalar s) loc.

Definition each_check {A} (f : A -> outcome CapabilityError unit) : list A -> outcome CapabilityError unit :=
  fix go l := match l with [] => Ok tt | x :: l => _ ← f x; go l end.

Fixpoint check_type (feature : string) (loc : Location) (ty : IRType) : outcome CapabilityError unit :=
  _ ← match verify_type ty with
      | Ok _ => Ok tt
      | Err message => Err (mkCapabilityError (feature +:+ ": " +:+ message) loc)
      | Panic => Panic
      end;
  match ty with
  | TWithPointerAttribute base _ => _ ← check_feature Feature.PointerAttribute caps loc; check_type feature loc base
  | TScalar s => check_scalar s feature loc
  | TPointer p => check_scalar (pointee p) feature loc
  | TTile t => match tt_element_type t with
               | TEScalar s => check_scalar s feature loc
               | TEPointer p => check_scalar (pointee p) feature loc
               end
  | TTensorView t => check_scalar (tv_element_type t) feature loc
  | TPartitionView t => check_scalar (tv_element_type (pv_tensor_view t)) feature loc
  | TGatherScatterView t =>
      _ ← check_feature Feature.GatherScatterView caps loc;
      check_scalar (tv_element_type (gsv_tensor_view t)) feature loc
  | TStridedView t =>
      _ ← check_feature Feature.StridedView caps loc;
      check_scalar (tv_element_type (sv_tensor_view t)) feature loc
  | TFunc inputs results =>
      _ ← each_check (fun ty => check_type feature loc ty) inputs;
      each_check (fun ty => check_type feature loc ty) results
  | TToken => Ok tt
  end.
End types.

(** ** Operations *)

Section operations.
(** The derived [Debug] rendering of attributes, used in diagnostics. *)
Context (debug_attr : Attribute -> string).
Context (caps : TargetCapabilities) (m : IRModule).

(** The parse of a hint target: [sm_<n>] in canonical form. *)
Definition hint_requirement (arch : string) : option Requirement :=
  rest ← strip_prefix "sm_" arch;
  n ← parse_u32 rest;
  if bool_decide (arch = "sm_" +:+ pretty n) then target_requirement n else None.

Definition check_hint_arch (arch : string) (loc : Location) : outcome CapabilityError unit :=
  if bool_decide (arch = "default"%string) then Ok tt
  else
    match hint_requirement arch with
    | Some requirement => cap_require_version caps ("optimization hint target " +:+ arch) (since requirement) loc
    | None => Err (cap_error caps ("optimization hint target " +:+ arch)
                     "a public Tile IR architecture key or default" loc)
    end.

(** The [sm] a hint applies to: its own, or the target's when the default
    entry is not overridden. *)
Definition hint_sm (entries : list (string * list (string * Attribute))) (arch : string) : option Z :=
  if bool_decide (arch = "default"%string)
     && negb (existsb (fun e => bool_decide (e.1 = target_architecture caps)
                                && existsb (fun kv => bool_decide (kv.1 = "num_cta_in_cga"%string)) e.2) entries)
  then sm caps
  else (rest ← strip_prefix "sm_" arch; parse_u32 rest).

Definition hint_valid (opc : Opcode) (key : string) (value : Attribute) : bool :=
  let entry := bool_decide (opc = Opcode.Entry) in
  match value with
  | AInteger n _ =>
      if bool_decide (key = "num_cta_in_cga"%string) then entry && one_of n [1; 2; 4; 8; 16]
      else if bool_decide (key = "occupancy"%string) then entry && (1 <=? n) && (n <=? 32)
      else if bool_decide (key = "num_worker_warps_per_cta"%string) then
        entry && (if version_ge (bytecode_version caps) (Feature.since Feature.WorkerWarpsRestricted)
                  then one_of n [4; 8] else one_of n [1; 2; 4; 8; 16; 32])
      else if bool_decide (key = "latency"%string) then
        bool_decide (opc ∈ [Opcode.LoadViewTko; Opcode.StoreViewTko; Opcode.LoadPtrTko; Opcode.StorePtrTko])
        && (1 <=? n) && (n <=? 10)
      else false
  | ABool _ => bool_decide (key = "allow_tma"%string) && bool_decide (opc ∈ [Opcode.LoadViewTko; Opcode.StoreViewTko])
  | _ => false
  end.

Definition check_hint (op : Operation) (entries : list (string * list (string * Attribute))) (arch : string)
    (hint : string * Attribute) : outcome CapabilityError unit :=
  let '(key, value) := hint in
  let loc := location op in
  _ ← (if bool_decide (key = "num_worker_warps_per_cta"%string) then check_feature Feature.WorkerWarps caps loc else Ok tt);
  _ ← (if bool_decide (key = "num_cta_in_cga"%string)
          && match value with AInteger n _ => negb (n =? 1) | _ => false end then
         match hint_sm entries arch with
         | Some s => check_feature Feature.ClusterCta
                       (mkTargetCapabilities (bytecode_version caps) ("sm_" +:+ pretty s)) loc
         | None => Ok tt
         end
       else Ok tt);
  if hint_valid (opcode op) key value then Ok tt
  else Err (mkCapabilityError ("cuda_tile." +:+ Opcode.name (opcode op) +:+ ": invalid optimization hint " +:+ key
                                 +:+ "=" +:+ debug_attr value) loc).

Definition check_hints (op : Operation) (entries : list (string * list (string * Attribute)))
    : outcome CapabilityError unit :=
  each_check (fun e => _ ← check_hint_arch e.1 (location op); each_check (check_hint op entries e.1) e.2) entries.

Definition check_attribute (op : Operation) (e : string * Attribute) : outcome CapabilityError unit :=
  let feature := "cuda_tile." +:+ Opcode.name (opcode op) in
  _ ← match e.2 with
      | AType ty => check_type caps feature (location op) ty
      | ADenseElements d => check_type caps feature (location op) (de_element_type d)
      | AOptimizationHints entries => check_hints op entries
      | _ => Ok tt
      end;
  match attribute_feature (opcode op) e.1 e.2 with
  | Some f => check_requirement (Feature.requirement f) caps (feature +:+ "." +:+ e.1) (location op)
  | None => Ok tt
  end.

Definition is_tile_of (s : ScalarType) (ty : IRType) : bool :=
  match ty with TTile t => bool_decide (tt_element_type t = TEScalar s) | _ => false end.

Definition check_scale_mma (op : Operation) : outcome CapabilityError unit :=
  if bool_decide (opcode op = Opcode.MmaFScaled) then
    new_scale ← any_operand m (is_tile_of ScalarType.F8E5M3FNU) (drop 3 (operands op));
    if new_scale : bool then check_feature Feature.NewScaleMma caps (location op) else Ok tt
  else Ok tt.

Definition check_bf16_atomic (op : Operation) : outcome CapabilityError unit :=
  if bool_decide (opcode op ∈ [Opcode.AtomicRMW; Opcode.AtomicRedViewTko]) && bool_decide (integer op "mode" = Some 4) then
    bf16 ← any_operand m (is_tile_of ScalarType.BF16) (operands op);
    if bf16 : bool then
      check_requirement (Feature.requirement Feature.Bf16AtomicAdd) caps
        ("cuda_tile." +:+ Opcode.name (opcode op) +:+ " with bf16 add") (location op)
    else Ok tt
  else Ok tt.

Definition check_loop_return (op : Operation) (in_loop in_for : bool) : outcome CapabilityError unit :=
  let ret := bool_decide (opcode op = Opcode.Return) in
  _ ← (if ret && in_loop then check_feature Feature.LoopReturn caps (location op) else Ok tt);
  if ret && in_for then Err (cap_error caps "return inside for" "return outside the for region" (location op)) else Ok tt.

(** The types of an operation: its results, then its operands. *)
Definition check_op_types (op : Operation) : outcome CapabilityError unit :=
  let feature := "cuda_tile." +:+ Opcode.name (opcode op) in
  _ ← each_check (check_type caps feature (location op)) (result_types op);
  each_check (fun v => ty ← type_of m v; check_type caps feature (location op) ty) (operands op).

(** Everything [check_op] does for the operation itself. *)
Definition check_op_self (op : Operation) (in_loop in_for : bool) : outcome CapabilityError unit :=
  let feature := "cuda_tile." +:+ Opcode.name (opcode op) in
  _ ← check_requirement (opcode_requirement (opcode op)) caps feature (location op);
  _ ← check_op_types op;
  _ ← each_check (check_attribute op) (attributes op);
  _ ← check_scale_mma op;
  _ ← check_bf16_atomic op;
  _ ← check_loop_return op in_loop in_for;
  verify_operation m op caps.

Fixpoint check_op (fuel : nat) (in_loop in_for : bool) (id : Z) : outcome CapabilityError unit :=
  match fuel with
  | O => Panic
  | S fuel =>
      op ← index (get_op m id);
      _ ← check_op_self op in_loop in_for;
      each_check (fun region =>
        blocks ← index (get_region m region);
        each_check (fun block =>
          blk ← index (get_block m block);
          each_check (check_op fuel (in_loop || bool_decide (opcode op = Opcode.Loop))
                        (in_for || bool_decide (opcode op = Opcode.For))) (block_ops blk)) blocks) (regions op)
  end.

(** ** Modules *)

Definition check_target : outcome CapabilityError unit :=
  _ ← check_architecture (Feature.requirement Feature.Baseline) caps "Tile IR target" LocUnknown;
  match sm caps ≫= target_requirement with
  | Some requirement => cap_require_version caps ("target " +:+ target_architecture caps) (since requirement) LocUnknown
  | None => Err (cap_error caps "Tile IR target" "an architecture supported by the public Tile IR 13.4 dialect" LocUnknown)
  end.

Definition check_global (g : Global) : outcome CapabilityError unit :=
  _ ← check_type caps "global" LocUnknown (de_element_type (g_value g));
  each_check (fun ef : bool * Feature =>
      if ef.1 then cap_require_version caps "global constant/visibility" (Feature.since ef.2) LocUnknown else Ok tt)
    [(g_constant g, Feature.GlobalConstant);
     (match symbol_visibility g with Public => false | _ => true end, Feature.GlobalVisibility)].

Definition validate_module : outcome CapabilityError unit :=
  _ ← (if is_some (m_producer m) then check_feature Feature.Producer caps LocUnknown else Ok tt);
  _ ← check_target;
  _ ← each_check check_global (m_globals m);
  each_check (check_op (module_fuel m) false false) (m_functions m).
End operations.

(** ** What acceptance means *)

Lemma each_check_Ok {A} (f : A -> outcome CapabilityError unit) l :
  each_check f l = Ok tt <-> Forall (fun x => f x = Ok tt) l.
Proof.
  induction l as [|x l IH]; [split; [constructor|done]|]. cbn [each_check]. fold (each_check f l).
  rewrite bind_Ok, Forall_cons, <- IH. split; [by intros ([] & ? & ?)|intros [? ?]; by exists tt].
Qed.

Lemma each_check_returns {A} (f : A -> outcome CapabilityError unit) l :
  Forall (fun x => f x <> Panic) l -> each_check f l <> Panic.
Proof. induction 1 as [|x l Hx Hl IH]; [done|]. apply bind_no_panic; [done|]. intros _ _. exact IH. Qed.

Lemma oeach_Ok {A} (f : A -> outcome Error unit) l : Forall (fun x => f x = Ok tt) l -> oeach f l = Ok tt.
Proof. induction 1 as [|x l Hx Hl IH]; [done|]. cbn [oeach]. by rewrite Hx. Qed.

(** A version the target was checked for is no obstacle to the writer. *)
Lemma required_version caps feature since loc u : cap_require_version caps feature since loc = Ok u ->
  forall f, require_version f since (bytecode_version caps) = Ok tt.
Proof. unfold cap_require_version, require_version. by destruct (version_lt _ _). Qed.

Lemma checked_version r caps name loc u : check_requirement r caps name loc = Ok u ->
  forall f, require_version f (since r) (bytecode_version caps) = Ok tt.
Proof. intros ([] & H & _)%bind_Ok. by eapply required_version. Qed.

(** Operations under [f]. *)
Inductive reach (m : IRModule) : Z -> Z -> Prop :=
| reach_self o : reach m o o
| reach_nested o op r bs b blk c o' :
    get_op m o = Ok op -> r ∈ regions op -> get_region m r = Ok bs -> b ∈ bs ->
    get_block m b = Ok blk -> c ∈ block_ops blk -> reach m c o' -> reach m o o'.

Section accepted.
Context (debug_attr : Attribute -> string) (caps : TargetCapabilities) (m : IRModule).

Lemma index_Ok {A} (o : outcome Error A) a : index o = Ok a -> o = Ok a.
Proof. destruct o; [by intros [= ->]|done..]. Qed.

(** What acceptance of an operation says of it and of the operations in it. *)
Lemma check_op_S fuel in_loop in_for o : check_op debug_attr caps m (S fuel) in_loop in_for o = Ok tt ->
  exists op, get_op m o = Ok op /\ check_op_self debug_attr caps m op in_loop in_for = Ok tt /\
    Forall (fun r => exists bs, get_region m r = Ok bs /\
      Forall (fun b => exists blk, get_block m b = Ok blk /\
        Forall (fun c => check_op debug_attr caps m fuel (in_loop || bool_decide (opcode op = Opcode.Loop))
                           (in_for || bool_decide (opcode op = Opcode.For)) c = Ok tt) (block_ops blk)) bs) (regions op).
Proof.
  cbn [check_op]. intros (op & Ho%index_Ok & ([] & Hs & H)%bind_Ok)%bind_Ok. exists op. split_and!; [done..|].
  apply each_check_Ok in H. eapply Forall_impl; [exact H|]. cbn beta. intros r (bs & Hr%index_Ok & Hbs)%bind_Ok.
  exists bs. split; [done|]. apply each_check_Ok in Hbs. eapply Forall_impl; [exact Hbs|]. cbn beta.
  intros b (blk & Hb%index_Ok & Hblk)%bind_Ok. exists blk. split; [done|]. by apply each_check_Ok in Hblk.
Qed.

Lemma check_op_reach fuel in_loop in_for f o op : check_op debug_attr caps m fuel in_loop in_for f = Ok tt ->
  reach m f o -> get_op m o = Ok op -> exists il fo, check_op_self debug_attr caps m op il fo = Ok tt.
Proof.
  intros H Hr. revert fuel in_loop in_for H. induction Hr as [o|o op' r bs b blk c o' Ho Hin Er Hb Eb Hc Hreach IH];
    intros [|fuel] in_loop in_for H Hop; try done; apply check_op_S in H as (op1 & Ho1 & Hself & Hall).
  - rewrite Hop in Ho1. injection Ho1 as <-. by exists in_loop, in_for.
  - rewrite Ho in Ho1. injection Ho1 as <-. rewrite Forall_forall in Hall.
    destruct (Hall r Hin) as (bs' & Er' & Hbs). rewrite Er in Er'. injection Er' as <-. rewrite Forall_forall in Hbs.
    destruct (Hbs b Hb) as (blk' & Eb' & Hblk). rewrite Eb in Eb'. injection Eb' as <-. rewrite Forall_forall in Hblk.
    by eapply IH; [apply Hblk|].
Qed.

Lemma check_op_self_parts op il fo : check_op_self debug_attr caps m op il fo = Ok tt ->
  (forall f, require_version f (since (opcode_requirement (opcode op))) (bytecode_version caps) = Ok tt) /\
  check_op_types caps m op = Ok tt /\ Forall (fun e => check_attribute debug_attr caps op e = Ok tt) (attributes op) /\
  check_loop_return caps op il fo = Ok tt.
Proof.
  intros ([] & H1 & ([] & H2 & ([] & H3 & ([] & _ & ([] & _ & ([] & H6 & _)%bind_Ok)%bind_Ok)%bind_Ok)%bind_Ok)%bind_Ok)%bind_Ok.
  split_and!; [by eapply checked_version|done|by apply each_check_Ok|done].
Qed.

(** An accepted operation passes the gates of [write_op_body]. *)
Lemma accepted_features op il fo s : check_op_self debug_attr caps m op il fo = Ok tt ->
  check_features (bytecode_version caps) op s = Ok (tt, s).
Proof.
  intros (Hv & _ & Ha & _)%check_op_self_parts. unfold check_features, mbind, WM_bind, require, wlift. rewrite Hv. cbn.
  induction Ha as [|e l He Ha IH]; [done|]. cbn [each]. unfold mbind, WM_bind.
  apply bind_Ok in He as ([] & _ & He). destruct (attribute_feature (opcode op) e.1 e.2) as [f|]; [|exact IH].
  unfold require, wlift, Feature.since. rewrite (checked_version _ _ _ _ _ He). exact IH.
Qed.

Lemma accepted_hint_target arch loc : check_hint_arch caps arch loc = Ok tt ->
  check_hint_target (bytecode_version caps) arch = Ok tt.
Proof.
  unfold check_hint_arch, check_hint_target. case_bool_decide as E; [rewrite E; intros _; reflexivity|]. unfold hint_requirement.
  destruct (strip_prefix "sm_" arch) as [rest|]; [|done]. cbn [mbind option_bind].
  destruct (parse_u32 rest) as [n|]; [|done]. cbn [mbind option_bind]. case_bool_decide; [|done]. destruct (target_requirement n) as [r|]; [|done].
  intros Hr. by eapply required_version.
Qed.

Lemma accepted_attr op e : check_attribute debug_attr caps op e = Ok tt -> check_attr_versions (bytecode_version caps) e = Ok tt.
Proof.
  intros ([] & H & _)%bind_Ok. unfold check_attr_versions. destruct e.2; try done. apply oeach_Ok.
  apply each_check_Ok in H. eapply Forall_impl; [exact H|]. cbn beta. intros [arch hints] ([] & Ha & Hh)%bind_Ok. cbn [fst snd] in Ha, Hh.
  unfold check_hint_entry. rewrite (accepted_hint_target _ _ Ha). cbn [mbind outcome_bind]. apply each_check_Ok in Hh.
  destruct (existsb _ _) eqn:Ex; [|done]. apply existsb_exists in Ex as ([key v] & Hin%list_elem_of_In & Hk).
  apply bool_decide_eq_true in Hk. cbn in Hk. subst key. rewrite Forall_forall in Hh. specialize (Hh _ Hin).
  apply bind_Ok in Hh as ([] & Hw & _). rewrite bool_decide_true in Hw by done. by eapply checked_version in Hw.
Qed.

Lemma accepted_return op il fo : check_loop_return caps op il fo = Ok tt ->
  check_return (bytecode_version caps) il fo op = Ok tt.
Proof.
  unfold check_loop_return, check_return. destruct (bool_decide _); [|done]. cbn [andb].
  intros ([] & Hl & Hf)%bind_Ok. destruct fo; [done|]. destruct il; [|done]. by eapply checked_version in Hl.
Qed.

Lemma accepted_regions fuel il fo o : check_op debug_attr caps m fuel il fo o = Ok tt ->
  check_region_versions m (bytecode_version caps) fuel il fo o = Ok tt.
Proof.
  revert il fo o. induction fuel as [|fuel IH]; intros il fo o; [done|].
  intros (op & Ho & (_ & _ & Ha & Hr)%check_op_self_parts & Hall)%check_op_S. cbn [check_region_versions].
  rewrite Ho. cbn [mbind outcome_bind]. rewrite (accepted_return _ _ _ Hr). cbn [mbind outcome_bind].
  rewrite (oeach_Ok (check_attr_versions (bytecode_version caps)) (attributes op))
    by (eapply Forall_impl; [exact Ha|]; intros e; apply accepted_attr). cbn [mbind outcome_bind].
  apply oeach_Ok. eapply Forall_impl; [exact Hall|]. cbn beta. intros r (bs & -> & Hbs). cbn [mbind outcome_bind].
  apply oeach_Ok. eapply Forall_impl; [exact Hbs|]. cbn beta. intros b (blk & -> & Hblk). cbn [mbind outcome_bind].
  apply oeach_Ok. eapply Forall_impl; [exact Hblk|]. cbn beta. intros c. apply IH.
Qed.
End accepted.

(** Routines that cannot fail. *)
Definition succeeds {A} (r : WM A) : Prop := forall s, exists a s', r s = Ok (a, s').

Lemma succeeds_bind {A B} (r : WM A) (f : A -> WM B) : succeeds r -> (forall a, succeeds (f a)) -> succeeds (r ≫= f).
Proof. intros Hr Hf s. destruct (Hr s) as (a & s1 & E). unfold mbind, WM_bind. rewrite E. apply Hf. Qed.

Lemma succeeds_lift {A} (o : outcome Error A) a : o = Ok a -> succeeds (wlift o).
Proof. intros -> s. by exists a, s. Qed.

Lemma succeeds_ret {A} (a : A) : succeeds (mret a).
Proof. intros s. by exists a, s. Qed.

Lemma succeeds_when b r : (b = true -> succeeds r) -> succeeds (when b r).
Proof. destruct b; [auto|]. intros _. apply succeeds_ret. Qed.

Lemma succeeds_emit f : succeeds (emit f).
Proof. intros s. by eexists _, _. Qed.

Lemma succeeds_string str : succeeds (string_index str).
Proof. intros [c w]. unfold string_index. destruct (sm_get_or_insert _ _). by eexists _, _. Qed.

Lemma succeeds_type ty : succeeds (type_index ty).
Proof. intros [c w]. unfold type_index. destruct (tm_get_or_insert _ _). by eexists _, _. Qed.

Lemma succeeds_constant data : succeeds (constant_index data).
Proof. intros [c w]. unfold constant_index. destruct (cm_add _ _). by eexists _, _. Qed.

#[local] Hint Resolve succeeds_bind succeeds_ret succeeds_emit succeeds_string succeeds_type succeeds_constant : writer.

Lemma accepted_producer caps m :
  (if is_some (m_producer m) then check_feature Feature.Producer caps LocUnknown else Ok tt) = Ok tt ->
  succeeds (prescan_producer m (bytecode_version caps)).
Proof.
  unfold prescan_producer. destruct (m_producer m) as [p|]; [|intros; apply succeeds_ret]. cbn [is_some]. intros H.
  apply succeeds_bind; [by eapply succeeds_lift, (checked_version _ _ _ _ _ H)|]. intros _.
  apply succeeds_bind; [apply succeeds_string|]. intros; apply succeeds_ret.
Qed.

Lemma accepted_global caps g : check_global caps g = Ok tt -> succeeds (write_global (bytecode_version caps) g).
Proof.
  intros ([] & _ & H)%bind_Ok. apply each_check_Ok in H. rewrite !Forall_cons in H. destruct H as (Hc & Hv & _).
  cbn [fst snd] in Hc, Hv. unfold write_global.
  apply succeeds_bind; [apply succeeds_when; intros E; rewrite E in Hc; by eapply succeeds_lift, required_version|]. intros _.
  apply succeeds_bind; [apply succeeds_when; intros E; rewrite E in Hv; by eapply succeeds_lift, required_version|]. intros _.
  do 3 (apply succeeds_bind; [apply succeeds_bind; [eauto with writer|intros; apply succeeds_emit]|]; intros _).
  apply succeeds_bind; [apply succeeds_emit|]. intros _. apply succeeds_when. intros _.
  apply succeeds_bind; [apply succeeds_emit|]. intros _. apply succeeds_emit.
Qed.


(** ** The validator returns *)

Lemma tile_size_returns size shape : tile_size size shape <> Panic.
Proof. revert size. induction shape as [|d shape IH]; intros size; cbn [tile_size]; [done|]. repeat case_match; done || apply IH. Qed.

Lemma verify_tile_shape_returns shape e : verify_tile_shape shape e <> Panic.
Proof. apply bind_no_panic; [apply tile_size_returns|]. intros n _. by case_match. Qed.

Lemma verify_view_returns shape tv p pad : verify_view shape tv p pad <> Panic.
Proof.
  unfold verify_view. do 3 match goal with |- (if ?b then _ else _) <> _ => destruct b; [done|] end. apply bind_no_panic; [|intros; apply verify_tile_shape_returns].
  unfold verify_tensor_view. by repeat case_match.
Qed.

Lemma verify_type_returns ty : verify_type ty <> Panic.
Proof.
  unfold verify_type. destruct (without_pointer_attribute ty); try done.
  - apply verify_tile_shape_returns.
  - unfold verify_tensor_view. by repeat case_match.
  - apply verify_view_returns.
  - case_match; [done|apply verify_view_returns].
  - case_match; [done|apply verify_view_returns].
Qed.

Section returns.
Context (caps : TargetCapabilities).

Lemma cap_require_version_returns f v loc : cap_require_version caps f v loc <> Panic.
Proof. unfold cap_require_version. by case_match. Qed.

Lemma check_architecture_returns r c f loc : check_architecture r c f loc <> Panic.
Proof. unfold check_architecture, require_sm. destruct (architecture r); [done|..]; by repeat case_match. Qed.

Lemma check_requirement_returns r c f loc : check_requirement r c f loc <> Panic.
Proof.
  apply bind_no_panic; [unfold cap_require_version; by case_match|]. intros _ _. apply check_architecture_returns.
Qed.

Lemma check_feature_returns f c loc : check_feature f c loc <> Panic.
Proof. apply check_requirement_returns. Qed.

Lemma check_scalar_returns s f loc : check_scalar caps s f loc <> Panic.
Proof. apply bind_no_panic; [apply cap_require_version_returns|]. intros _ _. apply check_architecture_returns. Qed.

Lemma check_type_returns f loc ty : check_type caps f loc ty <> Panic.
Proof.
  induction ty as [s|p|t|t|t|t|t|i r IHi IHr| |b a IH] using IRType_rect_list; cbn [check_type];
    (apply bind_no_panic; [pose proof (verify_type_returns) as Hv; match goal with |- context [verify_type ?x] =>
       specialize (Hv x); by destruct (verify_type x) end|]; intros _ _);
    try apply check_scalar_returns; try done.
  - destruct (tt_element_type t); apply check_scalar_returns.
  - apply bind_no_panic; [apply check_feature_returns|]. intros. apply check_scalar_returns.
  - apply bind_no_panic; [apply check_feature_returns|]. intros. apply check_scalar_returns.
  - apply bind_no_panic; [by apply each_check_returns|]. intros _ _. by apply each_check_returns.
  - apply bind_no_panic; [apply check_feature_returns|]. by intros.
Qed.

Lemma check_type_verified f loc ty : check_type caps f loc ty = Ok tt -> verify_type ty = Ok tt.
Proof.
  destruct ty; cbn [check_type]; intros ([] & H & _)%bind_Ok;
    match type of H with context [verify_type ?x] => by destruct (verify_type x) as [[]| |] end.
Qed.

Context (debug_attr : Attribute -> string) (m : IRModule).

Lemma check_attribute_returns op e : check_attribute debug_attr caps op e <> Panic.
Proof.
  apply bind_no_panic.
  - destruct e.2; try done; try apply check_type_returns. apply each_check_returns, Forall_forall. intros [arch hints] _.
    apply bind_no_panic.
    + unfold check_hint_arch. case_match; [done|]. case_match; [apply cap_require_version_returns|done].
    + intros _ _. apply each_check_returns, Forall_forall. intros [key v] _. unfold check_hint.
      apply bind_no_panic; [case_match; [apply check_feature_returns|done]|]. intros _ _.
      apply bind_no_panic; [|intros _ _; by case_match].
      destruct (bool_decide _ && _); [|done]. destruct (hint_sm _ _ _); [apply check_feature_returns|done].
  - intros _ _. case_match; [apply check_requirement_returns|done].
Qed.

Context (op : Operation) (Hvals : Forall (fun v => (Z.to_nat v < length (m_values m))%nat) (operands op)).

Lemma type_of_in_range v : v ∈ operands op -> exists ty, type_of m v = Ok ty.
Proof.
  intros Hv. rewrite Forall_forall in Hvals. unfold type_of, value_type, value_data, arena.
  destruct (lookup_lt_is_Some_2 _ _ (Hvals v Hv)) as [x ->]. by eexists.
Qed.

Lemma any_operand_in_range p n : any_operand m p (drop n (operands op)) <> Panic.
Proof.
  assert (Hin : forall v, v ∈ drop n (operands op) -> v ∈ operands op) by (intros v; apply drop_elem).
  induction (drop n (operands op)) as [|v vs IH]; [done|]. cbn [any_operand].
  destruct (type_of_in_range v) as [ty ->]; [apply Hin; left|]. cbn [mbind outcome_bind].
  case_match; [done|]. apply IH. intros w Hw. apply Hin. by right.
Qed.

Lemma check_op_self_returns il fo : check_op_self debug_attr caps m op il fo <> Panic.
Proof.
  unfold check_op_self. apply bind_no_panic; [apply check_requirement_returns|]. intros _ _.
  apply bind_no_panic.
  { apply bind_no_panic; [apply each_check_returns, Forall_forall; intros; apply check_type_returns|]. intros _ _.
    apply each_check_returns, Forall_forall. intros v [ty ->]%type_of_in_range. apply check_type_returns. }
  intros [] ([] & Hr & Ho)%bind_Ok. apply each_check_Ok in Hr. apply each_check_Ok in Ho.
  apply bind_no_panic; [apply each_check_returns, Forall_forall; intros; apply check_attribute_returns|]. intros _ _.
  apply bind_no_panic.
  { unfold check_scale_mma. case_match; [|done]. apply bind_no_panic; [apply any_operand_in_range|]. intros b _.
    destruct b; [apply check_feature_returns|done]. }
  intros _ _. apply bind_no_panic.
  { unfold check_bf16_atomic. case_match; [|done]. apply bind_no_panic; [apply (any_operand_in_range _ 0)|].
    intros b _. destruct b; [apply check_requirement_returns|done]. }
  intros _ _. apply bind_no_panic.
  { unfold check_loop_return. apply bind_no_panic; [case_match; [apply check_feature_returns|done]|]. intros _ _. by case_match. }
  intros _ _. apply verify_operation_returns.
  - eapply Forall_impl; [exact Hr|]. intros ty. apply check_type_verified.
  - eapply Forall_impl; [exact Ho|]. cbn beta. intros v (ty & E & Hty)%bind_Ok. exists ty. split; [done|].
    by eapply check_type_verified.
Qed.
End returns.

Lemma check_op_returns debug_attr caps m fuel il fo o :
  (forall o op, get_op m o = Ok op -> Forall (fun v => (Z.to_nat v < length (m_values m))%nat) (operands op)) ->
  op_tree m fuel o = true -> check_op debug_attr caps m fuel il fo o <> Panic.
Proof.
  intros Hv. revert il fo o. induction fuel as [|fuel IH]; intros il fo o; [done|].
  rewrite op_tree_S. intros (op & Ho & Hrs). cbn [check_op]. rewrite Ho. cbn [index mbind outcome_bind].
  apply bind_no_panic; [apply check_op_self_returns; by eapply Hv|]. intros _ _.
  apply each_check_returns. eapply Forall_impl; [exact Hrs|]. cbn beta. intros r (bs & -> & Hbs). cbn [index mbind outcome_bind].
  apply each_check_returns. eapply Forall_impl; [exact Hbs|]. cbn beta. intros b (blk & -> & Hblk). cbn [index mbind outcome_bind].
  apply each_check_returns. eapply Forall_impl; [exact Hblk|]. cbn beta. intros c. apply IH.
Qed.

(** Every operand of every operation is a value of the module. *)
Definition operands_in_range (m : IRModule) : bool :=
  forallb (fun op => forallb (fun v => (Z.to_nat v <? length (m_values m))%nat) (operands op)) (m_operations m).

(** Validation returns. On a module whose operands are values of the module
    and whose functions nest without cycles, [validate_module] accepts or
    reports an error: no shape is indexed out of rank, no element count
    overflows, and the recursion ends. *)
Lemma validator_returns (debug_attr : Attribute -> string) (caps : TargetCapabilities) (m : IRModule)
    (Hvals : operands_in_range m = true)
    (Hnest : forall f, f ∈ m_functions m -> exists k, op_tree m k f = true) :
  validate_module debug_attr caps m = Ok tt \/ exists e, validate_module debug_attr caps m = Err e.
Proof.
  assert (H : validate_module debug_attr caps m <> Panic).
  { apply bind_no_panic; [case_match; [apply check_feature_returns|done]|]. intros _ _. apply bind_no_panic.
    { apply bind_no_panic; [apply check_architecture_returns|]. intros _ _.
      case_match; [apply cap_require_version_returns|done]. }
    intros _ _. apply bind_no_panic.
    { apply each_check_returns, Forall_forall. intros g _. apply bind_no_panic; [apply check_type_returns|]. intros _ _.
      apply each_check_returns, Forall_forall. intros [b f] _. cbn. destruct b; [apply cap_require_version_returns|done]. }
    intros _ _. apply each_check_returns, Forall_forall. intros f [k Hk]%Hnest. apply check_op_returns; [|by eapply module_fuel_enough].
    intros o op Ho. unfold get_op, arena in Ho. destruct (_ !! _) as [op'|] eqn:E; [|done]. injection Ho as <-.
    apply forallb_Forall in Hvals. rewrite Forall_forall in Hvals.
    specialize (Hvals _ (list_elem_of_lookup_2 _ _ _ E)). apply forallb_Forall in Hvals.
    eapply Forall_impl; [exact Hvals|]. cbn beta. intros v Hv. by apply Nat.ltb_lt. }
  destruct (validate_module debug_attr caps m) as [[]|e|]; [by left|right; by exists e|done].
Qed.

(** ** Examples *)

Definition example_target : TargetCapabilities := mkTargetCapabilities V13_4 "sm_100a".

Definition hinted_module : IRModule :=
  let i32 n := AInteger n (TScalar ScalarType.I32) in
  example_module [("optimization_hints"%string, AOptimizationHints
    [("sm_100"%string, [("num_cta_in_cga"%string, i32 2); ("num_worker_warps_per_cta"%string, i32 8)]);
     ("default"%string, [("occupancy"%string, i32 4)])])].


Lemma validator_returns_witness : exists e,
  validate_module (fun _ => EmptyString) (mkTargetCapabilities V13_2 "sm_90") hinted_module = Err e.
Proof.
  destruct (validator_returns (fun _ => EmptyString) (mkTargetCapabilities V13_2 "sm_90") hinted_module) as [H|H].
  - vm_compute. reflexivity.
  - intros f Hf. exists 4%nat. assert (Hall : forallb (op_tree hinted_module 4) (m_functions hinted_module) = true)
      by (vm_compute; reflexivity).
    apply forallb_Forall in Hall. rewrite Forall_forall in Hall. exact (Hall f Hf).
  - vm_compute in H. discriminate H.
  - exact H.
Defined.

(** The writer also gates a flag that is spelled as a nonzero integer; the
    validator only recognizes the boolean. *)
Definition integer_flag_module : IRModule :=
  let f16 := TTile (mkTileType [16; 16] (TEScalar ScalarType.F16)) in
  let f32 := TTile (mkTileType [16; 16] (TEScalar ScalarType.F32)) in
  let '((r, b, args), m) := build_single_block_region [f16; f16; f32] (module_new "m") in
  let '((o, _), m) := build (mkOperation Opcode.MmaF args [f32]
    [("fast_acc"%string, AInteger 1 (TScalar ScalarType.I32))] [] LocUnknown) m in
  let '((f, _), m) := build (mkOperation Opcode.Entry [] []
    [("sym_name"%string, AString "k"); ("function_type"%string, AType (TFunc [f16; f16; f32] []))] [r] LocUnknown) m in
  match module_append_op b o m with
  | Ok m => mkIRModule (m_name m) None (m_values m) (m_operations m) (m_blocks m) (m_regions m) [f] []
  | _ => m
  end.

Lemma integer_flag_not_validated :
  validate_module (fun _ => EmptyString) (mkTargetCapabilities V13_2 "sm_100") integer_flag_module = Ok tt /\
  write_bytecode_version id id integer_flag_module V13_2 =
    Err (BytecodeWrite "mmaf.fast_acc requires bytecode version 13.3 or newer, requested 13.2").
Proof. split; vm_compute; reflexivity. Qed.
