(* ===== verification/SlotTable.v ===== *)
(** * The completion-slot table (cuda-async/src/slot_table.rs)

    The table's operations as the source composes them: the free list, the
    flags, the payload cells, the active bitmap and the armed count, and one
    scan pass.  The lemmas describe the bitmap: what setting, clearing and
    walking its bits does.  Reactor.v interleaves the same accesses. *)

From S2P Require Import Prelude.

Section table.
Context {P : Type}.

(** Slot and word indices are [nat]; bitmap words, flags and the armed count
    keep their width. *)
Record SlotTable := mkSlotTable {
  flags : list Z;
  active : list Z;
  payload : list (option P);
  free : list nat;
  n_armed : Z;
  num_slots : nat;
}.

Definition new (num : nat) (flags : list Z) : SlotTable :=
  mkSlotTable flags (replicate ((num + 63) / 64)%nat 0) (replicate num None)
    (reverse (seq 0 num)) 0 num.

Definition is_idle (t : SlotTable) : bool := n_armed t =? 0.

(** [Vec::pop] takes the last element. *)
Definition claim (t : SlotTable) : option nat * SlotTable :=
  match last (free t) with
  | Some slot =>
      (Some slot, mkSlotTable (flags t) (active t) (payload t) (removelast (free t)) (n_armed t) (num_slots t))
  | None => (None, t)
  end.

Definition release (slot : nat) (t : SlotTable) : SlotTable :=
  mkSlotTable (flags t) (active t) (payload t) (free t ++ [slot]) (n_armed t) (num_slots t).

Definition store_flag (slot : nat) (v : Z) (t : SlotTable) : SlotTable :=
  mkSlotTable (<[slot := v]> (flags t)) (active t) (payload t) (free t) (n_armed t) (num_slots t).

Definition reset_flag (slot : nat) (t : SlotTable) : outcome Empty_set SlotTable :=
  if (slot <? length (flags t))%nat then Ok (store_flag slot 0 t) else Panic.

(** The three atomic accesses of [publish]. *)
Definition write_payload (slot : nat) (p : option P) (t : SlotTable) : SlotTable :=
  mkSlotTable (flags t) (active t) (<[slot := p]> (payload t)) (free t) (n_armed t) (num_slots t).

Definition count_armed (t : SlotTable) : bool * SlotTable :=
  (n_armed t =? 0,
   mkSlotTable (flags t) (active t) (payload t) (free t) (as_u64 (n_armed t + 1)) (num_slots t)).

Definition update_word (word : nat) (f : Z -> Z) (t : SlotTable) : SlotTable :=
  mkSlotTable (flags t) (alter f word (active t)) (payload t) (free t) (n_armed t) (num_slots t).

Definition bit_mask (bit : nat) : Z := Z.shiftl 1 (Z.of_nat bit).

Definition set_active (slot : nat) (t : SlotTable) : SlotTable :=
  update_word (slot / 64)%nat (fun w => Z.lor w (bit_mask (slot mod 64)%nat)) t.

Definition publish (slot : nat) (waker : P) (t : SlotTable) : outcome Empty_set (bool * SlotTable) :=
  if negb (slot <? length (payload t))%nat then Panic
  else
    let t := write_payload slot (Some waker) t in
    let '(was_idle, t) := count_armed t in
    if negb (slot / 64 <? length (active t))%nat then Panic
    else Ok (was_idle, set_active slot t).

(** [bits.trailing_zeros()]: 64 on zero. *)
Fixpoint trailing_zeros_from (fuel k : nat) (bits : Z) : nat :=
  match fuel with
  | O => k
  | S fuel => if Z.testbit bits (Z.of_nat k) then k else trailing_zeros_from fuel (S k) bits
  end.

Definition trailing_zeros (bits : Z) : nat := trailing_zeros_from 64 0 bits.

(** The scanner's atomic accesses. *)
Definition clear_active (word bit : nat) (t : SlotTable) : SlotTable :=
  update_word word (fun w => Z.land w (Z.lxor U64_MAX (bit_mask bit))) t.

Definition landed_at (slot : nat) (t : SlotTable) : bool := default 0 (flags t !! slot) =? 1.

Definition payload_at (slot : nat) (t : SlotTable) : option P := default None (payload t !! slot).

Definition recycle (retired : list nat) (t : SlotTable) : SlotTable :=
  mkSlotTable (flags t) (active t) (payload t) (free t ++ retired) (n_armed t) (num_slots t).

Definition sub_armed (n : nat) (t : SlotTable) : SlotTable :=
  mkSlotTable (flags t) (active t) (payload t) (free t) (as_u64 (n_armed t - Z.of_nat n)) (num_slots t).

(** ** One pass, as [scan_inner] runs it *)

Context {D : Type}.

(** The probe is an [FnMut]: it may keep state ([probe_stale_slots] memoizes
    per stream). *)
Notation Probe := (option (P -> D -> bool * D)).

Record Scanned := mkScanned {
  s_table : SlotTable;
  s_retired : list nat;
  s_woken : list P;
  s_dead : list P;
  s_probe : D;
}.

(** The body of the [while] loop, for one slot. *)
Definition scan_slot (probe : Probe) (word bit : nat) (a : Scanned) : outcome Empty_set Scanned :=
  let slot := (word * 64 + bit)%nat in
  let t := s_table a in
  if negb (slot <? length (flags t))%nat then Panic
  else
    let landed := landed_at slot t in
    if negb landed && bool_decide (is_Some probe) && negb (slot <? length (payload t))%nat then Panic
    else
      let '(dead, d) :=
        match landed, probe, payload_at slot t with
        | false, Some is_dead, Some p => is_dead p (s_probe a)
        | _, _, _ => (false, s_probe a)
        end in
      if landed || dead then
        let t := clear_active word bit t in
        if negb (slot <? length (payload t))%nat then Panic
        else
          let taken := payload_at slot t in
          let t := write_payload slot None t in
          Ok (mkScanned t (s_retired a ++ [slot])
                (if landed then s_woken a ++ option_list taken else s_woken a)
                (if landed then s_dead a else s_dead a ++ option_list taken) d)
      else Ok (mkScanned t (s_retired a) (s_woken a) (s_dead a) d).

(** [while bits != 0]: a word has at most 64 bits set. *)
Fixpoint scan_bits (fuel : nat) (probe : Probe) (word : nat) (bits : Z) (a : Scanned)
    : outcome Empty_set Scanned :=
  match fuel with
  | O => Ok a
  | S fuel =>
      if bits =? 0 then Ok a
      else
        let bit := trailing_zeros bits in
        let bits := Z.land bits (bits - 1) in
        if (num_slots (s_table a) <=? word * 64 + bit)%nat then Ok a
        else a ← scan_slot probe word bit a; scan_bits fuel probe word bits a
  end.

(** [for word in 0..self.active.len()]; [n] words are left. *)
Fixpoint scan_words (probe : Probe) (n word : nat) (any_active : bool) (a : Scanned)
    : outcome Empty_set (bool * Scanned) :=
  match n with
  | O => Ok (any_active, a)
  | S n =>
      let bits := default 0 (active (s_table a) !! word) in
      if bits =? 0 then scan_words probe n (S word) any_active a
      else a ← scan_bits 64 probe word bits a; scan_words probe n (S word) true a
  end.

Definition scan_inner (woken dead : list P) (probe : Probe) (d : D) (t : SlotTable)
    : outcome Empty_set (bool * Scanned) :=
  r ← scan_words probe (length (active t)) 0 false (mkScanned t [] woken dead d);
  let '(any_active, a) := (r : bool * Scanned) in
  match s_retired a with
  | [] => Ok (any_active, a)
  | retired =>
      let n := length retired in
      let t := recycle retired (s_table a) in
      (* the debug assertion [prev >= n] *)
      if n_armed t <? Z.of_nat n then Panic
      else Ok (any_active, mkScanned (sub_armed n t) [] (s_woken a) (s_dead a) (s_probe a))
  end.

End table.

Arguments SlotTable : clear implicits.
Arguments Scanned : clear implicits.

Definition scan_once {P} (woken : list P) (t : SlotTable P) : outcome Empty_set (bool * Scanned P ()) :=
  scan_inner woken [] None () t.

Definition scan_probing {P D} (woken dead : list P) (is_dead : P -> D -> bool * D) (d : D)
    (t : SlotTable P) : outcome Empty_set (bool * Scanned P D) :=
  scan_inner woken dead (Some is_dead) d t.

(** ** Bitmap facts *)

Definition is_active {P} (t : SlotTable P) (slot : nat) : bool :=
  Z.testbit (default 0 (active t !! (slot / 64)%nat)) (Z.of_nat (slot mod 64)).

Lemma testbit_mask (b i : nat) : Z.testbit (bit_mask b) (Z.of_nat i) = (i =? b)%nat.
Proof.
  unfold bit_mask. rewrite Z.shiftl_1_l, Z.pow2_bits_eqb by lia.
  destruct (Nat.eqb_spec i b), (Z.eqb_spec (Z.of_nat b) (Z.of_nat i)); lia || done.
Qed.

Lemma testbit_ones64 (i : nat) : (i < 64)%nat -> Z.testbit U64_MAX (Z.of_nat i) = true.
Proof.
  intros. change U64_MAX with (Z.ones 64). rewrite Z.testbit_ones_nonneg by lia.
  apply Z.ltb_lt. lia.
Qed.

Lemma slot_split (w b : nat) : (b < 64)%nat -> ((w * 64 + b) / 64 = w /\ (w * 64 + b) mod 64 = b)%nat.
Proof. intros. split; [symmetry; apply (Nat.div_unique _ 64 w b)|symmetry; apply (Nat.mod_unique _ 64 w b)]; lia. Qed.

Lemma slot_eq (x w b : nat) : (b < 64)%nat -> x = (w * 64 + b)%nat <-> (x / 64 = w /\ x mod 64 = b)%nat.
Proof.
  intros Hb. split; [intros ->; by apply slot_split|]. intros [<- <-].
  pose proof (Nat.div_mod_eq x 64). lia.
Qed.

Section bitmap.
Context {P : Type}.
Implicit Types t : SlotTable P.

Lemma is_active_update t w b f g x : (b < 64)%nat -> (w < length (active t))%nat ->
  (forall v i, (i < 64)%nat -> Z.testbit (f v) (Z.of_nat i) = if (i =? b)%nat then g else Z.testbit v (Z.of_nat i)) ->
  is_active (update_word w f t) x = if (x =? w * 64 + b)%nat then g else is_active t x.
Proof.
  intros Hb Hw Hf. unfold is_active, update_word; cbn [active].
  destruct (lookup_lt_is_Some_2 _ _ Hw) as [v Hv].
  destruct (decide ((x / 64)%nat = w)) as [Hd|Hd].
  - rewrite Hd, list_lookup_alter, decide_True, Hv by done; cbn [default from_option option_fmap fmap option_map id].
    rewrite Hf by (apply Nat.mod_upper_bound; lia).
    destruct (Nat.eqb_spec (x mod 64) b) as [E|E], (Nat.eqb_spec x (w * 64 + b)) as [E'|E']; try done;
      rewrite slot_eq in E' by done; tauto.
  - rewrite list_lookup_alter_ne by done.
    destruct (Nat.eqb_spec x (w * 64 + b)) as [E'|E']; [|done].
    rewrite slot_eq in E' by done. tauto.
Qed.

Lemma is_active_set t s x : (s / 64 < length (active t))%nat ->
  is_active (set_active s t) x = if (x =? s)%nat then true else is_active t x.
Proof.
  intros H. unfold set_active.
  assert (s mod 64 < 64)%nat by (apply Nat.mod_upper_bound; lia).
  rewrite (is_active_update t _ (s mod 64) _ true); [|done..|].
  - by rewrite (Nat.mul_comm _ 64), <- Nat.div_mod_eq.
  - intros v i Hi. rewrite Z.lor_spec, testbit_mask. destruct (i =? _)%nat; [apply orb_true_r|apply orb_false_r].
Qed.

Lemma is_active_word t w b : (b < 64)%nat -> is_active t (w * 64 + b) = true -> (w < length (active t))%nat.
Proof.
  intros Hb. unfold is_active. destruct (slot_split w b Hb) as [-> ->].
  destruct (active t !! w) eqn:E; [by intros _; eapply lookup_lt_Some|]. cbn. by rewrite Z.bits_0.
Qed.

Lemma is_active_clear t w b x : (b < 64)%nat -> (w < length (active t))%nat ->
  is_active (clear_active w b t) x = if (x =? w * 64 + b)%nat then false else is_active t x.
Proof.
  intros Hb Hw. apply is_active_update; [done..|]. intros v i Hi.
  rewrite Z.land_spec, Z.lxor_spec, testbit_mask, testbit_ones64 by done.
  destruct (i =? b)%nat; cbn; [apply andb_false_r|apply andb_true_r].
Qed.
End bitmap.

(** The lowest set bit, and clearing it. *)
Lemma trailing_zeros_from_spec fuel k bits :
  (forall i, (i < k)%nat -> Z.testbit bits (Z.of_nat i) = false) ->
  (exists i, (k <= i < k + fuel)%nat /\ Z.testbit bits (Z.of_nat i) = true) ->
  let z := trailing_zeros_from fuel k bits in
  (z < k + fuel)%nat /\ Z.testbit bits (Z.of_nat z) = true /\
  (forall i, (i < z)%nat -> Z.testbit bits (Z.of_nat i) = false).
Proof.
  revert k. induction fuel as [|fuel IH]; intros k Hlow (i & Hi & Hb); cbn [trailing_zeros_from]; [lia|].
  destruct (Z.testbit bits (Z.of_nat k)) eqn:E.
  - split_and!; [lia|done|done].
  - destruct (IH (S k)) as (H1 & H2 & H3).
    + intros j Hj. destruct (decide (j = k)) as [->|]; [done|apply Hlow; lia].
    + exists i. split; [|done]. destruct (decide (i = k)); [congruence|lia].
    + split_and!; [lia|done|done].
Qed.

Lemma nonzero_has_bit bits : in_u64 bits -> bits <> 0 ->
  exists i, (i < 64)%nat /\ Z.testbit bits (Z.of_nat i) = true.
Proof.
  intros [H0 H1] Hne. exists (Z.to_nat (Z.log2 bits)).
  assert (Z.log2 bits < 64) by (apply Z.log2_lt_pow2; unfold_int; lia).
  pose proof (Z.log2_nonneg bits). split; [lia|]. rewrite Z2Nat.id by done. apply Z.bit_log2. lia.
Qed.

Lemma trailing_zeros_spec bits : in_u64 bits -> bits <> 0 ->
  let z := trailing_zeros bits in
  (z < 64)%nat /\ Z.testbit bits (Z.of_nat z) = true /\
  (forall i, (i < z)%nat -> Z.testbit bits (Z.of_nat i) = false).
Proof.
  intros H Hne. apply (trailing_zeros_from_spec 64 0); [intros; lia|].
  destruct (nonzero_has_bit bits H Hne) as (i & ? & ?). exists i. split; [lia|done].
Qed.

Lemma clear_lowest bits i : in_u64 bits -> bits <> 0 ->
  Z.testbit (Z.land bits (bits - 1)) (Z.of_nat i) =
    if (i =? trailing_zeros bits)%nat then false else Z.testbit bits (Z.of_nat i).
Proof.
  intros Hu Hne. destruct (trailing_zeros_spec bits Hu Hne) as (_ & Hz & Hlow).
  set (z := trailing_zeros bits) in *. rewrite Z.land_spec.
  (* bits = h * 2^(z+1) + 2^z *)
  assert (Hm : bits mod 2 ^ Z.of_nat z = 0).
  { apply Z.bits_inj_0. intros j. destruct (Z.ltb_spec j 0); [by apply Z.testbit_neg_r|].
    destruct (Z.ltb_spec j (Z.of_nat z)).
    - rewrite Z.mod_pow2_bits_low by lia. replace j with (Z.of_nat (Z.to_nat j)) by lia. apply Hlow. lia.
    - apply Z.mod_pow2_bits_high. lia. }
  assert (Hodd : Z.odd (bits / 2 ^ Z.of_nat z) = true).
  { rewrite <- Z.bit0_odd, Z.div_pow2_bits by lia. by rewrite Z.add_0_l. }
  pose proof (Z.pow_pos_nonneg 2 (Z.of_nat z) ltac:(lia) ltac:(lia)) as Hp.
  assert (Hdec : bits - 1 = (bits / 2 ^ Z.of_nat z - 1) * 2 ^ Z.of_nat z + (2 ^ Z.of_nat z - 1)).
  { pose proof (Z.div_mod bits (2 ^ Z.of_nat z)). lia. }
  assert (Hhigh : (bits - 1) / 2 ^ Z.of_nat z = bits / 2 ^ Z.of_nat z - 1).
  { symmetry. apply (Z.div_unique _ _ _ (2 ^ Z.of_nat z - 1)); lia. }
  assert (Hbit : forall j, Z.of_nat z <= j ->
    Z.testbit (bits - 1) j = Z.testbit (bits / 2 ^ Z.of_nat z - 1) (j - Z.of_nat z)).
  { intros j Hj. rewrite <- Hhigh, Z.div_pow2_bits by lia. f_equal. lia. }
  apply Zodd_bool_iff in Hodd as Hodd'. apply Zodd_ex in Hodd' as [m Hm2].
  destruct (Nat.eqb_spec i z) as [->|Hiz].
  - rewrite Hbit, Z.sub_diag, Hm2 by lia.
    replace (2 * m + 1 - 1) with (2 * m) by lia. rewrite Z.testbit_even_0. apply andb_false_r.
  - destruct (decide (i < z)%nat); [rewrite Hlow by done; done|].
    rewrite Hbit by lia. replace (Z.testbit bits (Z.of_nat i)) with
      (Z.testbit (bits / 2 ^ Z.of_nat z) (Z.of_nat i - Z.of_nat z))
      by (rewrite Z.div_pow2_bits by lia; f_equal; lia).
    rewrite Hm2. replace (2 * m + 1 - 1) with (2 * m) by lia.
    replace (Z.of_nat i - Z.of_nat z) with (Z.succ (Z.of_nat i - Z.of_nat z - 1)) by lia.
    rewrite Z.testbit_odd_succ, Z.testbit_even_succ by lia. apply andb_diag.
Qed.
