(* ===== verification/Specialization.v ===== *)
(** * Tensor specialization (cutile-compiler/src/specialization.rs)

    The divisibility and disjointness facts recorded for a tensor when it is
    built; the compiler turns the former into [assume_div_by] operations, so
    they must be true of the value they were computed from. *)

From stdpp Require Import sorting.
From S2P Require Import Prelude Encoding SlotTable.

(** ** Divisibility hints *)

Record DivHint := mkDivHint { dh_divisor : Z; dh_max : Z }.

Definition div_hint_default : DivHint := mkDivHint 1 16.

(** [val & val.wrapping_neg()]. *)
Definition max_pow2_divisor_unclamped (val : Z) : Z :=
  if val =? 0 then 16
  else if val =? I32_MIN then Z.shiftl 1 30
  else Z.land val (as_i32 (- val)).

Definition max_pow2_divisor (val : Z) : Z := Z.min (max_pow2_divisor_unclamped val) 16.

Definition from_value (val : Z) : DivHint :=
  let raw := max_pow2_divisor_unclamped val in mkDivHint (Z.min raw 16) 16.

Definition from_ptr (ptr : Z) : DivHint :=
  mkDivHint (Z.shiftl 1 (Z.of_nat (Nat.min (trailing_zeros ptr) 4))) 16.

Definition with_max (h : DivHint) (max : Z) : DivHint := mkDivHint (Z.min (dh_divisor h) max) max.

(** ** Scalar type names *)

Definition INTEGER_SCALAR_TYPES : list string := ["i8"; "i16"; "i32"; "i64"; "u8"; "u16"; "u32"; "u64"]%string.
Definition FLOAT_SCALAR_TYPES : list string := ["f16"; "bf16"; "f32"; "f64"]%string.
Definition OTHER_SCALAR_TYPES : list string := ["bool"]%string.

Definition is_integer_scalar (ty : string) : bool := bool_decide (ty ∈ INTEGER_SCALAR_TYPES).
Definition is_scalar (ty : string) : bool :=
  is_integer_scalar ty || bool_decide (ty ∈ FLOAT_SCALAR_TYPES) || bool_decide (ty ∈ OTHER_SCALAR_TYPES).

(** ** Specialization bits *)

Record SpecializationBits := mkSpecializationBits {
  shape_div : list DivHint;
  stride_div : list DivHint;
  stride_one : list bool;
  base_ptr_div : DivHint;
  elements_disjoint : bool;
}.

(** [a * b] on [i32]: a build with overflow checks panics, one without wraps. *)
Definition mul_i32 (overflow_checks : bool) (a b : Z) : outcome Empty_set Z :=
  if bool_decide (in_i32 (a * b)) then Ok (a * b)
  else if overflow_checks then Panic else Ok (as_i32 (a * b)).

(** The order of [(i32, i32)]. *)
Definition pair_le (a b : Z * Z) : Prop := a.1 < b.1 \/ (a.1 = b.1 /\ a.2 <= b.2).
#[export] Instance pair_le_dec a b : Decision (pair_le a b).
Proof. unfold pair_le. apply _. Defined.

(** [for w in sorted.windows(2)]; [false] is the [break]. *)
Fixpoint disjoint_loop (overflow_checks : bool) (sorted : list (Z * Z)) : outcome Empty_set bool :=
  match sorted with
  | w0 :: ((w1 :: _) as rest) =>
      if w1.1 <=? 0 then Ok false
      else
        extent ← mul_i32 overflow_checks w0.1 w0.2;
        if w1.1 <? extent then Ok false else disjoint_loop overflow_checks rest
  | _ => Ok true
  end.

Definition compute_spec (overflow_checks : bool) (base_ptr : Z) (shape strides : list Z)
    : outcome Empty_set SpecializationBits :=
  if (length strides <? length shape)%nat then Panic
  else
    let strides' := take (length shape) strides in
    let sorted := merge_sort pair_le (zip strides shape) in
    let first := match sorted with [] => true | (s, _) :: _ => 0 <? s end in
    rest ← disjoint_loop overflow_checks sorted;
    Ok (mkSpecializationBits (from_value <$> shape) (from_value <$> strides')
          ((fun s => s =? 1) <$> strides') (from_ptr base_ptr) (first && rest)).

(** ** The hints are the greatest divisors *)

Lemma low_bits n i : 0 <= i < 4 -> Z.testbit n i = Z.testbit (n mod 16) i.
Proof. intros Hi. change 16 with (2 ^ 4). by rewrite Z.mod_pow2_bits_low by lia. Qed.

(** Facts about the low four bits, by cases. *)
Ltac residues r :=
  assert (r = 0 \/ r = 1 \/ r = 2 \/ r = 3 \/ r = 4 \/ r = 5 \/ r = 6 \/ r = 7 \/ r = 8 \/ r = 9 \/ r = 10 \/
          r = 11 \/ r = 12 \/ r = 13 \/ r = 14 \/ r = 15) by lia;
  repeat match goal with H : r = _ \/ _ |- _ => destruct H as [H|H] | H : r = _ |- _ => rewrite H in * end.

Lemma gcd_16 n : Z.gcd n 16 = Z.gcd (n mod 16) 16.
Proof. rewrite Z.gcd_mod by done. apply Z.gcd_comm. Qed.

Lemma trailing_zeros_from_S fuel k b :
  trailing_zeros_from (S fuel) k b = if Z.testbit b (Z.of_nat k) then k else trailing_zeros_from fuel (S k) b.
Proof. reflexivity. Qed.

Lemma trailing_zeros_from_ge fuel k b : (k <= trailing_zeros_from fuel k b)%nat.
Proof.
  revert k. induction fuel as [|fuel IH]; intros k; [cbn; lia|]. rewrite trailing_zeros_from_S.
  destruct (Z.testbit b _); [lia|]. specialize (IH (S k)). lia.
Qed.

Lemma from_ptr_gcd ptr : dh_divisor (from_ptr ptr) = Z.gcd ptr 16.
Proof.
  unfold from_ptr, trailing_zeros. cbn [dh_divisor]. rewrite gcd_16.
  rewrite 4!trailing_zeros_from_S. rewrite 4!(low_bits ptr) by lia.
  pose proof (trailing_zeros_from_ge 60 4 ptr) as Hge. pose proof (Z.mod_pos_bound ptr 16 ltac:(lia)) as Hr.
  assert (Hz : Nat.min (trailing_zeros_from 60 4 ptr) 4 = 4%nat) by lia. clear Hge.
  generalize dependent (trailing_zeros_from 60 4 ptr). generalize dependent (ptr mod 16).
  intros r Hr z Hz. residues r; try reflexivity.
  change (Z.shiftl 1 (Z.of_nat (Nat.min z 4)) = Z.gcd 0 16). by rewrite Hz.
Qed.

(** Four low bits and the rest of a conjunction. *)
Lemma land_split a b r s : 0 <= r < 16 -> 0 <= s < 16 ->
  Z.land (16 * a + r) (16 * b + s) = 16 * Z.land a b + Z.land r s.
Proof.
  intros Hr Hs. assert (Hrs : 0 <= Z.land r s < 16).
  { split; [apply Z.land_nonneg; lia|]. residues r; residues s; reflexivity. }
  assert (Hbit : forall q t i, 0 <= t < 16 -> 4 <= i -> Z.testbit (16 * q + t) i = Z.testbit q (i - 4)).
  { intros q t i Ht Hi. replace i with (i - 4 + 4) at 1 by lia.
    rewrite <- (Z.shiftr_spec _ 4), Z.shiftr_div_pow2 by lia.
    change (2 ^ 4) with 16. by rewrite <- (Z.div_unique_pos (16 * q + t) 16 q t) by lia. }
  apply Z.bits_inj'. intros i Hi. rewrite Z.land_spec. destruct (decide (4 <= i)) as [H4|H4].
  - rewrite !Hbit by lia. by rewrite Z.land_spec.
  - rewrite (low_bits (16 * a + r)), (low_bits (16 * b + s)), (low_bits (_ + Z.land r s)) by lia.
    rewrite <- Z.land_spec.
    rewrite <- (Z.mod_unique_pos (16 * a + r) 16 a r), <- (Z.mod_unique_pos (16 * b + s) 16 b s) by lia.
    by rewrite <- (Z.mod_unique_pos (16 * Z.land a b + Z.land r s) 16 (Z.land a b) (Z.land r s)) by lia.
Qed.

Lemma land_neg_nonzero v : v <> 0 -> Z.land v (- v) <> 0.
Proof.
  assert (Hpos : forall w, 0 < w -> Z.land w (- w) <> 0).
  { intros w Hw H. replace (- w) with (Z.lnot (w - 1)) in H by (unfold Z.lnot; lia).
    rewrite <- Z.ldiff_land in H. apply Z.ldiff_le in H; lia. }
  intros Hv. destruct (decide (0 < v)); [by apply Hpos|].
  rewrite Z.land_comm. replace v with (- - v) at 2 by lia. apply Hpos. lia.
Qed.

Lemma lowest_bit_gcd v : v <> 0 -> Z.min (Z.land v (- v)) 16 = Z.gcd v 16.
Proof.
  intros Hv. rewrite gcd_16. pose proof (Z.mod_pos_bound v 16 ltac:(lia)) as Hr.
  pose proof (land_neg_nonzero v Hv) as Hne.
  assert (Hge : 0 <= Z.land v (- v)) by (apply Z.land_nonneg; lia).
  rewrite (Z.div_mod v 16) in Hne, Hge |- * at 1 2 by lia. destruct (decide (v mod 16 = 0)) as [E|E].
  - rewrite E in *.
    replace (- (16 * (v / 16) + 0)) with (16 * (- (v / 16)) + 0) in * by lia.
    rewrite land_split in * by lia. change (Z.land 0 0) with 0 in *. change (Z.gcd 0 16) with 16. lia.
  - replace (- (16 * (v / 16) + v mod 16)) with (16 * Z.lnot (v / 16) + (16 - v mod 16)) by (unfold Z.lnot; lia).
    rewrite land_split by lia. rewrite Z.land_lnot_diag. clear Hge Hne.
    generalize dependent (v mod 16). intros r Hr E. residues r; try reflexivity. done.
Qed.

Lemma from_value_gcd v : in_i32 v -> dh_divisor (from_value v) = Z.gcd v 16.
Proof.
  intros Hv. unfold from_value, max_pow2_divisor_unclamped. cbn [dh_divisor].
  destruct (Z.eqb_spec v 0) as [->|H0]; [reflexivity|].
  destruct (Z.eqb_spec v I32_MIN) as [->|Hm]; [reflexivity|].
  rewrite as_i32_id by (unfold_int; lia). by apply lowest_bit_gcd.
Qed.

Lemma with_max_gcd v k : in_i32 v -> 0 <= k <= 30 ->
  dh_divisor (with_max (from_value v) (2 ^ k)) = Z.gcd v (Z.min (2 ^ k) 16).
Proof.
  intros Hv Hk. unfold with_max. cbn [dh_divisor]. rewrite (from_value_gcd v Hv).
  destruct (decide (4 <= k)) as [H4|H4].
  - assert (16 <= 2 ^ k) by (change 16 with (2 ^ 4); apply Z.pow_le_mono_r; lia).
    rewrite (Z.min_r (2 ^ k) 16) by lia. apply Z.min_l.
    pose proof (Z.divide_pos_le (Z.gcd v 16) 16 ltac:(lia) (Z.gcd_divide_r v 16)). lia.
  - assert (Hm : (2 ^ k | 16)).
    { exists (2 ^ (4 - k)). rewrite <- Z.pow_add_r by lia. by replace (4 - k + k) with 4 by lia. }
    assert (Hg : Z.gcd v (2 ^ k) = Z.gcd (v mod 16) (2 ^ k)).
    { destruct Hm as [c Hc]. rewrite Z.gcd_comm, (Z.gcd_comm (v mod 16)).
      rewrite <- (Z.gcd_add_mult_diag_r (2 ^ k) (v mod 16) (c * (v / 16))). f_equal.
      pose proof (Z.div_mod v 16 ltac:(lia)) as Hd. generalize dependent (v mod 16). intros r Hd. rewrite Hc in Hd at 1. nia. }
    pose proof (Z.mod_pos_bound v 16 ltac:(lia)) as Hr. rewrite gcd_16.
    assert (k = 0 \/ k = 1 \/ k = 2 \/ k = 3) as [-> | [-> | [-> | ->]]] by lia;
      [ change (2 ^ 0) with 1 in * | change (2 ^ 1) with 2 in *
      | change (2 ^ 2) with 4 in * | change (2 ^ 3) with 8 in * ];
      (etransitivity; [|symmetry; exact Hg]);
      generalize dependent (v mod 16); intros r _ Hr; residues r; reflexivity.
Qed.

(** What a returning [compute_spec] computed. *)
Lemma compute_spec_inv oc ptr shape strides spec : compute_spec oc ptr shape strides = Ok spec ->
  (length shape <= length strides)%nat /\
  exists rest, disjoint_loop oc (merge_sort pair_le (zip strides shape)) = Ok rest /\
    spec = mkSpecializationBits (from_value <$> shape) (from_value <$> take (length shape) strides)
             ((fun s => s =? 1) <$> take (length shape) strides) (from_ptr ptr)
             (match merge_sort pair_le (zip strides shape) with [] => true | (s, _) :: _ => 0 <? s end && rest).
Proof.
  unfold compute_spec. destruct (Nat.ltb_spec (length strides) (length shape)); [done|].
  destruct (disjoint_loop _ _) as [rest| |] eqn:E; cbn [mbind outcome_bind]; try done.
  intros [= <-]. eauto.
Qed.

Lemma from_values_gcd l : Forall in_i32 l -> dh_divisor <$> (from_value <$> l) = (fun v => Z.gcd v 16) <$> l.
Proof.
  intros H. rewrite <- list_fmap_compose. apply Forall_fmap_ext_1.
  apply (Forall_impl _ _ _ H). intros v Hv. by apply from_value_gcd.
Qed.

(** ** Disjoint elements *)

(** One dimension of two indexings of the same tensor: its stride and extent
    and the two coordinates. *)
Definition dim : Type := (Z * Z) * (Z * Z).

Definition dim_ok (q : dim) : Prop := 0 <= q.2.1 < q.1.2 /\ 0 <= q.2.2 < q.1.2.

(** The difference of the two element offsets. *)
Definition dims_delta (l : list dim) : Z := foldr (fun q acc => q.1.1 * (q.2.1 - q.2.2) + acc) 0 l.

#[local] Instance dims_delta_Permutation : Proper ((≡ₚ) ==> eq) dims_delta.
Proof. unfold dims_delta. induction 1; cbn [foldr]; lia. Qed.

Lemma dims_delta_cons s d x y l : dims_delta (((s, d), (x, y)) :: l) = s * (x - y) + dims_delta l.
Proof. reflexivity. Qed.

(** The element offset of an index, in elements. *)
Definition offset (strides idx : list Z) : Z := foldr Z.add 0 (zip_with Z.mul strides idx).

Lemma offset_delta strides shape xs ys :
  length shape = length strides -> length xs = length strides -> length ys = length strides ->
  dims_delta (zip (zip strides shape) (zip xs ys)) = offset strides xs - offset strides ys.
Proof.
  revert shape xs ys. induction strides as [|s strides IH]; intros [|d shape] [|x xs] [|y ys]; try done.
  intros [= H1] [= H2] [= H3]. specialize (IH shape xs ys H1 H2 H3). unfold dims_delta, offset in *. cbn in *. lia.
Qed.

Lemma mul_i32_checked a b c : mul_i32 true a b = Ok c -> c = a * b.
Proof. unfold mul_i32. case_bool_decide; [|done]. by intros [= <-]. Qed.

Lemma disjoint_loop_cons s d s' d' l :
  disjoint_loop true ((s, d) :: (s', d') :: l) = Ok true ->
  0 < s' /\ s * d <= s' /\ disjoint_loop true ((s', d') :: l) = Ok true.
Proof.
  change (disjoint_loop true ((s, d) :: (s', d') :: l)) with
    (if s' <=? 0 then Ok false
     else extent ← mul_i32 true s d;
          if s' <? extent then Ok false else disjoint_loop true ((s', d') :: l)).
  destruct (Z.leb_spec s' 0); [done|]. destruct (mul_i32 true s d) as [e| |] eqn:Em; try done.
  apply mul_i32_checked in Em as ->. cbn [mbind outcome_bind]. by destruct (Z.ltb_spec s' (s * d)).
Qed.

(** Ascending dimensions: the offset accumulated so far stays below the next
    stride, so the first difference could not be cancelled later. *)
Lemma disjoint_walk l acc :
  disjoint_loop true (fst <$> l) = Ok true -> Forall dim_ok l ->
  (forall q, head l = Some q -> 0 < q.1.1 /\ Z.abs acc < q.1.1) ->
  acc + dims_delta l = 0 -> acc = 0 /\ Forall (fun q => q.2.1 = q.2.2) l.
Proof.
  revert acc. induction l as [|[[s d] [x y]] l IH]; intros acc Hloop Hok Hhead Hsum; [cbn in Hsum; split; [lia|done]|].
  apply Forall_cons in Hok as [[Hx Hy] Hok]. cbn [fst snd] in Hx, Hy.
  destruct (Hhead _ eq_refl) as [Hs Hacc]. cbn [fst] in Hs, Hacc. rewrite dims_delta_cons in Hsum.
  assert (acc + s * (x - y) = 0 /\ Forall (fun q : dim => q.2.1 = q.2.2) l) as [H0 Hl].
  { destruct l as [|[[s' d'] [x' y']] l]; [split; [cbn in Hsum; lia|done]|].
    apply disjoint_loop_cons in Hloop as (Hs' & Hext & Hloop).
    apply IH; [exact Hloop|done| |lia].
    intros q [= <-]. cbn [fst]. split; [done|]. nia. }
  assert (x = y) as -> by nia. split; [lia|]. by constructor.
Qed.

Lemma zip_zip_length {A B C D} (l1 : list A) (l2 : list B) (l3 : list C) (l4 : list D) :
  length l2 = length l1 -> length l3 = length l1 -> length l4 = length l1 ->
  fst <$> zip (zip l1 l2) (zip l3 l4) = zip l1 l2.
Proof. intros H2 H3 H4. apply fst_zip. rewrite !length_zip. lia. Qed.

Lemma dims_ok strides shape xs ys :
  Forall2 (fun x d => 0 <= x < d) xs shape -> Forall2 (fun y d => 0 <= y < d) ys shape ->
  Forall dim_ok (zip (zip strides shape) (zip xs ys)).
Proof.
  revert shape xs ys. induction strides as [|s strides IH]; intros shape xs ys Hx Hy; [done|].
  destruct Hx as [|x d xs shape Hx Hxs]; [done|]. apply Forall2_cons_inv_r in Hy as (y & ys' & Hy & Hys & ->).
  cbn. constructor; [done|]. by apply IH.
Qed.

Lemma dims_equal {A B} (l : list (A * B)) (xs ys : list Z) :
  length xs = length l -> length ys = length l ->
  Forall (fun q : (A * B) * (Z * Z) => q.2.1 = q.2.2) (zip l (zip xs ys)) -> xs = ys.
Proof.
  revert xs ys. induction l as [|a l IH]; intros [|x xs] [|y ys]; try done.
  intros [= H1] [= H2]. cbn. rewrite Forall_cons. cbn. intros [-> H]. f_equal. by apply IH.
Qed.

(** ** Theorems *)

(** The hints of a tensor are exact. Whatever shape and strides
    [compute_spec] accepts, every recorded divisor is the greatest common
    divisor of the value it annotates (the base address in bytes) with 16, so
    an [assume_div_by] emitted from it is true and no alignment up to 16 is
    lost, [i32::MIN] and zero included; re-clamping with a power of two gives
    the greatest common divisor with that bound, and [stride_one] marks
    exactly the unit strides. *)
Lemma specialization_hints_exact oc ptr shape strides spec
    (Hshape : Forall in_i32 shape) (Hstrides : Forall in_i32 strides)
    (Hspec : compute_spec oc ptr shape strides = Ok spec) :
  dh_divisor <$> shape_div spec = (fun v => Z.gcd v 16) <$> shape /\
  dh_divisor <$> stride_div spec = (fun v => Z.gcd v 16) <$> take (length shape) strides /\
  dh_divisor (base_ptr_div spec) = Z.gcd ptr 16 /\
  (forall i s, strides !! i = Some s -> (i < length shape)%nat -> stride_one spec !! i = Some (bool_decide (s = 1))) /\
  (forall k, 0 <= k <= 30 ->
     (fun h => dh_divisor (with_max h (2 ^ k))) <$> shape_div spec =
       (fun v => Z.gcd v (Z.min (2 ^ k) 16)) <$> shape).
Proof.
  apply compute_spec_inv in Hspec as (_ & rest & _ & ->).
  cbn [shape_div stride_div base_ptr_div stride_one]. split_and!.
  - by apply from_values_gcd.
  - apply from_values_gcd. by apply Forall_take.
  - apply from_ptr_gcd.
  - intros i s Hi Hlt. rewrite list_lookup_fmap, lookup_take_lt, Hi by done. cbn. f_equal.
    by destruct (Z.eqb_spec s 1); case_bool_decide.
  - intros k Hk. rewrite <- list_fmap_compose. apply Forall_fmap_ext_1.
    apply (Forall_impl _ _ _ Hshape). intros v Hv. by apply with_max_gcd.
Qed.

Lemma specialization_hints_exact_witness :
  exists spec, compute_spec true 4096 [I32_MIN; 0; 12] [24; 2; 1] = Ok spec /\
    dh_divisor <$> shape_div spec = [16; 16; 4].
Proof.
  eexists. split; [reflexivity|].
  refine (proj1 (specialization_hints_exact true 4096 [I32_MIN; 0; 12] [24; 2; 1] _ _ _ eq_refl));
    repeat constructor; unfold_int; lia.
Defined.

(** C30: [elements_disjoint] is sound where the extent products are checked.
    If [compute_spec] returns with the flag set in a build with overflow
    checks, two in-range indices of the tensor that reach the same element
    offset are the same index. *)
Theorem disjoint_elements_injective ptr shape strides spec xs ys
    (Hlen : length strides = length shape)
    (Hspec : compute_spec true ptr shape strides = Ok spec)
    (Hflag : elements_disjoint spec = true)
    (Hxs : Forall2 (fun x d => 0 <= x < d) xs shape) (Hys : Forall2 (fun y d => 0 <= y < d) ys shape)
    (Hoff : offset strides xs = offset strides ys) :
  xs = ys.
Proof.
  apply compute_spec_inv in Hspec as (_ & rest & Hloop & ->). cbn [elements_disjoint] in Hflag.
  apply andb_prop in Hflag as [Hfirst ->].
  pose proof (Forall2_length _ _ _ Hxs) as Hlx. pose proof (Forall2_length _ _ _ Hys) as Hly.
  set (Q := zip (zip strides shape) (zip xs ys)).
  assert (Hperm : merge_sort pair_le (zip strides shape) ≡ₚ fst <$> Q).
  { unfold Q. rewrite zip_zip_length by lia. apply merge_sort_Permutation. }
  apply Permutation_map_inv in Hperm as (Q' & HQ' & HpQ).
  change (map fst Q') with (fst <$> Q') in HQ'. rewrite HQ' in Hloop, Hfirst.
  destruct (disjoint_walk Q' 0) as [_ Heq]; [done| | | |].
  - rewrite <- HpQ. by apply dims_ok.
  - intros q Hq. destruct Q' as [|[[s d] xy] Q']; [done|]. injection Hq as <-. cbn in Hfirst |- *. lia.
  - rewrite <- HpQ. unfold Q. rewrite offset_delta by lia. lia.
  - rewrite <- HpQ in Heq. apply (dims_equal (zip strides shape)); [| |exact Heq]; rewrite length_zip; lia.
Qed.

Lemma disjoint_elements_injective_witness :
  exists spec, compute_spec true 0 [4; 3; 2] [6; 2; 1] = Ok spec /\ elements_disjoint spec = true /\
    ([3; 0; 1] : list Z) = [3; 0; 1].
Proof.
  eexists. split; [reflexivity|]. split; [reflexivity|].
  apply (disjoint_elements_injective 0 [4; 3; 2] [6; 2; 1] _ [3; 0; 1] [3; 0; 1] eq_refl eq_refl eq_refl);
    [repeat constructor; lia..|reflexivity].
Defined.

(** A build without overflow checks wraps the extent product: 65536 * 65536
    becomes 0, and overlapping dimensions are reported disjoint. *)
Lemma wrapped_extent_not_disjoint :
  (elements_disjoint <$> (compute_spec false 0 [65536; 2] [65536; 131072])) = Ok true /\
  compute_spec true 0 [65536; 2] [65536; 131072] = Panic /\
  offset [65536; 131072] [2; 0] = offset [65536; 131072] [0; 1].
Proof. split_and!; vm_compute; done. Qed.
