(* ===== verification/Tensor.v ===== *)
(** * Host tensors, views and partitions (cutile/src/tensor.rs)

    A tensor pairs a device allocation with shape, strides and specialization
    bits; reshapes, views and slices give other metadata to the same bytes, and
    a partition divides a tensor into the tiles the blocks of a launch own.
    The metadata operations are modelled with their machine arithmetic: [i32]
    shapes and strides, [usize] sizes of 64 bits, and a flag for builds with
    overflow checks.  [sz] is [size_of::<T>()]. *)

From S2P Require Import Prelude Launch Encoding Specialization.

(** ** Arithmetic *)

(** Code that cannot return an error. *)
Definition embed {E A} (o : outcome Empty_set A) : outcome E A :=
  match o with Ok a => Ok a | Err e => match e with end | Panic => Panic end.

(** A [usize] (or [u64]) result: out of range panics or wraps. *)
Definition arith_u64 {E} (oc : bool) (z : Z) : outcome E Z :=
  if bool_decide (in_u64 z) then Ok z else if oc then Panic else Ok (as_u64 z).

Definition checked_u64 (z : Z) : option Z := if bool_decide (in_u64 z) then Some z else None.

(** [Option::expect] and [assert!]. *)
Definition expect {E A} (o : option A) : outcome E A := match o with Some a => Ok a | None => Panic end.
Definition expect_ok {E E' A} (o : outcome E A) : outcome E' A := match o with Ok a => Ok a | _ => Panic end.
Definition assert {E} (b : bool) : outcome E unit := if b then Ok tt else Panic.

(** [{:?}] of a vector of integers. *)
Definition show_ints (l : list Z) : string := "[" +:+ join ", " (pretty <$> l) +:+ "]".

(** ** Shapes *)

(** The loop over the reversed shape: the running product is updated after
    the last push too. *)
Fixpoint strides_loop {E} (oc : bool) (stride : Z) (shape : list Z) : outcome E (list Z) :=
  match shape with
  | [] => Ok []
  | dim :: shape =>
      stride' ← embed (mul_i32 oc stride dim);
      strides ← strides_loop oc stride' shape;
      Ok (stride :: strides)
  end.

Definition contiguous_strides {E} (oc : bool) (shape : list Z) : outcome E (list Z) :=
  strides ← strides_loop oc 1 (reverse shape); Ok (reverse strides).

Fixpoint checked_product (acc : Z) (shape : list Z) : outcome string Z :=
  match shape with
  | [] => Ok acc
  | dim :: shape =>
      match checked_u64 (acc * dim) with
      | Some acc => checked_product acc shape
      | None => Err "Tensor shape overflowed usize."%string
      end
  end.

Definition checked_num_elements (shape : list Z) : outcome string Z := checked_product 1 shape.

Definition checked_num_bytes (sz : Z) (shape : list Z) : outcome string Z :=
  n ← checked_num_elements shape; ok_or (checked_u64 (n * sz)) "Tensor byte size overflowed usize."%string.

Fixpoint checked_product_i32 (acc : Z) (shape : list Z) : outcome string Z :=
  match shape with
  | [] => Ok acc
  | dim :: shape =>
      if dim <? 0 then Err "Tensor shape contains negative dimension."%string
      else
        match checked_u64 (acc * dim) with
        | Some acc => checked_product_i32 acc shape
        | None => Err "Tensor shape overflowed usize."%string
        end
  end.

Definition checked_num_elements_i32 (shape : list Z) : outcome string Z := checked_product_i32 1 shape.

Definition checked_num_bytes_i32 (sz : Z) (shape : list Z) : outcome string Z :=
  n ← checked_num_elements_i32 shape; ok_or (checked_u64 (n * sz)) "Tensor byte size overflowed usize."%string.

(** The closure [axis] of [partition_launch_grid]; the indices are in range. *)
Definition grid_axis (extent tile : Z) : outcome string Z :=
  if U32_MAX <? tile then Err ("Partition dimension " +:+ pretty tile +:+ " exceeds u32::MAX.")
  else Ok ((extent + tile - 1) / tile).

Definition partition_launch_grid (shape partition_shape : list Z) : outcome string Grid :=
  if existsb (fun d => d <=? 0) shape
  then Err ("Shape dimensions must be positive, got " +:+ show_ints shape +:+ ".")
  else if negb (zlen partition_shape =? zlen shape)
  then Err ("Partition rank " +:+ pretty (zlen partition_shape) +:+ " does not match tensor rank "
              +:+ pretty (zlen shape) +:+ " (partition shape " +:+ show_ints partition_shape
              +:+ ", tensor shape " +:+ show_ints shape +:+ ").")
  else if bool_decide (0 ∈ partition_shape)
  then Err ("Partition dimensions must be positive, got " +:+ show_ints partition_shape +:+ ".")
  else
    match shape, partition_shape with
    | [s0], [p0] => x ← grid_axis s0 p0; Ok (x, 1, 1)
    | [s0; s1], [p0; p1] => x ← grid_axis s0 p0; y ← grid_axis s1 p1; Ok (x, y, 1)
    | [s0; s1; s2], [p0; p1; p2] =>
        x ← grid_axis s0 p0; y ← grid_axis s1 p1; z ← grid_axis s2 p2; Ok (x, y, z)
    | _, _ => Err "Mutable tensor must be at most rank 3."%string
    end.

Definition validate_view_shape_for (oc : bool) (sz : Z) (shape strides target : list Z) : outcome string unit :=
  contiguous ← contiguous_strides oc shape;
  if negb (bool_decide (strides = contiguous))
  then Err ("Zero-copy tensor views require contiguous storage (shape " +:+ show_ints shape +:+ ", strides "
              +:+ show_ints strides +:+ ").")
  else
    target_num_bytes ← checked_num_bytes sz target;
    current_num_bytes ← checked_num_bytes_i32 sz shape;
    if negb (target_num_bytes =? current_num_bytes)
    then Err ("View shape must preserve tensor size: " +:+ show_ints target
                +:+ " does not have the same number of elements as " +:+ show_ints shape +:+ ".")
    else Ok tt.

(** The loop of [addressable_bytes]. *)
Fixpoint max_offset_loop {E} (acc : Z) (shape strides : list Z) : outcome E Z :=
  match shape, strides with
  | dim :: shape, stride :: strides =>
      _ ← assert (0 <=? stride);
      off ← expect (checked_u64 ((dim - 1) * stride));
      acc ← expect (checked_u64 (acc + off));
      max_offset_loop acc shape strides
  | _, _ => Ok acc
  end.

Definition addressable_bytes {E} (sz : Z) (shape strides : list Z) : outcome E Z :=
  _ ← assert (zlen shape =? zlen strides);
  if existsb (fun d => d <=? 0) shape then Ok 0
  else
    max_elem_offset ← max_offset_loop 0 shape strides;
    elems ← expect (checked_u64 (max_elem_offset + 1));
    expect (checked_u64 (elems * sz)).

(** ** Storage and tensors *)

Inductive Allocation :=
| Device (cudptr len device_id : Z)
| Meta (len_bytes device_id : Z).

Definition META_SPEC_PTR : Z := 16.

Definition len_bytes (a : Allocation) : Z := match a with Device _ len _ => len | Meta len _ => len end.
Definition alloc_device_id (a : Allocation) : Z := match a with Device _ _ d => d | Meta _ d => d end.
Definition cu_deviceptr {E} (a : Allocation) : outcome E Z := match a with Device p _ _ => Ok p | Meta _ _ => Panic end.
Definition spec_ptr (a : Allocation) : Z := match a with Device p _ _ => p | Meta _ _ => META_SPEC_PTR end.

Record Tensor := mkTensor {
  storage : Allocation; t_shape : list Z; t_strides : list Z; t_spec : SpecializationBits }.

Record TensorView := mkTensorView {
  base : Tensor; offset_bytes : Z; v_shape : list Z; v_strides : list Z; v_spec : SpecializationBits }.

Section tensor.
Context (oc : bool) (sz : Z).

Definition assert_valid_metadata {E} (shape strides : list Z) (storage_num_bytes : Z) : outcome E unit :=
  _ ← assert (zlen shape =? zlen strides);
  num_bytes ← expect_ok (checked_num_bytes_i32 sz shape);
  assert (num_bytes =? storage_num_bytes).

Definition from_device_buffer {E} (cudptr len device_id : Z) (shape strides : list Z) : outcome E Tensor :=
  _ ← assert_valid_metadata shape strides len;
  let storage := Device cudptr len device_id in
  ptr ← cu_deviceptr storage;
  spec ← embed (compute_spec oc ptr shape strides);
  Ok (mkTensor storage shape strides spec).

Definition from_raw_parts {E} (dptr len device_id : Z) (shape strides : list Z) : outcome E Tensor :=
  _ ← assert_valid_metadata shape strides len;
  from_device_buffer dptr len device_id shape strides.

Definition borrow_raw_parts {E} (dptr device_id : Z) (shape strides : list Z) : outcome E Tensor :=
  len ← expect_ok (checked_num_bytes_i32 sz shape);
  from_device_buffer dptr len device_id shape strides.

(** The getters of the foreign owner are its pointer, length and device. *)
Definition from_foreign {E} (owner_ptr owner_len owner_device : Z) (shape strides : list Z) : outcome E Tensor :=
  len ← expect_ok (checked_num_bytes_i32 sz shape);
  extent_bytes ← addressable_bytes sz shape strides;
  _ ← assert (extent_bytes <=? owner_len);
  from_device_buffer owner_ptr len owner_device shape strides.

Definition from_meta {E} (shape : list Z) (device_id : Z) : outcome E Tensor :=
  strides ← contiguous_strides oc shape;
  len ← expect_ok (checked_num_bytes_i32 sz shape);
  _ ← assert_valid_metadata shape strides len;
  spec ← embed (compute_spec oc META_SPEC_PTR shape strides);
  Ok (mkTensor (Meta len device_id) shape strides spec).

Definition num_elements {E} (t : Tensor) : outcome E Z := expect_ok (checked_num_elements_i32 (t_shape t)).
Definition typed_num_bytes {E} (t : Tensor) : outcome E Z := expect_ok (checked_num_bytes_i32 sz (t_shape t)).

Definition is_contiguous {E} (t : Tensor) : outcome E bool :=
  contiguous ← contiguous_strides oc (t_shape t); Ok (bool_decide (t_strides t = contiguous)).

(** Metadata for [shape] over the storage, without validation. *)
Definition contiguous_meta {E} (ptr : Z) (shape : list Z) : outcome E (list Z * list Z * SpecializationBits) :=
  let new_shape := as_i32 <$> shape in
  new_strides ← contiguous_strides oc new_shape;
  spec ← embed (compute_spec oc ptr new_shape new_strides);
  Ok (new_shape, new_strides, spec).

Definition reshape_unchecked {E} (t : Tensor) (shape : list Z) : outcome E Tensor :=
  '(shape, strides, spec) ← contiguous_meta (spec_ptr (storage t)) shape;
  Ok (mkTensor (storage t) shape strides spec).

Definition validate_view_shape (t : Tensor) (shape : list Z) : outcome string unit :=
  validate_view_shape_for oc sz (t_shape t) (t_strides t) shape.

Definition reshape (t : Tensor) (shape : list Z) : outcome string Tensor :=
  _ ← validate_view_shape t shape; reshape_unchecked t shape.

Definition reshape_shared (t : Tensor) (shape : list Z) : outcome string Tensor :=
  _ ← validate_view_shape t shape;
  '(shape, strides, spec) ← contiguous_meta (spec_ptr (storage t)) shape;
  Ok (mkTensor (storage t) shape strides spec).

(** [sz'] and [alignment] are those of the target type. *)
Definition validate_reinterpret_shape (sz' alignment : Z) (t : Tensor) (shape : list Z) : outcome string unit :=
  contiguous ← is_contiguous t;
  if negb contiguous then Err "Zero-copy reinterpret requires contiguous storage."%string
  else
    target_num_bytes ← checked_num_bytes sz' shape;
    current ← typed_num_bytes t;
    if negb (target_num_bytes =? current) then Err "Reinterpret shape must preserve total byte size."%string
    else if (1 <? alignment) && negb (spec_ptr (storage t) mod alignment =? 0)
    then Err "Tensor storage alignment is incompatible with reinterpret target type."%string
    else Ok tt.

Definition reinterpret (sz' alignment : Z) (t : Tensor) (shape : list Z) : outcome string Tensor :=
  _ ← validate_reinterpret_shape sz' alignment t shape;
  '(shape, strides, spec) ← contiguous_meta (spec_ptr (storage t)) shape;
  Ok (mkTensor (storage t) shape strides spec).

(** ** Views and slices *)

Definition view (t : Tensor) (shape : list Z) : outcome string TensorView :=
  _ ← validate_view_shape t shape;
  '(shape, strides, spec) ← contiguous_meta (spec_ptr (storage t)) shape;
  Ok (mkTensorView t 0 shape strides spec).

(** The axis loop of [slice]: the sliced shape and the offset in elements. *)
Fixpoint slice_axes (offset_elems : Z) (ranges : list (Z * Z)) (shape strides : list Z) : outcome string (list Z * Z) :=
  match ranges, shape, strides with
  | [], _, _ => Ok (shape, offset_elems)
  | (start, end_) :: ranges, dim :: shape, stride :: strides =>
      if (end_ <? start) || (as_u64 dim <? end_) then Err "slice: range out of bounds."%string
      else
        step ← arith_u64 oc (start * as_u64 stride);
        offset_elems ← arith_u64 oc (offset_elems + step);
        '(new_shape, offset_elems) ← slice_axes offset_elems ranges shape strides;
        Ok (as_i32 (end_ - start) :: new_shape, offset_elems)
  | _, _, _ => Panic
  end.

(** The slice of metadata that starts [offset] bytes into the storage. *)
Definition slice_meta (ptr offset : Z) (shape strides : list Z) (ranges : list (Z * Z))
    : outcome string (Z * list Z * SpecializationBits) :=
  if zlen shape <? zlen ranges then Err "slice: more ranges than axes."%string
  else
    '(new_shape, offset_elems) ← slice_axes 0 ranges shape strides;
    bytes ← arith_u64 oc (offset_elems * sz);
    offset ← arith_u64 oc (offset + bytes);
    ptr ← arith_u64 oc (ptr + offset);
    spec ← embed (compute_spec oc ptr new_shape strides);
    Ok (offset, new_shape, spec).

Definition slice (t : Tensor) (ranges : list (Z * Z)) : outcome string TensorView :=
  '(offset, shape, spec) ← slice_meta (spec_ptr (storage t)) 0 (t_shape t) (t_strides t) ranges;
  Ok (mkTensorView t offset shape (t_strides t) spec).

Definition view_view (v : TensorView) (shape : list Z) : outcome string TensorView :=
  _ ← validate_view_shape_for oc sz (v_shape v) (v_strides v) shape;
  '(shape, strides, spec) ← contiguous_meta (spec_ptr (storage (base v))) shape;
  Ok (mkTensorView (base v) (offset_bytes v) shape strides spec).

Definition view_slice (v : TensorView) (ranges : list (Z * Z)) : outcome string TensorView :=
  '(offset, shape, spec) ← slice_meta (spec_ptr (storage (base v))) (offset_bytes v) (v_shape v) (v_strides v) ranges;
  Ok (mkTensorView (base v) offset shape (v_strides v) spec).

(** The pointer a launch passes for a view (plan.rs, [TensorArg::device_ptr]). *)
Definition device_ptr {E} (v : TensorView) : outcome E Z :=
  ptr ← cu_deviceptr (storage (base v)); arith_u64 oc (ptr + offset_bytes v).
End tensor.

(** ** Partitions *)

Record Partition := mkPartition {
  object : Tensor; partition_shape : list Z; partition_strides : list Z; prefix_coverage : bool }.

(** [unique] is what [has_unique_storage] returned. *)
Definition partition {E} (unique : bool) (t : Tensor) (partition_shape : list Z) : outcome E Partition :=
  _ ← assert unique;
  Ok (mkPartition t partition_shape (as_u64 <$> t_strides t) false).

Definition prefix (p : Partition) : Partition :=
  mkPartition (object p) (partition_shape p) (partition_strides p) true.

Definition partition_prefix {E} (unique : bool) (t : Tensor) (partition_shape : list Z) : outcome E Partition :=
  p ← partition unique t partition_shape; Ok (prefix p).

(** [sole]: the [Arc] has one owner. *)
Definition partition_arc {E} (sole unique : bool) (t : Tensor) (partition_shape : list Z) : outcome E Partition :=
  _ ← assert sole; partition unique t partition_shape.

Definition try_partition (sole unique : bool) (t : Tensor) (partition_shape : list Z) : outcome string Partition :=
  if negb sole then Err "try_partition: Arc<Tensor> has multiple owners"%string
  else if negb unique then Err "try_partition: tensor storage is shared with other tensors or views"%string
  else partition unique t partition_shape.

Definition partition_grid (p : Partition) : outcome string Grid :=
  partition_launch_grid (t_shape (object p)) (partition_shape p).

Definition grid_bound (p : Partition) : outcome string GridBound :=
  grid ← partition_grid p; Ok (if prefix_coverage p then AtMost grid else Exact grid).

Definition strides_hint (p : Partition) : list Z :=
  (fun is_one : bool => if is_one then 1 else -1) <$> stride_one (t_spec (object p)).

(** *** Mapped partitions *)

Definition OWNED : Z := 0.

Record MappedLaunchPartition := mkMappedLaunchPartition {
  mp_partition : Partition; map_shape : list Z; num_tile_blocks : Z }.

Definition map_partition {E} (p : Partition) (map_shape : list Z) (num_tile_blocks : Z) : outcome E MappedLaunchPartition :=
  _ ← assert (negb (prefix_coverage p));
  Ok (mkMappedLaunchPartition p map_shape num_tile_blocks).

Definition checked_u32_product (l : list Z) : option Z :=
  foldl (fun acc axis => total ← acc; if total * axis <=? U32_MAX then Some (total * axis) else None) (Some 1) l.

(** The grid axes the stream traverses. *)
Definition streamed_axes (grid_axes map_shape : list Z) : list Z :=
  fst <$> filter (fun am => am.2 <> OWNED) (zip grid_axes map_shape).

Definition validate_mapped (map_shape : list Z) (grid : Grid) (num_tile_blocks : Z) : outcome string Grid :=
  let map_rank := length map_shape in
  let grid_axes := [grid.1.1; grid.1.2; grid.2] in
  if (map_rank =? 0)%nat || (3 <? map_rank)%nat
  then Err "mapped partitions require a rank-1 through rank-3 map shape."%string
  else if forallb (fun dim => dim =? OWNED) map_shape
  then Err "mapped partition requires at least one streamed (non-OWNED) map axis."%string
  else if existsb (fun axis => axis =? 0) (take map_rank grid_axes)
  then Err "mapped partition requires a non-empty logical partition grid."%string
  else if existsb (fun axis => negb (axis =? 1)) (drop map_rank grid_axes)
  then Err "mapped partition map rank must match the logical partition grid rank."%string
  else
    match checked_u32_product (streamed_axes grid_axes map_shape) with
    | None => Err "mapped partition logical grid is too large"%string
    | Some streamed_tiles =>
        if num_tile_blocks =? 0 then Err "mapped partition requires num_tile_blocks > 0."%string
        else if streamed_tiles <? num_tile_blocks
        then Err "mapped partition num_tile_blocks cannot exceed the streamed logical tile count."%string
        else Ok (num_tile_blocks, 1, 1)
    end.

Definition mapped_grid (p : MappedLaunchPartition) : outcome string Grid :=
  grid ← partition_grid (mp_partition p); validate_mapped (map_shape p) grid (num_tile_blocks p).

Definition mapped_grid_bound (p : MappedLaunchPartition) : outcome string GridBound :=
  grid ← mapped_grid p; Ok (Exact grid).

(** ** Row-major layouts *)

Definition count (shape : list Z) : Z := foldr Z.mul 1 shape.

Fixpoint row_major (shape : list Z) : list Z :=
  match shape with [] => [] | _ :: shape => count shape :: row_major shape end.

(** The offset of the last element, in elements. *)
Fixpoint extent (shape strides : list Z) : Z :=
  match shape, strides with
  | d :: shape, s :: strides => (d - 1) * s + extent shape strides
  | _, _ => 0
  end.

Lemma count_cons d shape : count (d :: shape) = d * count shape.
Proof. reflexivity. Qed.

Lemma count_app l1 l2 : count (l1 ++ l2) = count l1 * count l2.
Proof. induction l1 as [|d l1 IH]; cbn [app]; [unfold count; cbn; lia|]. rewrite !count_cons, IH. lia. Qed.

Lemma count_reverse l : count (reverse l) = count l.
Proof.
  induction l as [|d l IH]; [done|]. rewrite reverse_cons, count_app, IH, !count_cons.
  change (count []) with 1. lia.
Qed.

Lemma count_pos shape : Forall (fun d => 0 < d) shape -> 0 < count shape.
Proof. induction 1; [done|]. rewrite count_cons. nia. Qed.

Lemma count_pos_inv shape : Forall (fun d => 0 <= d) shape -> 0 < count shape -> Forall (fun d => 0 < d) shape.
Proof.
  induction 1 as [|d shape Hd Hs IH]; [constructor|]. rewrite count_cons. intros H.
  assert (0 <= count shape) by (clear -Hs; induction Hs; [done|]; rewrite count_cons; nia).
  constructor; [nia|apply IH; nia].
Qed.

Lemma row_major_extent shape : Forall (fun d => 0 < d) shape -> extent shape (row_major shape) = count shape - 1.
Proof. induction 1 as [|d shape Hd Hs IH]; [done|]. cbn [extent row_major]. rewrite IH, count_cons. lia. Qed.

Lemma row_major_length shape : length (row_major shape) = length shape.
Proof. induction shape as [|d shape IH]; [done|]. cbn. by rewrite IH. Qed.

Lemma row_major_nonneg shape : Forall (fun d => 0 < d) shape -> Forall (fun s => 0 <= s) (row_major shape).
Proof. induction 1 as [|d shape Hd Hs IH]; [constructor|]. constructor; [apply count_pos in Hs; lia|done]. Qed.

Lemma row_major_snoc shape d : row_major (shape ++ [d]) = ((fun s => s * d) <$> row_major shape) ++ [1].
Proof.
  induction shape as [|x shape IH]; [done|]. cbn [app row_major fmap list_fmap]. rewrite IH, count_app. f_equal.
  change (count [d]) with (d * 1). lia.
Qed.

(** With overflow checks the stride loop computes the exact products. *)
Lemma strides_loop_exact {E} k shape r : strides_loop (E:=E) true k shape = Ok r ->
  reverse r = (fun s => s * k) <$> row_major (reverse shape).
Proof.
  revert k r. induction shape as [|d shape IH]; intros k r H; [injection H as <-; done|].
  cbn [strides_loop] in H. destruct (mul_i32 true k d) as [e| |] eqn:Em; try done.
  apply mul_i32_checked in Em as ->. cbn [embed] in H. apply bind_Ok in H as (x & Hx & H).
  apply bind_Ok in H as (strides & Hs & H). injection H as <-. injection Hx as <-.
  rewrite !reverse_cons, row_major_snoc, fmap_app, (IH _ _ Hs). f_equal; [|cbn; f_equal; lia].
  rewrite <- list_fmap_compose. apply list_fmap_ext. intros i s _. cbn. lia.
Qed.

Lemma contiguous_strides_exact {E} shape strides : contiguous_strides (E:=E) true shape = Ok strides ->
  strides = row_major shape.
Proof.
  unfold contiguous_strides. intros (r & Hr & H)%bind_Ok. injection H as <-.
  apply strides_loop_exact in Hr. rewrite Hr, reverse_involutive.
  etransitivity; [|apply list_fmap_id]. apply list_fmap_ext. intros i s _. cbn. lia.
Qed.

Lemma checked_u64_Some z n : checked_u64 z = Some n -> n = z /\ in_u64 z.
Proof. unfold checked_u64. case_bool_decide; naive_solver. Qed.

Lemma checked_product_exact acc shape n : checked_product acc shape = Ok n -> n = acc * count shape.
Proof.
  revert acc. induction shape as [|d shape IH]; intros acc H; [injection H as <-; change (count []) with 1; lia|].
  cbn [checked_product] in H. destruct (checked_u64 (acc * d)) as [a|] eqn:E; [|done].
  apply checked_u64_Some in E as [-> _]. rewrite (IH _ H), count_cons. lia.
Qed.

Lemma checked_product_i32_exact acc shape n : checked_product_i32 acc shape = Ok n ->
  n = acc * count shape /\ Forall (fun d => 0 <= d) shape.
Proof.
  revert acc. induction shape as [|d shape IH]; intros acc H; [injection H as <-; split; [change (count []) with 1; lia|constructor]|].
  cbn [checked_product_i32] in H. destruct (Z.ltb_spec d 0); [done|].
  destruct (checked_u64 (acc * d)) as [a|] eqn:E; [|done].
  apply checked_u64_Some in E as [-> _]. destruct (IH _ H) as [-> Hd]. rewrite count_cons. split; [lia|by constructor].
Qed.

Lemma checked_num_bytes_exact sz shape n : checked_num_bytes sz shape = Ok n -> n = count shape * sz.
Proof.
  unfold checked_num_bytes. intros (k & Hk & H)%bind_Ok. apply checked_product_exact in Hk as ->.
  destruct (checked_u64 _) as [b|] eqn:E; [|done]. apply checked_u64_Some in E as [-> _]. injection H as <-. lia.
Qed.

Lemma checked_num_bytes_i32_exact sz shape n : checked_num_bytes_i32 sz shape = Ok n ->
  n = count shape * sz /\ Forall (fun d => 0 <= d) shape.
Proof.
  unfold checked_num_bytes_i32. intros (k & Hk & H)%bind_Ok. apply checked_product_i32_exact in Hk as [-> Hd].
  destruct (checked_u64 _) as [b|] eqn:E; [|done]. apply checked_u64_Some in E as [-> _]. injection H as <-. split; [lia|done].
Qed.

(** ** Elements stay inside *)

(** The coordinates a shape allows. *)
Definition in_shape (shape idx : list Z) : Prop := Forall2 (fun i d => 0 <= i < d) idx shape.

Lemma offset_cons s strides i idx : offset (s :: strides) (i :: idx) = s * i + offset strides idx.
Proof. reflexivity. Qed.

Lemma offset_extent shape strides idx : length strides = length shape -> Forall (fun s => 0 <= s) strides ->
  in_shape shape idx -> 0 <= offset strides idx <= extent shape strides.
Proof.
  intros Hl Hs H. revert strides Hl Hs. induction H as [|i d idx shape Hi Hidx IH]; intros [|s strides] Hl Hs; try done.
  apply Forall_cons in Hs as [Hs0 Hs]. injection Hl as Hl. rewrite offset_cons. cbn [extent].
  specialize (IH strides Hl Hs). nia.
Qed.

Lemma in_shape_pos shape idx : in_shape shape idx -> Forall (fun d => 0 < d) shape.
Proof. induction 1; constructor; [lia|done]. Qed.

(** Metadata whose elements lie within the first [avail] bytes of the storage,
    as far as it has elements. *)
Record layout_ok (avail sz off : Z) (shape strides : list Z) : Prop := {
  lo_rank : length strides = length shape;
  lo_shape : Forall (fun d => 0 <= d /\ in_i32 d) shape;
  lo_inside : Forall (fun d => 0 < d) shape ->
    0 <= off /\ Forall (fun s => 0 <= s /\ in_u64 s) strides /\ off + (extent shape strides + 1) * sz <= avail;
}.

Lemma layout_ok_inside avail sz off shape strides idx : 0 < sz -> layout_ok avail sz off shape strides -> in_shape shape idx ->
  0 <= off + offset strides idx * sz /\ off + (offset strides idx + 1) * sz <= avail.
Proof.
  intros Hsz [Hr _ Hin] Hidx. destruct (Hin (in_shape_pos _ _ Hidx)) as (Ho & Hs & Hle).
  assert (Hs0 : Forall (fun s => 0 <= s) strides) by (eapply Forall_impl; [exact Hs|]; cbn; tauto).
  pose proof (offset_extent shape strides idx Hr Hs0 Hidx). nia.
Qed.

Lemma extent_nonneg shape strides : Forall (fun d => 0 < d) shape -> Forall (fun s => 0 <= s) strides -> 0 <= extent shape strides.
Proof.
  intros H. revert strides. induction H as [|d shape Hd Hs IH]; intros [|s strides] Hn; try done.
  apply Forall_cons in Hn as [Hs0 Hn]. cbn [extent]. specialize (IH _ Hn). nia.
Qed.

Lemma arith_u64_exact {E} oc z r : 0 <= z <= U64_MAX -> arith_u64 (E:=E) oc z = Ok r -> r = z.
Proof. intros H. unfold arith_u64. rewrite bool_decide_true by (unfold_int; lia). by intros [= <-]. Qed.

(** Slicing: nonempty results come from nonempty axes. *)
Lemma slice_axes_pos oc off ranges shape strides shape' off' :
  slice_axes oc off ranges shape strides = Ok (shape', off') ->
  Forall (fun d => 0 <= d /\ in_i32 d) shape -> Forall (fun r => 0 <= r.1) ranges ->
  length shape' = length shape /\ Forall (fun d => 0 <= d /\ in_i32 d) shape' /\
  (Forall (fun d => 0 < d) shape' -> Forall (fun d => 0 < d) shape).
Proof.
  revert off shape strides shape' off'. induction ranges as [|[start end_] ranges IH]; intros off shape strides shape' off' H Hd Hr.
  { destruct shape, strides; injection H as <- <-; done. }
  cbn [slice_axes] in H. destruct shape as [|d shape]; [done|]. destruct strides as [|s strides]; [done|].
  apply Forall_cons in Hd as [[Hd0 Hdi] Hd]. apply Forall_cons in Hr as [Hr0 Hr]. cbn [fst] in Hr0.
  assert (as_u64 d = d) as Ed by (apply as_u64_id; unfold_int; lia). rewrite Ed in H.
  destruct (Z.ltb_spec end_ start); [done|]. destruct (Z.ltb_spec d end_); [done|]. cbn [orb] in H.
  apply bind_Ok in H as (st & _ & H). apply bind_Ok in H as (o & _ & H). apply bind_Ok in H as ([ns oe] & Hrec & H).
  injection H as <- <-. destruct (IH _ _ _ _ _ Hrec Hd Hr) as (Hl & Hd' & Hp).
  assert (as_i32 (end_ - start) = end_ - start) as -> by (apply as_i32_id; unfold_int; lia).
  split_and!; [cbn; by rewrite Hl|constructor; [unfold_int; lia|done]|].
  intros [Hn1 Hn2]%Forall_cons. constructor; [lia|by apply Hp].
Qed.

(** ... and stay within the extent, without wrapping. *)
Lemma slice_axes_extent oc off ranges shape strides shape' off' :
  slice_axes oc off ranges shape strides = Ok (shape', off') ->
  Forall (fun d => 0 <= d /\ in_i32 d) shape -> Forall (fun r => 0 <= r.1) ranges ->
  Forall (fun d => 0 < d) shape' -> Forall (fun s => 0 <= s /\ in_u64 s) strides ->
  0 <= off -> off + extent shape strides <= U64_MAX ->
  off <= off' /\ off' + extent shape' strides <= off + extent shape strides.
Proof.
  revert off shape strides shape' off'. induction ranges as [|[start end_] ranges IH];
    intros off shape strides shape' off' H Hd Hr Hp Hs Ho Hm.
  { destruct shape, strides; injection H as <- <-; lia. }
  pose proof (slice_axes_pos oc off ((start, end_) :: ranges) shape strides shape' off' H Hd Hr) as (_ & _ & Hpos).
  specialize (Hpos Hp).
  cbn [slice_axes] in H. destruct shape as [|d shape]; [done|]. destruct strides as [|s strides]; [done|].
  apply Forall_cons in Hd as [[Hd0 Hdi] Hd]. apply Forall_cons in Hr as [Hr0 Hr]. cbn [fst] in Hr0.
  apply Forall_cons in Hs as [[Hs0 Hsi] Hs]. apply Forall_cons in Hpos as [Hd1 Hpos].
  assert (as_u64 d = d) as Ed by (apply as_u64_id; unfold_int; lia). rewrite Ed in H.
  assert (as_u64 s = s) as Es by (apply as_u64_id; unfold_int; lia). rewrite Es in H.
  destruct (Z.ltb_spec end_ start); [done|]. destruct (Z.ltb_spec d end_); [done|]. cbn [orb] in H.
  apply bind_Ok in H as (st & Hst & H). apply bind_Ok in H as (o & Hof & H). apply bind_Ok in H as ([ns oe] & Hrec & H).
  injection H as <- <-. apply Forall_cons in Hp as [Hp0 Hp]. cbn [extent] in Hm |- *.
  assert (as_i32 (end_ - start) = end_ - start) as Ei by (apply as_i32_id; unfold_int; lia). rewrite Ei in *.
  assert (Hs0' : Forall (fun s => 0 <= s) strides) by (eapply Forall_impl; [exact Hs|]; cbn; tauto).
  pose proof (extent_nonneg shape strides Hpos Hs0') as Hen.
  apply arith_u64_exact in Hst; [|split; nia]. subst st.
  apply arith_u64_exact in Hof; [|split; nia]. subst o.
  destruct (IH _ _ _ _ _ Hrec Hd Hr Hp Hs) as [Hn1 Hn2]; nia.
Qed.

Lemma slice_meta_ok oc sz ptr off shape strides ranges off' shape' spec avail :
  slice_meta oc sz ptr off shape strides ranges = Ok (off', shape', spec) ->
  0 < sz -> avail <= U64_MAX -> Forall (fun r => 0 <= r.1) ranges ->
  layout_ok avail sz off shape strides -> layout_ok avail sz off' shape' strides.
Proof.
  unfold slice_meta. intros H Hsz Hav Hr [Hrank Hd Hin]. destruct (_ <? _); [done|].
  apply bind_Ok in H as ([ns oe] & Hax & H). apply bind_Ok in H as (bytes & Hb & H). apply bind_Ok in H as (o & Ho & H).
  apply bind_Ok in H as (p & _ & H). apply bind_Ok in H as (sp & _ & H). injection H as <- <- <-.
  destruct (slice_axes_pos _ _ _ _ _ _ _ Hax Hd Hr) as (Hlen & Hd' & Hpos). split; [lia|done|]. intros Hp.
  destruct (Hin (Hpos Hp)) as (Hoff & Hs & Hle).
  assert (Hs0 : Forall (fun s => 0 <= s) strides) by (eapply Forall_impl; [exact Hs|]; cbn; tauto).
  pose proof (extent_nonneg _ _ (Hpos Hp) Hs0). pose proof (extent_nonneg _ _ Hp Hs0).
  assert (extent shape strides + 1 <= (extent shape strides + 1) * sz) by nia.
  destruct (slice_axes_extent _ _ _ _ _ _ _ Hax Hd Hr Hp Hs) as [Hge Hext]; [lia|lia|].
  assert (Hmul : (oe + (extent ns strides + 1)) * sz <= (extent shape strides + 1) * sz) by (apply Z.mul_le_mono_nonneg_r; lia).
  assert (0 <= oe * sz /\ 0 <= (extent ns strides + 1) * sz) as [Hb0 He0] by (split; apply Z.mul_nonneg_nonneg; lia).
  rewrite Z.mul_add_distr_r in Hmul.
  apply arith_u64_exact in Hb; [|split; lia]. subst bytes. apply arith_u64_exact in Ho; [|split; lia]. subst o.
  split_and!; [lia|done|lia].
Qed.

Lemma row_major_le shape : Forall (fun d => 0 < d) shape -> Forall (fun s => 0 <= s <= count shape) (row_major shape).
Proof.
  induction 1 as [|d shape Hd Hs IH]; [constructor|]. pose proof (count_pos _ Hs). cbn [row_major].
  rewrite count_cons. constructor; [nia|]. eapply Forall_impl; [exact IH|]. cbn beta. intros s H'. nia.
Qed.

Lemma as_i32_dims target : Forall (fun d => 0 <= d <= I32_MAX) target -> as_i32 <$> target = target.
Proof.
  intros H. etransitivity; [|apply list_fmap_id]. apply Forall_fmap_ext_1. eapply Forall_impl; [exact H|].
  cbn beta. intros d Hd. apply as_i32_id. unfold id. unfold_int. lia.
Qed.

(** A row-major layout of as many elements lies where the old one did. *)
Lemma contiguous_meta_ok sz ptr off shape strides target shape' strides' spec avail :
  validate_view_shape_for true sz shape strides target = Ok tt ->
  contiguous_meta (E:=string) true ptr target = Ok (shape', strides', spec) ->
  0 < sz -> avail <= U64_MAX -> Forall (fun d => 0 <= d <= I32_MAX) target ->
  layout_ok avail sz off shape strides -> layout_ok avail sz off shape' strides'.
Proof.
  intros Hval Hmeta Hsz Hav Ht [Hrank Hd Hin]. unfold validate_view_shape_for in Hval.
  apply bind_Ok in Hval as (c & Hc & Hval). apply contiguous_strides_exact in Hc as ->.
  destruct (decide (strides = row_major shape)) as [->|]; [|by rewrite bool_decide_false in Hval].
  rewrite bool_decide_true in Hval by done. cbn [negb] in Hval.
  apply bind_Ok in Hval as (tb & Htb & Hval). apply bind_Ok in Hval as (cb & Hcb & Hval).
  apply checked_num_bytes_exact in Htb as ->. apply checked_num_bytes_i32_exact in Hcb as [-> Hdn].
  destruct (Z.eqb_spec (count target * sz) (count shape * sz)) as [Heq|]; [|done].
  assert (Hcount : count target = count shape) by nia.
  unfold contiguous_meta in Hmeta. rewrite as_i32_dims in Hmeta by done.
  apply bind_Ok in Hmeta as (ns & Hns & Hmeta). apply contiguous_strides_exact in Hns as ->.
  apply bind_Ok in Hmeta as (sp & _ & Hmeta). injection Hmeta as <- <- <-.
  split; [apply row_major_length| |].
  - eapply Forall_impl; [exact Ht|]. cbn beta. intros d Hd'. unfold_int. lia.
  - intros Hp. pose proof (count_pos _ Hp) as Hcp. rewrite Hcount in Hcp.
    pose proof (count_pos_inv _ Hdn Hcp) as Hsp. destruct (Hin Hsp) as (Hoff & _ & Hle).
    rewrite row_major_extent in Hle |- * by done. rewrite Hcount. split_and!; [done| |nia].
    eapply Forall_impl; [exact (row_major_le _ Hp)|]. cbn beta. rewrite Hcount. intros s Hs. unfold_int. nia.
Qed.

Lemma max_offset_exact {E} acc shape strides n : max_offset_loop (E:=E) acc shape strides = Ok n ->
  length strides = length shape -> n = acc + extent shape strides /\ Forall (fun s => 0 <= s) strides.
Proof.
  revert acc strides. induction shape as [|d shape IH]; intros acc [|s strides] H Hl; try done.
  { injection H as <-. cbn. split; [lia|constructor]. }
  cbn [max_offset_loop] in H. unfold assert in H. destruct (Z.leb_spec 0 s); [|done].
  apply bind_Ok in H as ([] & _ & H). apply bind_Ok in H as (o & Ho & H). apply bind_Ok in H as (a & Ha & H).
  destruct (checked_u64 ((d - 1) * s)) as [x|] eqn:E1; [|done]. injection Ho as <-. apply checked_u64_Some in E1 as [-> _].
  destruct (checked_u64 (acc + _)) as [y|] eqn:E2; [|done]. injection Ha as <-. apply checked_u64_Some in E2 as [-> _].
  injection Hl as Hl. destruct (IH _ _ H Hl) as [-> Hs]. cbn [extent]. split; [lia|by constructor].
Qed.

Lemma expect_ok_Ok {E E' A} (o : outcome E A) a : expect_ok (E':=E') o = Ok a -> o = Ok a.
Proof. destruct o; cbn; naive_solver. Qed.

Lemma assert_Ok {E} b u : assert (E:=E) b = Ok u -> b = true.
Proof. by destruct b. Qed.

(** A foreign allocation covers every element of its tensor. *)
Lemma from_foreign_ok {E} oc sz ptr len dev shape strides t :
  from_foreign (E:=E) oc sz ptr len dev shape strides = Ok t ->
  0 < sz -> Forall in_i32 shape -> Forall in_i32 strides ->
  t_shape t = shape /\ t_strides t = strides /\ spec_ptr (storage t) = ptr /\ layout_ok len sz 0 shape strides.
Proof.
  unfold from_foreign, from_device_buffer. intros H Hsz Hi Hs.
  apply bind_Ok in H as (lb & Hlb & H). apply expect_ok_Ok, checked_num_bytes_i32_exact in Hlb as [-> Hdn].
  apply bind_Ok in H as (ext & Hext & H). apply bind_Ok in H as (u & Ha & H). apply assert_Ok, Z.leb_le in Ha.
  apply bind_Ok in H as (u' & _ & H). cbn [cu_deviceptr] in H. apply bind_Ok in H as (p & Hp & H).
  injection Hp as <-. apply bind_Ok in H as (spec & _ & H). injection H as <-. cbn [t_shape t_strides storage spec_ptr].
  split_and!; [done..|]. unfold addressable_bytes in Hext. apply bind_Ok in Hext as (u2 & Hl & Hext).
  apply assert_Ok, Z.eqb_eq in Hl. unfold zlen in Hl. assert (Hrank : length strides = length shape) by lia.
  split; [done| |].
  - apply Forall_and. split; [exact Hdn|exact Hi].
  - intros Hpos. destruct (existsb _ shape) eqn:Ex.
    { exfalso. apply existsb_exists in Ex as (d & Hd & Hle%Z.leb_le). rewrite Forall_forall in Hpos.
      specialize (Hpos d (proj2 (list_elem_of_In _ _) Hd)). lia. }
    apply bind_Ok in Hext as (m & Hm & Hext). apply max_offset_exact in Hm as [-> Hs0]; [|done].
    apply bind_Ok in Hext as (e & He & Hext).
    destruct (checked_u64 (0 + _ + 1)) as [x|] eqn:E1; [|done]. injection He as <-. apply checked_u64_Some in E1 as [-> _].
    destruct (checked_u64 _) as [y|] eqn:E2; [|done]. injection Hext as <-. apply checked_u64_Some in E2 as [-> _].
    split_and!; [lia| |lia]. eapply Forall_impl; [apply Forall_and; split; [exact Hs0|exact Hs]|].
    cbn beta. intros s [H1 H2]. unfold_int. lia.
Qed.

(** ** Chains of views *)

Inductive ViewOp := OpView (shape : list Z) | OpSlice (ranges : list (Z * Z)).

Definition first_op (oc : bool) (sz : Z) (t : Tensor) (op : ViewOp) : outcome string TensorView :=
  match op with OpView shape => view oc sz t shape | OpSlice ranges => slice oc sz t ranges end.

Definition next_op (oc : bool) (sz : Z) (v : TensorView) (op : ViewOp) : outcome string TensorView :=
  match op with OpView shape => view_view oc sz v shape | OpSlice ranges => view_slice oc sz v ranges end.

Fixpoint derive_more (oc : bool) (sz : Z) (v : TensorView) (ops : list ViewOp) : outcome string TensorView :=
  match ops with
  | [] => Ok v
  | op :: ops => v ← next_op oc sz v op; derive_more oc sz v ops
  end.

Definition derive (oc : bool) (sz : Z) (t : Tensor) (op : ViewOp) (ops : list ViewOp) : outcome string TensorView :=
  v ← first_op oc sz t op; derive_more oc sz v ops.

(** Arguments as the caller can pass them, with dimensions an [i32] holds. *)
Definition op_ok (op : ViewOp) : Prop :=
  match op with
  | OpView shape => Forall (fun d => 0 <= d <= I32_MAX) shape
  | OpSlice ranges => Forall (fun r => 0 <= r.1) ranges
  end.

Definition view_ok (avail sz : Z) (v : TensorView) : Prop := layout_ok avail sz (offset_bytes v) (v_shape v) (v_strides v).

Lemma first_op_ok sz t op v avail : first_op true sz t op = Ok v -> 0 < sz -> avail <= U64_MAX -> op_ok op ->
  layout_ok avail sz 0 (t_shape t) (t_strides t) -> view_ok avail sz v.
Proof.
  intros H Hsz Hav Hop Hl. destruct op as [shape|ranges]; cbn [first_op op_ok] in *.
  - unfold view in H. apply bind_Ok in H as ([] & Hv & H). apply bind_Ok in H as ([[s' st'] sp] & Hm & H).
    injection H as <-. unfold view_ok. cbn [offset_bytes v_shape v_strides]. by eapply contiguous_meta_ok.
  - unfold slice in H. apply bind_Ok in H as ([[o s'] sp] & Hm & H). injection H as <-.
    unfold view_ok. cbn [offset_bytes v_shape v_strides]. by eapply slice_meta_ok.
Qed.

Lemma next_op_ok sz v op v' avail : next_op true sz v op = Ok v' -> 0 < sz -> avail <= U64_MAX -> op_ok op ->
  view_ok avail sz v -> view_ok avail sz v'.
Proof.
  intros H Hsz Hav Hop Hl. destruct op as [shape|ranges]; cbn [next_op op_ok] in *.
  - unfold view_view in H. apply bind_Ok in H as ([] & Hv & H). apply bind_Ok in H as ([[s' st'] sp] & Hm & H).
    injection H as <-. unfold view_ok. cbn [offset_bytes v_shape v_strides]. by eapply contiguous_meta_ok.
  - unfold view_slice in H. apply bind_Ok in H as ([[o s'] sp] & Hm & H). injection H as <-.
    unfold view_ok. cbn [offset_bytes v_shape v_strides]. by eapply slice_meta_ok.
Qed.

Lemma derive_more_ok sz v ops v' avail : derive_more true sz v ops = Ok v' -> 0 < sz -> avail <= U64_MAX -> Forall op_ok ops ->
  view_ok avail sz v -> view_ok avail sz v'.
Proof.
  intros H Hsz Hav Hops. revert v H. induction Hops as [|op ops Hop Hops IH]; intros v H Hv; [by injection H as <-|].
  cbn [derive_more] in H. apply bind_Ok in H as (v1 & H1 & H). apply (IH v1 H). by eapply next_op_ok.
Qed.

(** ** Theorems *)

(** C17: No chain of views and slices reaches outside the allocation. A tensor
    over a foreign allocation is accepted only if the allocation covers its
    strided extent; whatever reshaping views and slices are then taken one from
    another, in a build with overflow checks, every element of the last view
    lies inside the owner's allocation: its offset is not negative and its last
    byte is within the owner's length. *)
Theorem derived_views_in_bounds sz ptr owner_len dev shape strides t op ops v idx
    (Hsz : 0 < sz) (Hlen : in_u64 owner_len) (Hshape : Forall in_i32 shape) (Hstrides : Forall in_i32 strides)
    (Hops : Forall op_ok (op :: ops))
    (Ht : from_foreign (E:=string) true sz ptr owner_len dev shape strides = Ok t)
    (Hv : derive true sz t op ops = Ok v) (Hidx : in_shape (v_shape v) idx) :
  0 <= offset_bytes v + offset (v_strides v) idx * sz /\
  offset_bytes v + (offset (v_strides v) idx + 1) * sz <= owner_len.
Proof.
  apply from_foreign_ok in Ht as (Es & Est & _ & Hl); [|done..]. rewrite <- Es, <- Est in Hl.
  unfold derive in Hv. apply bind_Ok in Hv as (v1 & H1 & Hv). apply Forall_cons in Hops as [Hop Hops].
  apply (layout_ok_inside owner_len sz _ (v_shape v)); [done| |done].
  assert (owner_len <= U64_MAX) by (unfold_int; lia).
  eapply derive_more_ok; [exact Hv|done..|]. by eapply first_op_ok.
Qed.

Definition no_tensor : Tensor := mkTensor (Meta 0 0) [] [] (mkSpecializationBits [] [] [] div_hint_default true).

Definition example_tensor : Tensor := Eval vm_compute in
  match from_foreign (E:=string) true 4 4096 128 0 [8; 4] [4; 1] with Ok t => t | _ => no_tensor end.

Definition example_ops : list ViewOp := [OpView [3; 8]; OpSlice [(1, 3); (4, 8)]].

Definition example_tensor_view : TensorView := Eval vm_compute in
  match derive true 4 example_tensor (OpSlice [(1, 7)]) example_ops with
  | Ok v => v
  | _ => mkTensorView no_tensor 0 [] [] (t_spec no_tensor)
  end.

Lemma derived_views_in_bounds_witness :
  from_foreign (E:=string) true 4 4096 128 0 [8; 4] [4; 1] = Ok example_tensor /\
  derive true 4 example_tensor (OpSlice [(1, 7)]) example_ops = Ok example_tensor_view /\
  offset_bytes example_tensor_view + (offset (v_strides example_tensor_view) [1; 3] + 1) * 4 <= 128.
Proof.
  assert (Ht : from_foreign (E:=string) true 4 4096 128 0 [8; 4] [4; 1] = Ok example_tensor) by (vm_compute; reflexivity).
  assert (Hv : derive true 4 example_tensor (OpSlice [(1, 7)]) example_ops = Ok example_tensor_view) by (vm_compute; reflexivity).
  split; [exact Ht|]. split; [exact Hv|].
  refine (proj2 (derived_views_in_bounds 4 4096 128 0 [8; 4] [4; 1] example_tensor (OpSlice [(1, 7)])
    example_ops example_tensor_view [1; 3] _ _ _ _ _ Ht Hv _)); [lia|unfold_int; lia|..];
    repeat constructor; unfold_int; cbn; lia.
Defined.

(** *** Alignment hints of views *)

(** The recorded pointer alignment is that of the pointer a launch passes. *)
Definition ptr_hint_exact (oc : bool) (v : TensorView) : Prop :=
  forall q, device_ptr (E:=string) oc v = Ok q -> dh_divisor (base_ptr_div (v_spec v)) = Z.gcd q 16.

Lemma compute_spec_ptr oc ptr shape strides spec : compute_spec oc ptr shape strides = Ok spec ->
  dh_divisor (base_ptr_div spec) = Z.gcd ptr 16.
Proof. intros H. apply compute_spec_inv in H as (_ & rest & _ & ->). apply from_ptr_gcd. Qed.

Lemma embed_Ok {E A} (o : outcome Empty_set A) a : embed (E:=E) o = Ok a -> o = Ok a.
Proof. destruct o as [x|[]|]; cbn; naive_solver. Qed.

Lemma device_ptr_spec oc v q p : cu_deviceptr (E:=string) (storage (base v)) = Ok p -> device_ptr (E:=string) oc v = Ok q ->
  spec_ptr (storage (base v)) = p /\ arith_u64 (E:=string) oc (p + offset_bytes v) = Ok q.
Proof.
  unfold device_ptr. intros Hp H. rewrite Hp in H. destruct (storage (base v)); cbn in *; naive_solver.
Qed.

Lemma slice_meta_ptr oc sz ptr off shape strides ranges off' shape' spec :
  slice_meta oc sz ptr off shape strides ranges = Ok (off', shape', spec) ->
  exists q, arith_u64 (E:=string) oc (ptr + off') = Ok q /\ dh_divisor (base_ptr_div spec) = Z.gcd q 16.
Proof.
  unfold slice_meta. intros H. destruct (_ <? _); [done|].
  apply bind_Ok in H as ([ns oe] & _ & H). apply bind_Ok in H as (bytes & _ & H). apply bind_Ok in H as (o & _ & H).
  apply bind_Ok in H as (p & Hp & H). apply bind_Ok in H as (sp & Hs & H). injection H as <- <- <-.
  exists p. split; [done|]. by eapply compute_spec_ptr, embed_Ok.
Qed.

Lemma sliced_hint oc v p off' shape' strides' spec :
  cu_deviceptr (E:=string) (storage (base v)) = Ok p ->
  v = mkTensorView (base v) off' shape' strides' spec ->
  (exists q, arith_u64 (E:=string) oc (spec_ptr (storage (base v)) + off') = Ok q /\
             dh_divisor (base_ptr_div spec) = Z.gcd q 16) -> ptr_hint_exact oc v.
Proof.
  intros Hp Ev (q & Hq & Hg) q' Hq'. destruct (device_ptr_spec oc v q' p Hp Hq') as [Es Ha].
  rewrite Ev in Ha |- *. cbn [offset_bytes v_spec] in *. rewrite Es in Hq. congruence.
Qed.

Lemma contiguous_meta_ptr {E} oc ptr shape s st spec : contiguous_meta (E:=E) oc ptr shape = Ok (s, st, spec) ->
  dh_divisor (base_ptr_div spec) = Z.gcd ptr 16.
Proof.
  unfold contiguous_meta. intros H. apply bind_Ok in H as (ns & _ & H). apply bind_Ok in H as (sp & Hs & H).
  injection H as <- <- <-. by eapply compute_spec_ptr, embed_Ok.
Qed.

(** Adding a multiple of 16 keeps the alignment up to 16. *)
Lemma gcd_16_add p off : (16 | off) -> Z.gcd (p + off) 16 = Z.gcd p 16.
Proof. intros [k ->]. rewrite (Z.gcd_comm (p + _)), Z.gcd_add_mult_diag_r. apply Z.gcd_comm. Qed.

Lemma viewed_hint oc v p : cu_deviceptr (E:=string) (storage (base v)) = Ok p ->
  dh_divisor (base_ptr_div (v_spec v)) = Z.gcd (spec_ptr (storage (base v))) 16 ->
  (16 | offset_bytes v) -> ptr_hint_exact oc v.
Proof.
  intros Hp Hg Hd q Hq. destruct (device_ptr_spec oc v q p Hp Hq) as [Es Ha]. rewrite Hg, Es.
  unfold arith_u64 in Ha. case_bool_decide; [injection Ha as <-; by rewrite gcd_16_add|].
  destruct oc; [done|]. injection Ha as <-. unfold as_u64.
  assert (Hm : forall z, Z.gcd (z mod 2 ^ 64) 16 = Z.gcd z 16).
  { intros z. rewrite (gcd_16 (z mod 2 ^ 64)), (gcd_16 z). f_equal.
    apply Z.mod_mod_divide. by exists (2 ^ 60). }
  rewrite Hm. by rewrite gcd_16_add.
Qed.

Lemma first_op_base oc sz t op v : first_op oc sz t op = Ok v -> base v = t.
Proof.
  destruct op as [shape|ranges]; cbn [first_op]; unfold view, slice; intros H.
  - apply bind_Ok in H as ([] & _ & H). apply bind_Ok in H as ([[s st] sp] & _ & H). by injection H as <-.
  - apply bind_Ok in H as ([[o s] sp] & _ & H). by injection H as <-.
Qed.

Lemma next_op_base oc sz v op v' : next_op oc sz v op = Ok v' -> base v' = base v.
Proof.
  destruct op as [shape|ranges]; cbn [next_op]; unfold view_view, view_slice; intros H.
  - apply bind_Ok in H as ([] & _ & H). apply bind_Ok in H as ([[s st] sp] & _ & H). by injection H as <-.
  - apply bind_Ok in H as ([[o s] sp] & _ & H). by injection H as <-.
Qed.

Definition is_slice (op : ViewOp) : bool := match op with OpSlice _ => true | OpView _ => false end.

(** One step: exact after a slice, and after a view at an aligned offset. *)
Lemma first_op_hint oc sz t op v p : first_op oc sz t op = Ok v -> cu_deviceptr (E:=string) (storage t) = Ok p ->
  ptr_hint_exact oc v.
Proof.
  intros H Hp. pose proof (first_op_base _ _ _ _ _ H) as Hb. rewrite <- Hb in Hp.
  destruct op as [shape|ranges]; cbn [first_op] in H; unfold view, slice in H.
  - apply bind_Ok in H as ([] & _ & H). apply bind_Ok in H as ([[s st] sp] & Hm & H). injection H as <-.
    apply (viewed_hint oc _ p Hp); [by eapply contiguous_meta_ptr|by exists 0].
  - apply bind_Ok in H as ([[o s] sp] & Hm & H). injection H as <-.
    eapply (sliced_hint oc _ p); [exact Hp|reflexivity|]. by eapply slice_meta_ptr.
Qed.

Lemma next_op_hint oc sz v op v' p : next_op oc sz v op = Ok v' -> cu_deviceptr (E:=string) (storage (base v)) = Ok p ->
  is_slice op = true \/ (16 | offset_bytes v') -> ptr_hint_exact oc v'.
Proof.
  intros H Hp Hor. pose proof (next_op_base _ _ _ _ _ H) as Hb. rewrite <- Hb in Hp.
  destruct op as [shape|ranges]; cbn [next_op] in H; unfold view_view, view_slice in H.
  - apply bind_Ok in H as ([] & _ & H). apply bind_Ok in H as ([[s st] sp] & Hm & H). injection H as <-.
    destruct Hor as [?|Hd]; [done|]. apply (viewed_hint oc _ p Hp); [by eapply contiguous_meta_ptr|done].
  - apply bind_Ok in H as ([[o s] sp] & Hm & H). injection H as <-.
    eapply (sliced_hint oc _ p); [exact Hp|reflexivity|]. by eapply slice_meta_ptr.
Qed.

Lemma derive_more_base oc sz v ops v' : derive_more oc sz v ops = Ok v' -> base v' = base v.
Proof.
  revert v. induction ops as [|op ops IH]; intros v H; [by injection H as <-|].
  cbn [derive_more] in H. apply bind_Ok in H as (v1 & H1 & H). rewrite (IH _ H). by eapply next_op_base.
Qed.

Lemma derive_more_snoc oc sz v ops op : derive_more oc sz v (ops ++ [op]) = (v ← derive_more oc sz v ops; next_op oc sz v op).
Proof.
  revert v. induction ops as [|o ops IH]; intros v; cbn [app derive_more mbind outcome_bind].
  - destruct (next_op oc sz v op); done.
  - destruct (next_op oc sz v o); cbn [mbind outcome_bind]; [apply IH|done..].
Qed.

(** The alignment a view records is that of the pointer the kernel gets.
    For a chain of views and slices that is a single step, ends in a slice, or
    ends at an offset that is a multiple of 16 bytes, the pointer hint of the
    last view, from which the compiler assumes divisibility, is the greatest
    common divisor with 16 of the device pointer that a launch passes for it,
    with or without overflow checks. *)
Lemma view_alignment_exact oc sz t op ops v p q
    (Ht : storage t = Device p (len_bytes (storage t)) (alloc_device_id (storage t)))
    (Hv : derive oc sz t op ops = Ok v)
    (Hlast : ops = [] \/ (exists ops' r, ops = ops' ++ [OpSlice r]) \/ (16 | offset_bytes v))
    (Hq : device_ptr (E:=string) oc v = Ok q) :
  dh_divisor (base_ptr_div (v_spec v)) = Z.gcd q 16.
Proof.
  assert (Hp : cu_deviceptr (E:=string) (storage t) = Ok p) by (by rewrite Ht).
  unfold derive in Hv. apply bind_Ok in Hv as (v1 & H1 & Hv).
  destruct ops as [|op' ops0 _] using rev_ind; [injection Hv as ->; by apply (first_op_hint oc sz t op v p)|].
  rewrite derive_more_snoc in Hv. apply bind_Ok in Hv as (v2 & H2 & Hv).
  apply (next_op_hint oc sz v2 op' v p); [done| | |done].
  - by rewrite (derive_more_base _ _ _ _ _ H2), (first_op_base _ _ _ _ _ H1).
  - destruct Hlast as [Hn|[(ops' & r & He)|Hd]]; [by destruct ops0|left|by right].
    apply app_inj_tail in He as [_ ->]. done.
Qed.

Lemma view_alignment_exact_witness :
  derive true 4 example_tensor (OpSlice [(1, 7)]) [OpView [3; 8]; OpSlice [(1, 3); (4, 8)]] = Ok example_tensor_view /\
  dh_divisor (base_ptr_div (v_spec example_tensor_view)) = Z.gcd 4160 16.
Proof.
  assert (Hv : derive true 4 example_tensor (OpSlice [(1, 7)]) example_ops = Ok example_tensor_view) by (vm_compute; reflexivity).
  split; [exact Hv|].
  apply (view_alignment_exact true 4 example_tensor (OpSlice [(1, 7)]) example_ops example_tensor_view 4096);
    [reflexivity|exact Hv| |vm_compute; reflexivity].
  right. left. exists [OpView [3; 8]], [(1, 3); (4, 8)]. reflexivity.
Defined.

(** A view of a slice keeps the offset but recomputes the hint from the start
    of the storage: four bytes past an aligned address it claims alignment 16. *)
Lemma view_of_slice_overstates : exists t v,
  from_foreign (E:=string) true 4 4096 32 0 [8] [1] = Ok t /\
  derive true 4 t (OpSlice [(1, 8)]) [OpView [7]] = Ok v /\
  device_ptr (E:=string) true v = Ok 4100 /\ dh_divisor (base_ptr_div (v_spec v)) = 16 /\ Z.gcd 4100 16 = 4.
Proof.
  eexists _, _. split; [vm_compute; reflexivity|]. split; [vm_compute; reflexivity|].
  split_and!; vm_compute; reflexivity.
Qed.

(** Without overflow checks the contiguous strides wrap: the outer stride of
    2 x 65536 x 65536 elements is zero, the two halves alias, a foreign
    allocation of half the size is accepted, and a view of the tensor reaches
    past its end. *)
Lemma wrapped_strides_out_of_bounds :
  contiguous_strides (E:=string) false [2; 65536; 65536] = Ok [0; 65536; 1] /\
  contiguous_strides (E:=string) true [2; 65536; 65536] = Panic /\
  exists t v,
    from_foreign (E:=string) false 1 4096 (2 ^ 32) 0 [2; 65536; 65536] [0; 65536; 1] = Ok t /\
    derive false 1 t (OpView [131072; 65536]) [] = Ok v /\
    in_shape (v_shape v) [131071; 0] /\ 2 ^ 32 < offset_bytes v + offset (v_strides v) [131071; 0] + 1.
Proof.
  split; [vm_compute; reflexivity|]. split; [vm_compute; reflexivity|].
  eexists _, _. split; [vm_compute; reflexivity|]. split; [vm_compute; reflexivity|].
  split; [repeat constructor; cbn; lia|vm_compute; reflexivity].
Qed.

(** *** Coverage of a launch *)

(** The three coordinates of a launched block. *)
Definition in_grid (grid : Grid) (block : list Z) : Prop :=
  Forall2 (fun b g => 0 <= b < g) block [grid.1.1; grid.1.2; grid.2].

(** The tile of the block holds the element. *)
Definition owns (tiles block idx : list Z) : Prop :=
  forall i t x, tiles !! i = Some t -> idx !! i = Some x -> exists b, block !! i = Some b /\ b * t <= x < (b + 1) * t.

Lemma ceil_axis d t x : 0 < t -> 0 <= x < d -> 0 <= x / t < (d + t - 1) / t.
Proof.
  intros Ht Hx. split; [apply Z.div_pos; lia|].
  apply (Z.lt_le_trans _ (x / t + 1)); [lia|].
  replace (x / t + 1) with ((x + 1 * t) / t) by (rewrite Z.div_add; lia). apply Z.div_le_mono; lia.
Qed.

Lemma ceil_inside d t b : 0 < t -> b < (d + t - 1) / t -> b * t < d.
Proof. intros Ht Hb. pose proof (Z.mul_div_le (d + t - 1) t Ht). nia. Qed.

Lemma tile_of x t b : 0 < t -> b * t <= x < (b + 1) * t -> b = x / t.
Proof. intros Ht H. apply Z.div_unique with (x - b * t); lia. Qed.

Lemma tile_of_div x t : 0 < t -> x / t * t <= x < (x / t + 1) * t.
Proof. intros Ht. pose proof (Z.div_mod x t ltac:(lia)). pose proof (Z.mod_pos_bound x t Ht). lia. Qed.

(** The grid of a partition, axis by axis. *)
Lemma partition_launch_grid_inv shape tiles grid : partition_launch_grid shape tiles = Ok grid ->
  Forall (fun d => 0 < d) shape /\ length tiles = length shape /\ 0 ∉ tiles /\ (1 <= length shape <= 3)%nat /\
  [grid.1.1; grid.1.2; grid.2] =
    zip_with (fun d t => (d + t - 1) / t) shape tiles ++ replicate (3 - length shape) 1.
Proof.
  unfold partition_launch_grid. destruct (existsb _ shape) eqn:Ex; [done|].
  destruct (Z.eqb_spec (zlen tiles) (zlen shape)) as [Hl|]; [|done]. cbn [negb]. case_bool_decide as H0; [done|].
  intros H. assert (Hpos : Forall (fun d => 0 < d) shape).
  { rewrite Forall_forall. intros d Hd. destruct (decide (0 < d)); [done|]. exfalso.
    assert (existsb (fun d => d <=? 0) shape = true); [|congruence].
    apply existsb_exists. exists d. split; [by apply list_elem_of_In|lia]. }
  unfold zlen in Hl.
  destruct shape as [|s0 [|s1 [|s2 [|]]]], tiles as [|p0 [|p1 [|p2 [|]]]]; cbn [length] in Hl; try lia; try done;
    unfold grid_axis in H; repeat (destruct (U32_MAX <? _); cbn [mbind outcome_bind] in H; try discriminate H);
    try discriminate H; apply Ok_inj in H; subst grid;
    (split; [done|]; split; [done|]; split; [done|]; split; [cbn; lia|reflexivity]).
Qed.

(** The number of launched blocks a bound allows, axis by axis. *)
Lemma satisfied_axes grid b g : satisfies_bound grid b -> match b with Exact h | AtMost h => g = h end ->
  Forall2 Z.le [grid.1.1; grid.1.2; grid.2] [g.1.1; g.1.2; g.2].
Proof.
  destruct b as [h|h]; cbn; [intros -> ->; repeat constructor; lia|].
  intros (H1 & H2 & H3) ->. repeat constructor; lia.
Qed.

Lemma tiles_positive tiles : 0 ∉ tiles -> Forall (fun t => 0 <= t) tiles -> Forall (fun t => 0 < t) tiles.
Proof.
  intros H0 H. rewrite Forall_forall in H |- *. intros t Ht. specialize (H t Ht).
  destruct (decide (t = 0)) as [->|]; [done|lia].
Qed.

(** The block that owns an element: quotients, then zeros. *)
Definition owner_block (tiles idx : list Z) : list Z :=
  zip_with (fun x t => x / t) idx tiles ++ replicate (3 - length idx) 0.

Lemma owner_block_unique tiles idx block : Forall (fun t => 0 < t) tiles -> length tiles = length idx -> (length idx <= 3)%nat ->
  owns tiles block idx -> length block = 3%nat -> Forall (fun b => b = 0) (drop (length idx) block) ->
  block = owner_block tiles idx.
Proof.
  intros Ht Hl H3 Hown Hb Hz. unfold owner_block. apply list_eq. intros i.
  rewrite Forall_lookup in Ht. rewrite Forall_lookup in Hz.
  destruct (decide (i < length idx)%nat) as [Hi|Hi].
  - rewrite lookup_app_l by (rewrite length_zip_with; lia).
    destruct (lookup_lt_is_Some_2 idx i Hi) as [x Hx]. destruct (lookup_lt_is_Some_2 tiles i ltac:(lia)) as [t Htl].
    destruct (Hown i t x Htl Hx) as (b & Hbl & Hbx). rewrite lookup_zip_with, Hx, Htl. cbn.
    rewrite Hbl. f_equal. apply tile_of; [by eapply Ht|done].
  - rewrite lookup_app_r by (rewrite length_zip_with; lia). rewrite length_zip_with.
    destruct (decide (i < 3)%nat) as [Hi3|Hi3].
    + destruct (lookup_lt_is_Some_2 block i ltac:(lia)) as [b Hbl]. rewrite Hbl.
      assert (Hd : drop (length idx) block !! (i - length idx)%nat = Some b)
        by (rewrite lookup_drop; by replace (length idx + (i - length idx))%nat with i by lia).
      specialize (Hz _ _ Hd). subst b. symmetry. apply lookup_replicate. split; [done|]. lia.
    + transitivity (@None Z); [|symmetry]; apply lookup_ge_None_2; rewrite ?length_replicate; lia.
Qed.

Lemma owner_block_owns tiles idx : Forall (fun t => 0 < t) tiles -> owns tiles (owner_block tiles idx) idx.
Proof.
  intros Ht i t x Hi Hx. exists (x / t). rewrite Forall_lookup in Ht. specialize (Ht _ _ Hi). split; [|by apply tile_of_div].
  unfold owner_block. apply lookup_app_l_Some. by rewrite lookup_zip_with, Hx, Hi.
Qed.

Lemma owner_block_in tiles idx shape : Forall (fun t => 0 < t) tiles -> length tiles = length shape -> in_shape shape idx ->
  Forall2 (fun b g => 0 <= b < g) (owner_block tiles idx)
    (zip_with (fun d t => (d + t - 1) / t) shape tiles ++ replicate (3 - length shape) 1).
Proof.
  intros Ht Hl Hin. unfold owner_block. pose proof (Forall2_length _ _ _ Hin) as Hli. rewrite Hli.
  apply Forall2_app.
  - clear Hli. revert tiles Ht Hl. induction Hin as [|x d idx shape Hx Hin IH]; intros [|t tiles] Ht Hl; try done.
    apply Forall_cons in Ht as [Ht0 Ht]. injection Hl as Hl. cbn [zip_with]. constructor; [by apply ceil_axis|by apply IH].
  - apply Forall2_replicate. lia.
Qed.

Lemma in_grid_length grid block : in_grid grid block -> length block = 3%nat.
Proof. intros H. by apply Forall2_length in H. Qed.

(** A coordinate past the rank of the tensor is 0. *)
Lemma in_grid_trailing (axes : list Z) n block : Forall2 (fun b g => 0 <= b < g) block (axes ++ replicate n 1) ->
  Forall (fun b => b = 0) (drop (length axes) block).
Proof.
  intros H. apply Forall2_app_inv_r in H as (l1 & l2 & H1 & H2 & ->).
  rewrite drop_app_length' by (symmetry; by eapply Forall2_length).
  apply Forall_lookup. intros i b Hb. destruct (Forall2_lookup_l _ _ _ _ _ H2 Hb) as (g & Hg & Hr).
  apply lookup_replicate in Hg as [-> _]. lia.
Qed.

Lemma in_grid_le grid axes block : Forall2 Z.le [grid.1.1; grid.1.2; grid.2] axes -> in_grid grid block ->
  Forall2 (fun b g => 0 <= b < g) block axes.
Proof.
  intros Hle Hin. apply Forall2_same_length_lookup. split.
  - rewrite (Forall2_length _ _ _ Hin). by apply Forall2_length in Hle.
  - intros i b g Hb Hg. destruct (Forall2_lookup_l _ _ _ _ _ Hin Hb) as (h & Hh & ?).
    pose proof (Forall2_lookup_lr _ _ _ _ _ _ Hle Hh Hg). lia.
Qed.

(** The bound a partition contributes to its launch. *)
Lemma grid_bound_inv p b : grid_bound p = Ok b ->
  exists g, partition_launch_grid (t_shape (object p)) (partition_shape p) = Ok g /\
    b = if prefix_coverage p then AtMost g else Exact g.
Proof. unfold grid_bound, partition_grid. intros (g & Hg & H)%bind_Ok. injection H as <-. by exists g. Qed.

(** C31: A launch whose grid passes the validation of the bounds its partitions contribute never launches a
    block past the end of a partitioned tensor: the tile of every block starts inside the tensor on every axis and
    the coordinates past the rank are 0. When the partition is not a prefix one, every element of the
    tensor is in the tile of exactly one launched block. *)
Theorem partition_launch_covers (p : Partition) (b : GridBound) (grid : Grid) (bounds : list GridBound)
    (Hb : grid_bound p = Ok b) (Hin : b ∈ bounds) (Hgrid : validate_grid_bounds grid bounds = Ok tt)
    (Htiles : Forall (fun t => 0 <= t) (partition_shape p)) :
  (forall block i x t d, in_grid grid block -> block !! i = Some x ->
     partition_shape p !! i = Some t -> t_shape (object p) !! i = Some d -> 0 <= x * t < d) /\
  (forall block, in_grid grid block -> Forall (fun x => x = 0) (drop (length (t_shape (object p))) block)) /\
  (prefix_coverage p = false -> forall idx, in_shape (t_shape (object p)) idx ->
     exists! block, in_grid grid block /\ owns (partition_shape p) block idx).
Proof.
  apply grid_bound_inv in Hb as (g & Hg & Hbg). apply partition_launch_grid_inv in Hg as (Hpos & Hl & H0 & Hr & Haxes).
  pose proof (tiles_positive _ H0 Htiles) as Ht. clear H0 Htiles.
  apply validate_grid_bounds_spec in Hgrid. rewrite Forall_forall in Hgrid. specialize (Hgrid b Hin).
  assert (Hle : Forall2 Z.le [grid.1.1; grid.1.2; grid.2] [g.1.1; g.1.2; g.2])
    by (apply (satisfied_axes _ b); [done|]; subst b; by destruct (prefix_coverage p)).
  rewrite Haxes in Hle. pose proof (fun block => in_grid_le grid _ block Hle) as Hblock.
  assert (Hz : length (zip_with (fun d t => (d + t - 1) / t) (t_shape (object p)) (partition_shape p)) = length (t_shape (object p)))
    by (rewrite length_zip_with; lia).
  split; [|split].
  - intros block i x t d Hg Hx Hti Hd. specialize (Hblock _ Hg).
    destruct (Forall2_lookup_l _ _ _ _ _ Hblock Hx) as (c & Hc & Hxc).
    rewrite lookup_app_l in Hc by (rewrite Hz; by eapply lookup_lt_Some).
    rewrite lookup_zip_with, Hd, Hti in Hc. cbn in Hc. injection Hc as <-.
    rewrite Forall_lookup in Ht. specialize (Ht _ _ Hti). destruct Hxc.
    split; [by apply Z.mul_nonneg_nonneg; [|apply Z.lt_le_incl]|by apply ceil_inside].
  - intros block Hg. rewrite <- Hz. by eapply in_grid_trailing, Hblock.
  - intros Hp idx Hidx. rewrite Hp in Hbg. subst b. cbn in Hgrid. subst g. pose proof (Forall2_length _ _ _ Hidx) as Hli.
    exists (owner_block (partition_shape p) idx). split; [split|].
    + unfold in_grid. rewrite Haxes. by apply owner_block_in.
    + by apply owner_block_owns.
    + intros block [Hg Hown]. symmetry. apply owner_block_unique; try done; [lia|lia|by eapply in_grid_length|].
      rewrite Hli, <- Hz. by eapply in_grid_trailing, Hblock.
Qed.

Definition part_5x3 : Partition := Eval vm_compute in
  match (t ← from_foreign (E:=string) true 4 4096 60 0 [5; 3] [3; 1]; partition true t [2; 2]) with
  | Ok p => p
  | _ => mkPartition no_tensor [] [] false
  end.

Lemma partition_launch_covers_witness :
  (t ← from_foreign (E:=string) true 4 4096 60 0 [5; 3] [3; 1]; partition true t [2; 2]) = Ok part_5x3 /\
  grid_bound part_5x3 = Ok (Exact (3, 2, 1)) /\
  exists! block, in_grid (3, 2, 1) block /\ owns [2; 2] block [4; 2].
Proof.
  split; [vm_compute; reflexivity|]. split; [vm_compute; reflexivity|].
  apply (partition_launch_covers part_5x3 (Exact (3, 2, 1)) (3, 2, 1) [Exact (3, 2, 1); AtMost (4, 4, 1)]).
  - vm_compute; reflexivity.
  - apply list_elem_of_here.
  - vm_compute; reflexivity.
  - repeat constructor; cbn; lia.
  - reflexivity.
  - repeat constructor; cbn; lia.
Defined.
