(* ===== verification/Access.v ===== *)
(** * Access tracking of tensor storage (tensor.rs, submission.rs, cuda_graph.rs)

    Every tensor storage keeps the list of the accesses that submitted device
    work may still make.  [Storage::retain] registers an access and hands a
    lease on it to the submission; the submission releases its leases when its
    work is known to be complete, or leaks them.  The file models one storage
    shared by any number of threads, as a machine whose events are the atomic
    actions of those threads (each critical section of the [accesses] mutex,
    each change of the [Arc] count) and of the device.

    Two guards of the machine are the contracts of the callers: work is enqueued
    only under a lease its submission holds (every operation retains its
    arguments first), and [complete] is called when the submission's work has
    finished, as its safety contract asks ([async_on], an unsafe function, is
    outside the model).  A failed wait may happen at any time. *)

From S2P Require Import Prelude Encoding.

(** ** Data *)

Record StorageAccess := mkAccess { a_id : Z; a_stream : Z; a_write : bool; a_recording : bool }.

(** A lease stores the id of its access; the rest of the access is kept beside
    it for the statements, no operation reads it. *)
Notation Lease := StorageAccess (only parsing).

(** A submission of an execution context: [owners] is [None] once released;
    [sub_alive] says whether the context still exists. *)
Record Submission := mkSubmission {
  sub_stream : Z; sub_device : Z; sub_recording : bool;
  owners : option (list Lease); recorded : list Lease; sub_alive : bool }.

(** One storage and everything that refers to it. *)
Record World := mkWorld {
  device : Z;                          (* the device of the allocation *)
  accesses : list StorageAccess;       (* the mutex-protected list *)
  next_id : Z;                         (* NEXT_ACCESS_ID *)
  strong : Z;                          (* the strong count of the Arc *)
  handles : Z;                         (* Arcs held by tensors and views *)
  acquiring : list (nat * Lease);      (* retain calls that registered and did not yet clone the Arc *)
  subs : list Submission;
  captured : list Lease;               (* owned by instantiated graphs *)
  forgotten : list Lease;              (* leaked by mem::forget *)
  releasing : list Lease;              (* leases being dropped: entry not yet removed *)
  dropping : Z;                        (* leases being dropped: entry removed, Arc not yet dropped *)
  inflight : list Lease }.             (* device work not yet executed, by the lease it was submitted under *)

Definition set_accesses f w := mkWorld (device w) (f (accesses w)) (next_id w) (strong w) (handles w) (acquiring w)
  (subs w) (captured w) (forgotten w) (releasing w) (dropping w) (inflight w).
Definition set_next f w := mkWorld (device w) (accesses w) (f (next_id w)) (strong w) (handles w) (acquiring w)
  (subs w) (captured w) (forgotten w) (releasing w) (dropping w) (inflight w).
Definition set_strong f w := mkWorld (device w) (accesses w) (next_id w) (f (strong w)) (handles w) (acquiring w)
  (subs w) (captured w) (forgotten w) (releasing w) (dropping w) (inflight w).
Definition set_handles f w := mkWorld (device w) (accesses w) (next_id w) (strong w) (f (handles w)) (acquiring w)
  (subs w) (captured w) (forgotten w) (releasing w) (dropping w) (inflight w).
Definition set_acquiring f w := mkWorld (device w) (accesses w) (next_id w) (strong w) (handles w) (f (acquiring w))
  (subs w) (captured w) (forgotten w) (releasing w) (dropping w) (inflight w).
Definition set_subs f w := mkWorld (device w) (accesses w) (next_id w) (strong w) (handles w) (acquiring w)
  (f (subs w)) (captured w) (forgotten w) (releasing w) (dropping w) (inflight w).
Definition set_captured f w := mkWorld (device w) (accesses w) (next_id w) (strong w) (handles w) (acquiring w)
  (subs w) (f (captured w)) (forgotten w) (releasing w) (dropping w) (inflight w).
Definition set_forgotten f w := mkWorld (device w) (accesses w) (next_id w) (strong w) (handles w) (acquiring w)
  (subs w) (captured w) (f (forgotten w)) (releasing w) (dropping w) (inflight w).
Definition set_releasing f w := mkWorld (device w) (accesses w) (next_id w) (strong w) (handles w) (acquiring w)
  (subs w) (captured w) (forgotten w) (f (releasing w)) (dropping w) (inflight w).
Definition set_dropping f w := mkWorld (device w) (accesses w) (next_id w) (strong w) (handles w) (acquiring w)
  (subs w) (captured w) (forgotten w) (releasing w) (f (dropping w)) (inflight w).
Definition set_inflight f w := mkWorld (device w) (accesses w) (next_id w) (strong w) (handles w) (acquiring w)
  (subs w) (captured w) (forgotten w) (releasing w) (dropping w) (f (inflight w)).

(** A storage just created, with one handle. *)
Definition Storage_new (dev first_id : Z) : World := mkWorld dev [] first_id 1 1 [] [] [] [] [] 0 [].

(** ** Operations of the storage *)

(** The test of [register_access] on one registered access. *)
Definition conflicts (stream : Z) (write : bool) (access : StorageAccess) : bool :=
  negb (a_recording access) && negb (a_stream access =? stream) && (write || a_write access).

Definition register_access (accesses : list StorageAccess) (next_id stream : Z) (write recording : bool)
  : outcome string (StorageAccess * list StorageAccess * Z) :=
  if negb recording && existsb (conflicts stream write) accesses
  then Err "tensor has a conflicting in-flight access on another stream; await its operation before reusing it"%string
  else
    let access := mkAccess next_id stream write recording in
    Ok (access, accesses ++ [access], as_u64 (next_id + 1)).

(** [Iterator::position] on the ids, and [Vec::swap_remove]. *)
Fixpoint position (id : Z) (l : list StorageAccess) : option nat :=
  match l with
  | [] => None
  | a :: l => if a_id a =? id then Some 0%nat else S <$> position id l
  end.

Definition swap_remove {A} (i : nat) (l : list A) : list A :=
  match last l with Some x => take (length l - 1) (<[i:=x]> l) | None => l end.

Definition release_access (id : Z) (accesses : list StorageAccess) : list StorageAccess :=
  match position id accesses with Some pos => swap_remove pos accesses | None => accesses end.

Definition is_unique (w : World) : bool := strong w =? 1 + zlen (accesses w).

(** [retain] until [register_access] has returned. *)
Definition retain_begin (j : nat) (s : Submission) (write : bool) (w : World) : outcome string World :=
  if negb (device w =? sub_device s) then Err "tensor and execution stream are on different devices"%string
  else
    '(access, accesses', next') ← register_access (accesses w) (next_id w) (sub_stream s) write (sub_recording s);
    Ok (set_acquiring (fun l => l ++ [(j, access)]) (set_accesses (fun _ => accesses') (set_next (fun _ => next') w))).

(** [Owners::retain_lease]; a refused lease is dropped. *)
Definition retain_lease (s : Submission) (lease : Lease) : outcome string Submission :=
  match owners s with
  | Some leases => Ok (mkSubmission (sub_stream s) (sub_device s) (sub_recording s) (Some (leases ++ [lease])) (recorded s) (sub_alive s))
  | None => Err "submission already completed"%string
  end.

(** [Submission::record]. *)
Definition record (s : Submission) (lease : Lease) : Submission :=
  mkSubmission (sub_stream s) (sub_device s) (sub_recording s) (owners s) (recorded s ++ [lease]) (sub_alive s).

Definition take_recorded (s : Submission) : list Lease * Submission :=
  (recorded s, mkSubmission (sub_stream s) (sub_device s) (sub_recording s) (owners s) [] (sub_alive s)).

(** The rest of [retain]: the [Arc] is cloned and the lease handed over. *)
Definition retain_end (j : nat) (s : Submission) (lease : Lease) (w : World) : World :=
  let w := set_strong (fun n => n + 1) w in
  if sub_recording s then set_subs (fun l => <[j := record s lease]> l) w
  else match retain_lease s lease with
       | Ok s' => set_subs (fun l => <[j := s']> l) w
       | _ => set_releasing (fun l => lease :: l) w
       end.

(** [Submission::complete]: the owners are taken and dropped. *)
Definition complete (s : Submission) : list Lease * Submission :=
  (default [] (owners s), mkSubmission (sub_stream s) (sub_device s) (sub_recording s) None (recorded s) (sub_alive s)).

(** [Owners::release]: the leases dropped and the leases leaked. *)
Definition release (o : option (list Lease)) (wait_ok : bool) : list Lease * list Lease :=
  match o with
  | None => ([], [])
  | Some leases => if negb (bool_decide (leases = [])) && negb wait_ok then ([], leases) else (leases, [])
  end.

(** Dropping a submission: the leases dropped (the recorded resources go with
    the other fields), the leases leaked, and what is left of the submission. *)
Definition drop_submission (s : Submission) (wait_ok : bool) : list Lease * list Lease * Submission :=
  let '(dropped, leaked) := release (owners s) wait_ok in
  (dropped ++ recorded s, leaked, mkSubmission (sub_stream s) (sub_device s) (sub_recording s) None [] false).

(** ** Graphs: one resource per storage *)

Section adopt_capture.
Context {R : Type} (replay_identity : R -> Z * bool).

(** The loop of [adopt_capture]; the third component lists the resources the
    loop drops. *)
Fixpoint adopt_loop (index : gmap Z nat) (captured dropped recorded : list R) : list R * list R :=
  match recorded with
  | [] => (captured, dropped)
  | resource :: recorded =>
      let '(storage, write) := replay_identity resource in
      match index !! storage with
      | Some i =>
          match captured !! i with
          | Some old =>
              if write && negb (replay_identity old).2
              then adopt_loop index (<[i := resource]> captured) (dropped ++ [old]) recorded
              else adopt_loop index captured (dropped ++ [resource]) recorded
          | None => (captured, dropped)   (* out of range: a panic, never reached *)
          end
      | None => adopt_loop (<[storage := length captured]> index) (captured ++ [resource]) dropped recorded
      end
  end.

Definition adopt_capture (recorded : list R) : list R * list R := adopt_loop ∅ [] [] recorded.
End adopt_capture.

(** ** The machine *)

Inductive Event :=
| CloneHandle | DropHandle                       (* Arc::clone and drop of a tensor's handle *)
| OtherAccess                                    (* another storage takes an id *)
| NewSubmission (stream dev : Z) (recording : bool)
| RetainBegin (j : nat) (write : bool)
| RetainEnd (k : nat)
| Enqueue (j k : nat)                            (* work is enqueued under the k-th lease of the submission *)
| WorkDone (k : nat)                             (* the device finishes a piece of work *)
| Complete (j : nat)
| DropSubmission (j : nat) (wait_ok : bool)
| AdoptCapture (j : nat)
| DropGraph (k : nat)                            (* a graph drops a captured resource *)
| ReleaseAccess (k : nat)                        (* first half of dropping a lease *)
| DropLease.                                     (* second half: the Arc *)

Definition lease_identity (l : Lease) : Z * bool := (0, a_write l).

(** No work submitted under the leases is still in flight. *)
Definition finished (w : World) (leases : list Lease) : bool :=
  forallb (fun a => negb (bool_decide (a_id a ∈ a_id <$> leases))) (inflight w).

Definition drained (w : World) (stream : Z) : bool := forallb (fun a => negb (a_stream a =? stream)) (inflight w).

(** An event of a state; [None] when the event cannot happen there. A call
    that returns an error leaves the state as it was. *)
Definition step (w : World) (e : Event) : option World :=
  match e with
  | CloneHandle => if 0 <? handles w then Some (set_handles (fun n => n + 1) (set_strong (fun n => n + 1) w)) else None
  | DropHandle => if 0 <? handles w then Some (set_handles (fun n => n - 1) (set_strong (fun n => n - 1) w)) else None
  | OtherAccess => Some (set_next (fun n => as_u64 (n + 1)) w)
  | NewSubmission stream dev recording =>
      Some (set_subs (fun l => l ++ [mkSubmission stream dev recording (Some []) [] true]) w)
  | RetainBegin j write =>
      s ← subs w !! j;
      if sub_alive s then Some (match retain_begin j s write w with Ok w' => w' | _ => w end) else None
  | RetainEnd k =>
      '(j, lease) ← acquiring w !! k; s ← subs w !! j;
      Some (retain_end j s lease (set_acquiring (fun l => delete k l) w))
  | Enqueue j k =>
      s ← subs w !! j; leases ← owners s; lease ← leases !! k;
      Some (set_inflight (fun l => l ++ [lease]) w)
  | WorkDone k => _ ← inflight w !! k; Some (set_inflight (fun l => delete k l) w)
  | Complete j =>
      s ← subs w !! j;
      if finished w (default [] (owners s))
      then let '(dropped, s') := complete s in
           Some (set_releasing (fun l => dropped ++ l) (set_subs (fun l => <[j := s']> l) w))
      else None
  | DropSubmission j wait_ok =>
      s ← subs w !! j;
      if sub_alive s && negb (bool_decide (j ∈ fst <$> acquiring w)) && (negb wait_ok || drained w (sub_stream s))
      then let '(dropped, leaked, s') := drop_submission s wait_ok in
           Some (set_releasing (fun l => dropped ++ l) (set_forgotten (fun l => leaked ++ l)
             (set_subs (fun l => <[j := s']> l) w)))
      else None
  | AdoptCapture j =>
      s ← subs w !! j;
      let '(resources, s') := take_recorded s in
      let '(kept, dropped) := adopt_capture lease_identity resources in
      Some (set_captured (fun l => kept ++ l) (set_releasing (fun l => dropped ++ l) (set_subs (fun l => <[j := s']> l) w)))
  | DropGraph k =>
      lease ← captured w !! k; Some (set_releasing (fun l => lease :: l) (set_captured (fun l => delete k l) w))
  | ReleaseAccess k =>
      lease ← releasing w !! k;
      Some (set_accesses (release_access (a_id lease)) (set_dropping (fun n => n + 1)
        (set_releasing (fun l => delete k l) w)))
  | DropLease =>
      if 0 <? dropping w then Some (set_dropping (fun n => n - 1) (set_strong (fun n => n - 1) w)) else None
  end.

Fixpoint run (w : World) (es : list Event) : option World :=
  match es with [] => Some w | e :: es => w' ← step w e; run w' es end.

(** ** The invariant *)

Definition leases (s : Submission) : list Lease := default [] (owners s).

(** Every lease that holds an [Arc] and is not being dropped. *)
Definition held (w : World) : list Lease :=
  (subs w ≫= leases) ++ (subs w ≫= recorded) ++ captured w ++ forgotten w.

(** The owners of the registered accesses. *)
Definition owned (w : World) : list Lease := (snd <$> acquiring w) ++ held w ++ releasing w.

(** The leases device work may be running under. *)
Definition executing (w : World) : list Lease := (subs w ≫= leases) ++ forgotten w.

(** Two accesses may be in flight together. *)
Definition compatible (a b : StorageAccess) : Prop :=
  a_recording a = false -> a_recording b = false -> a_stream a <> a_stream b -> a_write a = false /\ a_write b = false.

Definition of_submission (s : Submission) (a : Lease) : Prop := a_stream a = sub_stream s /\ a_recording a = sub_recording s.

(** [n] bounds the ids handed out so far. *)
Record Inv (n : Z) (w : World) : Prop := {
  inv_owned : owned w ≡ₚ accesses w;
  inv_nodup : NoDup (a_id <$> accesses w);
  inv_next : Forall (fun a => a_id a < next_id w) (accesses w) /\ 0 <= next_id w <= n;
  inv_strong : strong w = handles w + zlen (accesses w) - zlen (acquiring w) + dropping w;
  inv_nonneg : 0 <= handles w /\ 0 <= dropping w;
  inv_compatible : forall a b, a ∈ accesses w -> b ∈ accesses w -> compatible a b;
  inv_acquiring : forall j a, (j, a) ∈ acquiring w -> exists s, subs w !! j = Some s /\ of_submission s a;
  inv_subs : forall s a, s ∈ subs w -> a ∈ leases s -> of_submission s a /\ a_recording a = false;
  inv_inflight : forall a, a ∈ inflight w -> a ∈ executing w /\ a_recording a = false }.

(** *** Lists *)

Lemma list_delete_insert_eq {A} (l : list A) i x : delete i (<[i:=x]> l) = delete i l.
Proof. revert i. induction l as [|y l IH]; intros [|i]; [done..|]. cbn. by rewrite IH. Qed.

Lemma bind_lookup {A B} (f : A -> list B) l j x : l !! j = Some x -> l ≫= f ≡ₚ f x ++ (delete j l ≫= f).
Proof. intros H. rewrite (delete_Permutation _ _ _ H) at 1. by rewrite bind_cons. Qed.

Lemma bind_insert {A B} (f : A -> list B) l j x y : l !! j = Some x -> <[j:=y]> l ≫= f ≡ₚ f y ++ (delete j l ≫= f).
Proof.
  intros H. rewrite (bind_lookup f (<[j:=y]> l) j y) by (apply list_lookup_insert_eq; by eapply lookup_lt_Some).
  by rewrite list_delete_insert_eq.
Qed.

Lemma swap_remove_Permutation {A} i (l : list A) x : l !! i = Some x -> l ≡ₚ x :: swap_remove i l.
Proof.
  intros H. destruct l as [|z l _] using rev_ind; [done|]. unfold swap_remove. rewrite last_snoc, length_app. cbn [length].
  replace (length l + 1 - 1)%nat with (length l) by lia. destruct (decide (i < length l)%nat) as [Hi|Hi].
  - rewrite insert_app_l by done. rewrite take_app_length' by (by rewrite length_insert). rewrite lookup_app_l in H by done.
    rewrite insert_take_drop by done. rewrite <- (take_drop_middle l i x H) at 1. solve_Permutation.
  - pose proof (lookup_lt_Some _ _ _ H) as Hlt. rewrite length_app in Hlt. cbn in Hlt. assert (i = length l) as -> by lia.
    rewrite lookup_app_r, Nat.sub_diag in H by lia. injection H as ->.
    rewrite insert_app_r_alt, take_app_length by lia. solve_Permutation.
Qed.

Lemma position_Some id l i : position id l = Some i -> exists a, l !! i = Some a /\ a_id a = id.
Proof.
  revert i. induction l as [|a l IH]; intros i H; [done|]. cbn in H. destruct (Z.eqb_spec (a_id a) id).
  - injection H as <-. by exists a.
  - destruct (position id l) as [k|]; [|done]. injection H as <-. by apply IH.
Qed.

Lemma position_None id l : position id l = None -> id ∉ a_id <$> l.
Proof.
  induction l as [|a l IH]; intros H; [by apply not_elem_of_nil|]. cbn in H. destruct (Z.eqb_spec (a_id a) id); [done|].
  destruct (position id l); [done|]. rewrite fmap_cons, not_elem_of_cons. auto.
Qed.

(** Releasing a registered access removes that access and no other. *)
Lemma release_access_spec l a : NoDup (a_id <$> l) -> a ∈ l -> l ≡ₚ a :: release_access (a_id a) l.
Proof.
  intros Hnd Ha. unfold release_access. destruct (position (a_id a) l) as [i|] eqn:E.
  - apply position_Some in E as (b & Hi & Hb). rewrite (swap_remove_Permutation i l b Hi) at 1.
    apply list_elem_of_lookup in Ha as [j Hj]. assert (Hij : i = j).
    { apply (NoDup_lookup _ i j (a_id a) Hnd); rewrite list_lookup_fmap; [by rewrite Hi; cbn; rewrite Hb|by rewrite Hj]. }
    subst j. rewrite Hi in Hj. by injection Hj as ->.
  - apply position_None in E. destruct E. by apply list_elem_of_fmap_2.
Qed.

Lemma zlen_Permutation {A} (l k : list A) : l ≡ₚ k -> zlen l = zlen k.
Proof. unfold zlen. by intros ->. Qed.

(** *** Graph resources *)

Lemma adopt_loop_Permutation {R} (f : R -> Z * bool) index cap drp rec :
  (forall s i, index !! s = Some i -> (i < length cap)%nat) ->
  let r := adopt_loop f index cap drp rec in r.1 ++ r.2 ≡ₚ cap ++ drp ++ rec.
Proof.
  cbn zeta. revert index cap drp. induction rec as [|x rec IH]; intros index cap drp Hi; cbn [adopt_loop]; [cbn; by rewrite app_nil_r|].
  destruct (f x) as [s wr]. destruct (index !! s) as [i|] eqn:E.
  - destruct (lookup_lt_is_Some_2 cap i (Hi _ _ E)) as [old Hold]. rewrite Hold. destruct (wr && negb (f old).2).
    + rewrite IH by (intros ???; rewrite length_insert; eauto).
      rewrite (delete_Permutation cap i old Hold) at 2.
      rewrite (delete_Permutation (<[i:=x]> cap) i x), list_delete_insert_eq by (apply list_lookup_insert_eq; by eapply lookup_lt_Some).
      solve_Permutation.
    + rewrite IH by done. solve_Permutation.
  - rewrite IH; [solve_Permutation|]. intros s' i'. rewrite length_app; cbn. rewrite lookup_insert_Some.
    intros [[_ <-]|[_ H%Hi]]; lia.
Qed.

Lemma adopt_capture_Permutation {R} (f : R -> Z * bool) rec : (adopt_capture f rec).1 ++ (adopt_capture f rec).2 ≡ₚ rec.
Proof. unfold adopt_capture. by rewrite adopt_loop_Permutation. Qed.

(** *** Preservation *)

(** A submission after an operation keeps its stream and its mode. *)
Definition same_context (s s' : Submission) : Prop := sub_stream s' = sub_stream s /\ sub_recording s' = sub_recording s.

Definition same_contexts (l l' : list Submission) : Prop :=
  forall j s, l !! j = Some s -> exists s', l' !! j = Some s' /\ same_context s s'.

Definition sub_ok (s : Submission) : Prop := forall a, a ∈ leases s -> of_submission s a /\ a_recording a = false.

Lemma same_contexts_refl l : same_contexts l l.
Proof. intros j s H. by exists s. Qed.

Lemma same_contexts_insert l j s s' : l !! j = Some s -> same_context s s' -> same_contexts l (<[j:=s']> l).
Proof.
  intros Hj Hs i x Hi. destruct (decide (i = j)) as [->|].
  - exists s'. rewrite list_lookup_insert_eq by (by eapply lookup_lt_Some). split; [done|]. congruence.
  - exists x. by rewrite list_lookup_insert_ne.
Qed.

Lemma sub_ok_insert (l : list Submission) j s' : (forall s, s ∈ l -> sub_ok s) -> sub_ok s' -> forall s, s ∈ <[j:=s']> l -> sub_ok s.
Proof.
  intros H Hs' s [i Hi]%list_elem_of_lookup. apply list_lookup_insert_Some in Hi as [(_ & <- & _)|[_ Hi]]; [done|].
  by eapply H, list_elem_of_lookup_2.
Qed.

(** Events that neither register nor remove an access: they move leases. *)
Lemma Inv_move n w w' : Inv n w -> accesses w' = accesses w -> next_id w' = next_id w -> owned w' ≡ₚ owned w ->
  strong w' - handles w' + zlen (acquiring w') - dropping w' = strong w - handles w + zlen (acquiring w) - dropping w ->
  0 <= handles w' /\ 0 <= dropping w' -> acquiring w' ⊆ acquiring w -> same_contexts (subs w) (subs w') ->
  (forall s, s ∈ subs w' -> sub_ok s) ->
  (forall a, a ∈ inflight w' -> a ∈ executing w' /\ a_recording a = false) -> Inv n w'.
Proof.
  intros [] Ha Hn Ho Hs Hp Hacq Hctx Hsubs Hfl. split; rewrite ?Ha, ?Hn; try done.
  - by rewrite Ho.
  - lia.
  - intros j a Hja. destruct (inv_acquiring0 j a (Hacq _ Hja)) as (s & Hj & [H1 H2]).
    destruct (Hctx _ _ Hj) as (s' & Hs' & [E1 E2]). exists s'. split; [done|]. split; congruence.
  - intros s a Hin. by apply Hsubs.
Qed.

Lemma Inv_mono n m w : n <= m -> Inv n w -> Inv m w.
Proof. intros Hm []. split; try done. split; [apply inv_next0|lia]. Qed.

Lemma inv_sub_ok n w : Inv n w -> forall s, s ∈ subs w -> sub_ok s.
Proof. intros H s Hs a Ha. by eapply inv_subs. Qed.

(** Moving [l] out of one group and into another. *)
Ltac move_leases H :=
  eapply (Inv_move _ _ _ H); unfold owned, held, executing; cbn;
    [done|done| |try done|try apply (inv_nonneg _ _ H)|try done|try apply same_contexts_refl|try apply (inv_sub_ok _ _ H)
    |try apply (inv_inflight _ _ H)].

Lemma clone_handle_inv n w : Inv n w -> Inv n (set_handles (fun k => k + 1) (set_strong (fun k => k + 1) w)).
Proof. intros H. pose proof (inv_nonneg _ _ H). move_leases H; [done|lia|lia]. Qed.

Lemma drop_handle_inv n w : Inv n w -> 0 < handles w -> Inv n (set_handles (fun k => k - 1) (set_strong (fun k => k - 1) w)).
Proof. intros H Hh. pose proof (inv_nonneg _ _ H). move_leases H; [done|lia|lia]. Qed.

Lemma drop_lease_inv n w : Inv n w -> 0 < dropping w -> Inv n (set_dropping (fun k => k - 1) (set_strong (fun k => k - 1) w)).
Proof. intros H Hh. pose proof (inv_nonneg _ _ H). move_leases H; [done|lia|lia]. Qed.

Lemma work_done_inv n w k : Inv n w -> Inv n (set_inflight (fun l => delete k l) w).
Proof.
  intros H. move_leases H; [done|]. intros a Ha. apply (inv_inflight _ _ H).
  by eapply list_elem_of_delete_inv.
Qed.

Lemma enqueue_inv n w j s leases k lease : Inv n w -> subs w !! j = Some s -> owners s = Some leases -> leases !! k = Some lease ->
  Inv n (set_inflight (fun l => l ++ [lease]) w).
Proof.
  intros H Hj Hs Hk. move_leases H; [done|]. intros a [Ha| ->%list_elem_of_singleton]%elem_of_app.
  - apply (inv_inflight _ _ H _ Ha).
  - assert (Hin : lease ∈ Access.leases s) by (unfold Access.leases; rewrite Hs; by eapply list_elem_of_lookup_2).
    split; [|eapply (inv_subs _ _ H); [by eapply list_elem_of_lookup_2|done]].
    apply elem_of_app. left. apply list_elem_of_bind. exists s. split; [done|by eapply list_elem_of_lookup_2].
Qed.

Lemma new_submission_inv n w stream dev rec :
  Inv n w -> Inv n (set_subs (fun l => l ++ [mkSubmission stream dev rec (Some []) [] true]) w).
Proof.
  intros H. move_leases H.
  - by rewrite !bind_app, !app_nil_r.
  - intros j s Hj. exists s. split; [by apply lookup_app_l_Some|done].
  - intros s [Hs| ->%list_elem_of_singleton]%elem_of_app; [by apply (inv_sub_ok _ _ H)|]. intros a Ha. by apply not_elem_of_nil in Ha.
  - rewrite bind_app, app_nil_r. apply (inv_inflight _ _ H).
Qed.

(** The work in flight stays under leases when the submission [s] is replaced
    by [s'] and its lost leases are leaked or have no work left. *)
Lemma executing_insert w j s s' leaked a : subs w !! j = Some s ->
  a ∈ executing w -> (a ∈ leases s -> a ∈ leases s' ++ leaked) ->
  a ∈ (<[j:=s']> (subs w) ≫= leases) ++ leaked ++ forgotten w.
Proof.
  unfold executing. intros Hj Ha Hs. rewrite (bind_insert _ _ _ _ _ Hj). rewrite (bind_lookup _ _ _ _ Hj) in Ha.
  rewrite !elem_of_app in *. tauto.
Qed.

Lemma retain_end_inv n w k j s lease : Inv n w -> acquiring w !! k = Some (j, lease) -> subs w !! j = Some s ->
  Inv n (retain_end j s lease (set_acquiring (fun l => delete k l) w)).
Proof.
  intros H Hk Hj. pose proof (delete_Permutation _ _ _ Hk) as Hp.
  destruct (inv_acquiring _ _ H j lease) as (s0 & Hs0 & Hof); [by eapply list_elem_of_lookup_2|].
  rewrite Hj in Hs0. injection Hs0 as <-. assert (Hs : s ∈ subs w) by (by eapply list_elem_of_lookup_2).
  assert (Hzl : zlen (acquiring w) = zlen (delete k (acquiring w)) + 1)
    by (rewrite (zlen_Permutation _ _ Hp); unfold zlen; cbn [length]; lia).
  assert (Hps : snd <$> acquiring w ≡ₚ lease :: (snd <$> delete k (acquiring w))) by (by rewrite Hp at 1).
  assert (Hsub : delete k (acquiring w) ⊆ acquiring w) by (apply sublist_subseteq, sublist_delete).
  unfold retain_end, retain_lease. destruct (sub_recording s) eqn:Er; [|destruct (owners s) as [ls|] eqn:Eo].
  - move_leases H; [|lia| | |].
    + rewrite !(bind_insert _ _ _ _ _ Hj), !(bind_lookup _ _ _ _ Hj), Hps. unfold record, leases; cbn. solve_Permutation.
    + by eapply same_contexts_insert.
    + apply sub_ok_insert; [apply (inv_sub_ok _ _ H)|]. apply (inv_sub_ok _ _ H s Hs).
    + intros a Ha. destruct (inv_inflight _ _ H a Ha) as [He Hr]. split; [|done].
      apply (executing_insert w j s (record s lease) [] a Hj He). rewrite app_nil_r. done.
  - move_leases H; [|lia| | |].
    + rewrite !(bind_insert _ _ _ _ _ Hj), !(bind_lookup _ _ _ _ Hj), Hps. unfold leases; cbn. rewrite Eo; cbn. solve_Permutation.
    + eapply same_contexts_insert; [done|]. by split.
    + apply sub_ok_insert; [apply (inv_sub_ok _ _ H)|]. intros a [Ha| ->%list_elem_of_singleton]%elem_of_app.
      * assert (Hls : a ∈ leases s) by (unfold leases; by rewrite Eo). destruct (inv_sub_ok _ _ H s Hs a Hls) as [[? ?] ?].
        split; [split; cbn; congruence|done].
      * destruct Hof. split; [split; cbn; congruence|congruence].
    + intros a Ha. destruct (inv_inflight _ _ H a Ha) as [He Hr]. split; [|done].
      eapply (executing_insert w j s _ [] a Hj He). unfold leases; rewrite Eo; cbn. set_solver.
  - move_leases H; [|lia]. rewrite Hps. solve_Permutation.
Qed.

Lemma complete_inv n w j s : Inv n w -> subs w !! j = Some s -> finished w (leases s) = true ->
  Inv n (set_releasing (fun l => (complete s).1 ++ l) (set_subs (fun l => <[j := (complete s).2]> l) w)).
Proof.
  intros H Hj Hf. move_leases H.
  - rewrite !(bind_insert _ _ _ _ _ Hj), !(bind_lookup _ _ _ _ Hj). unfold leases; cbn. solve_Permutation.
  - by eapply same_contexts_insert.
  - apply sub_ok_insert; [apply (inv_sub_ok _ _ H)|]. intros a Ha. by apply not_elem_of_nil in Ha.
  - intros a Ha. destruct (inv_inflight _ _ H a Ha) as [He Hr]. split; [|done].
    apply (executing_insert w j s _ [] a Hj He). intros Hls. exfalso.
    unfold finished in Hf. rewrite forallb_forall in Hf. specialize (Hf a ltac:(by apply list_elem_of_In)).
    rewrite bool_decide_true in Hf by (by apply list_elem_of_fmap_2). done.
Qed.

Lemma release_split o ok : (release o ok).1 ++ (release o ok).2 = default [] o.
Proof. destruct o as [l|]; cbn; [|done]. destruct (_ && _); cbn; by rewrite ?app_nil_r. Qed.

Lemma drop_submission_inv n w j s ok : Inv n w -> subs w !! j = Some s -> negb ok || drained w (sub_stream s) = true ->
  Inv n (set_releasing (fun l => (drop_submission s ok).1.1 ++ l) (set_forgotten (fun l => (drop_submission s ok).1.2 ++ l)
    (set_subs (fun l => <[j := (drop_submission s ok).2]> l) w))).
Proof.
  intros H Hj Hd. pose proof (release_split (owners s) ok) as Hsp.
  unfold drop_submission. destruct (release (owners s) ok) as [dr lk] eqn:Er. cbn in Hsp |- *.
  assert (Hs : s ∈ subs w) by (by eapply list_elem_of_lookup_2). move_leases H.
  - rewrite !(bind_insert _ _ _ _ _ Hj), !(bind_lookup _ _ _ _ Hj). unfold leases at 3; rewrite <- Hsp. cbn. solve_Permutation.
  - by eapply same_contexts_insert.
  - apply sub_ok_insert; [apply (inv_sub_ok _ _ H)|]. intros a Ha. by apply not_elem_of_nil in Ha.
  - intros a Ha. destruct (inv_inflight _ _ H a Ha) as [He Hr]. split; [|done].
    apply (executing_insert w j s _ _ a Hj He). intros Hls. destruct ok.
    + exfalso. cbn in Hd. unfold drained in Hd. rewrite forallb_forall in Hd. specialize (Hd a ltac:(by apply list_elem_of_In)).
      destruct (inv_sub_ok _ _ H s Hs a Hls) as [[E _] _]. rewrite E, Z.eqb_refl in Hd. done.
    + unfold leases in Hls |- *. destruct (owners s) as [[|b l]|]; injection Er as <- <-; done.
Qed.

Lemma adopt_capture_inv n w j s : Inv n w -> subs w !! j = Some s ->
  let kd := adopt_capture lease_identity (recorded s) in
  Inv n (set_captured (fun l => kd.1 ++ l) (set_releasing (fun l => kd.2 ++ l) (set_subs (fun l => <[j := (take_recorded s).2]> l) w))).
Proof.
  intros H Hj. cbn zeta. pose proof (adopt_capture_Permutation lease_identity (recorded s)) as Hsp.
  assert (Hs : s ∈ subs w) by (by eapply list_elem_of_lookup_2). move_leases H.
  - rewrite !(bind_insert _ _ _ _ _ Hj), !(bind_lookup _ _ _ _ Hj). rewrite <- Hsp at 3. unfold leases; cbn. solve_Permutation.
  - by eapply same_contexts_insert.
  - apply sub_ok_insert; [apply (inv_sub_ok _ _ H)|]. apply (inv_sub_ok _ _ H s Hs).
  - intros a Ha. destruct (inv_inflight _ _ H a Ha) as [He Hr]. split; [|done].
    apply (executing_insert w j s _ [] a Hj He). rewrite app_nil_r. done.
Qed.

Lemma drop_graph_inv n w k lease : Inv n w -> captured w !! k = Some lease ->
  Inv n (set_releasing (fun l => lease :: l) (set_captured (fun l => delete k l) w)).
Proof. intros H Hk. move_leases H. rewrite (delete_Permutation _ _ _ Hk) at 2. solve_Permutation. Qed.

(** A new id is fresh as long as the 64-bit counter has not wrapped. *)
Lemma next_id_step n z : 0 <= z <= n -> n < U64_MAX -> as_u64 (z + 1) = z + 1 /\ 0 <= z + 1 <= n + 1.
Proof. intros Hz Hn. split; [|lia]. unfold as_u64. rewrite Z.mod_small; [done|]. unfold_int. lia. Qed.

Lemma other_access_inv n w : n < U64_MAX -> Inv n w -> Inv (n + 1) (set_next (fun k => as_u64 (k + 1)) w).
Proof.
  intros Hn []. destruct inv_next0 as [Hf Hr]. destruct (next_id_step _ _ Hr Hn) as [E ?]. split; cbn; rewrite ?E; try done.
  split; [|done]. eapply Forall_impl; [exact Hf|]. cbn. lia.
Qed.

Lemma register_access_inv l next stream write rec a l' next' : register_access l next stream write rec = Ok (a, l', next') ->
  a = mkAccess next stream write rec /\ l' = l ++ [a] /\ next' = as_u64 (next + 1) /\
  forall b, b ∈ l -> compatible a b.
Proof.
  unfold register_access. destruct (negb rec && existsb _ l) eqn:E; [done|]. intros [= <- <- <-]. split_and!; try done.
  intros b Hb Ha Hr Hs. cbn in *. subst rec. cbn in E.
  assert (Hc : conflicts stream write b = false).
  { destruct (conflicts stream write b) eqn:Ec; [|done]. rewrite <- E. symmetry. apply existsb_exists. exists b. by rewrite <- list_elem_of_In. }
  unfold conflicts in Hc. rewrite Hr in Hc. destruct (Z.eqb_spec (a_stream b) stream); [congruence|]. cbn in Hc.
  by apply orb_false_iff in Hc.
Qed.

Lemma compatible_sym a b : compatible a b -> compatible b a.
Proof. unfold compatible. intros H Ha Hb Hs. destruct H; auto. Qed.

Lemma compatible_refl a : compatible a a.
Proof. by intros ?? []. Qed.

Lemma retain_begin_inv n w w' j s write : n < U64_MAX -> Inv n w -> subs w !! j = Some s -> retain_begin j s write w = Ok w' -> Inv (n + 1) w'.
Proof.
  intros Hn [] Hj. unfold retain_begin. destruct (negb _); [done|].
  destruct (register_access _ _ _ _ _) as [[[a l'] next']| |] eqn:E; [|done..]. intros [= <-].
  apply register_access_inv in E as (Ha & -> & -> & Hc).
  destruct inv_next0 as [Hf Hr]. destruct (next_id_step _ _ Hr Hn) as [E ?]. rewrite E.
  assert (Hid : a_id a = next_id w) by (by subst a). assert (Hof : of_submission s a) by (by subst a).
  split; cbn; try done.
  - unfold owned in *. cbn. rewrite <- inv_owned0, fmap_app. cbn. change (held _) with (held w). solve_Permutation.
  - rewrite fmap_app. cbn. rewrite NoDup_app. split; [done|]. split; [|apply NoDup_singleton].
    intros z (b & -> & Hb)%list_elem_of_fmap Hz%list_elem_of_singleton. rewrite Forall_forall in Hf. specialize (Hf _ Hb). lia.
  - split; [|lia]. apply Forall_app. split; [eapply Forall_impl; [exact Hf|]; cbn; lia|]. constructor; [lia|constructor].
  - unfold zlen in *. rewrite !length_app. cbn. lia.
  - intros b c [Hb| ->%list_elem_of_singleton]%elem_of_app [Hc'| ->%list_elem_of_singleton]%elem_of_app;
      auto using compatible_sym, compatible_refl.
  - intros i b [Hb|[= -> ->]%list_elem_of_singleton]%elem_of_app; [by apply inv_acquiring0|by exists s].
Qed.

Lemma release_access_step_inv n w k lease : Inv n w -> releasing w !! k = Some lease ->
  Inv n (set_accesses (release_access (a_id lease)) (set_dropping (fun d => d + 1) (set_releasing (fun l => delete k l) w))).
Proof.
  intros [] Hk. pose proof (delete_Permutation _ _ _ Hk) as Hp.
  assert (Hin : lease ∈ accesses w).
  { rewrite <- inv_owned0. unfold owned. rewrite !elem_of_app. right; right. by eapply list_elem_of_lookup_2. }
  pose proof (release_access_spec _ _ inv_nodup0 Hin) as Hr.
  assert (Hsub : forall a, a ∈ release_access (a_id lease) (accesses w) -> a ∈ accesses w)
    by (intros a Ha; rewrite Hr; by apply list_elem_of_further).
  split; cbn; try done.
  - unfold owned in *. cbn. change (held (set_accesses _ _)) with (held w). apply (Permutation_cons_inv (a:=lease)).
    rewrite <- Hr, <- inv_owned0. remember (delete k (releasing w)) as rest. rewrite Hp.
    unfold held. solve_Permutation.
  - rewrite Hr in inv_nodup0. cbn in inv_nodup0. by apply NoDup_cons in inv_nodup0 as [_ ?].
  - destruct inv_next0 as [Hf ?]. split; [|lia]. rewrite Hr in Hf. by apply Forall_cons in Hf as [_ ?].
  - rewrite (zlen_Permutation _ _ Hr) in inv_strong0. unfold zlen in *. cbn [length] in inv_strong0. lia.
  - lia.
  - auto.
Qed.

Lemma step_inv n w e w' : n < U64_MAX -> Inv n w -> step w e = Some w' -> Inv (n + 1) w'.
Proof.
  intros Hn H. assert (Hm : Inv (n + 1) w) by (eapply Inv_mono, H; lia).
  destruct e as [| | |stream dev rec|j write|k|j k|k|j|j ok|j|k|k|]; cbn [step]; intros Hs.
  - destruct (0 <? handles w); [|done]. injection Hs as <-. by apply clone_handle_inv.
  - destruct (Z.ltb_spec 0 (handles w)); [|done]. injection Hs as <-. by apply drop_handle_inv.
  - injection Hs as <-. by apply other_access_inv.
  - injection Hs as <-. by apply new_submission_inv.
  - apply bind_Some in Hs as (s & Hj & Hs). destruct (sub_alive s); [|done]. injection Hs as <-.
    destruct (retain_begin j s write w) eqn:E; [|done..]. by eapply retain_begin_inv.
  - apply bind_Some in Hs as ([j lease] & Hk & Hs). apply bind_Some in Hs as (s & Hj & Hs). injection Hs as <-.
    by apply retain_end_inv.
  - apply bind_Some in Hs as (s & Hj & Hs). apply bind_Some in Hs as (ls & Ho & Hs). apply bind_Some in Hs as (lease & Hk & Hs).
    injection Hs as <-. by eapply enqueue_inv.
  - apply bind_Some in Hs as (a & Hk & Hs). injection Hs as <-. by apply work_done_inv.
  - apply bind_Some in Hs as (s & Hj & Hs). destruct (finished _ _) eqn:Hf; [|done]. injection Hs as <-. by apply complete_inv.
  - apply bind_Some in Hs as (s & Hj & Hs). destruct (_ && _) eqn:Hg; [|done]. apply andb_true_iff in Hg as [_ Hg].
    pose proof (drop_submission_inv _ _ _ _ _ Hm Hj Hg) as Hi. destruct (drop_submission s ok) as [[dr lk] s']. by injection Hs as <-.
  - apply bind_Some in Hs as (s & Hj & Hs). pose proof (adopt_capture_inv _ _ _ _ Hm Hj) as Hi. cbn in Hs, Hi.
    destruct (adopt_capture _ _) as [kept drp]. by injection Hs as <-.
  - apply bind_Some in Hs as (a & Hk & Hs). injection Hs as <-. by apply drop_graph_inv.
  - apply bind_Some in Hs as (a & Hk & Hs). injection Hs as <-. by apply release_access_step_inv.
  - destruct (Z.ltb_spec 0 (dropping w)); [|done]. injection Hs as <-. by apply drop_lease_inv.
Qed.

Lemma run_inv n w es w' : Inv n w -> n + zlen es <= U64_MAX -> run w es = Some w' -> Inv (n + zlen es) w'.
Proof.
  revert n w. induction es as [|e es IH]; intros n w H Hn Hr; unfold zlen in *; cbn in *.
  - injection Hr as <-. eapply Inv_mono, H. lia.
  - apply bind_Some in Hr as (w1 & H1 & Hr). eapply (Inv_mono (n + 1 + Z.of_nat (length es))); [lia|].
    eapply (IH (n + 1) w1); [eapply step_inv; [|done..]; lia|lia|done].
Qed.

Lemma Storage_new_inv dev first : 0 <= first -> Inv first (Storage_new dev first).
Proof. intros Hf. split; cbn; try done; try lia; try apply NoDup_nil_2; set_solver. Qed.

(** *** What a graph reacquires *)

Section adopt_spec.
Context {R : Type} (f : R -> Z * bool).

(** Some resource of the list writes the storage. *)
Definition writes (s : Z) (l : list R) : bool := existsb (fun x => ((f x).1 =? s) && (f x).2) l.

Record adopted (index : gmap Z nat) (cap seen : list R) : Prop := {
  ad_index : forall s i, index !! s = Some i <-> exists r, cap !! i = Some r /\ (f r).1 = s;
  ad_seen : forall s, s ∈ (fst ∘ f <$> seen) -> is_Some (index !! s);
  ad_writes : forall r, r ∈ cap -> (f r).2 = writes (f r).1 seen;
  ad_sub : cap ⊆ seen }.

Lemma writes_snoc s l x : writes s (l ++ [x]) = writes s l || ((f x).1 =? s) && (f x).2.
Proof. unfold writes. rewrite existsb_app. cbn. by rewrite orb_false_r. Qed.

Lemma adopted_unique index cap seen i j r r' : adopted index cap seen -> cap !! i = Some r -> cap !! j = Some r' ->
  (f r).1 = (f r').1 -> i = j.
Proof.
  intros H Hi Hj E. assert (index !! (f r).1 = Some i) by (apply (ad_index _ _ _ H); eauto).
  assert (index !! (f r).1 = Some j) by (apply (ad_index _ _ _ H); eauto). congruence.
Qed.

(** A storage not seen before. *)
Lemma adopted_new index cap seen x : adopted index cap seen -> index !! (f x).1 = None ->
  adopted (<[(f x).1 := length cap]> index) (cap ++ [x]) (seen ++ [x]).
Proof.
  intros H Hn. assert (Hfresh : forall i r, cap !! i = Some r -> (f r).1 <> (f x).1).
  { intros i r Hi E. assert (index !! (f x).1 = Some i) by (apply (ad_index _ _ _ H); eauto). congruence. }
  split.
  - intros s i. rewrite lookup_insert_Some. split.
    + intros [[<- <-]|[Hne Hi]]; [exists x; by rewrite list_lookup_middle|].
      apply (ad_index _ _ _ H) in Hi as (r & Hr & <-). exists r. by rewrite lookup_app_l by (by eapply lookup_lt_Some).
    + intros (r & Hr & <-). apply lookup_app_Some in Hr as [Hr|[Hi Hr]].
      * right. split; [intros E; by eapply Hfresh|]. apply (ad_index _ _ _ H). eauto.
      * left. apply list_lookup_singleton_Some in Hr as [Hi0 <-]. split; [done|lia].
  - intros s. rewrite fmap_app, elem_of_app, lookup_insert_is_Some'. intros [Hs|Hs].
    + right. by apply (ad_seen _ _ _ H).
    + left. cbn in Hs. by apply list_elem_of_singleton in Hs.
  - intros r [Hr| ->%list_elem_of_singleton]%elem_of_app; rewrite writes_snoc.
    + pose proof (ad_writes _ _ _ H r Hr) as ->. apply list_elem_of_lookup in Hr as [i Hi].
      destruct (Z.eqb_spec (f x).1 (f r).1) as [E|]; [|by rewrite orb_false_r]. by destruct (Hfresh i r Hi).
    + rewrite Z.eqb_refl. cbn. destruct (writes (f x).1 seen) eqn:E; [|done]. exfalso.
      apply existsb_exists in E as (y & Hy & E). apply andb_true_iff in E as [E%Z.eqb_eq _].
      destruct (ad_seen _ _ _ H (f x).1) as [i Hi]; [|congruence]. apply list_elem_of_fmap. exists y.
      split; [by rewrite <- E|by apply list_elem_of_In].
  - pose proof (ad_sub _ _ _ H). set_solver.
Qed.

(** A storage seen before: the writing resource is kept. *)
Lemma adopted_again index cap seen x i old : adopted index cap seen -> index !! (f x).1 = Some i -> cap !! i = Some old ->
  adopted index (if (f x).2 && negb (f old).2 then <[i:=x]> cap else cap) (seen ++ [x]).
Proof.
  intros H Hi Hold. pose proof (lookup_lt_Some _ _ _ Hold) as Hlt.
  assert (Eo : (f old).1 = (f x).1).
  { apply (ad_index _ _ _ H) in Hi as (r & Hr & <-). congruence. }
  assert (Hseen : forall s, s ∈ (fst ∘ f <$> (seen ++ [x])) -> is_Some (index !! s)).
  { intros s. rewrite fmap_app, elem_of_app. intros [Hs|Hs]; [by apply (ad_seen _ _ _ H)|].
    cbn in Hs. apply list_elem_of_singleton in Hs as ->. by eexists. }
  assert (Hother : forall j r, cap !! j = Some r -> j <> i -> (f r).2 = writes (f r).1 (seen ++ [x])).
  { intros j r Hj Hne. rewrite writes_snoc, <- (ad_writes _ _ _ H r) by (by eapply list_elem_of_lookup_2).
    destruct (Z.eqb_spec (f x).1 (f r).1) as [E|]; [|by rewrite orb_false_r].
    destruct Hne. eapply adopted_unique; [done..|congruence]. }
  assert (Hw : writes (f x).1 (seen ++ [x]) = (f old).2 || (f x).2).
  { rewrite writes_snoc, Z.eqb_refl, <- Eo, <- (ad_writes _ _ _ H old) by (by eapply list_elem_of_lookup_2). done. }
  destruct ((f x).2 && negb (f old).2) eqn:Eb; split; try done.
  - intros s j. rewrite (ad_index _ _ _ H). destruct (decide (j = i)) as [->|].
    + rewrite list_lookup_insert_eq, Hold by done. split; intros (r & [= <-] & <-); eauto.
    + by rewrite list_lookup_insert_ne by done.
  - intros r [j Hj]%list_elem_of_lookup. apply list_lookup_insert_Some in Hj as [(<- & <- & _)|[Hne Hj]]; [|by eapply Hother].
    rewrite Hw. apply andb_true_iff in Eb as [-> _]. by rewrite orb_true_r.
  - pose proof (ad_sub _ _ _ H) as Hs. intros r [j Hj]%list_elem_of_lookup. apply elem_of_app.
    apply list_lookup_insert_Some in Hj as [(_ & <- & _)|[_ Hj]]; [right; by apply list_elem_of_singleton|].
    left. apply Hs. by eapply list_elem_of_lookup_2.
  - apply (ad_index _ _ _ H).
  - intros r [j Hj]%list_elem_of_lookup. destruct (decide (j = i)) as [->|Hne]; [|by eapply Hother].
    rewrite Hold in Hj. injection Hj as <-. rewrite Eo, Hw. destruct (f x).2, (f old).2; done.
  - pose proof (ad_sub _ _ _ H). set_solver.
Qed.

Lemma adopt_loop_spec rec : forall index cap drp seen, adopted index cap seen ->
  exists index', adopted index' (adopt_loop f index cap drp rec).1 (seen ++ rec).
Proof.
  induction rec as [|x rec IH]; intros index cap drp seen H; [exists index; by rewrite app_nil_r|].
  cbn [adopt_loop]. rewrite (cons_middle x seen rec), (assoc_L (++)). destruct (f x) as [s wr] eqn:Ex.
  destruct (index !! s) as [i|] eqn:Ei.
  - pose proof Ei as Hi. apply (ad_index _ _ _ H) in Hi as (old & Hold & _). rewrite Hold.
    pose proof (adopted_again index cap seen x i old H) as Ha. rewrite Ex in Ha. specialize (Ha Ei Hold). cbn [snd] in Ha.
    destruct (wr && negb (f old).2); by eapply IH.
  - pose proof (adopted_new index cap seen x H) as Ha. rewrite Ex in Ha. eapply IH, Ha, Ei.
Qed.
End adopt_spec.

(** ** Theorems *)

Lemma strong_owners n w : Inv n w -> strong w = handles w + zlen (held w) + zlen (releasing w) + dropping w.
Proof.
  intros H. rewrite (inv_strong _ _ H), <- (zlen_Permutation _ _ (inv_owned _ _ H)).
  unfold owned, zlen. rewrite !length_app, length_fmap. lia.
Qed.

Lemma executing_held w a : a ∈ executing w -> a ∈ held w.
Proof. unfold executing, held. set_solver. Qed.

(** C16: Freedom from device data races. However threads interleave cloning and dropping handles, retaining,
    enqueueing, completing and dropping submissions, capturing and dropping graphs, and releasing leases, two
    pieces of device work in flight on different streams never conflict on the storage: neither of them writes.
    And the allocation is alive (its strong count is positive) while any work is in flight. The run starts from a
    new storage and is shorter than the range of the 64-bit id counter. *)
Theorem no_conflicting_work (dev first : Z) (es : list Event) (w : World)
    (Hrun : run (Storage_new dev first) es = Some w) (Hfirst : 0 <= first) (Hlen : first + zlen es <= U64_MAX) :
  forall a b, a ∈ inflight w -> b ∈ inflight w ->
    0 < strong w /\ (a_stream a <> a_stream b -> a_write a = false /\ a_write b = false).
Proof.
  pose proof (run_inv first _ es w (Storage_new_inv dev first Hfirst) Hlen Hrun) as H. intros a b Ha Hb.
  destruct (inv_inflight _ _ H a Ha) as [Hea Hra], (inv_inflight _ _ H b Hb) as [Heb Hrb].
  assert (Hacc : forall x, x ∈ executing w -> x ∈ accesses w).
  { intros x Hx%executing_held. rewrite <- (inv_owned _ _ H). unfold owned. set_solver. }
  split.
  - rewrite (strong_owners _ _ H). pose proof (inv_nonneg _ _ H). apply executing_held in Hea. unfold zlen.
    destruct (held w); [by apply not_elem_of_nil in Hea|]. cbn [length]. lia.
  - intros Hs. by apply (inv_compatible _ _ H a b); auto.
Qed.

(** Two readers on different streams, then a writer that has to wait for them. *)
Definition readers_then_writer : list Event :=
  [CloneHandle; NewSubmission 1 0 false; NewSubmission 2 0 false; RetainBegin 0 false; RetainBegin 1 false;
   RetainEnd 1; RetainEnd 0; Enqueue 0 0; Enqueue 1 0; RetainBegin 1 true].

Definition two_reads : World := Eval vm_compute in
  match run (Storage_new 0 1) readers_then_writer with Some w => w | None => Storage_new 0 1 end.

Lemma no_conflicting_work_witness :
  run (Storage_new 0 1) readers_then_writer = Some two_reads /\
  forall a b, a ∈ inflight two_reads -> b ∈ inflight two_reads ->
    0 < strong two_reads /\ (a_stream a <> a_stream b -> a_write a = false /\ a_write b = false).
Proof.
  split; [vm_compute; reflexivity|].
  apply (no_conflicting_work 0 1 readers_then_writer two_reads);
    [vm_compute; reflexivity|lia|vm_compute; discriminate].
Defined.

(** What [is_unique] promises. When no [retain] call is between its registration and its clone of the [Arc],
    a storage reported unique has at most one handle, however many accesses are registered or being released; and a
    storage with one handle and no lease half-way through its release is reported unique. *)
Lemma unique_storage_has_one_handle (dev first : Z) (es : list Event) (w : World)
    (Hrun : run (Storage_new dev first) es = Some w) (Hfirst : 0 <= first) (Hlen : first + zlen es <= U64_MAX)
    (Hacq : acquiring w = []) :
  (is_unique w = true -> handles w <= 1) /\ (handles w = 1 -> dropping w = 0 -> is_unique w = true).
Proof.
  pose proof (run_inv first _ es w (Storage_new_inv dev first Hfirst) Hlen Hrun) as H.
  pose proof (inv_strong _ _ H) as Hs. rewrite Hacq in Hs. pose proof (inv_nonneg _ _ H). unfold is_unique.
  change (zlen (@nil (nat * StorageAccess))) with 0 in Hs. rewrite Z.eqb_eq. split; lia.
Qed.

Lemma unique_storage_has_one_handle_witness :
  run (Storage_new 0 1) (readers_then_writer ++ [DropHandle]) <> None /\
  (forall w, run (Storage_new 0 1) (readers_then_writer ++ [DropHandle]) = Some w -> acquiring w = [] /\
    (is_unique w = true -> handles w <= 1) /\ (handles w = 1 -> dropping w = 0 -> is_unique w = true)).
Proof.
  split; [vm_compute; discriminate|]. intros w Hw. assert (Hacq : acquiring w = []).
  { vm_compute in Hw. injection Hw as <-. reflexivity. }
  split; [exact Hacq|].
  exact (unique_storage_has_one_handle 0 1 _ w Hw ltac:(lia) ltac:(vm_compute; discriminate) Hacq).
Defined.

(** Between the registration and the clone of the [Arc] the entry is counted
    and the [Arc] is not: with two handles the storage is reported unique. *)
Lemma retain_hides_an_alias :
  exists w, run (Storage_new 0 1) [CloneHandle; NewSubmission 1 0 false; RetainBegin 0 false] = Some w /\
    handles w = 2 /\ is_unique w = true.
Proof. eexists. split; [vm_compute; reflexivity|]. by split. Qed.

(** What a graph reacquires on each replay. Of the resources recorded during a capture the graph keeps
    exactly one for every storage, and the kept resource writes exactly if some recorded resource of that storage
    does; every other resource is dropped, none is lost. *)
Lemma adopt_capture_one_per_storage {R : Type} (replay_identity : R -> Z * bool) (recorded : list R) :
  let kept := (adopt_capture replay_identity recorded).1 in
  NoDup (fst ∘ replay_identity <$> kept) /\
  (forall s, s ∈ (fst ∘ replay_identity <$> kept) <-> s ∈ (fst ∘ replay_identity <$> recorded)) /\
  (forall r, r ∈ kept -> (replay_identity r).2 = writes replay_identity (replay_identity r).1 recorded) /\
  kept ++ (adopt_capture replay_identity recorded).2 ≡ₚ recorded.
Proof.
  cbn zeta. destruct (adopt_loop_spec replay_identity recorded ∅ [] [] []) as [index H].
  { split; [|set_solver..]. intros s i. split; [by rewrite lookup_empty|]. by intros (r & ? & ?). }
  rewrite app_nil_l in H. fold (adopt_capture replay_identity recorded) in H. split_and!.
  - apply NoDup_alt. intros i j s Hi Hj. rewrite list_lookup_fmap in Hi, Hj.
    apply fmap_Some in Hi as (r & Hi & ->), Hj as (r' & Hj & E). by eapply adopted_unique.
  - intros s. split.
    + intros (r & -> & Hr)%list_elem_of_fmap. apply list_elem_of_fmap. exists r. split; [done|]. by apply (ad_sub _ _ _ _ H).
    + intros Hs. destruct (ad_seen _ _ _ _ H s Hs) as [i Hi]. apply (ad_index _ _ _ _ H) in Hi as (r & Hr & <-).
      apply list_elem_of_fmap. exists r. split; [done|by eapply list_elem_of_lookup_2].
  - apply (ad_writes _ _ _ _ H).
  - apply adopt_capture_Permutation.
Qed.
