(* ===== verification/KernelArgs.v ===== *)
(** * Marshalling of kernel arguments

    cuda-async/src/launch.rs (the argument arena of a launch), the scalar types
    of cuda-core/src/dtype.rs, [push_kernel_args] of cutile/src/tensor.rs, and
    the marshalling statements cutile-macro/src/kernel_launcher_generator.rs
    generates for an entry point, with the layouts of cutile/src/plan.rs that
    a plan records for them.  A value of a scalar type is its bytes, read as an
    unsigned number (the host is little-endian). *)

From Stdlib Require Import Ascii.
From S2P Require Import Prelude Errors Text Encoding Specialization Launch Tensor.
Local Open Scope Z_scope.

(** ** Scalar types (dtype.rs) *)

Module DTypeId.
Inductive t :=
| Bool | U8 | U16 | U32 | U64 | I8 | I16 | I32 | I64
| F16 | BF16 | F32 | TF32 | F64 | F8E4M3FN | F8E5M2 | F8E8M0FNU | F8E5M3FNU | F4E2M1FNX2.

#[global] Instance eq_dec : EqDecision t.
Proof. solve_decision. Defined.

Definition as_str (d : t) : string :=
  match d with
  | Bool => "bool" | U8 => "u8" | U16 => "u16" | U32 => "u32" | U64 => "u64"
  | I8 => "i8" | I16 => "i16" | I32 => "i32" | I64 => "i64"
  | F16 => "f16" | BF16 => "bf16" | F32 => "f32" | TF32 => "tf32" | F64 => "f64"
  | F8E4M3FN => "f8e4m3fn" | F8E5M2 => "f8e5m2" | F8E8M0FNU => "f8e8m0fnu" | F8E5M3FNU => "f8e5m3fnu"
  | F4E2M1FNX2 => "f4e2m1fnx2"
  end%string.

Definition size_in_bytes (d : t) : Z :=
  match d with
  | Bool | U8 | I8 => 1
  | U16 | I16 | F16 | BF16 => 2
  | U32 | I32 | F32 | TF32 => 4
  | U64 | I64 | F64 => 8
  | F8E4M3FN | F8E5M2 | F8E8M0FNU | F8E5M3FNU | F4E2M1FNX2 => 1
  end.

Definition is_signed (d : t) : bool := match d with I8 | I16 | I32 | I64 => true | _ => false end.
End DTypeId.

Record Scalar := mkScalar { dtype : DTypeId.t; bits : Z }.

Definition scalar_ok (s : Scalar) : Prop := 0 <= bits s < 2 ^ (8 * DTypeId.size_in_bytes (dtype s)).

(** The number an integer scalar stands for, and [value as i32]. *)
Definition scalar_value (s : Scalar) : Z :=
  if DTypeId.is_signed (dtype s) then as_signed (8 * DTypeId.size_in_bytes (dtype s)) (bits s) else bits s.
Definition scalar_as_i32 (s : Scalar) : Z := as_i32 (scalar_value s).

(** ** The argument arena (launch.rs) *)

Definition SLOT : Z := 16.

Record KernelArgStorage := mkArgs { values : list Z; offsets : list nat }.

Definition args_default : KernelArgStorage := mkArgs [] [].

(** A value of [size] bytes over [slots] zeroed slots. *)
Definition slot_words (slots : nat) (b : Z) : list Z :=
  (fun i => Z.shiftr b (128 * Z.of_nat i) mod 2 ^ 128) <$> seq 0 slots.

Definition push (size b : Z) (s : KernelArgStorage) : KernelArgStorage :=
  let slots := Z.to_nat (Z.max ((size + SLOT - 1) / SLOT) 1) in
  let offset := length (values s) in
  mkArgs (values s ++ slot_words slots b) (offsets s ++ [offset]).

(** The parameter pointers over an arena at address [arena]. *)
Definition as_mut_slice (arena : Z) (s : KernelArgStorage) : list Z :=
  (fun o => arena + SLOT * Z.of_nat o) <$> offsets s.

Record LaunchConfig := mkLaunchConfig { grid_dim : Grid; block_dim : Grid; shared_mem_bytes : Z }.
#[export] Instance LaunchConfig_eq_dec : EqDecision LaunchConfig.
Proof. solve_decision. Defined.

(** A function is identified by the id of its loaded instance. *)
Record AsyncKernelLaunch := mkLaunch {
  func : Z; args : KernelArgStorage; cfg : option LaunchConfig; programmatic_dependent_launch : bool }.

Definition launch_new (func : Z) : AsyncKernelLaunch := mkLaunch func args_default None false.

Definition push_arg_raw (size b : Z) (l : AsyncKernelLaunch) : AsyncKernelLaunch :=
  mkLaunch (func l) (push size b (args l)) (cfg l) (programmatic_dependent_launch l).

Definition push_arg (s : Scalar) : AsyncKernelLaunch -> AsyncKernelLaunch :=
  push_arg_raw (DTypeId.size_in_bytes (dtype s)) (bits s).
Definition push_device_ptr (ptr : Z) : AsyncKernelLaunch -> AsyncKernelLaunch := push_arg_raw 8 ptr.

Definition arg_count (l : AsyncKernelLaunch) : nat := length (offsets (args l)).

Definition set_launch_config (c : LaunchConfig) (l : AsyncKernelLaunch) : AsyncKernelLaunch :=
  mkLaunch (func l) (args l) (Some c) (programmatic_dependent_launch l).
Definition opt_in_dependent_launch (l : AsyncKernelLaunch) : AsyncKernelLaunch := mkLaunch (func l) (args l) (cfg l) true.

(** What reaches the driver: the function, the launch configuration and the
    arena the parameter pointers point into. *)
Record DriverCall := mkDriverCall {
  dc_func : Z; dc_cfg : LaunchConfig; dc_dependent : bool; dc_values : list Z; dc_offsets : list nat }.

(** The number in an architecture's name, [0] if it has none. *)
Definition sm_number (architecture : string) : Z :=
  if starts_with "sm_" architecture then
    default 0 (parse_int 0 U32_MAX (trim_end_matches (fun c => bool_decide (c = "a"%char \/ c = "f"%char)) (str_drop 3 architecture)))
  else 0.

(** [architecture] is the driver's answer for the stream's device. *)
Definition launch (l : AsyncKernelLaunch) (architecture : outcome DeviceError string) : outcome DeviceError DriverCall :=
  match cfg l with
  | None => Err (LaunchFailed "Await called before launching the kernel.")
  | Some c =>
      let call := mkDriverCall (func l) c (programmatic_dependent_launch l) (values (args l)) (offsets (args l)) in
      if programmatic_dependent_launch l then
        a ← architecture;
        if sm_number a <? 90
        then Err (LaunchFailed ("programmatic dependent launch requires sm_90 or newer; target " +:+ a))
        else Ok call
      else Ok call
  end.

(** ** Tensor arguments (plan.rs, [TensorArg]) *)

Inductive TensorArg :=
| Whole (t : Tensor)
| ViewOf (v : TensorView)
| Output (p : Partition).

Definition ta_tensor (a : TensorArg) : Tensor :=
  match a with Whole t => t | ViewOf v => base v | Output p => object p end.
Definition ta_device_ptr {E} (oc : bool) (a : TensorArg) : outcome E Z :=
  match a with ViewOf v => device_ptr oc v | _ => cu_deviceptr (storage (ta_tensor a)) end.
Definition ta_shape (a : TensorArg) : list Z :=
  match a with ViewOf v => v_shape v | _ => t_shape (ta_tensor a) end.
Definition ta_strides (a : TensorArg) : list Z :=
  match a with ViewOf v => v_strides v | _ => t_strides (ta_tensor a) end.
Definition ta_spec (a : TensorArg) : SpecializationBits :=
  match a with ViewOf v => v_spec v | _ => t_spec (ta_tensor a) end.

Record PartitionLayout := mkPartitionLayout { pl_shape : list Z; pl_strides : list Z; pl_prefix_coverage : bool }.

Definition ta_partition (a : TensorArg) : option PartitionLayout :=
  match a with
  | Output p => Some (mkPartitionLayout (partition_shape p) (partition_strides p) (prefix_coverage p))
  | _ => None
  end.

(** The arguments of a tensor parameter after its pointer, as [i32] values. *)
Definition push_i32s (l : list Z) (k : AsyncKernelLaunch) : AsyncKernelLaunch :=
  foldl (fun k z => push_arg (mkScalar DTypeId.I32 (z mod 2 ^ 32)) k) k l.

Definition push_kernel_args {E} (oc : bool) (a : TensorArg) (k : AsyncKernelLaunch) : outcome E AsyncKernelLaunch :=
  ptr ← ta_device_ptr oc a;
  let k := push_i32s (ta_strides a) (push_i32s (ta_shape a) (push_device_ptr ptr k)) in
  match a with
  | Output p => Ok (push_i32s (as_i32 <$> partition_strides p) (push_i32s (as_i32 <$> partition_shape p) k))
  | _ => Ok k
  end.

(** ** The parameters of a generated launcher *)

(** A scalar carries the type its parameter is declared with, which is a
    type parameter's name for a generic one. *)
Inductive LaunchArg :=
| LTensor (d : DTypeId.t) (a : TensorArg)
| LScalar (type_name : string) (s : Scalar)
| LPointer (d : DTypeId.t) (ptr : Z)
| LMapped (p : MappedLaunchPartition).

Definition push_param {E} (oc : bool) (a : LaunchArg) (k : AsyncKernelLaunch) : outcome E AsyncKernelLaunch :=
  match a with
  | LTensor _ a => push_kernel_args oc a k
  | LScalar _ s => Ok (push_arg s k)
  | LPointer _ ptr => Ok (push_device_ptr ptr k)
  | LMapped p => push_kernel_args oc (Output (mp_partition p)) k
  end.

(** The storage a parameter retains, and whether it is written. *)
Definition param_access (a : LaunchArg) : list (Allocation * bool) :=
  match a with
  | LTensor _ a => [(storage (ta_tensor a), is_some (ta_partition a))]
  | LMapped p => [(storage (object (mp_partition p)), true)]
  | _ => []
  end.

(** The launch-building statements, with the start of every parameter. *)
Fixpoint marshal {E} (oc : bool) (ps : list LaunchArg) (k : AsyncKernelLaunch) : outcome E (AsyncKernelLaunch * list nat) :=
  match ps with
  | [] => Ok (k, [])
  | p :: ps =>
      let start := arg_count k in
      k ← push_param oc p k;
      '(k, starts) ← marshal oc ps k;
      Ok (k, start :: starts)
  end.

(** ** Facts *)

Lemma push_slot size b s : 0 <= size <= 16 -> 0 <= b < 2 ^ 128 ->
  push size b s = mkArgs (values s ++ [b]) (offsets s ++ [length (values s)]).
Proof.
  intros Hs Hb. unfold push, SLOT.
  assert (Hd : 0 <= (size + 16 - 1) / 16 <= 1) by (split; [apply Z.div_pos; lia|apply Z.lt_succ_r, Z.div_lt_upper_bound; lia]).
  replace (Z.to_nat _) with 1%nat by lia. unfold slot_words. cbn [seq fmap list_fmap].
  change (128 * Z.of_nat 0) with 0. by rewrite Z.shiftr_0_r, Z.mod_small.
Qed.

Lemma scalar_fits s : scalar_ok s -> 0 <= bits s < 2 ^ 128.
Proof.
  unfold scalar_ok. intros [H0 H]. split; [done|]. eapply Z.lt_le_trans; [exact H|].
  apply Z.pow_le_mono_r; [lia|]. destruct (dtype s); cbn; lia.
Qed.

Lemma size_in_bytes_range d : 1 <= DTypeId.size_in_bytes d <= 8.
Proof. destruct d; cbn; lia. Qed.

(** Every parameter pointer is aligned for every argument type. *)
Lemma slots_aligned arena s p : (16 | arena) -> p ∈ as_mut_slice arena s -> (16 | p).
Proof.
  intros Ha (o & -> & _)%list_elem_of_fmap. apply Z.divide_add_r; [done|]. unfold SLOT. exists (Z.of_nat o). lia.
Qed.

(** A launch reduced to its arena. *)
Definition appended (k k' : AsyncKernelLaunch) (vs : list Z) : Prop :=
  values (args k') = values (args k) ++ vs /\
  offsets (args k') = offsets (args k) ++ seq (length (values (args k))) (length vs) /\
  func k' = func k /\ cfg k' = cfg k /\ programmatic_dependent_launch k' = programmatic_dependent_launch k.

Lemma appended_nil k : appended k k [].
Proof. unfold appended. by rewrite !app_nil_r. Qed.

Lemma appended_trans k1 k2 k3 v w : appended k1 k2 v -> appended k2 k3 w -> appended k1 k3 (v ++ w).
Proof.
  intros (V1 & O1 & F1 & C1 & D1) (V2 & O2 & F2 & C2 & D2). unfold appended.
  rewrite V2, O2, V1, O1, F2, C2, D2, <- !app_assoc, !length_app, seq_app. done.
Qed.

Lemma appended_push size b k : 0 <= size <= 16 -> 0 <= b < 2 ^ 128 -> appended k (push_arg_raw size b k) [b].
Proof. intros Hs Hb. unfold appended, push_arg_raw. cbn [args]. rewrite push_slot by done. done. Qed.

Definition i32_bits (z : Z) : Z := z mod 2 ^ 32.

Lemma appended_i32s l k : appended k (push_i32s l k) (i32_bits <$> l).
Proof.
  revert k. induction l as [|z l IH]; intros k; [apply appended_nil|]. cbn [push_i32s foldl fmap list_fmap].
  change (i32_bits z :: (i32_bits <$> l)) with ([i32_bits z] ++ (i32_bits <$> l)).
  eapply appended_trans; [|apply IH]. apply appended_push; [cbn; lia|]. cbn [bits]. unfold i32_bits.
  pose proof (Z.mod_pos_bound z (2 ^ 32) ltac:(lia)). lia.
Qed.
