(* ===== verification/Plan.v ===== *)
(** * Launch plans (cutile/src/plan.rs)

    A plan keeps a launch a generated launcher resolved: its function, its
    configuration, and the arguments as they were marshalled.  A replay checks
    that its arguments have the recorded layout, retains their storages, copies
    the recorded arguments and writes only pointers and scalars over them.  The
    file models the layouts, the capture of a plan, safe and raw replay and the
    builder options.  The [Debug] texts in messages are parameters. *)

From S2P Require Import Prelude Errors Predicate Launch Encoding Specialization Tensor Options KernelArgs.
Local Open Scope string_scope.
Local Open Scope list_scope.
Local Open Scope Z_scope.

(** ** Layouts *)

#[export] Instance DivHint_eq_dec : EqDecision DivHint.
Proof. solve_decision. Defined.
#[export] Instance SpecializationBits_eq_dec : EqDecision SpecializationBits.
Proof. solve_decision. Defined.
#[export] Instance PartitionLayout_eq_dec : EqDecision PartitionLayout.
Proof. solve_decision. Defined.

Record TensorLayout := mkTensorLayout {
  tl_dtype : DTypeId.t; tl_device_id : Z; tl_shape : list Z; tl_strides : list Z;
  tl_spec : SpecializationBits; tl_partition : option PartitionLayout }.
#[export] Instance TensorLayout_eq_dec : EqDecision TensorLayout.
Proof. solve_decision. Defined.

Inductive ArgLayout :=
| LayoutTensor (t : TensorLayout)
| LayoutScalar (d : DTypeId.t) (hint : option DivHint)
| LayoutPointer (d : DTypeId.t) (hint : DivHint).
#[export] Instance ArgLayout_eq_dec : EqDecision ArgLayout.
Proof. solve_decision. Defined.

(** A stored layout and the layout borrowed from an argument are the same
    data; the key leaves out the divisibility of a scalar's value. *)
Inductive LayoutKey :=
| KeyTensor (t : TensorLayout)
| KeyScalar (d : DTypeId.t)
| KeyPointer (d : DTypeId.t) (hint : DivHint).
#[export] Instance LayoutKey_eq_dec : EqDecision LayoutKey.
Proof. solve_decision. Defined.

(** [TensorArg::layout] for elements of type [d]. *)
Definition tensor_layout_of (d : DTypeId.t) (a : TensorArg) : TensorLayout :=
  mkTensorLayout d (alloc_device_id (storage (ta_tensor a))) (ta_shape a) (ta_strides a) (ta_spec a) (ta_partition a).

Definition tensor_layout (d : DTypeId.t) (a : TensorArg) : ArgLayout := LayoutTensor (tensor_layout_of d a).

Definition layout_arg_count (l : ArgLayout) : nat :=
  match l with
  | LayoutTensor t =>
      1 + length (tl_shape t) + length (tl_strides t)
      + match tl_partition t with Some p => length (pl_shape p) + length (pl_strides p) | None => 0 end
  | _ => 1
  end.

Definition layout_key (l : ArgLayout) : LayoutKey :=
  match l with
  | LayoutTensor t => KeyTensor t
  | LayoutScalar d _ => KeyScalar d
  | LayoutPointer d h => KeyPointer d h
  end.

(** [plan_layout] of a launcher's parameter; [Err] is [UnsupportedParam]. *)
Definition plan_layout (a : LaunchArg) : outcome string ArgLayout :=
  match a with
  | LTensor d a => Ok (tensor_layout d a)
  | LScalar type_name s =>
      Ok (LayoutScalar (dtype s) (if is_integer_scalar type_name then Some (from_value (scalar_as_i32 s)) else None))
  | LPointer d ptr => Ok (LayoutPointer d (from_ptr ptr))
  | LMapped _ => Err "mapped partition output"
  end%string.

(** ** Arguments of a replay *)

Inductive PlanArg := ATensor (d : DTypeId.t) (a : TensorArg) | AScalar (s : Scalar).

Definition arg_key (a : PlanArg) : LayoutKey :=
  match a with ATensor d a => KeyTensor (tensor_layout_of d a) | AScalar s => KeyScalar (dtype s) end.

(** [PlanScalar::div_hint]: the integer types are hinted. *)
Definition div_hint (s : Scalar) : option DivHint :=
  match dtype s with
  | DTypeId.U8 | DTypeId.U16 | DTypeId.U32 | DTypeId.U64 | DTypeId.I8 | DTypeId.I16 | DTypeId.I32 | DTypeId.I64 =>
      Some (from_value (scalar_as_i32 s))
  | _ => None
  end.

Definition value_hint (a : PlanArg) : option DivHint :=
  match a with ATensor _ _ => None | AScalar s => div_hint s end.

Definition slot_value {E} (oc : bool) (a : PlanArg) : outcome E Z :=
  match a with ATensor _ a => ta_device_ptr oc a | AScalar s => Ok (bits s) end.

Definition arg_access (a : PlanArg) : list (Allocation * bool) :=
  match a with ATensor _ a => [(storage (ta_tensor a), is_some (ta_partition a))] | AScalar _ => [] end.

Definition arg_matches (a : PlanArg) (l : ArgLayout) : bool :=
  bool_decide (arg_key a = layout_key l) &&
  match l with LayoutScalar _ (Some h) => bool_decide (value_hint a = Some h) | _ => true end.

(** ** Builder options *)

Inductive PlanGrid := Inferred | ExplicitGrid (g : Grid) | ConstGrid (g : Grid).
#[export] Instance PlanGrid_eq_dec : EqDecision PlanGrid.
Proof. solve_decision. Defined.

Record PlanOptions := mkPlanOptions { po_grid : PlanGrid; po_generics : option (list string); po_compile_options : CompileOptions }.
#[export] Instance PlanOptions_eq_dec : EqDecision PlanOptions.
Proof. solve_decision. Defined.

Definition options_grid (o : PlanOptions) (g : Grid) : PlanOptions :=
  mkPlanOptions (if bool_decide (g = (0, 0, 0)) then Inferred else ExplicitGrid g) (po_generics o) (po_compile_options o).
Definition options_const_grid (o : PlanOptions) (g : Grid) : PlanOptions :=
  mkPlanOptions (ConstGrid g) (po_generics o) (po_compile_options o).

Definition launcher_grid (o : PlanOptions) : Grid * bool :=
  match po_grid o with Inferred => ((0, 0, 0), false) | ExplicitGrid g => (g, false) | ConstGrid g => (g, true) end.

Definition from_launcher (g : Grid) (const_grid : bool) (generics : option (list string)) (co : CompileOptions) : PlanOptions :=
  mkPlanOptions (if const_grid then ConstGrid g else if bool_decide (g = (0, 0, 0)) then Inferred else ExplicitGrid g) generics co.

(** ** Plans *)

Record PlanParam := mkPlanParam { pp_layout : ArgLayout; pp_slot : nat }.

Record PlanInner := mkPlan {
  kernel : string; function : Z; plan_cfg : LaunchConfig; plan_dependent : bool; device_id : Z; epoch : Z;
  unsafe_entry : bool; options : PlanOptions; plan_values : list Z; plan_offsets : list nat; params : list PlanParam }.

Record CapturedLaunch := mkCaptured {
  cl_launch : AsyncKernelLaunch; cl_kernel : string; cl_epoch : Z; cl_launch_checks : list LaunchCheck;
  cl_layouts : list (outcome string ArgLayout); cl_param_starts : list nat; cl_unsafe_entry : bool; cl_options : PlanOptions }.

Definition pretty_nat (n : nat) : string := pretty (Z.of_nat n).

(** The loop over the parameters; [i] is the index of the first. *)
Fixpoint plan_params (i : nat) (offs : list nat) (starts : list nat) (layouts : list (outcome string ArgLayout))
    : outcome DeviceError (list PlanParam) :=
  match layouts, starts with
  | l :: layouts, start :: starts =>
      match l with
      | Err what => Err (LaunchFailed ("launch plans do not support parameter " +:+ pretty_nat i +:+ " (" +:+ what +:+ ")"))
      | Panic => Panic
      | Ok l =>
          let end_ := match starts with s :: _ => s | [] => length offs end in
          if negb ((start <=? end_)%nat && (end_ - start =? layout_arg_count l)%nat)
          then Err (Internal ("planned launch marshalled parameter " +:+ pretty_nat i +:+ " as arguments "
                              +:+ pretty_nat start +:+ ".." +:+ pretty_nat end_ +:+ "; its layout accounts for "
                              +:+ pretty_nat (layout_arg_count l)))
          else match offs !! start with
          | None => Err (Internal ("planned launch has no argument " +:+ pretty_nat start +:+ " for parameter " +:+ pretty_nat i))
          | Some slot => ps ← plan_params (S i) offs starts layouts; Ok (mkPlanParam l slot :: ps)
          end
      end
  | _, _ => Ok []
  end.

Definition from_launch (ctx_device : Z) (c : CapturedLaunch) : outcome DeviceError PlanInner :=
  match List.find (fun check => negb (forallb fixed_by_plan (pred_atoms (lc_predicate check)))) (cl_launch_checks c) with
  | Some check =>
      Err (LaunchFailed ("launch plans do not support this kernel: a launch check depends on more "
                         +:+ "than argument layouts and the grid (" +:+ lc_cause check +:+ ")"))
  | None =>
      let l := cl_launch c in
      let vs := values (args l) in
      let offs := offsets (args l) in
      match cfg l with
      | None => Err (Internal "planned launch has no launch config")
      | Some conf =>
          match List.find (fun o => (length vs <=? o)%nat) offs with
          | Some o => Err (Internal ("planned launch has an argument at slot " +:+ pretty_nat o +:+ " of " +:+ pretty_nat (length vs)))
          | None =>
              if negb (length (cl_param_starts c) =? length (cl_layouts c))%nat
              then Err (Internal ("planned launch recorded " +:+ pretty_nat (length (cl_param_starts c))
                                  +:+ " parameter starts for " +:+ pretty_nat (length (cl_layouts c)) +:+ " parameters"))
              else if negb (default (length offs) (head (cl_param_starts c)) =? 0)%nat
              then Err (Internal "planned launch has arguments outside every parameter")
              else
                ps ← plan_params 0 offs (cl_param_starts c) (cl_layouts c);
                Ok (mkPlan (cl_kernel c) (func l) conf (programmatic_dependent_launch l) ctx_device (cl_epoch c)
                      (cl_unsafe_entry c) (cl_options c) vs offs ps)
          end
      end
  end.

(** ** The sink of a launcher in plan mode *)

Definition capture (ctx_device : Z) (c : CapturedLaunch) (sink : option PlanInner) : outcome DeviceError unit * option PlanInner :=
  match from_launch ctx_device c with
  | Ok p => (Ok tt, Some p)
  | Err e => (Err e, sink)
  | Panic => (Panic, sink)
  end.

Definition take_plan (path : string) (sink : option PlanInner) : outcome DeviceError PlanInner :=
  match sink with
  | None => Err (LaunchFailed "the launcher finished without resolving a launch")
  | Some p =>
      if negb (bool_decide (kernel p = path))
      then Err (Internal ("a plan of `" +:+ kernel p +:+ "` was finished as a plan of `" +:+ path +:+ "`"))
      else Ok p
  end.

Definition finish (path : string) (sink : option PlanInner) : outcome DeviceError PlanInner :=
  p ← take_plan path sink;
  if unsafe_entry p || plan_dependent p
  then Err (Internal ("a plan of `" +:+ kernel p +:+ "` needs an unsafe launch but was built as `Safe`"))
  else Ok p.

Definition finish_unchecked (path : string) (sink : option PlanInner) : outcome DeviceError PlanInner := take_plan path sink.

(** ** Replay *)

Section replay.
(** The [Debug] texts of layouts and raw arguments. *)
Context (debug_layout : ArgLayout -> string).

(** [PlanInner::matches] and [PlanInner::check]. The types of a kernel's plan
    admit one argument per parameter. *)
Fixpoint args_match (ps : list PlanParam) (as_ : list PlanArg) : bool :=
  match as_, ps with
  | [], _ => true
  | a :: as_, p :: ps => arg_matches a (pp_layout p) && args_match ps as_
  | _ :: _, [] => false
  end.

Fixpoint check_args (i : nat) (ps : list PlanParam) (as_ : list PlanArg) : outcome DeviceError unit :=
  match as_, ps with
  | [], _ => Ok tt
  | a :: as_, p :: ps =>
      if arg_matches a (pp_layout p) then check_args (S i) ps as_
      else Err (LaunchFailed ("argument " +:+ pretty_nat i +:+ " does not match the layout the plan was built for: "
                              +:+ debug_layout (pp_layout p)))
  | _ :: _, [] => Panic
  end.

(** [values[slot] = v], which panics out of range. *)
Definition write_slot (slot : nat) (v : Z) (vs : list Z) : outcome DeviceError (list Z) :=
  if (slot <? length vs)%nat then Ok (<[slot := v]> vs) else Panic.

Fixpoint write_args (oc : bool) (ps : list PlanParam) (as_ : list PlanArg) (vs : list Z) : outcome DeviceError (list Z) :=
  match as_, ps with
  | [], _ => Ok vs
  | a :: as_, p :: ps => v ← slot_value oc a; vs ← write_slot (pp_slot p) v vs; write_args oc ps as_ vs
  | _ :: _, [] => Panic
  end.

(** [submit]: the copy is on the stack or on the heap. *)
Definition submit (p : PlanInner) (write : list Z -> outcome DeviceError (list Z)) : outcome DeviceError DriverCall :=
  vs ← write (plan_values p);
  Ok (mkDriverCall (function p) (plan_cfg p) (plan_dependent p) vs (plan_offsets p)).

(** Accesses registered in order, up to the first refusal. *)
Fixpoint retain_each (retain : Allocation * bool -> outcome DeviceError unit) (l : list (Allocation * bool))
    : list (Allocation * bool) * outcome DeviceError unit :=
  match l with
  | [] => ([], Ok tt)
  | x :: l =>
      match retain x with
      | Ok _ => let '(done, r) := retain_each retain l in (x :: done, r)
      | Err e => ([], Err e)
      | Panic => ([], Panic)
      end
  end.

(** [PlannedLaunch::execute]: the accesses it registered and its result.
    [keep_function] is the answer to retaining the function, which recording
    a graph cannot refuse. *)
Definition execute_planned (oc : bool) (retain : Allocation * bool -> outcome DeviceError unit)
    (keep_function : outcome DeviceError unit) (recording : bool) (ctx_device : Z) (pending : bool)
    (p : PlanInner) (as_ : list PlanArg) : list (Allocation * bool) * outcome DeviceError DriverCall :=
  if negb (ctx_device =? device_id p)
  then ([], Err (LaunchFailed ("launch plan was built for device " +:+ pretty (device_id p)
                               +:+ ", the stream is on device " +:+ pretty ctx_device)))
  else match (if pending then check_args 0 (params p) as_ else Ok tt) with
  | Err e => ([], Err e)
  | Panic => ([], Panic)
  | Ok _ =>
      let '(held, r) := retain_each retain (as_ ≫= arg_access) in
      (held, _ ← r; _ ← (if recording then Ok tt else keep_function); submit p (write_args oc (params p) as_))
  end.

(** ** Raw replay *)

Inductive RawArg := RawPtr (ptr : Z) | RawScalar (d : DTypeId.t) (hint : option DivHint) (b : Z).

Definition raw_scalar (s : Scalar) : RawArg := RawScalar (dtype s) (div_hint s) (bits s).

Context (debug_raw : RawArg -> string).

Definition is_multiple_of (z d : Z) : bool := if d =? 0 then z =? 0 else z mod d =? 0.

Definition raw_ok (l : ArgLayout) (a : RawArg) : bool :=
  match l, a with
  | LayoutTensor t, RawPtr p => is_multiple_of p (dh_divisor (base_ptr_div (tl_spec t)))
  | LayoutPointer _ h, RawPtr p => is_multiple_of p (dh_divisor h)
  | LayoutScalar d h, RawScalar d' raw _ =>
      bool_decide (d = d') &&
      match h with
      | None => true
      | Some h => match raw with Some r => dh_divisor h <=? dh_divisor r | None => false end
      end
  | _, _ => false
  end.

Fixpoint check_raw_args (i : nat) (ps : list PlanParam) (as_ : list RawArg) : outcome DeviceError unit :=
  match ps, as_ with
  | p :: ps, a :: as_ =>
      if raw_ok (pp_layout p) a then check_raw_args (S i) ps as_
      else Err (LaunchFailed ("raw argument " +:+ pretty_nat i +:+ " (" +:+ debug_raw a
                              +:+ ") does not satisfy the plan's layout " +:+ debug_layout (pp_layout p)))
  | _, _ => Ok tt
  end.

Definition check_raw (p : PlanInner) (stream_device : Z) (as_ : list RawArg) : outcome DeviceError unit :=
  if negb (length as_ =? length (params p))%nat
  then Err (LaunchFailed ("launch plan takes " +:+ pretty_nat (length (params p)) +:+ " arguments, got " +:+ pretty_nat (length as_)))
  else if negb (stream_device =? device_id p)
  then Err (LaunchFailed ("launch plan was built for device " +:+ pretty (device_id p)
                          +:+ ", the stream is on device " +:+ pretty stream_device))
  else check_raw_args 0 (params p) as_.

Definition raw_bits (a : RawArg) : Z := match a with RawPtr p => p | RawScalar _ _ b => b end.

Fixpoint write_raw (ps : list PlanParam) (as_ : list RawArg) (vs : list Z) : outcome DeviceError (list Z) :=
  match ps, as_ with
  | p :: ps, a :: as_ => vs ← write_slot (pp_slot p) (raw_bits a) vs; write_raw ps as_ vs
  | _, _ => Ok vs
  end.

Definition launch_raw (p : PlanInner) (stream_device : Z) (as_ : list RawArg) : outcome DeviceError DriverCall :=
  _ ← check_raw p stream_device as_; submit p (write_raw (params p) as_).
End replay.

(** ** What marshalling appends *)

(** The arguments of a parameter after its pointer or scalar. *)
Definition layout_tail (l : ArgLayout) : list Z :=
  match l with
  | LayoutTensor t =>
      (i32_bits <$> tl_shape t) ++ (i32_bits <$> tl_strides t) ++
      match tl_partition t with
      | Some p => (i32_bits <$> (as_i32 <$> pl_shape p)) ++ (i32_bits <$> (as_i32 <$> pl_strides p))
      | None => []
      end
  | _ => []
  end.

Lemma layout_arg_count_tail l : layout_arg_count l = S (length (layout_tail l)).
Proof.
  destruct l as [[? ? sh st ? [[]|]]| |]; cbn; [..|done|done];
    repeat rewrite ?length_app, ?length_fmap; cbn; lia.
Qed.

(** The first argument of a parameter. *)
Definition head_value {E} (oc : bool) (a : LaunchArg) : outcome E Z :=
  match a with
  | LTensor _ a => ta_device_ptr oc a
  | LScalar _ s => Ok (bits s)
  | LPointer _ ptr => Ok ptr
  | LMapped p => ta_device_ptr oc (Output (mp_partition p))
  end.

(** The pointers and scalars are those of their machine types. *)
Definition param_ok (oc : bool) (a : LaunchArg) : Prop :=
  match a with
  | LScalar _ s => scalar_ok s
  | _ => forall ptr, head_value (E:=DeviceError) oc a = Ok ptr -> in_u64 ptr
  end.

Lemma u64_fits z : in_u64 z -> 0 <= z < 2 ^ 128.
Proof. unfold_int. lia. Qed.

Lemma push_kernel_args_image oc a d k k' :
  (forall ptr, ta_device_ptr (E:=DeviceError) oc a = Ok ptr -> in_u64 ptr) ->
  push_kernel_args (E:=DeviceError) oc a k = Ok k' ->
  exists v, ta_device_ptr (E:=DeviceError) oc a = Ok v /\ appended k k' (v :: layout_tail (tensor_layout d a)).
Proof.
  intros Hptr H. unfold push_kernel_args in H. apply bind_Ok in H as (v & Hv & H). exists v. split; [done|].
  change (v :: ?l) with ([v] ++ l). eapply appended_trans.
  { apply (appended_push 8 v k); [lia|]. by apply u64_fits, Hptr. }
  cbn [layout_tail tensor_layout tensor_layout_of tl_shape tl_strides tl_partition].
  eapply appended_trans; [apply appended_i32s|]. eapply appended_trans; [apply appended_i32s|].
  destruct a as [t|w|p]; cbn [ta_partition] in *; injection H as <-; try apply appended_nil.
  eapply appended_trans; apply appended_i32s.
Qed.

Lemma push_param_image oc a l k k' : param_ok oc a -> plan_layout a = Ok l -> push_param (E:=DeviceError) oc a k = Ok k' ->
  exists v, head_value (E:=DeviceError) oc a = Ok v /\ appended k k' (v :: layout_tail l).
Proof.
  intros Hok Hl H. destruct a as [d a|n s|d p|p]; cbn in *; try discriminate.
  - injection Hl as <-. by eapply push_kernel_args_image.
  - injection Hl as <-. injection H as <-. exists (bits s). split; [done|]. cbn [layout_tail].
    apply appended_push; [pose proof (size_in_bytes_range (dtype s)); lia|by apply scalar_fits].
  - injection Hl as <-. injection H as <-. exists p. split; [done|]. cbn [layout_tail].
    apply appended_push; [lia|]. by apply u64_fits, Hok.
Qed.

(** The arena of a launch: per parameter, its value and its tail. *)
Definition image (vs : list Z) (ls : list ArgLayout) : list Z := concat (zip_with (fun v l => v :: layout_tail l) vs ls).

(** The first argument of each parameter, counting from [n]. *)
Fixpoint starts_of (n : nat) (ls : list ArgLayout) : list nat :=
  match ls with [] => [] | l :: ls => n :: starts_of (n + layout_arg_count l) ls end.

Lemma marshal_image oc ps ls k k' starts :
  length (offsets (args k)) = length (values (args k)) ->
  Forall (param_ok oc) ps -> plan_layout <$> ps = Ok <$> ls -> marshal (E:=DeviceError) oc ps k = Ok (k', starts) ->
  exists vs, Forall2 (fun a v => head_value (E:=DeviceError) oc a = Ok v) ps vs /\
    appended k k' (image vs ls) /\ starts = starts_of (arg_count k) ls.
Proof.
  revert ls k k' starts. induction ps as [|a ps IH]; intros [|l ls] k k' starts Hlen Hok Hls H; try discriminate Hls; cbn [marshal] in H.
  - injection H as <- <-. exists []. split; [constructor|]. split; [apply appended_nil|done].
  - apply Forall_cons in Hok as [Ha Hok]. injection Hls as Hl Hls.
    apply bind_Ok in H as (k1 & H1 & H). apply bind_Ok in H as ([k2 st] & H2 & H). injection H as <- <-.
    destruct (push_param_image _ _ _ _ _ Ha Hl H1) as (v & Hv & A1). destruct A1 as (V1 & O1 & R1).
    destruct (IH ls k1 k2 st) as (vs & Hvs & A2 & ->); [by rewrite V1, O1, !length_app, length_seq, Hlen|done..|].
    exists (v :: vs). split; [by constructor|]. split; [eapply appended_trans; [split; [exact V1|split; [exact O1|exact R1]]|exact A2]|].
    cbn [starts_of]. unfold arg_count. rewrite O1, length_app, length_seq, layout_arg_count_tail. done.
Qed.

Lemma image_length vs ls : length vs = length ls -> length (image vs ls) = foldr (fun l n => (layout_arg_count l + n)%nat) 0%nat ls.
Proof.
  revert vs. induction ls as [|l ls IH]; intros [|v vs] H; try discriminate; [done|]. unfold image in *.
  cbn [zip_with concat foldr]. rewrite length_app, IH by (cbn in H; lia). rewrite layout_arg_count_tail. done.
Qed.

(** The parameters a capture records for such an arena. *)
Definition params_of (n : nat) (ls : list ArgLayout) : list PlanParam := zip_with mkPlanParam ls (starts_of n ls).

Lemma plan_params_spec i n m starts ls ps :
  starts = starts_of n ls -> plan_params i (seq 0 m) starts (Ok <$> ls) = Ok ps -> ps = params_of n ls.
Proof.
  intros ->. revert i n ps. induction ls as [|l ls IH]; intros i n ps H; cbn [plan_params starts_of fmap list_fmap] in H.
  - by injection H as <-.
  - destruct (negb _); [discriminate|]. destruct (seq 0 m !! n) as [slot|] eqn:E; [|discriminate].
    apply lookup_seq in E as [-> _]. apply bind_Ok in H as (ps' & H & Hps). injection Hps as <-.
    apply IH in H as ->. done.
Qed.

(** ** Writing over the recorded arguments *)

Lemma write_slot_head n v v' tl pre post : n = length pre ->
  write_slot n v (pre ++ (v' :: tl) ++ post) = Ok (pre ++ (v :: tl) ++ post).
Proof.
  intros ->. unfold write_slot. destruct (Nat.ltb_spec (length pre) (length (pre ++ (v' :: tl) ++ post))) as [|H].
  - rewrite insert_app_r_alt by lia. by rewrite Nat.sub_diag.
  - rewrite length_app in H. cbn in H. lia.
Qed.

(** Values written into the parameters' slots in order. *)
Fixpoint write_values (ps : list PlanParam) (ws vs : list Z) : outcome DeviceError (list Z) :=
  match ps, ws with
  | p :: ps, w :: ws => vs ← write_slot (pp_slot p) w vs; write_values ps ws vs
  | _, _ => Ok vs
  end.

Lemma write_values_image ls vs ws pre : length vs = length ls -> length ws = length ls ->
  write_values (params_of (length pre) ls) ws (pre ++ image vs ls) = Ok (pre ++ image ws ls).
Proof.
  revert vs ws pre. induction ls as [|l ls IH]; intros [|v vs] [|w ws] pre Hv Hw; try discriminate; [done|].
  cbn [params_of starts_of zip_with write_values pp_slot].
  change (image (v :: vs) (l :: ls)) with ((v :: layout_tail l) ++ image vs ls).
  change (image (w :: ws) (l :: ls)) with ((w :: layout_tail l) ++ image ws ls).
  rewrite write_slot_head by done. cbn [mbind outcome_bind]. rewrite !app_assoc.
  replace (length pre + layout_arg_count l)%nat with (length (pre ++ w :: layout_tail l))
    by (rewrite length_app, layout_arg_count_tail; done).
  apply IH; cbn in *; lia.
Qed.

Lemma write_args_values oc ps as_ ws vs : length as_ = length ps ->
  Forall2 (fun a w => slot_value (E:=DeviceError) oc a = Ok w) as_ ws -> write_args oc ps as_ vs = write_values ps ws vs.
Proof.
  revert as_ ws vs. induction ps as [|p ps IH]; intros [|a as_] ws vs Hlen Hw; try discriminate; [by inversion_clear Hw|].
  apply Forall2_cons_inv_l in Hw as (w & ws' & Hw & Hws & ->). cbn [write_args write_values]. rewrite Hw. cbn [mbind outcome_bind].
  destruct (write_slot _ _ _); cbn [mbind outcome_bind]; [|done..]. apply IH; [cbn in Hlen; lia|done].
Qed.

Lemma write_raw_values ps as_ vs : write_raw ps as_ vs = write_values ps (raw_bits <$> as_) vs.
Proof.
  revert as_ vs. induction ps as [|p ps IH]; intros [|a as_] vs; try done. cbn [write_raw write_values fmap list_fmap].
  destruct (write_slot _ _ _); cbn [mbind outcome_bind]; [apply IH|done..].
Qed.

(** ** A replay is a launch *)

(** The launch-building statements after the arguments. *)
Definition finalize (conf : LaunchConfig) (dependent : bool) (k : AsyncKernelLaunch) : AsyncKernelLaunch :=
  let k := set_launch_config conf k in if dependent then opt_in_dependent_launch k else k.

(** The launcher's parameter [p], given the argument of a replay. *)
Definition as_launch_arg (p : LaunchArg) (a : PlanArg) : LaunchArg :=
  match a with
  | ATensor d a => LTensor d a
  | AScalar s => LScalar (match p with LScalar n _ => n | _ => DTypeId.as_str (dtype s) end) s
  end.

Lemma matches_same_layout p a l : plan_layout p = Ok l -> arg_matches a l = true -> plan_layout (as_launch_arg p a) = Ok l.
Proof.
  unfold arg_matches. intros Hp [Hk Hh]%andb_prop. apply bool_decide_eq_true in Hk.
  destruct p as [d x|n s|d ptr|]; cbn in Hp; try discriminate; injection Hp as <-; destruct a as [d' x'|s']; cbn in Hk; try discriminate.
  - injection Hk as Hk1 Hk2 Hk3 Hk4 Hk5 Hk6. cbn. unfold tensor_layout, tensor_layout_of. by rewrite Hk1, Hk2, Hk3, Hk4, Hk5, Hk6.
  - injection Hk as Hk. cbn in *. rewrite Hk. destruct (is_integer_scalar n); [|done]. cbn in Hh.
    apply bool_decide_eq_true in Hh. unfold div_hint in Hh. destruct (dtype s'); try discriminate; congruence.
Qed.

Lemma args_match_layouts ps ls n as_ : plan_layout <$> ps = Ok <$> ls -> length as_ = length ps -> args_match (params_of n ls) as_ = true ->
  plan_layout <$> zip_with as_launch_arg ps as_ = Ok <$> ls.
Proof.
  revert ls n as_. induction ps as [|p ps IH]; intros [|l ls] n [|a as_] Hls Hlen Hm; try discriminate; [done|].
  injection Hls as Hl Hls. cbn [params_of starts_of zip_with args_match] in Hm. apply andb_prop in Hm as [Ha Hm].
  cbn [zip_with fmap list_fmap]. rewrite (matches_same_layout p a l) by done. f_equal. cbn in Hlen. by eapply IH; [|lia|].
Qed.

Lemma head_value_slot oc p a : head_value (E:=DeviceError) oc (as_launch_arg p a) = slot_value oc a.
Proof. by destruct a. Qed.

Lemma head_values oc ps as_ vs : length as_ = length ps ->
  Forall2 (fun a v => head_value (E:=DeviceError) oc a = Ok v) (zip_with as_launch_arg ps as_) vs ->
  Forall2 (fun a v => slot_value (E:=DeviceError) oc a = Ok v) as_ vs.
Proof.
  revert as_ vs. induction ps as [|p ps IH]; intros [|a as_] vs Hlen H; try discriminate; cbn [zip_with] in H; [by inversion_clear H|].
  apply Forall2_cons_inv_l in H as (v & vs' & Hv & H & ->). rewrite head_value_slot in Hv. constructor; [done|].
  apply IH; [cbn in Hlen; lia|done].
Qed.

Lemma plan_params_layouts i offs starts layouts ps : length starts = length layouts -> plan_params i offs starts layouts = Ok ps ->
  exists ls, layouts = Ok <$> ls.
Proof.
  revert i starts ps. induction layouts as [|l layouts IH]; intros i [|s starts] ps Hlen H; try discriminate; [by exists []|].
  cbn [plan_params] in H. destruct l as [l| |]; [|discriminate..]. destruct (negb _); [discriminate|].
  destruct (offs !! s); [|discriminate]. apply bind_Ok in H as (ps' & H & _). cbn in Hlen.
  destruct (IH (S i) starts ps' ltac:(lia) H) as [ls ->]. by exists (l :: ls).
Qed.

Lemma check_args_match dbg i ps as_ : check_args dbg i ps as_ = Ok tt <-> args_match ps as_ = true.
Proof.
  revert i as_. induction ps as [|p ps IH]; intros i [|a as_]; cbn [check_args args_match]; try done.
  destruct (arg_matches a (pp_layout p)); [apply IH|done].
Qed.

Lemma check_args_refuses dbg i ps as_ : (length as_ <= length ps)%nat -> args_match ps as_ = false ->
  exists e, check_args dbg i ps as_ = Err e.
Proof.
  revert i as_. induction ps as [|p ps IH]; intros i [|a as_] Hlen Hm; cbn in Hlen; try discriminate; [lia|].
  cbn [check_args args_match] in *. destruct (arg_matches a (pp_layout p)); [apply IH; [lia|done]|by eauto].
Qed.

Lemma starts_of_length n ls : length (starts_of n ls) = length ls.
Proof. revert n. induction ls as [|l ls IH]; intros n; [done|]. cbn. by rewrite IH. Qed.

Lemma params_of_length n ls : length (params_of n ls) = length ls.
Proof. unfold params_of. rewrite length_zip_with, starts_of_length. lia. Qed.

(** What a capture keeps of the launch it was given. *)
Lemma from_launch_inv dev c p : from_launch dev c = Ok p ->
  exists conf, cfg (cl_launch c) = Some conf /\ plan_admits (cl_launch_checks c) = true /\
    length (cl_param_starts c) = length (cl_layouts c) /\
    plan_params 0 (offsets (args (cl_launch c))) (cl_param_starts c) (cl_layouts c) = Ok (params p) /\
    p = mkPlan (cl_kernel c) (func (cl_launch c)) conf (programmatic_dependent_launch (cl_launch c)) dev (cl_epoch c)
          (cl_unsafe_entry c) (cl_options c) (values (args (cl_launch c))) (offsets (args (cl_launch c))) (params p).
Proof.
  unfold from_launch. destruct (List.find _ (cl_launch_checks c)) as [?|] eqn:Ef; [discriminate|].
  destruct (cfg (cl_launch c)) as [conf|]; [|discriminate]. destruct (List.find _ (offsets _)); [discriminate|].
  destruct (Nat.eqb_spec (length (cl_param_starts c)) (length (cl_layouts c))) as [Hlen|]; [|discriminate].
  cbn [negb]. destruct (negb _); [discriminate|]. intros H. apply bind_Ok in H as (ps & Hps & H). injection H as <-.
  exists conf. cbn [params]. split; [done|]. split; [|done]. unfold plan_admits. apply forallb_forall. intros x Hx.
  by apply (List.find_none _ _ Ef), negb_false_iff in Hx.
Qed.

Lemma launch_new_image oc f ps ls k starts :
  Forall (param_ok oc) ps -> plan_layout <$> ps = Ok <$> ls -> marshal (E:=DeviceError) oc ps (launch_new f) = Ok (k, starts) ->
  exists vs, Forall2 (fun a v => head_value (E:=DeviceError) oc a = Ok v) ps vs /\ length vs = length ls /\
    values (args k) = image vs ls /\ offsets (args k) = seq 0 (length (image vs ls)) /\ func k = f /\
    programmatic_dependent_launch k = false /\ starts = starts_of 0 ls.
Proof.
  intros Hok Hls H. destruct (marshal_image oc ps ls (launch_new f) k starts) as (vs & Hvs & (V & O & F & _ & D) & Hs); [done..|].
  exists vs. split_and!; try done. apply Forall2_length in Hvs. apply (f_equal length) in Hls. rewrite !length_fmap in Hls. congruence.
Qed.

Lemma retain_all l : retain_each (fun _ => Ok tt) l = (l, Ok tt).
Proof. induction l as [|x l IH]; [done|]. cbn [retain_each]. by rewrite IH. Qed.

Lemma replay_access ps as_ : length as_ = length ps -> as_ ≫= arg_access = zip_with as_launch_arg ps as_ ≫= param_access.
Proof.
  revert as_. induction ps as [|p ps IH]; intros [|a as_] H; try discriminate; [done|].
  cbn [zip_with]. rewrite !bind_cons, (IH as_) by (cbn in H; lia). by destruct a.
Qed.

(** A plan of a launcher, taken apart: the layouts of its parameters and the
    values they had. *)
Lemma captured_plan oc dependent f dev conf path ep checks unsafe opts largs k starts plan :
  Forall (param_ok oc) largs -> marshal (E:=DeviceError) oc largs (launch_new f) = Ok (k, starts) ->
  from_launch dev (mkCaptured (finalize conf dependent k) path ep checks (plan_layout <$> largs) starts unsafe opts) = Ok plan ->
  exists ls vs, plan_layout <$> largs = Ok <$> ls /\ length vs = length ls /\ length ls = length largs /\
    plan = mkPlan path f conf dependent dev ep unsafe opts (image vs ls) (seq 0 (length (image vs ls))) (params_of 0 ls).
Proof.
  intros Hok Hm Hcapture. destruct (from_launch_inv _ _ _ Hcapture) as (conf' & Hcfg & _ & Hl & Hps & Hplan). cbn in *.
  destruct (plan_params_layouts _ _ _ _ _ Hl Hps) as [ls Hls]. exists ls.
  destruct (launch_new_image _ _ _ _ _ _ Hok Hls Hm) as (vs & _ & Hvl & V & O & F & D & Hst). exists vs.
  assert (Hfin : args (finalize conf dependent k) = args k /\ func (finalize conf dependent k) = func k /\
    cfg (finalize conf dependent k) = Some conf /\ programmatic_dependent_launch (finalize conf dependent k) = dependent)
    by (unfold finalize; destruct dependent; cbn; rewrite ?D; done).
  destruct Hfin as (Fa & Ff & Fc & Fd). rewrite Fc in Hcfg. injection Hcfg as <-. rewrite Fa, O, Hls in Hps.
  apply (plan_params_spec _ _ _ _ _ _ Hst) in Hps. rewrite Fa, Ff, Fd, F, V, O, Hps in Hplan.
  split_and!; [done..| |done]. apply (f_equal length) in Hls. by rewrite !length_fmap in Hls.
Qed.

(** ** Divisibility of raw arguments *)

Lemma divisors_of_16 a b : (a | 16) -> (b | 16) -> 0 < a <= b -> (a | b).
Proof.
  intros Ha Hb Hab. assert (Hpow : forall d, (d | 16) -> 0 < d -> d = 1 \/ d = 2 \/ d = 4 \/ d = 8 \/ d = 16).
  { intros d Hd Hp. pose proof (Z.divide_pos_le d 16 ltac:(lia) Hd) as Hle. apply Z.mod_divide in Hd; [|lia].
    assert (Hcases : d = 1 \/ d = 2 \/ d = 3 \/ d = 4 \/ d = 5 \/ d = 6 \/ d = 7 \/ d = 8 \/ d = 9 \/ d = 10 \/ d = 11 \/ d = 12
      \/ d = 13 \/ d = 14 \/ d = 15 \/ d = 16) by lia.
    repeat (destruct Hcases as [->|Hcases]); try lia; try discriminate Hd; subst d; lia. }
  destruct (Hpow a Ha ltac:(lia)) as [->|[->|[->|[->| ->]]]], (Hpow b Hb ltac:(lia)) as [->|[->|[->|[->| ->]]]]; try lia;
    (by apply Z.mod_divide).
Qed.

Lemma gcd_as_i32 v : Z.gcd (as_i32 v) 16 = Z.gcd v 16.
Proof.
  rewrite (gcd_16 (as_i32 v)), (gcd_16 v). f_equal. unfold as_i32, as_signed.
  assert (Hm : (v + 2 ^ 31) mod 2 ^ 32 = v + 2 ^ 31 - 2 ^ 32 * ((v + 2 ^ 31) / 2 ^ 32)) by (rewrite Z.mod_eq; lia).
  change (32 - 1) with 31. rewrite Hm. replace (v + 2 ^ 31 - 2 ^ 32 * ((v + 2 ^ 31) / 2 ^ 32) - 2 ^ 31)
    with (v + (- (2 ^ 28 * ((v + 2 ^ 31) / 2 ^ 32))) * 16) by lia. apply Z.mod_add. lia.
Qed.

Lemma as_i32_range v : in_i32 (as_i32 v).
Proof. unfold as_i32, as_signed. pose proof (Z.mod_pos_bound (v + 2 ^ (32 - 1)) (2 ^ 32) ltac:(lia)). unfold_int. cbn in *. lia. Qed.

Lemma hint_gcd s : dh_divisor (from_value (scalar_as_i32 s)) = Z.gcd (scalar_value s) 16.
Proof. unfold scalar_as_i32. rewrite from_value_gcd by apply as_i32_range. apply gcd_as_i32. Qed.

Lemma is_multiple_of_spec z d : is_multiple_of z d = true <-> (d | z).
Proof.
  unfold is_multiple_of. destruct (Z.eqb_spec d 0) as [->|Hd].
  - rewrite Z.eqb_eq. split; [intros ->; apply Z.divide_0_r|intros H; by apply Z.divide_0_l].
  - rewrite Z.eqb_eq. by apply Z.mod_divide.
Qed.

Lemma div_hint_value s h : div_hint s = Some h -> h = from_value (scalar_as_i32 s).
Proof. unfold div_hint. destruct (dtype s); intros [=]; done. Qed.

(** What the compiled kernel was told about a parameter, and that an argument
    satisfies it. *)
Definition raw_divisible (p : LaunchArg) (a : RawArg) : Prop :=
  match p with
  | LTensor _ t => exists ptr, a = RawPtr ptr /\ (dh_divisor (base_ptr_div (ta_spec t)) | ptr)
  | LPointer _ q => exists ptr, a = RawPtr ptr /\ (Z.gcd q 16 | ptr)
  | LScalar n s => exists s', a = raw_scalar s' /\ dtype s' = dtype s /\
                     (is_integer_scalar n = true -> (Z.gcd (scalar_value s) 16 | scalar_value s'))
  | LMapped _ => False
  end.

(** Raw arguments are built by [RawArg::ptr] and [RawArg::scalar]. *)
Definition built (a : RawArg) : Prop := (exists ptr, a = RawPtr ptr) \/ exists s, a = raw_scalar s.

Lemma raw_ok_divisible p l a : plan_layout p = Ok l -> built a -> raw_ok l a = true -> raw_divisible p a.
Proof.
  intros Hp Ha H. destruct p as [d t|n s|d q|]; cbn in Hp; try discriminate; injection Hp as <-;
    destruct Ha as [[ptr ->]|[s' ->]]; cbn [raw_ok raw_scalar] in H; try discriminate; cbn [raw_divisible].
  - exists ptr. split; [done|]. by apply is_multiple_of_spec.
  - exists s'. apply andb_prop in H as [Hd H]. apply bool_decide_eq_true in Hd. split; [done|]. split; [done|]. intros Hn.
    rewrite Hn in H. destruct (div_hint s') as [r|] eqn:Er; [|done]. apply div_hint_value in Er as ->. apply Z.leb_le in H.
    rewrite !hint_gcd in H. etransitivity; [|apply (Z.gcd_divide_l _ 16)]. apply divisors_of_16; try apply Z.gcd_divide_r. split; [|done].
    pose proof (Z.gcd_nonneg (scalar_value s) 16). pose proof (Z.gcd_eq_0_r (scalar_value s) 16). lia.
  - exists ptr. split; [done|]. apply is_multiple_of_spec in H. by rewrite from_ptr_gcd in H.
Qed.

Lemma check_raw_args_divisible dl dr i n ps ls as_ : plan_layout <$> ps = Ok <$> ls -> length as_ = length ls -> Forall built as_ ->
  check_raw_args dl dr i (params_of n ls) as_ = Ok tt -> Forall2 raw_divisible ps as_.
Proof.
  revert i n ls as_. induction ps as [|p ps IH]; intros i n [|l ls] [|a as_] Hls Hlen Hb H; try discriminate; [constructor|].
  injection Hls as Hl Hls. apply Forall_cons in Hb as [Ha Hb]. cbn [params_of starts_of zip_with check_raw_args] in H.
  destruct (raw_ok l a) eqn:E; [|cbn in H; rewrite E in H; discriminate]. cbn [pp_layout] in H. rewrite E in H.
  constructor; [by eapply raw_ok_divisible|]. eapply IH; [done| |done|exact H]. cbn in Hlen. lia.
Qed.

(** ** Theorems *)

(** C8: A replay is a launch. Take a plan captured from any launch of a generated launcher, and arguments whose layout
    it accepts. Executing the plan on them registers the same accesses in the same order as that launcher would, and
    makes the same driver call: the same function, configuration, argument slots and argument bytes as marshalling
    the new arguments from scratch. Arguments it does not accept are refused before anything is registered. *)
Theorem replay_is_a_launch (oc dependent recording : bool) (f dev : Z) (conf : LaunchConfig) (path : string) (ep : Z)
    (checks : list LaunchCheck) (unsafe : bool) (opts : PlanOptions) (debug : ArgLayout -> string) (arch : outcome DeviceError string)
    (largs : list LaunchArg) (k k' : AsyncKernelLaunch) (starts starts' : list nat) (plan : PlanInner) (as_ : list PlanArg)
    (Hok : Forall (param_ok oc) largs) (Hok' : Forall (param_ok oc) (zip_with as_launch_arg largs as_))
    (Hmarshal : marshal (E:=DeviceError) oc largs (launch_new f) = Ok (k, starts))
    (Hcapture : from_launch dev (mkCaptured (finalize conf dependent k) path ep checks (plan_layout <$> largs) starts unsafe opts) = Ok plan)
    (Hlen : length as_ = length largs)
    (Hfresh : marshal (E:=DeviceError) oc (zip_with as_launch_arg largs as_) (launch_new f) = Ok (k', starts'))
    (Harch : dependent = true -> exists a, arch = Ok a /\ 90 <= sm_number a) :
  if args_match (params plan) as_ then
    execute_planned debug oc (fun _ => Ok tt) (Ok tt) recording dev true plan as_ =
      (zip_with as_launch_arg largs as_ ≫= param_access, launch (finalize conf dependent k') arch)
  else exists e, execute_planned debug oc (fun _ => Ok tt) (Ok tt) recording dev true plan as_ = ([], Err e).
Proof.
  destruct (captured_plan _ _ _ _ _ _ _ _ _ _ _ _ _ _ Hok Hmarshal Hcapture) as (ls & vs & Hls & Hvl & Hll & ->).
  unfold execute_planned. cbn [device_id params]. rewrite Z.eqb_refl. cbn [negb]. destruct (args_match (params_of 0 ls) as_) eqn:Hm.
  - rewrite (proj2 (check_args_match _ _ _ _) Hm), retain_all, (replay_access largs as_ Hlen). f_equal.
    assert ((if recording then Ok tt else Ok tt) = Ok (E:=DeviceError) tt) as -> by (by destruct recording). cbn [mbind outcome_bind].
    pose proof (args_match_layouts _ _ _ _ Hls Hlen Hm) as Hls'.
    destruct (launch_new_image _ _ _ _ _ _ Hok' Hls' Hfresh) as (ws & Hws & Hwl & V' & O' & F' & D' & _).
    apply head_values in Hws; [|done]. unfold submit. cbn [plan_values params].
    rewrite (write_args_values _ _ _ ws) by (rewrite ?params_of_length; congruence).
    pose proof (write_values_image ls vs ws [] Hvl Hwl) as Hw. cbn [app length] in Hw. rewrite Hw.
    cbn [mbind outcome_bind function plan_cfg plan_dependent plan_offsets].
    unfold launch, finalize. destruct dependent; cbn; rewrite ?D'; cbn; rewrite V', O', F', (image_length vs), (image_length ws) by done; [|done].
    destruct (Harch eq_refl) as (a & -> & Ha). cbn. by destruct (Z.ltb_spec (sm_number a) 90); [lia|].
  - destruct (check_args_refuses debug 0 (params_of 0 ls) as_) as [e ->]; [rewrite params_of_length; lia|done|by exists e].
Qed.

(** C18: A raw replay that is accepted keeps what the kernel was compiled to assume. Every pointer is a multiple of the
    alignment the captured launch was specialized for, every integer scalar is divisible by all the powers of two up to
    16 that divided the captured one, and every scalar has its parameter's type; the driver gets the captured function
    and configuration, with exactly the given values in the parameters' first slots and the recorded ones elsewhere. *)
Theorem raw_replay_divisible (oc dependent : bool) (f dev stream_device : Z) (conf : LaunchConfig) (path : string) (ep : Z)
    (checks : list LaunchCheck) (unsafe : bool) (opts : PlanOptions) (dl : ArgLayout -> string) (dr : RawArg -> string)
    (largs : list LaunchArg) (k : AsyncKernelLaunch) (starts : list nat) (plan : PlanInner) (as_ : list RawArg) (call : DriverCall)
    (Hok : Forall (param_ok oc) largs)
    (Hmarshal : marshal (E:=DeviceError) oc largs (launch_new f) = Ok (k, starts))
    (Hcapture : from_launch dev (mkCaptured (finalize conf dependent k) path ep checks (plan_layout <$> largs) starts unsafe opts) = Ok plan)
    (Hbuilt : Forall built as_) (Hrun : launch_raw dl dr plan stream_device as_ = Ok call) :
  stream_device = dev /\ Forall2 raw_divisible largs as_ /\
  exists ls, plan_layout <$> largs = Ok <$> ls /\
    call = mkDriverCall f conf dependent (image (raw_bits <$> as_) ls) (offsets (args k)).
Proof.
  destruct (captured_plan _ _ _ _ _ _ _ _ _ _ _ _ _ _ Hok Hmarshal Hcapture) as (ls & vs & Hls & Hvl & Hll & ->).
  unfold launch_raw in Hrun. apply bind_Ok in Hrun as ([] & Hcheck & Hrun). unfold check_raw in Hcheck. cbn [params device_id] in *.
  rewrite params_of_length in Hcheck. destruct (Nat.eqb_spec (length as_) (length ls)) as [Hal|]; [|discriminate].
  destruct (Z.eqb_spec stream_device dev) as [->|]; [|discriminate]. cbn [negb] in Hcheck. split; [done|].
  split; [by eapply check_raw_args_divisible|]. exists ls. split; [done|]. unfold submit in Hrun. cbn [plan_values params] in Hrun.
  rewrite write_raw_values in Hrun. pose proof (write_values_image ls vs (raw_bits <$> as_) [] Hvl) as Hw. cbn [app length] in Hw.
  rewrite Hw in Hrun by (by rewrite length_fmap). cbn in Hrun. injection Hrun as <-.
  destruct (launch_new_image _ _ _ _ _ _ Hok Hls Hmarshal) as (us & _ & Hul & _ & -> & _).
  by rewrite (image_length vs), (image_length us).
Qed.

(** A kernel of an output, an input and a 32-bit count: captured once, replayed on other storages. *)
Definition vec_tensor : Z -> Tensor := Eval vm_compute in
  fun ptr => match from_raw_parts (E:=DeviceError) true 4 4096 32 0 [8] [1] with
             | Ok t => mkTensor (Device ptr 32 0) (t_shape t) (t_strides t) (t_spec t) | _ => no_tensor end.

Definition vec_output (ptr : Z) : TensorArg := Output (mkPartition (vec_tensor ptr) [4] [1] false).

Definition saxpy_args (z x : Z) (n : Z) : list LaunchArg :=
  [LTensor DTypeId.F32 (vec_output z); LTensor DTypeId.F32 (Whole (vec_tensor x)); LScalar "i32" (mkScalar DTypeId.I32 n)].

Definition saxpy_plan_args (z x : Z) (n : Z) : list PlanArg :=
  [ATensor DTypeId.F32 (vec_output z); ATensor DTypeId.F32 (Whole (vec_tensor x)); AScalar (mkScalar DTypeId.I32 n)].

Definition grid_2 : LaunchConfig := mkLaunchConfig (2, 1, 1) (1, 1, 1) 0.
Definition default_options : PlanOptions := mkPlanOptions Inferred None (CompileOptions_default "none").

Definition saxpy_marshalled (z x n : Z) : AsyncKernelLaunch * list nat :=
  match marshal (E:=DeviceError) true (saxpy_args z x n) (launch_new 77) with Ok r => r | _ => (launch_new 77, []) end.

Definition saxpy_plan : PlanInner := Eval vm_compute in
  match from_launch 0 (mkCaptured (finalize grid_2 false (saxpy_marshalled 4096 8192 24).1) "kernels::saxpy" 3 []
          (plan_layout <$> saxpy_args 4096 8192 24) (saxpy_marshalled 4096 8192 24).2 false default_options) with
  | Ok p => p | _ => mkPlan "" 0 grid_2 false 0 0 false default_options [] [] []
  end.

Lemma saxpy_ok z x n : in_u64 z -> in_u64 x -> 0 <= n < 2 ^ 32 -> Forall (param_ok true) (saxpy_args z x n).
Proof.
  intros Hz Hx Hn. unfold saxpy_args. rewrite !Forall_cons.
  split; [intros ptr [= <-]; done|]. split; [intros ptr [= <-]; done|]. split; [exact Hn|constructor].
Qed.

Definition no_debug {A} (_ : A) : string := "".

Lemma replay_is_a_launch_witness :
  args_match (params saxpy_plan) (saxpy_plan_args 12288 16384 40) = true /\
  execute_planned no_debug true (fun _ => Ok tt) (Ok tt) false 0 true saxpy_plan (saxpy_plan_args 12288 16384 40) =
    (saxpy_args 12288 16384 40 ≫= param_access, launch (finalize grid_2 false (saxpy_marshalled 12288 16384 40).1) Panic).
Proof.
  split; [vm_compute; reflexivity|].
  refine (replay_is_a_launch true false false 77 0 grid_2 "kernels::saxpy" 3 [] false default_options no_debug Panic
    (saxpy_args 4096 8192 24) (saxpy_marshalled 4096 8192 24).1 (saxpy_marshalled 12288 16384 40).1
    (saxpy_marshalled 4096 8192 24).2 (saxpy_marshalled 12288 16384 40).2 saxpy_plan (saxpy_plan_args 12288 16384 40) _ _ _ _ _ _ _).
  - apply saxpy_ok; unfold_int; lia.
  - apply (saxpy_ok 12288 16384 40); unfold_int; lia.
  - vm_compute; reflexivity.
  - vm_compute; reflexivity.
  - reflexivity.
  - vm_compute; reflexivity.
  - discriminate.
Defined.

Definition saxpy_raw : list RawArg := [RawPtr 12288; RawPtr 16384; raw_scalar (mkScalar DTypeId.I32 40)].

Definition saxpy_raw_call : DriverCall := Eval vm_compute in
  match launch_raw no_debug no_debug saxpy_plan 0 saxpy_raw with Ok c => c | _ => mkDriverCall 0 grid_2 false [] [] end.

Lemma raw_replay_divisible_witness :
  launch_raw no_debug no_debug saxpy_plan 0 saxpy_raw = Ok saxpy_raw_call /\ Forall2 raw_divisible (saxpy_args 4096 8192 24) saxpy_raw.
Proof.
  split; [vm_compute; reflexivity|].
  refine (proj1 (proj2 (raw_replay_divisible true false 77 0 0 grid_2 "kernels::saxpy" 3 [] false default_options no_debug no_debug
    (saxpy_args 4096 8192 24) (saxpy_marshalled 4096 8192 24).1 (saxpy_marshalled 4096 8192 24).2 saxpy_plan saxpy_raw saxpy_raw_call _ _ _ _ _))).
  - apply saxpy_ok; unfold_int; lia.
  - vm_compute; reflexivity.
  - vm_compute; reflexivity.
  - unfold saxpy_raw. rewrite !Forall_cons. split; [left; by eexists|]. split; [left; by eexists|]. split; [right; by eexists|constructor].
  - vm_compute; reflexivity.
Defined.

(** A plan comes back as a safe one only if its entry point is safe and it has
    no dependent launch, and only as a plan of its own kernel. *)
Lemma finish_safe path sink p : finish path sink = Ok p -> sink = Some p /\ kernel p = path /\ unsafe_entry p = false /\ plan_dependent p = false.
Proof.
  unfold finish, take_plan. destruct sink as [q|]; [|done]. case_bool_decide; [|done]. cbn.
  destruct (unsafe_entry q) eqn:?, (plan_dependent q) eqn:?; cbn; intros [=]; subst; done.
Qed.

(** The options a launcher records give back the options it was built with,
    as every builder method leaves them. *)
Lemma options_round_trip o : po_grid o <> ExplicitGrid (0, 0, 0) ->
  from_launcher (launcher_grid o).1 (launcher_grid o).2 (po_generics o) (po_compile_options o) = o.
Proof.
  intros Hg. destruct o as [g gen co]. unfold from_launcher, launcher_grid. cbn in *. destruct g as [|g|g]; cbn; [done| |done].
  rewrite bool_decide_false; [done|congruence].
Qed.
