(* ===== verification/KernelCache.v ===== *)
(** * Kernel caches: launch sites, plan caches and evictions

    cutile/src/tile_kernel.rs ([LaunchSite], [KERNEL_CACHE], the epoch and the
    evictions) and cutile/src/plan.rs ([PlanCache]).  A launcher looks up the
    function it resolved before in its launch site or in a plan cache, both of
    which hold functions of the process-wide kernel cache; an eviction removes
    kernels from that cache and must leave no function behind in any of them.
    The first part models lookup and insertion, the second the protocol between
    launching threads and evicting ones, step by step.  The hash functions of
    the [rustc_hash] crate are parameters. *)

From stdpp Require Import gmap.
From S2P Require Import Prelude Errors Launch Specialization Access Options KernelArgs Plan.
Local Open Scope string_scope.
Local Open Scope list_scope.
Local Open Scope Z_scope.

(** ** Launch sites *)

Record Probe := mkProbe {
  pr_device_id : Z; pr_generics : list string; pr_specs : list SpecializationBits; pr_scalar_hints : list DivHint;
  pr_const_grid : option Grid; pr_compile_options : CompileOptions }.
#[export] Instance Probe_eq_dec : EqDecision Probe.
Proof. solve_decision. Defined.

(** The validator is the id of its allocation. *)
Record SiteResolution := mkResolution { sr_epoch : Z; sr_probe : Probe; sr_function : Z; sr_validator : Z }.

Record SiteEntries := mkEntries { newest : option SiteResolution; by_hash : gmap Z (list SiteResolution) }.

Definition no_entries : SiteEntries := mkEntries None ∅.

Definition same_probe (r r' : SiteResolution) : bool := bool_decide (sr_probe r = sr_probe r').

Section site.
Context (probe_hash : Probe -> Z).

Definition site_matches (now : Z) (p : Probe) (r : SiteResolution) : bool := (sr_epoch r =? now) && bool_decide (sr_probe r = p).

(** [LaunchSite::get] when the epoch it reads is [now]. *)
Definition site_get (now : Z) (p : Probe) (s : SiteEntries) : option (Z * Z) :=
  let in_bucket := b ← by_hash s !! probe_hash p; List.find (site_matches now p) b in
  r ← (match newest s with Some r => if site_matches now p r then Some r else in_bucket | None => in_bucket end);
  Some (sr_function r, sr_validator r).

(** [LaunchSite::store] after its epoch check passed. *)
Definition site_store (r : SiteResolution) (s : SiteEntries) : SiteEntries :=
  let bucket := default [] (by_hash s !! probe_hash (sr_probe r)) in
  let bucket := match list_find (fun x => same_probe x r = true) bucket with
                | Some (i, _) => swap_remove i bucket
                | None => bucket
                end in
  mkEntries (Some r) (<[probe_hash (sr_probe r) := bucket ++ [r]]> (by_hash s)).
End site.

(** ** Plan caches *)

Record PlanMap := mkPlanMap { newest_plan : option PlanInner; by_key : gmap Z (list PlanInner) }.

Definition no_plans : PlanMap := mkPlanMap None ∅.

Definition same_entry (p q : PlanInner) : bool :=
  (epoch p =? epoch q) && (device_id p =? device_id q) && bool_decide (options p = options q) &&
  bool_decide (pp_layout <$> params p = pp_layout <$> params q).

Section plans.
(** The hash of a device, options and the layout keys of the arguments. *)
Context (hash : Z -> PlanOptions -> list LayoutKey -> Z).

Definition cache_key (p : PlanInner) : Z := hash (device_id p) (options p) (layout_key ∘ pp_layout <$> params p).
Definition args_key (dev : Z) (o : PlanOptions) (as_ : list PlanArg) : Z := hash dev o (arg_key <$> as_).

Definition serves (now dev : Z) (o : PlanOptions) (as_ : list PlanArg) (p : PlanInner) : bool :=
  (epoch p =? now) && (device_id p =? dev) && bool_decide (options p = o) && args_match (params p) as_.

(** [PlanCache::get] when the epoch it reads is [now]. *)
Definition plan_get (now dev : Z) (o : PlanOptions) (as_ : list PlanArg) (m : PlanMap) : option PlanInner :=
  let in_bucket := b ← by_key m !! args_key dev o as_; List.find (serves now dev o as_) b in
  match newest_plan m with
  | Some p => if serves now dev o as_ p then Some p else in_bucket
  | None => in_bucket
  end.

(** [PlanCache::insert] of a plan; [current] is what its epoch check found. *)
Definition plan_insert (current : bool) (p : PlanInner) (m : PlanMap) : PlanMap :=
  let bucket := default [] (by_key m !! cache_key p) in
  if current && negb (existsb (fun q => same_entry q p) bucket)
  then mkPlanMap (Some p) (<[cache_key p := bucket ++ [p]]> (by_key m))
  else m.

Definition plan_len (m : PlanMap) : nat := map_fold (fun _ b n => (length b + n)%nat) 0%nat (by_key m).

(** [PlanCache::launch]: the plan and the arguments of the planned launch, and
    the cache. [plan_with] is the launcher the closure returns, run in plan
    mode; [now] and [still_current] are the epoch the lookup read and the
    answer of the insertion's check. *)
Fixpoint unchanged (oc : bool) (i : nat) (ps : list PlanParam) (vs : list Z) (as_ : list PlanArg) (given : list Z)
    : outcome DeviceError unit :=
  match as_, given, ps with
  | [], _, _ => Ok tt
  | a :: as_, g :: given, p :: ps =>
      match vs !! pp_slot p with
      | None => Panic
      | Some marshalled =>
          v ← slot_value oc a;
          if (v =? g) && (marshalled =? g) then unchanged oc (S i) ps vs as_ given
          else Err (LaunchFailed ("the launcher closure changed argument " +:+ pretty_nat i +:+ "; it must pass the "
                                  +:+ "arguments through unchanged and in order, as `|(a, b)| kernel(a, b)`"))
      end
  | _, _, _ => Panic
  end.

Fixpoint slot_values (oc : bool) (as_ : list PlanArg) : outcome DeviceError (list Z) :=
  match as_ with
  | [] => Ok []
  | a :: as_ => v ← slot_value oc a; vs ← slot_values oc as_; Ok (v :: vs)
  end.

Definition cache_launch (debug : ArgLayout -> string) (oc : bool) (now : Z) (still_current : PlanInner -> bool) (dev : Z) (o : PlanOptions)
    (plan_with : list PlanArg -> outcome DeviceError (PlanInner * list PlanArg)) (as_ : list PlanArg) (m : PlanMap)
    : outcome DeviceError (PlanInner * list PlanArg * PlanMap) :=
  match plan_get now dev o as_ m with
  | Some p => Ok (p, as_, m)
  | None =>
      given ← slot_values oc as_;
      '(p, as_) ← plan_with as_;
      _ ← check_args debug 0 (params p) as_;
      _ ← unchanged oc 0 (params p) (plan_values p) as_ given;
      Ok (p, as_, plan_insert (still_current p) p m)
  end.
End plans.

(** ** Lookup is exact *)

Section plan_facts.
Context (hash : Z -> PlanOptions -> list LayoutKey -> Z).

(** Every plan is in the bucket of its key, and the newest is in one. *)
Record plans_ok (m : PlanMap) : Prop := {
  bucket_keys : forall k b p, by_key m !! k = Some b -> p ∈ b -> cache_key hash p = k;
  newest_stored : forall p, newest_plan m = Some p -> exists b, by_key m !! cache_key hash p = Some b /\ p ∈ b;
}.

Definition stored (m : PlanMap) (p : PlanInner) : Prop := exists k b, by_key m !! k = Some b /\ p ∈ b.

Lemma no_plans_ok : plans_ok no_plans.
Proof. split; [intros k b p H; cbn in H; by rewrite lookup_empty in H|done]. Qed.

Lemma plan_insert_ok current p m : plans_ok m -> plans_ok (plan_insert hash current p m).
Proof.
  intros [Hb Hn]. unfold plan_insert. destruct (_ && _); [|by split]. split; cbn.
  - intros k b q Hk Hq. apply lookup_insert_Some in Hk as [[<- <-]|[_ Hk]]; [|by eapply Hb].
    apply elem_of_app in Hq as [Hq|Hq%list_elem_of_singleton]; [|by subst].
    destruct (by_key m !! cache_key hash p) as [b|] eqn:E; [by eapply Hb|by apply not_elem_of_nil in Hq].
  - intros q [= <-]. rewrite lookup_insert_eq. eexists. split; [done|]. apply elem_of_app. right. by apply list_elem_of_singleton.
Qed.

Lemma plan_insert_keeps current p q m : stored m q -> stored (plan_insert hash current p m) q.
Proof.
  intros (k & b & Hk & Hq). unfold plan_insert. destruct (_ && _); [|by exists k, b].
  destruct (decide (k = cache_key hash p)) as [->|Hne].
  - exists (cache_key hash p), (b ++ [p]). cbn. rewrite lookup_insert_eq, Hk. split; [done|]. apply elem_of_app. by left.
  - exists k, b. cbn. by rewrite lookup_insert_ne.
Qed.

(** What an insertion can add. *)
Lemma plan_insert_adds current p q m : stored (plan_insert hash current p m) q -> stored m q \/ (current = true /\ q = p).
Proof.
  unfold plan_insert. destruct current; cbn [andb]; [|by left]. destruct (negb _); [|by left]. intros (k & b & Hk & Hq). cbn in Hk.
  apply lookup_insert_Some in Hk as [[<- <-]|[_ Hk]]; [|left; by exists k, b].
  apply elem_of_app in Hq as [Hq|Hq%list_elem_of_singleton]; [|by right].
  left. destruct (by_key m !! cache_key hash p) as [b|] eqn:E; [by exists (cache_key hash p), b|by apply not_elem_of_nil in Hq].
Qed.

(** Arguments a plan serves hash to its key. *)
Lemma args_match_keys ps as_ : length as_ = length ps -> args_match ps as_ = true -> arg_key <$> as_ = (layout_key ∘ pp_layout <$> ps).
Proof.
  revert as_. induction ps as [|p ps IH]; intros [|a as_] Hlen H; try discriminate; [done|]. cbn [args_match] in H.
  apply andb_prop in H as [Ha H]. unfold arg_matches in Ha. apply andb_prop in Ha as [Ha _]. apply bool_decide_eq_true in Ha.
  cbn [fmap list_fmap]. cbn in Hlen. rewrite (IH as_) by (done || lia). cbn. by rewrite Ha.
Qed.

Lemma serves_key now dev o as_ p : length as_ = length (params p) -> serves now dev o as_ p = true -> args_key hash dev o as_ = cache_key hash p.
Proof.
  unfold serves, args_key, cache_key. intros Hlen H. apply andb_prop in H as [H Hm]. apply andb_prop in H as [H Ho].
  apply andb_prop in H as [_ Hd]. apply bool_decide_eq_true in Ho as ->. apply Z.eqb_eq in Hd as <-. by rewrite (args_match_keys (params p)).
Qed.

Lemma same_entry_serves now dev o as_ p q : same_entry q p = true -> serves now dev o as_ p = true -> serves now dev o as_ q = true.
Proof.
  unfold same_entry, serves. intros H. repeat apply andb_prop in H as [H ?]. apply Z.eqb_eq in H. apply Z.eqb_eq in H2.
  apply bool_decide_eq_true in H1. apply bool_decide_eq_true in H0. rewrite H, H2, H1.
  intros Hs. apply andb_prop in Hs as [-> Hm]. cbn. clear -H0 Hm.
  revert H0 Hm. generalize (params p) (params q). intros ps qs. revert qs as_. induction ps as [|x ps IH]; intros [|y qs] [|a as_] He; try done.
  cbn in He. injection He as He1 He2. cbn [args_match]. rewrite He1. intros [-> Hm]%andb_prop. by apply IH.
Qed.

(** A lookup returns a plan that serves the request, and finds one whenever
    the cache has one. *)
Lemma plan_get_spec now dev o as_ m : plans_ok m -> (forall p, stored m p -> length (params p) = length as_) ->
  match plan_get hash now dev o as_ m with
  | Some p => stored m p /\ serves now dev o as_ p = true
  | None => forall p, stored m p -> serves now dev o as_ p = false
  end.
Proof.
  intros [Hb Hn] Hlen. unfold plan_get.
  assert (Hbucket : match by_key m !! args_key hash dev o as_ ≫= List.find (serves now dev o as_) with
    | Some p => stored m p /\ serves now dev o as_ p = true
    | None => forall p, stored m p -> serves now dev o as_ p = false end).
  { destruct (by_key m !! args_key hash dev o as_) as [b|] eqn:E; cbn.
    - destruct (List.find _ b) as [p|] eqn:Ef.
      + apply List.find_some in Ef as [Hp Hs]. split; [|done]. eexists _, b. split; [done|]. by apply list_elem_of_In.
      + intros p (k & b' & Hk & Hp). destruct (serves now dev o as_ p) eqn:Hs; [|done].
        pose proof (serves_key now dev o as_ p) as Hkey. rewrite (Hb k b' p Hk Hp) in Hkey. rewrite Hkey in E; [|symmetry; apply Hlen; by exists k, b'|done].
        rewrite Hk in E. injection E as ->. apply list_elem_of_In in Hp. by rewrite (List.find_none _ _ Ef p Hp) in Hs.
    - intros p (k & b' & Hk & Hp). destruct (serves now dev o as_ p) eqn:Hs; [|done].
      pose proof (serves_key now dev o as_ p) as Hkey. rewrite (Hb k b' p Hk Hp) in Hkey. rewrite Hkey in E; [congruence|symmetry; apply Hlen; by exists k, b'|done]. }
  destruct (newest_plan m) as [p|] eqn:En; [|done]. destruct (serves now dev o as_ p) eqn:Hs; [|done].
  split; [|done]. destruct (Hn p eq_refl) as (b & Hk & Hp). by exists (cache_key hash p), b.
Qed.

Lemma plan_insert_serves now dev o as_ p m : serves now dev o as_ p = true ->
  exists q, stored (plan_insert hash true p m) q /\ serves now dev o as_ q = true.
Proof.
  intros Hs. unfold plan_insert. cbn [andb]. destruct (existsb _ _) eqn:E; cbn [negb].
  - apply existsb_exists in E as (q & Hq & He). exists q. split; [|by eapply same_entry_serves].
    destruct (by_key m !! cache_key hash p) as [b|] eqn:Eb; [|done]. exists (cache_key hash p), b. split; [done|]. by apply list_elem_of_In.
  - exists p. split; [|done]. eexists (cache_key hash p), _. cbn. rewrite lookup_insert_eq. split; [done|].
    apply elem_of_app. right. by apply list_elem_of_singleton.
Qed.

(** A cache after insertions, each with the answer of its epoch check. *)
Definition fill (l : list (bool * PlanInner)) : PlanMap := foldl (fun m cp => plan_insert hash cp.1 cp.2 m) no_plans l.

Lemma fill_snoc l cp : fill (l ++ [cp]) = plan_insert hash cp.1 cp.2 (fill l).
Proof. unfold fill. by rewrite foldl_snoc. Qed.

Lemma fill_ok l : plans_ok (fill l).
Proof. induction l as [|cp l IH] using rev_ind; [apply no_plans_ok|]. rewrite fill_snoc. by apply plan_insert_ok. Qed.

Lemma fill_stored l p : stored (fill l) p -> (true, p) ∈ l.
Proof.
  induction l as [|[c q] l IH] using rev_ind; [intros (k & b & Hk & _); cbn in Hk; by rewrite lookup_empty in Hk|].
  rewrite fill_snoc. intros H. apply plan_insert_adds in H as [H|[Hc ->]]; apply elem_of_app; [left; by apply IH|right].
  cbn in Hc. subst c. by apply list_elem_of_singleton.
Qed.

Lemma fill_serves l now dev o as_ p : (true, p) ∈ l -> serves now dev o as_ p = true ->
  exists q, stored (fill l) q /\ serves now dev o as_ q = true.
Proof.
  intros Hp Hs. induction l as [|[c q] l IH] using rev_ind; [by apply not_elem_of_nil in Hp|]. rewrite fill_snoc.
  apply elem_of_app in Hp as [Hp|Hp%list_elem_of_singleton].
  - destruct (IH Hp) as (q' & Hq & Hsq). exists q'. split; [by apply plan_insert_keeps|done].
  - injection Hp as <- <-. by apply plan_insert_serves.
Qed.

Lemma unchanged_values oc i ps vs as_ given : unchanged oc i ps vs as_ given = Ok tt -> length as_ = length given ->
  slot_values oc as_ = Ok given.
Proof.
  revert i ps given. induction as_ as [|a as_ IH]; intros i ps [|g given] H Hlen; try discriminate; [done|].
  destruct ps as [|p ps]; cbn [unchanged] in H; [done|]. destruct (vs !! pp_slot p); [|done]. apply bind_Ok in H as (v & Hv & H).
  destruct (Z.eqb_spec v g) as [->|]; [|discriminate]. destruct (_ =? _); [|discriminate]. cbn [andb] in H.
  cbn [slot_values]. rewrite Hv. cbn [mbind outcome_bind]. cbn in Hlen. by rewrite (IH _ _ _ H ltac:(lia)).
Qed.

Lemma slot_values_length oc as_ vs : slot_values oc as_ = Ok vs -> length vs = length as_.
Proof.
  revert vs. induction as_ as [|a as_ IH]; intros vs H; cbn [slot_values] in H; [by injection H as <-|].
  apply bind_Ok in H as (v & _ & H). apply bind_Ok in H as (vs' & Hvs & H). injection H as <-. cbn. by rewrite (IH vs').
Qed.
End plan_facts.

(** Executing without the layout check is executing with it, on arguments that
    have the layout. *)
Lemma execute_done debug oc retain keep recording dev p as_ : args_match (params p) as_ = true ->
  execute_planned debug oc retain keep recording dev false p as_ = execute_planned debug oc retain keep recording dev true p as_.
Proof. intros H. unfold execute_planned. by rewrite (proj2 (check_args_match debug 0 (params p) as_) H). Qed.

(** ** Theorems *)

(** C19: A plan cache serves exactly what was put into it. After any insertions, from whichever threads, a lookup returns
    only a plan that was inserted while current, of the current generation, for the device, the options and exactly the
    layout asked for; and it returns one whenever such a plan was inserted, whatever the hash function collides on. *)
Theorem plan_cache_exact (hash : Z -> PlanOptions -> list LayoutKey -> Z) (l : list (bool * PlanInner)) (now dev : Z)
    (o : PlanOptions) (as_ : list PlanArg) (Hlen : forall c p, (c, p) ∈ l -> length (params p) = length as_) :
  match plan_get hash now dev o as_ (fill hash l) with
  | Some p => (true, p) ∈ l /\ epoch p = now /\ device_id p = dev /\ options p = o /\ args_match (params p) as_ = true
  | None => forall p, (true, p) ∈ l -> serves now dev o as_ p = false
  end.
Proof.
  pose proof (plan_get_spec hash now dev o as_ (fill hash l) (fill_ok hash l)) as H.
  destruct (plan_get _ _ _ _ _ _) as [p|].
  - destruct H as [Hp Hs]; [intros q Hq; eapply Hlen; by apply (fill_stored hash)|]. apply fill_stored in Hp. split; [done|].
    unfold serves in Hs. repeat apply andb_prop in Hs as [Hs ?]. apply Z.eqb_eq in Hs. split; [done|].
    split; [by apply Z.eqb_eq|]. split; [by apply bool_decide_eq_true in H0|done].
  - intros p Hp. destruct (serves now dev o as_ p) eqn:Hs; [|done].
    destruct (fill_serves hash l now dev o as_ p Hp Hs) as (q & Hq & Hsq).
    rewrite H in Hsq; [done|intros q' Hq'; eapply Hlen; by apply (fill_stored hash)|done].
Qed.

(** A launch through a cache, hit or miss, replays a plan its arguments match,
    with the caller's own pointers and scalars. *)
Lemma cached_launch_matches hash debug oc now current dev o plan_with as_ l p as' m' :
  (forall c q, (c, q) ∈ l -> length (params q) = length as_) -> (forall q bs, plan_with as_ = Ok (q, bs) -> length bs = length as_) ->
  cache_launch hash debug oc now current dev o plan_with as_ (fill hash l) = Ok (p, as', m') ->
  args_match (params p) as' = true /\ (as' = as_ \/ slot_values oc as' = slot_values oc as_).
Proof.
  intros Hlen Hpw H. unfold cache_launch in H. pose proof (plan_get_spec hash now dev o as_ (fill hash l) (fill_ok hash l)) as plan_cache_spec.
  destruct (plan_get _ _ _ _ _ _) as [q|].
  - injection H as <- <- <-. destruct plan_cache_spec as [_ Hs]; [intros q' Hq'; eapply Hlen; by apply (fill_stored hash)|].
    unfold serves in Hs. apply andb_prop in Hs as [_ Hs]. by split; [|left].
  - apply bind_Ok in H as (given & Hg & H). apply bind_Ok in H as ([q bs] & Hq & H). apply bind_Ok in H as ([] & Hc & H).
    apply bind_Ok in H as ([] & Hu & H). injection H as <- <- <-. apply check_args_match in Hc. split; [done|]. right.
    rewrite Hg. eapply unchanged_values; [exact Hu|]. by rewrite (Hpw _ _ Hq), (slot_values_length oc as_ given Hg).
Qed.

Definition constant_hash (_ : Z) (_ : PlanOptions) (_ : list LayoutKey) : Z := 0.

Lemma plan_cache_exact_witness :
  plan_get constant_hash 3 0 default_options (saxpy_plan_args 12288 16384 40) (fill constant_hash [(true, saxpy_plan)]) = Some saxpy_plan /\
  (true, saxpy_plan) ∈ [(true, saxpy_plan)].
Proof.
  split; [vm_compute; reflexivity|].
  refine (proj1 (plan_cache_exact constant_hash [(true, saxpy_plan)] 3 0 default_options (saxpy_plan_args 12288 16384 40) _)).
  intros c p [= -> ->]%list_elem_of_singleton. reflexivity.
Defined.
