(* ===== verification/Eviction.v ===== *)
(** * Evictions against concurrent launches

    cutile/src/tile_kernel.rs and plan.rs: the process-wide kernel cache with
    its single-flight slots, launch sites and plan caches that register
    themselves, and evictions that bump an epoch and then empty every
    registered store.  Each event is one atomic action of a thread: an atomic
    load, a critical section of a lock, or an operation of the concurrent map.
    A thread inside [Checking] or [Pushing] holds its store's write lock, one
    inside [Draining] the lock of a registry.  Epochs count evictions and do
    not wrap. *)

From stdpp Require Import gmap.
From S2P Require Import Prelude Specialization Options KernelArgs Plan KernelCache.
Local Open Scope Z_scope.

(** ** State *)

Inductive Contents := CSite (s : SiteEntries) | CPlan (m : PlanMap).
Inductive Resolution := RSite (r : SiteResolution) | RPlan (p : PlanInner).

Definition res_epoch (r : Resolution) : Z := match r with RSite r => sr_epoch r | RPlan p => epoch p end.
Definition res_function (r : Resolution) : Z := match r with RSite r => sr_function r | RPlan p => function p end.
Definition is_plan (c : Contents) : bool := match c with CPlan _ => true | CSite _ => false end.
Definition clear (c : Contents) : Contents := match c with CSite _ => CSite no_entries | CPlan _ => CPlan no_plans end.

Record Store := mkStore { registered : bool; contents : Contents }.

Inductive Thread :=
| Idle
| HasEpoch (e : Z)
| HasSlot (e key : Z) (slot : nat)
| Compiling (e key : Z) (slot : nat)
| Resolved (e f : Z)
| Storing (i : nat) (r : Resolution)
| Checking (i : nat) (r : Resolution)
| Pushing (i : nat) (r : Resolution)
| Removing (removed : bool)
| Bumped
| Draining (plans : bool) (rest : list nat)
| BetweenRegistries.

(** [cells] are the once-cells of the slots, [cache] the concurrent map. *)
Record World := mkWorld {
  cache : gmap Z nat; cells : list (option Z); next_function : Z; now : Z; stores : list Store; threads : list Thread }.

Definition set_thread (t : nat) (pc : Thread) (w : World) : World :=
  mkWorld (cache w) (cells w) (next_function w) (now w) (stores w) (<[t := pc]> (threads w)).
Definition set_cache (c : gmap Z nat) (w : World) : World :=
  mkWorld c (cells w) (next_function w) (now w) (stores w) (threads w).
Definition set_store (i : nat) (s : Store) (w : World) : World :=
  mkWorld (cache w) (cells w) (next_function w) (now w) (<[i := s]> (stores w)) (threads w).

Definition holds_lock (i : nat) (pc : Thread) : bool :=
  match pc with Checking j _ | Pushing j _ => (i =? j)%nat | _ => false end.
Definition holds_registry (plans : bool) (pc : Thread) : bool :=
  match pc with Draining p _ => Bool.eqb p plans | _ => false end.
Definition holds_slot (s : nat) (pc : Thread) : bool :=
  match pc with HasSlot _ _ s' | Compiling _ _ s' => (s =? s')%nat | _ => false end.
Definition compiles (s : nat) (pc : Thread) : bool := match pc with Compiling _ _ s' => (s =? s')%nat | _ => false end.

Definition nobody (p : Thread -> bool) (w : World) : bool := forallb (fun pc => negb (p pc)) (threads w).

(** The registered stores of a kind, in order. *)
Definition registry (plans : bool) (w : World) : list nat :=
  filter (fun i => match stores w !! i with Some s => registered s && Bool.eqb (is_plan (contents s)) plans | None => false end = true)
    (seq 0 (length (stores w))).

Inductive Event :=
| ReadEpoch | TakeSlot (key : Z) | BeginCompile | CompileOk | CompileErr | UseCell | Forget
| Register (i : nat) (r : Resolution) | LockStore | CheckEpoch | Push
| BeginEvict | Remove (key : Z) | EndEvict | Bump | LockRegistry | Drain | UnlockRegistry.

Section machine.
Context (probe_hash : Probe -> Z) (plan_hash : Z -> PlanOptions -> list LayoutKey -> Z).

(** The insertion of a store, its epoch check passed. *)
Definition put (r : Resolution) (c : Contents) : Contents :=
  match r, c with
  | RSite r, CSite s => CSite (site_store probe_hash r s)
  | RPlan p, CPlan m => CPlan (plan_insert plan_hash true p m)
  | _, _ => c
  end.

Definition same_kind (r : Resolution) (c : Contents) : bool :=
  match r, c with RSite _, CSite _ | RPlan _, CPlan _ => true | _, _ => false end.

(** [CacheEpoch::now] before resolving, then [kernel_cache_slot] and
    [get_or_try_init]. A failed compile removes an empty slot nobody holds. *)
Definition resolve_step (w : World) (t : nat) (pc : Thread) (e : Event) : option World :=
  match pc, e with
  | Idle, ReadEpoch => Some (set_thread t (HasEpoch (now w)) w)
  | HasEpoch ep, TakeSlot key =>
      match cache w !! key with
      | Some s => Some (set_thread t (HasSlot ep key s) w)
      | None =>
          let s := length (cells w) in
          Some (set_thread t (HasSlot ep key s)
            (mkWorld (<[key := s]> (cache w)) (cells w ++ [None]) (next_function w) (now w) (stores w) (threads w)))
      end
  | HasSlot ep key s, UseCell =>
      match cells w !! s with Some (Some f) => Some (set_thread t (Resolved ep f) w) | _ => None end
  | HasSlot ep key s, BeginCompile =>
      match cells w !! s with
      | Some None => if nobody (compiles s) w then Some (set_thread t (Compiling ep key s) w) else None
      | _ => None
      end
  | Compiling ep key s, CompileOk =>
      match cells w !! s with
      | Some None =>
          let f := next_function w in
          Some (set_thread t (Resolved ep f)
            (mkWorld (cache w) (<[s := Some f]> (cells w)) (f + 1) (now w) (stores w) (threads w)))
      | _ => None
      end
  | Compiling ep key s, CompileErr =>
      let w := set_thread t Idle w in
      match cache w !! key with
      | Some s' =>
          match cells w !! s' with
          | Some None => if nobody (holds_slot s') w then Some (set_cache (delete key (cache w)) w) else Some w
          | _ => Some w
          end
      | None => Some w
      end
  | Resolved _ _, Forget => Some (set_thread t Idle w)
  | _, _ => None
  end.

(** [LaunchSite::store] and [PlanCache::insert]. *)
Definition store_step (w : World) (t : nat) (pc : Thread) (e : Event) : option World :=
  match pc, e with
  | Resolved ep f, Register i r =>
      s ← stores w !! i;
      if (res_epoch r =? ep) && (res_function r =? f) && same_kind r (contents s)
         && (registered s || nobody (holds_registry (is_plan (contents s))) w)
      then Some (set_thread t (Storing i r) (set_store i (mkStore true (contents s)) w)) else None
  | Storing i r, LockStore => if nobody (holds_lock i) w then Some (set_thread t (Checking i r) w) else None
  | Checking i r, CheckEpoch => Some (set_thread t (if res_epoch r =? now w then Pushing i r else Idle) w)
  | Pushing i r, Push =>
      s ← stores w !! i;
      Some (set_thread t Idle (set_store i (mkStore (registered s) (put r (contents s))) w))
  | _, _ => None
  end.

(** [evict_kernel] and [retain_kernels], then [bump_kernel_cache_epoch]. *)
Definition evict_step (w : World) (t : nat) (pc : Thread) (e : Event) : option World :=
  match pc, e with
  | Idle, BeginEvict => Some (set_thread t (Removing false) w)
  | Removing b, Remove key =>
      match cache w !! key with
      | Some _ => Some (set_thread t (Removing true) (set_cache (delete key (cache w)) w))
      | None => Some w
      end
  | Removing false, EndEvict => Some (set_thread t Idle w)
  | Removing true, Bump =>
      Some (set_thread t Bumped (mkWorld (cache w) (cells w) (next_function w) (now w + 1) (stores w) (threads w)))
  | Bumped, LockRegistry =>
      if nobody (holds_registry false) w then Some (set_thread t (Draining false (registry false w)) w) else None
  | BetweenRegistries, LockRegistry =>
      if nobody (holds_registry true) w then Some (set_thread t (Draining true (registry true w)) w) else None
  | Draining plans (i :: rest), Drain =>
      s ← stores w !! i;
      if nobody (holds_lock i) w
      then Some (set_thread t (Draining plans rest) (set_store i (mkStore (registered s) (clear (contents s))) w)) else None
  | Draining plans [], UnlockRegistry => Some (set_thread t (if plans then Idle else BetweenRegistries) w)
  | _, _ => None
  end.

Definition step (w : World) (te : nat * Event) : option World :=
  pc ← threads w !! te.1;
  match resolve_step w te.1 pc te.2 with
  | Some w' => Some w'
  | None => match store_step w te.1 pc te.2 with Some w' => Some w' | None => evict_step w te.1 pc te.2 end
  end.

Fixpoint run (w : World) (es : list (nat * Event)) : option World :=
  match es with [] => Some w | e :: es => w' ← step w e; run w' es end.
End machine.

(** No kernel compiled, no store used yet. *)
Definition initial (kinds : list bool) (n : nat) : World :=
  mkWorld ∅ [] 0 0 ((fun p : bool => mkStore false (if p then CPlan no_plans else CSite no_entries)) <$> kinds) (replicate n Idle).

(** ** What the stores and threads hold *)

Definition holds (c : Contents) (r : Resolution) : Prop :=
  match c, r with
  | CSite s, RSite r => newest s = Some r \/ exists k b, by_hash s !! k = Some b /\ r ∈ b
  | CPlan m, RPlan p => newest_plan m = Some p \/ stored m p
  | _, _ => False
  end.

Definition kept (w : World) (i : nat) (r : Resolution) : Prop := exists s, stores w !! i = Some s /\ holds (contents s) r.

(** The stamped functions a thread holds, and its slot. *)
Definition thread_has (pc : Thread) : option (Z * Z) :=
  match pc with
  | Resolved e f => Some (e, f)
  | Storing _ r | Checking _ r | Pushing _ r => Some (res_epoch r, res_function r)
  | _ => None
  end.
Definition thread_slot (pc : Thread) : option (Z * nat) :=
  match pc with HasSlot e _ s | Compiling e _ s => Some (e, s) | _ => None end.
Definition thread_store (pc : Thread) : option nat :=
  match pc with Storing i _ | Checking i _ | Pushing i _ => Some i | _ => None end.

Definition some_thread (P : Thread -> Prop) (w : World) : Prop := exists t pc, threads w !! t = Some pc /\ P pc.

Definition has (w : World) (e f : Z) : Prop :=
  some_thread (fun pc => thread_has pc = Some (e, f)) w \/ exists i r, kept w i r /\ e = res_epoch r /\ f = res_function r.
Definition slotted (w : World) (e : Z) (s : nat) : Prop := some_thread (fun pc => thread_slot pc = Some (e, s)) w.

(** An eviction between removing kernels and bumping the epoch. *)
Definition removing (w : World) : Prop := some_thread (fun pc => pc = Removing true) w.

(** An eviction that has bumped the epoch and will still empty store [i]. *)
Definition will_drain (plan : bool) (i : nat) (pc : Thread) : Prop :=
  match pc with
  | Bumped => True
  | Draining false rest => if plan then True else i ∈ rest
  | BetweenRegistries => plan = true
  | Draining true rest => plan = true /\ i ∈ rest
  | _ => False
  end.
Definition covered (w : World) (i : nat) : Prop :=
  exists s, stores w !! i = Some s /\ some_thread (will_drain (is_plan (contents s)) i) w.

Definition in_cache (w : World) (f : Z) : Prop := exists key s, cache w !! key = Some s /\ cells w !! s = Some (Some f).

Record Inv (w : World) : Prop := {
  i_epochs : forall e f, has w e f -> e <= now w;
  i_slot_epochs : forall e s, slotted w e s -> e <= now w;
  i_read_epochs : forall e, some_thread (fun pc => pc = HasEpoch e) w -> e <= now w;
  i_cached : forall f, has w (now w) f -> in_cache w f \/ removing w;
  i_slots : forall s, slotted w (now w) s -> (exists key, cache w !! key = Some s) \/ removing w;
  i_registered : forall i r s, stores w !! i = Some s -> holds (contents s) r -> registered s = true;
  i_registering : forall i, some_thread (fun pc => thread_store pc = Some i) w -> exists s, stores w !! i = Some s /\ registered s = true;
  i_covered : forall i r, kept w i r \/ some_thread (fun pc => pc = Pushing i r) w -> res_epoch r = now w \/ covered w i;
  i_cells : forall key s, cache w !! key = Some s -> (s < length (cells w))%nat;
}.

(** ** Threads that change *)

Lemma some_thread_set P t pc w : some_thread P (set_thread t pc w) -> P pc \/ some_thread P w.
Proof.
  intros (u & x & Hu & Hx). cbn in Hu. apply list_lookup_insert_Some in Hu as [(_ & -> & _)|[_ Hu]]; [by left|right; by exists u, x].
Qed.

Lemma some_thread_new (P : Thread -> Prop) t pc old w : threads w !! t = Some old -> P pc -> some_thread P (set_thread t pc w).
Proof. intros Ht Hp. exists t, pc. split; [|done]. cbn. apply list_lookup_insert_eq. by eapply lookup_lt_Some. Qed.

Lemma nobody_spec p w : nobody p w = true -> ~ some_thread (fun pc => p pc = true) w.
Proof.
  unfold nobody. rewrite forallb_forall. intros H (t & pc & Ht & Hp). apply list_elem_of_lookup_2, list_elem_of_In in Ht.
  specialize (H pc Ht). by rewrite Hp in H.
Qed.

Lemma has_set t pc w e f : has (set_thread t pc w) e f -> thread_has pc = Some (e, f) \/ has w e f.
Proof. intros [H|H]; [apply some_thread_set in H as [H|H]; [by left|right; by left]|right; by right]. Qed.

Lemma slotted_set t pc w e s : slotted (set_thread t pc w) e s -> thread_slot pc = Some (e, s) \/ slotted w e s.
Proof. apply some_thread_set. Qed.

(** ** Stores that change *)

Section steps.
Context (probe_hash : Probe -> Z) (plan_hash : Z -> PlanOptions -> list LayoutKey -> Z).

Lemma site_store_holds r s x : holds (CSite (site_store probe_hash r s)) (RSite x) -> x = r \/ holds (CSite s) (RSite x).
Proof.
  unfold site_store. cbn [holds newest by_hash]. intros [[= <-]|(k & b & Hk & Hx)]; [by left|].
  apply lookup_insert_Some in Hk as [[<- <-]|[_ Hk]]; [|right; right; by exists k, b].
  apply elem_of_app in Hx as [Hx|Hx%list_elem_of_singleton]; [|by left]. right. right. exists (probe_hash (sr_probe r)).
  destruct (by_hash s !! probe_hash (sr_probe r)) as [b|]; cbn in Hx.
  - exists b. split; [done|]. destruct (list_find _ b) as [[i y]|] eqn:E; [|done].
    apply list_find_Some in E as (Hi & _). rewrite (Access.swap_remove_Permutation i b y Hi). by right.
  - by apply not_elem_of_nil in Hx.
Qed.

Lemma put_holds r c x : holds (put probe_hash plan_hash r c) x -> x = r \/ holds c x.
Proof.
  destruct r as [r|p], c as [s|m]; cbn [put]; try by right.
  - destruct x as [x|x]; [|done]. intros [->|H]%site_store_holds; [by left|by right].
  - destruct x as [x|x]; [done|]. cbn [holds]. unfold plan_insert. cbn [andb]. destruct (negb _) eqn:En; [|by right].
    intros [[= <-]|H]; [by left|]. pose proof (plan_insert_adds plan_hash true p x m) as Hadd. unfold plan_insert in Hadd.
    cbn [andb] in Hadd. rewrite En in Hadd. destruct (Hadd H) as [H'|[_ ->]]; [right; by right|by left].
Qed.

Lemma clear_holds c r : ~ holds (clear c) r.
Proof.
  destruct c, r; cbn; try tauto; intros [H|H]; try done; [destruct H as (k & b & H & _)|destruct H as (k & b & H & _)];
    cbn in H; by rewrite lookup_empty in H.
Qed.

Lemma kept_set_store i s s0 w j r : stores w !! i = Some s0 -> kept (set_store i s w) j r ->
  (j = i /\ holds (contents s) r) \/ (j <> i /\ kept w j r).
Proof.
  intros Hi (x & Hj & Hr). cbn in Hj. apply list_lookup_insert_Some in Hj as [(-> & -> & _)|[Hne Hj]]; [by left|].
  right. split; [congruence|]. by exists x.
Qed.

(** A thread moves; nothing else does. *)
Lemma inv_thread t old pc w : Inv w -> threads w !! t = Some old ->
  (forall e f, thread_has pc = Some (e, f) -> e <= now w /\ (e = now w -> in_cache w f \/ removing w)) ->
  (forall e s, thread_slot pc = Some (e, s) -> e <= now w /\ (e = now w -> (exists key, cache w !! key = Some s) \/ removing w)) ->
  (forall e, pc = HasEpoch e -> e <= now w) ->
  (forall i, thread_store pc = Some i -> exists s, stores w !! i = Some s /\ registered s = true) ->
  (forall i r, pc = Pushing i r -> res_epoch r = now w \/ covered w i) ->
  (old = Removing true -> pc = Removing true) ->
  (forall i s, stores w !! i = Some s -> registered s = true ->
     will_drain (is_plan (contents s)) i old -> will_drain (is_plan (contents s)) i pc) ->
  Inv (set_thread t pc w).
Proof.
  intros I Ht Hhas Hslot Hread Hreg Hpush Hrem Hdrain.
  assert (Hremoving : removing w -> removing (set_thread t pc w)).
  { intros (u & x & Hu & ->). destruct (decide (u = t)) as [->|Hne].
    - eapply some_thread_new; [exact Ht|]. apply Hrem. congruence.
    - exists u, (Removing true). split; [|done]. cbn. by rewrite list_lookup_insert_ne. }
  assert (Hcov : forall i s, stores w !! i = Some s -> registered s = true -> covered w i -> covered (set_thread t pc w) i).
  { intros i s Hs Hrs (s' & Hs' & u & x & Hu & Hx). assert (s' = s) as -> by congruence. exists s. split; [done|].
    destruct (decide (u = t)) as [->|Hne].
    - assert (x = old) as -> by congruence. eapply some_thread_new; [exact Ht|]. by apply Hdrain.
    - exists u, x. split; [|done]. cbn. by rewrite list_lookup_insert_ne. }
  split; cbn [cache cells now stores set_thread].
  - intros e f [H|H]%has_set; [by apply Hhas in H as [? _]|by eapply i_epochs].
  - intros e s [H|H]%slotted_set; [by apply Hslot in H as [? _]|by eapply i_slot_epochs].
  - intros e [H|H]%some_thread_set; [by apply Hread|by eapply i_read_epochs].
  - intros f [H|H]%has_set.
    + apply Hhas in H as [_ H]. destruct (H eq_refl) as [?|?]; [by left|right; by apply Hremoving].
    + destruct (i_cached w I f H) as [?|?]; [by left|right; by apply Hremoving].
  - intros s [H|H]%slotted_set.
    + apply Hslot in H as [_ H]. destruct (H eq_refl) as [?|?]; [by left|right; by apply Hremoving].
    + destruct (i_slots w I s H) as [?|?]; [by left|right; by apply Hremoving].
  - apply (i_registered w I).
  - intros i [H|H]%some_thread_set; [by apply Hreg|by apply (i_registering w I)].
  - intros i r H.
    assert (Hold : (kept w i r \/ some_thread (fun pc => pc = Pushing i r) w) \/ pc = Pushing i r).
    { destruct H as [H|H]; [left; by left|]. apply some_thread_set in H as [H|H]; [by right|left; by right]. }
    assert (Hregi : forall s, stores w !! i = Some s -> registered s = true).
    { intros s Hs. destruct Hold as [[(s' & Hs' & Hr)|(u & x & Hu & ->)]| ->].
      - rewrite Hs in Hs'. injection Hs' as <-. by eapply i_registered.
      - destruct (i_registering w I i) as (x & Hx & Hr); [by exists u, (Pushing i r)|]. congruence.
      - destruct (Hreg i eq_refl) as (x & Hx & Hr). congruence. }
    assert (Hcase : res_epoch r = now w \/ covered w i) by (destruct Hold as [H'| ->]; [by apply (i_covered w I)|by apply Hpush]).
    destruct Hcase as [?|Hc]; [by left|right]. destruct Hc as (s & Hs & Hc). eapply Hcov; [exact Hs|by apply Hregi|by exists s].
  - apply (i_cells w I).
Qed.

(** ** The cache changes *)

Lemma inv_new_slot key w : Inv w -> cache w !! key = None ->
  Inv (mkWorld (<[key := length (cells w)]> (cache w)) (cells w ++ [None]) (next_function w) (now w) (stores w) (threads w)).
Proof.
  intros I Hk. split; cbn; try by destruct I.
  - intros f H. destruct (i_cached w I f H) as [(k & s & Hs & Hf)|?]; [left|by right].
    exists k, s. cbn. rewrite lookup_insert_ne by congruence. split; [done|]. by apply lookup_app_l_Some.
  - intros s H. destruct (i_slots w I s H) as [(k & Hs)|?]; [left|by right]. exists k. by rewrite lookup_insert_ne by congruence.
  - intros k s Hs. rewrite length_app. cbn. apply lookup_insert_Some in Hs as [[_ <-]|[_ Hs]]; [lia|]. pose proof (i_cells w I k s Hs). lia.
Qed.

Lemma inv_compiled s f w : Inv w -> cells w !! s = Some None ->
  Inv (mkWorld (cache w) (<[s := Some f]> (cells w)) (f + 1) (now w) (stores w) (threads w)).
Proof.
  intros I Hs. split; cbn; try by destruct I.
  - intros g H. destruct (i_cached w I g H) as [(k & s' & Hk & Hg)|?]; [left|by right].
    exists k, s'. split; [done|]. cbn. rewrite list_lookup_insert_ne; [done|]. congruence.
  - intros k s' Hk. rewrite length_insert. by eapply i_cells.
Qed.

Lemma inv_delete_empty key s w : Inv w -> cache w !! key = Some s -> cells w !! s = Some None -> nobody (holds_slot s) w = true ->
  Inv (set_cache (delete key (cache w)) w).
Proof.
  intros I Hk Hs Hno. split; cbn; try by destruct I.
  - intros f H. destruct (i_cached w I f H) as [(k & s' & Hk' & Hf)|?]; [left|by right].
    exists k, s'. cbn. rewrite lookup_delete_ne; [done|]. intros <-. congruence.
  - intros s' H. destruct (i_slots w I s' H) as [(k & Hk')|?]; [left|by right]. exists k. rewrite lookup_delete_ne; [done|].
    intros <-. assert (s' = s) as -> by congruence. apply nobody_spec in Hno. apply Hno. destruct H as (t & pc & Ht & Hp).
    exists t, pc. split; [done|]. destruct pc; cbn in Hp; try discriminate; injection Hp as -> ->; cbn; apply Nat.eqb_refl.
  - intros k s' Hk'. apply lookup_delete_Some in Hk' as [_ Hk']. by eapply i_cells.
Qed.

Lemma inv_remove key w : Inv w -> removing w -> Inv (set_cache (delete key (cache w)) w).
Proof.
  intros I Hr. split; cbn; try by destruct I.
  - intros; by right.
  - intros; by right.
  - intros k s Hk. apply lookup_delete_Some in Hk as [_ Hk]. by eapply i_cells.
Qed.

(** ** The stores change *)

Lemma covered_store i s s0 w j : stores w !! i = Some s0 -> is_plan (contents s) = is_plan (contents s0) ->
  covered w j -> covered (set_store i s w) j.
Proof.
  intros Hi Hk (x & Hx & Hc). destruct (decide (j = i)) as [->|Hne].
  - exists s. split; [cbn; apply list_lookup_insert_eq; by eapply lookup_lt_Some|]. rewrite Hk. by assert (x = s0) as -> by congruence.
  - exists x. split; [|done]. cbn. by rewrite list_lookup_insert_ne.
Qed.

(** A registered store whose new contents come from its old ones, or are
    stamped values threads hold. *)
Lemma inv_set_store i s s0 w : Inv w -> stores w !! i = Some s0 -> registered s = true -> is_plan (contents s) = is_plan (contents s0) ->
  (forall r, holds (contents s) r -> holds (contents s0) r \/ some_thread (fun pc => pc = Pushing i r) w) -> Inv (set_store i s w).
Proof.
  intros I Hi Hreg Hkind Hsub.
  assert (Hkept : forall j r, kept (set_store i s w) j r -> kept w j r \/ some_thread (fun pc => pc = Pushing j r) w).
  { intros j r H. destruct (kept_set_store i s s0 w j r Hi H) as [[-> Hr]|[_ Hr]]; [|by left].
    destruct (Hsub r Hr) as [Hr'|Hp]; [left; by exists s0|by right]. }
  assert (Hhas : forall e f, has (set_store i s w) e f -> has w e f).
  { intros e f [H|(j & r & H & -> & ->)]; [by left|]. destruct (Hkept j r H) as [H'|(t & pc & Ht & ->)]; [right; by exists j, r|].
    left. by exists t, (Pushing j r). }
  split; cbn [cache cells now set_store]; try by destruct I.
  - intros e f H. by eapply i_epochs, Hhas.
  - intros f H. by apply (i_cached w I), Hhas.
  - intros j r x Hx Hr. cbn in Hx. apply list_lookup_insert_Some in Hx as [(-> & -> & _)|[_ Hx]]; [done|by eapply i_registered].
  - intros j Hj. destruct (i_registering w I j Hj) as (x & Hx & Hr). destruct (decide (j = i)) as [->|Hne].
    + exists s. split; [|done]. apply list_lookup_insert_eq. by eapply lookup_lt_Some.
    + exists x. cbn. by rewrite list_lookup_insert_ne.
  - intros j r H. assert (H' : kept w j r \/ some_thread (fun pc => pc = Pushing j r) w) by (destruct H as [H|H]; [by apply Hkept|by right]).
    destruct (i_covered w I j r H') as [?|Hc]; [by left|right]. by eapply covered_store.
Qed.

Lemma is_plan_put r c : is_plan (put probe_hash plan_hash r c) = is_plan c.
Proof. by destruct r, c. Qed.
Lemma is_plan_clear c : is_plan (clear c) = is_plan c.
Proof. by destruct c. Qed.

(** ** Every step keeps the invariant *)

(** The conditions of [inv_thread] a step does not concern. *)
Ltac other_conditions :=
  cbn [thread_has thread_slot thread_store will_drain]; try discriminate; try done;
  try (by intros; intuition discriminate); try (by intros ? ? ? [=]); try (by intros ? ? [=]); try (by intros ? [=]).

Lemma thread_of {w t pc} (P : Thread -> Prop) : threads w !! t = Some pc -> P pc -> some_thread P w.
Proof. intros Ht Hp. by exists t, pc. Qed.

Lemma resolve_step_inv w t pc e w' : Inv w -> threads w !! t = Some pc -> resolve_step w t pc e = Some w' -> Inv w'.
Proof.
  intros I Ht H. destruct pc; cbn in H; destruct e; try discriminate.
  - injection H as <-. eapply inv_thread; [done|done|..]; other_conditions. intros ? [= <-]. lia.
  - destruct (cache w !! key) as [s|] eqn:Ek; injection H as <-.
    + eapply inv_thread; [done|done|..]; other_conditions. intros e' s' [= <- <-].
      split; [eapply (i_read_epochs w I), (thread_of (fun x => x = HasEpoch e0) Ht); done|intros _; left; by exists key].
    + eapply (inv_thread t (HasEpoch e0)); [by apply inv_new_slot|done|..]; other_conditions. cbn. intros e' s' [= <- <-].
      split; [eapply (i_read_epochs w I), (thread_of (fun x => x = HasEpoch e0) Ht); done|].
      intros _. left. exists key. by rewrite lookup_insert_eq.
  - destruct (cells w !! slot) as [[|]|]; [|destruct (nobody _ w)|]; try discriminate. injection H as <-.
    assert (Hs : slotted w e0 slot) by (by apply (thread_of _ Ht)).
    eapply inv_thread; [done|done|..]; other_conditions. intros e' s' [= <- <-].
    split; [by eapply i_slot_epochs|intros ->; by apply (i_slots w I)].
  - destruct (cells w !! slot) as [[f|]|] eqn:Ec; try discriminate. injection H as <-.
    assert (Hs : slotted w e0 slot) by (by apply (thread_of _ Ht)).
    eapply inv_thread; [done|done|..]; other_conditions. intros e' f' [= <- <-].
    split; [by eapply i_slot_epochs|]. intros ->. destruct (i_slots w I slot Hs) as [(k & Hk)|?]; [left; by exists k, slot|by right].
  - destruct (cells w !! slot) as [[|]|] eqn:Ec; try discriminate. injection H as <-.
    assert (Hs : slotted w e0 slot) by (by apply (thread_of _ Ht)).
    eapply (inv_thread t (Compiling e0 key slot)); [by apply inv_compiled|done|..]; other_conditions. cbn. intros e' f' [= <- <-].
    split; [by eapply i_slot_epochs|]. intros ->. destruct (i_slots w I slot Hs) as [(k & Hk)|?]; [left|by right].
    exists k, slot. cbn. split; [done|]. apply list_lookup_insert_eq. by eapply lookup_lt_Some.
  - assert (I' : Inv (set_thread t Idle w)) by (eapply inv_thread; [done|done|..]; other_conditions).
    destruct (cache w !! key) as [s|] eqn:Ek; [|by injection H as <-].
    destruct (cells w !! s) as [[|]|] eqn:Ec; try by injection H as <-.
    change (forallb _ _) with (nobody (holds_slot s) (set_thread t Idle w)) in H.
    destruct (nobody (holds_slot s) (set_thread t Idle w)) eqn:En; injection H as <-; [|done]. exact (inv_delete_empty key s (set_thread t Idle w) I' Ek Ec En).
  - injection H as <-. eapply inv_thread; [done|done|..]; other_conditions.
Qed.

Lemma store_step_inv w t pc e w' : Inv w -> threads w !! t = Some pc -> store_step probe_hash plan_hash w t pc e = Some w' -> Inv w'.
Proof.
  intros I Ht H. destruct pc; cbn in H; destruct e; try discriminate.
  - apply bind_Some in H as (s & Hs & H). destruct (_ && _ && _ && _) eqn:Eb; [|discriminate]. injection H as <-.
    apply andb_prop in Eb as [Eb _]. apply andb_prop in Eb as [Eb _]. apply andb_prop in Eb as [E1 E2]. apply Z.eqb_eq in E1. apply Z.eqb_eq in E2. subst.
    assert (Hh : has w (res_epoch r) (res_function r)) by (left; by apply (thread_of _ Ht)).
    assert (I' : Inv (set_store i (mkStore true (contents s)) w)) by (eapply (inv_set_store i _ s); [done|done|done|done|cbn; by left]).
    eapply (inv_thread t (Resolved (res_epoch r) (res_function r))); [done|done|..]; other_conditions; cbn.
    + intros e f [= <- <-]. split; [by eapply i_epochs|intros Hn; rewrite Hn in Hh; by apply (i_cached w I)].
    + intros j [= <-]. eexists. split; [apply list_lookup_insert_eq; by eapply lookup_lt_Some|done].
  - destruct (nobody _ w); [|discriminate]. injection H as <-.
    assert (Hh : has w (res_epoch r) (res_function r)) by (left; by apply (thread_of _ Ht)).
    eapply inv_thread; [done|done|..]; other_conditions.
    + intros e f [= <- <-]. split; [by eapply i_epochs|intros Hn; rewrite Hn in Hh; by apply (i_cached w I)].
    + intros j [= <-]. apply (i_registering w I). by apply (thread_of _ Ht).
  - injection H as <-. assert (Hh : has w (res_epoch r) (res_function r)) by (left; by apply (thread_of _ Ht)).
    destruct (Z.eqb_spec (res_epoch r) (now w)) as [He|He]; (eapply inv_thread; [done|done|..]); other_conditions.
    + intros e f [= <- <-]. split; [by eapply i_epochs|intros Hn; rewrite Hn in Hh; by apply (i_cached w I)].
    + intros j [= <-]. apply (i_registering w I). by apply (thread_of _ Ht).
    + intros j x [= <- <-]. by left.
  - apply bind_Some in H as (s & Hs & H). injection H as <-.
    assert (I' : Inv (set_store i (mkStore (registered s) (put probe_hash plan_hash r (contents s))) w)).
    { eapply (inv_set_store i _ s); [done|done| |apply is_plan_put|].
      - destruct (i_registering w I i) as (x & Hx & Hr); [by apply (thread_of _ Ht)|]. cbn. congruence.
      - intros x [->|Hx]%put_holds; [right; by apply (thread_of _ Ht)|by left]. }
    eapply (inv_thread t (Pushing i r)); [done|done|..]; other_conditions.
Qed.

Lemma inv_bump t w : Inv w -> threads w !! t = Some (Removing true) ->
  Inv (set_thread t Bumped (mkWorld (cache w) (cells w) (next_function w) (now w + 1) (stores w) (threads w))).
Proof.
  intros I Ht. set (w1 := mkWorld _ _ _ _ _ _).
  assert (Hthreads : forall P, ~ P Bumped -> some_thread P (set_thread t Bumped w1) -> some_thread P w)
    by (intros P HP [H|H]%some_thread_set; done).
  assert (Hhas : forall e f, has (set_thread t Bumped w1) e f -> has w e f)
    by (intros e f [H|H]; [left; by apply Hthreads|by right]).
  split; cbn [cache cells now stores set_thread w1].
  - intros e f H. apply Hhas, (i_epochs w I) in H. lia.
  - intros e s H. apply Hthreads, (i_slot_epochs w I) in H; [lia|done].
  - intros e H. apply Hthreads, (i_read_epochs w I) in H; [lia|done].
  - intros f H. apply Hhas, (i_epochs w I) in H. lia.
  - intros s H. apply Hthreads, (i_slot_epochs w I) in H; [lia|done].
  - apply (i_registered w I).
  - intros i H. apply (i_registering w I). by apply Hthreads.
  - intros i r H. right. assert (Hi : exists s, stores w !! i = Some s).
    { destruct H as [(s & Hs & _)|H]; [by exists s|]. apply Hthreads in H; [|done]. destruct H as (u & x & Hu & ->).
      destruct (i_registering w I i) as (s & Hs & _); [by exists u, (Pushing i r)|by exists s]. }
    destruct Hi as [s Hs]. exists s. split; [done|]. eapply (some_thread_new _ t Bumped (Removing true) w1); done.
  - apply (i_cells w I).
Qed.

Lemma registry_elem plans w i s : stores w !! i = Some s -> registered s = true -> is_plan (contents s) = plans -> i ∈ registry plans w.
Proof.
  intros Hs Hr Hp. unfold registry. apply list_elem_of_filter. rewrite Hs, Hr, Hp, eqb_reflx. split; [done|].
  apply elem_of_seq. apply lookup_lt_Some in Hs. lia.
Qed.

Lemma inv_drain t plans i rest s w : Inv w -> threads w !! t = Some (Draining plans (i :: rest)) -> stores w !! i = Some s ->
  nobody (holds_lock i) w = true ->
  Inv (set_thread t (Draining plans rest) (set_store i (mkStore (registered s) (clear (contents s))) w)).
Proof.
  intros I Ht Hs Hno. set (s' := mkStore _ _). set (w' := set_thread _ _ _).
  assert (Hkept : forall j r, kept w' j r -> j <> i /\ kept w j r).
  { intros j r H. destruct (kept_set_store i s' s w j r Hs H) as [[-> Hr]|H']; [by apply clear_holds in Hr|done]. }
  assert (Hthreads : forall P, ~ P (Draining plans rest) -> some_thread P w' -> some_thread P w)
    by (intros P HP [H|H]%some_thread_set; done).
  assert (Hhas : forall e f, has w' e f -> has w e f).
  { intros e f [H|(j & r & [_ H]%Hkept & -> & ->)]; [left; by apply Hthreads|right; by exists j, r]. }
  assert (Hremoving : removing w -> removing w').
  { intros (u & x & Hu & ->). exists u, (Removing true). split; [|done]. cbn. rewrite list_lookup_insert_ne; [done|]. congruence. }
  split; cbn [cache cells now w' set_thread set_store].
  - intros e f H. by eapply i_epochs, Hhas.
  - intros e x H. eapply i_slot_epochs; [done|]. by apply Hthreads.
  - intros e H. eapply i_read_epochs; [done|]. by apply Hthreads.
  - intros f H. destruct (i_cached w I f (Hhas _ _ H)) as [?|?]; [by left|right; by apply Hremoving].
  - intros x H. destruct (i_slots w I x) as [?|?]; [by apply Hthreads|by left|right; by apply Hremoving].
  - intros j r x Hx Hr. cbn in Hx. apply list_lookup_insert_Some in Hx as [(_ & <- & _)|[_ Hx]]; [by apply clear_holds in Hr|by eapply i_registered].
  - intros j H. apply Hthreads in H; [|done]. destruct (i_registering w I j H) as (x & Hx & Hr). destruct (decide (j = i)) as [->|Hne].
    + exists s'. split; [apply list_lookup_insert_eq; by eapply lookup_lt_Some|]. cbn. congruence.
    + exists x. cbn. by rewrite list_lookup_insert_ne.
  - intros j r H. assert (Hj : j <> i /\ (kept w j r \/ some_thread (fun pc => pc = Pushing j r) w)).
    { destruct H as [[? ?]%Hkept|H]; [tauto|]. apply Hthreads in H; [|done]. split; [|by right]. intros ->.
      apply nobody_spec in Hno. apply Hno. destruct H as (u & x & Hu & ->). exists u, (Pushing i r). split; [done|]. cbn. apply Nat.eqb_refl. }
    destruct Hj as [Hne Hj]. destruct (i_covered w I j r Hj) as [?|(x & Hx & u & pc & Hu & Hd)]; [by left|right].
    exists x. split; [cbn; by rewrite list_lookup_insert_ne|]. destruct (decide (u = t)) as [->|Hut].
    + rewrite Ht in Hu. injection Hu as <-. eapply (some_thread_new _ t _ (Draining plans (i :: rest))); [done|].
      destruct plans; cbn in *; [destruct Hd as [? Hd]; split; [done|]|destruct (is_plan (contents x)); [done|]];
        by apply elem_of_cons in Hd as [?|?].
    + exists u, pc. split; [|done]. cbn. by rewrite list_lookup_insert_ne.
  - apply (i_cells w I).
Qed.

Lemma removed_inv t b key w : Inv w -> threads w !! t = Some (Removing b) ->
  Inv (set_thread t (Removing true) (set_cache (delete key (cache w)) w)).
Proof.
  intros I Ht. assert (I' : Inv (set_thread t (Removing true) w)) by (eapply inv_thread; [done|done|..]; other_conditions).
  apply (inv_remove key (set_thread t (Removing true) w) I'). by eapply some_thread_new.
Qed.

Lemma evict_step_inv w t pc e w' : Inv w -> threads w !! t = Some pc -> evict_step w t pc e = Some w' -> Inv w'.
Proof.
  intros I Ht H. destruct pc as [| | | | | | | |[]| |[] [|i rest]|]; cbn in H; destruct e; try discriminate.
  - injection H as <-. eapply inv_thread; [done|done|..]; other_conditions.
  - destruct (cache w !! key); injection H as <-; [by eapply removed_inv|done].
  - injection H as <-. by apply inv_bump.
  - destruct (cache w !! key); injection H as <-; [by eapply removed_inv|done].
  - injection H as <-. eapply inv_thread; [done|done|..]; other_conditions.
  - destruct (nobody _ w); [|discriminate]. injection H as <-. eapply inv_thread; [done|done|..]; other_conditions.
    intros i s Hs Hr _. destruct (is_plan (contents s)) eqn:Ep; [done|by eapply registry_elem].
  - injection H as <-. eapply inv_thread; [done|done|..]; other_conditions. intros i s _ _ [_ Hi]. by apply not_elem_of_nil in Hi.
  - apply bind_Some in H as (s & Hs & H). destruct (nobody (holds_lock i) w) eqn:En; [|discriminate]. injection H as <-. by apply inv_drain.
  - injection H as <-. eapply inv_thread; [done|done|..]; other_conditions. intros i s _ _ Hd.
    destruct (is_plan (contents s)); [done|by apply not_elem_of_nil in Hd].
  - apply bind_Some in H as (s & Hs & H). destruct (nobody (holds_lock i) w) eqn:En; [|discriminate]. injection H as <-. by apply inv_drain.
  - destruct (nobody _ w); [|discriminate]. injection H as <-. eapply inv_thread; [done|done|..]; other_conditions.
    intros i s Hs Hr Hp. split; [done|by eapply registry_elem].
Qed.

Lemma evict_world_step_inv w te w' : Inv w -> step probe_hash plan_hash w te = Some w' -> Inv w'.
Proof.
  intros I H. unfold step in H. apply bind_Some in H as (pc & Ht & H).
  destruct (resolve_step w te.1 pc te.2) eqn:E1; [injection H as <-; by eapply resolve_step_inv|].
  destruct (store_step probe_hash plan_hash w te.1 pc te.2) eqn:E2; [injection H as <-; by eapply store_step_inv|by eapply evict_step_inv].
Qed.

Lemma evict_world_run_inv es : forall w w', Inv w -> run probe_hash plan_hash w es = Some w' -> Inv w'.
Proof.
  induction es as [|te es IH]; intros w w' I H; cbn in H; [by injection H as <-|].
  apply bind_Some in H as (w1 & H1 & H). eapply IH; [|exact H]. by eapply evict_world_step_inv.
Qed.
End steps.

Lemma initial_idle kinds n t pc : threads (initial kinds n) !! t = Some pc -> pc = Idle.
Proof. cbn. intros H. by apply lookup_replicate in H as [-> _]. Qed.

Lemma evict_world_initial_inv kinds n : Inv (initial kinds n).
Proof.
  assert (Hno : forall P, ~ P Idle -> ~ some_thread P (initial kinds n)).
  { intros P HP (t & pc & Ht & Hp). apply initial_idle in Ht as ->. done. }
  assert (Hempty : forall i s r, stores (initial kinds n) !! i = Some s -> ~ holds (contents s) r).
  { intros i s r Hs. cbn in Hs. apply list_lookup_fmap_Some in Hs as (p & -> & _).
    cbn. destruct p; [apply (clear_holds (CPlan no_plans))|apply (clear_holds (CSite no_entries))]. }
  assert (Hkept : forall i r, ~ kept (initial kinds n) i r) by (intros i r (s & Hs & Hr); by eapply Hempty).
  assert (Hhas : forall e f, ~ has (initial kinds n) e f).
  { intros e f [H|(i & r & H & _)]; [exfalso; revert H; by apply Hno|by apply Hkept in H]. }
  split.
  - intros e f H. by apply Hhas in H.
  - intros e s H. exfalso; revert H; by apply Hno.
  - intros e H. exfalso; revert H; by apply Hno.
  - intros f H. by apply Hhas in H.
  - intros s H. exfalso; revert H; by apply Hno.
  - intros i r s Hs Hr. by apply (Hempty i s r Hs) in Hr.
  - intros i H. exfalso; revert H; by apply Hno.
  - intros i r [H|H]; [by apply Hkept in H|exfalso; revert H; by apply Hno].
  - intros key s H. cbn in H. by rewrite lookup_empty in H.
Qed.

(** ** Lookups *)

Lemma site_get_holds probe_hash e p s f v : site_get probe_hash e p s = Some (f, v) ->
  exists r, holds (CSite s) (RSite r) /\ e = sr_epoch r /\ f = sr_function r /\ v = sr_validator r.
Proof.
  assert (Hm : forall r, site_matches e p r = true -> e = sr_epoch r).
  { intros r H. apply andb_prop in H as [H _]. by apply Z.eqb_eq in H. }
  assert (Hb : forall r, by_hash s !! probe_hash p ≫= List.find (site_matches e p) = Some r -> holds (CSite s) (RSite r) /\ site_matches e p r = true).
  { intros r H. apply bind_Some in H as (b & Hb & H). apply List.find_some in H as [Hr H]. split; [|done]. right.
    exists (probe_hash p), b. split; [done|]. by apply list_elem_of_In. }
  unfold site_get. intros H. apply bind_Some in H as (r & Hr & H). injection H as <- <-. exists r.
  destruct (newest s) as [r'|] eqn:En; [destruct (site_matches e p r') eqn:Em|].
  - injection Hr as <-. split; [by left|]. split; [by apply Hm|done].
  - apply Hb in Hr as [Hr Hr']. split; [done|]. split; [by apply Hm|done].
  - apply Hb in Hr as [Hr Hr']. split; [done|]. split; [by apply Hm|done].
Qed.

Lemma plan_get_holds hash e dev o as_ m p : plan_get hash e dev o as_ m = Some p -> holds (CPlan m) (RPlan p) /\ e = epoch p.
Proof.
  assert (Hs : forall q, serves e dev o as_ q = true -> e = epoch q).
  { intros q H. unfold serves in H. repeat apply andb_prop in H as [H _]. by apply Z.eqb_eq in H. }
  assert (Hb : forall q, by_key m !! args_key hash dev o as_ ≫= List.find (serves e dev o as_) = Some q -> stored m q /\ e = epoch q).
  { intros q H. apply bind_Some in H as (b & Hb & H). apply List.find_some in H as [Hq H]. split; [|by apply Hs].
    eexists _, b. split; [done|]. by apply list_elem_of_In. }
  unfold plan_get. destruct (newest_plan m) as [q|] eqn:En; [destruct (serves e dev o as_ q) eqn:Eq|].
  - intros [= <-]. split; [by left|by apply Hs].
  - intros [? ?]%Hb. split; [by right|done].
  - intros [? ?]%Hb. split; [by right|done].
Qed.

(** ** Theorems *)

(** Threads that are not evicting. *)
Definition evicting (pc : Thread) : bool :=
  match pc with Removing _ | Bumped | Draining _ _ | BetweenRegistries => true | _ => false end.

(** C12: No eviction leaves a function behind. However launches, compilations, stores and evictions interleave: a
    lookup in a launch site or a plan cache returns only a function the kernel cache still holds, unless an eviction is
    just removing it; and once no eviction is running, every resolution kept in any site or plan cache is of the
    current generation and its function is in the kernel cache. *)
Theorem no_function_outlives_eviction (probe_hash : Probe -> Z) (plan_hash : Z -> PlanOptions -> list LayoutKey -> Z)
    (kinds : list bool) (n : nat) (es : list (nat * Event)) (w : World)
    (Hrun : run probe_hash plan_hash (initial kinds n) es = Some w) :
  (forall i g s p f v, stores w !! i = Some (mkStore g (CSite s)) -> site_get probe_hash (now w) p s = Some (f, v) ->
     in_cache w f \/ removing w) /\
  (forall i g m dev o as_ p, stores w !! i = Some (mkStore g (CPlan m)) -> plan_get plan_hash (now w) dev o as_ m = Some p ->
     in_cache w (function p) \/ removing w) /\
  (nobody evicting w = true -> forall i r, kept w i r -> res_epoch r = now w /\ in_cache w (res_function r)).
Proof.
  pose proof (evict_world_run_inv probe_hash plan_hash es _ w (evict_world_initial_inv kinds n) Hrun) as I. split; [|split].
  - intros i g s p f v Hs Hg. apply site_get_holds in Hg as (r & Hr & He & -> & _). apply (i_cached w I). right.
    exists i, (RSite r). split; [by exists (mkStore g (CSite s))|done].
  - intros i g m dev o as_ p Hs Hg. apply plan_get_holds in Hg as [Hp He]. apply (i_cached w I). right.
    exists i, (RPlan p). split; [by exists (mkStore g (CPlan m))|done].
  - intros Hq i r Hk. apply nobody_spec in Hq. assert (He : res_epoch r = now w).
    { destruct (i_covered w I i r (or_introl Hk)) as [?|(s & _ & t & pc & Ht & Hd)]; [done|]. destruct Hq. exists t, pc.
      split; [done|]. by destruct pc as [| | | | | | | |b| |[] l|]. }
    split; [done|]. destruct (i_cached w I (res_function r)) as [?|(t & pc & Ht & ->)]; [right; by exists i, r|done|].
    destruct Hq. by exists t, (Removing true).
Qed.

(** A launch that is evicted after it stored its resolution, and launched again. *)
Definition any_probe : Probe := mkProbe 0 [] [] [] None (CompileOptions_default "none").
Definition launched_at (e f : Z) : Resolution := RSite (mkResolution e any_probe f 9).

Definition launch_events (e f : Z) : list (nat * Event) :=
  (fun x => (0%nat, x)) <$> [ReadEpoch; TakeSlot 5; BeginCompile; CompileOk; Register 0 (launched_at e f); LockStore; CheckEpoch; Push].
Definition evict_events : list (nat * Event) :=
  (fun x => (1%nat, x)) <$> [BeginEvict; Remove 5; Bump; LockRegistry; Drain; UnlockRegistry; LockRegistry; UnlockRegistry].

Definition relaunched : World := Eval vm_compute in
  match run (fun _ => 0) constant_hash (initial [false; true] 2) (launch_events 0 0 ++ evict_events ++ launch_events 1 1) with
  | Some w => w | None => initial [] 0 end.

Lemma no_function_outlives_eviction_witness :
  run (fun _ => 0) constant_hash (initial [false; true] 2) (launch_events 0 0 ++ evict_events ++ launch_events 1 1) = Some relaunched /\
  kept relaunched 0 (launched_at 1 1) /\ in_cache relaunched 1.
Proof.
  assert (Hk : kept relaunched 0 (launched_at 1 1)) by (eexists; split; [reflexivity|left; reflexivity]).
  split; [vm_compute; reflexivity|]. split; [exact Hk|].
  refine (proj2 (proj2 (proj2 (no_function_outlives_eviction (fun _ => 0) constant_hash [false; true] 2
    (launch_events 0 0 ++ evict_events ++ launch_events 1 1) relaunched _)) _ 0%nat (launched_at 1 1) Hk)); vm_compute; reflexivity.
Defined.
