(* ===== verification/Reactor.v ===== *)
(** * The completion reactor (cuda-async/src/reactor.rs over slot_table.rs)

    Registrants claim a slot, arm a device write of its flag and publish a
    payload; one scanner retires slots whose flag landed.  The table of
    SlotTable.v is run here at the granularity of its atomic accesses, where
    registrants, the device and the scanner interleave.  The theorems are
    about every interleaving: payloads are delivered exactly once and never
    before their own flag write, slots never have two owners, the armed count
    never underflows and no wake-up is lost; and about one undisturbed pass:
    it is [scan_inner], and it retires exactly the landed slots.  Accesses
    are sequentially consistent. *)

From S2P Require Import Prelude SlotTable.

(** ** The reactor as interleaved atomic steps *)

Definition SPIN_PASSES : Z := 10000.

Section reactor.
Context {P : Type}.

(** What the threads share: the table, the flag writes queued on streams
    (slot and the registration that queued it) and the scanner's park token;
    and, for the statements, the history of published payloads, executed flag
    writes, signalled and fault-woken registrations. *)
Record Shared := mkShared {
  table : SlotTable P;
  queued : list (nat * P);
  token : bool;
  published : list P;
  finished : list P;
  signalled : list P;
  faulted : list P;
}.

Definition with_table (f : SlotTable P -> SlotTable P) (sh : Shared) : Shared :=
  mkShared (f (table sh)) (queued sh) (token sh) (published sh) (finished sh) (signalled sh) (faulted sh).

(** Where a thread is in [register]. *)
Inductive RegPC :=
| RIdle
| RClaimed (slot : nat) (p : P)   (** before [reset_flag] *)
| RReset (slot : nat) (p : P)     (** before [cuStreamWriteValue32] *)
| RFailed (slot : nat)            (** the driver refused; before [release] *)
| RArmed (slot : nat) (p : P)     (** in [publish], before the payload write *)
| RWritten (slot : nat)           (** before [n_armed.fetch_add] *)
| RCounted (slot : nat) (was_idle : bool)  (** before the bit is set *)
| RPublished (was_idle : bool).   (** before the conditional [unpark] *)

(** One step of a registrant: [p] is the registration a new call brings and
    [code] whether the driver accepts the write. *)
Definition reg_step (p : P) (code : bool) (sh : Shared) (r : RegPC) : Shared * RegPC :=
  match r with
  | RIdle =>
      match claim (table sh) with
      | (Some slot, t) => (with_table (fun _ => t) sh, RClaimed slot p)
      | (None, _) => (sh, RIdle)
      end
  | RClaimed slot p => (with_table (store_flag slot 0) sh, RReset slot p)
  | RReset slot p =>
      if code then
        (mkShared (table sh) ((slot, p) :: queued sh) (token sh) (published sh) (finished sh)
           (signalled sh) (faulted sh), RArmed slot p)
      else (sh, RFailed slot)
  | RFailed slot => (with_table (release slot) sh, RIdle)
  | RArmed slot p =>
      (mkShared (write_payload slot (Some p) (table sh)) (queued sh) (token sh) (p :: published sh)
         (finished sh) (signalled sh) (faulted sh), RWritten slot)
  | RWritten slot =>
      let '(was_idle, t) := count_armed (table sh) in
      (with_table (fun _ => t) sh, RCounted slot was_idle)
  | RCounted slot was_idle => (with_table (set_active slot) sh, RPublished was_idle)
  | RPublished was_idle =>
      (mkShared (table sh) (queued sh) (token sh || was_idle) (published sh) (finished sh)
         (signalled sh) (faulted sh), RIdle)
  end.

(** Where the scanner is in [scan_loop] and [scan_inner]. *)
Inductive ScanPC :=
| AtScan (probing : bool)                              (** a pass begins *)
| AtWord (word : nat)                                  (** before the load of a word *)
| AtBits (word : nat) (bits : Z)                       (** head of the bit loop *)
| AtFlag (word : nat) (bits : Z) (bit : nat)           (** before the flag load *)
| AtProbe (word : nat) (bits : Z) (bit : nat)          (** before [is_dead] on the payload *)
| AtClear (word : nat) (bits : Z) (bit : nat) (landed : bool)
| AtTake (word : nat) (bits : Z) (bit : nat) (landed : bool)
| AtRecycle                                            (** before the free-list append *)
| AtSub (n : nat)                                      (** before [n_armed.fetch_sub] *)
| AtReturn                                             (** the pass returned *)
| AtIdle                                               (** before [is_idle] *)
| AtPark.                                              (** in [thread::park] *)

Record Scanner := mkScanner {
  pc : ScanPC;
  probing : bool;
  retired : list nat;
  woken : list P;
  dead : list P;
  idle_passes : Z;
}.

Definition goto (pc : ScanPC) (sc : Scanner) : Scanner :=
  mkScanner pc (probing sc) (retired sc) (woken sc) (dead sc) (idle_passes sc).

(** [for reg in woken.drain(..) { reg.waker_state.signal() }] and the same
    loop over [faulted] with [wake]. *)
Definition drain (woken faulted_ : list P) (sh : Shared) : Shared :=
  mkShared (table sh) (queued sh) (token sh) (published sh) (finished sh)
    (signalled sh ++ woken) (faulted sh ++ faulted_).

(** One step of the scanner; [answer] is what the driver says of the probed
    stream at [AtProbe] and whether the probe interval has elapsed at
    [AtIdle].  A parked scanner without a token is blocked. *)
Definition scan_step (answer : bool) (sh : Shared) (sc : Scanner) : option (Shared * Scanner) :=
  let t := table sh in
  match pc sc with
  | AtScan probing => Some (sh, mkScanner (AtWord 0) probing [] (woken sc) (dead sc) (idle_passes sc))
  | AtWord word =>
      match active t !! word with
      | None => Some (sh, goto AtRecycle sc)
      | Some bits => Some (sh, goto (if bits =? 0 then AtWord (S word) else AtBits word bits) sc)
      end
  | AtBits word bits =>
      if bits =? 0 then Some (sh, goto (AtWord (S word)) sc)
      else
        let bit := trailing_zeros bits in
        if (num_slots t <=? word * 64 + bit)%nat then Some (sh, goto (AtWord (S word)) sc)
        else Some (sh, goto (AtFlag word (Z.land bits (bits - 1)) bit) sc)
  | AtFlag word bits bit =>
      if landed_at (word * 64 + bit) t then Some (sh, goto (AtClear word bits bit true) sc)
      else if probing sc then Some (sh, goto (AtProbe word bits bit) sc)
      else Some (sh, goto (AtBits word bits) sc)
  | AtProbe word bits bit =>
      if bool_decide (is_Some (payload_at (word * 64 + bit) t)) && answer
      then Some (sh, goto (AtClear word bits bit false) sc)
      else Some (sh, goto (AtBits word bits) sc)
  | AtClear word bits bit landed =>
      Some (with_table (clear_active word bit) sh, goto (AtTake word bits bit landed) sc)
  | AtTake word bits bit landed =>
      let slot := (word * 64 + bit)%nat in
      let taken := option_list (payload_at slot t) in
      Some (with_table (write_payload slot None) sh,
            mkScanner (AtBits word bits) (probing sc) (retired sc ++ [slot])
              (if landed then woken sc ++ taken else woken sc)
              (if landed then dead sc else dead sc ++ taken) (idle_passes sc))
  | AtRecycle =>
      match retired sc with
      | [] => Some (sh, goto AtReturn sc)
      | l => Some (with_table (recycle l) sh,
                   mkScanner (AtSub (length l)) (probing sc) [] (woken sc) (dead sc) (idle_passes sc))
      end
  | AtSub n => Some (with_table (sub_armed n) sh, goto AtReturn sc)
  | AtReturn =>
      if probing sc then
        Some (drain (woken sc) (dead sc) sh, mkScanner (AtScan false) false (retired sc) [] [] (idle_passes sc))
      else
        match woken sc with
        | [] => Some (sh, goto AtIdle sc)
        | l => Some (drain l [] sh, mkScanner (AtScan false) false (retired sc) [] (dead sc) 0)
        end
  | AtIdle =>
      if is_idle t then Some (sh, goto AtPark sc)
      else
        let passes := as_u32 (idle_passes sc + 1) in
        Some (sh, mkScanner (AtScan (negb (passes <? SPIN_PASSES) && answer))
                    (probing sc) (retired sc) (woken sc) (dead sc) passes)
  | AtPark =>
      if token sh then
        Some (mkShared (table sh) (queued sh) false (published sh) (finished sh) (signalled sh) (faulted sh),
              mkScanner (AtScan false) (probing sc) (retired sc) (woken sc) (dead sc) 0)
      else None
  end.

Record System := mkSystem { shared : Shared; registrants : list RegPC; scanner : Scanner }.

(** The device executes a queued flag write. *)
Definition land_write (slot : nat) (p : P) (q : list (nat * P)) (sh : Shared) : Shared :=
  mkShared (store_flag slot 1 (table sh)) q (token sh) (published sh) (p :: finished sh)
    (signalled sh) (faulted sh).

(** A fault drops it for good. *)
Definition drop_write (q : list (nat * P)) (sh : Shared) : Shared :=
  mkShared (table sh) q (token sh) (published sh) (finished sh) (signalled sh) (faulted sh).

(** A stream the driver reports faulted executes no further write: the sticky
    error [stream_is_faulted] relies on. *)
Definition probe_sound (answer : bool) (sh : Shared) (sc : Scanner) : Prop :=
  match pc sc with
  | AtProbe word _ bit => answer = true -> (word * 64 + bit)%nat ∉ (queued sh).*1
  | _ => True
  end.

Inductive step : System -> System -> Prop :=
| step_reg sh rs1 r rs2 sc p code :
    step (mkSystem sh (rs1 ++ r :: rs2) sc)
         (let '(sh', r') := reg_step p code sh r in mkSystem sh' (rs1 ++ r' :: rs2) sc)
| step_scan sh rs sc answer sh' sc' :
    scan_step answer sh sc = Some (sh', sc') -> probe_sound answer sh sc ->
    step (mkSystem sh rs sc) (mkSystem sh' rs sc')
| step_unpark_spurious sh rs sc :
    pc sc = AtPark ->
    step (mkSystem sh rs sc)
         (mkSystem sh rs (mkScanner (AtScan false) (probing sc) (retired sc) (woken sc) (dead sc) 0))
| step_land sh rs sc q1 slot p q2 :
    queued sh = q1 ++ (slot, p) :: q2 ->
    step (mkSystem sh rs sc) (mkSystem (land_write slot p (q1 ++ q2) sh) rs sc)
| step_drop sh rs sc q1 slot p q2 :
    queued sh = q1 ++ (slot, p) :: q2 ->
    step (mkSystem sh rs sc) (mkSystem (drop_write (q1 ++ q2) sh) rs sc).

(** The reactor as [reactor()] builds it, with any number of threads. *)
Definition initial (num threads : nat) : System :=
  mkSystem (mkShared (new num (replicate num 0)) [] false [] [] [] [])
    (replicate threads RIdle) (mkScanner (AtScan false) false [] [] [] 0).

Definition reachable (num threads : nat) : System -> Prop := rtc step (initial num threads).

End reactor.

Arguments Shared : clear implicits.
Arguments RegPC : clear implicits.
Arguments Scanner : clear implicits.
Arguments System : clear implicits.

(** ** The protocol's invariants *)

Definition cnt (x : nat) (l : list nat) : nat := count_occ Nat.eq_dec l x.

Lemma cnt_app x l k : cnt x (l ++ k) = (cnt x l + cnt x k)%nat.
Proof. apply count_occ_app. Qed.

Lemma cnt_cons x y l : cnt x (y :: l) = (Nat.b2n (x =? y) + cnt x l)%nat.
Proof. unfold cnt. cbn. destruct (Nat.eq_dec y x), (Nat.eqb_spec x y); cbn; lia. Qed.

Lemma cnt_nil x : cnt x [] = 0%nat.
Proof. reflexivity. Qed.

Lemma elem_of_cnt x l : x ∈ l <-> (0 < cnt x l)%nat.
Proof. rewrite list_elem_of_In. unfold cnt. rewrite (count_occ_In Nat.eq_dec). lia. Qed.

Lemma cnt_seq x a n : cnt x (seq a n) = Nat.b2n ((a <=? x) && (x <? a + n))%nat.
Proof.
  revert a. induction n as [|n IH]; intros a; cbn [seq].
  - rewrite cnt_nil. destruct (Nat.leb_spec a x), (Nat.ltb_spec x (a + 0)); done || lia.
  - rewrite cnt_cons, IH. destruct (Nat.eqb_spec x a), (Nat.leb_spec a x), (Nat.leb_spec (S a) x),
      (Nat.ltb_spec x (a + S n)), (Nat.ltb_spec x (S a + n)); cbn; lia.
Qed.

Lemma cnt_reverse x l : cnt x (reverse l) = cnt x l.
Proof. apply Permutation_count_occ, reverse_Permutation. Qed.

Section invariants.
Context {P : Type}.
Implicit Types (t : SlotTable P) (sh : Shared P) (r : RegPC P) (sc : Scanner P).

(** The slot a registrant owns; whether its payload is written, counted; and
    whether it is about to wake the scanner. *)
Definition slot_of r : list nat :=
  match r with
  | RClaimed s _ | RReset s _ | RFailed s | RArmed s _ | RWritten s | RCounted s _ => [s]
  | RIdle | RPublished _ => []
  end.

Definition full_of r : list nat :=
  match r with RWritten s | RCounted s _ => [s] | _ => [] end.

Definition counted_of r : list nat :=
  match r with RCounted s _ => [s] | _ => [] end.

Definition will_unpark r : bool :=
  match r with RCounted _ b | RPublished b => b | _ => false end.

(** The slot the scanner has cleared and not yet emptied, and the count it has
    still to subtract. *)
Definition taking sc : list nat :=
  match pc sc with AtTake w _ b _ => [(w * 64 + b)%nat] | _ => [] end.

Definition to_sub sc : nat := match pc sc with AtSub n => n | _ => 0%nat end.

(** The scanner's snapshot only mentions slots that are still active. *)
Definition bits_ok t (word : nat) (bits : Z) : Prop :=
  in_u64 bits /\
  forall b, (b < 64)%nat -> Z.testbit bits (Z.of_nat b) = true -> is_active t (word * 64 + b) = true.

Definition pc_ok t sc : Prop :=
  match pc sc with
  | AtBits w bits => bits_ok t w bits
  | AtFlag w bits b | AtProbe w bits b | AtClear w bits b _ =>
      bits_ok t w bits /\ (b < 64)%nat /\ Z.testbit bits (Z.of_nat b) = false /\
      is_active t (w * 64 + b) = true
  | AtTake w bits b _ => bits_ok t w bits /\ (b < 64)%nat
  | AtWord _ | AtRecycle => True
  | _ => retired sc = []
  end.

(** Every slot has exactly one owner: the free list, a registrant, the
    bitmap or the scanner. *)
Record slots_ok (n : nat) t (rs : list (RegPC P)) sc : Prop := {
  so_num : num_slots t = n;
  so_flags : length (flags t) = n;
  so_payload : length (payload t) = n;
  so_active : length (active t) = ((n + 63) / 64)%nat;
  so_words : Forall in_u64 (active t);
  so_own x :
    (cnt x (free t) + cnt x (rs ≫= slot_of) + Nat.b2n (is_active t x) + cnt x (taking sc)
       + cnt x (retired sc))%nat = Nat.b2n (x <? n)%nat;
  so_full x :
    is_Some (payload_at x t) <->
    (0 < cnt x (rs ≫= full_of) + Nat.b2n (is_active t x) + cnt x (taking sc))%nat;
  so_pc : pc_ok t sc;
}.

Lemma full_le_slots x (rs : list (RegPC P)) : (cnt x (rs ≫= full_of) <= cnt x (rs ≫= slot_of))%nat.
Proof.
  induction rs as [|r rs IH]; [done|]. rewrite !bind_cons, !cnt_app.
  destruct r; cbn [full_of slot_of]; rewrite ?cnt_nil; lia.
Qed.

Lemma payload_at_write t s p x : (s < length (payload t))%nat ->
  payload_at x (write_payload s p t) = if (x =? s)%nat then p else payload_at x t.
Proof.
  intros H. unfold payload_at, write_payload; cbn [payload].
  destruct (Nat.eqb_spec x s) as [->|]; [by rewrite list_lookup_insert_eq|by rewrite list_lookup_insert_ne].
Qed.

Lemma words_set s t : Forall in_u64 (active t) -> Forall in_u64 (active (set_active s t)).
Proof.
  intros Hw. apply Forall_alter; [done|]. intros v _ Hu. apply in_u64_lor; [done|].
  assert (s mod 64 < 64)%nat by (apply Nat.mod_upper_bound; lia).
  unfold bit_mask. rewrite Z.shiftl_1_l. split; [apply Z.pow_nonneg; lia|].
  enough (2 ^ Z.of_nat (s mod 64) < 2 ^ 64) by int_lia. apply Z.pow_lt_mono_r; lia.
Qed.

Lemma words_clear w b t : Forall in_u64 (active t) -> Forall in_u64 (active (clear_active w b t)).
Proof. intros Hw. apply Forall_alter; [done|]. intros v _ Hu. by apply in_u64_land. Qed.

Lemma word_in_range n s : (s < n)%nat -> (s / 64 < (n + 63) / 64)%nat.
Proof. intros. apply Nat.div_lt_upper_bound; [lia|]. pose proof (Nat.div_mod_eq (n + 63) 64).
  pose proof (Nat.mod_upper_bound (n + 63) 64). lia. Qed.

Lemma claim_spec t s t' : claim t = (Some s, t') ->
  free t = free t' ++ [s] /\ flags t' = flags t /\ active t' = active t /\ payload t' = payload t /\
  n_armed t' = n_armed t /\ num_slots t' = num_slots t.
Proof.
  unfold claim. destruct (last (free t)) as [s'|] eqn:E; [|done]. intros [= <- <-].
  apply last_Some in E as [l E]. cbn. rewrite E, removelast_last. done.
Qed.

(** The bitmap and the payloads seen through updates of the other fields. *)
Lemma is_active_release s t x : is_active (release s t) x = is_active t x.
Proof. reflexivity. Qed.
Lemma is_active_store s v t x : is_active (store_flag s v t) x = is_active t x.
Proof. reflexivity. Qed.
Lemma is_active_write s p t x : is_active (write_payload s p t) x = is_active t x.
Proof. reflexivity. Qed.
Lemma is_active_recycle l t x : is_active (recycle l t) x = is_active t x.
Proof. reflexivity. Qed.
Lemma is_active_sub n t x : is_active (sub_armed n t) x = is_active t x.
Proof. reflexivity. Qed.
Lemma is_active_count t x : is_active (count_armed t).2 x = is_active t x.
Proof. reflexivity. Qed.
Lemma payload_at_release s t x : payload_at x (release s t) = payload_at x t.
Proof. reflexivity. Qed.
Lemma payload_at_store s v t x : payload_at x (store_flag s v t) = payload_at x t.
Proof. reflexivity. Qed.
Lemma payload_at_recycle l t x : payload_at x (recycle l t) = payload_at x t.
Proof. reflexivity. Qed.
Lemma payload_at_sub n t x : payload_at x (sub_armed n t) = payload_at x t.
Proof. reflexivity. Qed.
Lemma payload_at_count t x : payload_at x (count_armed t).2 = payload_at x t.
Proof. reflexivity. Qed.
Lemma payload_at_set s t x : payload_at x (set_active s t) = payload_at x t.
Proof. reflexivity. Qed.
Lemma payload_at_clear w b t x : payload_at x (clear_active w b t) = payload_at x t.
Proof. reflexivity. Qed.
Lemma free_release s t : free (release s t) = free t ++ [s].
Proof. reflexivity. Qed.
Lemma free_store s v t : free (store_flag s v t) = free t.
Proof. reflexivity. Qed.
Lemma free_write s p t : free (write_payload s p t) = free t.
Proof. reflexivity. Qed.
Lemma free_recycle l t : free (recycle l t) = free t ++ l.
Proof. reflexivity. Qed.
Lemma free_set s t : free (set_active s t) = free t.
Proof. reflexivity. Qed.
Lemma free_clear w b t : free (clear_active w b t) = free t.
Proof. reflexivity. Qed.
Hint Rewrite free_release free_store free_write free_recycle free_set free_clear : slot_table.
Hint Rewrite is_active_release is_active_store is_active_write is_active_recycle is_active_sub
  is_active_count payload_at_release payload_at_store payload_at_recycle payload_at_sub
  payload_at_count payload_at_set payload_at_clear : slot_table.

(** Expose one registrant of the pool and count owners of [x]. *)
Ltac count_owners x :=
  repeat match goal with H : forall y : nat, _ = Nat.b2n _ |- _ => specialize (H x) end;
  repeat match goal with H : forall y : nat, is_Some _ <-> _ |- _ => specialize (H x) end;
  rewrite ?bind_app, ?bind_cons, ?cnt_app, ?cnt_cons, ?cnt_nil in *;
  cbn [slot_of full_of counted_of table with_table free flags active payload num_slots] in *;
  autorewrite with slot_table in *; rewrite ?cnt_app, ?cnt_cons, ?cnt_nil in *.

Lemma slots_ok_range n t rs sc x : slots_ok n t rs sc ->
  (0 < cnt x (rs ≫= slot_of) + Nat.b2n (is_active t x) + cnt x (taking sc))%nat -> (x < n)%nat.
Proof. intros H Hx. pose proof (so_own _ _ _ _ H x). destruct (Nat.ltb_spec x n); [done|cbn in *; lia]. Qed.

Lemma pc_ok_mono t t' sc : (forall x, is_active t x = true -> is_active t' x = true) ->
  pc_ok t sc -> pc_ok t' sc.
Proof.
  intros Hm. assert (Hb : forall w bits, bits_ok t w bits -> bits_ok t' w bits).
  { intros w bits [H1 H2]. split; [done|]. eauto. }
  unfold pc_ok. destruct (pc sc); naive_solver.
Qed.

Lemma is_active_ext t t' x : active t' = active t -> is_active t' x = is_active t x.
Proof. unfold is_active. by intros ->. Qed.

Lemma slots_ok_reg n sh rs1 r rs2 sc p code :
  slots_ok n (table sh) (rs1 ++ r :: rs2) sc ->
  let '(sh', r') := reg_step p code sh r in slots_ok n (table sh') (rs1 ++ r' :: rs2) sc.
Proof.
  intros H. destruct r as [|s q|s q|s|s q|s|s wi|wi]; cbn [reg_step] in *;
    try (pose proof (slots_ok_range n _ _ _ s H) as Hr;
         rewrite bind_app, bind_cons, !cnt_app in Hr; cbn [slot_of] in Hr;
         rewrite cnt_cons, Nat.eqb_refl in Hr; specialize (Hr ltac:(cbn; lia)));
    destruct H as [Hn Hf Hp Ha Hw Ho Hfull Hpc].
  - destruct (claim (table sh)) as [[s|] t'] eqn:Ec; [|done].
    apply claim_spec in Ec as (E1 & E2 & E3 & E4 & E5 & E6).
    assert (Ht : forall x, is_active t' x = is_active (table sh) x) by (intros; by apply is_active_ext).
    constructor; cbn [table with_table]; rewrite ?E2, ?E3, ?E4, ?E6; try done.
    + intros x. rewrite Ht. rewrite E1 in Ho. count_owners x. lia.
    + intros x. rewrite Ht. unfold payload_at in *. rewrite E4. count_owners x. done.
    + revert Hpc. apply pc_ok_mono. intros x. by rewrite Ht.
  - constructor; try (cbn; by rewrite ?length_insert); try done; intros x; count_owners x; try done; lia.
  - destruct code; constructor; try done; intros x; count_owners x; try done; lia.
  - constructor; try done; intros x; count_owners x; try done; lia.
  - constructor; try (cbn; by rewrite ?length_insert); try done; intros x; count_owners x; try lia.
    rewrite payload_at_write by lia. destruct (Nat.eqb_spec x s); cbn [Nat.b2n]; [|by rewrite Hfull].
    split; [lia|by eexists].
  - constructor; try done; intros x; count_owners x; try done; lia.
  - pose proof (is_active_set (table sh) s) as Hs. rewrite Ha in Hs.
    specialize (fun x => Hs x (word_in_range n s Hr)).
    constructor; cbn [table with_table]; try done.
    + cbn. by rewrite length_alter.
    + by apply words_set.
    + intros x. rewrite Hs. count_owners x.
      destruct (x =? s)%nat, (is_active (table sh) x), (x <? n)%nat; cbn [Nat.b2n] in *; lia.
    + intros x. rewrite Hs. count_owners x. rewrite Hfull. destruct (x =? s)%nat; cbn [Nat.b2n]; lia.
    + revert Hpc. apply pc_ok_mono. intros x. rewrite Hs. by destruct (x =? s)%nat.
  - constructor; try done; intros x; count_owners x; try done; lia.
Qed.

(** A step that only moves the scanner. *)
Lemma slots_ok_goto n t rs sc sc' : slots_ok n t rs sc ->
  taking sc = [] -> taking sc' = [] -> retired sc' = retired sc -> pc_ok t sc' ->
  slots_ok n t rs sc'.
Proof.
  intros [] E1 E2 E3 Hpc. rewrite E1 in *. constructor; rewrite ?E2, ?E3; done.
Qed.

Lemma bits_ok_load t w bits : Forall in_u64 (active t) -> active t !! w = Some bits -> bits_ok t w bits.
Proof.
  intros Hw E. split; [by eapply Forall_lookup_1|]. intros b Hb Hbit.
  unfold is_active. destruct (slot_split w b Hb) as [-> ->]. by rewrite E.
Qed.

Lemma bits_ok_next t w bits : bits_ok t w bits -> bits <> 0 ->
  let b := trailing_zeros bits in let bits' := Z.land bits (bits - 1) in
  bits_ok t w bits' /\ (b < 64)%nat /\ Z.testbit bits' (Z.of_nat b) = false /\ is_active t (w * 64 + b) = true.
Proof.
  intros [Hu Hb] Hne b bits'. destruct (trailing_zeros_spec bits Hu Hne) as (H1 & H2 & H3).
  subst b bits'. rewrite clear_lowest, Nat.eqb_refl by done.
  split; [|split_and!; [done|done|by apply Hb]].
  split; [by apply in_u64_land|]. intros i Hi. rewrite clear_lowest by done. destruct (i =? _)%nat; auto. done.
Qed.

Lemma bits_ok_clear t w bits b : bits_ok t w bits -> Z.testbit bits (Z.of_nat b) = false ->
  (b < 64)%nat -> (w < length (active t))%nat -> bits_ok (clear_active w b t) w bits.
Proof.
  intros [Hu Hb] Hz Hlt Hw. split; [done|]. intros i Hi Hbit. rewrite is_active_clear by done.
  destruct (Nat.eqb_spec (w * 64 + i) (w * 64 + b)); [|auto]. replace i with b in Hbit by lia. congruence.
Qed.

(** The two scanner steps that move a slot. *)
Lemma slots_ok_clear n t rs sc w bits b l : slots_ok n t rs sc -> pc sc = AtClear w bits b l ->
  slots_ok n (clear_active w b t) rs (goto (AtTake w bits b l) sc).
Proof.
  intros [Hn Hf Hp Ha Hw Ho Hfull Hpc] Epc. unfold pc_ok, taking in *. rewrite Epc in *.
  destruct Hpc as (Hb & Hlt & Hz & Hact). pose proof (is_active_word t w b Hlt Hact) as Hwl.
  pose proof (fun x => is_active_clear t w b x Hlt Hwl) as Hc.
  constructor; try done; cbn [goto pc retired].
  - cbn. by rewrite length_alter.
  - by apply words_clear.
  - intros x. unfold taking; cbn [goto pc]. rewrite Hc. count_owners x.
    destruct (Nat.eqb_spec x (w * 64 + b)) as [->|]; [rewrite Hact in Ho|]; cbn [Nat.b2n] in *; lia.
  - intros x. unfold taking; cbn [goto pc]. rewrite Hc. count_owners x.
    destruct (Nat.eqb_spec x (w * 64 + b)) as [->|]; [rewrite Hact in Hfull|]; cbn [Nat.b2n] in *;
      rewrite Hfull; lia.
  - unfold pc_ok; cbn [goto pc]. split; [by apply bits_ok_clear|done].
Qed.

Lemma slots_ok_take n t rs sc w bits b l wk dd : slots_ok n t rs sc -> pc sc = AtTake w bits b l ->
  slots_ok n (write_payload (w * 64 + b) None t) rs
    (mkScanner (AtBits w bits) (probing sc) (retired sc ++ [(w * 64 + b)%nat]) wk dd (idle_passes sc)).
Proof.
  intros H Epc. pose proof (slots_ok_range _ _ _ _ (w * 64 + b) H) as Hr.
  destruct H as [Hn Hf Hp Ha Hw Ho Hfull Hpc]. unfold pc_ok, taking in *. rewrite Epc in *.
  rewrite cnt_cons, Nat.eqb_refl in Hr. specialize (Hr ltac:(cbn; lia)).
  constructor; try done; cbn [retired].
  - cbn. by rewrite length_insert.
  - intros x. unfold taking; cbn [pc]. count_owners x. lia.
  - intros x. unfold taking; cbn [pc]. rewrite payload_at_write by lia.
    pose proof (full_le_slots x rs). count_owners x.
    destruct (Nat.eqb_spec x (w * 64 + b)); cbn [Nat.b2n] in *; [|rewrite Hfull; lia].
    split; [by intros [? ?]|]. destruct (x <? n)%nat; cbn [Nat.b2n] in *; lia.
  - unfold pc_ok; cbn [pc]. destruct Hpc as [[Hu Hb] _]. by split.
Qed.

(** A scanner step keeps the slots owned. *)
Lemma slots_ok_scan n sh rs sc answer sh' sc' :
  slots_ok n (table sh) rs sc -> scan_step answer sh sc = Some (sh', sc') ->
  slots_ok n (table sh') rs sc'.
Proof.
  intros H Hs. pose proof (so_pc _ _ _ _ H) as Hpc. pose proof (so_words _ _ _ _ H) as Hw.
  unfold scan_step in Hs. unfold pc_ok in Hpc.
  destruct (pc sc) as [pr|w|w bits|w bits b|w bits b|w bits b l|w bits b l| |k| | |] eqn:Epc;
    repeat case_match; simplify_eq/=;
    try (by apply (slots_ok_goto n _ _ sc); [done|unfold taking; by rewrite Epc|done|done|naive_solver]).
  - apply (slots_ok_goto n _ _ sc); [done|unfold taking; by rewrite Epc|done|done|].
    by apply bits_ok_load.
  - apply (slots_ok_goto n _ _ sc); [done|unfold taking; by rewrite Epc|done|done|].
    apply bits_ok_next; [done|]. by apply Z.eqb_neq.
  - by apply slots_ok_clear.
  - by eapply slots_ok_take.
  - by eapply slots_ok_take.
  - destruct H as [Hn Hf Hp Ha _ Ho Hfull _]. unfold taking in *. rewrite Epc in *.
    match goal with E : retired sc = _ |- _ => rewrite E in * end.
    constructor; try done; intros x; unfold taking; cbn [pc retired]; count_owners x; lia.
  - destruct H as [Hn Hf Hp Ha _ Ho Hfull _]. unfold taking in *. rewrite Epc in *. by constructor.
Qed.

Lemma slots_ok_store n t rs sc s v : slots_ok n t rs sc -> slots_ok n (store_flag s v t) rs sc.
Proof. intros []. constructor; try done. cbn. by rewrite length_insert. Qed.

Lemma new_inactive n x : is_active (P:=P) (new n (replicate n 0)) x = false.
Proof.
  unfold is_active, new; cbn [active].
  destruct (replicate _ 0 !! _) as [v|] eqn:E; [apply lookup_replicate_1 in E as [-> _]|]; apply Z.bits_0.
Qed.

Lemma new_payload n x : payload_at (P:=P) x (new n (replicate n 0)) = None.
Proof.
  unfold payload_at, new; cbn [payload].
  by destruct (replicate _ None !! _) as [v|] eqn:E; [apply lookup_replicate_1 in E as [-> _]|].
Qed.

Lemma idle_slots k (f : RegPC P -> list nat) : f RIdle = [] -> replicate k RIdle ≫= f = [].
Proof. intros Hf. induction k as [|k IH]; [done|]. cbn. by rewrite Hf. Qed.

Lemma slots_ok_initial n k : slots_ok n (new n (replicate n 0)) (replicate k RIdle)
  (mkScanner (AtScan false) false [] [] [] 0).
Proof.
  pose proof (new_inactive n) as Hb. pose proof (idle_slots k) as Hs.
  constructor; cbn [new num_slots flags payload active pc]; rewrite ?length_replicate; try done.
  - by apply Forall_replicate.
  - intros x. rewrite Hb, Hs by done. unfold new, taking; cbn [free pc retired]. rewrite cnt_nil; cbn [Nat.b2n].
    by rewrite !Nat.add_0_r, cnt_reverse, cnt_seq.
  - intros x. rewrite Hb, Hs, new_payload by done. cbn. split; [by intros [? ?]|lia].
Qed.

(** ** The armed count and the wake-up *)

Definition active_list t : list nat := filter (fun x => is_active t x = true) (seq 0 (num_slots t)).

Lemma cnt_filter (f : nat -> bool) x l : cnt x (filter (fun y => f y = true) l) = if f x then cnt x l else 0%nat.
Proof.
  induction l as [|y l IH]; [by destruct (f x)|]. rewrite filter_cons.
  destruct (decide (f y = true)) as [E|E]; rewrite ?cnt_cons, IH;
    destruct (Nat.eqb_spec x y) as [->|]; cbn [Nat.b2n]; [by rewrite E| |apply not_true_is_false in E; by rewrite E|];
    by destruct (f x).
Qed.

Lemma cnt_active x t : cnt x (active_list t) = Nat.b2n ((x <? num_slots t)%nat && is_active t x).
Proof.
  unfold active_list. rewrite (cnt_filter (is_active t)), cnt_seq.
  destruct (is_active t x); [|by rewrite andb_false_r]. by rewrite andb_true_r.
Qed.

Lemma cnt_Permutation (l k : list nat) : (forall x, cnt x l = cnt x k) -> l ≡ₚ k.
Proof. intros H. by apply (Permutation_count_occ Nat.eq_dec). Qed.

(** Slots [publish] has counted and no retirement has subtracted yet. *)
Definition armed_slots t rs sc : list nat := (rs ≫= counted_of) ++ active_list t ++ taking sc ++ retired sc.

Definition count_ok (n : nat) t (rs : list (RegPC P)) sc : Prop :=
  n_armed t = Z.of_nat (length (armed_slots t rs sc) + to_sub sc) /\ (to_sub sc <= n)%nat.

Lemma counted_le_slots x (rs : list (RegPC P)) : (cnt x (rs ≫= counted_of) <= cnt x (rs ≫= slot_of))%nat.
Proof.
  induction rs as [|r rs IH]; [done|]. rewrite !bind_cons, !cnt_app.
  destruct r; cbn [counted_of slot_of]; rewrite ?cnt_nil; lia.
Qed.

Lemma armed_bound n t rs sc : slots_ok n t rs sc -> (length (armed_slots t rs sc) <= n)%nat.
Proof.
  intros H.
  assert (Hc : forall x, (cnt x (armed_slots t rs sc) <= cnt x (seq 0 n))%nat).
  { intros x. unfold armed_slots. rewrite !cnt_app, cnt_active, cnt_seq, (so_num _ _ _ _ H).
    pose proof (so_own _ _ _ _ H x). pose proof (counted_le_slots x rs). cbn [Nat.leb andb Nat.add].
    destruct (x <? n)%nat, (is_active t x); cbn [Nat.b2n andb] in *; lia. }
  assert (Hd : List.NoDup (armed_slots t rs sc)).
  { apply (NoDup_count_occ Nat.eq_dec). intros x. specialize (Hc x). fold (cnt x (armed_slots t rs sc)).
    rewrite cnt_seq in Hc. destruct (_ && _); cbn in Hc; lia. }
  rewrite <- (length_seq n 0). apply NoDup_incl_length; [done|]. intros x Hx.
  apply list_elem_of_In, elem_of_cnt. apply list_elem_of_In, elem_of_cnt in Hx. specialize (Hc x). lia.
Qed.

Lemma active_list_ext t t' : active t' = active t -> num_slots t' = num_slots t ->
  active_list t' = active_list t.
Proof.
  intros Ha Hn. unfold active_list. rewrite Hn. apply list_filter_iff. intros x.
  by rewrite (is_active_ext t t').
Qed.

Lemma active_list_set n t rs sc s : slots_ok n t rs sc -> (0 < cnt s (rs ≫= slot_of))%nat ->
  active_list (set_active s t) ≡ₚ s :: active_list t.
Proof.
  intros H Hs. pose proof (slots_ok_range _ _ _ _ s H ltac:(lia)) as Hlt.
  pose proof (so_own _ _ _ _ H s) as Ho. apply cnt_Permutation. intros x.
  rewrite cnt_cons, !cnt_active. cbn [set_active update_word num_slots]. rewrite (so_num _ _ _ _ H).
  fold (set_active s t). rewrite is_active_set by (rewrite (so_active _ _ _ _ H); by apply word_in_range).
  destruct (Nat.eqb_spec x s) as [->|]; [|done]. destruct (Nat.ltb_spec s n), (is_active t s); cbn in *; lia.
Qed.

Lemma active_list_clear n t rs sc w b : slots_ok n t rs sc -> (b < 64)%nat ->
  is_active t (w * 64 + b) = true ->
  active_list t ≡ₚ (w * 64 + b)%nat :: active_list (clear_active w b t).
Proof.
  intros H Hb Ha. pose proof (slots_ok_range _ _ _ _ (w * 64 + b) H ltac:(rewrite Ha; cbn; lia)) as Hlt.
  pose proof (is_active_word t w b Hb Ha). apply cnt_Permutation. intros x.
  rewrite cnt_cons, !cnt_active, is_active_clear by done. cbn [clear_active update_word num_slots].
  rewrite (so_num _ _ _ _ H). destruct (Nat.eqb_spec x (w * 64 + b)) as [->|]; [|done].
  rewrite Ha. destruct (Nat.ltb_spec (w * 64 + b) n); cbn; lia.
Qed.

Lemma armed_length t rs1 r rs2 sc :
  length (armed_slots t (rs1 ++ r :: rs2) sc) =
    (length (rs1 ≫= counted_of) + length (counted_of r) + length (rs2 ≫= counted_of)
       + length (active_list t) + length (taking sc) + length (retired sc))%nat.
Proof. unfold armed_slots. rewrite bind_app, bind_cons, !length_app. lia. Qed.

Lemma count_ok_reg n sh rs1 r rs2 sc p code : Z.of_nat n < 2 ^ 62 ->
  slots_ok n (table sh) (rs1 ++ r :: rs2) sc -> count_ok n (table sh) (rs1 ++ r :: rs2) sc ->
  let '(sh', r') := reg_step p code sh r in count_ok n (table sh') (rs1 ++ r' :: rs2) sc.
Proof.
  intros Hn Hs [Hc Hb]. pose proof (armed_bound _ _ _ _ Hs) as Hbound.
  destruct r as [|s q|s q|s|s q|s|s wi|wi]; cbn [reg_step].
  1: { destruct (claim (table sh)) as [[s|] t'] eqn:Ec; [|done].
       apply claim_spec in Ec as (_ & _ & E3 & _ & E5 & E6). split; [|done]. cbn [table with_table].
       by rewrite E5, Hc, !armed_length, (active_list_ext (table sh) t'). }
  all: try (split; [|done]; cbn [table with_table]; rewrite armed_length in *; done).
  - destruct code; (split; [|done]); cbn [table]; rewrite armed_length in *; done.
  - split; [|done]. cbn [with_table table n_armed count_armed]. rewrite armed_length in *.
    cbn [counted_of length] in *. rewrite as_u64_id by (unfold_int; lia).
    rewrite (active_list_ext (table sh) (mkSlotTable _ _ _ _ _ _)) by done. lia.
  - split; [|done]. cbn [with_table table n_armed set_active update_word]. fold (set_active s (table sh)).
    rewrite Hc, !armed_length. cbn [counted_of length].
    assert (Hin : (0 < cnt s ((rs1 ++ RCounted s wi :: rs2) ≫= slot_of))%nat).
    { rewrite bind_app, bind_cons, !cnt_app. cbn [slot_of]. rewrite cnt_cons, Nat.eqb_refl. cbn. lia. }
    pose proof (Permutation_length (active_list_set _ _ _ _ s Hs Hin)) as ->. cbn [length]. lia.
Qed.

Lemma count_ok_scan n sh rs sc answer sh' sc' : Z.of_nat n < 2 ^ 62 ->
  slots_ok n (table sh) rs sc -> count_ok n (table sh) rs sc -> scan_step answer sh sc = Some (sh', sc') ->
  count_ok n (table sh') rs sc'.
Proof.
  intros Hn Hok [Hc Hb] Hs. pose proof (armed_bound _ _ _ _ Hok) as Hbound.
  pose proof (so_pc _ _ _ _ Hok) as Hpc. unfold scan_step in Hs. unfold pc_ok in Hpc.
  unfold count_ok, armed_slots, taking, to_sub in *.
  destruct (pc sc) as [pr|w|w bits|w bits b|w bits b|w bits b l|w bits b l| |k| | |] eqn:Epc;
    repeat case_match; simplify_eq/=; try rewrite Epc in *; rewrite ?length_app in *; cbn [length] in *;
    try (match goal with E : retired sc = _ |- _ => rewrite E in * end); cbn [length] in *;
    try (split; [rewrite ?(active_list_ext _ _ eq_refl eq_refl); first [done|lia]|lia]).
  - destruct Hpc as (_ & Hlt & _ & Ha).
    pose proof (Permutation_length (active_list_clear _ _ _ _ _ _ Hok Hlt Ha)). cbn [length] in *. lia.
  - change (active_list (write_payload _ _ _)) with (active_list (table sh)). lia.
  - change (active_list (write_payload _ _ _)) with (active_list (table sh)). lia.
  - change (active_list (recycle _ _)) with (active_list (table sh)). lia.
  - change (active_list (sub_armed _ _)) with (active_list (table sh)).
    rewrite as_u64_id by (unfold_int; lia). lia.
Qed.

(** A parked scanner that still has armed slots has a token, or a registrant
    is on its way to wake it. *)
Definition wake_ok sh (rs : list (RegPC P)) sc : Prop :=
  pc sc = AtPark -> n_armed (table sh) = 0 \/ token sh = true \/ existsb will_unpark rs = true.

Lemma wake_ok_reg sh rs1 r rs2 sc p code : wake_ok sh (rs1 ++ r :: rs2) sc ->
  let '(sh', r') := reg_step p code sh r in wake_ok sh' (rs1 ++ r' :: rs2) sc.
Proof.
  unfold wake_ok. rewrite existsb_app. cbn [existsb]. intros H.
  destruct r as [|s q|s q|s|s q|s|s wi|wi]; cbn [reg_step].
  1: destruct (claim (table sh)) as [[s|] t'] eqn:Ec;
       [apply claim_spec in Ec as (_ & _ & _ & _ & E5 & _)|]; cbn [table token with_table];
       rewrite existsb_app; cbn [existsb]; rewrite ?E5; done.
  2: destruct code.
  all: intros Hp; specialize (H Hp); cbn [table token with_table n_armed count_armed will_unpark] in *;
    rewrite existsb_app; cbn [existsb will_unpark].
  all: destruct (existsb will_unpark rs1), (existsb will_unpark rs2), (token sh);
    try destruct wi; cbn [orb] in *; try (by auto).
  all: rewrite ?orb_true_r; destruct H as [->|[?|?]]; first [done|by auto|by right; right].
Qed.

Lemma wake_ok_scan sh rs sc answer sh' sc' : scan_step answer sh sc = Some (sh', sc') -> wake_ok sh' rs sc'.
Proof.
  unfold wake_ok, scan_step, is_idle. intros Hs Hp. left.
  destruct (pc sc); repeat case_match; simplify_eq/=; by apply Z.eqb_eq.
Qed.

(** ** Delivery *)

(** The registration [p] currently holds slot [s]: its registrant is
    publishing it, or the scanner has yet to retire it. *)
Definition holder t (rs : list (RegPC P)) (s : nat) (p : P) : Prop :=
  RArmed s p ∈ rs \/
  ((0 < cnt s (rs ≫= full_of) + Nat.b2n (is_active t s))%nat /\ payload_at s t = Some p).

(** The scanner only retires slots with no write to come, and delivers as
    completed only payloads whose write executed. *)
Definition retiring_ok sh sc : Prop :=
  match pc sc with
  | AtClear w _ b l | AtTake w _ b l =>
      (w * 64 + b)%nat ∉ (queued sh).*1 /\
      (l = true -> forall p, payload_at (w * 64 + b) (table sh) = Some p -> p ∈ finished sh)
  | _ => True
  end.

Record delivery_ok sh (rs : list (RegPC P)) sc : Prop := {
  do_nodup : NoDup (queued sh).*1;
  do_queued s p : (s, p) ∈ queued sh -> holder (table sh) rs s p;
  do_reset s p : RReset s p ∈ rs -> landed_at s (table sh) = false;
  do_landed s p : holder (table sh) rs s p -> landed_at s (table sh) = true ->
    s ∉ (queued sh).*1 /\ p ∈ finished sh;
  do_retiring : retiring_ok sh sc;
  do_woken p : p ∈ signalled sh ++ woken sc -> p ∈ finished sh;
  do_tokens : published sh ≡ₚ signalled sh ++ faulted sh ++ woken sc ++ dead sc ++ omap id (payload (table sh));
}.

Lemma armed_owns s p (rs : list (RegPC P)) : RArmed s p ∈ rs -> (0 < cnt s (rs ≫= slot_of))%nat.
Proof.
  induction rs as [|r rs IH]; [by intros ?%elem_of_nil|]. rewrite elem_of_cons, bind_cons, cnt_app.
  intros [<-|H]; [cbn [slot_of]; rewrite cnt_cons, Nat.eqb_refl; cbn; lia|specialize (IH H); lia].
Qed.

Lemma holder_owns t rs s p : holder t rs s p ->
  (0 < cnt s (rs ≫= slot_of) + Nat.b2n (is_active t s))%nat.
Proof. intros [H%armed_owns|[H _]]; [lia|]. pose proof (full_le_slots s rs). lia. Qed.

(** A slot a registrant owns has no other owner. *)
Lemma owns_alone n t rs1 r rs2 sc s : slots_ok n t (rs1 ++ r :: rs2) sc -> slot_of r = [s] ->
  (s < n)%nat /\ cnt s (rs1 ≫= slot_of) = 0%nat /\ cnt s (rs2 ≫= slot_of) = 0%nat /\
  is_active t s = false /\ cnt s (taking sc) = 0%nat.
Proof.
  intros H Hr. pose proof (so_own _ _ _ _ H s) as Ho.
  rewrite bind_app, bind_cons, !cnt_app, Hr, cnt_cons, Nat.eqb_refl in Ho.
  destruct (is_active t s), (Nat.ltb_spec s n); cbn in Ho; split_and!; lia || done.
Qed.

Lemma not_armed s p rs : cnt s (rs ≫= slot_of) = 0%nat -> ~ RArmed s p ∈ rs.
Proof. intros H Hin%armed_owns. lia. Qed.

(** Replacing a registrant that keeps the same full slot and is not armed,
    under an equal bitmap and equal payloads, keeps the holders. *)
Lemma holder_replace t t' rs1 r r' rs2 s p : (forall x, is_active t' x = is_active t x) ->
  payload t' = payload t -> full_of r' = full_of r ->
  (forall s p, r <> RArmed s p) -> (forall s p, r' <> RArmed s p) ->
  holder t' (rs1 ++ r' :: rs2) s p <-> holder t (rs1 ++ r :: rs2) s p.
Proof.
  intros Ha Hp Hf H1 H2. unfold holder, payload_at. rewrite Ha, Hp, !bind_app, !bind_cons, Hf.
  assert (forall u, (forall s p, u <> RArmed s p) -> RArmed s p ∈ rs1 ++ u :: rs2 <-> RArmed s p ∈ rs1 ++ rs2)
    as Hu by (intros u Hu; rewrite !elem_of_app, elem_of_cons; naive_solver).
  by rewrite !Hu.
Qed.

Lemma delivery_quiet sh rs sc sh' rs' : delivery_ok sh rs sc ->
  (forall s p, holder (table sh') rs' s p <-> holder (table sh) rs s p) ->
  flags (table sh') = flags (table sh) -> payload (table sh') = payload (table sh) ->
  queued sh' = queued sh -> published sh' = published sh -> finished sh' = finished sh ->
  signalled sh' = signalled sh -> faulted sh' = faulted sh ->
  (forall s p, RReset s p ∈ rs' -> RReset s p ∈ rs) -> delivery_ok sh' rs' sc.
Proof.
  intros [H1 H2 H3 H4 H5 H6 H7] Hh Hf Hp Hq Hpub Hfin Hsig Hfau Hr.
  assert (Hl : forall s, landed_at s (table sh') = landed_at s (table sh)) by (intros; unfold landed_at; by rewrite Hf).
  constructor; unfold retiring_ok, payload_at in *; rewrite ?Hq, ?Hpub, ?Hfin, ?Hsig, ?Hfau, ?Hp; try done.
  - intros s p Hin. rewrite Hh. auto.
  - intros s p Hin. rewrite Hl. eauto.
  - intros s p. rewrite Hh, Hl. auto.
Qed.

Lemma delivery_claim sh rs1 rs2 sc t' s p : delivery_ok sh (rs1 ++ RIdle :: rs2) sc ->
  claim (table sh) = (Some s, t') ->
  delivery_ok (with_table (fun _ => t') sh) (rs1 ++ RClaimed s p :: rs2) sc.
Proof.
  intros H Ec. apply claim_spec in Ec as (_ & E2 & E3 & E4 & _ & _).
  apply (delivery_quiet sh (rs1 ++ RIdle :: rs2)); try done.
  - intros. apply holder_replace; try done. intros. by apply is_active_ext.
  - intros s' p'. rewrite !elem_of_app, !elem_of_cons. naive_solver.
Qed.

Lemma landed_store s v t x : (s < length (flags t))%nat ->
  landed_at x (store_flag s v t) = if (x =? s)%nat then v =? 1 else landed_at x t.
Proof.
  intros H. unfold landed_at, store_flag; cbn [flags].
  destruct (Nat.eqb_spec x s) as [->|]; [by rewrite list_lookup_insert_eq|by rewrite list_lookup_insert_ne].
Qed.

Lemma delivery_reset n sh rs1 rs2 sc s p : slots_ok n (table sh) (rs1 ++ RClaimed s p :: rs2) sc ->
  delivery_ok sh (rs1 ++ RClaimed s p :: rs2) sc ->
  delivery_ok (with_table (store_flag s 0) sh) (rs1 ++ RReset s p :: rs2) sc.
Proof.
  intros Hs [H1 H2 H3 H4 H5 H6 H7]. destruct (owns_alone _ _ _ _ _ _ s Hs eq_refl) as (Hlt & _).
  rewrite <- (so_flags _ _ _ _ Hs) in Hlt.
  assert (Hh : forall s' p', holder (store_flag s 0 (table sh)) (rs1 ++ RReset s p :: rs2) s' p' <->
            holder (table sh) (rs1 ++ RClaimed s p :: rs2) s' p') by (intros; by apply holder_replace).
  constructor; cbn [table with_table queued finished]; try done.
  - intros s' p' Hin. by apply Hh, H2.
  - intros s' p'. rewrite landed_store by done. destruct (Nat.eqb_spec s' s) as [->|Hne]; [done|].
    rewrite elem_of_app, elem_of_cons. intros [Hin|[[= -> ->]|Hin]]; [|done|]; apply (H3 s' p'); set_solver.
  - intros s' p' Hp. rewrite landed_store by done. destruct (Nat.eqb_spec s' s); [done|].
    apply H4. by apply Hh.
Qed.

Lemma delivery_arm n sh rs1 rs2 sc s p : slots_ok n (table sh) (rs1 ++ RReset s p :: rs2) sc ->
  delivery_ok sh (rs1 ++ RReset s p :: rs2) sc ->
  delivery_ok (mkShared (table sh) ((s, p) :: queued sh) (token sh) (published sh) (finished sh)
                 (signalled sh) (faulted sh)) (rs1 ++ RArmed s p :: rs2) sc.
Proof.
  intros Hs [H1 H2 H3 H4 H5 H6 H7].
  destruct (owns_alone _ _ _ _ _ _ s Hs eq_refl) as (Hlt & O1 & O2 & Oa & Ot).
  assert (Hnew : forall q, ~ holder (table sh) (rs1 ++ RReset s p :: rs2) s q).
  { intros q [Hin|[Hc _]].
    - rewrite elem_of_app, elem_of_cons in Hin.
      destruct Hin as [?|[?|?]]; [by eapply (not_armed s q rs1)|done|by eapply (not_armed s q rs2)].
    - pose proof (full_le_slots s rs1). pose proof (full_le_slots s rs2).
      rewrite bind_app, bind_cons, !cnt_app, Oa in Hc. cbn in Hc. lia. }
  assert (Hq : s ∉ (queued sh).*1).
  { intros ([s' q] & -> & Hin)%list_elem_of_fmap. by apply (Hnew q), H2. }
  assert (Hl : landed_at s (table sh) = false) by (apply (H3 s p); set_solver).
  assert (Hh : forall s' q, holder (table sh) (rs1 ++ RArmed s p :: rs2) s' q <->
            (s' = s /\ q = p) \/ holder (table sh) (rs1 ++ RReset s p :: rs2) s' q).
  { intros s' q. unfold holder. rewrite !bind_app, !bind_cons. cbn [full_of].
    rewrite !elem_of_app, !elem_of_cons. naive_solver. }
  constructor; cbn [table queued finished fmap list_fmap]; try done.
  - by constructor.
  - intros s' q [[= -> ->]|Hin]%elem_of_cons; apply Hh; auto.
  - intros s' q Hin. apply (H3 s' q). set_solver.
  - intros s' q [[-> ->]|Hp]%Hh Hld; [congruence|]. destruct (H4 s' q Hp Hld). split; [|done].
    rewrite elem_of_cons. intros [E|]; [cbn in E; congruence|done].
  - unfold retiring_ok, taking in *. pose proof (so_pc _ _ _ _ Hs) as Hpc. unfold pc_ok in Hpc.
    destruct (pc sc); try done; cbn [queued fmap list_fmap]; rewrite elem_of_cons.
    + destruct H5, Hpc as (_ & _ & _ & Hact). split; [|done]. intros [E|]; [|done]. cbn in E. congruence.
    + destruct H5. split; [|done]. rewrite cnt_cons in Ot. intros [E|]; [|done]. cbn in E.
      rewrite E, Nat.eqb_refl in Ot. done.
Qed.

(** The stored payloads after a cell is overwritten. *)
Lemma omap_insert (l : list (option P)) s o o' : l !! s = Some o ->
  option_list o ++ omap id (<[s := o']> l) ≡ₚ option_list o' ++ omap id l.
Proof.
  intros H. rewrite insert_take_drop by (by eapply lookup_lt_Some).
  rewrite <- (take_drop_middle l s o H) at 3.
  rewrite !omap_app.
  destruct o, o'; cbn; rewrite <- ?Permutation_middle;
    [constructor|reflexivity..].
Qed.

Lemma payload_lookup t s : (s < length (payload t))%nat -> payload t !! s = Some (payload_at s t).
Proof. intros [o Ho]%lookup_lt_is_Some. unfold payload_at. by rewrite Ho. Qed.

Lemma delivery_write n sh rs1 rs2 sc s p : slots_ok n (table sh) (rs1 ++ RArmed s p :: rs2) sc ->
  delivery_ok sh (rs1 ++ RArmed s p :: rs2) sc ->
  delivery_ok (mkShared (write_payload s (Some p) (table sh)) (queued sh) (token sh) (p :: published sh)
                 (finished sh) (signalled sh) (faulted sh)) (rs1 ++ RWritten s :: rs2) sc.
Proof.
  intros Hs [H1 H2 H3 H4 H5 H6 H7].
  destruct (owns_alone _ _ _ _ _ _ s Hs eq_refl) as (Hlt & O1 & O2 & Oa & Ot).
  pose proof Hlt as Hlp. rewrite <- (so_payload _ _ _ _ Hs) in Hlp.
  pose proof (full_le_slots s rs1). pose proof (full_le_slots s rs2).
  assert (Hh : forall s' q, holder (write_payload s (Some p) (table sh)) (rs1 ++ RWritten s :: rs2) s' q <->
            holder (table sh) (rs1 ++ RArmed s p :: rs2) s' q).
  { intros s' q. unfold holder. rewrite payload_at_write, is_active_write by done.
    rewrite !bind_app, !bind_cons, !elem_of_app, !elem_of_cons, !cnt_app. cbn [full_of].
    rewrite cnt_cons, cnt_nil. destruct (Nat.eqb_spec s' s) as [->|Hne]; cbn [Nat.b2n].
    - pose proof (not_armed s q rs1 O1). pose proof (not_armed s q rs2 O2). rewrite Oa. cbn [Nat.b2n].
      split; [intros [?|[_ [= ->]]]; naive_solver|]. intros [[?|[[= ->]|?]]|[? _]]; [done|..|done|lia].
      right. split; [lia|done].
    - naive_solver. }
  assert (Hnone : payload_at s (table sh) = None).
  { apply eq_None_not_Some. rewrite (so_full _ _ _ _ Hs), Oa, bind_app, bind_cons, !cnt_app. cbn. lia. }
  constructor; cbn [table queued finished published signalled faulted]; try done.
  - intros s' q Hin. by apply Hh, H2.
  - intros s' q Hin. apply (H3 s' q). set_solver.
  - intros s' q Hp. apply H4. by apply Hh.
  - unfold retiring_ok, taking in *. pose proof (so_pc _ _ _ _ Hs) as Hpc. unfold pc_ok in Hpc.
    destruct (pc sc); try done; cbn [queued table finished]; rewrite payload_at_write by done.
    + destruct Hpc as (_ & _ & _ & Hact). destruct (Nat.eqb_spec (word * 64 + bit) s) as [E|]; [|done]. congruence.
    + rewrite cnt_cons in Ot. destruct (Nat.eqb_spec (word * 64 + bit) s) as [E|]; [|done].
      rewrite <- E, Nat.eqb_refl in Ot. done.
  - rewrite H7. pose proof (omap_insert _ s _ (Some p) (payload_lookup _ _ Hlp)) as Ho.
    rewrite Hnone in Ho. change (option_list (Some p)) with [p] in Ho.
    change (option_list (@None P)) with (@nil P) in Ho. cbn [app] in Ho. cbn [write_payload payload]. rewrite Ho.
    rewrite <- !Permutation_middle. done.
Qed.

Lemma delivery_set n sh rs1 rs2 sc s wi : slots_ok n (table sh) (rs1 ++ RCounted s wi :: rs2) sc ->
  delivery_ok sh (rs1 ++ RCounted s wi :: rs2) sc ->
  delivery_ok (with_table (set_active s) sh) (rs1 ++ RPublished wi :: rs2) sc.
Proof.
  intros Hs H. destruct (owns_alone _ _ _ _ _ _ s Hs eq_refl) as (Hlt & O1 & O2 & Oa & Ot).
  apply (delivery_quiet sh (rs1 ++ RCounted s wi :: rs2)); try done.
  - intros s' q. unfold holder. cbn [table with_table]. rewrite payload_at_set.
    rewrite is_active_set by (rewrite (so_active _ _ _ _ Hs); by apply word_in_range).
    rewrite !bind_app, !bind_cons, !elem_of_app, !elem_of_cons, !cnt_app. cbn [full_of].
    rewrite cnt_cons, cnt_nil.
    assert (E : (0 < cnt s' (rs1 ≫= full_of) + (0 + cnt s' (rs2 ≫= full_of))
        + Nat.b2n (if (s' =? s)%nat then true else is_active (table sh) s') <->
      0 < cnt s' (rs1 ≫= full_of) + (Nat.b2n (s' =? s) + 0 + cnt s' (rs2 ≫= full_of))
        + Nat.b2n (is_active (table sh) s'))%nat) by (destruct (s' =? s)%nat; cbn [Nat.b2n]; lia).
    rewrite E. naive_solver.
  - intros s' p'. rewrite !elem_of_app, !elem_of_cons. naive_solver.
Qed.

Lemma delivery_ok_reg n sh rs1 r rs2 sc p code :
  slots_ok n (table sh) (rs1 ++ r :: rs2) sc -> delivery_ok sh (rs1 ++ r :: rs2) sc ->
  let '(sh', r') := reg_step p code sh r in delivery_ok sh' (rs1 ++ r' :: rs2) sc.
Proof.
  intros Hs H. destruct r as [|s q|s q|s|s q|s|s wi|wi]; cbn [reg_step].
  - destruct (claim (table sh)) as [[s|] t'] eqn:Ec; [by eapply delivery_claim|done].
  - by eapply delivery_reset.
  - destruct code; [by eapply delivery_arm|]. apply (delivery_quiet sh (rs1 ++ RReset s q :: rs2)); try done.
    + intros. by apply holder_replace.
    + intros s' p'. rewrite !elem_of_app, !elem_of_cons. naive_solver.
  - apply (delivery_quiet sh (rs1 ++ RFailed s :: rs2)); try done.
    + intros. by apply holder_replace.
    + intros s' p'. rewrite !elem_of_app, !elem_of_cons. naive_solver.
  - by eapply delivery_write.
  - apply (delivery_quiet sh (rs1 ++ RWritten s :: rs2)); try done.
    + intros. by apply holder_replace.
    + intros s' p'. rewrite !elem_of_app, !elem_of_cons. naive_solver.
  - by eapply delivery_set.
  - apply (delivery_quiet sh (rs1 ++ RPublished wi :: rs2)); try done.
    + intros. by apply holder_replace.
    + intros s' p'. rewrite !elem_of_app, !elem_of_cons. naive_solver.
Qed.

Lemma delivery_goto sh rs sc sc' : delivery_ok sh rs sc -> woken sc' = woken sc -> dead sc' = dead sc ->
  retiring_ok sh sc' -> delivery_ok sh rs sc'.
Proof. intros [] E1 E2 Hr. constructor; rewrite ?E1, ?E2; done. Qed.

Lemma active_holder n t rs sc s : slots_ok n t rs sc -> is_active t s = true ->
  exists p, payload_at s t = Some p /\ holder t rs s p.
Proof.
  intros Hs Ha. destruct (proj2 (so_full _ _ _ _ Hs s)) as [p Hp]; [rewrite Ha; cbn; lia|].
  exists p. split; [done|]. right. rewrite Ha. cbn. split; [lia|done].
Qed.

Lemma delivery_clear n sh rs sc w bits b l : slots_ok n (table sh) rs sc -> delivery_ok sh rs sc ->
  pc sc = AtClear w bits b l ->
  delivery_ok (with_table (clear_active w b) sh) rs (goto (AtTake w bits b l) sc).
Proof.
  intros Hs [H1 H2 H3 H4 H5 H6 H7] Epc. pose proof (so_pc _ _ _ _ Hs) as Hpc.
  unfold pc_ok, retiring_ok in *. rewrite Epc in *. destruct Hpc as (_ & Hlt & _ & Hact), H5 as [Hq Hl].
  pose proof (is_active_word _ w b Hlt Hact) as Hw.
  assert (Hh : forall s q, s <> (w * 64 + b)%nat ->
            holder (clear_active w b (table sh)) rs s q <-> holder (table sh) rs s q).
  { intros s q Hne. unfold holder. rewrite payload_at_clear, is_active_clear by done.
    destruct (Nat.eqb_spec s (w * 64 + b)); done. }
  constructor; cbn [with_table table queued finished goto woken dead]; try done.
  - intros s q Hin. apply Hh; [|by apply H2]. intros ->. apply Hq. apply list_elem_of_fmap. by exists ((w * 64 + b)%nat, q).
  - intros s q Hp. apply H4. revert Hp. unfold holder.
    rewrite payload_at_clear, is_active_clear by done. destruct (s =? _)%nat; cbn [Nat.b2n]; [|done].
    intros [?|[? ?]]; [by left|]. right. split; [lia|done].
Qed.

Lemma delivery_take n sh rs sc w bits b l : slots_ok n (table sh) rs sc -> delivery_ok sh rs sc ->
  pc sc = AtTake w bits b l ->
  let taken := option_list (payload_at (w * 64 + b) (table sh)) in
  delivery_ok (with_table (write_payload (w * 64 + b) None) sh) rs
    (mkScanner (AtBits w bits) (probing sc) (retired sc ++ [(w * 64 + b)%nat])
       (if l then woken sc ++ taken else woken sc) (if l then dead sc else dead sc ++ taken) (idle_passes sc)).
Proof.
  intros Hs [H1 H2 H3 H4 H5 H6 H7] Epc taken. pose proof (so_own _ _ _ _ Hs (w * 64 + b)) as Ho.
  pose proof (slots_ok_range _ _ _ _ (w * 64 + b) Hs) as Hr.
  unfold retiring_ok, taking in *. rewrite Epc in *. destruct H5 as [Hq Hl].
  rewrite cnt_cons, Nat.eqb_refl in *. specialize (Hr ltac:(cbn; lia)).
  rewrite <- (so_payload _ _ _ _ Hs) in Hr.
  assert (Hno : ~ (exists q, RArmed (w * 64 + b) q ∈ rs) /\
    (cnt (w * 64 + b) (rs ≫= full_of) + Nat.b2n (is_active (table sh) (w * 64 + b)) = 0)%nat).
  { pose proof (full_le_slots (w * 64 + b) rs). destruct (_ <? n)%nat; cbn in Ho; [|lia].
    split; [|lia]. intros [q Hin%armed_owns]. lia. }
  assert (Hh : forall s q, holder (write_payload (w * 64 + b) None (table sh)) rs s q <->
            holder (table sh) rs s q /\ s <> (w * 64 + b)%nat).
  { intros s q. unfold holder. rewrite payload_at_write, is_active_write by done.
    destruct (Nat.eqb_spec s (w * 64 + b)) as [->|]; [|tauto].
    destruct Hno as [Hno1 Hno2]. rewrite Hno2. split; [|tauto]. intros [?|[? ?]]; [|done].
    exfalso. apply Hno1. by exists q. }
  pose proof (omap_insert _ _ _ None (payload_lookup _ _ Hr)) as Hperm.
  fold taken in Hperm. change (option_list (@None P)) with (@nil P) in Hperm. cbn [app] in Hperm.
  constructor; cbn [with_table table queued finished signalled faulted published woken dead write_payload payload]; try done.
  - intros s q Hin. apply Hh. split; [by apply H2|]. intros ->. apply Hq. apply list_elem_of_fmap.
    by exists ((w * 64 + b)%nat, q).
  - intros s q [Hp _]%Hh. by apply H4.
  - intros q. destruct l; [|by apply H6]. rewrite app_assoc, elem_of_app. intros [?|Hin]; [by apply H6|].
    subst taken. apply Hl; [done|].
    destruct (payload_at _ _); [by apply list_elem_of_singleton in Hin as ->|by apply elem_of_nil in Hin].
  - rewrite H7, <- Hperm. destruct l; rewrite <- ?app_assoc; [|done].
    by rewrite (Permutation_app_swap_app taken (dead sc)).
Qed.

Lemma delivery_drain sh rs sc wk dd sc' : delivery_ok sh rs sc ->
  (wk ++ woken sc' ≡ₚ woken sc) -> (dd ++ dead sc' ≡ₚ dead sc) -> retiring_ok sh sc' ->
  delivery_ok (drain wk dd sh) rs sc'.
Proof.
  intros [H1 H2 H3 H4 H5 H6 H7] Hw Hd Hr.
  constructor; cbn [drain table queued finished signalled faulted published]; try done.
  - intros p Hin. apply H6. rewrite <- Hw. by rewrite app_assoc.
  - rewrite H7, <- Hw, <- Hd. rewrite <- !app_assoc. f_equiv.
    rewrite (app_assoc (faulted sh) wk), (Permutation_app_comm (faulted sh) wk), <- app_assoc.
    do 2 f_equiv. rewrite !app_assoc. f_equiv. f_equiv. by rewrite Permutation_app_comm.
Qed.

Lemma delivery_ok_scan n sh rs sc answer sh' sc' :
  slots_ok n (table sh) rs sc -> delivery_ok sh rs sc -> probe_sound answer sh sc ->
  scan_step answer sh sc = Some (sh', sc') -> delivery_ok sh' rs sc'.
Proof.
  intros Hs H Hprobe Hstep. pose proof (so_pc _ _ _ _ Hs) as Hpc.
  unfold scan_step, probe_sound, pc_ok in *.
  destruct (pc sc) as [pr|w|w bits|w bits b|w bits b|w bits b l|w bits b l| |k| | |] eqn:Epc;
    repeat case_match; simplify_eq/=; try (by apply (delivery_goto _ _ sc)).
  - apply (delivery_goto _ _ sc); [done..|]. destruct Hpc as (_ & _ & _ & Ha).
    destruct (active_holder _ _ _ _ _ Hs Ha) as (p & Hp & Hh).
    destruct (do_landed _ _ _ H _ _ Hh) as [Hq Hf]; [done|]. split; [done|]. cbn. intros _ p'. congruence.
  - apply (delivery_goto _ _ sc); [done..|]. split; [|done]. apply Hprobe.
    by match goal with E : _ && _ = true |- _ => apply andb_true_iff in E as [_ E] end.
  - by eapply delivery_clear.
  - by apply (delivery_take n sh rs sc w bits b true).
  - by apply (delivery_take n sh rs sc w bits b false).
  - apply (delivery_goto _ _ sc); [|done..]. by apply (delivery_quiet sh rs).
  - apply (delivery_goto _ _ sc); [|done..]. by apply (delivery_quiet sh rs).
  - apply (delivery_drain sh rs sc); [done|cbn; by rewrite app_nil_r..|done].
  - apply (delivery_drain sh rs sc); [done| |done|done]. cbn [woken]. rewrite app_nil_r.
    by match goal with E : woken sc = _ |- _ => rewrite E end.
  - apply (delivery_goto _ _ sc); [|done..]. by apply (delivery_quiet sh rs).
Qed.

(** *** The device *)

Definition held_of r : list nat :=
  match r with RArmed s _ | RWritten s | RCounted s _ => [s] | _ => [] end.

Lemma held_full x (rs : list (RegPC P)) : (cnt x (rs ≫= full_of) <= cnt x (rs ≫= held_of) <= cnt x (rs ≫= slot_of))%nat.
Proof.
  induction rs as [|r rs IH]; [done|]. rewrite !bind_cons, !cnt_app.
  destruct r; cbn [full_of held_of slot_of]; rewrite ?cnt_nil; lia.
Qed.

Lemma armed_held s p (rs : list (RegPC P)) : RArmed s p ∈ rs ->
  (1 + cnt s (rs ≫= full_of) <= cnt s (rs ≫= held_of))%nat.
Proof.
  intros (l1 & l2 & ->)%list_elem_of_split. rewrite !bind_app, !bind_cons, !cnt_app. cbn [full_of held_of].
  rewrite cnt_cons, Nat.eqb_refl. cbn. pose proof (held_full s l1). pose proof (held_full s l2). lia.
Qed.

Lemma reset_owns s p (rs : list (RegPC P)) : RReset s p ∈ rs ->
  (1 + cnt s (rs ≫= held_of) <= cnt s (rs ≫= slot_of))%nat.
Proof.
  intros (l1 & l2 & ->)%list_elem_of_split. rewrite !bind_app, !bind_cons, !cnt_app. cbn [slot_of held_of].
  rewrite cnt_cons, Nat.eqb_refl. cbn. pose proof (held_full s l1). pose proof (held_full s l2). lia.
Qed.

Lemma holder_held t rs s p : holder t rs s p -> (0 < cnt s (rs ≫= held_of) + Nat.b2n (is_active t s))%nat.
Proof. pose proof (held_full s rs). intros [Ha%armed_held|[Hf _]]; lia. Qed.

Lemma reset_not_held n t rs sc s p q : slots_ok n t rs sc -> RReset s p ∈ rs -> ~ holder t rs s q.
Proof.
  intros Hs Hr%reset_owns Hh%holder_held. pose proof (so_own _ _ _ _ Hs s).
  destruct (_ <? n)%nat; cbn in *; lia.
Qed.

Lemma holder_unique n t rs sc s p q : slots_ok n t rs sc -> holder t rs s p -> holder t rs s q -> p = q.
Proof.
  intros Hs. pose proof (so_own _ _ _ _ Hs s) as Ho. pose proof (held_full s rs).
  assert (cnt s (rs ≫= slot_of) + Nat.b2n (is_active t s) <= 1)%nat by (destruct (_ <? n)%nat; cbn in Ho; lia).
  intros [Hp|[Hp Ep]] [Hq|[Hq Eq]].
  - pose proof Hp as (l1 & l2 & ->)%list_elem_of_split.
    rewrite elem_of_app, elem_of_cons in Hq. rewrite bind_app, bind_cons, !cnt_app in *.
    cbn [slot_of] in *. rewrite cnt_cons, Nat.eqb_refl in *. cbn in *.
    destruct Hq as [Hq%armed_owns|[[= ->]|Hq%armed_owns]]; [lia|done|lia].
  - pose proof (armed_held _ _ _ Hp). lia.
  - pose proof (armed_held _ _ _ Hq). lia.
  - congruence.
Qed.

Lemma retiring_ok_weaken sh sh' sc : retiring_ok sh sc ->
  (forall s, s ∈ (queued sh').*1 -> s ∈ (queued sh).*1) -> (forall p, p ∈ finished sh -> p ∈ finished sh') ->
  (forall s, payload_at s (table sh') = payload_at s (table sh)) -> retiring_ok sh' sc.
Proof. intros H Hq Hf Hp. unfold retiring_ok in *. destruct (pc sc); rewrite ?Hp; naive_solver. Qed.

Lemma delivery_land n sh rs sc q1 s p q2 : slots_ok n (table sh) rs sc -> delivery_ok sh rs sc ->
  queued sh = q1 ++ (s, p) :: q2 -> delivery_ok (land_write s p (q1 ++ q2) sh) rs sc.
Proof.
  intros Hs [H1 H2 H3 H4 H5 H6 H7] Hq. rewrite Hq in H1, H2.
  assert (Hold : holder (table sh) rs s p) by (apply H2; set_solver).
  assert (Hlt : (s < length (flags (table sh)))%nat).
  { rewrite (so_flags _ _ _ _ Hs). apply (slots_ok_range _ _ _ _ s Hs).
    pose proof (holder_owns _ _ _ _ Hold). lia. }
  rewrite fmap_app, fmap_cons in H1. cbn [fst] in H1.
  apply NoDup_app in H1 as (N1 & N2 & N3). apply NoDup_cons in N3 as [N3 N4].
  assert (Hsub : forall x, x ∈ (q1 ++ q2).*1 -> x ∈ (queued sh).*1 /\ x <> s).
  { intros x. rewrite Hq, !fmap_app, fmap_cons, !elem_of_app, elem_of_cons. set_solver. }
  constructor; cbn [land_write table queued finished signalled faulted published]; try done.
  - rewrite fmap_app. apply NoDup_app. split_and!; [done| |done]. set_solver.
  - intros s' q Hin. apply H2. set_solver.
  - intros s' q Hin. rewrite landed_store by done. destruct (Nat.eqb_spec s' s) as [->|]; [|by eapply H3].
    by destruct (reset_not_held _ _ _ _ _ _ p Hs Hin).
  - intros s' q Hh. rewrite landed_store by done. destruct (Nat.eqb_spec s' s) as [->|Hne].
    + intros _. rewrite (holder_unique _ _ _ _ _ _ _ Hs Hh Hold). split; [|by left].
      intros [_ ?]%Hsub. done.
    + intros Hl. destruct (H4 s' q Hh Hl). split; [|by right]. intros [? _]%Hsub. done.
  - eapply retiring_ok_weaken; [done| |by right|done]. intros x [? _]%Hsub. done.
  - intros q Hin. right. by apply H6.
Qed.

Lemma delivery_drop sh rs sc q1 s p q2 : delivery_ok sh rs sc ->
  queued sh = q1 ++ (s, p) :: q2 -> delivery_ok (drop_write (q1 ++ q2) sh) rs sc.
Proof.
  intros [H1 H2 H3 H4 H5 H6 H7] Hq. rewrite Hq in H1, H2.
  rewrite fmap_app, fmap_cons in H1. apply NoDup_app in H1 as (N1 & N2 & N3). apply NoDup_cons in N3 as [N3 N4].
  assert (Hsub : forall x, x ∈ (q1 ++ q2).*1 -> x ∈ (queued sh).*1).
  { intros x. rewrite Hq, !fmap_app, fmap_cons, !elem_of_app, elem_of_cons. set_solver. }
  constructor; cbn [drop_write table queued finished signalled faulted published]; try done.
  - rewrite fmap_app. apply NoDup_app. split_and!; [done| |done]. set_solver.
  - intros s' q Hin. apply H2. set_solver.
  - intros s' q Hh Hl. destruct (H4 s' q Hh Hl). split; [|done]. by intros ?%Hsub.
  - by eapply retiring_ok_weaken.
Qed.

(** Between passes the scanner's vectors are empty. *)
Definition vectors_ok sc : Prop :=
  (probing sc = false -> dead sc = []) /\
  match pc sc with
  | AtScan _ | AtIdle | AtPark => probing sc = false /\ woken sc = []
  | _ => True
  end.

Definition unprobed sc : Prop :=
  match pc sc with
  | AtProbe _ _ _ => probing sc = true
  | AtClear _ _ _ l | AtTake _ _ _ l => l = false -> probing sc = true
  | _ => True
  end.

Lemma vectors_ok_scan sh sc answer sh' sc' : vectors_ok sc /\ unprobed sc ->
  scan_step answer sh sc = Some (sh', sc') -> vectors_ok sc' /\ unprobed sc'.
Proof.
  intros [[Hd Hv] Hu]. unfold vectors_ok, unprobed, scan_step in *.
  destruct (pc sc) eqn:Epc; repeat case_match; intros; simplify_eq/=; try (by intuition congruence).
Qed.

(** ** Every interleaving *)

Record sys_ok (n : nat) (sys : System P) : Prop := {
  sys_slots : slots_ok n (table (shared sys)) (registrants sys) (scanner sys);
  sys_count : count_ok n (table (shared sys)) (registrants sys) (scanner sys);
  sys_wake : wake_ok (shared sys) (registrants sys) (scanner sys);
  sys_delivery : delivery_ok (shared sys) (registrants sys) (scanner sys);
  sys_vectors : vectors_ok (scanner sys) /\ unprobed (scanner sys);
}.

Lemma sys_ok_step n sys sys' : Z.of_nat n < 2 ^ 62 -> sys_ok n sys -> step sys sys' -> sys_ok n sys'.
Proof.
  intros Hn [Hs Hc Hw Hd Hv] Hstep.
  destruct Hstep as [sh rs1 r rs2 sc p code|sh rs sc answer sh' sc' E Hp|sh rs sc Epc|sh rs sc q1 s p q2 E|sh rs sc q1 s p q2 E];
    cbn [shared registrants scanner] in *.
  - pose proof (slots_ok_reg n sh rs1 r rs2 sc p code Hs) as H1.
    pose proof (count_ok_reg n sh rs1 r rs2 sc p code Hn Hs Hc) as H2.
    pose proof (wake_ok_reg sh rs1 r rs2 sc p code Hw) as H3.
    pose proof (delivery_ok_reg n sh rs1 r rs2 sc p code Hs Hd) as H4.
    destruct (reg_step p code sh r) as [sh' r']. by constructor.
  - constructor; cbn [shared registrants scanner].
    + by eapply slots_ok_scan.
    + by eapply count_ok_scan.
    + by eapply wake_ok_scan.
    + by eapply delivery_ok_scan.
    + by eapply vectors_ok_scan.
  - assert (Hr : retired sc = []) by (pose proof (so_pc _ _ _ _ Hs) as H; unfold pc_ok in H; by rewrite Epc in H).
    constructor; cbn [shared registrants scanner].
    + apply (slots_ok_goto n _ _ sc); [done|unfold taking; by rewrite Epc|done|done|done].
    + unfold count_ok, armed_slots, taking, to_sub in *. by rewrite Epc in Hc.
    + done.
    + by apply (delivery_goto _ _ sc).
    + unfold vectors_ok, unprobed in *. rewrite Epc in Hv. cbn. tauto.
  - constructor; [by apply slots_ok_store|done|done|by eapply delivery_land|done].
  - constructor; [done|done|done|by eapply delivery_drop|done].
Qed.

Lemma sys_ok_initial n k : sys_ok n (initial n k).
Proof.
  assert (Hidle : forall r, r ∈ replicate k (@RIdle P) -> r = RIdle) by (by intros r [-> _]%elem_of_replicate).
  assert (Ha : active_list (new n (replicate n 0)) = []).
  { apply Permutation_nil_r, cnt_Permutation. intros x. by rewrite cnt_active, new_inactive, andb_false_r. }
  constructor; cbn [initial shared registrants scanner table]; [apply slots_ok_initial| |done| |done].
  - unfold count_ok, armed_slots. rewrite idle_slots, Ha by done. split; cbn; lia.
  - constructor; cbn [queued table]; try done.
    + constructor.
    + by intros s p ?%elem_of_nil.
    + by intros s p ?%Hidle.
    + intros s p [?%Hidle|[_ H]]; [done|]. by rewrite new_payload in H.
    + cbn. clear Ha. induction n as [|m IH]; [done|]. cbn. apply IH.
Qed.

Lemma reachable_ok n k sys : Z.of_nat n < 2 ^ 62 -> reachable n k sys -> sys_ok n sys.
Proof.
  intros Hn H. unfold reachable in H. pose proof (sys_ok_initial n k) as H0.
  induction H as [|x y z Hxy _ IH]; [done|]. apply IH. by eapply sys_ok_step.
Qed.

(** The slot whose payload cell the scanner's next access touches. *)
Definition scanner_cell sc : option nat :=
  match pc sc with
  | AtProbe w _ b | AtTake w _ b _ => Some (w * 64 + b)%nat
  | _ => None
  end.

Lemma no_payload_race n t rs sc s p : slots_ok n t rs sc -> RArmed s p ∈ rs -> scanner_cell sc <> Some s.
Proof.
  intros Hs Ha%armed_owns Hc. pose proof (so_own _ _ _ _ Hs s) as Ho. pose proof (so_pc _ _ _ _ Hs) as Hpc.
  unfold scanner_cell, pc_ok, taking in *. destruct (pc sc); simplify_eq.
  - destruct Hpc as (_ & _ & _ & Hact). rewrite Hact in Ho. destruct (_ <? n)%nat; cbn in Ho; lia.
  - rewrite cnt_cons, Nat.eqb_refl in Ho. destruct (_ <? n)%nat; cbn in Ho; lia.
Qed.

Lemma no_payloads t : (forall x, payload_at x t = None) -> omap id (payload t) = [].
Proof.
  unfold payload_at. intros H. induction (payload t) as [|o l IH]; [done|].
  pose proof (H 0%nat) as H0. cbn in H0. subst o. cbn. apply IH. intros x. apply (H (S x)).
Qed.

Lemma idle_pool (f : RegPC P -> list nat) rs : f RIdle = [] -> Forall (eq RIdle) rs -> rs ≫= f = [].
Proof. intros Hf. induction 1 as [|r rs <- _ IH]; [done|]. cbn. by rewrite Hf. Qed.

(** When nothing is armed and no registrant is under way, every slot is free
    and every cell empty. *)
Lemma idle_table n t rs sc : slots_ok n t rs sc -> armed_slots t rs sc = [] -> Forall (eq RIdle) rs ->
  free t ≡ₚ seq 0 n /\ omap id (payload t) = [].
Proof.
  intros Hs Hz Hidle. unfold armed_slots in Hz. rewrite idle_pool in Hz by done. cbn [app] in Hz.
  apply app_eq_nil in Hz as [Ha Hz]. apply app_eq_nil in Hz as [Htk Hret].
  assert (Hact : forall x, is_active t x = false).
  { intros x. pose proof (cnt_active x t) as E. rewrite Ha, cnt_nil in E.
    destruct (is_active t x) eqn:Ex; [|done]. rewrite (so_num _ _ _ _ Hs), andb_true_r in E.
    pose proof (slots_ok_range _ _ _ _ x Hs ltac:(rewrite Ex; cbn; lia)) as Hlt.
    apply Nat.ltb_lt in Hlt. by rewrite Hlt in E. }
  split.
  - apply cnt_Permutation. intros x. pose proof (so_own _ _ _ _ Hs x) as Ho.
    rewrite Hact, Htk, Hret, idle_pool in Ho by done. rewrite cnt_seq. cbn in Ho |- *.
    by rewrite !Nat.add_0_r in Ho.
  - apply no_payloads. intros x. apply eq_None_not_Some.
    rewrite (so_full _ _ _ _ Hs), Hact, Htk, idle_pool by done. cbn. lia.
Qed.

End invariants.

(** *** Schedules

    A schedule names which actor moves; running it is executable, and what it
    reaches is reachable. *)

Inductive Move (P : Type) :=
| MReg (thread : nat) (p : P) (code : bool)
| MScan (answer : bool)
| MLand (i : nat)
| MDrop (i : nat).
Arguments MReg {P} thread p code.
Arguments MScan {P} answer.
Arguments MLand {P} i.
Arguments MDrop {P} i.

Definition perform {P} (m : Move P) (sys : System P) : option (System P) :=
  let '(mkSystem sh rs sc) := sys in
  match m with
  | MReg i p code =>
      r ← rs !! i;
      let '(sh', r') := reg_step p code sh r in
      Some (mkSystem sh' (take i rs ++ r' :: drop (S i) rs) sc)
  | MScan answer =>
      if answer && match pc sc with
                   | AtProbe w _ b => bool_decide ((w * 64 + b)%nat ∈ (queued sh).*1)
                   | _ => false
                   end then None
      else r ← scan_step answer sh sc; Some (mkSystem r.1 rs r.2)
  | MLand i =>
      sp ← queued sh !! i;
      Some (mkSystem (land_write sp.1 sp.2 (take i (queued sh) ++ drop (S i) (queued sh)) sh) rs sc)
  | MDrop i =>
      _ ← queued sh !! i;
      Some (mkSystem (drop_write (take i (queued sh) ++ drop (S i) (queued sh)) sh) rs sc)
  end.

Fixpoint run {P} (ms : list (Move P)) (sys : System P) : option (System P) :=
  match ms with
  | [] => Some sys
  | m :: ms => sys ← perform m sys; run ms sys
  end.

Lemma perform_step {P} (m : Move P) sys sys' : perform m sys = Some sys' -> step sys sys'.
Proof.
  destruct sys as [sh rs sc], m as [i p code|answer|i|i]; cbn.
  - destruct (rs !! i) as [r|] eqn:E; cbn; [|done].
    pose proof (step_reg sh (take i rs) r (drop (S i) rs) sc p code) as H.
    rewrite (take_drop_middle rs i r E) in H. destruct (reg_step p code sh r). by intros [= <-].
  - destruct (answer && _) eqn:E; [done|]. destruct (scan_step answer sh sc) as [[sh' sc']|] eqn:Es; cbn; [|done].
    intros [= <-]. eapply step_scan; [exact Es|]. unfold probe_sound.
    destruct (pc sc); try done. intros ->. cbn in E. by apply bool_decide_eq_false in E.
  - destruct (queued sh !! i) as [[s p]|] eqn:E; cbn; [|done]. intros [= <-].
    apply step_land. symmetry. by apply take_drop_middle.
  - destruct (queued sh !! i) as [[s p]|] eqn:E; cbn; [|done]. intros [= <-].
    eapply step_drop. symmetry. by apply take_drop_middle.
Qed.

Lemma run_reachable {P} n k ms (sys : System P) : run ms (initial n k) = Some sys -> reachable n k sys.
Proof.
  unfold reachable. generalize (initial (P:=P) n k). induction ms as [|m ms IH]; intros s0; cbn.
  - intros [= ->]. reflexivity.
  - destruct (perform m s0) as [s1|] eqn:E; cbn; [|done]. intros H.
    eapply rtc_l; [by eapply perform_step|by apply IH].
Qed.

(** C11: in every interleaving of registrants, device and scanner, each
    published payload is in exactly one place, still in its cell or delivered
    once, as completed or as faulted; a payload delivered as completed had its
    own flag write executed; the scanner and a publishing registrant never
    touch the same payload cell; and the armed count never underflows. *)
Theorem reactor_delivers_once {P} (n threads : nat) (sys : System P) (Hn : Z.of_nat n < 2 ^ 62)
    (Hr : reachable n threads sys) :
  let sh := shared sys in let sc := scanner sys in
  published sh ≡ₚ signalled sh ++ faulted sh ++ woken sc ++ dead sc ++ omap id (payload (table sh)) /\
  (forall p, p ∈ signalled sh -> p ∈ finished sh) /\
  (forall s p, RArmed s p ∈ registrants sys -> scanner_cell sc <> Some s) /\
  (forall k, pc sc = AtSub k -> Z.of_nat k <= n_armed (table sh)).
Proof.
  intros sh sc. destruct (reachable_ok n threads sys Hn Hr) as [Hs Hc _ Hd _]. split_and!.
  - apply (do_tokens _ _ _ Hd).
  - intros p Hp. apply (do_woken _ _ _ Hd). set_solver.
  - intros s p. by eapply no_payload_race.
  - intros k Hk. destruct Hc as [Hc _]. unfold to_sub in Hc. fold sc in Hc. rewrite Hk in Hc. subst sh. lia.
Qed.

(** C15: no wake-up is lost.  A scanner blocked in [park] while no registrant
    is about to unpark it has nothing armed: no slot is active, every payload
    whose publication finished was delivered, and once the registrants are
    idle the free list holds every slot again. *)
Theorem reactor_no_lost_wakeup {P} (n threads : nat) (sys : System P) (Hn : Z.of_nat n < 2 ^ 62)
    (Hr : reachable n threads sys)
    (Hblocked : scan_step false (shared sys) (scanner sys) = None)
    (Hquiet : existsb will_unpark (registrants sys) = false) :
  active_list (table (shared sys)) = [] /\ is_idle (table (shared sys)) = true /\
  (Forall (eq RIdle) (registrants sys) ->
   free (table (shared sys)) ≡ₚ seq 0 n /\
   published (shared sys) ≡ₚ signalled (shared sys) ++ faulted (shared sys)).
Proof.
  destruct (reachable_ok n threads sys Hn Hr) as [Hs [Hc _] Hw Hd [[Hv1 Hv2] _]].
  assert (Hp : pc (scanner sys) = AtPark /\ token (shared sys) = false).
  { revert Hblocked. unfold scan_step. destruct (pc _); repeat case_match; done. }
  destruct Hp as [Hp Ht]. specialize (Hw Hp). rewrite Ht, Hquiet in Hw.
  destruct Hw as [Hw|[?|?]]; [|done..]. rewrite Hw in Hc.
  assert (Hz : length (armed_slots (table (shared sys)) (registrants sys) (scanner sys)) = 0%nat) by lia.
  apply length_zero_iff_nil in Hz.
  split_and!; [|unfold is_idle; by rewrite Hw|intros Hidle].
  - unfold armed_slots in Hz. apply app_eq_nil in Hz as [_ Hz]. by apply app_eq_nil in Hz as [Ha _].
  - destruct (idle_table _ _ _ _ Hs Hz Hidle) as [Hf Hpay]. split; [done|].
    rewrite (do_tokens _ _ _ Hd), Hpay. rewrite Hp in Hv2. destruct Hv2 as [Hpr ->].
    by rewrite Hv1, !app_nil_r.
Qed.

(** One registration of payload 7, its flag write, and a pass up to the
    subtraction; and the same until the scanner parks again. *)
Definition register_moves : list (Move nat) :=
  MScan false :: replicate 7 (MReg 0 7%nat true) ++ [MLand 0].

Definition example_system (more : nat) : System nat :=
  default (initial 2 1) (run (register_moves ++ replicate more (MScan false)) (initial 2 1)).

Lemma reactor_delivers_once_witness :
  pc (scanner (example_system 8)) = AtSub 1 /\ 1 <= n_armed (table (shared (example_system 8))) /\
  7%nat ∈ woken (scanner (example_system 8)).
Proof.
  assert (Hr : reachable 2 1 (example_system 8)).
  { apply (run_reachable 2 1 (register_moves ++ replicate 8 (MScan false))). vm_compute. reflexivity. }
  split; [vm_compute; reflexivity|]. split.
  - destruct (reactor_delivers_once 2 1 (example_system 8) ltac:(vm_compute; reflexivity) Hr) as (_ & _ & _ & H).
    apply (H 1%nat). vm_compute. reflexivity.
  - vm_compute. apply list_elem_of_here.
Defined.

Lemma reactor_no_lost_wakeup_witness :
  signalled (shared (example_system 23)) = [7%nat] /\ is_idle (table (shared (example_system 23))) = true.
Proof.
  split; [vm_compute; reflexivity|].
  apply (reactor_no_lost_wakeup 2 1 (example_system 23)).
  - vm_compute. reflexivity.
  - apply (run_reachable 2 1 (register_moves ++ replicate 23 (MScan false))). vm_compute. reflexivity.
  - vm_compute. reflexivity.
  - vm_compute. reflexivity.
Defined.
