(* ===== verification/ScanPass.v ===== *)
(** * One undisturbed scan pass (cuda-async/src/slot_table.rs [scan_inner])

    The atomic steps of the scanner, run without interference, are exactly the
    source's [scan_inner]; the pass terminates without panicking and retires
    the landed slots (and, when probing, the dead ones) in slot order. *)

From S2P Require Import Prelude SlotTable Reactor.

Section pass.
Context {P : Type} (n : nat) (rs : list (RegPC P)) (is_dead : P -> bool) (probe : bool)
  (sh : Shared P) (ip : Z).
Implicit Types (a : Scanned P ()) (c : Shared P * Scanner P).

Definition probe_fn : option (P -> () -> bool * ()) :=
  if probe then Some (fun p d => (is_dead p, d)) else None.

(** The scanner alone: a probe answers [is_dead] of the payload. *)
Definition alone c c' : Prop :=
  scan_step (match pc c.2 with
             | AtProbe w _ b => match payload_at (w * 64 + b) (table c.1) with Some p => is_dead p | None => false end
             | _ => false
             end) c.1 c.2 = Some c'.

(** The configuration in which the pass has accumulated [a]. *)
Definition conf a (k : ScanPC) : Shared P * Scanner P :=
  (with_table (fun _ => s_table a) sh, mkScanner k probe (s_retired a) (s_woken a) (s_dead a) ip).

Definition conf_ok c : Prop := slots_ok n (table c.1) rs c.2 /\ count_ok n (table c.1) rs c.2.

Hypothesis small : Z.of_nat n < 2 ^ 62.

Lemma alone_ok c c' : rtc alone c c' -> conf_ok c -> conf_ok c'.
Proof.
  induction 1 as [|c1 [sh2 sc2] c3 H _ IH]; [done|]. intros [Hs Hc]. apply IH. unfold alone in H.
  split; [by eapply slots_ok_scan|by eapply count_ok_scan].
Qed.

(** What the pass does to one active slot. *)
Definition retires (t : SlotTable P) (s : nat) : bool :=
  landed_at s t || (probe && match payload_at s t with Some p => is_dead p | None => false end).

Definition acc a (s : nat) : Scanned P () :=
  let t := s_table a in
  let taken := option_list (payload_at s t) in
  if retires t s then
    mkScanned (write_payload s None (clear_active (s / 64) (s mod 64) t)) (s_retired a ++ [s])
      (if landed_at s t then s_woken a ++ taken else s_woken a)
      (if landed_at s t then s_dead a else s_dead a ++ taken) ()
  else a.

Lemma scan_slot_runs w bits b a : conf_ok (conf a (AtFlag w bits b)) ->
  scan_slot probe_fn w b a = Ok (acc a (w * 64 + b)) /\
  rtc alone (conf a (AtFlag w bits b)) (conf (acc a (w * 64 + b)) (AtBits w bits)).
Proof.
  intros [Hs _]. cbn [conf fst snd with_table table] in Hs. pose proof (so_pc _ _ _ _ Hs) as Hpc.
  unfold pc_ok in Hpc; cbn [pc] in Hpc. destruct Hpc as (_ & Hb & _ & Hact).
  assert (Hlt : (w * 64 + b < n)%nat) by (apply (slots_ok_range _ _ _ _ _ Hs); rewrite Hact; cbn; lia).
  destruct (active_holder _ _ _ _ _ Hs Hact) as (p & Hp & _).
  pose proof (so_flags _ _ _ _ Hs) as Hf. pose proof (so_payload _ _ _ _ Hs) as Hpl.
  unfold scan_slot, acc, retires. cbn [clear_active update_word payload].
  destruct (slot_split w b Hb) as [-> ->].
  rewrite Hf, Hpl, (proj2 (Nat.ltb_lt _ _) Hlt), Hp. cbn [negb]. rewrite !andb_false_r.
  destruct a as [t ret wk dd []]; cbn [s_table s_retired s_woken s_dead s_probe] in *.
  unfold probe_fn, conf. cbn [s_table s_retired s_woken s_dead].
  destruct (landed_at (w * 64 + b) t) eqn:El; cbn [orb].
  - rewrite payload_at_clear, Hp. split; [reflexivity|].
    eapply rtc_l; [unfold alone, scan_step; cbn; rewrite El; reflexivity|].
    eapply rtc_l; [reflexivity|]. eapply rtc_l; [|reflexivity].
    unfold alone, scan_step; cbn. by rewrite payload_at_clear, Hp.
  - destruct probe; cbn [andb]; [destruct (is_dead p) eqn:Ed|].
    + rewrite payload_at_clear, Hp. split; [reflexivity|].
      eapply rtc_l; [unfold alone, scan_step; cbn; rewrite El; reflexivity|].
      eapply rtc_l; [unfold alone, scan_step; cbn; rewrite Hp; cbn; rewrite Ed; reflexivity|].
      eapply rtc_l; [reflexivity|]. eapply rtc_l; [|reflexivity].
      unfold alone, scan_step; cbn. by rewrite payload_at_clear, Hp.
    + split; [reflexivity|].
      eapply rtc_l; [unfold alone, scan_step; cbn; rewrite El; reflexivity|].
      eapply rtc_l; [unfold alone, scan_step; cbn; rewrite Hp; cbn; rewrite Ed; reflexivity|reflexivity].
    + split; [reflexivity|].
      eapply rtc_l; [unfold alone, scan_step; cbn; rewrite El; reflexivity|]. reflexivity.
Qed.

(** The set bits of a word from [k] on, in the order the loop visits them. *)
Definition set_bits (k : nat) (bits : Z) : list nat :=
  filter (fun b => Z.testbit bits (Z.of_nat b) = true) (seq k (64 - k)).

Lemma set_bits_none k bits : (forall b, (k <= b < 64)%nat -> Z.testbit bits (Z.of_nat b) = false) ->
  set_bits k bits = [].
Proof.
  intros H. apply (filter_test_none (fun b => Z.testbit bits (Z.of_nat b))). intros b Hb%elem_of_seq. apply H. lia.
Qed.

Lemma set_bits_next k bits : in_u64 bits -> bits <> 0 ->
  (forall b, (b < k)%nat -> Z.testbit bits (Z.of_nat b) = false) ->
  let z := trailing_zeros bits in
  (k <= z)%nat /\ set_bits k bits = z :: set_bits (S z) (Z.land bits (bits - 1)).
Proof.
  intros Hu Hne Hlow z. destruct (trailing_zeros_spec bits Hu Hne) as (Hz & Hbit & Hz0). fold z in Hz, Hbit, Hz0.
  assert (k <= z)%nat by (destruct (decide (k <= z)%nat); [done|rewrite Hlow in Hbit by lia; done]).
  split; [done|]. unfold set_bits.
  replace (64 - k)%nat with ((z - k) + (1 + (64 - S z)))%nat by lia.
  rewrite seq_app, filter_app. replace (k + (z - k))%nat with z by lia.
  rewrite (filter_test_none (fun b => Z.testbit bits (Z.of_nat b)))
    by (intros b Hb%elem_of_seq; apply Hz0; lia).
  cbn [app Nat.add seq]. rewrite filter_cons, decide_True by done. f_equal.
  apply (filter_test_ext (fun b => Z.testbit bits (Z.of_nat b))). intros b Hb%elem_of_seq.
  rewrite clear_lowest by done. fold z. destruct (Nat.eqb_spec b z); [lia|done].
Qed.

Lemma scan_bits_runs fuel k w bits a : (64 <= fuel + k)%nat ->
  (forall b, (b < k)%nat -> Z.testbit bits (Z.of_nat b) = false) ->
  conf_ok (conf a (AtBits w bits)) ->
  let a' := foldl acc a ((fun b => w * 64 + b)%nat <$> set_bits k bits) in
  scan_bits fuel probe_fn w bits a = Ok a' /\
  rtc alone (conf a (AtBits w bits)) (conf a' (AtWord (S w))).
Proof.
  revert k bits a. induction fuel as [|fuel IH]; intros k bits a Hk Hlow Hok;
    pose proof Hok as [Hs _]; pose proof (so_pc _ _ _ _ Hs) as Hpc;
    unfold pc_ok in Hpc; cbn [conf snd pc] in Hpc; destruct Hpc as [Hu Hbits].
  - assert (bits = 0) as ->.
    { destruct (Z.eq_dec bits 0); [done|]. destruct (nonzero_has_bit bits Hu n0) as (i & Hi & Hb).
      rewrite Hlow in Hb by lia. done. }
    rewrite set_bits_none by (intros; apply Z.bits_0). split; [done|]. by apply rtc_once.
  - cbn [scan_bits]. destruct (Z.eqb_spec bits 0) as [->|Hne].
    { rewrite set_bits_none by (intros; apply Z.bits_0). split; [done|]. by apply rtc_once. }
    destruct (set_bits_next k bits Hu Hne Hlow) as [Hkz ->].
    destruct (trailing_zeros_spec bits Hu Hne) as (Hz & Hbit & Hz0).
    set (z := trailing_zeros bits) in *.
    assert (Hlt : (w * 64 + z < n)%nat).
    { apply (slots_ok_range _ _ _ _ _ Hs). cbn [conf fst with_table table] in *.
      rewrite (Hbits z Hz Hbit). cbn. lia. }
    assert (Hnum : (num_slots (s_table a) <=? w * 64 + z)%nat = false).
    { apply Nat.leb_gt. pose proof (so_num _ _ _ _ Hs) as E. cbn in E. lia. }
    rewrite Hnum. cbn [fmap list_fmap foldl].
    assert (Hstep : alone (conf a (AtBits w bits)) (conf a (AtFlag w (Z.land bits (bits - 1)) z))).
    { unfold alone, scan_step; cbn [conf fst snd pc with_table table]. fold z. rewrite Hnum. by destruct (Z.eqb_spec bits 0). }
    pose proof (alone_ok _ _ (rtc_once _ _ Hstep) Hok) as Hok1.
    destruct (scan_slot_runs _ _ _ _ Hok1) as [-> Hrun].
    pose proof (alone_ok _ _ Hrun Hok1) as Hok2.
    destruct (IH (S z) (Z.land bits (bits - 1)) (acc a (w * 64 + z))) as [E Hrun']; [lia| |done|].
    { intros b Hb. rewrite clear_lowest by done. fold z. destruct (Nat.eqb_spec b z); [done|apply Hz0; lia]. }
    split; [exact E|]. eapply rtc_l; [exact Hstep|]. by etrans.
Qed.
(** Retiring a slot leaves the others alone. *)
Lemma is_active_clear_ne (t : SlotTable P) s x : x <> s ->
  is_active (clear_active (s / 64) (s mod 64) t) x = is_active t x.
Proof.
  intros Hne. assert (s mod 64 < 64)%nat by (apply Nat.mod_upper_bound; lia).
  destruct (decide (s / 64 < length (active t))%nat) as [Hl|Hl].
  - rewrite is_active_clear by done. rewrite (Nat.mul_comm _ 64), <- Nat.div_mod_eq.
    by destruct (Nat.eqb_spec x s).
  - unfold is_active, clear_active, update_word; cbn [active]. f_equal. f_equal.
    destruct (decide ((x / 64)%nat = (s / 64)%nat)) as [->|]; [|by rewrite list_lookup_alter_ne].
    rewrite list_lookup_alter, decide_True by done.
    by rewrite (proj2 (lookup_ge_None (active t) (s / 64)%nat)) by lia.
Qed.

Lemma payload_at_write_ne (t : SlotTable P) s p x : x <> s -> payload_at x (write_payload s p t) = payload_at x t.
Proof. intros Hne. unfold payload_at, write_payload; cbn [payload]. by rewrite list_lookup_insert_ne. Qed.

Lemma acc_other a s x : x <> s ->
  is_active (s_table (acc a s)) x = is_active (s_table a) x /\
  payload_at x (s_table (acc a s)) = payload_at x (s_table a) /\
  landed_at x (s_table (acc a s)) = landed_at x (s_table a).
Proof.
  intros Hne. unfold acc. destruct (retires _ s); [|done]. cbn [s_table].
  by rewrite is_active_write, is_active_clear_ne, payload_at_write_ne, payload_at_clear by done.
Qed.

Lemma foldl_acc_other l a x : x ∉ l ->
  is_active (s_table (foldl acc a l)) x = is_active (s_table a) x /\
  payload_at x (s_table (foldl acc a l)) = payload_at x (s_table a) /\
  landed_at x (s_table (foldl acc a l)) = landed_at x (s_table a).
Proof.
  revert a. induction l as [|s l IH]; intros a Hx; [done|]. apply not_elem_of_cons in Hx as [Hx1 Hx2].
  cbn [foldl]. destruct (IH (acc a s) Hx2) as (-> & -> & ->). by apply acc_other.
Qed.

(** The slots of one word. *)
Lemma word_slots (t : SlotTable P) w :
  (fun b => w * 64 + b)%nat <$> set_bits 0 (default 0 (active t !! w)) =
  filter (fun x => is_active t x = true) (seq (w * 64) 64).
Proof.
  replace (seq (w * 64) 64) with ((fun b => w * 64 + b)%nat <$> seq 0 64)
    by (rewrite fmap_add_seq; f_equal; lia).
  rewrite (filter_test_fmap _ (is_active t)). f_equal. unfold set_bits.
  apply (filter_test_ext (fun b => Z.testbit (default 0 (active t !! w)) (Z.of_nat b))).
  intros b Hb%elem_of_seq. unfold is_active. by destruct (slot_split w b ltac:(lia)) as [-> ->].
Qed.

Lemma scan_words_runs m w any a : length (active (s_table a)) = (w + m)%nat ->
  conf_ok (conf a (AtWord w)) ->
  let a' := foldl acc a (filter (fun x => is_active (s_table a) x = true) (seq (w * 64) (m * 64))) in
  exists any', scan_words probe_fn m w any a = Ok (any', a') /\
  rtc alone (conf a (AtWord w)) (conf a' AtRecycle).
Proof.
  revert w any a. induction m as [|m IH]; intros w any a Hlen Hok.
  - exists any. split; [done|]. apply rtc_once. unfold alone, scan_step. cbn [conf fst snd pc with_table table].
    by rewrite lookup_ge_None_2 by lia.
  - cbn [scan_words]. destruct (lookup_lt_is_Some_2 (active (s_table a)) w) as [bits Hb]; [lia|].
    replace (S m * 64)%nat with (64 + m * 64)%nat by lia.
    rewrite seq_app, filter_app, foldl_app, <- word_slots, Hb. cbn [default from_option id].
    replace (w * 64 + 64)%nat with (S w * 64)%nat by lia.
    set (a1 := foldl acc a ((fun b => w * 64 + b)%nat <$> set_bits 0 bits)).
    assert (Hword : rtc alone (conf a (AtWord w)) (conf a1 (AtWord (S w))) /\
      (if bits =? 0 then a1 = a else scan_bits 64 probe_fn w bits a = Ok a1)).
    { assert (Hload : alone (conf a (AtWord w)) (conf a (if bits =? 0 then AtWord (S w) else AtBits w bits))).
      { unfold alone, scan_step; cbn [conf fst snd pc with_table table]. by rewrite Hb. }
      pose proof (alone_ok _ _ (rtc_once _ _ Hload) Hok) as Hok1.
      destruct (Z.eqb_spec bits 0) as [->|Hne].
      - subst a1. rewrite set_bits_none by (intros; apply Z.bits_0). split; [by apply rtc_once|done].
      - destruct (scan_bits_runs 64 0 w bits a) as [E Hrun]; [lia|intros; lia|done|].
        split; [|done]. eapply rtc_l; [exact Hload|exact Hrun]. }
    destruct Hword as [Hrun1 Hscan]. pose proof (alone_ok _ _ Hrun1 Hok) as Hok1.
    assert (Hlen1 : length (active (s_table a1)) = (S w + m)%nat).
    { pose proof (so_active _ _ _ _ (proj1 Hok1)) as E1. pose proof (so_active _ _ _ _ (proj1 Hok)) as E0.
      cbn [conf fst with_table table] in E0, E1. rewrite E1, <- E0, Hlen. lia. }
    assert (Hact : filter (fun x => is_active (s_table a) x = true) (seq (S w * 64) (m * 64)) =
      filter (fun x => is_active (s_table a1) x = true) (seq (S w * 64) (m * 64))).
    { apply (filter_test_ext (is_active (s_table a)) (is_active (s_table a1))). intros x Hx%elem_of_seq.
      symmetry. apply foldl_acc_other. intros (b & -> & Hin)%list_elem_of_fmap.
      apply list_elem_of_filter in Hin as [_ Hin%elem_of_seq]. lia. }
    rewrite Hact. destruct (IH (S w) (if bits =? 0 then any else true) a1 Hlen1 Hok1) as (any' & E & Hrun2).
    exists any'. split; [|by etrans]. rewrite <- E.
    destruct (bits =? 0); [by rewrite Hscan|]. by rewrite Hscan.
Qed.
(** What a sequence of distinct slots accumulates, in terms of the table the
    pass started from. *)
Lemma retires_ext (t t' : SlotTable P) x : payload_at x t' = payload_at x t -> landed_at x t' = landed_at x t ->
  retires t' x = retires t x.
Proof. unfold retires. by intros -> ->. Qed.

Definition late (t : SlotTable P) (s : nat) : bool := negb (landed_at s t) && retires t s.

Lemma foldl_acc l a : NoDup l ->
  let t := s_table a in let a' := foldl acc a l in
  s_retired a' = s_retired a ++ filter (fun s => retires t s = true) l /\
  s_woken a' = s_woken a ++ omap (fun s => payload_at s t) (filter (fun s => landed_at s t = true) l) /\
  s_dead a' = s_dead a ++ omap (fun s => payload_at s t) (filter (fun s => late t s = true) l) /\
  free (s_table a') = free t /\ n_armed (s_table a') = n_armed t.
Proof.
  revert a. induction l as [|s l IH]; intros a Hnd; [cbn; by rewrite !app_nil_r|].
  apply NoDup_cons in Hnd as [Hs Hnd]. cbn [foldl]. destruct (IH (acc a s) Hnd) as (-> & -> & -> & -> & ->).
  assert (Hother : forall x, x ∈ l -> payload_at x (s_table (acc a s)) = payload_at x (s_table a) /\
    landed_at x (s_table (acc a s)) = landed_at x (s_table a)).
  { intros x Hx. destruct (acc_other a s x) as (_ & H1 & H2); [by intros ->|done]. }
  assert (Hom : forall k : list nat, k ⊆ l -> omap (fun x => payload_at x (s_table (acc a s))) k =
    omap (fun x => payload_at x (s_table a)) k).
  { intros k Hk. apply list_omap_ext, Forall_Forall2_diag, Forall_forall. intros x Hx.
    by apply Hother, Hk. }
  rewrite !Hom by apply list_subseteq_filter.
  rewrite (filter_test_ext (retires (s_table (acc a s))) (retires (s_table a)))
    by (intros x Hx; apply retires_ext; by apply Hother).
  rewrite (filter_test_ext (fun x => landed_at x (s_table (acc a s))) (fun x => landed_at x (s_table a)))
    by (intros x Hx; by apply Hother).
  rewrite (filter_test_ext (late (s_table (acc a s))) (late (s_table a)))
    by (intros x Hx; unfold late; destruct (Hother x Hx) as [H1 H2]; by rewrite H2, (retires_ext (s_table a))).
  rewrite !filter_cons. unfold acc, late. destruct (retires (s_table a) s) eqn:Er.
  - cbn [s_retired s_woken s_dead s_table]. rewrite andb_true_r. destruct (landed_at s (s_table a)); cbn [negb];
      repeat first [rewrite decide_True by done|rewrite decide_False by done]; cbn [omap list_omap];
      destruct (payload_at s (s_table a)); cbn; rewrite <- ?app_assoc, ?app_nil_r; done.
  - assert (landed_at s (s_table a) = false) as El by (unfold retires in Er; by apply orb_false_iff in Er as [-> _]).
    rewrite El, andb_false_r. cbn. done.
Qed.
Lemma acc_self a s : (s / 64 < length (active (s_table a)))%nat ->
  is_active (s_table (acc a s)) s = is_active (s_table a) s && negb (retires (s_table a) s).
Proof.
  intros Hl. unfold acc. destruct (retires _ s); cbn [s_table negb]; [|by rewrite andb_true_r].
  assert (s mod 64 < 64)%nat by (apply Nat.mod_upper_bound; lia).
  rewrite is_active_write, is_active_clear by done.
  by rewrite (Nat.mul_comm _ 64), <- Nat.div_mod_eq, Nat.eqb_refl, andb_false_r.
Qed.

Lemma acc_length a s : length (active (s_table (acc a s))) = length (active (s_table a)).
Proof. unfold acc. destruct (retires _ s); [|done]. cbn. by rewrite length_alter. Qed.

Lemma foldl_acc_in l a x : NoDup l -> x ∈ l -> (x / 64 < length (active (s_table a)))%nat ->
  is_active (s_table (foldl acc a l)) x = is_active (s_table a) x && negb (retires (s_table a) x).
Proof.
  revert a. induction l as [|s l IH]; intros a Hnd Hx Hl; [by apply elem_of_nil in Hx|].
  apply NoDup_cons in Hnd as [Hs Hnd]. cbn [foldl]. apply elem_of_cons in Hx as [->|Hx].
  - destruct (foldl_acc_other l (acc a s) s Hs) as (-> & _). by apply acc_self.
  - rewrite IH; [|done|done|by rewrite acc_length]. destruct (acc_other a s x) as (-> & H1 & H2); [by intros ->|].
    by rewrite (retires_ext (s_table a)).
Qed.

Lemma active_words (t : SlotTable P) sc : slots_ok n t rs sc ->
  filter (fun x => is_active t x = true) (seq 0 (length (active t) * 64)) = active_list t.
Proof.
  intros Hs. unfold active_list. rewrite (so_num _ _ _ _ Hs), (so_active _ _ _ _ Hs).
  assert (n <= (n + 63) / 64 * 64)%nat.
  { pose proof (Nat.div_mod_eq (n + 63) 64). pose proof (Nat.mod_upper_bound (n + 63) 64). lia. }
  replace ((n + 63) / 64 * 64)%nat with (n + ((n + 63) / 64 * 64 - n))%nat by lia.
  rewrite seq_app, filter_app. rewrite (filter_test_none (is_active t) (seq (0 + n) _)), app_nil_r; [done|].
  intros x Hx%elem_of_seq. destruct (is_active t x) eqn:E; [|done].
  pose proof (slots_ok_range _ _ _ _ x Hs ltac:(rewrite E; cbn; lia)). lia.
Qed.

(** The whole pass, from the table it starts on. *)
Lemma pass_runs (t : SlotTable P) wk dd : conf_ok (conf (mkScanned t [] wk dd ()) (AtWord 0)) ->
  let retired := filter (fun s => retires t s = true) (active_list t) in
  exists any a, scan_inner wk dd probe_fn () t = Ok (any, a) /\
    rtc alone (conf (mkScanned t [] wk dd ()) (AtWord 0)) (conf a AtReturn) /\ s_retired a = [] /\
    s_woken a = wk ++ omap (fun s => payload_at s t) (filter (fun s => landed_at s t = true) (active_list t)) /\
    s_dead a = dd ++ omap (fun s => payload_at s t) (filter (fun s => late t s = true) (active_list t)) /\
    free (s_table a) = free t ++ retired /\
    n_armed (s_table a) = n_armed t - Z.of_nat (length retired) /\
    forall x, is_active (s_table a) x = is_active t x && negb (retires t x).
Proof.
  intros Hok retired. set (a0 := mkScanned t [] wk dd ()) in *. pose proof Hok as [Hs _].
  cbn [conf fst snd with_table table] in Hs. change (s_table a0) with t in Hs.
  destruct (scan_words_runs (length (active t)) 0 false a0 eq_refl Hok) as (any & E & Hrun).
  change (s_table a0) with t in E, Hrun. rewrite Nat.mul_0_l, (active_words t _ Hs) in E, Hrun.
  assert (Hnd : NoDup (active_list t)) by (apply NoDup_filter, NoDup_seq).
  destruct (foldl_acc (active_list t) a0 Hnd) as (R1 & R2 & R3 & R4 & R5).
  assert (Hact : forall x, is_active (s_table (foldl acc a0 (active_list t))) x = is_active t x && negb (retires t x)).
  { intros x. destruct (decide (x ∈ active_list t)) as [Hx|Hx].
    - apply foldl_acc_in; [done|done|]. change (s_table a0) with t. rewrite (so_active _ _ _ _ Hs).
      apply list_elem_of_filter in Hx as [_ Hx%elem_of_seq]. rewrite (so_num _ _ _ _ Hs) in Hx.
      apply word_in_range. lia.
    - destruct (foldl_acc_other _ a0 x Hx) as (-> & _). change (s_table a0) with t.
      destruct (is_active t x) eqn:Ex; [|done]. exfalso. apply Hx. apply list_elem_of_filter. split; [done|].
      apply elem_of_seq. rewrite (so_num _ _ _ _ Hs).
      pose proof (slots_ok_range _ _ _ _ x Hs ltac:(rewrite Ex; cbn; lia)). lia. }
  set (a1 := foldl acc a0 (active_list t)) in *. pose proof (alone_ok _ _ Hrun Hok) as [_ Hc].
  unfold scan_inner. fold a0. rewrite E. cbn [mbind outcome_bind].
  change (s_retired a1 = retired) in R1. rewrite R1. clearbody retired.
  pose proof (armed_bound _ _ _ _ (proj1 Hok)) as Hbound. destruct Hok as [_ [Hc0 _]].
  cbn [conf fst snd with_table table] in Hbound, Hc0. change (s_table a0) with t in Hbound, Hc0.
  destruct retired as [|s l].
  - exists any, a1. split_and!; try done.
    + etrans; [exact Hrun|]. apply rtc_once. unfold alone, scan_step; cbn.
    unfold conf. by rewrite R1.
    + by rewrite R4, app_nil_r.
    + rewrite R5. cbn. lia.
  - destruct Hc as [Hc _]. unfold armed_slots in Hc. cbn in Hc. rewrite R1, !length_app in Hc. cbn [length] in Hc.
    assert (Hge : n_armed (recycle (s :: l) (s_table a1)) <? Z.of_nat (length (s :: l)) = false).
    { apply Z.ltb_ge. cbn [recycle n_armed length]. lia. }
    rewrite Hge. eexists any, _. split_and!; [reflexivity| |done|exact R2|exact R3| | |exact Hact].
    + etrans; [exact Hrun|]. eapply rtc_l; [unfold alone, scan_step; cbn; rewrite R1; reflexivity|].
      by apply rtc_once.
    + cbn. by rewrite R4.
    + cbn [s_table sub_armed n_armed recycle]. rewrite R5. change (s_table a0) with t.
      rewrite R5 in Hc. change (s_table a0) with t in Hc. apply as_u64_id. cbn [to_sub pc] in Hc0.
      rewrite Hc0 in *. unfold_int. cbn [length]. lia.
Qed.
End pass.

(** C14: an undisturbed pass is [scan_inner].  From any reachable state at the
    start of a pass, plain or probing, the scanner's atomic steps terminate in
    exactly the result of [scan_inner], which does not panic: it delivers the
    payloads of the active slots whose flag landed, in slot order, and of the
    dead ones among the others when probing; recycles their slots; counts them
    out; and leaves every other slot armed. *)
Theorem scan_pass_refines {P} (n threads : nat) (sys : System P) (probe : bool) (is_dead : P -> bool)
    (Hn : Z.of_nat n < 2 ^ 62) (Hr : reachable n threads sys) (Hpc : pc (scanner sys) = AtScan probe) :
  let sc := scanner sys in let t := table (shared sys) in
  let retired := filter (fun s => retires is_dead probe t s = true) (active_list t) in
  exists any a, scan_inner (woken sc) (dead sc) (probe_fn is_dead probe) () t = Ok (any, a) /\
    rtc (alone is_dead) (shared sys, sc) (conf probe (shared sys) (idle_passes sc) a AtReturn) /\
    s_woken a = omap (fun s => payload_at s t) (filter (fun s => landed_at s t = true) (active_list t)) /\
    s_dead a = omap (fun s => payload_at s t) (filter (fun s => late is_dead probe t s = true) (active_list t)) /\
    free (s_table a) = free t ++ retired /\
    n_armed (s_table a) = n_armed t - Z.of_nat (length retired) /\
    forall x, is_active (s_table a) x = is_active t x && negb (retires is_dead probe t x).
Proof.
  intros sc t retired. destruct (reachable_ok n threads sys Hn Hr) as [Hs Hc _ _ [[Hv1 Hv2] _]].
  rewrite Hpc in Hv2. destruct Hv2 as [Hprobe Hw]. specialize (Hv1 Hprobe).
  set (c0 := conf probe (shared sys) (idle_passes sc) (mkScanned t [] (woken sc) (dead sc) ()) (AtWord 0)).
  assert (Hstep : alone is_dead (shared sys, sc) c0).
  { unfold alone, scan_step; cbn [fst snd]. unfold sc. rewrite Hpc. subst c0 t sc. by destruct (shared sys). }
  assert (Hok : conf_ok n (registrants sys) c0).
  { apply (alone_ok n (registrants sys) is_dead Hn _ _ (rtc_once _ _ Hstep)). by split. }
  destruct (pass_runs n (registrants sys) is_dead probe (shared sys) (idle_passes sc) Hn t (woken sc) (dead sc) Hok)
    as (any & a & E & Hrun & _ & Ew & Ed & Hrest).
  exists any, a. split; [exact E|]. split; [by eapply rtc_l|].
  subst sc. rewrite Hw in Ew. rewrite Hv1 in Ed. done.
Qed.

(** One slot is armed and landed when the pass begins. *)
Definition landed_moves : list (Move nat) := replicate 7 (MReg 0 7%nat true) ++ [MLand 0].
Definition landed_system : System nat := default (initial 2 1) (run landed_moves (initial 2 1)).

Lemma scan_pass_refines_witness :
  exists any a, scan_inner [] [] (probe_fn (fun _ => false) false) () (table (shared landed_system)) = Ok (any, a) /\
    s_woken a = [7%nat] /\ free (s_table a) = [1; 0]%nat.
Proof.
  assert (Hr : reachable 2 1 landed_system) by (apply (run_reachable 2 1 landed_moves); vm_compute; reflexivity).
  destruct (scan_pass_refines 2 1 landed_system false (fun _ => false)
    ltac:(vm_compute; reflexivity) Hr ltac:(vm_compute; reflexivity)) as (any & a & E & _ & Hw & _ & Hf & _).
  exists any, a. split; [exact E|]. split; [rewrite Hw|rewrite Hf]; vm_compute; reflexivity.
Defined.
