(* ===== verification/Future.v ===== *)
(** * Device futures (cuda-async/src/device_future.rs)

    A [DeviceFuture] submits an operation on its first poll, hands out the
    result when the work is known to be complete, and on cancellation waits for
    the stream or leaks the result.  The completion side (a host callback, or
    the reactor) signals through a flag and a waker shared with the future.
    Polls are modelled step by step, each step one access to the state shared
    with the completion side or one answer of the driver, interleaved with the
    completion side and the device. *)

From S2P Require Import Prelude Errors.

(** ** Data *)

Inductive DeviceFutureState := Failed | Idle | Executing | Complete.

Inductive StreamHealth := HCapturing | HBusy | HIdle | HFaulted (code : Z).

#[export] Instance DeviceFutureState_eq_dec : EqDecision DeviceFutureState.
Proof. solve_decision. Defined.

Section device_future.
Context {Op T : Type}.

(** [execution_context] and [callback_state] are the presence of the option;
    what they refer to is shared and kept in [Shared]. *)
Record DeviceFuture := mkDeviceFuture {
  device_operation : option Op;
  execution_context : bool;
  result : option T;
  error : option DeviceError;
  state : DeviceFutureState;
  callback_state : bool;
  fault_delivered : bool }.

Definition future_default : DeviceFuture := mkDeviceFuture None false None None Idle false false.

Definition scheduled (op : Op) : DeviceFuture := mkDeviceFuture (Some op) true None None Idle false false.

Definition failed (e : DeviceError) : DeviceFuture := mkDeviceFuture None false None (Some e) Failed false false.

Definition set_state (st : DeviceFutureState) (f : DeviceFuture) : DeviceFuture :=
  mkDeviceFuture (device_operation f) (execution_context f) (result f) (error f) st (callback_state f) (fault_delivered f).

Definition set_result (r : option T) (f : DeviceFuture) : DeviceFuture :=
  mkDeviceFuture (device_operation f) (execution_context f) r (error f) (state f) (callback_state f) (fault_delivered f).

Definition set_callback (f : DeviceFuture) : DeviceFuture :=
  mkDeviceFuture (device_operation f) (execution_context f) (result f) (error f) (state f) true (fault_delivered f).

Definition take_operation (f : DeviceFuture) : DeviceFuture :=
  mkDeviceFuture None (execution_context f) (result f) (error f) (state f) (callback_state f) (fault_delivered f).

Definition take_error (f : DeviceFuture) : DeviceFuture :=
  mkDeviceFuture (device_operation f) (execution_context f) (result f) None (state f) (callback_state f) (fault_delivered f).

Definition deliver_fault (f : DeviceFuture) : DeviceFuture :=
  mkDeviceFuture (device_operation f) (execution_context f) (result f) (error f) (state f) (callback_state f) true.

(** ** Operations *)

(** [out] is what the operation's own [execute] returned. *)
Definition execute (out : outcome DeviceError T) (f : DeviceFuture) : outcome DeviceError unit * DeviceFuture :=
  if negb (execution_context f)
  then (Err (Internal "Cannot execute future without setting stream on which to execute."), f)
  else match device_operation f with
       | None => (Err (Internal "Unable to execute future: No operation has been set."), f)
       | Some _ =>
           let f := take_operation f in
           match out with
           | Ok r => (Ok tt, set_result (Some r) f)
           | Err e => (Err e, f)
           | Panic => (Panic, f)
           end
       end.

Definition take_completed_result (f : DeviceFuture) : outcome DeviceError T * DeviceFuture :=
  match result f with
  | Some r => (Ok r, set_result None f)
  | None => (Panic, f)
  end.

Definition has_undelivered_submission (f : DeviceFuture) : bool :=
  match state f with Executing | Complete => bool_decide (is_Some (result f)) | _ => false end.

(** What became of the result: [Leaked r true] is reported. *)
Inductive Disposal := Nothing | Dropped (r : T) | Leaked (r : T) (reported : bool).

Definition release_in_flight_result_with (wait : outcome DeviceError unit) (f : DeviceFuture) : Disposal * DeviceFuture :=
  if negb (has_undelivered_submission f) then (Nothing, f)
  else match result f with
       | None => (Nothing, f)
       | Some r =>
           let f := set_result None f in
           match wait with
           | Ok _ => (Dropped r, f)
           | _ => (Leaked r (negb (fault_delivered f)), f)
           end
       end.

(** The closure that waits, from the answers of the driver. *)
Definition release_wait (f : DeviceFuture) (bind : outcome DeviceError unit) (health : StreamHealth) (sync : outcome DeviceError unit)
  : outcome DeviceError unit :=
  if negb (execution_context f)
  then Err (Internal "Cannot release an in-flight future without an execution context.")
  else
    _ ← bind;
    match health with
    | HIdle => Ok tt
    | HBusy => sync
    | HCapturing => Err (Internal "the future's stream is recording a graph; it cannot be synchronized")
    | HFaulted e => Err (Driver e)
    end.

Definition release_in_flight_result (bind : outcome DeviceError unit) (health : StreamHealth) (sync : outcome DeviceError unit)
    (f : DeviceFuture) : Disposal * DeviceFuture :=
  if negb (has_undelivered_submission f) then (Nothing, f)
  else release_in_flight_result_with (release_wait f bind health sync) f.

(** ** Polls, step by step *)

(** The completion side: registered and waiting, the flag stored, finished;
    or the reactor gave the slot up because the stream faulted. *)
Inductive Signaller := Unarmed | Armed | Stored | Signalled | Retired.

(** What the future shares with the completion side and the device. Wakers are
    numbered by the poll that brought them. *)
Record Shared := mkShared {
  complete_flag : bool; waker : option nat; signaller : Signaller;
  submitted : bool; done_ : bool; faulted : bool;
  executed : list T }.

Definition register_waker (k : nat) (s : Shared) : Shared :=
  mkShared (complete_flag s) (Some k) (signaller s) (submitted s) (done_ s) (faulted s) (executed s).

Definition set_signaller (g : Signaller) (s : Shared) : Shared :=
  mkShared (complete_flag s) (waker s) g (submitted s) (done_ s) (faulted s) (executed s).

Definition submit (out : outcome DeviceError T) (s : Shared) : Shared :=
  mkShared (complete_flag s) (waker s) (signaller s) true (done_ s) (faulted s)
    (executed s ++ match out with Ok r => [r] | _ => [] end).

Inductive PollPC := AtLock | AtRegister | AtExecute | AtSpin | AtCallback | AtLoad | AtProbe | AtUpdate | AtReload.

(** The answer a step gets from outside. *)
Inductive Input :=
| NoInput
| LockResult (l : outcome DeviceError unit)
| OpResult (out : outcome DeviceError T)
| SpinResult (o : outcome Z bool)
| CallbackResult (c : outcome DeviceError unit)
| ProbeResult (h : StreamHealth).

Inductive PollStep :=
| Continue (pc : PollPC) (f : DeviceFuture) (s : Shared)
| Ready (r : outcome DeviceError T) (f : DeviceFuture) (s : Shared)
| Pending (f : DeviceFuture) (s : Shared)
| Panics (f : DeviceFuture) (s : Shared).

(** The poll resolves with the stored result. *)
Definition ready_completed (f : DeviceFuture) (s : Shared) : PollStep :=
  match take_completed_result (set_state Complete f) with
  | (Ok r, f) => Ready (Ok r) f s
  | (_, f) => Panics f s
  end.

Definition ready_error (e : DeviceError) (f : DeviceFuture) (s : Shared) : PollStep := Ready (Err e) (set_state Complete f) s.

Definition ready_fault (e : Z) (f : DeviceFuture) (s : Shared) : PollStep :=
  Ready (Err (Driver e)) (deliver_fault (set_state Complete f)) s.

(** The entry of [poll]. *)
Definition poll_start (f : DeviceFuture) (s : Shared) : PollStep :=
  match state f with
  | Failed =>
      let f := set_state Complete f in
      match error f with Some e => Ready (Err e) (take_error f) s | None => Panics f s end
  | Idle => Continue AtLock (set_callback f) s
  | Executing => Continue AtLoad (set_callback f) s
  | Complete => Panics (set_callback f) s
  end.

(** One step of the [k]-th poll; [None] when the input is not the one the step
    waits for. *)
Definition poll_step (k : nat) (pc : PollPC) (i : Input) (f : DeviceFuture) (s : Shared) : option PollStep :=
  match pc, i with
  | AtLock, LockResult (Ok _) => Some (Continue AtRegister f s)
  | AtLock, LockResult (Err e) => Some (ready_error e f s)
  | AtRegister, NoInput => Some (Continue AtExecute f (register_waker k s))
  | AtExecute, OpResult out =>
      Some match execute out f with
           | (Ok _, f) => Continue AtSpin f (submit out s)
           | (Err e, f) => ready_error e f (submit (Err e) s)
           | (Panic, f) => Panics f (submit Panic s)
           end
  | AtSpin, SpinResult o =>
      Some match o with
           | Ok true => ready_completed f s
           | Ok false => Continue AtCallback f s
           | Err e => ready_fault e f s
           | Panic => Panics f s
           end
  | AtCallback, CallbackResult c =>
      Some match c with
           | Ok _ => Pending (set_state Executing f) (set_signaller Armed s)
           | Err e => ready_error e f s
           | Panic => Panics f s
           end
  | AtLoad, NoInput => Some (if complete_flag s then ready_completed f s else Continue AtProbe f s)
  | AtProbe, ProbeResult h =>
      Some match h with
           | HFaulted e => ready_fault e f s
           | HIdle => ready_completed f s
           | HBusy | HCapturing => Continue AtUpdate f s
           end
  | AtUpdate, NoInput => Some (Continue AtReload f (register_waker k s))
  | AtReload, NoInput => Some (if complete_flag s then ready_completed f s else Pending f s)
  | _, _ => None
  end.

(** ** The machine *)

Record World := mkWorld {
  fut : option DeviceFuture;                   (* None once dropped *)
  polling : option (nat * PollPC);             (* the poll in progress *)
  polls : nat;                                 (* polls so far *)
  parked : option nat;                         (* the waker of the poll that returned Pending *)
  shared : Shared;
  woken : list nat;
  delivered : list (outcome DeviceError T);    (* what polls resolved with *)
  dropped : list T;
  leaked : list (T * bool) }.

Inductive Event :=
| PollStart
| PollNext (i : Input)
| DropFuture (bind : outcome DeviceError unit) (health : StreamHealth) (sync : outcome DeviceError unit)
| DeviceDone | DeviceFault                     (* the submitted work finishes, or the stream faults *)
| SignalStore | SignalWake                     (* [signal]: the flag, then the waker *)
| FaultWake.                                   (* the reactor retires the slot of a faulted stream *)

(** The driver reports an idle stream, or a successful wait, only when the
    submitted work is done; it may report an error at any time. *)
Definition answer_ok (i : Input) (s : Shared) : bool :=
  match i with
  | SpinResult (Ok true) => done_ s
  | SpinResult Panic | LockResult Panic | CallbackResult Panic => false
  | ProbeResult HIdle => done_ s
  | _ => true
  end.

Definition wait_ok (health : StreamHealth) (sync : outcome DeviceError unit) (s : Shared) : bool :=
  match health, sync with
  | HIdle, _ | HBusy, Ok _ => done_ s
  | _, _ => true
  end.

Definition wake (s : Shared) (g : Signaller) : Shared * list nat :=
  (mkShared (complete_flag s) None g (submitted s) (done_ s) (faulted s) (executed s), option_list (waker s)).

(** The world after a poll stopped at [p]. *)
Definition after_poll (k : nat) (p : PollStep) (w : World) : World :=
  match p with
  | Continue pc f s => mkWorld (Some f) (Some (k, pc)) (polls w) (parked w) s (woken w) (delivered w) (dropped w) (leaked w)
  | Ready r f s => mkWorld (Some f) None (polls w) None s (woken w) (delivered w ++ [r]) (dropped w) (leaked w)
  | Pending f s => mkWorld (Some f) None (polls w) (Some k) s (woken w) (delivered w) (dropped w) (leaked w)
  | Panics f s => mkWorld (Some f) None (polls w) None s (woken w) (delivered w) (dropped w) (leaked w)
  end.

Definition with_shared (s : Shared) (more : list nat) (w : World) : World :=
  mkWorld (fut w) (polling w) (polls w) (parked w) s (woken w ++ more) (delivered w) (dropped w) (leaked w).

Definition after_drop (d : Disposal) (w : World) : World :=
  mkWorld None None (polls w) None (shared w) (woken w) (delivered w)
    (dropped w ++ match d with Dropped r => [r] | _ => [] end)
    (leaked w ++ match d with Leaked r b => [(r, b)] | _ => [] end).

Definition step (w : World) (e : Event) : option World :=
  let s := shared w in
  match e with
  | PollStart =>
      f ← fut w;
      match polling w with
      | Some _ => None
      | None =>
          let w := mkWorld (fut w) None (S (polls w)) (parked w) s (woken w) (delivered w) (dropped w) (leaked w) in
          Some (after_poll (polls w) (poll_start f s) w)
      end
  | PollNext i =>
      f ← fut w; '(k, pc) ← polling w;
      if answer_ok i s then p ← poll_step k pc i f s; Some (after_poll k p w) else None
  | DropFuture bind health sync =>
      f ← fut w;
      match polling w with
      | Some _ => None
      | None => if wait_ok health sync s then Some (after_drop (release_in_flight_result bind health sync f).1 w) else None
      end
  | DeviceDone =>
      if submitted s && negb (faulted s)
      then Some (with_shared (mkShared (complete_flag s) (waker s) (signaller s) true true false (executed s)) [] w) else None
  | DeviceFault =>
      if submitted s && negb (done_ s)
      then Some (with_shared (mkShared (complete_flag s) (waker s) (signaller s) true false true (executed s)) [] w) else None
  | SignalStore =>
      match signaller s with
      | Armed => if done_ s then Some (with_shared (mkShared true (waker s) Stored (submitted s) true (faulted s) (executed s)) [] w) else None
      | _ => None
      end
  | SignalWake =>
      match signaller s with Stored => let '(s, l) := wake s Signalled in Some (with_shared s l w) | _ => None end
  | FaultWake =>
      match signaller s with
      | Armed => if faulted s then let '(s, l) := wake s Retired in Some (with_shared s l w) else None
      | _ => None
      end
  end.

Fixpoint run (w : World) (es : list Event) : option World :=
  match es with [] => Some w | e :: es => w' ← step w e; run w' es end.

Definition initial (f : DeviceFuture) : World :=
  mkWorld (Some f) None 0 None (mkShared false None Unarmed false false false []) [] [] [] [].

(** The futures the constructors make. *)
Definition fresh (f : DeviceFuture) : Prop := f = future_default \/ (exists op, f = scheduled op) \/ exists e, f = failed e.

(** ** The invariant *)

Definition stored (w : World) : list T := match fut w with Some f => option_list (result f) | None => [] end.

Definition oks (l : list (outcome DeviceError T)) : list T := omap (fun r => match r with Ok x => Some x | _ => None end) l.

(** A waker is registered, or has been woken since. *)
Definition reachable_waker (k : nat) (w : World) : Prop := waker (shared w) = Some k \/ k ∈ woken w.

Definition fault_told (l : list (outcome DeviceError T)) : Prop := exists e, Err (Driver e) ∈ l.

(** Where the result is, by the state of the future and the step of its poll. *)
Definition shape (f : DeviceFuture) (poll : option (nat * PollPC)) (g : Signaller) : Prop :=
  match poll with
  | None =>
      match state f with
      | Idle | Failed => result f = None /\ g = Unarmed
      | Executing => is_Some (result f) /\ g <> Unarmed
      | Complete => True
      end
  | Some (_, (AtLock | AtRegister | AtExecute)) => state f = Idle /\ result f = None /\ g = Unarmed
  | Some (_, (AtSpin | AtCallback)) => state f = Idle /\ is_Some (result f) /\ g = Unarmed
  | Some (_, (AtLoad | AtProbe | AtUpdate | AtReload)) => state f = Executing /\ is_Some (result f) /\ g <> Unarmed
  end.

(** What the wakers guarantee. *)
Definition wakers_ok (w : World) : Prop :=
  match polling w with
  | Some (k, (AtExecute | AtSpin | AtCallback | AtReload)) => reachable_waker k w
  | Some _ => True
  | None => forall k, parked w = Some k -> reachable_waker k w /\ (signaller (shared w) = Signalled -> k ∈ woken w)
  end.

Record Inv (w : World) : Prop := {
  i_results : oks (delivered w) ++ dropped w ++ (leaked w).*1 ++ stored w ≡ₚ executed (shared w);
  i_safe : oks (delivered w) ++ dropped w <> [] -> done_ (shared w) = true;
  i_flag : complete_flag (shared w) = true -> done_ (shared w) = true;
  i_signal : complete_flag (shared w) = match signaller (shared w) with Stored | Signalled => true | _ => false end;
  i_shape : match fut w with Some f => shape f (polling w) (signaller (shared w)) | None => polling w = None end;
  i_once : (length (delivered w) <= 1)%nat /\
    (delivered w <> [] -> polling w = None /\ match fut w with Some f => state f = Complete | None => True end);
  i_fault : match fut w with Some f => fault_delivered f = true -> fault_told (delivered w) | None => True end;
  i_silent : forall r, (r, false) ∈ leaked w -> fault_told (delivered w);
  i_wakers : wakers_ok w }.

End device_future.

Arguments DeviceFuture : clear implicits.
Arguments World : clear implicits.
Arguments Event : clear implicits.

Section proofs.
Context {Op T : Type}.
Implicit Types (w : World Op T) (f : DeviceFuture Op T).

Lemma oks_app (l1 l2 : list (outcome DeviceError T)) : oks (l1 ++ l2) = oks l1 ++ oks l2.
Proof. apply omap_app. Qed.

Lemma initial_inv f : fresh f -> Inv (initial f).
Proof. intros [->|[[op ->]|[e ->]]]; split; cbn; try done; try (split; [lia|done]); set_solver. Qed.

(** Nothing is delivered while a poll is in progress or the future is not complete. *)
Lemma undelivered w f : Inv w -> fut w = Some f -> polling w <> None \/ state f <> Complete -> delivered w = [].
Proof.
  intros H Hf Hc. destruct (i_once _ H) as [_ Ho]. rewrite Hf in Ho. destruct (delivered w) as [|r l]; [done|].
  destruct (Ho ltac:(done)). naive_solver.
Qed.

Lemma not_told : ~ fault_told (T:=T) [].
Proof. intros [e He]. by apply not_elem_of_nil in He. Qed.

(** What a poll step has to keep of the shared state. *)
Record keeps (s s' : Shared (T:=T)) : Prop := {
  k_flag : complete_flag s' = complete_flag s;
  k_done : done_ s' = done_ s }.

(** A poll resolves for the first time. *)
Lemma ready_inv k r f f0 s w : Inv w -> fut w = Some f0 -> delivered w = [] -> state f = Complete ->
  keeps (shared w) s -> signaller s = signaller (shared w) ->
  oks [r] ++ dropped w ++ (leaked w).*1 ++ option_list (result f) ≡ₚ executed s ->
  (oks [r] <> [] -> done_ s = true) -> (fault_delivered f = true -> fault_told [r]) ->
  Inv (after_poll k (Ready r f s) w).
Proof.
  intros [] Hf Hd Hst [Kf Kd] Kg Hres Hok Hfault. rewrite Hd in *. split; cbn [after_poll fut polling parked shared woken delivered dropped leaked]; rewrite ?Hd.
  - done.
  - cbn [app]. intros Hne. destruct (decide (oks [r] = [])) as [E|E]; [|by apply Hok]. rewrite Kd. apply i_safe0. by rewrite E in Hne.
  - by rewrite Kf, Kd.
  - by rewrite Kf, Kg.
  - unfold shape. by rewrite Hst.
  - cbn. split; [lia|]. by split.
  - done.
  - intros x Hx. destruct (not_told (i_silent0 x Hx)).
  - done.
Qed.

(** A poll goes on, or returns without resolving. *)
Lemma unresolved_inv p f f0 k s w pk : Inv w -> fut w = Some f0 -> delivered w = [] -> keeps (shared w) s ->
  shape f p (signaller s) -> fault_delivered f = fault_delivered f0 ->
  complete_flag s = match signaller s with Stored | Signalled => true | _ => false end ->
  dropped w ++ (leaked w).*1 ++ option_list (result f) ≡ₚ executed s ->
  (forall l, wakers_ok (mkWorld (Some f) p k pk s (woken w) l (dropped w) (leaked w))) ->
  Inv (mkWorld (Some f) p k pk s (woken w) (delivered w) (dropped w) (leaked w)).
Proof.
  intros [] Hf Hd [Kf Kd] Hsh Hfd Hsig Hres Hw. rewrite Hf, Hd in *. split; cbn [fut polling parked shared woken delivered dropped leaked].
  - done.
  - rewrite Kd. done.
  - by rewrite Kf, Kd.
  - done.
  - done.
  - split; [cbn; lia|done].
  - by rewrite Hfd.
  - done.
  - apply Hw.
Qed.

Lemma keeps_refl (s : Shared (T:=T)) : keeps s s.
Proof. by split. Qed.

Lemma keeps_register k (s : Shared (T:=T)) : keeps s (register_waker k s).
Proof. by split. Qed.

Lemma keeps_submit out (s : Shared (T:=T)) : keeps s (submit out s).
Proof. by split. Qed.

(** The account of the results before anything was delivered. *)
Lemma undelivered_results w f : Inv w -> fut w = Some f -> delivered w = [] ->
  dropped w ++ (leaked w).*1 ++ option_list (result f) ≡ₚ executed (shared w).
Proof. intros [] Hf Hd. unfold stored in i_results0. rewrite Hd, Hf in i_results0. done. Qed.

Lemma no_fault_yet w f : Inv w -> fut w = Some f -> delivered w = [] -> fault_delivered f = false.
Proof.
  intros H Hf Hd. pose proof (i_fault _ H) as Hi. rewrite Hf, Hd in Hi. destruct (fault_delivered f); [|done].
  destruct (not_told (Hi eq_refl)).
Qed.

(** The stored result is handed out when the work is done. *)
Lemma ready_completed_inv k f w : Inv w -> fut w = Some f -> delivered w = [] -> is_Some (result f) -> done_ (shared w) = true ->
  Inv (after_poll k (ready_completed f (shared w)) w).
Proof.
  intros H Hf Hd [r Hr] Hdone. unfold ready_completed, take_completed_result. cbn [set_state result]. rewrite Hr.
  eapply ready_inv; try done.
  - rewrite <- (undelivered_results w f) by done. rewrite Hr. cbn. solve_Permutation.
  - cbn [fault_delivered set_result set_state]. by rewrite (no_fault_yet w f).
Qed.

Lemma ready_error_inv k e f f0 s w : Inv w -> fut w = Some f0 -> delivered w = [] -> keeps (shared w) s ->
  signaller s = signaller (shared w) -> result f = result f0 -> fault_delivered f = fault_delivered f0 ->
  executed s = executed (shared w) -> Inv (after_poll k (ready_error e f s) w).
Proof.
  intros H Hf Hd Hk Hg Hr Hfd He. unfold ready_error. eapply ready_inv; try done.
  - cbn [set_state result]. rewrite Hr, He. by apply (undelivered_results w f0).
  - cbn [set_state fault_delivered]. by rewrite Hfd, (no_fault_yet w f0).
Qed.

Lemma ready_fault_inv k e f w : Inv w -> fut w = Some f -> delivered w = [] -> Inv (after_poll k (ready_fault e f (shared w)) w).
Proof.
  intros H Hf Hd. unfold ready_fault. eapply ready_inv; try done.
  - cbn [set_state deliver_fault result]. by apply (undelivered_results w f).
  - intros _. exists e. by apply list_elem_of_singleton.
Qed.

(** The [polls] counter takes no part. *)
Lemma polls_inv w n : Inv w ->
  Inv (mkWorld (fut w) (polling w) n (parked w) (shared w) (woken w) (delivered w) (dropped w) (leaked w)).
Proof. intros []. by split. Qed.

Lemma poll_start_inv k f w : Inv w -> fut w = Some f -> polling w = None -> Inv (after_poll k (poll_start f (shared w)) w).
Proof.
  intros H Hf Hp. pose proof (i_shape _ H) as Hsh. rewrite Hf, Hp in Hsh. unfold poll_start, shape in *.
  destruct (state f) eqn:Est.
  - pose proof (undelivered w f H Hf ltac:(right; congruence)) as Hd. cbn [set_state error].
    destruct (error f) as [e|].
    + eapply (ready_error_inv k e (take_error f) f); done.
    + apply (unresolved_inv None (set_state Complete f) f); try done; [apply (i_signal _ H)|exact (undelivered_results w f H Hf Hd)].
  - pose proof (undelivered w f H Hf ltac:(right; congruence)) as Hd.
    apply (unresolved_inv _ (set_callback f) f); try done; [apply (i_signal _ H)|exact (undelivered_results w f H Hf Hd)].
  - pose proof (undelivered w f H Hf ltac:(right; congruence)) as Hd.
    apply (unresolved_inv _ (set_callback f) f); try done; [apply (i_signal _ H)|exact (undelivered_results w f H Hf Hd)].
  - destruct H. unfold stored in *. rewrite Hf, Hp in *. by split.
Qed.

(** A step that goes on with the same future. *)
Lemma goes_on k pc f s w : Inv w -> fut w = Some f -> delivered w = [] -> keeps (shared w) s ->
  executed s = executed (shared w) -> signaller s = signaller (shared w) -> shape f (Some (k, pc)) (signaller s) ->
  wakers_ok (mkWorld (Some f) (Some (k, pc)) (polls w) (parked w) s (woken w) (delivered w) (dropped w) (leaked w)) ->
  Inv (after_poll k (Continue pc f s) w).
Proof.
  intros H Hf Hd Hk He Hg Hsh Hw. apply (unresolved_inv _ f f); try done.
  - rewrite (k_flag _ _ Hk), Hg. apply (i_signal _ H).
  - rewrite He. exact (undelivered_results w f H Hf Hd).
Qed.

Lemma execute_inv k out f w : Inv w -> fut w = Some f -> polling w = Some (k, AtExecute) ->
  Inv (after_poll k match execute out f with
                    | (Ok _, f) => Continue AtSpin f (submit out (shared w))
                    | (Err e, f) => ready_error e f (submit (Err e) (shared w))
                    | (Panic, f) => Panics f (submit Panic (shared w))
                    end w).
Proof.
  intros H Hf Hp. pose proof (undelivered w f H Hf ltac:(left; congruence)) as Hd.
  pose proof (i_shape _ H) as Hsh. rewrite Hf, Hp in Hsh. destruct Hsh as (Hst & Hr & Hg).
  pose proof (i_wakers _ H) as Hw. unfold wakers_ok in Hw. rewrite Hp in Hw.
  pose proof (undelivered_results w f H Hf Hd) as Hres. rewrite Hr in Hres. cbn in Hres.
  assert (Herr : forall e f', result f' = result f -> fault_delivered f' = fault_delivered f ->
    Inv (after_poll k (ready_error e f' (submit (Err e) (shared w))) w)).
  { intros e f' E1 E2. eapply ready_error_inv; try done. cbn. by rewrite app_nil_r. }
  unfold execute. destruct (execution_context f); [|by apply Herr]. destruct (device_operation f) as [op|]; [|by apply Herr].
  destruct out as [r|e|]; [|by apply Herr|].
  - apply (unresolved_inv _ (set_result (Some r) (take_operation f)) f); try done.
    + apply (i_signal _ H).
    + cbn. rewrite <- Hres. solve_Permutation.
  - apply (unresolved_inv _ (take_operation f) f); try done.
    + cbn. unfold shape. cbn. by rewrite Hst.
    + apply (i_signal _ H).
    + cbn. rewrite app_nil_r, Hr. cbn. by rewrite app_nil_r in *.
Qed.

Lemma callback_inv k (c : outcome DeviceError unit) f w : Inv w -> fut w = Some f -> polling w = Some (k, AtCallback) -> c <> Panic ->
  Inv (after_poll k match c with
                    | Ok _ => Pending (set_state Executing f) (set_signaller Armed (shared w))
                    | Err e => ready_error e f (shared w)
                    | Panic => Panics f (shared w)
                    end w).
Proof.
  intros H Hf Hp Hc. pose proof (undelivered w f H Hf ltac:(left; congruence)) as Hd.
  pose proof (i_shape _ H) as Hsh. rewrite Hf, Hp in Hsh. destruct Hsh as (Hst & Hr & Hg).
  pose proof (i_wakers _ H) as Hw. unfold wakers_ok in Hw. rewrite Hp in Hw.
  pose proof (undelivered_results w f H Hf Hd) as Hres. destruct c as [|e|]; [| |done].
  - apply (unresolved_inv _ (set_state Executing f) f); try done.
    + cbn. rewrite (i_signal _ H), Hg. done.
    + intros l. unfold wakers_ok. cbn. intros j [= <-]. by split.
  - eapply ready_error_inv; done.
Qed.

Lemma reload_inv k f w : Inv w -> fut w = Some f -> polling w = Some (k, AtReload) ->
  Inv (after_poll k (if complete_flag (shared w) then ready_completed f (shared w) else Pending f (shared w)) w).
Proof.
  intros H Hf Hp. pose proof (undelivered w f H Hf ltac:(left; congruence)) as Hd.
  pose proof (i_shape _ H) as Hsh. rewrite Hf, Hp in Hsh. destruct Hsh as (Hst & Hr & Hg).
  pose proof (i_wakers _ H) as Hw. unfold wakers_ok in Hw. rewrite Hp in Hw.
  destruct (complete_flag (shared w)) eqn:Ec; [apply ready_completed_inv; try done; by apply (i_flag _ H)|].
  pose proof (i_signal _ H) as Hs. rewrite Ec in Hs. apply (unresolved_inv _ f f); try done.
  - unfold shape. by rewrite Hst.
  - by rewrite Ec.
  - exact (undelivered_results w f H Hf Hd).
  - intros l. unfold wakers_ok. cbn. intros j [= <-]. split; [done|]. intros E. by rewrite E in Hs.
Qed.

Lemma poll_step_inv k pc i f w p : Inv w -> fut w = Some f -> polling w = Some (k, pc) -> answer_ok i (shared w) = true ->
  poll_step k pc i f (shared w) = Some p -> Inv (after_poll k p w).
Proof.
  intros H Hf Hp Hi Hs. pose proof (undelivered w f H Hf ltac:(left; congruence)) as Hd.
  pose proof (i_shape _ H) as Hsh. pose proof (i_wakers _ H) as Hw. unfold wakers_ok in Hw. rewrite Hf, Hp in *.
  destruct pc, i as [|l|out|o|c|h]; try discriminate Hs; cbn in Hs, Hsh.
  - destruct l as [|e|]; [| |done]; injection Hs as <-; [by apply goes_on|by eapply ready_error_inv].
  - injection Hs as <-. apply goes_on; try done. by left.
  - injection Hs as <-. by apply execute_inv.
  - injection Hs as <-. destruct Hsh as (? & ? & ?). destruct o as [[|]|e|]; [by apply ready_completed_inv| |by apply ready_fault_inv|done].
    by apply goes_on.
  - injection Hs as <-. apply callback_inv; try done. by destruct c.
  - injection Hs as <-. destruct Hsh as (? & ? & ?). destruct (complete_flag (shared w)) eqn:Ec; [|by apply goes_on].
    apply ready_completed_inv; try done. by apply (i_flag _ H).
  - injection Hs as <-. destruct Hsh as (? & ? & ?). destruct h; [by apply goes_on|by apply goes_on|by apply ready_completed_inv|by apply ready_fault_inv].
  - injection Hs as <-. apply goes_on; try done. by left.
  - injection Hs as <-. by apply reload_inv.
Qed.

(** A cancelled future waits or leaks. *)
Lemma drop_inv bind health sync f w : Inv w -> fut w = Some f -> polling w = None -> wait_ok health sync (shared w) = true ->
  Inv (after_drop (release_in_flight_result bind health sync f).1 w).
Proof.
  intros H Hf Hp Hw. destruct H. unfold stored in *. rewrite Hf, Hp in *.
  assert (Hnone : result f = None -> Inv (after_drop Nothing w)).
  { intros Hr. rewrite Hr in i_results0. cbn in i_results0. rewrite app_nil_r in i_results0.
    split; cbn; rewrite ?app_nil_r; try done. naive_solver. }
  unfold release_in_flight_result, release_in_flight_result_with. unfold has_undelivered_submission.
  destruct (result f) as [r|] eqn:Er; [|destruct (state f); cbn; by apply Hnone].
  assert (Hst : state f = Executing \/ state f = Complete).
  { unfold shape in i_shape0. rewrite Er in i_shape0. destruct (state f); [|by destruct i_shape0|by left|by right].
    by destruct i_shape0. }
  replace (match state f with Executing | Complete => bool_decide (is_Some (Some r)) | _ => false end) with true by (by destruct Hst as [-> | ->]).
  cbn [negb]. destruct (release_wait f bind health sync) as [[]|e|] eqn:Ew; cbn [fst].
  - assert (Hdone : done_ (shared w) = true).
    { unfold release_wait in Ew. destruct (execution_context f); [|done]. cbn in Ew. destruct bind; try done. cbn in Ew.
      destruct health; try done. cbn in Hw. by destruct sync. }
    split; cbn; rewrite ?app_nil_r; try done; [|naive_solver]. rewrite <- i_results0. cbn. solve_Permutation.
  - split; cbn; rewrite ?app_nil_r; try done; [|naive_solver|].
    + rewrite fmap_app, <- i_results0. cbn. solve_Permutation.
    + intros x [Hx|[= -> E]%list_elem_of_singleton]%elem_of_app; [by eapply i_silent0|]. apply i_fault0. by destruct (fault_delivered f).
  - split; cbn; rewrite ?app_nil_r; try done; [|naive_solver|].
    + rewrite fmap_app, <- i_results0. cbn. solve_Permutation.
    + intros x [Hx|[= -> E]%list_elem_of_singleton]%elem_of_app; [by eapply i_silent0|]. apply i_fault0. by destruct (fault_delivered f).
Qed.

(** The completion side and the device change only the shared state, and wake. *)
Lemma shared_inv s more w : Inv w -> executed s = executed (shared w) -> (done_ (shared w) = true -> done_ s = true) ->
  (complete_flag s = true -> done_ s = true) ->
  complete_flag s = match signaller s with Stored | Signalled => true | _ => false end ->
  (signaller s = Unarmed <-> signaller (shared w) = Unarmed) ->
  (forall k, reachable_waker k w -> waker s = Some k \/ k ∈ more \/ k ∈ woken w) ->
  (signaller s = Signalled -> signaller (shared w) = Signalled \/ waker s = None) -> Inv (with_shared s more w).
Proof.
  intros [] He Hdone Hflag Hsig Hun Hreach Hwake. split; cbn; try done.
  - by rewrite He.
  - auto.
  - destruct (fut w) as [f|]; [|done]. unfold shape in *. destruct (polling w) as [[k pc]|];
      [destruct pc|destruct (state f)]; naive_solver.
  - unfold wakers_ok in *. cbn. assert (Hr : forall k, reachable_waker k w -> reachable_waker k (with_shared s more w)).
    { intros k Hk. unfold reachable_waker. cbn. rewrite elem_of_app. destruct (Hreach k Hk) as [?|[?|?]]; auto. }
    destruct (polling w) as [[k pc]|]; [destruct pc; by auto|]. intros k Hk. destruct (i_wakers0 k Hk) as [Ha Hb].
    split; [by apply Hr|]. intros E. rewrite elem_of_app. destruct (Hwake E) as [E'|E']; [left; auto|].
    destruct (Hreach k Ha) as [?|[?|?]]; [congruence|by right|by left].
Qed.

Lemma future_step_inv w e w' : Inv w -> step w e = Some w' -> Inv w'.
Proof.
  intros H. assert (Hre : forall (more : list nat) k, reachable_waker k w -> waker (shared w) = Some k \/ k ∈ more \/ k ∈ woken w)
    by (unfold reachable_waker; naive_solver).
  pose proof (i_flag _ H) as Hfl. pose proof (i_signal _ H) as Hsg. destruct e as [|i|bind health sync| | | | |]; cbn [step]; intros Hs.
  - apply bind_Some in Hs as (f & Hf & Hs). destruct (polling w) eqn:Hp; [done|]. injection Hs as <-.
    pose proof (polls_inv w (S (polls w)) H) as H'. rewrite Hp in H'. by apply (poll_start_inv _ f _ H').
  - apply bind_Some in Hs as (f & Hf & Hs). apply bind_Some in Hs as ([k pc] & Hp & Hs).
    destruct (answer_ok i (shared w)) eqn:Ha; [|done]. apply bind_Some in Hs as (p & Hstep & Hs). injection Hs as <-.
    by eapply poll_step_inv.
  - apply bind_Some in Hs as (f & Hf & Hs). destruct (polling w) eqn:Hp; [done|].
    destruct (wait_ok health sync (shared w)) eqn:Ew; [|done]. injection Hs as <-. by apply drop_inv.
  - destruct (submitted (shared w) && _); [|done]. injection Hs as <-. apply shared_inv; cbn; auto.
  - destruct (submitted (shared w)); [|done]. destruct (done_ (shared w)) eqn:Ed; [done|]. injection Hs as <-.
    apply shared_inv; cbn; auto; congruence.
  - destruct (signaller (shared w)) eqn:Eg; try done. destruct (done_ (shared w)) eqn:Ed; [|done]. injection Hs as <-.
    apply shared_inv; cbn; rewrite ?Eg; auto; done.
  - destruct (signaller (shared w)) eqn:Eg; try done. injection Hs as <-. apply shared_inv; cbn; rewrite ?Eg; try done; [|by right].
    intros k [Hk|Hk]; [rewrite Hk; cbn; right; left; by apply list_elem_of_singleton|auto].
  - destruct (signaller (shared w)) eqn:Eg; try done. destruct (faulted (shared w)); [|done]. injection Hs as <-.
    apply shared_inv; cbn; rewrite ?Eg; try done.
    intros k [Hk|Hk]; [rewrite Hk; cbn; right; left; by apply list_elem_of_singleton|auto].
Qed.

Lemma future_run_inv es : forall w w', Inv w -> run w es = Some w' -> Inv w'.
Proof.
  induction es as [|e es IH]; intros w w' H Hr; cbn in Hr; [by injection Hr as <-|].
  apply bind_Some in Hr as (w1 & H1 & Hr). eapply IH; [|done]. by eapply future_step_inv.
Qed.
End proofs.

(** ** Theorems *)

(** C23: The result of a device future is never released while the device may still write it, and never lost.
    However polls, the completion side, faults and a cancelling drop interleave: a poll resolves at most once; every
    result the operation returned is in exactly one place (stored, delivered, dropped or leaked); a result is
    delivered to the caller or dropped only after the submitted work is done; and a leak is silent only if the
    caller was told of a driver error. *)
Theorem future_result_safe {Op T : Type} (f : DeviceFuture Op T) (es : list (Event T)) (w : World Op T)
    (Hfresh : fresh f) (Hrun : run (initial f) es = Some w) :
  (length (delivered w) <= 1)%nat /\
  oks (delivered w) ++ dropped w ++ (leaked w).*1 ++ stored w ≡ₚ executed (shared w) /\
  (oks (delivered w) ++ dropped w <> [] -> done_ (shared w) = true) /\
  (forall r, (r, false) ∈ leaked w -> fault_told (delivered w)).
Proof.
  pose proof (future_run_inv es _ w (initial_inv f Hfresh) Hrun) as H.
  split; [apply (i_once _ H)|]. split; [apply (i_results _ H)|]. split; [apply (i_safe _ H)|apply (i_silent _ H)].
Qed.

(** A first poll that submits and parks, a completion, a second poll that resolves. *)
Definition submit_and_wait : list (Event Z) :=
  [PollStart; PollNext (LockResult (Ok tt)); PollNext NoInput; PollNext (OpResult (Ok 7)); PollNext (SpinResult (Ok false));
   PollNext (CallbackResult (Ok tt)); DeviceDone; SignalStore; SignalWake; PollStart; PollNext NoInput].

Definition parked_future : World unit Z := Eval vm_compute in
  match run (initial (scheduled tt)) (take 9 submit_and_wait) with Some w => w | None => initial (scheduled tt) end.

Definition resolved_future : World unit Z := Eval vm_compute in
  match run (initial (scheduled tt)) submit_and_wait with Some w => w | None => initial (scheduled tt) end.

Lemma future_result_safe_witness :
  run (initial (scheduled tt)) submit_and_wait = Some resolved_future /\ delivered resolved_future = [Ok 7] /\
  (oks (delivered resolved_future) ++ dropped resolved_future <> [] -> done_ (shared resolved_future) = true).
Proof.
  split; [vm_compute; reflexivity|]. split; [reflexivity|].
  apply (future_result_safe (scheduled tt) submit_and_wait resolved_future); [right; left; by exists tt|vm_compute; reflexivity].
Defined.

(** C24: No completion is missed. When no poll is in progress and the last one returned Pending with its waker, that
    waker is still registered or has been woken since; and once the completion side has finished signalling, it
    has been woken, whatever wakers earlier polls had registered. *)
Theorem completion_wakes_parked {Op T : Type} (f : DeviceFuture Op T) (es : list (Event T)) (w : World Op T) (k : nat)
    (Hfresh : fresh f) (Hrun : run (initial f) es = Some w) (Hidle : polling w = None) (Hparked : parked w = Some k) :
  (waker (shared w) = Some k \/ k ∈ woken w) /\ (signaller (shared w) = Signalled -> k ∈ woken w).
Proof.
  pose proof (i_wakers _ (future_run_inv es _ w (initial_inv f Hfresh) Hrun)) as H. unfold wakers_ok in H. rewrite Hidle in H. by apply H.
Qed.

Lemma completion_wakes_parked_witness :
  run (initial (scheduled tt)) (take 9 submit_and_wait) = Some parked_future /\ signaller (shared parked_future) = Signalled /\
  (signaller (shared parked_future) = Signalled -> 1%nat ∈ woken parked_future).
Proof.
  split; [vm_compute; reflexivity|]. split; [reflexivity|].
  apply (completion_wakes_parked (scheduled tt) (take 9 submit_and_wait) parked_future 1%nat);
    [right; left; by exists tt|vm_compute; reflexivity|reflexivity|reflexivity].
Defined.

(** The wake-up of a fault has no such guarantee: it sets no flag, so a poll
    that replaces the waker after the reactor has woken the old one parks with
    a waker nobody will call. *)
Lemma fault_wake_lost :
  exists w, run (initial (Op:=unit) (T:=Z) (scheduled tt))
    [PollStart; PollNext (LockResult (Ok tt)); PollNext NoInput; PollNext (OpResult (Ok 7)); PollNext (SpinResult (Ok false));
     PollNext (CallbackResult (Ok tt)); PollStart; PollNext NoInput; PollNext (ProbeResult HBusy); DeviceFault; FaultWake;
     PollNext NoInput; PollNext NoInput] = Some w /\
    parked w = Some 2%nat /\ signaller (shared w) = Retired /\ waker (shared w) = Some 2%nat /\ woken w = [1%nat].
Proof. eexists. split; [vm_compute; reflexivity|]. done. Qed.
