(* ===== verification/Tune.v ===== *)
(** * The autotuner's search (cutile/src/tune.rs)

    A tuning run visits candidate configurations, keeps a trial for each, and
    returns the fastest; required configurations are measured before the
    searcher runs.  What is measured, and how a searcher decides, is behind two
    interfaces of the source: [Objective] and [Searcher].  Timings are [f32]
    bit patterns, compared as the hardware does; the clock is read through the
    state. *)

From Stdlib Require Import Ascii.
From stdpp Require Import sorting.
From S2P Require Import Prelude BTree Text.

#[local] Open Scope Z_scope.
#[local] Open Scope rust_scope.

(** ** [f32] comparisons, on bit patterns *)

Definition f32_sign (b : Z) : bool := Z.testbit b 31.
Definition f32_magnitude (b : Z) : Z := b mod 2 ^ 31.
Definition f32_infinity : Z := 0x7F800000.
Definition is_finite (b : Z) : bool := f32_magnitude b <? f32_infinity.
Definition is_nan (b : Z) : bool := f32_infinity <? f32_magnitude b.

(** The order of the values: monotone in the number a pattern denotes, both
    zeros equal. *)
Definition f32_rank (b : Z) : Z := if f32_sign b then - f32_magnitude b else f32_magnitude b.
Definition f32_lt (a b : Z) : bool := negb (is_nan a) && negb (is_nan b) && (f32_rank a <? f32_rank b).
Definition f32_le (a b : Z) : bool := negb (is_nan a) && negb (is_nan b) && (f32_rank a <=? f32_rank b).
Definition f32_min (a b : Z) : Z := if is_nan a then b else if is_nan b then a else if f32_rank b <? f32_rank a then b else a.

(** [total_cmp]: the negative zero is below the positive one. *)
Definition total_rank (b : Z) : Z := if f32_sign b then - f32_magnitude b - 1 else f32_magnitude b.
Definition total_le (a b : Z) : Prop := total_rank a <= total_rank b.
#[export] Instance total_le_dec : RelDecision total_le.
Proof. intros a b. unfold total_le. apply _. Defined.

(** ** Configurations *)

Inductive ParamValue :=
| Int (i : Z)
| Str (s : string).

(** [params] lists the entries of the ordered map. *)
Record Config := mkConfig { id : string; params : list (string * ParamValue) }.

#[export] Instance ParamValue_eq_dec : EqDecision ParamValue.
Proof. solve_decision. Defined.
#[export] Instance Config_eq_dec : EqDecision Config.
Proof. solve_decision. Defined.

Fixpoint contains_any (p : ascii -> bool) (s : string) : bool :=
  match s with EmptyString => false | String c s => p c || contains_any p s end.

Definition quote : ascii := ascii_of_nat 34.

Definition is_separator (c : ascii) : bool := bool_decide (c = "="%char) || bool_decide (c = ","%char) || bool_decide (c = quote).

Section config.
(** [serde_json::to_string] on a string, which does not fail. *)
Context (json : string -> string).

Definition key_text (k : string) : string := if contains_any is_separator k then json k else k.

Definition value_text (v : ParamValue) : string := match v with Int i => pretty i | Str s => json s end.

Definition id_entry (kv : string * ParamValue) : string := key_text kv.1 +:+ "=" +:+ value_text kv.2.

Definition derive_id (params : list (string * ParamValue)) : string := join "," (id_entry <$> params).

Definition Config_new (entries : list (string * ParamValue)) : Config :=
  let params := foldl (fun m kv => btree_insert string_ltb m kv.1 kv.2) [] entries in
  mkConfig (derive_id params) params.
End config.

Definition int (c : Config) (key : string) : option Z :=
  match btree_get string_ltb (params c) key with Some (Int i) => Some i | _ => None end.

Definition str (c : Config) (key : string) : option string :=
  match btree_get string_ltb (params c) key with Some (Str s) => Some s | _ => None end.

(** *** The fingerprint of a space *)

Definition string_le (a b : string) : Prop := string_ltb b a = false.
#[export] Instance string_le_dec : RelDecision string_le.
Proof. intros a b. unfold string_le. apply _. Defined.

Definition bytes_of (s : string) : list Z := (fun c => Z.of_nat (nat_of_ascii c)) <$> String.list_ascii_of_string s.

Definition fnv_byte (h b : Z) : Z := (Z.lxor h b * 0x100000001b3) mod 2 ^ 64.

Definition fnv_id (h : Z) (s : string) : Z := foldl fnv_byte h (bytes_of s ++ [0]).

Definition hex_digit (n : Z) : ascii := ascii_of_nat (Z.to_nat (if n <? 10 then 48 + n else 87 + n)).

(** The last [digits] hexadecimal digits. *)
Fixpoint hex (digits : nat) (h : Z) : string :=
  match digits with
  | O => EmptyString
  | S digits => String (hex_digit (Z.shiftr h (4 * Z.of_nat digits) mod 16)) (hex digits h)
  end.

Definition space_hash (configs : list Config) : string :=
  hex 16 (foldl fnv_id 0xcbf29ce484222325 (merge_sort string_le (id <$> configs))).

(** ** Trials *)

Inductive TrialState :=
| Measured (median_ms min_ms reps : Z)
| Invalid (reason : string).

Record Trial := mkTrial { config_id : string; trial_state : TrialState }.

#[export] Instance TrialState_eq_dec : EqDecision TrialState.
Proof. solve_decision. Defined.
#[export] Instance Trial_eq_dec : EqDecision Trial.
Proof. solve_decision. Defined.

(** [show] prints a timing. *)
Definition measured_or_invalid (show : Z -> string) (median_ms min_ms reps : Z) : TrialState :=
  if negb (is_finite median_ms) || negb (is_finite min_ms)
  then Invalid ("non-finite timing (median " +:+ show median_ms +:+ ", min " +:+ show min_ms +:+ ")")
  else Measured median_ms min_ms reps.

Definition Trial_measured (show : Z -> string) (config_id : string) (median_ms min_ms reps : Z) : Trial :=
  mkTrial config_id (measured_or_invalid show median_ms min_ms reps).

Definition Trial_invalid (config_id reason : string) : Trial := mkTrial config_id (Invalid reason).

Definition median_ms (t : Trial) : option Z := match trial_state t with Measured m _ _ => Some m | Invalid _ => None end.

(** A benchmark's timings, by what the tuner reads of them. *)
Record Measurement := mkMeasurement { m_reps : Z; m_median : Z; m_min : Z }.

Definition measured (show : Z -> string) (m : Measurement) : TrialState :=
  if m_reps m =? 0 then Invalid "no timed reps (check BenchOptions)"
  else measured_or_invalid show (m_median m) (m_min m) (m_reps m).

(** ** Interfaces *)

(** Durations are nanoseconds. *)
Class Objective (St : Type) := {
  configs : St -> list Config;
  measure : nat -> St -> Trial * St;
  budget_remaining : St -> option Z * St;
}.

Definition Searcher : Type := forall St, Objective St -> St -> list Trial * St.

(** *** Exhaustive search *)

Definition is_measured (t : Trial) : bool := is_some (median_ms t).

Definition resumable (cs : list Config) (known : list Trial) : list Trial :=
  filter (fun t => config_id t ∈ id <$> cs /\ is_measured t = true) known.

Definition todo (cs : list Config) (trials : list Trial) : list nat :=
  filter (fun i => (id <$> cs !! i) ∉ (Some ∘ config_id <$> trials)) (seq 0 (length cs)).

Section grid.
Context {St : Type} `{Objective St}.

Fixpoint visit (indices : list nat) (st : St) : list Trial * St :=
  match indices with
  | [] => ([], st)
  | index :: indices =>
      let '(budget, st) := budget_remaining st in
      if bool_decide (budget = Some 0) then ([], st)
      else
        let '(trial, st) := measure index st in
        let '(trials, st) := visit indices st in
        (trial :: trials, st)
  end.
End grid.

Definition GridSearch (known : list Trial) : Searcher := fun St _ st =>
  let trials := resumable (configs st) known in
  let '(more, st) := visit (todo (configs st) trials) st in
  (trials ++ more, st).

(** *** The winner *)

Definition find_config (cs : list Config) (i : string) : option Config := snd <$> list_find (fun c => id c = i) cs.

Definition best_step (cs : list Config) (best : option (Config * Z)) (t : Trial) : option (Config * Z) :=
  match median_ms t with
  | None => best
  | Some ms =>
      if negb (is_finite ms) then best
      else match find_config cs (config_id t) with
           | None => best
           | Some c => match best with
                       | Some (_, b) => if f32_lt ms b then Some (c, ms) else best
                       | None => Some (c, ms)
                       end
           end
  end.

Definition best_config (cs : list Config) (trials : list Trial) : option Config := fst <$> foldl (best_step cs) None trials.

(** The medians of [top_two], best per configuration. *)
Fixpoint rank_insert (c : Config) (ms : Z) (ranked : list (Config * Z)) : list (Config * Z) :=
  match ranked with
  | [] => [(c, ms)]
  | (rc, m) :: ranked => if bool_decide (id rc = id c) then (rc, f32_min m ms) :: ranked else (rc, m) :: rank_insert c ms ranked
  end.

Definition rank_step (cs : list Config) (ranked : list (Config * Z)) (t : Trial) : list (Config * Z) :=
  match median_ms t with
  | None => ranked
  | Some ms =>
      if negb (is_finite ms) then ranked
      else match find_config cs (config_id t) with Some c => rank_insert c ms ranked | None => ranked end
  end.

Definition by_median (a b : Config * Z) : Prop := total_le a.2 b.2.
#[export] Instance by_median_dec : RelDecision by_median.
Proof. intros a b. unfold by_median. apply _. Defined.

Definition top_two (cs : list Config) (trials : list Trial) : option (Config * option Config) :=
  match merge_sort by_median (foldl (rank_step cs) [] trials) with
  | [] => None
  | (first, _) :: rest => Some (first, fst <$> head rest)
  end.

(** ** Required configurations *)

(** [Iterator::position] by id, and the panic of an index out of range. *)
Definition config_position (cs : list Config) (i : string) : option nat := fst <$> list_find (fun c => id c = i) cs.

Definition at_config (cs : list Config) (index : nat) : outcome string Config :=
  match cs !! index with Some c => Ok c | None => Panic end.

Fixpoint required_loop (indices : list nat) (required cs : list Config) : outcome string (list nat) :=
  match required with
  | [] => Ok indices
  | r :: required =>
      match config_position cs (id r) with
      | None => Err ("required config `" +:+ id r +:+ "` is not in the declared space (after pruning); the search cannot cover it")
      | Some index =>
          required_loop (if bool_decide (index ∈ indices) then indices else indices ++ [index]) required cs
      end
  end.

Definition required_indices (required cs : list Config) : outcome string (list nat) := required_loop [] required cs.

(** A [BTreeMap<usize, Trial>]. *)
Notation Cache := (list (nat * Trial)).
Definition cache_get : Cache -> nat -> option Trial := btree_get Nat.ltb.
Definition cache_insert : Cache -> nat -> Trial -> Cache := btree_insert Nat.ltb.
Definition cache_remove : Cache -> nat -> Cache := btree_remove Nat.ltb.

Fixpoint require_measured (cs : list Config) (required : list nat) (cache : Cache) : outcome string unit :=
  match required with
  | [] => Ok tt
  | index :: required =>
      match cache_get cache index with
      | Some trial =>
          match trial_state trial with
          | Measured _ _ _ => require_measured cs required cache
          | Invalid reason =>
              c ← at_config cs index;
              Err ("required config `" +:+ id c +:+ "` failed to measure (" +:+ reason +:+ "); cannot guarantee the winner beat it")
          end
      | None => require_measured cs required cache
      end
  end.

(** The body of the loop of [merge_unclaimed]. *)
Fixpoint merge_trial (trial : Trial) (trials : list Trial) : list Trial :=
  match trials with
  | [] => [trial]
  | t :: trials =>
      if bool_decide (config_id t = config_id trial)
      then (if negb (is_measured t) && is_measured trial then trial else t) :: trials
      else t :: merge_trial trial trials
  end.

Definition merge_unclaimed (trials pre_measured : list Trial) : list Trial :=
  foldl (fun trials t => merge_trial t trials) trials pre_measured.

(** *** Adapters *)

(** [RequiredFirst]: trials measured beforehand are served from the cache. *)
Record RequiredFirst (St : Type) := mkRequiredFirst { rf_inner : St; rf_cache : Cache }.
Arguments mkRequiredFirst {St}.
Arguments rf_inner {St}.
Arguments rf_cache {St}.

#[export] Instance RequiredFirst_Objective {St} `{Objective St} : Objective (RequiredFirst St) := {
  configs := fun w => configs (rf_inner w);
  measure := fun index w =>
    match cache_get (rf_cache w) index with
    | Some trial => (trial, mkRequiredFirst (rf_inner w) (cache_remove (rf_cache w) index))
    | None => let '(trial, st) := measure index (rf_inner w) in (trial, mkRequiredFirst st (rf_cache w))
    end;
  budget_remaining := fun w =>
    let '(b, st) := budget_remaining (rf_inner w) in (b, mkRequiredFirst st (rf_cache w));
}.

(** [LoggingObjective]: the clock is a sequence of readings; [lo_log] lists the
    trials appended. *)
Record LoggingObjective (St : Type) := mkLogging {
  lo_inner : St; lo_log : list Trial; lo_deadline : option Z; lo_clock : nat -> Z; lo_reads : nat }.
Arguments mkLogging {St}.
Arguments lo_inner {St}.
Arguments lo_log {St}.
Arguments lo_deadline {St}.
Arguments lo_clock {St}.
Arguments lo_reads {St}.

Definition min_budget (own inner : option Z) : option Z :=
  match own, inner with
  | Some a, Some b => Some (Z.min a b)
  | Some a, None => Some a
  | None, b => b
  end.

#[export] Instance LoggingObjective_Objective {St} `{Objective St} : Objective (LoggingObjective St) := {
  configs := fun w => configs (lo_inner w);
  measure := fun index w =>
    let authoritative_id := id <$> configs (lo_inner w) !! index in
    let '(trial, st) := measure index (lo_inner w) in
    let trial := match authoritative_id with Some i => mkTrial i (trial_state trial) | None => trial end in
    (trial, mkLogging st (lo_log w ++ [trial]) (lo_deadline w) (lo_clock w) (lo_reads w));
  budget_remaining := fun w =>
    let '(inner, st) := budget_remaining (lo_inner w) in
    match lo_deadline w with
    | Some d => (min_budget (Some (Z.max 0 (d - lo_clock w (lo_reads w)))) inner,
                 mkLogging st (lo_log w) (lo_deadline w) (lo_clock w) (S (lo_reads w)))
    | None => (min_budget None inner, mkLogging st (lo_log w) (lo_deadline w) (lo_clock w) (lo_reads w))
    end;
}.

(** ** Runs *)

Record Output := mkOutput { trials : list Trial; best : option Config }.

Section run.
Context {St : Type} `{Objective St}.

(** The pre-measurement of the required configurations. *)
Fixpoint premeasure (existing : list Trial) (required : list nat) (cache : Cache) (w : St) : outcome string (Cache * St) :=
  match required with
  | [] => Ok (cache, w)
  | index :: required =>
      c ← at_config (configs w) index;
      match list_find (fun t => config_id t = id c /\ is_measured t = true) existing with
      | Some (_, t) => premeasure existing required (cache_insert cache index t) w
      | None => let '(t, w) := measure index w in premeasure existing required (cache_insert cache index t) w
      end
  end.

(** The common part of the two runs: coverage, search, merge. *)
Definition search_required (searcher : Searcher) (existing : list Trial) (required : list Config) (w : St)
  : outcome string (list Trial * St) :=
  indices ← required_indices required (configs w);
  '(cache, w) ← premeasure existing indices [] w;
  _ ← require_measured (configs w) indices cache;
  let '(ts, wrapped) := searcher (RequiredFirst St) _ (mkRequiredFirst w cache) in
  Ok (merge_unclaimed ts cache.*2, rf_inner wrapped).

End run.

(** [run_objective_searcher]: [existing] are the trials of the log, [deadline]
    the end of the budget. *)
Definition run_objective_searcher {St} `{Objective St} (searcher : Searcher) (existing : list Trial) (required : list Config)
    (deadline : option Z) (clock : nat -> Z) (st : St) : outcome string (Output * St) :=
  '(ts, w) ← search_required searcher existing required (mkLogging st [] deadline clock 0);
  let st := lo_inner w in
  Ok (mkOutput ts (best_config (configs st) ts), st).

Definition run_objective {St} `{Objective St} (existing : list Trial) := run_objective_searcher (St:=St) (GridSearch existing) existing.

(** *** The library's own objective, and the runoff *)

Inductive RunoffError :=
| Setup (b_failed : bool) (error : string)
| Bench (error : string).

Definition apply_prune (prune : list (Config -> bool)) (cs : list Config) : list Config :=
  filter (fun c => forallb (fun keep => keep c) prune = true) cs.

Section bench.
(** The launch under test: [setup] applies a configuration, [do_bench] times
    it, [do_bench_paired] times two in turn; [show] prints a timing. *)
Context {Wd F : Type}.
Context (setup : Config -> Wd -> (F + string) * Wd).
Context (do_bench : F -> Wd -> (Measurement + string) * Wd).
Context (do_bench_paired : F -> F -> Wd -> (Measurement * Measurement + string) * Wd).
Context (show : Z -> string).

Record BenchObjective := mkBench {
  bo_configs : list Config; bo_world : Wd; bo_log : list Trial;
  bo_deadline : option Z; bo_clock : nat -> Z; bo_reads : nat }.

Definition append (t : Trial) (w : BenchObjective) : BenchObjective :=
  mkBench (bo_configs w) (bo_world w) (bo_log w ++ [t]) (bo_deadline w) (bo_clock w) (bo_reads w).

Definition set_world (wd : Wd) (w : BenchObjective) : BenchObjective :=
  mkBench (bo_configs w) wd (bo_log w) (bo_deadline w) (bo_clock w) (bo_reads w).

(** The state of a trial: setup, then timing. *)
Definition bench_config (c : Config) (wd : Wd) : TrialState * Wd :=
  match setup c wd with
  | (inl f, wd) =>
      match do_bench f wd with
      | (inl m, wd) => (measured show m, wd)
      | (inr e, wd) => (Invalid e, wd)
      end
  | (inr e, wd) => (Invalid e, wd)
  end.

(** An index outside the list panics in the source; every searcher and the
    coverage loop pass positions of it, and the arm is not reached. *)
Definition bench_measure (index : nat) (w : BenchObjective) : Trial * BenchObjective :=
  match bo_configs w !! index with
  | Some c =>
      let '(st, wd) := bench_config c (bo_world w) in
      let t := mkTrial (id c) st in (t, append t (set_world wd w))
  | None => (Trial_invalid EmptyString "panic", w)
  end.

Definition bench_budget (w : BenchObjective) : option Z * BenchObjective :=
  match bo_deadline w with
  | Some d => (Some (Z.max 0 (d - bo_clock w (bo_reads w))),
               mkBench (bo_configs w) (bo_world w) (bo_log w) (bo_deadline w) (bo_clock w) (S (bo_reads w)))
  | None => (None, w)
  end.

Instance BenchObjective_Objective : Objective BenchObjective := {
  configs := bo_configs; measure := bench_measure; budget_remaining := bench_budget }.

Definition runoff (a b : Config) (w : BenchObjective) : (Measurement * Measurement + RunoffError) * BenchObjective :=
  match setup a (bo_world w) with
  | (inl fa, wd) =>
      match setup b wd with
      | (inl fb, wd) =>
          match do_bench_paired fa fb wd with
          | (inl ms, wd) => (inl ms, set_world wd w)
          | (inr e, wd) => (inr (Bench e), set_world wd w)
          end
      | (inr e, wd) => (inr (Setup true e), set_world wd w)
      end
  | (inr e, wd) => (inr (Setup false e), set_world wd w)
  end.

Definition runoff_key (o : TrialState) : Z :=
  match o with Measured m _ _ => if is_finite m then m else f32_infinity | Invalid _ => f32_infinity end.

(** The winner, and the trials to record. *)
Definition runoff_verdict (a b : Config) (result : Measurement * Measurement + RunoffError) : Config * list Trial :=
  match result with
  | inr (Setup b_failed error) =>
      let '(loser, winner) := if b_failed then (b, a) else (a, b) in
      (winner, [Trial_invalid (id loser) ("runoff setup failed: " +:+ error)])
  | inr (Bench _) => (a, [])
  | inl (ma, mb) =>
      let oa := measured show ma in
      let ob := measured show mb in
      (if f32_le (runoff_key oa) (runoff_key ob) then a else b, [mkTrial (id a) oa; mkTrial (id b) ob])
  end.

Definition run_searcher (searcher : Searcher) (existing : list Trial) (required : list Config) (w : BenchObjective)
  : outcome string (Output * BenchObjective) :=
  '(ts, w) ← search_required searcher existing required w;
  match top_two (bo_configs w) ts with
  | None => Ok (mkOutput ts None, w)
  | Some (only, None) => Ok (mkOutput ts (Some only), w)
  | Some (a, Some b) =>
      let '(budget, w) := bench_budget w in
      if bool_decide (budget = Some 0) then Ok (mkOutput ts (Some a), w)
      else
        let '(result, w) := runoff a b w in
        let '(winner, more) := runoff_verdict a b result in
        Ok (mkOutput (ts ++ more) (Some winner), foldl (fun w t => append t w) w more)
  end.
End bench.

(** ** Laws of the interfaces *)

(** A searcher touches its objective only through the interface: what measuring
    and reading the budget preserve, the search preserves. *)
Class SearcherOk (s : Searcher) : Prop :=
  search_preserves : forall St (O : Objective St) (P : St -> Prop),
    (forall i st, P st -> P (measure i st).2) -> (forall st, P st -> P (budget_remaining st).2) ->
    forall st, P st -> P (s St O st).2.

(** The candidates stay the same during a run. *)
Class StableObjective (St : Type) `{Objective St} : Prop := {
  configs_measure : forall i st, configs (measure i st).2 = configs st;
  configs_budget : forall st, configs (budget_remaining st).2 = configs st;
}.

(** A trial carries the id of the candidate at the dispatched index. *)
Class StampedObjective (St : Type) `{Objective St} : Prop :=
  measure_stamped : forall i st c, configs st !! i = Some c -> config_id (measure i st).1 = id c.

Lemma visit_preserves {St} `{Objective St} (P : St -> Prop) indices :
  (forall i st, P st -> P (measure i st).2) -> (forall st, P st -> P (budget_remaining st).2) ->
  forall st, P st -> P (visit indices st).2.
Proof.
  intros Hm Hb. induction indices as [|i indices IH]; intros st Hp; [done|]. cbn [visit].
  specialize (Hb st Hp). destruct (budget_remaining st) as [b st1]. case_bool_decide; [done|].
  specialize (Hm i st1 Hb). destruct (measure i st1) as [t st2]. specialize (IH st2 Hm).
  by destruct (visit indices st2) as [ts st3].
Qed.

#[export] Instance GridSearch_ok known : SearcherOk (GridSearch known).
Proof.
  intros St O P Hm Hb st Hp. unfold GridSearch. pose proof (visit_preserves P (todo (configs st) (resumable (configs st) known)) Hm Hb st Hp) as Hv.
  by destruct (visit _ st) as [ts st1].
Qed.

#[export] Instance RequiredFirst_stable {St} `{StableObjective St} : StableObjective (RequiredFirst St).
Proof.
  split.
  - intros i w. cbn. destruct (cache_get (rf_cache w) i); [done|]. pose proof (configs_measure i (rf_inner w)).
    by destruct (measure i (rf_inner w)).
  - intros w. cbn. pose proof (configs_budget (rf_inner w)). by destruct (budget_remaining (rf_inner w)).
Qed.

#[export] Instance LoggingObjective_stable {St} `{StableObjective St} : StableObjective (LoggingObjective St).
Proof.
  split.
  - intros i w. cbn. pose proof (configs_measure i (lo_inner w)). by destruct (measure i (lo_inner w)).
  - intros w. cbn. pose proof (configs_budget (lo_inner w)). destruct (budget_remaining (lo_inner w)). by destruct (lo_deadline w).
Qed.

#[export] Instance LoggingObjective_stamped {St} `{Objective St} : StampedObjective (LoggingObjective St).
Proof. intros i w c Hc. cbn in *. destruct (measure i (lo_inner w)) as [t st]. by rewrite Hc. Qed.

Lemma search_configs {St} `{StableObjective St} (s : Searcher) `{!SearcherOk s} st : configs (s St _ st).2 = configs st.
Proof.
  apply (search_preserves St _ (fun st' => configs st' = configs st)); [| |done].
  - intros i st' Hs. by rewrite configs_measure.
  - intros st' Hs. by rewrite configs_budget.
Qed.

(** ** The winner *)

(** A trial that may decide the winner. *)
Definition eligible (cs : list Config) (t : Trial) (c : Config) (ms : Z) : Prop :=
  median_ms t = Some ms /\ is_finite ms = true /\ find_config cs (config_id t) = Some c.

Lemma finite_not_nan b : is_finite b = true -> is_nan b = false.
Proof. unfold is_finite, is_nan. lia. Qed.

Lemma f32_lt_finite a b : is_finite a = true -> is_finite b = true -> f32_lt a b = (f32_rank a <? f32_rank b).
Proof. intros Ha Hb. unfold f32_lt. by rewrite !finite_not_nan. Qed.

(** What the fold holds after the trials seen so far. *)
Definition best_of (cs : list Config) (seen : list Trial) (b : option (Config * Z)) : Prop :=
  match b with
  | None => forall t c ms, t ∈ seen -> ~ eligible cs t c ms
  | Some (c, ms) => (exists t, t ∈ seen /\ eligible cs t c ms) /\
                    forall t c' ms', t ∈ seen -> eligible cs t c' ms' -> f32_rank ms <= f32_rank ms'
  end.

Lemma best_step_spec cs seen b t : best_of cs seen b -> best_of cs (seen ++ [t]) (best_step cs b t).
Proof.
  intros Hb. unfold best_step.
  assert (Hskip : (forall c ms, ~ eligible cs t c ms) -> best_of cs (seen ++ [t]) b).
  { intros Hn. destruct b as [[c ms]|]; cbn in *; setoid_rewrite elem_of_app; setoid_rewrite list_elem_of_singleton; naive_solver. }
  destruct (median_ms t) as [ms|] eqn:Em; [|apply Hskip; intros c' ms' (E1 & E2 & E3); congruence].
  destruct (is_finite ms) eqn:Ef; [|apply Hskip; intros c' ms' (E1 & E2 & E3); congruence]. cbn [negb].
  destruct (find_config cs (config_id t)) as [c|] eqn:Ec; [|apply Hskip; intros c' ms' (E1 & E2 & E3); congruence].
  assert (Ht : eligible cs t c ms) by done.
  assert (Hun : forall c' ms', eligible cs t c' ms' -> c' = c /\ ms' = ms) by (intros c' ms' (E1 & E2 & E3); split; congruence).
  destruct b as [[bc bm]|]; cbn in *.
  - destruct Hb as [(t0 & Ht0 & He0) Hmin]. rewrite f32_lt_finite by (try done; apply He0).
    destruct (Z.ltb_spec (f32_rank ms) (f32_rank bm)) as [Hlt|Hge]; cbn;
      setoid_rewrite elem_of_app; setoid_rewrite list_elem_of_singleton.
    + split; [by eauto|]. intros t' c' ms' [Hin| ->] He; [|destruct (Hun _ _ He) as [_ ->]; lia].
      specialize (Hmin _ _ _ Hin He). lia.
    + split; [by eauto|]. intros t' c' ms' [Hin| ->] He; [by eauto|]. destruct (Hun _ _ He) as [_ ->]. lia.
  - setoid_rewrite elem_of_app; setoid_rewrite list_elem_of_singleton.
    split; [by eauto|]. intros t' c' ms' [Hin| ->] He; [by destruct (Hb _ _ _ Hin He)|]. destruct (Hun _ _ He) as [_ ->]. lia.
Qed.

Lemma best_fold_spec cs ts : forall seen b, best_of cs seen b -> best_of cs (seen ++ ts) (foldl (best_step cs) b ts).
Proof.
  induction ts as [|t ts IH]; intros seen b Hb; [by rewrite app_nil_r|]. cbn [foldl].
  rewrite (cons_middle t seen ts), (assoc_L (++)). by apply IH, best_step_spec.
Qed.

(** The winner is a candidate with the least finite median; there is one
    exactly when some candidate has a finite median. *)
Lemma best_config_spec cs ts :
  match best_config cs ts with
  | Some c => exists t ms, t ∈ ts /\ eligible cs t c ms /\ forall t' c' ms', t' ∈ ts -> eligible cs t' c' ms' -> f32_rank ms <= f32_rank ms'
  | None => forall t c ms, t ∈ ts -> ~ eligible cs t c ms
  end.
Proof.
  unfold best_config. pose proof (best_fold_spec cs ts [] None ltac:(cbn; set_solver)) as H. cbn [app] in H.
  destruct (foldl (best_step cs) None ts) as [[c ms]|]; cbn in *; [|done]. destruct H as [(t & Ht & He) Hm]. eauto 10.
Qed.

(** ** Coverage of the required configurations *)

#[export] Instance Nat_ltb_strict : StrictTotal Nat.ltb.
Proof.
  split.
  - intros a. apply Nat.ltb_irrefl.
  - intros a b c. rewrite !Nat.ltb_lt. lia.
  - intros a b. rewrite !Nat.ltb_ge. lia.
Qed.

Lemma find_config_elem cs i c : find_config cs i = Some c -> c ∈ cs /\ id c = i.
Proof.
  unfold find_config. intros H. destruct (list_find _ cs) as [[k c']|] eqn:E; [|done]. injection H as ->.
  apply list_find_Some in E as (Hk & Hi & _). split; [by eapply list_elem_of_lookup_2|done].
Qed.

Lemma find_config_of cs c : c ∈ cs -> exists c', find_config cs (id c) = Some c'.
Proof.
  intros Hc. unfold find_config. destruct (list_find (fun c0 => id c0 = id c) cs) as [[k c']|] eqn:E; [by eexists|].
  apply list_find_None in E. rewrite Forall_forall in E. by destruct (E c Hc).
Qed.

Lemma config_position_Some cs i k : config_position cs i = Some k -> exists c, cs !! k = Some c /\ id c = i.
Proof.
  unfold config_position. intros H. destruct (list_find _ cs) as [[k' c]|] eqn:E; [|done]. injection H as ->.
  apply list_find_Some in E as (Hk & Hi & _). eauto.
Qed.

Lemma required_loop_spec required cs : forall acc indices, required_loop acc required cs = Ok indices ->
  acc ⊆ indices /\ forall r, r ∈ required -> exists k c, k ∈ indices /\ cs !! k = Some c /\ id c = id r.
Proof.
  induction required as [|r required IH]; intros acc indices H; cbn in H; [injection H as <-; split; [done|set_solver]|].
  destruct (config_position cs (id r)) as [k|] eqn:E; [|done]. apply config_position_Some in E as (c & Hk & Hc).
  apply IH in H as [Hsub Hreq]. assert (Hk' : k ∈ indices) by (apply Hsub; case_bool_decide; set_solver).
  split; [case_bool_decide; set_solver|]. intros r' [->|Hr]%elem_of_cons; [by eauto|by apply Hreq].
Qed.

(** A trial that covers the candidate at an index. *)
Definition covers (cs : list Config) (cache : Cache) (index : nat) : Prop :=
  exists t c, cache_get cache index = Some t /\ cs !! index = Some c /\ config_id t = id c.

Lemma premeasure_spec {St} `{StableObjective St} `{!StampedObjective St} existing indices :
  forall cache (w : St) cache' w', premeasure existing indices cache w = Ok (cache', w') -> btree_sorted Nat.ltb cache ->
  btree_sorted Nat.ltb cache' /\ configs w' = configs w /\ (forall k, covers (configs w) cache k -> covers (configs w) cache' k) /\
  forall k, k ∈ indices -> covers (configs w) cache' k.
Proof.
  induction indices as [|i indices IH]; intros cache w cache' w' Hp Hs; cbn [premeasure] in Hp.
  { injection Hp as <- <-. split_and!; [done..|set_solver]. }
  apply bind_Ok in Hp as (c & Hc & Hp). unfold at_config in Hc. destruct (configs w !! i) as [c0|] eqn:Ei; [|done]. apply Ok_inj in Hc as <-. rename c0 into c.
  assert (Hcov : forall t, config_id t = id c -> (forall k, covers (configs w) cache k \/ k = i -> covers (configs w) (cache_insert cache i t) k)).
  { intros t Ht k Hk. destruct (decide (k = i)) as [->|Hne].
    - exists t, c. unfold cache_get, cache_insert. by rewrite (btree_get_insert_eq Nat.ltb).
    - destruct Hk as [(t' & c' & Hg & ?)|]; [|done]. exists t', c'. unfold cache_get, cache_insert. by rewrite (btree_get_insert_ne Nat.ltb). }
  destruct (list_find _ existing) as [[j t]|] eqn:Ef.
  - apply list_find_Some in Ef as (_ & [Ht _] & _). apply IH in Hp as (? & Hcs & Hmono & Hall); [|unfold cache_insert; by apply (btree_insert_sorted Nat.ltb)].
    split_and!; [done|done|by auto|]. intros k [->|Hk]%elem_of_cons; [apply Hmono, Hcov; auto|auto].
  - pose proof (measure_stamped i w c Ei) as Ht. pose proof (configs_measure i w) as Hcm. destruct (measure i w) as [t w1]. cbn in Ht, Hcm.
    apply IH in Hp as (? & Hcs & Hmono & Hall); [|unfold cache_insert; by apply (btree_insert_sorted Nat.ltb)]. rewrite Hcm in *.
    split_and!; [done|congruence|by auto|]. intros k [->|Hk]%elem_of_cons; [apply Hmono, Hcov; auto|auto].
Qed.

Lemma require_measured_spec cs required cache : require_measured cs required cache = Ok tt ->
  forall k t, k ∈ required -> cache_get cache k = Some t -> is_measured t = true.
Proof.
  induction required as [|i required IH]; cbn; intros H k t Hk Hg; [by apply not_elem_of_nil in Hk|].
  apply elem_of_cons in Hk as [->|Hk].
  - rewrite Hg in H. unfold is_measured, median_ms. destruct (trial_state t); [done|]. by destruct (at_config cs i).
  - apply (IH ltac:(destruct (cache_get cache i) as [t'|]; [destruct (trial_state t'); [done|by destruct (at_config cs i)]|done]) k t Hk Hg).
Qed.

(** *** Merging *)

Definition has_measured (i : string) (ts : list Trial) : Prop := exists t, t ∈ ts /\ config_id t = i /\ is_measured t = true.

Lemma merge_trial_keeps i t ts : has_measured i ts -> has_measured i (merge_trial t ts).
Proof.
  intros (x & Hx & Hi & Hm). induction ts as [|y ts IH]; [by apply not_elem_of_nil in Hx|]. cbn [merge_trial].
  apply elem_of_cons in Hx as [<-|Hx].
  - case_bool_decide; [rewrite Hm; cbn|]; exists x; (split; [apply list_elem_of_here|done]).
  - case_bool_decide; [exists x; split; [by apply list_elem_of_further|done]|].
    destruct (IH Hx) as (z & Hz & ?). exists z. split; [by apply list_elem_of_further|done].
Qed.

Lemma merge_trial_adds t ts : is_measured t = true -> has_measured (config_id t) (merge_trial t ts).
Proof.
  intros Hm. induction ts as [|y ts IH]; cbn [merge_trial]; [exists t; split; [by apply list_elem_of_singleton|done]|].
  case_bool_decide as E.
  - destruct (is_measured y) eqn:Ey; cbn [negb andb]; [exists y|exists t; rewrite Hm]; (split; [apply list_elem_of_here|done]).
  - destruct IH as (z & Hz & ?). exists z. split; [by apply list_elem_of_further|done].
Qed.

Lemma merge_unclaimed_spec pre ts i : has_measured i ts \/ has_measured i pre -> has_measured i (merge_unclaimed ts pre).
Proof.
  unfold merge_unclaimed. revert ts. induction pre as [|t pre IH]; intros ts H; cbn [foldl].
  - destruct H as [H|(x & Hx & _)]; [done|by apply not_elem_of_nil in Hx].
  - apply IH. destruct H as [H|(x & Hx & <- & Hm)]; [left; by apply merge_trial_keeps|].
    apply elem_of_cons in Hx as [->|Hx]; [left; by apply merge_trial_adds|right; by exists x].
Qed.

Lemma search_required_spec {St} `{StableObjective St} `{!StampedObjective St} (s : Searcher) `{!SearcherOk s} existing required (w : St) ts w' :
  search_required s existing required w = Ok (ts, w') ->
  configs w' = configs w /\ forall r, r ∈ required -> (exists c, c ∈ configs w /\ id c = id r) /\ has_measured (id r) ts.
Proof.
  unfold search_required. intros (indices & Hi & Hr)%bind_Ok. apply bind_Ok in Hr as ([cache w1] & Hp & Hr).
  apply bind_Ok in Hr as ([] & Hm & Hr). apply required_loop_spec in Hi as [_ Hi].
  apply premeasure_spec in Hp as (Hs & Hc & _ & Hcov); [|done].
  pose proof (search_configs s (mkRequiredFirst w1 cache)) as Hw. destruct (s _ _ _) as [ts0 wr]. cbn in Hw. injection Hr as <- <-.
  split; [congruence|]. intros r Hr. destruct (Hi r Hr) as (k & c & Hk & Hck & Hid). split; [exists c; split; [by eapply list_elem_of_lookup_2|done]|].
  destruct (Hcov k Hk) as (t & c' & Hg & Hck' & Ht). assert (c' = c) as -> by congruence.
  apply merge_unclaimed_spec. right. exists t. split; [|split; [congruence|by eapply require_measured_spec]].
  apply list_elem_of_fmap. exists (k, t). split; [done|]. by apply (btree_get_elem Nat.ltb).
Qed.

(** ** Theorems *)

(** C35: A run over any objective, with any searcher that works through the interface, covers its required
    configurations: each has a trial with a median in the result, whatever the searcher returned and however little
    budget was left, and if that median is finite there is a winner whose median is not greater. The candidates
    must not change during the run. *)
Theorem winner_beats_required {St : Type} `{StableObjective St} (searcher : Searcher) `{!SearcherOk searcher}
    (existing : list Trial) (required : list Config) (deadline : option Z) (clock : nat -> Z) (st : St) (out : Output) (st' : St)
    (Hrun : run_objective_searcher searcher existing required deadline clock st = Ok (out, st')) (r : Config) (Hr : r ∈ required) :
  exists t m, t ∈ trials out /\ config_id t = id r /\ median_ms t = Some m /\
    (is_finite m = true -> exists c tc mc, best out = Some c /\ tc ∈ trials out /\ eligible (configs st) tc c mc /\ f32_rank mc <= f32_rank m).
Proof.
  unfold run_objective_searcher in Hrun. apply bind_Ok in Hrun as ([ts w] & Hs & Hrun). injection Hrun as <- <-.
  apply search_required_spec in Hs as [Hc Hall]; [|apply _..]. cbn in Hc, Hall. destruct (Hall r Hr) as [(c & Hcin & Hcid) (t & Ht & Hid & Hm)].
  unfold is_measured in Hm. destruct (median_ms t) as [m|] eqn:Em; [|done].
  exists t, m. split_and!; [done..|]. intros Hf. rewrite Hc. cbn [best].
  destruct (find_config_of (configs st) c Hcin) as [c' Hc']. assert (He : eligible (configs st) t c' m) by (split; [done|split; [done|congruence]]).
  pose proof (best_config_spec (configs st) ts) as Hb. destruct (best_config (configs st) ts) as [bc|].
  - destruct Hb as (tb & mb & Htb & Heb & Hmin). exists bc, tb, mb. split; [done|]. split; [done|]. split; [done|exact (Hmin t c' m Ht He)].
  - by destruct (Hb t c' m Ht He).
Qed.

(** An objective that reads its medians off a table. *)
Record Table := mkTable { tb_configs : list Config; tb_medians : list Z }.
#[export] Instance Table_Objective : Objective Table := {
  configs := tb_configs;
  measure := fun i w => (match tb_medians w !! i with
                         | Some m => Trial_measured (fun z => pretty z) "echo" m m 5
                         | None => Trial_invalid "echo" "no median"
                         end, w);
  budget_remaining := fun w => (Some 0, w);
}.
#[export] Instance Table_stable : StableObjective Table.
Proof. by split. Qed.

Definition three_configs : list Config := Config_new (fun s => s) <$> [[("BN", Int 32)]; [("BN", Int 64)]; [("BN", Int 128)]].
Definition incumbent : Config := Config_new (fun s => s) [("BN", Int 64)].
(** 2.0, 1.5 and 1.0 milliseconds. *)
Definition three_medians : Table := mkTable three_configs [0x40000000; 0x3FC00000; 0x3F800000].

Definition incumbent_output : Output := Eval vm_compute in
  match run_objective_searcher (GridSearch []) [] [incumbent] None (fun _ => 0) three_medians with
  | Ok (o, _) => o | _ => mkOutput [] None end.

Lemma winner_beats_required_witness :
  run_objective_searcher (GridSearch []) [] [incumbent] None (fun _ => 0) three_medians = Ok (incumbent_output, three_medians) /\
  exists t m, t ∈ trials incumbent_output /\ config_id t = "BN=64"%string /\ median_ms t = Some m.
Proof.
  assert (Hrun : run_objective_searcher (GridSearch []) [] [incumbent] None (fun _ => 0) three_medians = Ok (incumbent_output, three_medians))
    by (vm_compute; reflexivity).
  split; [exact Hrun|].
  destruct (winner_beats_required (GridSearch []) [] [incumbent] None (fun _ => 0) three_medians incumbent_output three_medians Hrun incumbent)
    as (t & m & Ht & Hid & Hm & _); [apply list_elem_of_here|]. exists t, m. split; [exact Ht|]. split; [exact Hid|exact Hm].
Defined.

(** ** Ids identify configurations *)

(** The fingerprint does not depend on the order of the candidates. *)
Lemma space_hash_order cs cs' : cs ≡ₚ cs' -> space_hash cs = space_hash cs'.
Proof.
  intros H. unfold space_hash. f_equal. f_equal.
  assert (Htot : Total string_le).
  { intros a b. unfold string_le. destruct (string_ltb b a) eqn:E; [right|by left]. by apply (ltb_asym string_ltb). }
  assert (Htr : Transitive string_le).
  { intros a b c Hab Hbc. unfold string_le in *. destruct (string_ltb c a) eqn:E; [|done].
    destruct (string_ltb a b) eqn:E2; [rewrite (ltb_trans (ltb:=string_ltb) _ _ _ E E2) in Hbc; done|].
    assert (a = b) as -> by (by apply (ltb_total (ltb:=string_ltb))). congruence. }
  assert (Han : AntiSymm (=) string_le) by (intros a b H1 H2; by apply (ltb_total (ltb:=string_ltb))).
  apply (StronglySorted_unique string_le); try apply _; [apply StronglySorted_merge_sort; apply _..|].
  by rewrite !merge_sort_Permutation, H.
Qed.

Section ids.
Context (json : string -> string).
(** A JSON string starts with a quote, and where it ends is determined by it. *)
Context (json_quote : forall s, exists t, json s = String quote t).
Context (json_delimited : forall s s' r r', json s +:+ r = json s' +:+ r' -> s = s' /\ r = r').

(** What may follow an entry. *)
Definition entry_end (r : string) : Prop := r = EmptyString \/ exists r', r = String "," r'.

(** The first character outside a chunk is determined. *)
Lemma chunk_unique (p : ascii -> bool) a : forall b r r',
  str_all p a = true -> str_all p b = true ->
  (forall c t, r = String c t -> p c = false) -> (forall c t, r' = String c t -> p c = false) ->
  a +:+ r = b +:+ r' -> a = b /\ r = r'.
Proof.
  induction a as [|x a IH]; intros [|y b] r r' Ha Hb Hr Hr' E; rewrite ?sapp_nil, ?sapp_cons in E; cbn in Ha, Hb.
  - done.
  - apply andb_true_iff in Hb as [Hb _]. pose proof (Hr _ _ E). congruence.
  - apply andb_true_iff in Ha as [Ha _]. symmetry in E. pose proof (Hr' _ _ E). congruence.
  - apply andb_true_iff in Ha as [_ Ha], Hb as [_ Hb]. injection E as -> E. destruct (IH _ _ _ Ha Hb Hr Hr' E) as [-> ->]. done.
Qed.

Lemma contains_any_all p s : contains_any p s = false -> str_all (fun c => negb (p c)) s = true.
Proof. induction s as [|c s IH]; cbn; [done|]. intros [Hc Hs]%orb_false_iff. by rewrite Hc, IH. Qed.

(** A raw key does not start with a quote. *)
Lemma raw_not_json k k' r r' : contains_any is_separator k = false -> k +:+ String "=" r <> json k' +:+ r'.
Proof.
  intros Hk E. destruct (json_quote k') as [t Ht]. rewrite Ht, sapp_cons in E.
  destruct k as [|c k]; rewrite ?sapp_nil, ?sapp_cons in E; [done|]. injection E as -> _. done.
Qed.

Lemma key_text_unique k k' r r' : key_text json k +:+ String "=" r = key_text json k' +:+ String "=" r' -> k = k' /\ r = r'.
Proof.
  unfold key_text. destruct (contains_any is_separator k) eqn:E1, (contains_any is_separator k') eqn:E2; intros E.
  - apply json_delimited in E as [-> E]. by injection E as ->.
  - symmetry in E. by apply raw_not_json in E.
  - by apply raw_not_json in E.
  - apply contains_any_all in E1, E2.
    destruct (chunk_unique _ k k' (String "=" r) (String "=" r') E1 E2) as [-> E']; [by intros ? ? [= <- _]..|done|].
    by injection E' as ->.
Qed.

Lemma value_text_unique v v' r r' : entry_end r -> entry_end r' -> value_text json v +:+ r = value_text json v' +:+ r' -> v = v' /\ r = r'.
Proof.
  assert (Hend : forall r, entry_end r -> forall c t, r = String c t -> negb (bool_decide (c = ","%char)) = false).
  { intros ? [->|[? ->]] c t; [done|]. by intros [= <- _]. }
  assert (Hnum : forall i s r r', entry_end r -> pretty (A:=Z) i +:+ r <> json s +:+ r').
  { intros i s x x' Hx E. destruct (json_quote s) as [t Ht]. rewrite Ht, sapp_cons in E.
    assert (Hall : str_all (fun c => negb (bool_decide (c = quote))) (pretty i) = true) by (apply pretty_Z_chars; by vm_compute).
    destruct (pretty i) as [|c p] eqn:Ep; rewrite ?sapp_nil, ?sapp_cons in E.
    - destruct Hx as [->|[? ->]]; [done|]. by injection E.
    - injection E as -> _. cbn in Hall. by rewrite bool_decide_true in Hall. }
  intros Hr Hr' E. destruct v as [i|s], v' as [i'|s']; cbn in E.
  - assert (Hall : forall j : Z, str_all (fun c => negb (bool_decide (c = ","%char))) (pretty j) = true)
      by (intros j; apply pretty_Z_chars; by vm_compute).
    destruct (chunk_unique _ (pretty i) (pretty i') r r' (Hall i) (Hall i')) as [E' ->]; [by apply Hend..|done|].
    split; [|done]. f_equal. by apply (inj pretty).
  - by apply Hnum in E.
  - symmetry in E. by apply Hnum in E.
  - by apply json_delimited in E as [-> ->].
Qed.

Lemma join_entries kv l : exists r, entry_end r /\ join "," (kv :: l) = kv +:+ r /\ r = match l with [] => EmptyString | _ => String "," (join "," l) end.
Proof.
  destruct l as [|kv' l]; [exists EmptyString; split; [by left|]; split; [by rewrite sapp_empty_r|done]|].
  exists (String "," (join "," (kv' :: l))). split; [right; by eexists|]. done.
Qed.

Lemma derive_id_inj p p' : derive_id json p = derive_id json p' -> p = p'.
Proof.
  unfold derive_id. revert p'. induction p as [|[k v] p IH]; intros [|[k' v'] p'] E; [done|..].
  - destruct (join_entries (id_entry json (k', v')) (id_entry json <$> p')) as (r & _ & Hj & _). cbn [fmap list_fmap] in E.
    rewrite Hj in E. unfold id_entry in E. cbn in E. exfalso. destruct (key_text json k'); rewrite ?sapp_nil, ?sapp_cons in E; done.
  - destruct (join_entries (id_entry json (k, v)) (id_entry json <$> p)) as (r & _ & Hj & _). cbn [fmap list_fmap] in E.
    rewrite Hj in E. unfold id_entry in E. cbn in E. exfalso. destruct (key_text json k); rewrite ?sapp_nil, ?sapp_cons in E; done.
  - destruct (join_entries (id_entry json (k, v)) (id_entry json <$> p)) as (r & Hr & Hj & Er).
    destruct (join_entries (id_entry json (k', v')) (id_entry json <$> p')) as (r' & Hr' & Hj' & Er').
    cbn [fmap list_fmap] in E. rewrite Hj, Hj' in E. unfold id_entry in E. cbn [fst snd] in E. rewrite !sapp_assoc, !sapp_cons, !sapp_nil in E.
    apply key_text_unique in E as [-> E]. apply value_text_unique in E as [-> ->]; [|done..]. f_equal. apply IH.
    destruct p as [|? p], p' as [|? p']; cbn [fmap list_fmap] in Er, Er'; [done|by rewrite Er in Er'|by rewrite Er in Er'|].
    cbn [fmap list_fmap]. rewrite Er in Er'. by injection Er'.
Qed.
End ids.

(** Ids identify configurations. Two configurations built from parameter lists have the same id only if they
    have the same parameters: an integer and a string of its digits differ, and no key or value can imitate a
    separator. The JSON encoding of a string starts with a quote and determines where it ends. *)
Lemma config_ids_identify (json : string -> string) (entries entries' : list (string * ParamValue))
    (Hquote : forall s, exists t, json s = String quote t)
    (Hdelim : forall s s' r r', json s +:+ r = json s' +:+ r' -> s = s' /\ r = r')
    (Hid : id (Config_new json entries) = id (Config_new json entries')) :
  Config_new json entries = Config_new json entries'.
Proof. unfold Config_new in *. cbn in Hid. apply derive_id_inj in Hid; [|done..]. by rewrite Hid. Qed.

(** JSON strings of printable text. *)
Definition backslash : ascii := ascii_of_nat 92.

Fixpoint escape (s : string) : string :=
  match s with
  | EmptyString => EmptyString
  | String c s =>
      if bool_decide (c = quote) || bool_decide (c = backslash) then String backslash (String c (escape s)) else String c (escape s)
  end.

Definition json_text (s : string) : string := String quote (escape s +:+ String quote EmptyString).

Lemma escape_delimited s : forall s' r r', escape s +:+ String quote r = escape s' +:+ String quote r' -> s = s' /\ r = r'.
Proof.
  assert (Hnot : forall c s r r', escape (String c s) +:+ String quote r <> String quote r').
  { intros c s0 r r'. cbn. destruct (bool_decide (c = quote) || bool_decide (c = backslash)) eqn:E; rewrite !sapp_cons; intros [= E' _].
    subst c. by rewrite bool_decide_true in E. }
  induction s as [|c s IH]; intros [|c' s'] r r' E.
  - cbn in E. rewrite !sapp_nil in E. by injection E as ->.
  - change (escape EmptyString) with EmptyString in E. rewrite sapp_nil in E. symmetry in E. by apply Hnot in E.
  - change (escape EmptyString) with EmptyString in E. rewrite sapp_nil in E. by apply Hnot in E.
  - cbn in E. destruct (bool_decide (c = quote) || bool_decide (c = backslash)) eqn:E1,
      (bool_decide (c' = quote) || bool_decide (c' = backslash)) eqn:E2; rewrite !sapp_cons in E.
    + injection E as -> E. apply IH in E as [-> ->]. done.
    + injection E as <- _. by rewrite (bool_decide_true (backslash = backslash)), orb_true_r in E2.
    + injection E as -> _. by rewrite (bool_decide_true (backslash = backslash)), orb_true_r in E1.
    + injection E as -> E. apply IH in E as [-> ->]. done.
Qed.

Lemma config_ids_identify_witness :
  id (Config_new json_text [("BN", Int 64); ("A", Str "1")]) = id (Config_new json_text [("A", Str "1"); ("BN", Int 64)]) /\
  Config_new json_text [("BN", Int 64); ("A", Str "1")] = Config_new json_text [("A", Str "1"); ("BN", Int 64)].
Proof.
  split; [vm_compute; reflexivity|]. apply (config_ids_identify json_text).
  - intros s. exists (escape s +:+ String quote EmptyString). reflexivity.
  - intros s s' r r' E. unfold json_text in E. rewrite !sapp_cons, !sapp_assoc, !sapp_cons, !sapp_nil in E.
    injection E as E. by apply escape_delimited in E.
  - vm_compute. reflexivity.
Defined.
