(* ===== verification/TuneRecord.v ===== *)
(** * Tuning records and trial logs (cutile/src/tune.rs)

    A record keeps the winners of a tuning run and is checked against the
    workspace before they are applied; a trial log makes an interrupted run
    resumable.  JSON is a library of its own: parsed records are inputs, and
    the text of headers and trials is a parameter with its parser. *)

From Stdlib Require Import Ascii.
From S2P Require Import Prelude BTree Text Tune.

#[local] Open Scope Z_scope.
#[local] Open Scope rust_scope.

(** ** Records *)

Definition RECORD_SCHEMA : Z := 1.
Definition L2_KEY_SCHEMA : Z := 2.

Inductive L2Key :=
| Tagged (schema : Z) (digest : string)
| Untagged (digest : string).

Definition L2Key_current (digest : string) : L2Key := Tagged L2_KEY_SCHEMA digest.

Definition L2Key_digest (k : L2Key) : string := match k with Tagged _ d | Untagged d => d end.

Definition comparable (k : L2Key) : string + string :=
  match k with
  | Tagged schema digest =>
      if schema =? L2_KEY_SCHEMA then inl digest
      else inr ("was computed under l2 key encoding " +:+ pretty schema +:+ ", workspace uses " +:+ pretty L2_KEY_SCHEMA)
  | Untagged _ => inr ("predates l2 key encoding tags, workspace uses " +:+ pretty L2_KEY_SCHEMA)
  end.

Record RecordEntry := mkEntry { bucket : string; e_config : Config; e_median : Z; samples : Z; l2_key : option L2Key }.

Record Workspace := mkWorkspace {
  ws_kernel : string; ws_source_hash : string; ws_arch : string; ws_fingerprint : string; ws_space_hash : option string }.

Record TuningRecord := mkRecord {
  schema : Z; kernel : string; source_hash : string; cutile_version : string; tileiras_fingerprint : string;
  arch : string; machine : string; created_unix_secs : Z; r_space_hash : option string; gate : option string; entries : list RecordEntry }.

(** The version, the host name and the time come from the environment. *)
Definition Record_new (version hostname : string) (now : Z) (ws : Workspace) : TuningRecord :=
  mkRecord RECORD_SCHEMA (ws_kernel ws) (ws_source_hash ws) version (ws_fingerprint ws) (ws_arch ws) hostname now (ws_space_hash ws) None [].

Fixpoint insert_entry (e : RecordEntry) (l : list RecordEntry) : list RecordEntry :=
  match l with
  | [] => [e]
  | slot :: l => if bool_decide (bucket slot = bucket e) then e :: l else slot :: insert_entry e l
  end.

Definition Record_insert (e : RecordEntry) (r : TuningRecord) : TuningRecord :=
  mkRecord (schema r) (kernel r) (source_hash r) (cutile_version r) (tileiras_fingerprint r) (arch r)
    (machine r) (created_unix_secs r) (r_space_hash r) (gate r)
    (insert_entry e (entries r)).

Definition Record_get (r : TuningRecord) (b : string) : option RecordEntry := snd <$> list_find (fun e => bucket e = b) (entries r).

Section load.
(** The JSON text of a string, its [Debug] text, the path of the record, the
    running version, and the key the workspace derives for an entry. *)
Context (json debug : string -> string) (path version : string).
Context (verify_l2 : RecordEntry -> outcome string (option string)).

Definition refuse {A} (what stored current : string) : outcome string A :=
  Err ("stale tuning record at " +:+ path +:+ ": " +:+ what +:+ " mismatch (record: " +:+ stored +:+ ", workspace: "
         +:+ current +:+ "); re-tune or delete it").

(** The loop over the entries: buckets are distinct and ids derived. *)
Fixpoint check_entries (seen : list string) (l : list RecordEntry) : outcome string unit :=
  match l with
  | [] => Ok tt
  | e :: l =>
      if bool_decide (bucket e ∈ seen)
      then Err ("tuning record at " +:+ path +:+ " has duplicate entries for bucket " +:+ debug (bucket e) +:+ "; fix or re-tune it")
      else
        let derived := id (Config_new json (params (e_config e))) in
        if negb (bool_decide (id (e_config e) = derived))
        then refuse ("config id for bucket " +:+ debug (bucket e)) (id (e_config e)) derived
        else check_entries (bucket e :: seen) l
  end.

(** The key check of one entry: a warning, or nothing. *)
Definition check_key (e : RecordEntry) : outcome string (list string) :=
  match comparable <$> l2_key e with
  | None => Ok ["bucket " +:+ debug (bucket e) +:+ " carries no l2 key; only source-level staleness checks applied"]
  | Some (inr why) =>
      Ok ["bucket " +:+ debug (bucket e) +:+ ": stored l2 key " +:+ why
            +:+ "; the key check was skipped — configs remain valid, consider re-tuning"]
  | Some (inl stored) =>
      current ← verify_l2 e;
      match current with
      | None => Ok ["bucket " +:+ debug (bucket e) +:+ ": verifier declined to recompute the l2 key; stored key not checked"]
      | Some current =>
          if bool_decide (current = stored) then Ok []
          else refuse ("l2 key for bucket " +:+ debug (bucket e)) stored current
      end
  end.

Fixpoint check_keys (l : list RecordEntry) : outcome string (list string) :=
  match l with
  | [] => Ok []
  | e :: l => w ← check_key e; ws ← check_keys l; Ok (w ++ ws)
  end.

Definition load_verified (r : TuningRecord) (ws : Workspace) : outcome string (TuningRecord * list string) :=
  if negb (schema r =? RECORD_SCHEMA) then refuse "schema" (pretty (schema r)) (pretty RECORD_SCHEMA)
  else if negb (bool_decide (kernel r = ws_kernel ws)) then refuse "kernel" (kernel r) (ws_kernel ws)
  else if negb (bool_decide (arch r = ws_arch ws)) then refuse "arch" (arch r) (ws_arch ws)
  else if negb (bool_decide (source_hash r = ws_source_hash ws)) then refuse "source_hash" (source_hash r) (ws_source_hash ws)
  else
    _ ← match r_space_hash r, ws_space_hash ws with
        | Some stored, Some current => if bool_decide (stored = current) then Ok tt else refuse "space_hash" stored current
        | _, _ => Ok tt
        end;
    _ ← check_entries [] (entries r);
    let space_warning :=
      match r_space_hash r, ws_space_hash ws with
      | None, Some _ => ["tuning record carries no space_hash; the search-space match was not checked"%string]
      | _, _ => []
      end in
    keys ← (if negb (bool_decide (tileiras_fingerprint r = ws_fingerprint ws))
            then Ok ["tuning record was produced by a different tileiras (" +:+ tileiras_fingerprint r +:+ " vs " +:+ ws_fingerprint ws
                       +:+ "); configs remain valid but timings may have shifted and per-entry key verification was skipped — consider re-tuning"]
            else check_keys (entries r));
    let version_warning :=
      if negb (bool_decide (cutile_version r = version))
      then ["tuning record was produced by cutile " +:+ cutile_version r +:+ " (running " +:+ version +:+ ")"] else [] in
    Ok (r, space_warning ++ keys ++ version_warning).

(** *** What an accepted record satisfies *)

(** A comparable key agrees with the workspace, or the verifier declined. *)
Definition key_current (e : RecordEntry) : Prop :=
  forall stored, comparable <$> l2_key e = Some (inl stored) -> verify_l2 e = Ok None \/ verify_l2 e = Ok (Some stored).

Definition acceptable (r : TuningRecord) (ws : Workspace) : Prop :=
  schema r = RECORD_SCHEMA /\ kernel r = ws_kernel ws /\ arch r = ws_arch ws /\ source_hash r = ws_source_hash ws /\
  (forall a b, r_space_hash r = Some a -> ws_space_hash ws = Some b -> a = b) /\
  NoDup (bucket <$> entries r) /\ Forall (fun e => id (e_config e) = id (Config_new json (params (e_config e)))) (entries r) /\
  (tileiras_fingerprint r = ws_fingerprint ws -> Forall key_current (entries r)).

Lemma check_entries_spec l : forall seen, check_entries seen l = Ok tt <->
  NoDup (bucket <$> l) /\ Forall (fun e => bucket e ∉ seen) l /\ Forall (fun e => id (e_config e) = id (Config_new json (params (e_config e)))) l.
Proof.
  induction l as [|e l IH]; intros seen; cbn [check_entries fmap list_fmap]; [split; [intros _; split_and!; constructor|done]|].
  rewrite NoDup_cons, !Forall_cons. case_bool_decide as Hs; [split; [done|naive_solver]|].
  case_bool_decide as Hi; cbn [negb]; [|split; [done|naive_solver]]. rewrite IH.
  assert (E : Forall (fun x => bucket x ∉ bucket e :: seen) l <-> bucket e ∉ bucket <$> l /\ Forall (fun x => bucket x ∉ seen) l).
  { rewrite !Forall_forall, list_elem_of_fmap. set_solver. }
  rewrite E. tauto.
Qed.

Lemma check_key_spec e : (exists w, check_key e = Ok w) <-> key_current e.
Proof.
  unfold check_key, key_current. destruct (comparable <$> l2_key e) as [[stored|why]|]; [|split; [done|by eauto]..].
  destruct (verify_l2 e) as [[cur|]|err|]; cbn.
  - case_bool_decide as E; [subst; split; [intros _ s [= <-]; by right|by eauto]|].
    split; [by intros [? ?]|]. intros H. destruct (H stored eq_refl) as [?|[= ->]]; done.
  - split; [intros _ s _; by left|by eauto].
  - split; [by intros [? ?]|]. intros H. by destruct (H stored eq_refl).
  - split; [by intros [? ?]|]. intros H. by destruct (H stored eq_refl).
Qed.

Lemma check_keys_spec l : (exists w, check_keys l = Ok w) <-> Forall key_current l.
Proof.
  induction l as [|e l IH]; cbn [check_keys]; [split; [constructor|by eauto]|]. rewrite Forall_cons, <- IH, <- check_key_spec.
  split.
  - intros (w & (w1 & H1 & H)%bind_Ok). apply bind_Ok in H as (w2 & H2 & _). eauto.
  - intros [[w1 H1] [w2 H2]]. rewrite H1, H2. cbn. eauto.
Qed.
End load.

(** C37: Loading a record is exact. A record is accepted, with whatever warnings, exactly if its schema, kernel,
    architecture and source hash are those of the workspace, its space hash agrees where both have one, its buckets
    are distinct, every id is the one derived from the parameters, and, unless the toolchain differs, every key that
    can be compared is the one the workspace derives or the verifier declined to derive it. *)
Theorem load_verified_exact (json debug : string -> string) (path version : string)
    (verify_l2 : RecordEntry -> outcome string (option string)) (r : TuningRecord) (ws : Workspace) :
  (exists warnings, load_verified json debug path version verify_l2 r ws = Ok (r, warnings)) <-> acceptable json verify_l2 r ws.
Proof.
  unfold load_verified, acceptable. destruct (Z.eqb_spec (schema r) RECORD_SCHEMA); [|split; [by intros [? ?]|naive_solver]].
  case_bool_decide; [|split; [by intros [? ?]|naive_solver]]. case_bool_decide; [|split; [by intros [? ?]|naive_solver]].
  case_bool_decide; [|split; [by intros [? ?]|naive_solver]]. cbn [negb].
  pose proof (check_entries_spec json debug path verify_l2 (entries r) []) as He. pose proof (check_keys_spec debug path verify_l2 (entries r)) as Hk.
  split.
  - intros (w & (u & Hs & Hw)%bind_Ok). apply bind_Ok in Hw as ([] & Hc & Hw). apply bind_Ok in Hw as (keys & Hkeys & _).
    apply He in Hc as (Hnd & _ & Hid). split_and!; try done.
    + intros a b Ea Eb. rewrite Ea, Eb in Hs. destruct (decide (a = b)) as [|Hne]; [done|].
      rewrite bool_decide_false in Hs by done. discriminate Hs.
    + intros Ef. rewrite bool_decide_true in Hkeys by done. apply Hk. by eauto.
  - intros (_ & _ & _ & _ & Hsp & Hnd & Hid & Hkey).
    assert (Hs : match r_space_hash r, ws_space_hash ws with
                 | Some stored, Some current => if bool_decide (stored = current) then Ok tt else refuse path "space_hash" stored current
                 | _, _ => Ok tt end = Ok tt).
    { destruct (r_space_hash r) as [a|], (ws_space_hash ws) as [b|]; try done. by rewrite bool_decide_true by (by apply Hsp). }
    rewrite Hs. cbn [mbind outcome_bind]. rewrite (proj2 He) by (split_and!; [done| |done]; rewrite Forall_forall; set_solver). cbn [mbind outcome_bind].
    destruct (decide (tileiras_fingerprint r = ws_fingerprint ws)) as [Ef|Ef].
    + rewrite (bool_decide_true (tileiras_fingerprint r = _)) by done. destruct (proj2 Hk (Hkey Ef)) as [keys Hkeys]. cbn [negb].
      rewrite Hkeys. eexists. reflexivity.
    + rewrite (bool_decide_false (tileiras_fingerprint r = _)) by done. eexists. reflexivity.
Qed.

(** Inserting replaces the bucket's winner and leaves the others in place. *)
Lemma record_insert_get e r b : Record_get (Record_insert e r) b = if bool_decide (bucket e = b) then Some e else Record_get r b.
Proof.
  unfold Record_get, Record_insert. cbn [entries]. induction (entries r) as [|x l IH]; cbn [insert_entry list_find].
  - destruct (decide (bucket e = b)); [by rewrite bool_decide_true|by rewrite bool_decide_false].
  - destruct (decide (bucket x = bucket e)) as [E1|E1].
    + rewrite (bool_decide_true (bucket x = _)) by done. cbn [list_find]. destruct (decide (bucket e = b)) as [E2|E2].
      * by rewrite (bool_decide_true (bucket e = b)).
      * by rewrite (bool_decide_false (bucket e = b)), decide_False by congruence.
    + rewrite (bool_decide_false (bucket x = _)) by done. cbn [list_find]. destruct (decide (bucket x = b)) as [E2|E2].
      * by rewrite bool_decide_false by congruence.
      * destruct (list_find _ (insert_entry e l)) as [[k y]|], (list_find _ l) as [[k' y']|]; cbn in *; done.
Qed.

Lemma record_insert_nodup e l : NoDup (bucket <$> l) -> NoDup (bucket <$> insert_entry e l).
Proof.
  assert (Hin : forall b l, b ∈ (bucket <$> insert_entry e l) -> b = bucket e \/ b ∈ (bucket <$> l)).
  { intros b l'. induction l' as [|x l' IH]; cbn; [set_solver|]. case_bool_decide; cbn; set_solver. }
  induction l as [|x l IH]; cbn; [intros _; apply NoDup_singleton|]. rewrite NoDup_cons. intros [Hx Hl].
  case_bool_decide as E; cbn; rewrite NoDup_cons; [by rewrite <- E|]. split; [|by apply IH]. intros [?|?]%Hin; done.
Qed.

(** ** Trial logs *)

Record LogProvenance := mkProvenance { p_arch : option string; p_source_hash : option string; p_fingerprint : option string }.

Definition from_workspace (ws : Workspace) : LogProvenance :=
  mkProvenance (Some (ws_arch ws)) (Some (ws_source_hash ws)) (Some (ws_fingerprint ws)).

Definition axes (stored running : LogProvenance) : list (string * option string * option string) :=
  [("arch", p_arch stored, p_arch running); ("source_hash", p_source_hash stored, p_source_hash running);
   ("tileiras fingerprint", p_fingerprint stored, p_fingerprint running)]%string.

Record LogHeader := mkHeader { log_schema : Z; tuner : string; space : string; provenance : LogProvenance }.

Inductive ReadResult := NotFound | ReadError (e : string) | Contents (s : string).

Definition ends_with_newline (s : string) : bool := is_some (strip_suffix (String newline EmptyString) s).

Section log.
(** JSON of headers and trials, [Debug] of strings, and the path. *)
Context (header_json : LogHeader -> string) (header_parse : string -> option LogHeader).
Context (trial_json : Trial -> string) (trial_parse : string -> option Trial).
Context (debug : string -> string) (path : string).

Definition axis_diff (a : string * option string * option string) : option string :=
  match a with
  | (axis, Some h, Some e) => if bool_decide (h = e) then None else Some (axis +:+ " " +:+ debug h +:+ " (running " +:+ debug e +:+ ")")
  | _ => None
  end.

Definition header_diffs (header expected : LogHeader) : list string :=
  (if log_schema header =? log_schema expected then []
   else ["log schema " +:+ pretty (log_schema header) +:+ " (this cutile writes " +:+ pretty (log_schema expected) +:+ ")"]) ++
  (if bool_decide (tuner header = tuner expected) then []
   else ["tuner " +:+ debug (tuner header) +:+ " (running " +:+ debug (tuner expected) +:+ ")"]) ++
  (if bool_decide (space header = space expected) then []
   else ["space " +:+ space header +:+ " (running " +:+ space expected +:+ ")"]) ++
  omap axis_diff (axes (provenance header) (provenance expected)).

(** [TrialLog::open] on what was read: the contents of the file after it, and
    the trials to resume.  Opening and writing the file succeed. *)
Definition log_open (read : ReadResult) (expected : LogHeader) : outcome string (string * list Trial) :=
  match read with
  | ReadError e => Err ("trial log " +:+ path +:+ " is unreadable: " +:+ e)
  | NotFound => Ok (header_json expected +:+ String newline EmptyString, [])
  | Contents contents =>
      if bool_decide (trim contents = EmptyString) then Ok (header_json expected +:+ String newline EmptyString, [])
      else
        match head (lines contents) ≫= header_parse with
        | None => Err ("trial log " +:+ path +:+ " has no valid header; delete it or point .log() elsewhere")
        | Some header =>
            let diffs := header_diffs header expected in
            if negb (bool_decide (diffs = []))
            then Err ("trial log " +:+ path +:+ " belongs to a different search — " +:+ join ", " diffs
                        +:+ "; delete it or point .log() elsewhere")
            else Ok (if ends_with_newline contents then contents else contents +:+ String newline EmptyString,
                     omap trial_parse (tail (lines contents)))
        end
  end.

Definition log_append (contents : string) (t : Trial) : string := contents +:+ trial_json t +:+ String newline EmptyString.
End log.

(** *** Texts of lines *)

Definition text (ls : list string) : string := foldr (fun l r => l +:+ String newline r) EmptyString ls.

(** JSON text: no line break in it. *)
Definition one_line (s : string) : bool :=
  str_all (fun c => negb (bool_decide (c = newline)) && negb (bool_decide (c = carriage_return))) s.

Lemma text_cons l ls : text (l :: ls) = l +:+ String newline (text ls).
Proof. reflexivity. Qed.

Lemma text_app l1 l2 : text (l1 ++ l2) = text l1 +:+ text l2.
Proof. induction l1 as [|l l1 IH]; cbn [app]; [by rewrite sapp_nil|]. by rewrite !text_cons, IH, sapp_assoc, sapp_cons. Qed.

Lemma one_line_split s : one_line s = true -> str_all (fun c => negb (bool_decide (c = newline))) s = true.
Proof. apply str_all_impl. intros c Hc. by apply andb_true_iff in Hc as [? _]. Qed.

Lemma strip_cr_one_line s : one_line s = true -> strip_cr s = s.
Proof. intros H. unfold strip_cr. by rewrite (strip_suffix_absent _ _ s H). Qed.

Lemma str_split_nonempty p s : str_split p s <> [].
Proof. induction s as [|c s IH]; [done|]. cbn. destruct (p c); [done|]. by destruct (str_split p s). Qed.

Lemma lines_cons l r : one_line l = true -> lines (l +:+ String newline r) = l :: lines r.
Proof.
  intros Hl. unfold lines. rewrite str_split_app by (try apply one_line_split; done).
  pose proof (str_split_nonempty (fun c => bool_decide (c = newline)) r) as Hne.
  destruct (str_split (fun c => bool_decide (c = newline)) r) as [|p ps]; [done|]. cbn [length take]. 
  replace (S (S (length ps)) - 1)%nat with (S (length ps)) by lia. replace (S (length ps) - 1)%nat with (length ps) by lia.
  cbn [take fmap list_fmap]. by rewrite strip_cr_one_line.
Qed.

Lemma lines_tail s : one_line s = true -> lines s = if bool_decide (s = EmptyString) then [] else [s].
Proof. intros Hs. unfold lines. by rewrite str_split_one by (by apply one_line_split). Qed.

Lemma lines_text ls s : Forall (fun l => one_line l = true) ls -> one_line s = true ->
  lines (text ls +:+ s) = ls ++ if bool_decide (s = EmptyString) then [] else [s].
Proof.
  intros Hls Hs. induction Hls as [|l ls Hl Hls IH]; cbn [app]; [cbn [text foldr]; rewrite sapp_nil; by apply lines_tail|].
  by rewrite text_cons, sapp_assoc, sapp_cons, lines_cons, IH.
Qed.

Lemma ends_with_app a c b : ends_with_newline (a +:+ String c b) = ends_with_newline (String c b).
Proof.
  unfold ends_with_newline, strip_suffix. rewrite length_sapp. cbn [String.length].
  replace (String.length a + S (String.length b) - 1)%nat with (String.length a + (S (String.length b) - 1))%nat by lia.
  rewrite str_drop_app. replace (1 <=? String.length a + S (String.length b))%nat with true by (symmetry; apply Nat.leb_le; lia).
  cbn [Nat.leb andb]. by destruct (bool_decide _).
Qed.

Lemma ends_with_text l ls : ends_with_newline (text (l :: ls)) = true.
Proof.
  revert l. induction ls as [|l' ls IH]; intros l; rewrite text_cons, ends_with_app; [done|]. specialize (IH l').
  destruct (text (l' :: ls)) as [|c t] eqn:E; [by destruct l'|].
  change (String newline (String c t)) with (String newline EmptyString +:+ String c t). by rewrite ends_with_app.
Qed.

Lemma ends_with_one_line a s : s <> EmptyString -> one_line s = true -> ends_with_newline (a +:+ s) = false.
Proof.
  intros Hne Hs. destruct s as [|c s]; [done|]. rewrite ends_with_app. unfold ends_with_newline.
  by rewrite (strip_suffix_absent _ _ _ Hs).
Qed.

(** A trial whose timings JSON can express. *)
Definition loggable (t : Trial) : Prop :=
  match trial_state t with Measured m n _ => is_finite m = true /\ is_finite n = true | Invalid _ => True end.

(** The constructors make only such trials. *)
Lemma constructed_loggable show i m n reps : loggable (Trial_measured show i m n reps).
Proof.
  unfold loggable, Trial_measured, measured_or_invalid. cbn [trial_state].
  destruct (is_finite m) eqn:Em, (is_finite n) eqn:En; done.
Qed.

(** What the log relies on of JSON: text on one line that starts with a brace
    and is read back. *)
Class LogJson (header_json : LogHeader -> string) (header_parse : string -> option LogHeader)
    (trial_json : Trial -> string) (trial_parse : string -> option Trial) : Prop := {
  header_roundtrip : forall h, header_parse (header_json h) = Some h;
  header_brace : forall h, exists r, header_json h = String "{" r;
  header_line : forall h, one_line (header_json h) = true;
  trial_roundtrip : forall t, loggable t -> trial_parse (trial_json t) = Some t;
  trial_line : forall t, one_line (trial_json t) = true;
}.

Section log_facts.
Context `{J : LogJson hj hp tj tp} (debug : string -> string) (path : string).

Lemma log_append_text ls t : log_append tj (text ls) t = text (ls ++ [tj t]).
Proof. unfold log_append. by rewrite text_app, text_cons. Qed.

Lemma log_appends_text ts : forall ls, foldl (log_append tj) (text ls) ts = text (ls ++ (tj <$> ts)).
Proof.
  induction ts as [|t ts IH]; intros ls; cbn [foldl fmap list_fmap]; [by rewrite app_nil_r|].
  by rewrite log_append_text, IH, <- (assoc_L (++)).
Qed.

Lemma trim_brace s : trim (String "{" s) <> EmptyString.
Proof.
  unfold trim. cbn [trim_start_matches]. replace (is_whitespace "{") with false by reflexivity. cbn [trim_end_matches].
  replace (is_whitespace "{") with false by reflexivity. destruct (trim_end_matches is_whitespace s); discriminate.
Qed.

Lemma same_header_diffs h : header_diffs debug h h = [].
Proof.
  assert (Ha : forall n o, axis_diff debug (n, o, o) = None) by (intros n [x|]; cbn; [by rewrite bool_decide_true|done]).
  unfold header_diffs, axes. rewrite Z.eqb_refl, (bool_decide_true (tuner h = _)), (bool_decide_true (space h = _)) by done.
  cbn [app omap list_omap]. by rewrite !Ha.
Qed.

Lemma omap_trials ts : Forall loggable ts -> omap tp (tj <$> ts) = ts.
Proof. induction 1 as [|t ts Ht Hts IH]; [done|]. cbn. by rewrite trial_roundtrip, IH. Qed.

(** Reopening a log that is lines of text and a rest without line break. *)
Lemma log_reopen h ls s : Forall (fun l => one_line l = true) ls -> one_line s = true ->
  log_open hj hp tp debug path (Contents (text (hj h :: ls) +:+ s)) h =
    Ok (if bool_decide (s = EmptyString) then text (hj h :: ls) else text (hj h :: ls ++ [s]),
        omap tp (ls ++ if bool_decide (s = EmptyString) then [] else [s])).
Proof.
  intros Hls Hs. unfold log_open. rewrite bool_decide_false.
  2: { rewrite text_cons. destruct (header_brace h) as [r ->]. rewrite !sapp_cons. apply trim_brace. }
  rewrite lines_text by (try constructor; try done; apply header_line). cbn [app head mbind option_bind tail].
  rewrite header_roundtrip, same_header_diffs. cbn [negb bool_decide]. rewrite bool_decide_true by done. cbn [negb].
  destruct (decide (s = EmptyString)) as [->|Hne].
  - by rewrite sapp_empty_r, ends_with_text, bool_decide_true.
  - rewrite ends_with_one_line, !(bool_decide_false (s = _)) by done.
    change (hj h :: ls ++ [s]) with ((hj h :: ls) ++ [s]). by rewrite text_app, text_cons, sapp_assoc.
Qed.
End log_facts.


(** An instance of the interface: a brace and the number that encodes the value. *)
#[export] Instance TrialState_countable : Countable TrialState.
Proof.
  refine (inj_countable' (fun s => match s with Measured m n r => inl (m, n, r) | Invalid e => inr e end)
    (fun x => match x with inl (m, n, r) => Measured m n r | inr e => Invalid e end) _). by intros [].
Defined.

#[export] Instance Trial_countable : Countable Trial.
Proof. refine (inj_countable' (fun t => (config_id t, trial_state t)) (fun x => mkTrial x.1 x.2) _). by intros []. Defined.

#[export] Instance LogProvenance_eq_dec : EqDecision LogProvenance.
Proof. solve_decision. Defined.

#[export] Instance LogHeader_eq_dec : EqDecision LogHeader.
Proof. solve_decision. Defined.

#[export] Instance LogProvenance_countable : Countable LogProvenance.
Proof.
  refine (inj_countable' (fun p => (p_arch p, p_source_hash p, p_fingerprint p)) (fun x => mkProvenance x.1.1 x.1.2 x.2) _). by intros [].
Defined.

#[export] Instance LogHeader_countable : Countable LogHeader.
Proof.
  refine (inj_countable' (fun h => (log_schema h, tuner h, space h, provenance h)) (fun x => mkHeader x.1.1.1 x.1.1.2 x.1.2 x.2) _). by intros [].
Defined.

Definition number_json {A} `{Countable A} (x : A) : string := String "{" (pretty (encode x)).

Definition number_parse {A} `{Countable A} (s : string) : option A :=
  match s with
  | String _ r => z ← parse_magnitude r; match z with Zpos p => decode p | _ => None end
  | EmptyString => None
  end.

Lemma number_roundtrip {A} `{Countable A} (x : A) : number_parse (number_json x) = Some x.
Proof. unfold number_parse, number_json. destruct (pretty_positive_digits (encode x)) as [-> _]. cbn. by rewrite decode_encode. Qed.

Lemma number_line {A} `{Countable A} (x : A) : one_line (number_json x) = true.
Proof.
  unfold one_line, number_json. cbn [str_all]. apply andb_true_iff. split; [reflexivity|].
  destruct (pretty_positive_digits (encode x)) as [_ Hd]. revert Hd. apply str_all_impl. intros c Hc.
  by apply (digit_not c (fun c => negb (bool_decide (c = newline)) && negb (bool_decide (c = carriage_return)))).
Qed.

#[export] Instance number_LogJson : LogJson number_json number_parse number_json number_parse.
Proof.
  split; [apply number_roundtrip|by eexists|apply number_line|intros; apply number_roundtrip|apply number_line].
Qed.

Definition demo_header : LogHeader := mkHeader 1 "fmha" "space" (mkProvenance (Some "sm_120") None None).
Definition demo_trial (i : string) : Trial := Trial_measured (fun z => pretty z) i 0x3F800000 0x3F800000 5.


(** A log of another search is refused: schema, tuner and space agree, and so
    does every axis both sides name. *)
Lemma log_open_same_search hj hp tp debug path c h c' ts :
  log_open hj hp tp debug path (Contents c) h = Ok (c', ts) -> trim c <> EmptyString ->
  exists hd, head (lines c) ≫= hp = Some hd /\ log_schema hd = log_schema h /\ tuner hd = tuner h /\ space hd = space h /\
    forall n x y, (n, Some x, Some y) ∈ axes (provenance hd) (provenance h) -> x = y.
Proof.
  cbn. intros H Hne. rewrite bool_decide_false in H by done. destruct (head (lines c) ≫= hp) as [hd|]; [|done]. exists hd.
  destruct (decide (header_diffs debug hd h = [])) as [E|E]; [clear H|by rewrite bool_decide_false in H].
  unfold header_diffs in E. apply app_eq_nil in E as [E1 E]. apply app_eq_nil in E as [E2 E]. apply app_eq_nil in E as [E3 E4].
  destruct (Z.eqb_spec (log_schema hd) (log_schema h)); [|done]. case_bool_decide; [|done]. case_bool_decide; [|done].
  split_and!; try done. intros n x y Hin. destruct (decide (x = y)) as [|Hxy]; [done|]. exfalso.
  assert (Hd : exists d, d ∈ omap (axis_diff debug) (axes (provenance hd) (provenance h))).
  { eexists. apply list_elem_of_omap. exists (n, Some x, Some y). split; [done|]. cbn. by rewrite bool_decide_false. }
  destruct Hd as [d Hd]. rewrite E4 in Hd. by apply not_elem_of_nil in Hd.
Qed.
